(* ===== verification/_CoqProject ===== *)
-Q . S2P
Prelude.v
CborEncode.v
Ieee.v
CborDecode.v
CborGrammar.v
CborMatch.v
CborMatchSpec.v
CborIn.v
CborTheorems.v
CppText.v
CborJson.v
CborAccess.v
JsonSpec.v
JsonText.v
JsonSound.v
JsonTheorems.v
Env.v
Instance.v
InstanceInv.v
InstanceStep.v
InstanceTheorems.v
InstanceExit.v
InstanceApi.v
Actors.v
Messages.v
Replies.v
InstanceTypes.v
Acts.v
Hub.v
Endpoint.v
Debug.v
Solo.v
Commands.v
Library.v
HubTheorems.v
HubPipe.v
EndpointTheorems.v
ConnectorTheorems.v
DebugTheorems.v
DebugCalls.v
DebugJson.v
Socket.v
SocketTheorems.v
Timers.v
Ports.v
PortsTheorems.v
PortsTcp.v
Trace.v
TraceInv.v
TraceTheorems.v
TraceFiles.v
Executor.v
ExecutorInv.v
ExecutorTheorems.v
SocketStrands.v
Descriptors.v
Waits.v
Backtrace.v
Lifetimes.v
Expected.v
ExpectedTheorems.v
ExpectedRuns.v
CApi.v
CApiTheorems.v
CContexts.v
