(* ===== verification/Prelude.v ===== *)
(** * A model of thespian, an actor framework in C++, with its theorems

    thespian runs actors ("instances") on a thread pool.  An instance is a
    closure that gets one message at a time; messages are buffers of CBOR;
    instances link to each other, exit, trap exits, are traced and debugged.
    The library adds a hub, timers, sockets, endpoints that carry messages
    between processes, and a debug server.  Paths below are those of the
    repository.

    ** Parts, and where they are modelled

    - [Prelude]: integers of fixed width, octets, the result type [res] with the
      exceptions of the code, list lemmas, tactics and hints.
    - [CborEncode], [CborDecode], [CborMatch]: [cbor::buffer] of
      [src/include/cbor/cbor.hpp] and [src/src/cbor.cpp]: the push operations,
      the decoders and [skip_value], and matching ([operator()], extractors,
      iteration over ranges).  An iterator is the list of the octets that are
      left.  [Ieee] has the floating-point formats; [CborGrammar] the grammar of
      the octets ([item], [wire]) and [CborMatchSpec] matching as a function of
      the grammar, against which the code is proved in [CborTheorems].
      [CborAccess] has [value_accessor] and [range], with visitors; [CborIn] the
      addresses of [src/include/cbor/cbor_in.hpp].
    - [CppText], [CborJson]: [to_json], [push_json] and [hexdump] of
      [src/src/cbor.cpp] with the number conversions of the standard library
      they use; [JsonSpec], [JsonText], [JsonSound], [JsonTheorems].
    - [Env]: [handle], trace channels and [env_t]
      ([src/include/thespian/handle.hpp], [trace.hpp], [env.hpp]).
    - [Instance]: [instance], [context_impl], the debug registry and the taps of
      [src/src/instance.cpp].  The client's code is a tree of API calls
      ([prog]), given by an arbitrary function [call] of its closures; a
      [world] holds all instances, strands and the context; [step] is one step
      of one thread.  [InstanceInv] has the invariant [wf], [InstanceStep] what
      a step can change, and [InstanceTheorems], [InstanceExit],
      [InstanceApi] and [InstanceTypes] the theorems, which hold for every client and
      every interleaving.  A send from any thread is taken apart into its steps
      ([queue_part]: the lock of the reference, the check of [in_shutdown], the copy
      of [lifetime_], the post), and references that others hold to an instance
      ([holders]) keep it alive.
    - [Actors], [Hub], [Endpoint], [Debug], [Library]: the actors that come with
      the library ([src/src/hub.cpp]; namespaces [endpoint] and [debug] of
      [src/src/instance.cpp]), written as programs of that same API over a heap
      of objects; [Library.library_call] is the [call] of the whole library with
      a client beside it.  [Solo] runs one task as a function, [play], and
      proves that the runtime does the same ([play_sound], [task_plays]); [Acts]
      has what a task may do while other instances do as they like, with rules
      ([wp]) and their soundness ([at_work_acts]).  [Messages], [Replies] and
      [Commands] compute with messages and commands.  [HubTheorems],
      [EndpointTheorems], [ConnectorTheorems] and [DebugTheorems] are over [Solo],
      [DebugCalls] (the calls of the debug server) and [DebugJson] (its JSON mode)
      over [Acts].  [HubPipe] has the queue of filters of [src/src/hub.cpp] that
      [hub::subscribe] shares with the hub, step by step under its mutex.
    - [Socket], [Timers], [Ports]: the objects that turn completions of the
      executor into messages: [socket_impl]; [timeout_impl], [signal_impl] and
      [metronome_state]; acceptors, connectors, [udp_impl],
      [file_descriptor_impl] and [file_stream_impl].  [SocketTheorems] and [PortsTheorems];
      [PortsTcp] has the TCP acceptor, and the probe for a stale unix socket.
    - [Trace]: [src/src/trace.cpp]: [trace_file], a lock-free list that any
      number of threads push to and one at a time works off, as a machine of
      atomic steps over a heap of nodes whose addresses are used again; and what
      the CBOR, JSON and Mermaid files write.  [TraceInv] has the invariant,
      [TraceTheorems] and [TraceFiles] the theorems.
    - [Executor]: [src/src/executor.hpp] and [src/src/executor_asio.cpp]: the
      objects, their operations with completion handlers, tokens and counters,
      strands and posts; a step is one atomic action of some thread.
      [ExecutorInv], [ExecutorTheorems]; [SocketStrands] runs a socket of [Socket]
      on the executor.  [Descriptors] has the rest of the same file: who owns a file descriptor, [bind] and [listen], addresses, and the
      threads of [context::run]; [Waits] the waits of signals and timers and
      [cancel].
    - [Backtrace]: the crash handlers of [src/src/backtrace.cpp], over what the
      system calls return.
    - [Expected]: [src/include/thespian/expected.hpp], which [result] is an instance
      of, and [ok] and [to_result] of [handle.hpp]: objects whose union has a live
      member or none, in the monad of [Lifetimes], where using a member that is not
      alive is undefined and the operations of the elements may throw.
      [ExpectedTheorems] has a rule per operation, [ExpectedRuns] programs of them
      against the contents of each object.
    - [CApi]: the C functions of [src/src/c] over the memory of a thread and the
      handles and environments that C code owns.  [CApiTheorems]; [CContexts] has
      those that make and run contexts and open trace files.

    ** What the theorems show

    - CBOR: [skip_value] accepts exactly the grammar, ends on every input and
      reports every truncation; matching is a function of the syntax tree; what
      [array] packs the extractors get back; where integers wrap.
    - JSON: the printer prints the syntax tree, on one line; the parser is total and
      writes one well-formed item that can be printed; items survive a round trip, but for
      doubles and control characters.
    - Runtime: where no send races the exit of its receiver ([race_free]), an
      invariant of every reachable world; no deleted instance is used; messages are
      delivered in order, none lost and none twice; shutdown is final; identities are
      not used twice; the last exit handler is called once.  A send that does race the
      exit uses a deleted instance ([racing_send_crashes]).  Exits reach links and
      handlers.  If clients only send arrays, every message is one and no exception
      ends the process.
    - Library: a broadcast reaches each subscription once; endpoints cut any
      chunking of a stream into its messages and debug connections into its
      lines; every JSON command is answered once, with its id, and so is every
      call; connectors make the attempts they
      are told to with doubling delays; sockets keep the order of the octets;
      the file of a unix acceptor is removed once, a TCP acceptor serves one
      connection after the other; a subscription gets the filter that came with it,
      whatever other threads subscribe; timeouts fire once and
      metronomes do not drift.
    - Executor: no completion handler uses a destroyed object, none is lost or
      called twice, clients are called on the strand of the object
      ([clients_on_strand]), the counters are exact, a watcher has one wait of a kind,
      and what is posted to a strand runs in order.  That is what the other models
      assume of strands and completions; for sockets it is proved so, over any
      interleaving of both ([socket_on_executor]).  An open file descriptor has one
      owner and is closed once, if the client closes only what it holds; a wait ends
      once, and why; the threads of a context are joined.
    - [expected]: a program of constructions, assignments, [emplace], [swap] and
      destructions is defined and computes the contents of its objects, with exceptions
      thrown and caught anywhere, but for the operations that are shown not to be:
      copies of an error that throw, and [swap] of an error with a value.
    - A crash runs the debugger once, and then ends the process.
    - Trace files: linearizable, without undefined behaviour, and drained by a
      thread that runs alone where the handler does not throw; what is lost where it
      does; CBOR and JSON files read back as the messages.
    - C API: which results and errors can be read and for how long; clones,
      identities and environments.
    - Behaviour that looks unintended is stated as theorems too:
      [match_int_negative], [map_head_wraps], [json_control_lost],
      [racing_send_crashes], [late_link_unnoticed], [disable_toggles], [listen_ends_hub],
      [bad_frame_forwarded], [malformed_stream_stalls], [close_drops_queued],
      [udp_delivers], [visit_values], [accessor_copies_rest],
      [trace_tail_waits], [throw_loses_message], [undisciplined_close],
      [mermaid_rejects_traces], [udp_close_ineffective],
      [worker_stack_negative], [guarded_errors], [handle_id_expired],
      [context_spawn_moves_env], [bad_message_ends], [crash_readlink_unchecked],
      [filtered_subscription], [expected_copy_unsafe], [expected_swap],
      [emplace_il_unsafe], [expected_ne_eq], [expected_ne_value_eq].

    ** Bounds and fuel

    Recursion over octets takes fuel of one unit per octet and one more, which
    is shown to be enough ([skip_value_terminates], [to_json_terminates],
    [push_json_writes_items]); the loop of an endpoint over its buffer takes one
    unit per octet ([play_read_frames]).  Integers are kept at the width of the
    code ([u8], [u64], [s64]); instance identities are unbounded, 2^64 spawns
    being out of reach.  The retry time of a connector, which doubles, is an
    [int64_t]; [connector_attempts] is about those that do not overflow.  Client code
    ([prog]) is a finite tree: what is proved of every step and every run is proved of
    every finite part of a run, also of a client that would loop for ever.

    ** What is assumed, and what is not modelled

    Of Asio [Executor] assumes what it documents: an operation completes once,
    handlers of a strand run one at a time, posted functions in order; these are guards
    of [Executor.step].  A step of [Instance] is a part of a send, another call of the
    API, the start of a task or its end: what one of these last posts to several
    strands (the exit message to the links, taps) is posted before other threads go on,
    and [handle_exit] writes [in_shutdown] and [lifetime_] in one step ([Instance] says
    why a sender cannot tell).  In the
    models of instances and objects a strand is a queue that runs one task at a
    time, and sockets, timers and the rest are seen through the calls they get
    and the completions they report, in any order the interface allows.  The
    operating system (files, ports, error codes) enters as arguments.  Where C++
    leaves the behaviour undefined (an empty queue of filters in the hub) the
    result is an arbitrary program, or the outcome says so ([Trace], [Executor],
    [CApi]).  Memory is sequentially consistent.  [CApi] takes the C++ functions
    of sockets, timers and the like as a record of operations.  Left out: the
    counters of the executor in the trace messages of instances, the destruction of
    objects that no closure refers to, and memory limits; of the code for Windows
    only the file streams are there.  Of the element types of an [expected] the traits
    and the operations that may throw are parameters: one that throws has no effect on
    its operands, destructors do not throw, and an element moved to itself keeps its
    value; which special members the traits delete,
    being a matter of the compiler, is left out.  Of a socket on the executor the
    connection is made before the socket is.  The tests and the Zig bindings are
    not modelled, being no part of the C++ library.

    ** Plan

    What is left is to run instances, timers, acceptors and file descriptors on the
    executor as [SocketStrands] does for sockets. *)
From stdpp Require Export base list strings gmap.
From Stdlib Require Export ZArith Lia.
From Stdlib Require Import Ascii.

#[global] Open Scope Z_scope.

(** ** Machine integers

    A w-bit integer is a [Z]; the wrap-around of the C++ conversions is
    written out.  Signed conversions are modular (C++20). *)

Definition u8 (v : Z) : Z := v mod 2 ^ 8.
Definition u16 (v : Z) : Z := v mod 2 ^ 16.
Definition u32 (v : Z) : Z := v mod 2 ^ 32.
Definition u64 (v : Z) : Z := v mod 2 ^ 64.
Definition s64 (v : Z) : Z := (v + 2 ^ 63) mod 2 ^ 64 - 2 ^ 63.

Definition is_byte (v : Z) : Prop := 0 <= v < 256.
Definition is_u64 (v : Z) : Prop := 0 <= v < 2 ^ 64.
Definition is_s64 (v : Z) : Prop := - 2 ^ 63 <= v < 2 ^ 63.

#[export] Instance is_byte_dec v : Decision (is_byte v).
Proof. unfold is_byte. apply _. Defined.
#[export] Instance is_u64_dec v : Decision (is_u64 v).
Proof. unfold is_u64. apply _. Defined.
#[export] Instance is_s64_dec v : Decision (is_s64 v).
Proof. unfold is_s64. apply _. Defined.

(** A [std::vector<uint8_t>], a [std::string] and a [std::string_view] are
    lists of octets. *)
Abbreviation bytes := (list Z).
Abbreviation bytes_ok := (Forall is_byte).

(** String literals of the source as octets. *)
Definition str (s : string) : bytes :=
  (λ a, Z.of_N (N_of_ascii a)) <$> String.list_ascii_of_string s.

(** ** Exceptions

    A call that may throw returns [res]; [out_of_fuel] marks a loop bound that
    was chosen too small and is shown never to be produced. *)

Inductive exn : Type :=
| domain_error (what : bytes)
| out_of_range (what : bytes)
| out_of_fuel.

Inductive res (A : Type) : Type :=
| Ok (a : A)
| Throw (e : exn).
Arguments Ok {A} a.
Arguments Throw {A} e.

#[export] Instance res_ret : MRet res := λ A a, Ok a.
#[export] Instance res_bind : MBind res := λ A B k m,
  match m with Ok a => k a | Throw e => Throw e end.
#[export] Instance res_fmap : FMap res := λ A B f m,
  match m with Ok a => Ok (f a) | Throw e => Throw e end.

#[export] Instance exn_eq_dec : EqDecision exn.
Proof. solve_decision. Defined.
#[export] Instance res_eq_dec {A} `{EqDecision A} : EqDecision (res A).
Proof. solve_decision. Defined.

Definition returns {A} (m : res A) : Prop := ∃ a, m = Ok a.

Lemma bind_Ok {A B} (m : res A) (k : A → res B) b :
  (m ≫= k) = Ok b ↔ ∃ a, m = Ok a ∧ k a = Ok b.
Proof. destruct m; cbn; naive_solver. Qed.

Lemma fmap_Ok {A B} (m : res A) (f : A → B) b :
  (f <$> m) = Ok b ↔ ∃ a, m = Ok a ∧ f a = b.
Proof. destruct m; cbn; naive_solver. Qed.

Lemma bind_Throw {A B} (m : res A) (k : A → res B) e :
  (m ≫= k) = Throw e ↔ m = Throw e ∨ ∃ a, m = Ok a ∧ k a = Throw e.
Proof. destruct m; cbn; naive_solver. Qed.

Lemma bind_assoc {A B C} (m : res A) (f : A → res B) (g : B → res C) :
  ((m ≫= f) ≫= g) = (m ≫= λ a, f a ≫= g).
Proof. by destruct m. Qed.

Lemma bind_ext {A B} (m : res A) (f g : A → res B) :
  (∀ a, f a = g a) → (m ≫= f) = (m ≫= g).
Proof. destruct m; cbn; auto. Qed.

(** ** Automation *)

Create HintDb bytesdb.


(** Open every bind of a successful or failing computation in the context. *)
Ltac split_pairs x :=
  match type of x with
  | prod _ _ =>
      let y := fresh x in let z := fresh x in
      destruct x as [y z]; split_pairs y; split_pairs z
  | _ => idtac
  end.

Ltac res_inv :=
  repeat match goal with
  | H : mbind _ _ = Ok _ |- _ =>
      let a := fresh "a" in let E := fresh "E" in
      apply bind_Ok in H as (a & E & H); split_pairs a; cbv beta iota in H
  | H : fmap _ _ = Ok _ |- _ =>
      let a := fresh "a" in let E := fresh "E" in
      apply fmap_Ok in H as (a & E & H); split_pairs a; cbn [fst snd] in H; subst
  | H : Ok (_, _) = Ok _ |- _ => injection H; clear H; intros; subst
  | H : Ok _ = Ok _ |- _ => injection H; clear H; intros; subst
  | H : Throw _ = Throw _ |- _ => injection H; clear H; intros; subst
  | H : Ok _ = Throw _ |- _ => discriminate H
  | H : Throw _ = Ok _ |- _ => discriminate H
  end.

(** Evaluate a decidable closed goal. *)
Ltac by_decision := apply (bool_decide_unpack _); vm_compute; exact I.

(** Case analysis on every boolean integer test of the goal. *)
Ltac ztests :=
  repeat match goal with
  | |- context [?a <? ?b] => destruct (Z.ltb_spec a b)
  | |- context [?a <=? ?b] => destruct (Z.leb_spec a b)
  | |- context [?a =? ?b] => destruct (Z.eqb_spec a b)
  end.

Ltac ztests_in H :=
  repeat match type of H with
  | context [?a <? ?b] => destruct (Z.ltb_spec a b)
  | context [?a <=? ?b] => destruct (Z.leb_spec a b)
  | context [?a =? ?b] => destruct (Z.eqb_spec a b)
  end.

(** ** Integer lemmas *)

Lemma u8_range v : is_byte (u8 v).
Proof. unfold is_byte, u8. pose proof (Z.mod_pos_bound v (2 ^ 8)). lia. Qed.

Lemma u8_small v : is_byte v → u8 v = v.
Proof. unfold is_byte, u8. intros. apply Z.mod_small. lia. Qed.

Lemma u64_range v : is_u64 (u64 v).
Proof. unfold is_u64, u64. apply Z.mod_pos_bound. lia. Qed.

Lemma u64_small v : is_u64 v → u64 v = v.
Proof. unfold is_u64, u64. apply Z.mod_small. Qed.

Lemma s64_range v : is_s64 (s64 v).
Proof.
  unfold is_s64, s64. pose proof (Z.mod_pos_bound (v + 2 ^ 63) (2 ^ 64)). lia.
Qed.

Lemma s64_small v : is_s64 v → s64 v = v.
Proof. unfold is_s64, s64. intros. rewrite Z.mod_small; lia. Qed.

Lemma u64_s64 v : u64 (s64 v) = u64 v.
Proof.
  unfold u64, s64.
  rewrite Zminus_mod_idemp_l. f_equal. lia.
Qed.

Lemma s64_u64 v : s64 (u64 v) = s64 v.
Proof. unfold u64, s64. by rewrite Zplus_mod_idemp_l. Qed.

Lemma s64_wrap v k : s64 (v + k * 2 ^ 64) = s64 v.
Proof.
  unfold s64. replace (v + k * 2 ^ 64 + 2 ^ 63) with (v + 2 ^ 63 + k * 2 ^ 64) by lia.
  by rewrite Z.mod_add by lia.
Qed.

(** A disjunction of a multiple of [2^n] with an [n]-bit field is their sum. *)
Lemma lor_low a b n :
  0 <= n → 0 <= b < 2 ^ n → Z.lor (a * 2 ^ n) b = a * 2 ^ n + b.
Proof.
  intros Hn Hb. symmetry. apply Z.add_nocarry_lor.
  apply Z.bits_inj'. intros i Hi. rewrite Z.land_spec, Z.bits_0.
  destruct (Z.ltb_spec i n).
  - by rewrite Z.mul_pow2_bits_low.
  - rewrite <- (Z.mod_small b (2 ^ n)) by lia.
    rewrite Z.mod_pow2_bits_high by lia. apply andb_false_r.
Qed.

#[export] Hint Resolve u8_range u64_range s64_range : bytesdb.

(** ** Lists *)

Lemma Forall_mp {A} (P Q : A → Prop) l :
  Forall P l → Forall (λ x, P x → Q x) l → Forall Q l.
Proof. induction 1; inversion_clear 1; constructor; auto. Qed.

(** A prefix of a concatenation stops in the first part or covers it. *)
Lemma prefix_app_cases {A} (p l k : list A) :
  p `prefix_of` l ++ k →
  (p `prefix_of` l ∧ (length p < length l)%nat) ∨ ∃ q, p = l ++ q ∧ q `prefix_of` k.
Proof.
  revert p. induction l as [|x l IH]; intros p Hp; [right; by exists p|].
  destruct p as [|y p]; [left; split; [apply prefix_nil|cbn; lia]|].
  cbn in Hp. pose proof (prefix_cons_inv_1 _ _ _ _ Hp) as ->.
  apply prefix_cons_inv_2 in Hp. destruct (IH p Hp) as [[H1 H2]|(q & -> & H)].
  - left. split; [by apply prefix_cons|cbn; lia].
  - right. by exists q.
Qed.

(** ** Lines of text *)

Definition lines_text (ls : list bytes) : bytes := concat ((λ l, l ++ [10]) <$> ls).
Definition one_line (l : bytes) : Prop := 10 ∉ l.

Lemma lines_text_app l1 l2 : lines_text (l1 ++ l2) = lines_text l1 ++ lines_text l2.
Proof. unfold lines_text. by rewrite fmap_app, concat_app. Qed.

(** Every text is some lines and what is behind the last newline. *)
Lemma text_lines t : ∃ ls q, t = lines_text ls ++ q ∧ Forall one_line ls ∧ one_line q.
Proof.
  induction t as [|c t (ls & q & -> & Hls & Hq)].
  { exists [], []. split_and!; [done|constructor|apply not_elem_of_nil]. }
  destruct (decide (c = 10)) as [->|Hc].
  { exists ([] :: ls), q. split_and!; [done| |done]. constructor; [apply not_elem_of_nil|done]. }
  destruct Hls as [|l ls Hl Hls].
  - exists [], (c :: q). split_and!; [done|constructor|]. apply not_elem_of_cons. done.
  - exists ((c :: l) :: ls), q. split_and!; [done| |done]. constructor; [|done]. by apply not_elem_of_cons.
Qed.
