(* ===== verification/CborEncode.v ===== *)
(** * The CBOR encoder ([src/src/cbor.cpp], [src/include/cbor/cbor.hpp])

    The [push_*] members of [cbor::buffer] as functions from the octets of the
    buffer to its octets after the call.  [big_endian] and [head] describe
    what the branches of [push_typed_val] write; every later theorem about
    encoded data goes through [push_typed_val_head]. *)
From S2P Require Import Prelude.

(** ** Data *)

Definition cbor_magic_null : Z := 0xf6.
Definition cbor_magic_true : Z := 0xf5.
Definition cbor_magic_false : Z := 0xf4.
Definition cbor_magic_float16 : Z := 0xf9.
Definition cbor_magic_float32 : Z := 0xfa.
Definition cbor_magic_float64 : Z := 0xfb.
Definition cbor_magic_type_array : Z := 4.
Definition cbor_magic_type_map : Z := 5.

Definition null_value : bytes := [0xf6].

(** The argument types [buffer::push] is overloaded on.  The narrower integer
    overloads forward to the 64-bit ones; a [float] or [double] is given by its
    bit pattern; [ACbor] is an object with a [to_cbor] member (a [buffer], a
    [range], a [value_accessor]), given by the octets it appends. *)
Inductive arg : Type :=
| AUInt (v : Z)
| AInt (v : Z)
| ABool (v : bool)
| AFloat (bits : Z)
| ADouble (bits : Z)
| AString (s : bytes)
| ACbor (b : bytes).

(** ** Operations *)

(** [vector<uint8_t>::push_back]: the argument is converted to an octet. *)
Definition push_back (b : bytes) (v : Z) : bytes := b ++ [u8 v].

Definition push_typed_val (b : bytes) (type value : Z) : bytes :=
  let type := Z.shiftl type 5 in
  if value <? 24 then
    push_back b (Z.lor type value)
  else if value <? 256 then
    let b := push_back b (Z.lor type 24) in
    push_back b value
  else if value <? 65536 then
    let b := push_back b (Z.lor type 25) in
    let b := push_back b (Z.shiftr value 8) in
    push_back b value
  else if value <? 4294967296 then
    let b := push_back b (Z.lor type 26) in
    let b := push_back b (Z.shiftr value 24) in
    let b := push_back b (Z.shiftr value 16) in
    let b := push_back b (Z.shiftr value 8) in
    push_back b value
  else
    let b := push_back b (Z.lor type 27) in
    let b := push_back b (Z.shiftr value 56) in
    let b := push_back b (Z.shiftr value 48) in
    let b := push_back b (Z.shiftr value 40) in
    let b := push_back b (Z.shiftr value 32) in
    let b := push_back b (Z.shiftr value 24) in
    let b := push_back b (Z.shiftr value 16) in
    let b := push_back b (Z.shiftr value 8) in
    push_back b value.

(** [for (int shift = ...; shift >= 0; shift -= 8) push_back(bits >> shift)] *)
Definition push_shifts (b : bytes) (bits : Z) (shifts : list Z) : bytes :=
  foldl (λ b shift, push_back b (Z.shiftr bits shift)) b shifts.

Definition push_float (b : bytes) (bits : Z) : bytes :=
  push_shifts (push_back b cbor_magic_float32) bits [24; 16; 8; 0].

Definition push_double (b : bytes) (bits : Z) : bytes :=
  push_shifts (push_back b cbor_magic_float64) bits [56; 48; 40; 32; 24; 16; 8; 0].

Definition push_string (b : bytes) (s : bytes) : bytes :=
  push_typed_val b 3 (Z.of_nat (length s)) ++ s.

Definition push_null (b : bytes) : bytes := push_back b cbor_magic_null.

Definition push_bool (b : bytes) (v : bool) : bytes :=
  if v then push_back b cbor_magic_true else push_back b cbor_magic_false.

(** [-(value + 1)] is computed on [signed long long] and converted to
    [uint64_t]. *)
Definition push_int (b : bytes) (value : Z) : bytes :=
  if value <? 0 then push_typed_val b 1 (u64 (- (value + 1)))
  else push_typed_val b 0 (u64 value).

Definition push_uint (b : bytes) (value : Z) : bytes := push_typed_val b 0 value.

(** [buffer::to_cbor]: append the octets of [a] to [b]. *)
Definition to_cbor (a b : bytes) : bytes := b ++ a.

Definition push (b : bytes) (a : arg) : bytes :=
  match a with
  | AUInt v => push_uint b v
  | AInt v => push_int b v
  | ABool v => push_bool b v
  | AFloat bits => push_float b bits
  | ADouble bits => push_double b bits
  | AString s => push_string b s
  | ACbor a => to_cbor a b
  end.

Definition array_header (b : bytes) (sz : Z) : bytes :=
  push_typed_val b cbor_magic_type_array sz.

Definition map_header (b : bytes) (sz : Z) : bytes :=
  push_typed_val b cbor_magic_type_map sz.

Fixpoint push_parms (b : bytes) (parms : list arg) : bytes :=
  match parms with
  | [] => b
  | p :: parms => push_parms (push b p) parms
  end.

(** [buffer::push_array] over a container of pushable values. *)
Definition push_array (b : bytes) (a : list arg) : bytes :=
  match a with
  | [] => push_null b
  | _ => foldl push (array_header b (Z.of_nat (length a))) a
  end.

(** [buffer::array]: the overload without parameters pushes null. *)
Definition array (b : bytes) (parms : list arg) : bytes :=
  match parms with
  | [] => push_null b
  | _ => push_parms (array_header b (Z.of_nat (length parms))) parms
  end.

(** [buffer::map]; the number of parameters is even (a static assertion). *)
Definition map (b : bytes) (parms : list arg) : bytes :=
  match parms with
  | [] => push_null b
  | _ => push_parms (map_header b (Z.of_nat (length parms) / 2)) parms
  end.

Definition is_null (b : bytes) : bool := bool_decide (b = null_value).

(** [cbor::array(...)] and [cbor::map(...)]: a fresh buffer. *)
Definition cbor_array (parms : list arg) : bytes := array [] parms.
Definition cbor_map (parms : list arg) : bytes := map [] parms.

(** ** What the encoder writes *)

(** The [n] low octets of [v], most significant first. *)
Fixpoint big_endian (n : nat) (v : Z) : bytes :=
  match n with
  | O => []
  | S n => u8 (Z.shiftr v (8 * Z.of_nat n)) :: big_endian n v
  end.

(** The argument widths of a CBOR head and the low five bits announcing them. *)
Inductive width : Type := W0 | W1 | W2 | W4 | W8.

#[export] Instance width_eq_dec : EqDecision width.
Proof. solve_decision. Defined.

Definition width_octets (w : width) : nat :=
  match w with W0 => 0 | W1 => 1 | W2 => 2 | W4 => 4 | W8 => 8 end.

Definition width_bound (w : width) : Z :=
  match w with W0 => 24 | _ => 2 ^ (8 * Z.of_nat (width_octets w)) end.

Definition width_minor (w : width) (v : Z) : Z :=
  match w with W0 => v | W1 => 24 | W2 => 25 | W4 => 26 | W8 => 27 end.

Definition head (w : width) (major v : Z) : bytes :=
  (major * 32 + width_minor w v) :: big_endian (width_octets w) v.

(** The width the encoder selects. *)
Definition min_width (v : Z) : width :=
  if v <? 24 then W0 else if v <? 256 then W1 else if v <? 65536 then W2
  else if v <? 4294967296 then W4 else W8.

(** ** Lemmas *)

Lemma min_width_bound v : is_u64 v → v < width_bound (min_width v).
Proof. unfold is_u64, min_width. intros. ztests; cbn; lia. Qed.

Lemma width_bound_le w : 24 <= width_bound w <= 2 ^ 64.
Proof. destruct w; cbn; lia. Qed.

Lemma length_big_endian n v : length (big_endian n v) = n.
Proof. induction n; cbn; auto. Qed.

Lemma big_endian_ok n v : bytes_ok (big_endian n v).
Proof. induction n; cbn; auto with bytesdb. Qed.

Lemma head_ok w major v :
  0 <= major < 8 → 0 <= v < width_bound w → bytes_ok (head w major v).
Proof.
  intros. constructor; [|apply big_endian_ok].
  unfold is_byte. destruct w; cbn in *; lia.
Qed.

Lemma length_head w major v : length (head w major v) = S (width_octets w).
Proof. unfold head. cbn. by rewrite length_big_endian. Qed.

Lemma type_byte t m : 0 <= t < 8 → 0 <= m < 32 → u8 (Z.lor (Z.shiftl t 5) m) = t * 32 + m.
Proof.
  intros. rewrite Z.shiftl_mul_pow2 by lia.
  rewrite (lor_low t m 5) by lia. apply u8_small. unfold is_byte. lia.
Qed.

(** Every branch of [push_typed_val] writes the shortest head. *)
Lemma push_typed_val_head b t v :
  0 <= t < 8 → is_u64 v → push_typed_val b t v = b ++ head (min_width v) t v.
Proof.
  unfold is_u64, push_typed_val, min_width, push_back. intros Ht Hv.
  ztests; rewrite !type_byte by lia; cbn [head width_minor width_octets big_endian];
    rewrite <- ?(assoc_L app); cbn [app]; rewrite ?Z.shiftr_0_r; reflexivity.
Qed.

Lemma push_shifts_big_endian b v n :
  push_shifts b v (List.map (λ i, 8 * Z.of_nat i) (rev (seq 0 n))) = b ++ big_endian n v.
Proof.
  revert b. induction n as [|n IH]; intros b; [by rewrite app_nil_r|].
  rewrite seq_S, rev_app_distr. cbn. unfold push_shifts in IH. rewrite IH.
  unfold push_back. by rewrite <- (assoc_L app).
Qed.

Lemma push_double_be b v : push_double b v = b ++ [0xfb] ++ big_endian 8 v.
Proof.
  unfold push_double. rewrite (push_shifts_big_endian _ _ 8 : push_shifts _ _ [56; 48; 40; 32; 24; 16; 8; 0] = _).
  unfold push_back. by rewrite <- (assoc_L app).
Qed.

Lemma push_float_be b v : push_float b v = b ++ [0xfa] ++ big_endian 4 v.
Proof.
  unfold push_float. rewrite (push_shifts_big_endian _ _ 4 : push_shifts _ _ [24; 16; 8; 0] = _).
  unfold push_back. by rewrite <- (assoc_L app).
Qed.

(** Every operation only appends. *)
Lemma push_typed_val_app b t v : push_typed_val b t v = b ++ push_typed_val [] t v.
Proof.
  unfold push_typed_val, push_back. ztests; rewrite <- ?(assoc_L app); reflexivity.
Qed.

Lemma push_app b a : push b a = b ++ push [] a.
Proof.
  destruct a as [v|v|[]|v|v|s|c]; cbn [push]; unfold push_uint, push_int, push_string, push_bool;
    rewrite ?push_float_be, ?push_double_be; try reflexivity.
  - apply push_typed_val_app.
  - ztests; apply push_typed_val_app.
  - by rewrite (push_typed_val_app b), (assoc_L app).
Qed.

Lemma push_parms_app b ps : push_parms b ps = b ++ concat (push [] <$> ps).
Proof.
  revert b. induction ps as [|p ps IH]; intros b; cbn; [by rewrite app_nil_r|].
  by rewrite IH, push_app, (assoc_L app).
Qed.

Lemma foldl_push b ps : foldl push b ps = push_parms b ps.
Proof. revert b. induction ps; cbn; auto. Qed.

(** [push_array] of a container and [array] of the same values agree. *)
Lemma push_array_array b a : push_array b a = array b a.
Proof. destruct a; [done|]. apply foldl_push. Qed.

Lemma array_cons b p ps :
  array b (p :: ps)
  = b ++ push_typed_val [] 4 (Z.of_nat (length (p :: ps))) ++ concat (push [] <$> (p :: ps)).
Proof.
  unfold array, array_header. rewrite push_parms_app, push_typed_val_app.
  by rewrite (assoc_L app).
Qed.

(** Arguments within the ranges of their C++ types. *)
Definition arg_ok (a : arg) : Prop :=
  match a with
  | AUInt v => is_u64 v
  | AInt v => is_s64 v
  | ABool _ => True
  | AFloat bits => 0 <= bits < 2 ^ 32
  | ADouble bits => is_u64 bits
  | AString s => bytes_ok s ∧ Z.of_nat (length s) < 2 ^ 64
  | ACbor b => bytes_ok b
  end.

#[export] Instance arg_ok_dec a : Decision (arg_ok a).
Proof. destruct a; cbn; apply _. Defined.

Lemma push_typed_val_ok b t v :
  0 <= t < 8 → is_u64 v → bytes_ok b → bytes_ok (push_typed_val b t v).
Proof.
  intros Ht Hv Hb. rewrite push_typed_val_head by done.
  apply Forall_app. split; [done|]. apply head_ok; [done|].
  split; [apply Hv|by apply min_width_bound].
Qed.

Lemma push_ok b a : arg_ok a → bytes_ok b → bytes_ok (push b a).
Proof.
  destruct a as [v|v|[]|v|v|s|c]; cbn [push arg_ok]; intros Ha Hb;
    unfold push_uint, push_int, push_string, push_bool, push_back, to_cbor;
    rewrite ?push_float_be, ?push_double_be.
  - apply push_typed_val_ok; [lia|done..].
  - ztests; apply push_typed_val_ok; auto with bytesdb; lia.
  - apply Forall_app; auto with bytesdb.
  - apply Forall_app; auto with bytesdb.
  - apply Forall_app; split; [done|]. constructor; [unfold is_byte; lia|apply big_endian_ok].
  - apply Forall_app; split; [done|]. constructor; [unfold is_byte; lia|apply big_endian_ok].
  - destruct Ha. apply Forall_app; split; [|done].
    apply push_typed_val_ok; [lia| |done]. unfold is_u64. lia.
  - by apply Forall_app.
Qed.

Lemma push_parms_ok b ps : Forall arg_ok ps → bytes_ok b → bytes_ok (push_parms b ps).
Proof. intros H. revert b. induction H; cbn; auto using push_ok. Qed.

Lemma array_ok b ps :
  Forall arg_ok ps → Z.of_nat (length ps) < 2 ^ 64 → bytes_ok b → bytes_ok (array b ps).
Proof.
  intros Hps Hlen Hb. destruct ps as [|p ps].
  - apply Forall_app; auto with bytesdb.
  - apply push_parms_ok; [done|]. apply push_typed_val_ok; [cbv; done| |done].
    unfold is_u64. lia.
Qed.
