(* ===== verification/Ieee.v ===== *)
(** * IEEE 754 bit patterns

    What the sources use of [float] and [double]: a value is its bit pattern
    (that is what [std::bit_cast] gives), [unpack] reads a pattern as a
    mantissa and an exponent, [pack] rounds a dyadic number to the nearest
    pattern, ties to even (the conversions of the language), and [ldexp],
    negation and the conversions between [float], [double] and the 64-bit
    integers are built from the two. *)
From S2P Require Import Prelude.

Record format : Type := Format { mbits : Z; ebits : Z }.

Definition binary16 : format := Format 10 5.
Definition binary32 : format := Format 23 8.
Definition binary64 : format := Format 52 11.

(** The exponent of the smallest normal number and the pattern of infinity. *)
Definition emin (f : format) : Z := 2 - 2 ^ (ebits f - 1).
Definition inf_bits (f : format) : Z := (2 ^ ebits f - 1) * 2 ^ mbits f.
Definition sign_bit (f : format) : Z := 2 ^ (mbits f + ebits f).

(** [FFin s m e] is the number [(-1)^s * m * 2^e]. *)
Inductive fval : Type :=
| FNan (s : bool) (payload : Z)
| FInf (s : bool)
| FFin (s : bool) (m e : Z).

Definition unpack (f : format) (bits : Z) : fval :=
  let s := Z.testbit bits (mbits f + ebits f) in
  let mant := bits mod 2 ^ mbits f in
  let ex := (bits / 2 ^ mbits f) mod 2 ^ ebits f in
  if ex =? 2 ^ ebits f - 1 then if mant =? 0 then FInf s else FNan s mant
  else if ex =? 0 then FFin s mant (emin f - mbits f)
  else FFin s (mant + 2 ^ mbits f) (ex - 1 + emin f - mbits f).

(** [m / 2^k] rounded to the nearest integer, ties to even. *)
Definition round_shift (m k : Z) : Z :=
  let q := m / 2 ^ k in
  let r := m mod 2 ^ k in
  let half := 2 ^ (k - 1) in
  if r <? half then q
  else if half <? r then q + 1
  else if Z.even q then q else q + 1.

Definition with_sign (f : format) (s : bool) (mag : Z) : Z :=
  if s then sign_bit f + mag else mag.

(** The pattern nearest to [(-1)^s * m * 2^e]. *)
Definition pack (f : format) (s : bool) (m e : Z) : Z :=
  with_sign f s
    (if m =? 0 then 0
     else
       let ex := Z.max (Z.log2 m + e) (emin f) in
       let q := ex - mbits f in
       let mant := if q <=? e then m * 2 ^ (e - q) else round_shift m (q - e) in
       Z.min ((ex - emin f) * 2 ^ mbits f + mant) (inf_bits f)).

(** ** The operations the sources use *)

Definition double_inf : Z := inf_bits binary64.
Definition double_nan : Z := inf_bits binary64 + 2 ^ 51.

(** [std::ldexp(int, int)] *)
Definition ldexp (m e : Z) : Z := pack binary64 false m e.

Definition double_neg (v : Z) : Z := Z.lxor v (sign_bit binary64).

(** A NaN keeps its sign and the high octets of its payload and becomes
    quiet. *)
Definition float_to_double (v : Z) : Z :=
  match unpack binary32 v with
  | FNan s p => with_sign binary64 s (inf_bits binary64 + Z.lor (p * 2 ^ 29) (2 ^ 51))
  | FInf s => with_sign binary64 s (inf_bits binary64)
  | FFin s m e => pack binary64 s m e
  end.

Definition double_to_float (v : Z) : Z :=
  match unpack binary64 v with
  | FNan s p => with_sign binary32 s (inf_bits binary32 + Z.lor (p / 2 ^ 29) (2 ^ 22))
  | FInf s => with_sign binary32 s (inf_bits binary32)
  | FFin s m e => pack binary32 s m e
  end.

(** [static_cast<double>] of a [uint64_t] or an [int64_t]. *)
Definition double_of_Z (v : Z) : Z := pack binary64 (v <? 0) (Z.abs v) 0.

(** [std::isfinite] *)
Definition isfinite (v : Z) : bool :=
  match unpack binary64 v with FFin _ _ _ => true | _ => false end.

(** ** Lemmas *)

Definition format_ok (f : format) : Prop := 0 < mbits f ∧ 2 <= ebits f.

Lemma binary_formats_ok : format_ok binary16 ∧ format_ok binary32 ∧ format_ok binary64.
Proof. by unfold format_ok. Qed.

Lemma log2_bounds m : 0 < m → 2 ^ Z.log2 m <= m < 2 * 2 ^ Z.log2 m.
Proof.
  intros Hm. pose proof (Z.log2_spec m Hm) as H.
  rewrite Z.pow_succ_r in H by apply Z.log2_nonneg. lia.
Qed.

Lemma pow2_pos k : 0 <= k → 0 < 2 ^ k.
Proof. intros. by apply Z.pow_pos_nonneg. Qed.

Lemma sign_bit_split f : format_ok f → sign_bit f = 2 ^ ebits f * 2 ^ mbits f.
Proof. intros []. unfold sign_bit. rewrite Z.pow_add_r by lia. lia. Qed.

(** Reading a pattern given by its sign, exponent field and mantissa field. *)
Lemma unpack_fields f s d r :
  format_ok f → 0 <= d < 2 ^ ebits f - 1 → 0 <= r < 2 ^ mbits f →
  unpack f (with_sign f s (d * 2 ^ mbits f + r))
  = if d =? 0 then FFin s r (emin f - mbits f)
    else FFin s (r + 2 ^ mbits f) (d - 1 + emin f - mbits f).
Proof.
  intros Hf Hd Hr. pose proof (sign_bit_split f Hf) as Hs. destruct Hf as [Hmb Heb].
  pose proof (pow2_pos (mbits f)). pose proof (pow2_pos (ebits f)).
  set (t := (if s then 1 else 0)).
  assert (with_sign f s (d * 2 ^ mbits f + r) = (d + t * 2 ^ ebits f) * 2 ^ mbits f + r) as ->.
  { unfold with_sign, t. rewrite Hs. destruct s; lia. }
  unfold unpack.
  assert (Z.testbit ((d + t * 2 ^ ebits f) * 2 ^ mbits f + r) (mbits f + ebits f) = s) as ->.
  { apply Z.b2z_inj. rewrite Z.testbit_spec' by lia.
    rewrite Z.pow_add_r, <- Z.div_div by lia.
    rewrite Z.div_add_l, (Z.div_small r), Z.add_0_r by lia.
    rewrite Z.div_add, Z.div_small by lia. by destruct s. }
  rewrite Z.div_add_l, (Z.div_small r), Z.add_0_r by lia.
  rewrite (Z.add_comm (_ * 2 ^ mbits f) r), (Z.mod_add r), (Z.mod_small r) by lia.
  rewrite (Z.mod_add d), (Z.mod_small d) by lia.
  by rewrite (proj2 (Z.eqb_neq d (2 ^ ebits f - 1))) by lia.
Qed.

(** The mantissa of a number on the quantum of its binade. *)
Lemma quantum_mantissa f m e :
  format_ok f → 0 < m →
  let ex := Z.max (Z.log2 m + e) (emin f) in
  let q := ex - mbits f in
  let mant := m * 2 ^ (e - q) in
  q <= e →
  0 < mant < 2 * 2 ^ mbits f ∧ (emin f < ex → 2 ^ mbits f <= mant).
Proof.
  intros [Hmb Heb] Hm ex q mant Hq.
  pose proof (log2_bounds m Hm). pose proof (Z.log2_nonneg m).
  pose proof (pow2_pos (e - q)). pose proof (pow2_pos (mbits f)).
  assert (2 ^ Z.log2 m * 2 ^ (e - q) = 2 ^ (Z.log2 m + (e - q))) as Hp
    by (rewrite Z.pow_add_r by lia; done).
  assert (2 ^ (Z.log2 m + (e - q)) <= 2 ^ mbits f)
    by (apply Z.pow_le_mono_r; unfold q; lia).
  split; [unfold mant; nia|]. intros Hlt.
  assert (Z.log2 m + (e - q) = mbits f) as Heq by (unfold q; lia).
  rewrite Heq in Hp. unfold mant. nia.
Qed.

Lemma emin_ebits f : format_ok f → 2 ^ ebits f = 4 - 2 * emin f ∧ emin f <= 0.
Proof.
  intros [_ Heb]. unfold emin.
  assert (2 ^ ebits f = 2 * 2 ^ (ebits f - 1)).
  { rewrite <- Z.pow_succ_r by lia. f_equal. lia. }
  assert (2 ^ 1 <= 2 ^ (ebits f - 1)) by (apply Z.pow_le_mono_r; lia). lia.
Qed.

(** A number that needs no rounding is represented exactly: its pattern reads
    back as the same number, on the quantum of its binade. *)
Lemma unpack_pack f s m e :
  format_ok f → 0 < m →
  let ex := Z.max (Z.log2 m + e) (emin f) in
  let q := ex - mbits f in
  q <= e → ex <= 1 - emin f →
  unpack f (pack f s m e) = FFin s (m * 2 ^ (e - q)) q.
Proof.
  intros Hf Hm ex q Hq Hex. unfold pack. rewrite (proj2 (Z.eqb_neq m 0)) by lia.
  fold ex. fold q. rewrite (proj2 (Z.leb_le q e)) by lia.
  destruct (quantum_mantissa f m e Hf Hm Hq) as [HM1 HM2]. fold ex q in HM1, HM2.
  set (mant := m * 2 ^ (e - q)) in *. set (k := ex - emin f).
  destruct (emin_ebits f Hf) as [He2 He0].
  pose proof (pow2_pos (mbits f)) as Hmb. destruct Hf as [Hf1 Hf2].
  specialize (Hmb (Z.lt_le_incl _ _ Hf1)).
  rewrite Z.min_l by (unfold inf_bits, k; nia).
  destruct (Z.lt_ge_cases mant (2 ^ mbits f)) as [Hlt|Hge].
  - assert (k = 0) as -> by (unfold k; lia).
    rewrite unpack_fields by (done || lia). cbn [Z.eqb].
    f_equal. unfold q. lia.
  - replace (k * 2 ^ mbits f + mant) with ((k + 1) * 2 ^ mbits f + (mant - 2 ^ mbits f)) by lia.
    rewrite unpack_fields by (done || unfold k; lia).
    rewrite (proj2 (Z.eqb_neq (k + 1) 0)) by (unfold k; lia).
    f_equal; unfold k, q; lia.
Qed.

(** ** Round trips between formats *)

(** A pattern is determined by what it reads as. *)
Lemma bits_fields f bits :
  format_ok f → 0 <= bits < 2 * sign_bit f →
  let s := Z.testbit bits (mbits f + ebits f) in
  let d := (bits / 2 ^ mbits f) mod 2 ^ ebits f in
  bits = with_sign f s (d * 2 ^ mbits f + bits mod 2 ^ mbits f).
Proof.
  intros Hf Hb s d. pose proof (sign_bit_split f Hf) as Hs. destruct Hf as [Hmb Heb].
  pose proof (pow2_pos (mbits f)). pose proof (pow2_pos (ebits f)).
  set (q := bits / 2 ^ mbits f) in *.
  assert (bits = q * 2 ^ mbits f + bits mod 2 ^ mbits f) as Hq
    by (unfold q; pose proof (Z.div_mod bits (2 ^ mbits f)); lia).
  assert (0 <= q) by (apply Z.div_pos; lia).
  assert (q < 2 * 2 ^ ebits f) by (apply Z.div_lt_upper_bound; lia).
  assert (q = (if s then 2 ^ ebits f else 0) + d) as Hqd.
  { unfold d. assert (Z.b2z s = (q / 2 ^ ebits f) mod 2) as Hsb.
    { unfold s, q. rewrite Z.testbit_spec', Z.pow_add_r, Z.div_div by lia. done. }
    assert (q / 2 ^ ebits f = 0 ∨ q / 2 ^ ebits f = 1) as Hdiv.
    { assert (0 <= q / 2 ^ ebits f < 2) by
        (split; [apply Z.div_pos; lia|apply Z.div_lt_upper_bound; lia]). lia. }
    pose proof (Z.div_mod q (2 ^ ebits f)).
    destruct Hdiv as [Hd|Hd]; rewrite Hd in Hsb; destruct s; try discriminate Hsb; lia. }
  unfold with_sign. rewrite Hs. destruct s; lia.
Qed.

Lemma log2_add_mant k r : 0 <= k → 0 <= r < 2 ^ k → Z.log2 (r + 2 ^ k) = k.
Proof. intros. apply Z.log2_unique; [lia|]. rewrite Z.pow_succ_r by lia. lia. Qed.

Lemma pack_unpack f bits s m e :
  format_ok f → 0 <= bits < 2 * sign_bit f → unpack f bits = FFin s m e →
  pack f s m e = bits ∧ 0 <= m < 2 * 2 ^ mbits f ∧
  Z.max (Z.log2 m + e) (emin f) - mbits f <= e ∧
  Z.log2 m + e <= 1 - emin f ∧ emin f - mbits f <= e.
Proof.
  intros Hf Hb Hu. rewrite (bits_fields f bits Hf Hb). revert Hu. unfold unpack.
  set (d := (bits / 2 ^ mbits f) mod 2 ^ ebits f). set (r := bits mod 2 ^ mbits f).
  destruct (emin_ebits f Hf) as [He2 He0]. destruct Hf as [Hmb Heb].
  pose proof (pow2_pos (mbits f)). pose proof (pow2_pos (ebits f)).
  assert (0 <= d < 2 ^ ebits f) by (apply Z.mod_pos_bound; lia).
  assert (0 <= r < 2 ^ mbits f) by (apply Z.mod_pos_bound; lia).
  destruct (Z.eqb_spec d (2 ^ ebits f - 1)); [by case_match|].
  destruct (Z.eqb_spec d 0) as [->|Hd]; intros [= <- <- <-].
  - assert (Z.log2 r < mbits f ∨ r = 0) as Hlog.
    { destruct (decide (r = 0)); [by right|left]. apply Z.log2_lt_pow2; lia. }
    assert (Z.max (Z.log2 r + (emin f - mbits f)) (emin f) = emin f) as Hmax.
    { destruct Hlog as [?|Hr0]; [lia|rewrite Hr0; change (Z.log2 0) with 0; lia]. }
    split_and!; try lia.
    unfold pack. f_equal. destruct (Z.eqb_spec r 0); [lia|].
    rewrite Hmax, (proj2 (Z.leb_le _ _)) by lia.
    rewrite Z.sub_diag, Z.sub_diag, Z.pow_0_r, Z.min_l; unfold inf_bits; nia.
  - rewrite log2_add_mant by lia.
    split_and!; try lia.
    unfold pack. f_equal. rewrite (proj2 (Z.eqb_neq _ 0)) by lia.
    rewrite log2_add_mant by lia. rewrite Z.max_l by lia.
    rewrite (proj2 (Z.leb_le _ _)) by lia.
    replace (d - 1 + emin f - mbits f - (mbits f + (d - 1 + emin f - mbits f) - mbits f)) with 0 by lia.
    rewrite Z.pow_0_r, Z.min_l; unfold inf_bits; nia.
Qed.

(** Scaling a number that needs no rounding does not change its pattern. *)
Lemma pack_scale f s m e k :
  format_ok f → 0 < m → 0 <= k →
  Z.max (Z.log2 m + e) (emin f) - mbits f <= e →
  pack f s (m * 2 ^ k) (e - k) = pack f s m e.
Proof.
  intros [Hmb Heb] Hm Hk Hq. pose proof (pow2_pos k Hk).
  unfold pack. f_equal. rewrite !(proj2 (Z.eqb_neq _ 0)) by nia.
  rewrite Z.log2_mul_pow2 by lia.
  replace (k + Z.log2 m + (e - k)) with (Z.log2 m + e) by lia.
  set (ex := Z.max (Z.log2 m + e) (emin f)) in *.
  rewrite (proj2 (Z.leb_le _ e)) by lia. f_equal. f_equal.
  destruct (Z.leb_spec (ex - mbits f) (e - k)).
  - rewrite <- Z.mul_assoc, <- Z.pow_add_r by lia. do 2 f_equal. lia.
  - set (j := ex - mbits f - (e - k)). unfold round_shift.
    replace (m * 2 ^ k) with (m * 2 ^ (e - (ex - mbits f)) * 2 ^ j)
      by (rewrite <- Z.mul_assoc, <- Z.pow_add_r by (unfold j; lia); do 2 f_equal; unfold j; lia).
    pose proof (pow2_pos j) as Hj. pose proof (pow2_pos (j - 1)) as Hj1.
    rewrite Z.div_mul, Z.mod_mul by (unfold j in *; lia).
    by rewrite (proj2 (Z.ltb_lt 0 _)) by (unfold j in *; lia).
Qed.

Lemma unpack_inf f s : format_ok f → unpack f (with_sign f s (inf_bits f)) = FInf s.
Proof.
  intros Hf. pose proof (sign_bit_split f Hf) as Hs. destruct Hf as [Hmb Heb].
  pose proof (pow2_pos (mbits f)). pose proof (pow2_pos (ebits f)).
  assert (2 ^ 2 <= 2 ^ ebits f) by (apply Z.pow_le_mono_r; lia).
  set (t := (if s then 1 else 0)).
  assert (with_sign f s (inf_bits f) = (2 ^ ebits f - 1 + t * 2 ^ ebits f) * 2 ^ mbits f) as ->.
  { unfold with_sign, inf_bits, t. rewrite Hs. destruct s; lia. }
  unfold unpack.
  assert (Z.testbit ((2 ^ ebits f - 1 + t * 2 ^ ebits f) * 2 ^ mbits f) (mbits f + ebits f) = s) as ->.
  { apply Z.b2z_inj. rewrite Z.testbit_spec' by lia.
    rewrite Z.pow_add_r, <- Z.div_div, Z.div_mul by lia.
    rewrite Z.div_add, Z.div_small by lia. by destruct s. }
  rewrite Z.div_mul, Z.mod_mul, Z.mod_add, Z.mod_small by lia.
  by rewrite Z.eqb_refl.
Qed.

Definition is_nan (f : format) (bits : Z) : bool :=
  match unpack f bits with FNan _ _ => true | _ => false end.

(** Widening a [float] to [double] is exact. *)
Lemma float_to_double_exact bits s m e :
  0 <= bits < 2 ^ 32 → unpack binary32 bits = FFin s m e → 0 < m →
  ∃ k, 0 <= k ∧ unpack binary64 (float_to_double bits) = FFin s (m * 2 ^ k) (e - k).
Proof.
  intros Hb Hu Hm. unfold float_to_double. rewrite Hu.
  apply pack_unpack in Hu as (_ & Hm2 & Hq & Hmax & Hmin); [|by unfold format_ok|by change (2 * sign_bit binary32) with (2 ^ 32)].
  set (q := Z.max (Z.log2 m + e) (emin binary64) - 52).
  change (emin binary32) with (-126) in *. change (mbits binary32) with 23 in *.
  exists (e - q). assert (emin binary64 = -1022) as Hem by done.
  pose proof (Z.log2_nonneg m).
  assert (Z.log2 m < 24) by (apply Z.log2_lt_pow2; lia).
  split; [unfold q; lia|].
  rewrite (unpack_pack binary64 s m e); [|by unfold format_ok|done|..].
  - f_equal. unfold q. cbn [mbits binary64]. lia.
  - cbn [mbits binary64]. lia.
  - lia.
Qed.

(** Narrowing a widened [float] gives the [float] back; a NaN may come back
    as another NaN. *)
Lemma double_to_float_to_double bits :
  0 <= bits < 2 ^ 32 → is_nan binary32 bits = false →
  double_to_float (float_to_double bits) = bits.
Proof.
  intros Hb Hn. unfold is_nan in Hn.
  assert (0 <= bits < 2 * sign_bit binary32) as Hb' by by change (2 * sign_bit binary32) with (2 ^ 32).
  assert (format_ok binary32 ∧ format_ok binary64) as [Hf32 Hf64] by by unfold format_ok.
  destruct (unpack binary32 bits) as [|s|s m e] eqn:Hu; [done|..].
  - unfold float_to_double. rewrite Hu. unfold double_to_float. rewrite unpack_inf by done.
    revert Hu. unfold unpack. case_match eqn:Hd; [|by case_match].
    case_match eqn:Hm; [|done]. apply Z.eqb_eq in Hd, Hm. intros [= <-].
    rewrite (bits_fields binary32 bits Hf32 Hb') at 2. rewrite Hd, Hm. f_equal.
  - pose proof (pack_unpack _ _ _ _ _ Hf32 Hb' Hu) as (Hp & Hm & Hq & _).
    destruct (decide (m = 0)) as [->|Hm0].
    + unfold float_to_double. rewrite Hu. unfold double_to_float, pack at 1. cbn [Z.eqb].
      replace (with_sign binary64 s 0) with (with_sign binary64 s (0 * 2 ^ mbits binary64 + 0)) by done.
      rewrite unpack_fields by done. cbn [Z.eqb]. by rewrite <- Hp.
    + destruct (float_to_double_exact bits s m e) as (k & Hk & Hu2); [lia|done|lia|].
      unfold double_to_float. rewrite Hu2, pack_scale; [done|done|lia|done|done].
Qed.
