(* ===== verification/CborDecode.v ===== *)
(** * The CBOR decoder ([src/src/cbor.cpp])

    Decoding moves a [const_iterator] [b] towards the end iterator [e].  An
    iterator is the list of octets from [b] to [e]; [b == e] is the empty list
    and a function that takes [iter &b] returns the list that remains.  A
    [domain_error] is a [Throw] (every caller discards the iterator then).

    [skip_value] and [skip_array]/[skip_map] call each other.  The model bounds
    the recursion and the loops by a fuel; every call consumes at least one
    octet, so one unit more than the octets left is enough
    ([skip_value_fuel]). *)
From S2P Require Import Prelude CborEncode.

Notation iter := (list Z) (only parsing).

Definition too_short : exn := domain_error (str "cbor message too short").

(** [length - 1] underflows for [length = 0]; the code only calls it with
    1, 2, 4 and 8. *)
Fixpoint decode_int_length_recurse (length : nat) (b : iter) (i : Z) : res (Z * iter) :=
  match b with
  | [] => Throw too_short
  | x :: b =>
      let i := s64 (Z.lor i x) in
      match length with
      | S (S _ as length) => decode_int_length_recurse length b (s64 (Z.shiftl i 8))
      | _ => Ok (i, b)
      end
  end.

Definition decode_int_length (length : nat) (b : iter) : res (Z * iter) :=
  decode_int_length_recurse length b 0.

Definition decode_pint (type : Z) (b : iter) : res (Z * iter) :=
  if type <? 24 then Ok (type, b)
  else if type =? 24 then '(i, b) ← decode_int_length 1 b; Ok (u64 i, b)
  else if type =? 25 then '(i, b) ← decode_int_length 2 b; Ok (u64 i, b)
  else if type =? 26 then '(i, b) ← decode_int_length 4 b; Ok (u64 i, b)
  else if type =? 27 then '(i, b) ← decode_int_length 8 b; Ok (u64 i, b)
  else Throw (domain_error (str "cbor invalid integer type")).

(** [-(decode_pint() + 1)] is computed on [uint64_t] and returned as
    [int64_t]. *)
Definition decode_nint (type : Z) (b : iter) : res (Z * iter) :=
  '(v, b) ← decode_pint type b;
  Ok (s64 (u64 (- u64 (v + 1))), b).

Definition is_float_type (type : Z) : bool :=
  (type =? cbor_magic_float16) || (type =? cbor_magic_float32) ||
  (type =? cbor_magic_float64).

(** [while (len) { if (b == e) throw; ++b; --len; }]: the octets passed over
    and the iterator after them.  [len] is a [uint64_t], so the loop stops at
    the end of the buffer before it counts down. *)
Fixpoint advance (len : Z) (b : iter) : res (bytes * iter) :=
  if len =? 0 then Ok ([], b)
  else match b with
       | [] => Throw too_short
       | x :: b => '(s, b) ← advance (len - 1) b; Ok (x :: s, b)
       end.

Definition decode_string (type : Z) (b : iter) : res (bytes * iter) :=
  '(len, b) ← decode_pint type b;
  advance len b.

Definition decode_bytes (type : Z) (b : iter) : res (bytes * iter) := decode_string type b.

(** [(type >> 5, type & 31, type)] *)
Definition decode_type (b : iter) : res ((Z * Z * Z) * iter) :=
  match b with
  | [] => Throw too_short
  | type :: b => Ok ((Z.shiftr type 5, Z.land type 31, type), b)
  end.

Definition decode_range_header (b : iter) : res (Z * iter) :=
  '((major, minor, type), b) ← decode_type b;
  if type =? 0xf6 then Ok (0, b)
  else
    '(sz, b) ← decode_pint minor b;
    if major =? 4 then Ok (sz, b)
    else if major =? 5 then Ok (u64 (sz * 2), b)
    else Throw (domain_error (str "cbor unexpected type (expected array or map)")).

Definition decode_array_header (b : iter) : res (Z * iter) :=
  '((major, minor, type), b) ← decode_type b;
  if type =? 0xf6 then Ok (0, b)
  else if negb (major =? 4) then Throw (domain_error (str "cbor unexpected type (expected array)"))
  else decode_pint minor b.

Definition decode_map_header (b : iter) : res (Z * iter) :=
  '((major, minor, type), b) ← decode_type b;
  if type =? 0xf6 then Ok (0, b)
  else if negb (major =? 5) then Throw (domain_error (str "cbor unexpected type (expected map)"))
  else decode_pint minor b.

Definition skip_string (type : Z) (b : iter) : res iter :=
  '(len, b) ← decode_pint type b;
  '(_, b) ← advance len b;
  Ok b.

Definition skip_bytes (type : Z) (b : iter) : res iter := skip_string type b.

(** [while (len) { skip_value(b, e); --len; }] *)
Fixpoint skip_items (skip : iter → res iter) (fuel : nat) (len : Z) (b : iter) : res iter :=
  if len =? 0 then Ok b
  else match fuel with
       | O => Throw out_of_fuel
       | S fuel => b ← skip b; skip_items skip fuel (len - 1) b
       end.

Section skip_value_type.
Context (skip_value : iter → res iter) (fuel : nat).

Definition skip_array (type : Z) (b : iter) : res iter :=
  '(len, b) ← decode_pint type b;
  skip_items skip_value fuel len b.

Definition skip_map (type : Z) (b : iter) : res iter :=
  '(len, b) ← decode_pint type b;
  let len := u64 (len * 2) in
  skip_items skip_value fuel len b.

Definition skip_value_type (major minor : Z) (b : iter) : res iter :=
  match major with
  | 0 => snd <$> decode_pint minor b
  | 1 => snd <$> decode_nint minor b
  | 2 => skip_bytes minor b
  | 3 => skip_string minor b
  | 4 => skip_array minor b
  | 5 => skip_map minor b
  | 6 => Throw (domain_error (str "cbor unsupported type tag"))
  | 7 => if 24 <=? minor then snd <$> decode_pint minor b else Ok b
  | _ => Throw (domain_error (str "cbor unsupported type unknown"))
  end.
End skip_value_type.

Fixpoint skip_value_f (fuel : nat) (b : iter) : res iter :=
  match fuel with
  | O => Throw out_of_fuel
  | S fuel =>
      '((major, minor, _), b) ← decode_type b;
      skip_value_type (skip_value_f fuel) fuel major minor b
  end.

Definition skip_value (b : iter) : res iter := skip_value_f (S (length b)) b.

(** The rest of a value after its type octet, at the fuel its callers use. *)
Definition skip_value_body (major minor : Z) (b : iter) : res iter :=
  skip_value_type skip_value (S (length b)) major minor b.

(** ** Integer arguments *)

(** The value of octets read most significant first, after [acc]. *)
Definition be_from (acc : Z) (l : bytes) : Z := foldl (λ a x, a * 256 + x) acc l.
Definition be_val (l : bytes) : Z := be_from 0 l.

Lemma be_from_app acc l k : be_from acc (l ++ k) = be_from (be_from acc l) k.
Proof. apply foldl_app. Qed.

Lemma be_from_split acc l :
  be_from acc l = acc * 256 ^ Z.of_nat (length l) + be_val l.
Proof.
  induction l as [|x l IH] using rev_ind; [unfold be_val; cbn; lia|].
  unfold be_val. rewrite !be_from_app, IH, length_app. cbn.
  rewrite Nat2Z.inj_add, Z.pow_add_r by lia. unfold be_val. cbn. lia.
Qed.

Lemma be_val_range l : bytes_ok l → 0 <= be_val l < 256 ^ Z.of_nat (length l).
Proof.
  induction 1 as [|x l Hx Hl IH]; [cbn; lia|].
  unfold be_val. change (be_from 0 (x :: l)) with (be_from x l).
  rewrite be_from_split. cbn [length]. rewrite Nat2Z.inj_succ, Z.pow_succ_r by lia.
  unfold is_byte in Hx. nia.
Qed.

Lemma big_endian_be_val l : bytes_ok l → big_endian (length l) (be_val l) = l.
Proof.
  assert (∀ acc, bytes_ok l → big_endian (length l) (be_from acc l) = l) as H; [|apply H].
  induction l as [|x l IH]; intros acc Hl; [done|].
  apply Forall_cons in Hl as [Hx Hl]. cbn [length big_endian]. f_equal; [|by apply IH].
  change (be_from acc (x :: l)) with (be_from (acc * 256 + x) l).
  rewrite be_from_split, Z.shiftr_div_pow2 by lia.
  pose proof (be_val_range l Hl) as Hr.
  replace (2 ^ (8 * Z.of_nat (length l))) with (256 ^ Z.of_nat (length l))
    by (rewrite Z.pow_mul_r by lia; done).
  rewrite Z.div_add_l by lia. rewrite Z.div_small by lia.
  unfold u8. unfold is_byte in Hx.
  replace (acc * 256 + x + 0) with (x + acc * 2 ^ 8) by lia.
  rewrite Z.mod_add by lia. apply Z.mod_small. lia.
Qed.

Lemma be_val_big_endian n v : 0 <= v < 2 ^ (8 * Z.of_nat n) → be_val (big_endian n v) = v.
Proof.
  enough (∀ n, be_val (big_endian n v) = v mod 2 ^ (8 * Z.of_nat n)) as H.
  { intros Hv. rewrite H. by apply Z.mod_small. }
  clear n. intros n. induction n as [|n IH]; [cbn; by rewrite Z.mod_1_r|].
  cbn [big_endian]. unfold be_val. cbn [be_from foldl].
  change (foldl _ ?a ?l) with (be_from a l). rewrite be_from_split, length_big_endian, IH.
  unfold u8. rewrite Z.shiftr_div_pow2 by lia.
  replace (256 ^ Z.of_nat n) with (2 ^ (8 * Z.of_nat n)) by (rewrite Z.pow_mul_r by lia; done).
  replace (8 * Z.of_nat (S n)) with (8 * Z.of_nat n + 8) by lia.
  rewrite (Z.pow_add_r 2 (8 * Z.of_nat n) 8), Z.rem_mul_r by lia. lia.
Qed.

Lemma s64_eq v : ∃ k, s64 v = v + k * 2 ^ 64.
Proof.
  exists (- ((v + 2 ^ 63) / 2 ^ 64)). unfold s64.
  pose proof (Z.div_mod (v + 2 ^ 63) (2 ^ 64)). lia.
Qed.

Lemma s64_or_byte a x : is_byte x → s64 (Z.lor (s64 (a * 256)) x) = s64 (a * 256 + x).
Proof.
  intros Hx. destruct (s64_eq (a * 256)) as [k ->].
  replace (a * 256 + k * 2 ^ 64) with ((a + k * 2 ^ 56) * 2 ^ 8) by lia.
  rewrite lor_low by (unfold is_byte in Hx; lia).
  replace ((a + k * 2 ^ 56) * 2 ^ 8 + x) with (a * 256 + x + k * 2 ^ 64) by lia.
  apply s64_wrap.
Qed.

Lemma s64_shl v : s64 (Z.shiftl (s64 v) 8) = s64 (v * 256).
Proof.
  rewrite Z.shiftl_mul_pow2 by lia. destruct (s64_eq v) as [k ->].
  replace ((v + k * 2 ^ 64) * 2 ^ 8) with (v * 256 + (k * 256) * 2 ^ 64) by lia.
  apply s64_wrap.
Qed.

Lemma decode_recurse_SS n x b i :
  decode_int_length_recurse (S (S n)) (x :: b) i
  = decode_int_length_recurse (S n) b (s64 (Z.shiftl (s64 (Z.lor i x)) 8)).
Proof. reflexivity. Qed.

Lemma decode_recurse_spec n b acc :
  bytes_ok b →
  decode_int_length_recurse (S n) b (s64 (acc * 256))
  = if decide (S n <= length b)%nat
    then Ok (s64 (be_from acc (take (S n) b)), drop (S n) b)
    else Throw too_short.
Proof.
  revert b acc. induction n as [|n IH]; intros [|x b] acc Hb; try done;
    apply Forall_cons in Hb as [Hx Hb].
  - cbn [decode_int_length_recurse]. rewrite s64_or_byte by done.
    rewrite decide_True by (cbn; lia). cbn [take drop be_from foldl].
    by rewrite take_0, drop_0.
  - rewrite decode_recurse_SS, s64_or_byte, s64_shl by done.
    rewrite IH by done. cbn [length].
    do 2 case_decide; try lia; done.
Qed.

Lemma decode_int_length_spec n b :
  bytes_ok b → (1 <= n)%nat →
  decode_int_length n b
  = if decide (n <= length b)%nat then Ok (s64 (be_val (take n b)), drop n b)
    else Throw too_short.
Proof. intros Hb Hn. destruct n as [|n]; [lia|]. by apply (decode_recurse_spec n b 0). Qed.

Lemma u64_be_val l : bytes_ok l → (length l <= 8)%nat → u64 (s64 (be_val l)) = be_val l.
Proof.
  intros Hl Hn. rewrite u64_s64. apply u64_small. pose proof (be_val_range l Hl) as Hr.
  unfold is_u64. assert (256 ^ Z.of_nat (length l) <= 256 ^ 8) by (apply Z.pow_le_mono_r; lia).
  lia.
Qed.

(** The outcome of [decode_pint] as a function of the announced width. *)
Lemma decode_pint_wide w b :
  bytes_ok b → w ≠ W0 →
  decode_pint (width_minor w 0) b
  = if decide (width_octets w <= length b)%nat
    then Ok (be_val (take (width_octets w) b), drop (width_octets w) b)
    else Throw too_short.
Proof.
  intros Hb Hw.
  destruct w; try done; cbn [width_minor width_octets]; unfold decode_pint; cbn [Z.ltb Z.eqb];
    match goal with |- context [decode_int_length ?n] =>
      change (24 <? 24) with false; change (25 <? 24) with false;
      change (26 <? 24) with false; change (27 <? 24) with false; cbn -[decode_int_length];
      rewrite decode_int_length_spec by (done || lia) end;
    case_decide; try done; cbn -[be_val take];
    rewrite u64_be_val; try done; try (by apply Forall_take);
    rewrite length_take; lia.
Qed.

(** Decoding the argument of a head. *)
Lemma decode_pint_head w v rest :
  bytes_ok rest → 0 <= v < width_bound w →
  decode_pint (width_minor w v) (big_endian (width_octets w) v ++ rest) = Ok (v, rest).
Proof.
  intros Hr Hv. destruct (decide (w = W0)) as [->|Hw].
  - cbn in *. unfold decode_pint. by rewrite (proj2 (Z.ltb_lt v 24)) by lia.
  - replace (width_minor w v) with (width_minor w 0) by by destruct w.
    rewrite decode_pint_wide; [|apply Forall_app; split; [apply big_endian_ok|done]|done].
    rewrite length_app, length_big_endian, decide_True by lia.
    rewrite take_app_length', drop_app_length' by (by rewrite length_big_endian).
    rewrite be_val_big_endian; [done|]. by destruct w.
Qed.

(** Every argument [decode_pint] accepts is the argument of a head. *)
Lemma decode_pint_inv m b v rest :
  bytes_ok b → 0 <= m < 32 → decode_pint m b = Ok (v, rest) →
  ∃ w, m = width_minor w v ∧ 0 <= v < width_bound w ∧
       b = big_endian (width_octets w) v ++ rest.
Proof.
  intros Hb Hm H.
  assert (∀ w, w ≠ W0 → m = width_minor w 0 → ∃ w, m = width_minor w v ∧
    0 <= v < width_bound w ∧ b = big_endian (width_octets w) v ++ rest) as Hwide.
  { intros w Hw ->. rewrite decode_pint_wide in H by done. case_decide as Hl; [|done].
    injection H as <- <-. exists w. split; [by destruct w|].
    pose proof (Forall_take _ (width_octets w) _ Hb) as Ht.
    pose proof (be_val_range _ Ht) as Hr. pose proof (big_endian_be_val _ Ht) as He.
    rewrite length_take, Nat.min_l in Hr, He by done. split.
    - destruct w; try done; cbn in *; lia.
    - by rewrite He, take_drop. }
  destruct (decide (m < 24)).
  - unfold decode_pint in H. rewrite (proj2 (Z.ltb_lt m 24)) in H by done.
    injection H as <- <-. exists W0. cbn. split_and!; [done|lia..|done].
  - destruct (decide (m = 24)); [by apply (Hwide W1)|].
    destruct (decide (m = 25)); [by apply (Hwide W2)|].
    destruct (decide (m = 26)); [by apply (Hwide W4)|].
    destruct (decide (m = 27)); [by apply (Hwide W8)|].
    exfalso. unfold decode_pint in H. ztests_in H; try lia; done.
Qed.

(** ** Type octets and counted runs of octets *)

Lemma decode_type_head w major v rest :
  0 <= major < 8 → 0 <= v < width_bound w →
  decode_type (head w major v ++ rest)
  = Ok ((major, width_minor w v, major * 32 + width_minor w v),
        big_endian (width_octets w) v ++ rest).
Proof.
  intros HM Hv. cbn [head app decode_type].
  assert (0 <= width_minor w v < 32) as Hm by (destruct w; cbn in *; lia).
  rewrite Z.shiftr_div_pow2 by lia. change 31 with (Z.ones 5). rewrite Z.land_ones by lia.
  change (2 ^ 5) with 32. rewrite Z.div_add_l, Z.div_small by lia.
  rewrite (Z.add_comm (major * 32)), Z.mod_add, Z.mod_small by lia. by rewrite Z.add_0_r.
Qed.

Lemma decode_type_inv b major minor type rest :
  bytes_ok b → decode_type b = Ok ((major, minor, type), rest) →
  0 <= major < 8 ∧ 0 <= minor < 32 ∧ type = major * 32 + minor ∧ b = type :: rest ∧ bytes_ok rest.
Proof.
  intros Hb H. destruct b as [|x b]; [done|]. apply Forall_cons in Hb as [Hx Hb].
  cbn in H. injection H as <- <- -> ->. unfold is_byte in Hx.
  rewrite Z.shiftr_div_pow2 by lia. change 31 with (Z.ones 5). rewrite Z.land_ones by lia.
  pose proof (Z.div_mod type (2 ^ 5)). pose proof (Z.mod_pos_bound type (2 ^ 5)).
  split_and!; try done; lia.
Qed.

Lemma advance_spec len b :
  0 <= len →
  advance len b = if decide (len <= Z.of_nat (length b))
                  then Ok (take (Z.to_nat len) b, drop (Z.to_nat len) b)
                  else Throw too_short.
Proof.
  revert len. induction b as [|x b IH]; intros len Hlen; cbn [advance length];
    destruct (Z.eqb_spec len 0) as [->|Hne].
  - by rewrite decide_True by lia.
  - by rewrite decide_False by lia.
  - rewrite decide_True by lia. by rewrite take_0, drop_0.
  - rewrite IH by lia. replace (Z.to_nat len) with (S (Z.to_nat (len - 1))) by lia.
    do 2 case_decide; try lia; done.
Qed.

Lemma advance_app s rest : advance (Z.of_nat (length s)) (s ++ rest) = Ok (s, rest).
Proof.
  rewrite advance_spec by lia. rewrite length_app, decide_True by lia.
  by rewrite Nat2Z.id, take_app_length, drop_app_length.
Qed.

Lemma advance_inv len b s rest :
  0 <= len → advance len b = Ok (s, rest) → b = s ++ rest ∧ len = Z.of_nat (length s).
Proof.
  intros Hlen. rewrite advance_spec by done. case_decide; [|done].
  intros [= <- <-]. rewrite take_drop, length_take. split; [done|lia].
Qed.

(** ** Fuel *)

Lemma decode_recurse_length n b i v rest :
  decode_int_length_recurse n b i = Ok (v, rest) → (length rest < length b)%nat.
Proof.
  revert b i. induction n as [|n IH]; intros [|x b] i H; try done.
  - injection H as _ <-. cbn. lia.
  - destruct n as [|n]; [injection H as _ <-; cbn; lia|].
    rewrite decode_recurse_SS in H. apply IH in H. cbn. lia.
Qed.

Lemma decode_pint_length m b v rest :
  decode_pint m b = Ok (v, rest) → (length rest <= length b)%nat.
Proof.
  unfold decode_pint, decode_int_length. intros H. ztests_in H; res_inv; try lia;
    match goal with E : decode_int_length_recurse _ _ _ = _ |- _ =>
      apply decode_recurse_length in E; lia end.
Qed.

Lemma advance_length len b s rest :
  advance len b = Ok (s, rest) → (length rest <= length b)%nat.
Proof.
  revert len s. induction b as [|x b IH]; intros len s; cbn [advance];
    destruct (len =? 0); intros H; res_inv; try lia. apply IH in E. cbn. lia.
Qed.

(** A skipping function always moves forward. *)
Definition consumes (skip : iter → res iter) : Prop :=
  ∀ b rest, skip b = Ok rest → (length rest < length b)%nat.

Lemma skip_items_length skip fuel len b rest :
  consumes skip → skip_items skip fuel len b = Ok rest → (length rest <= length b)%nat.
Proof.
  intros Hc. revert len b. induction fuel as [|fuel IH]; intros len b H;
    cbn [skip_items] in H; destruct (len =? 0); res_inv; try lia.
  apply Hc in E. apply IH in H. lia.
Qed.

Lemma skip_value_type_length skip fuel major minor b rest :
  consumes skip → skip_value_type skip fuel major minor b = Ok rest →
  (length rest <= length b)%nat.
Proof.
  intros Hc. unfold skip_value_type, skip_bytes, skip_string, skip_array, skip_map, decode_nint.
  repeat case_match; intros H'; res_inv;
    repeat match goal with
    | H : decode_pint _ _ = Ok _ |- _ => apply decode_pint_length in H
    | H : advance _ _ = Ok _ |- _ => apply advance_length in H
    | H : skip_items _ _ _ _ = Ok _ |- _ => apply skip_items_length in H; [|done]
    end; lia.
Qed.

Lemma skip_value_f_consumes fuel : consumes (skip_value_f fuel).
Proof.
  induction fuel as [|fuel IH]; intros b rest H; [done|].
  cbn in H. destruct b as [|x b]; [done|]. cbn in H.
  apply skip_value_type_length in H; [cbn; lia|done].
Qed.

Lemma skip_items_agree s1 s2 f1 f2 len b :
  consumes s1 →
  (∀ c, (length c <= length b)%nat → s1 c = s2 c) →
  (length b < f1)%nat → (length b < f2)%nat →
  skip_items s1 f1 len b = skip_items s2 f2 len b.
Proof.
  intros Hc. revert f2 len b. induction f1 as [|f1 IH]; intros [|f2] len b Hs H1 H2; try lia.
  cbn. destruct (len =? 0); [done|]. rewrite <- Hs by lia.
  destruct (s1 b) as [c|] eqn:E; [|done]. apply Hc in E. cbn.
  apply IH; [|lia..]. intros. apply Hs. lia.
Qed.

Lemma skip_value_type_agree s1 s2 f1 f2 major minor b :
  consumes s1 →
  (∀ c, (length c <= length b)%nat → s1 c = s2 c) →
  (length b < f1)%nat → (length b < f2)%nat →
  skip_value_type s1 f1 major minor b = skip_value_type s2 f2 major minor b.
Proof.
  intros Hc Hs H1 H2. unfold skip_value_type, skip_array, skip_map.
  repeat case_match; try done;
    destruct (decode_pint minor b) as [[len c]|] eqn:E; try done; cbn;
    apply decode_pint_length in E;
    (apply skip_items_agree; [done|intros; apply Hs; lia|lia..]).
Qed.

(** One unit of fuel more than the octets left is enough: more fuel does not
    change the result. *)
Lemma skip_value_fuel fuel b :
  (length b < fuel)%nat → skip_value_f fuel b = skip_value b.
Proof.
  unfold skip_value.
  enough (∀ f1 f2 c, (length c < f1)%nat → (length c < f2)%nat →
    skip_value_f f1 c = skip_value_f f2 c) as H by (intros; apply H; lia).
  clear. induction f1 as [|f1 IH]; intros [|f2] c H1 H2; try lia. cbn.
  destruct c as [|x c]; [done|]. cbn in *.
  apply skip_value_type_agree; [apply skip_value_f_consumes| |lia..].
  intros. apply IH; lia.
Qed.

Lemma skip_value_consumes : consumes skip_value.
Proof. intros b rest H. by apply skip_value_f_consumes in H. Qed.

Lemma skip_value_unfold b :
  skip_value b = ('((major, minor, _), b) ← decode_type b; skip_value_body major minor b).
Proof.
  unfold skip_value, skip_value_body. destruct b as [|x b]; [done|].
  cbn [skip_value_f decode_type mbind res_bind].
  apply skip_value_type_agree; [apply skip_value_f_consumes| |cbn; lia..].
  intros. apply skip_value_fuel. cbn. lia.
Qed.

(** The counting loop without its fuel. *)
Definition skip_n (len : Z) (b : iter) : res iter := skip_items skip_value (S (length b)) len b.

Lemma skip_n_unfold len b :
  skip_n len b = if len =? 0 then Ok b else b ← skip_value b; skip_n (len - 1) b.
Proof.
  unfold skip_n at 1. cbn [skip_items]. destruct (len =? 0); [done|].
  destruct (skip_value b) as [c|] eqn:E; [|done]. cbn [mbind res_bind].
  apply skip_value_consumes in E. unfold skip_n.
  apply skip_items_agree; [apply skip_value_consumes|done|lia..].
Qed.

Lemma skip_items_n fuel len b :
  (length b < fuel)%nat → skip_items skip_value fuel len b = skip_n len b.
Proof. intros. apply skip_items_agree; [apply skip_value_consumes|done|lia..]. Qed.

(** ** Decoders throw nothing but [domain_error]

    So no decoder runs out of fuel. *)

Definition domain_only {A} (m : res A) : Prop := match m with Throw (domain_error _) | Ok _ => True | _ => False end.
Definition no_fuel {A} (m : res A) : Prop := m ≠ Throw out_of_fuel.

Lemma domain_no_fuel {A} (m : res A) : domain_only m → no_fuel m.
Proof. by intros H ->. Qed.

Lemma domain_bind {A B} (m : res A) (f : A → res B) :
  domain_only m → (∀ a, m = Ok a → domain_only (f a)) → domain_only (m ≫= f).
Proof. intros Hm Hf. destruct m as [a|[]]; try done. by apply Hf. Qed.

Lemma domain_fmap {A B} (m : res A) (f : A → B) : domain_only m → domain_only (f <$> m).
Proof. by destruct m as [a|[]]. Qed.

Lemma decode_recurse_domain n b i : domain_only (decode_int_length_recurse n b i).
Proof.
  revert b i. induction n as [|n IH]; intros [|x b] i; try done.
  destruct n as [|n]; [done|]. rewrite decode_recurse_SS. apply IH.
Qed.

Lemma decode_pint_domain m b : domain_only (decode_pint m b).
Proof.
  unfold decode_pint, decode_int_length.
  repeat case_match; try done; (apply domain_bind; [apply decode_recurse_domain|by intros []]).
Qed.

Lemma advance_domain len b : domain_only (advance len b).
Proof.
  revert len. induction b as [|x b IH]; intros len; cbn [advance]; destruct (len =? 0); try done.
  apply domain_bind; [apply IH|by intros []].
Qed.

Lemma skip_items_domain fuel len b :
  (∀ c, (length c <= length b)%nat → domain_only (skip_value c)) →
  (length b < fuel)%nat → domain_only (skip_items skip_value fuel len b).
Proof.
  revert len b. induction fuel as [|fuel IH]; intros len b Hs Hf; [lia|].
  cbn [skip_items]. destruct (len =? 0); [done|]. apply domain_bind; [by apply Hs|].
  intros c E%skip_value_consumes. apply IH; [intros; apply Hs|]; lia.
Qed.

Lemma skip_value_body_domain major minor b :
  (∀ c, (length c <= length b)%nat → domain_only (skip_value c)) → domain_only (skip_value_body major minor b).
Proof.
  intros Hs. pose proof (decode_pint_domain minor b) as Hp.
  unfold skip_value_body, skip_value_type, skip_bytes, skip_string, skip_array, skip_map, decode_nint.
  repeat case_match; try done; repeat apply domain_fmap; try done;
    (apply domain_bind; [done|]; intros [v c] E%decode_pint_length);
    try (apply skip_items_domain; [intros; apply Hs|]; lia); try done.
  all: apply domain_bind; [apply advance_domain|by intros []].
Qed.

Lemma skip_value_domain b : domain_only (skip_value b).
Proof.
  remember (length b) as n eqn:Hn. revert b Hn. induction (Nat.lt_wf_0 n) as [n _ IH]. intros b ->.
  rewrite skip_value_unfold. destruct b as [|x b]; [done|]. cbn [decode_type mbind res_bind].
  apply skip_value_body_domain. intros c Hc. eapply IH; [|reflexivity]. cbn. lia.
Qed.
