(* ===== verification/CborGrammar.v ===== *)
(** * The language of CBOR items the decoder accepts

    An abstract specification for [CborDecode] and [CborEncode]: [item] is a
    syntax tree of an encoded value (with the width its heads are written
    with), [wire] its octets.  The theorems show that [skip_value] accepts
    exactly the octets of an item ([skip_value_complete],
    [skip_value_sound]), that a truncated item is reported as such
    ([skip_value_truncated]), and that what the encoder pushes is an item
    ([push_wire], [cbor_array_wire]). *)
From S2P Require Import Prelude CborEncode CborDecode.

#[local] Unset Elimination Schemes.
Inductive item : Type :=
| IUInt (w : width) (v : Z)
| INInt (w : width) (v : Z)
| IBytes (w : width) (s : bytes)
| IText (w : width) (s : bytes)
| IArray (w : width) (l : list item)
| IMap (w : width) (n : Z) (l : list item)
| ISpecial (w : width) (v : Z).
#[local] Set Elimination Schemes.

Section item_ind.
Context (P : item → Prop)
  (HUInt : ∀ w v, P (IUInt w v)) (HNInt : ∀ w v, P (INInt w v))
  (HBytes : ∀ w s, P (IBytes w s)) (HText : ∀ w s, P (IText w s))
  (HArray : ∀ w l, Forall P l → P (IArray w l))
  (HMap : ∀ w n l, Forall P l → P (IMap w n l))
  (HSpecial : ∀ w v, P (ISpecial w v)).

Fixpoint item_ind (i : item) : P i :=
  let all := fix all (l : list item) : Forall P l :=
    match l with
    | [] => Forall_nil_2 P
    | x :: l => Forall_cons_2 P x l (item_ind x) (all l)
    end in
  match i with
  | IUInt w v => HUInt w v
  | INInt w v => HNInt w v
  | IBytes w s => HBytes w s
  | IText w s => HText w s
  | IArray w l => HArray w l (all l)
  | IMap w n l => HMap w n l (all l)
  | ISpecial w v => HSpecial w v
  end.
End item_ind.

Definition len_of {A} (l : list A) : Z := Z.of_nat (length l).

(** The major type and the argument of the head of an item. *)
Definition item_head (i : item) : width * Z * Z :=
  match i with
  | IUInt w v => (w, 0, v)
  | INInt w v => (w, 1, v)
  | IBytes w s => (w, 2, len_of s)
  | IText w s => (w, 3, len_of s)
  | IArray w l => (w, 4, len_of l)
  | IMap w n l => (w, 5, n)
  | ISpecial w v => (w, 7, v)
  end.

Fixpoint wire (i : item) : bytes :=
  let '(w, major, v) := item_head i in
  head w major v ++
  match i with
  | IBytes _ s | IText _ s => s
  | IArray _ l | IMap _ _ l => concat (wire <$> l)
  | _ => []
  end.

Definition wires (l : list item) : bytes := concat (wire <$> l).

(** The items that the decoder takes.  A map head announces pairs; the decoder
    computes the number of items on [uint64_t] without a check, so that a head with
    2^63 pairs or more is followed by fewer items than it says ([map_head_wraps]):
    this clause is the code's, and not RFC 8949's. *)
Fixpoint item_ok (i : item) : Prop :=
  let '(w, major, v) := item_head i in
  0 <= v < width_bound w ∧
  match i with
  | IBytes _ s | IText _ s => bytes_ok s
  | IArray _ l => foldr (λ x P, item_ok x ∧ P) True l
  | IMap _ n l => len_of l = u64 (n * 2) ∧ foldr (λ x P, item_ok x ∧ P) True l
  | _ => True
  end.

Lemma foldr_Forall {A} (P : A → Prop) l : foldr (λ x Q, P x ∧ Q) True l ↔ Forall P l.
Proof. induction l; cbn; rewrite ?Forall_nil, ?Forall_cons; naive_solver. Qed.

Lemma item_ok_array w l :
  item_ok (IArray w l) ↔ len_of l < width_bound w ∧ Forall item_ok l.
Proof.
  cbn [item_ok item_head]. rewrite foldr_Forall. unfold len_of. intuition lia.
Qed.

Lemma item_ok_map w n l :
  item_ok (IMap w n l) ↔
  0 <= n < width_bound w ∧ len_of l = u64 (n * 2) ∧ Forall item_ok l.
Proof. cbn [item_ok item_head]. by rewrite foldr_Forall. Qed.

#[export] Instance item_ok_dec : ∀ i, Decision (item_ok i).
Proof.
  fix dec 1. intros i.
  destruct i as [| | | |w l|w n l|]; cbn [item_ok item_head]; try apply _.
  - apply and_dec; [apply _|]. induction l as [|x l IH]; cbn; [apply _|].
    apply and_dec; [apply dec|apply IH].
  - apply and_dec; [apply _|]. apply and_dec; [apply _|].
    induction l as [|x l IH]; cbn; [apply _|]. apply and_dec; [apply dec|apply IH].
Defined.

(** The octets of an item after its head. *)
Definition item_body (i : item) : bytes :=
  match i with
  | IBytes _ s | IText _ s => s
  | IArray _ l | IMap _ _ l => wires l
  | _ => []
  end.

Lemma wire_split i :
  wire i = let '(w, major, v) := item_head i in head w major v ++ item_body i.
Proof. by destruct i. Qed.

Lemma wires_cons x l : wires (x :: l) = wire x ++ wires l.
Proof. done. Qed.

Lemma wires_app l k : wires (l ++ k) = wires l ++ wires k.
Proof. unfold wires. by rewrite fmap_app, concat_app. Qed.

Lemma item_head_ok i :
  item_ok i → let '(w, major, v) := item_head i in 0 <= major < 8 ∧ 0 <= v < width_bound w.
Proof. destruct i; cbn [item_ok item_head]; intros [Hv _]; (split; [lia|exact Hv]). Qed.

Lemma wires_ok l : Forall (λ i, bytes_ok (wire i)) l → bytes_ok (wires l).
Proof. unfold wires. induction 1; cbn; [done|]. by apply Forall_app. Qed.

Lemma wire_ok i : item_ok i → bytes_ok (wire i).
Proof.
  induction i as [| | | |w l IH|w n l IH|] using item_ind; intros Hi;
    rewrite wire_split; pose proof (item_head_ok _ Hi) as Hh; cbn [item_head] in *;
    apply Forall_app; (split; [apply head_ok; apply Hh|]); cbn [item_body]; try done.
  - apply Hi.
  - apply Hi.
  - apply item_ok_array in Hi as [_ Hi]. by apply wires_ok, (Forall_mp item_ok).
  - apply item_ok_map in Hi as (_ & _ & Hi). by apply wires_ok, (Forall_mp item_ok).
Qed.

Lemma wire_nonempty i : (1 <= length (wire i))%nat.
Proof.
  rewrite wire_split. destruct (item_head i) as [[w major] v].
  rewrite length_app, length_head. lia.
Qed.

(** ** The decoder accepts every item *)

(** How the body of a value is read once its head has been. *)
Lemma skip_value_body_head w major v rest :
  0 <= v < width_bound w → bytes_ok rest →
  skip_value_body major (width_minor w v) (big_endian (width_octets w) v ++ rest)
  = match major with
    | 0 | 1 => Ok rest
    | 2 | 3 => snd <$> advance v rest
    | 4 => skip_n v rest
    | 5 => skip_n (u64 (v * 2)) rest
    | 6 => Throw (domain_error (str "cbor unsupported type tag"))
    | 7 => Ok rest
    | _ => Throw (domain_error (str "cbor unsupported type unknown"))
    end.
Proof.
  intros Hv Hr.
  unfold skip_value_body, skip_value_type, skip_bytes, skip_string, skip_array, skip_map, decode_nint.
  rewrite (decode_pint_head w v rest) by done. cbn [mbind res_bind fmap res_fmap snd].
  rewrite !skip_items_n by (rewrite length_app; lia).
  assert ((if 24 <=? width_minor w v then Ok rest
           else Ok (big_endian (width_octets w) v ++ rest)) = Ok rest) as ->.
  { destruct w; cbn in *; try done. by destruct (Z.leb_spec 24 v); [lia|]. }
  repeat case_match; try done; destruct (advance v rest) as [[]|]; done.
Qed.

Lemma skip_value_head w major v rest :
  0 <= major < 8 → 0 <= v < width_bound w → bytes_ok rest →
  skip_value (head w major v ++ rest)
  = skip_value_body major (width_minor w v) (big_endian (width_octets w) v ++ rest).
Proof.
  intros HM Hv Hr. rewrite skip_value_unfold.
  rewrite (decode_type_head w major v rest) by done. done.
Qed.

Lemma len_of_cons {A} (x : A) l : len_of (x :: l) = 1 + len_of l.
Proof. unfold len_of. cbn [length]. lia. Qed.

Lemma len_of_nonneg {A} (l : list A) : 0 <= len_of l.
Proof. unfold len_of. lia. Qed.

(** The counting loop over items each of which is skipped. *)
Lemma skip_n_wires l rest :
  bytes_ok rest → Forall item_ok l →
  Forall (λ i, ∀ rest, bytes_ok rest → skip_value (wire i ++ rest) = Ok rest) l →
  skip_n (len_of l) (wires l ++ rest) = Ok rest.
Proof.
  intros Hr Hok. induction 1 as [|x l Hx _ IH]; [by rewrite skip_n_unfold|].
  apply Forall_cons in Hok as [Hxok Hok].
  rewrite skip_n_unfold, len_of_cons. pose proof (len_of_nonneg l).
  destruct (Z.eqb_spec (1 + len_of l) 0); [lia|].
  rewrite wires_cons, <- (assoc_L app), Hx.
  - cbn [mbind res_bind]. replace (1 + len_of l - 1) with (len_of l) by lia. by apply IH.
  - apply Forall_app; split; [|done]. apply wires_ok. eapply Forall_impl; [exact Hok|exact wire_ok].
Qed.

Lemma item_body_ok i : item_ok i → bytes_ok (item_body i).
Proof.
  intros Hi. apply wire_ok in Hi. rewrite wire_split in Hi.
  destruct (item_head i) as [[w major] v]. by apply Forall_app in Hi as [_ Hi].
Qed.

Lemma skip_value_complete i rest :
  item_ok i → bytes_ok rest → skip_value (wire i ++ rest) = Ok rest.
Proof.
  revert rest. induction i as [| | | |w l IH|w n l IH|] using item_ind; intros rest Hi Hr;
    pose proof (item_head_ok _ Hi) as [HM Hv]; pose proof (item_body_ok _ Hi) as Hb;
    rewrite wire_split; cbn [item_head item_body] in *; rewrite <- (assoc_L app);
    rewrite skip_value_head by (done || by apply Forall_app);
    rewrite skip_value_body_head by (done || by apply Forall_app); cbn [app];
    try done; try (unfold len_of; by rewrite advance_app).
  - apply item_ok_array in Hi as [_ Hi]. apply skip_n_wires; [done..|].
    eapply (Forall_mp item_ok); [done|]. eapply Forall_impl; [exact IH|]. cbn. auto.
  - apply item_ok_map in Hi as (_ & <- & Hi). apply skip_n_wires; [done..|].
    eapply (Forall_mp item_ok); [done|]. eapply Forall_impl; [exact IH|]. cbn. auto.
Qed.

(** ** The decoder accepts nothing else *)

Lemma skip_n_sound (bound : nat) len b rest :
  (∀ c rest, (length c < bound)%nat → bytes_ok c → skip_value c = Ok rest →
     ∃ i, item_ok i ∧ c = wire i ++ rest) →
  (length b < bound)%nat → bytes_ok b → 0 <= len → skip_n len b = Ok rest →
  ∃ l, len_of l = len ∧ Forall item_ok l ∧ b = wires l ++ rest.
Proof.
  intros IH. remember (length b) as n eqn:Hn. revert len b Hn.
  induction (Nat.lt_wf_0 n) as [n _ IHn]. intros len b -> Hlt Hb Hlen H.
  rewrite skip_n_unfold in H. destruct (Z.eqb_spec len 0) as [->|Hne].
  - injection H as <-. exists []. split_and!; [done|constructor|done].
  - apply bind_Ok in H as (c & E & H).
    pose proof (skip_value_consumes _ _ E) as Hc.
    destruct (IH b c Hlt Hb E) as (i & Hi & ->).
    apply Forall_app in Hb as [_ Hb]. rewrite length_app in *.
    eapply IHn in H as (l & Hl & Hok & ->); [|exact Hc|done|lia|done|lia].
    exists (i :: l). rewrite len_of_cons, wires_cons, (assoc_L app).
    split_and!; [lia|by constructor|done].
Qed.

(** A value that is skipped starts with a complete head. *)
Lemma skip_value_head_inv b rest :
  bytes_ok b → skip_value b = Ok rest →
  ∃ w major v r, 0 <= major < 8 ∧ 0 <= v < width_bound w ∧ bytes_ok r ∧
    b = head w major v ++ r.
Proof.
  intros Hb H. rewrite skip_value_unfold in H.
  apply bind_Ok in H as ([[[major minor] type] c] & E & H).
  apply decode_type_inv in E as (HM & Hm & -> & -> & Hc); [|done].
  destruct (decode_pint minor c) as [[v r]|e] eqn:Hp.
  - apply decode_pint_inv in Hp as (w & -> & Hv & ->); [|done..].
    apply Forall_app in Hc as [_ Hc]. by exists w, major, v, r.
  - exfalso. revert H.
    unfold skip_value_body, skip_value_type, skip_bytes, skip_string, skip_array, skip_map, decode_nint.
    rewrite Hp. repeat case_match; try done.
    unfold decode_pint in Hp. rewrite (proj2 (Z.ltb_lt minor 24)) in Hp by lia. done.
Qed.

Lemma skip_value_sound b rest :
  bytes_ok b → skip_value b = Ok rest → ∃ i, item_ok i ∧ b = wire i ++ rest.
Proof.
  remember (length b) as n eqn:Hn. revert b rest Hn.
  induction (Nat.lt_wf_0 n) as [n _ IH]. intros b rest -> Hb H.
  destruct (skip_value_head_inv b rest Hb H) as (w & major & v & r & HM & Hv & Hr & ->).
  rewrite skip_value_head, skip_value_body_head in H by done.
  assert (∀ len, 0 <= len → skip_n len r = Ok rest →
    ∃ l, len_of l = len ∧ Forall item_ok l ∧ r = wires l ++ rest) as Hn.
  { intros len Hlen Hs. eapply (skip_n_sound (S (length r))); eauto with lia.
    intros c r' Hc Hcok Hs'. eapply (IH (length c)); [|done..].
    rewrite length_app, length_head. lia. }
  assert (snd <$> advance v r = Ok rest → ∃ s, len_of s = v ∧ bytes_ok s ∧ r = s ++ rest) as Ha.
  { intros Hs. apply fmap_Ok in Hs as ([s' r'] & Hs & <-).
    apply advance_inv in Hs as [-> ->]; [|lia]. apply Forall_app in Hr as [Hr _]. by exists s'. }
  assert (major = 0 ∨ major = 1 ∨ major = 2 ∨ major = 3 ∨ major = 4 ∨ major = 5 ∨ major = 6
    ∨ major = 7) as Hcases by lia.
  destruct_or! Hcases; subst major; try discriminate H.
  - injection H as ->. exists (IUInt w v). by rewrite wire_split; cbn; rewrite app_nil_r.
  - injection H as ->. exists (INInt w v). by rewrite wire_split; cbn; rewrite app_nil_r.
  - destruct (Ha H) as (s & <- & Hs & ->). exists (IBytes w s).
    rewrite wire_split; cbn [item_head item_body]. by rewrite <- (assoc_L app).
  - destruct (Ha H) as (s & <- & Hs & ->). exists (IText w s).
    rewrite wire_split; cbn [item_head item_body]. by rewrite <- (assoc_L app).
  - destruct (Hn v) as (l & <- & Hl & ->); [lia|done|]. exists (IArray w l).
    rewrite item_ok_array, wire_split; cbn [item_head item_body].
    rewrite <- (assoc_L app). split_and!; [lia|done..].
  - destruct (Hn (u64 (v * 2))) as (l & Hlen & Hl & ->); [apply u64_range|done|].
    exists (IMap w v l). rewrite item_ok_map, wire_split; cbn [item_head item_body].
    by rewrite <- (assoc_L app).
  - injection H as ->. exists (ISpecial w v). by rewrite wire_split; cbn; rewrite app_nil_r.
Qed.

(** ** Truncated items *)

Lemma skip_value_body_throw major minor q e :
  0 <= major < 8 → major ≠ 6 → 24 <= minor → decode_pint minor q = Throw e →
  skip_value_body major minor q = Throw e.
Proof.
  intros HM H6 Hm Hp.
  unfold skip_value_body, skip_value_type, skip_bytes, skip_string, skip_array, skip_map, decode_nint.
  rewrite Hp, (proj2 (Z.leb_le 24 minor)) by done.
  assert (major = 0 ∨ major = 1 ∨ major = 2 ∨ major = 3 ∨ major = 4 ∨ major = 5 ∨ major = 7)
    as Hcases by lia.
  by destruct_or! Hcases; subst major.
Qed.

Lemma skip_value_head_truncated w major v p :
  0 <= major < 8 → major ≠ 6 → 0 <= v < width_bound w →
  p `prefix_of` head w major v → (length p < length (head w major v))%nat →
  skip_value p = Throw too_short.
Proof.
  intros HM H6 Hv Hp Hl. rewrite length_head in Hl.
  pose proof (head_ok w major v HM Hv) as Hok.
  destruct Hp as [k Hk]. destruct p as [|x p]; [done|].
  rewrite Hk in Hok. apply Forall_app in Hok as [Hok _]. apply Forall_cons in Hok as [_ Hok].
  unfold head in Hk. cbn [app] in Hk. injection Hk as <- Hk.
  assert (w ≠ W0) as Hw by (intros ->; cbn in Hl; lia).
  rewrite skip_value_unfold. pose proof (decode_type_head w major v (p ++ k) HM Hv) as Ht.
  unfold head in Ht. cbn [decode_type app] in Ht |- *. injection Ht as HM' Hm'.
  cbn [mbind res_bind]. rewrite HM', Hm'.
  apply skip_value_body_throw; [done..|by destruct w|].
  replace (width_minor w v) with (width_minor w 0) by by destruct w.
  rewrite decode_pint_wide by done. rewrite decide_False; [done|]. cbn in Hl. lia.
Qed.

Lemma skip_n_truncated l q :
  Forall item_ok l →
  Forall (λ i, ∀ p, p `prefix_of` wire i → (length p < length (wire i))%nat →
    skip_value p = Throw too_short) l →
  q `prefix_of` wires l → (length q < length (wires l))%nat →
  skip_n (len_of l) q = Throw too_short.
Proof.
  intros Hok IH. revert q. induction IH as [|x l Hx _ IH]; intros q Hq Hl; [cbn in Hl; lia|].
  apply Forall_cons in Hok as [Hxok Hok]. rewrite wires_cons in *.
  rewrite skip_n_unfold, len_of_cons. pose proof (len_of_nonneg l).
  destruct (Z.eqb_spec (1 + len_of l) 0); [lia|].
  destruct (prefix_app_cases q (wire x) (wires l) Hq) as [[Hp Hlt]|(q' & -> & Hq')].
  - by rewrite Hx.
  - rewrite length_app in Hl. rewrite length_app in Hl.
    assert (bytes_ok q') as Hq'ok.
    { destruct Hq' as [k Hk]. assert (bytes_ok (wires l)) as Hw.
      { apply wires_ok. eapply Forall_impl; [exact Hok|exact wire_ok]. }
      rewrite Hk in Hw. by apply Forall_app in Hw as [Hw _]. }
    rewrite skip_value_complete by done. cbn [mbind res_bind].
    replace (1 + len_of l - 1) with (len_of l) by lia. apply IH; [done..|lia].
Qed.

Lemma skip_value_truncated i p :
  item_ok i → p `prefix_of` wire i → (length p < length (wire i))%nat →
  skip_value p = Throw too_short.
Proof.
  revert p. induction i as [| | | |w l IH|w n l IH|] using item_ind; intros p Hi Hp Hl;
    pose proof (item_head_ok _ Hi) as [HM Hv]; pose proof (item_body_ok _ Hi) as Hb;
    rewrite wire_split in Hp, Hl; cbn [item_head item_body] in *;
    (destruct (prefix_app_cases _ _ _ Hp) as [[Hp' Hlt]|(q & -> & Hq)];
      [by eapply skip_value_head_truncated; [..|exact Hp'|]|]);
    rewrite !length_app in Hl; try (cbn in Hl; lia);
    (assert (bytes_ok q) as Hqok
      by (destruct Hq as [k Hk]; rewrite Hk in Hb; by apply Forall_app in Hb as [Hb _]));
    rewrite skip_value_head, skip_value_body_head by done.
  - rewrite advance_spec by lia. unfold len_of. rewrite decide_False by lia. done.
  - rewrite advance_spec by lia. unfold len_of. rewrite decide_False by lia. done.
  - apply item_ok_array in Hi as [_ Hi]. apply skip_n_truncated; [done| |done|lia].
    eapply (Forall_mp item_ok); [done|]. eapply Forall_impl; [exact IH|]. cbn. auto.
  - apply item_ok_map in Hi as (_ & <- & Hi). apply skip_n_truncated; [done| |done|lia].
    eapply (Forall_mp item_ok); [done|]. eapply Forall_impl; [exact IH|]. cbn. auto.
Qed.

(** ** The encoder writes items *)

(** The item an argument of [push] stands for.  An [ACbor] stands for the item
    its octets spell. *)
Definition arg_item (a : arg) (i : item) : Prop :=
  match a with
  | AUInt v => i = IUInt (min_width v) v
  | AInt v => i = if v <? 0 then INInt (min_width (- v - 1)) (- v - 1) else IUInt (min_width v) v
  | ABool b => i = ISpecial W0 (if b then 21 else 20)
  | AFloat bits => i = ISpecial W4 bits
  | ADouble bits => i = ISpecial W8 bits
  | AString s => i = IText (min_width (len_of s)) s
  | ACbor b => b = wire i ∧ item_ok i
  end.

Definition INull : item := ISpecial W0 22.

Lemma head_only w major v : head w major v ++ [] = head w major v.
Proof. apply app_nil_r. Qed.

Lemma arg_item_ok a i : arg_ok a → arg_item a i → item_ok i.
Proof.
  destruct a as [v|v|[]|v|v|s|c]; cbn [arg_ok arg_item]; unfold is_s64, is_u64; intros Ha Hi;
    try subst i; cbn [item_ok item_head].
  - split; [split; [lia|by apply min_width_bound]|done].
  - destruct (Z.ltb_spec v 0); cbn [item_ok item_head]; (split; [|done]);
      (split; [lia|apply min_width_bound; unfold is_u64; lia]).
  - cbn; lia.
  - cbn; lia.
  - cbn; lia.
  - cbn; lia.
  - destruct Ha as [Hs Hl]. split; [|done]. pose proof (len_of_nonneg s).
    split; [done|apply min_width_bound]. unfold is_u64, len_of in *. lia.
  - by destruct Hi.
Qed.

Lemma push_wire b a i : arg_ok a → arg_item a i → push b a = b ++ wire i.
Proof.
  intros Ha Hi. rewrite push_app. f_equal.
  destruct a as [v|v|[]|v|v|s|c]; cbn [arg_ok arg_item push] in *; unfold is_s64, is_u64 in Ha;
    try subst i.
  - unfold push_uint. rewrite push_typed_val_head by (lia || done). by cbn; rewrite app_nil_r.
  - unfold push_int. destruct (Z.ltb_spec v 0); rewrite u64_small by (unfold is_u64; lia);
      rewrite push_typed_val_head by (unfold is_u64; lia);
      [replace (- (v + 1)) with (- v - 1) by lia|]; by cbn; rewrite app_nil_r.
  - done.
  - done.
  - rewrite push_float_be. by rewrite wire_split; cbn [item_head item_body]; rewrite head_only.
  - rewrite push_double_be. by rewrite wire_split; cbn [item_head item_body]; rewrite head_only.
  - destruct Ha. unfold push_string. rewrite push_typed_val_head; [done|lia|].
    unfold is_u64. lia.
  - by destruct Hi as [-> _].
Qed.

Lemma push_parms_wires b ps l :
  Forall arg_ok ps → Forall2 arg_item ps l → push_parms b ps = b ++ wires l.
Proof.
  intros Hok H. revert b. induction H as [|p i ps l Hp _ IH]; intros b; cbn [push_parms].
  - by rewrite app_nil_r.
  - apply Forall_cons in Hok as [Hpok Hok].
    by rewrite IH, (push_wire b p i), wires_cons, (assoc_L app).
Qed.

(** [array(...)] writes the array of the items of its parameters, and null
    without parameters. *)
Lemma array_wire b ps l :
  Forall arg_ok ps → len_of ps < 2 ^ 64 → Forall2 arg_item ps l →
  array b ps = b ++ wire (match l with [] => INull | _ => IArray (min_width (len_of l)) l end).
Proof.
  intros Hok Hlen H. pose proof (Forall2_length _ _ _ H) as Hl.
  destruct H as [|p i ps l Hp H]; [done|].
  unfold array, array_header, cbor_magic_type_array.
  rewrite push_parms_wires with (l := i :: l); [|done|by constructor].
  rewrite push_typed_val_head; [|lia|unfold is_u64, len_of in *; lia].
  rewrite wire_split. cbn [item_head item_body]. unfold len_of. by rewrite Hl, (assoc_L app).
Qed.

Lemma array_items_ok ps l :
  Forall arg_ok ps → len_of ps < 2 ^ 64 → Forall2 arg_item ps l →
  item_ok (match l with [] => INull | _ => IArray (min_width (len_of l)) l end).
Proof.
  intros Hok Hlen H. pose proof (Forall2_length _ _ _ H) as Hl.
  assert (Forall item_ok l) as Hitems.
  { clear Hlen Hl. induction H; [constructor|]. inversion_clear Hok.
    constructor; [by eapply arg_item_ok|auto]. }
  destruct l as [|i l]; [cbn; lia|]. apply item_ok_array. split; [|done].
  apply min_width_bound. unfold is_u64, len_of in *. lia.
Qed.
