(* ===== verification/CborMatch.v ===== *)
(** * Matching and extracting CBOR values ([src/src/cbor.cpp],
      [src/include/cbor/cbor.hpp])

    A matcher takes [iter &b] and returns a [bool]; an extractor also writes
    the variable it holds a reference to.  Here a matcher returns the value it
    writes, [None] for [false], with the iterator it leaves behind in both
    cases (the endpoint's framing reads it after a failure).  The parameter
    pack of [operator()] is a list of patterns and a successful match returns
    what its extractors wrote, in order. *)
From S2P Require Import Prelude CborEncode CborDecode CborGrammar Ieee.

(** ** Data *)

Inductive type : Type :=
| t_number | t_floating | t_bytes | t_string | t_array | t_map | t_tag
| t_boolean | t_null | t_any | t_more | t_unknown.

#[export] Instance type_eq_dec : EqDecision type.
Proof. solve_decision. Defined.

(** The variables an extractor can be bound to. *)
Inductive target : Type :=
| XType
| XInt (lo hi : Z)      (** [extract_int<T>], [T] a signed type *)
| XULL                  (** [unsigned long long] *)
| XUInt (max : Z)       (** [extract_uint<T>], [T] a narrower unsigned type *)
| XBool
| XDouble
| XFloat
| XString               (** [std::string] or [std::string_view] *)
| XRange.

(** What an extractor wrote; floating values are bit patterns and a range is
    given by its octets. *)
Inductive capture : Type :=
| CType (t : type)
| CInt (v : Z)
| CUInt (v : Z)
| CBool (v : bool)
| CDouble (bits : Z)
| CFloat (bits : Z)
| CString (s : bytes)
| CRange (r : bytes).

(** The parameters of [operator()], [A] and [M]. *)
#[local] Unset Elimination Schemes.
Inductive pat : Type :=
| PType (t : type)
| PInt (lit : Z)
| PUInt (lit : Z)
| PBool (lit : bool)
| PStr (lit : bytes)
| PExtract (x : target)
| PArray (ps : list pat)
| PMap (ps : list pat).
#[local] Set Elimination Schemes.

Section pat_ind.
Context (P : pat → Prop)
  (HType : ∀ t, P (PType t)) (HInt : ∀ v, P (PInt v)) (HUInt : ∀ v, P (PUInt v))
  (HBool : ∀ v, P (PBool v)) (HStr : ∀ s, P (PStr s)) (HExtract : ∀ x, P (PExtract x))
  (HArray : ∀ ps, Forall P ps → P (PArray ps)) (HMap : ∀ ps, Forall P ps → P (PMap ps)).

Fixpoint pat_ind (p : pat) : P p :=
  let all := fix all (l : list pat) : Forall P l :=
    match l with
    | [] => Forall_nil_2 P
    | x :: l => Forall_cons_2 P x l (pat_ind x) (all l)
    end in
  match p with
  | PType t => HType t
  | PInt v => HInt v
  | PUInt v => HUInt v
  | PBool v => HBool v
  | PStr s => HStr s
  | PExtract x => HExtract x
  | PArray ps => HArray ps (all ps)
  | PMap ps => HMap ps (all ps)
  end.
End pat_ind.

Abbreviation PAny := (PType t_any).
Abbreviation PMore := (PType t_more).

Definition int_target : target := XInt (- 2 ^ 31) (2 ^ 31 - 1).
Definition int64_target : target := XInt (- 2 ^ 63) (2 ^ 63 - 1).
Definition uint64_target : target := XUInt (2 ^ 64 - 1).

Definition matcher (A : Type) : Type := bytes → res (option A * bytes).

(** ** Floating point *)

Definition decode_half (h : Z) : Z :=
  let exp := Z.land (Z.shiftr h 10) 0x1f in
  let mant := Z.land h 0x3ff in
  let v :=
    if exp =? 0 then ldexp mant (-24)
    else if negb (exp =? 31) then ldexp (mant + 1024) (exp - 25)
    else if mant =? 0 then double_inf else double_nan in
  if negb (Z.land h 0x8000 =? 0) then double_neg v else v.

Definition decode_float (type : Z) (b : bytes) : res (Z * bytes) :=
  if type =? cbor_magic_float16 then
    '(i, b) ← decode_int_length 2 b; Ok (decode_half (u16 i), b)
  else if type =? cbor_magic_float32 then
    '(i, b) ← decode_int_length 4 b; Ok (float_to_double (u32 i), b)
  else if type =? cbor_magic_float64 then
    '(i, b) ← decode_int_length 8 b; Ok (u64 i, b)
  else Throw (domain_error (str "cbor invalid float type")).

(** ** Matchers *)

Definition match_type : matcher type := λ b,
  '((major, minor, type), b) ← decode_type b;
  b ← skip_value_body major minor b;
  Ok (match major with
      | 0 | 1 => Some t_number
      | 2 => Some t_bytes
      | 3 => Some t_string
      | 4 => Some t_array
      | 5 => Some t_map
      | 7 => Some (if type =? 0xf6 then t_null
                   else if (type =? 0xf4) || (type =? 0xf5) then t_boolean
                   else if is_float_type type then t_floating
                   else t_unknown)
      | _ => None
      end, b).

Definition match_uint : matcher Z := λ b,
  '((major, minor, _), b) ← decode_type b;
  if negb (major =? 0) then Ok (None, b)
  else '(val, b) ← decode_pint minor b; Ok (Some val, b).

Definition match_int : matcher Z := λ b,
  '((major, minor, _), b) ← decode_type b;
  if major =? 0 then
    '(val, b) ← decode_pint minor b;
    let val := s64 val in
    if val <? 0 then Ok (None, b) else Ok (Some val, b)
  else if major =? 1 then
    '(val, b) ← decode_nint minor b; Ok (Some val, b)
  else Ok (None, b).

Definition match_bool : matcher bool := λ b,
  '((major, _, type), b) ← decode_type b;
  if major =? 7 then
    if type =? 0xf4 then Ok (Some false, b)
    else if type =? 0xf5 then Ok (Some true, b)
    else Ok (None, b)
  else Ok (None, b).

Definition match_string : matcher bytes := λ b,
  '((major, minor, _), b) ← decode_type b;
  if major =? 2 then '(val, b) ← decode_bytes minor b; Ok (Some val, b)
  else if major =? 3 then '(val, b) ← decode_string minor b; Ok (Some val, b)
  else Ok (None, b).

Definition match_float : matcher Z := λ b,
  '((major, minor, type), b) ← decode_type b;
  if major =? 0 then '(v, b) ← decode_pint minor b; Ok (Some (double_of_Z v), b)
  else if major =? 1 then '(v, b) ← decode_nint minor b; Ok (Some (double_of_Z v), b)
  else if major =? 7 then
    if negb (is_float_type type) then Ok (None, b)
    else '(v, b) ← decode_float type b; Ok (Some v, b)
  else Ok (None, b).

(** A matched value kept when a test on it holds. *)
Definition keep {A B} (m : matcher A) (f : A → option B) : matcher B := λ b,
  '(v, b) ← m b;
  Ok (match v with Some v => f v | None => None end, b).

Definition extract_int (lo hi : Z) : matcher Z :=
  keep match_int (λ i, if (i <? lo) || (hi <? i) then None else Some i).

Definition extract_uint (max : Z) : matcher Z :=
  keep match_uint (λ i, if max <? i then None else Some i).

(** [extract(range &)]: the octets from the iterator before the value to the
    one after it. *)
Definition extract_range : matcher bytes := λ r_b,
  '(v, b) ← match_type r_b;
  Ok (match v with
      | Some t_null | Some t_array | Some t_map =>
          Some (take (length r_b - length b) r_b)
      | _ => None
      end, b).

(** [extract(x)] applied to an iterator. *)
Definition extract (x : target) : matcher capture :=
  match x with
  | XType => keep match_type (λ t, Some (CType t))
  | XInt lo hi => keep (extract_int lo hi) (λ i, Some (CInt i))
  | XULL => keep match_uint (λ i, Some (CUInt i))
  | XUInt max => keep (extract_uint max) (λ i, Some (CUInt i))
  | XBool => keep match_bool (λ v, Some (CBool v))
  | XDouble => keep match_float (λ v, Some (CDouble v))
  | XFloat => keep match_float (λ v, Some (CFloat (double_to_float v)))
  | XString => keep match_string (λ s, Some (CString s))
  | XRange => keep extract_range (λ r, Some (CRange r))
  end.

Definition match_value_type (t : type) : matcher (list capture) :=
  keep match_type (λ v, if decide (t = t_any) then Some []
                        else if decide (t = v) then Some [] else None).

(** [while (n) { if (!match_value(b, e, any)) return false; --n; }]; every turn
    consumes an octet, so the octets left bound the turns. *)
Fixpoint match_more (fuel : nat) (n : Z) (b : bytes) : res (option (list capture) * bytes) :=
  if n =? 0 then Ok (Some [], b)
  else match fuel with
       | O => Throw out_of_fuel
       | S fuel =>
           '(v, b) ← match_value_type t_any b;
           match v with None => Ok (None, b) | Some _ => match_more fuel (n - 1) b end
       end.

Definition is_more (p : pat) : bool :=
  match p with PType t_more => true | _ => false end.

Section match_next.
Context (match_value : pat → matcher (list capture)).

(** There is no overload for an empty pack. *)
Fixpoint match_next (n : Z) (ps : list pat) (b : bytes) : res (option (list capture) * bytes) :=
  match ps with
  | [] => Ok (None, b)
  | [p] =>
      if is_more p then match_more (S (length b)) n b
      else if n =? 0 then Ok (None, b)
      else
        '(v, b) ← match_value p b;
        Ok (match v with Some c => if n =? 1 then Some c else None | None => None end, b)
  | p :: ps =>
      if n =? 0 then Ok (None, b)
      else
        '(v, b) ← match_value p b;
        match v with
        | None => Ok (None, b)
        | Some c =>
            '(w, b) ← match_next (n - 1) ps b;
            Ok (match w with Some d => Some (c ++ d) | None => None end, b)
        end
  end.

Definition match_array_with (ps : list pat) : matcher (list capture) := λ b,
  '(n, b) ← decode_array_header b;
  match_next n ps b.

Definition match_map_with (ps : list pat) : matcher (list capture) := λ b,
  '(n, b) ← decode_map_header b;
  let n := u64 (n * 2) in
  match_next n ps b.
End match_next.

(** The overloads of [match_value]. *)
Fixpoint match_value (p : pat) : matcher (list capture) :=
  match p with
  | PType t => match_value_type t
  | PInt lit => keep match_int (λ v, if v =? lit then Some [] else None)
  | PUInt lit => keep match_uint (λ v, if v =? lit then Some [] else None)
  | PBool lit => keep match_bool (λ v, if eqb v lit then Some [] else None)
  | PStr lit => keep match_string (λ v, if decide (v = lit) then Some [] else None)
  | PExtract x => keep (extract x) (λ c, Some [c])
  | PArray ps => match_array_with match_value ps
  | PMap ps => match_map_with match_value ps
  end.

Definition match_array (ps : list pat) : matcher (list capture) :=
  match_array_with match_value ps.

(** [m(ps...)], for a [buffer] and for a [range]. *)
Definition matches (m : bytes) (ps : list pat) : res (option (list capture)) :=
  fst <$> match_array ps m.

(** ** Iteration *)

(** A [value_iterator]: the octets from its position to the end of the buffer
    or range, and the number of values left. *)
Record value_iterator : Type := ValueIterator { vi_b : bytes; vi_n : Z }.

Definition vi_begin (b : bytes) : res value_iterator :=
  '(n, b) ← decode_range_header b;
  Ok (ValueIterator b n).

(** [it != end()] compares positions. *)
Definition vi_more (it : value_iterator) : bool := negb (bool_decide (vi_b it = [])).

Definition vi_next (it : value_iterator) : res value_iterator :=
  if vi_n it =? 0 then Ok it
  else '(_, b) ← match_value (PType t_any) (vi_b it); Ok (ValueIterator b (vi_n it - 1)).

(** [*it]: a [value_accessor] from the position to the end. *)
Definition vi_deref (it : value_iterator) : res bytes :=
  if vi_n it =? 0 then Throw (out_of_range (str "cbor iterator out of range"))
  else Ok (vi_b it).

(** [value_accessor::type_] *)
Definition type_of (b : bytes) : res type :=
  '(t, _) ← match_type b;
  Ok (default t_unknown t).

(** [get<string_view>]: an empty view unless the value is a string. *)
Definition get_string (b : bytes) : res bytes :=
  '(s, _) ← match_string b;
  Ok (default [] s).

(** [for (auto v : r) out.push_back(f(v))] *)
Fixpoint vi_collect {A} (fuel : nat) (f : bytes → res A) (it : value_iterator) : res (list A) :=
  if vi_more it then
    match fuel with
    | O => Throw out_of_fuel
    | S fuel =>
        v ← vi_deref it;
        x ← f v;
        it ← vi_next it;
        l ← vi_collect fuel f it;
        Ok (x :: l)
    end
  else Ok [].

Definition range_values {A} (f : bytes → res A) (r : bytes) : res (list A) :=
  it ← vi_begin r;
  vi_collect (S (length r)) f it.

Definition range_is_null (r : bytes) : res bool :=
  '(n, _) ← decode_range_header r;
  Ok (n =? 0).
