(* ===== verification/CborMatchSpec.v ===== *)
(** * Matching, on syntax trees

    An abstract specification of [CborMatch]: [pat_item] matches a pattern
    against an [item], with no octets and no iterators.  [match_value_item]
    shows that [match_value] on the octets of an item computes it, and
    [matches_array] that a message built by [cbor::array] is matched as the
    list of its parameters. *)
From S2P Require Import Prelude CborEncode CborDecode CborGrammar Ieee CborMatch.

(** ** What a value is *)

Definition item_type (i : item) : type :=
  match i with
  | IUInt _ _ | INInt _ _ => t_number
  | IBytes _ _ => t_bytes
  | IText _ _ => t_string
  | IArray _ _ => t_array
  | IMap _ _ _ => t_map
  | ISpecial W0 v => if v =? 22 then t_null else if (v =? 20) || (v =? 21) then t_boolean else t_unknown
  | ISpecial W1 _ => t_unknown
  | ISpecial _ _ => t_floating
  end.

(** The value [decode_nint] gives to the negative integer [-1 - v]: the
    integers below [-2^63] come out shifted by [2^64]. *)
Definition nint_value (v : Z) : Z := if v <? 2 ^ 63 then - 1 - v else 2 ^ 64 - 1 - v.

Definition item_uint (i : item) : option Z :=
  match i with IUInt _ v => Some v | _ => None end.

Definition item_int (i : item) : option Z :=
  match i with
  | IUInt _ v => if v <? 2 ^ 63 then Some v else None
  | INInt _ v => Some (nint_value v)
  | _ => None
  end.

Definition item_bool (i : item) : option bool :=
  match i with
  | ISpecial W0 v => if v =? 20 then Some false else if v =? 21 then Some true else None
  | _ => None
  end.

Definition item_string (i : item) : option bytes :=
  match i with IBytes _ s | IText _ s => Some s | _ => None end.

Definition item_float (i : item) : option Z :=
  match i with
  | IUInt _ v => Some (double_of_Z v)
  | INInt _ v => Some (double_of_Z (nint_value v))
  | ISpecial W2 v => Some (decode_half v)
  | ISpecial W4 v => Some (float_to_double v)
  | ISpecial W8 v => Some v
  | _ => None
  end.

Definition item_range (i : item) : option bytes :=
  match item_type i with t_null | t_array | t_map => Some (wire i) | _ => None end.

(** What an extractor writes. *)
Definition item_capture (x : target) (i : item) : option capture :=
  match x with
  | XType => Some (CType (item_type i))
  | XInt lo hi => v ← item_int i; if (v <? lo) || (hi <? v) then None else Some (CInt v)
  | XULL => CUInt <$> item_uint i
  | XUInt max => v ← item_uint i; if max <? v then None else Some (CUInt v)
  | XBool => CBool <$> item_bool i
  | XDouble => CDouble <$> item_float i
  | XFloat => (CFloat ∘ double_to_float) <$> item_float i
  | XString => CString <$> item_string i
  | XRange => CRange <$> item_range i
  end.

(** The values of an array, with null standing for the empty array; anything
    else is an exception. *)
Definition array_items (i : item) : res (list item) :=
  match i with
  | IArray _ l => Ok l
  | ISpecial W0 22 => Ok []
  | _ => Throw (domain_error (str "cbor unexpected type (expected array)"))
  end.

Definition map_items (i : item) : res (list item) :=
  match i with
  | IMap _ _ l => Ok l
  | ISpecial W0 22 => Ok []
  | _ => Throw (domain_error (str "cbor unexpected type (expected map)"))
  end.

Section pats_items.
Context (pat_item : pat → item → res (option (list capture))).

Fixpoint pats_items (ps : list pat) (l : list item) : res (option (list capture)) :=
  match ps, l with
  | [], _ => Ok None
  | [p], _ =>
      if is_more p then Ok (Some [])
      else match l with
           | [] => Ok None
           | x :: l =>
               r ← pat_item p x;
               Ok (match r, l with Some c, [] => Some c | _, _ => None end)
           end
  | _ :: _, [] => Ok None
  | p :: ps, x :: l =>
      r ← pat_item p x;
      match r with
      | None => Ok None
      | Some c =>
          r ← pats_items ps l;
          Ok (match r with Some d => Some (c ++ d) | None => None end)
      end
  end.
End pats_items.

Fixpoint pat_item (p : pat) (i : item) : res (option (list capture)) :=
  match p with
  | PType t => Ok (if decide (t = t_any) then Some []
                   else if decide (t = item_type i) then Some [] else None)
  | PInt lit => Ok (v ← item_int i; if v =? lit then Some [] else None)
  | PUInt lit => Ok (v ← item_uint i; if v =? lit then Some [] else None)
  | PBool lit => Ok (v ← item_bool i; if eqb v lit then Some [] else None)
  | PStr lit => Ok (v ← item_string i; if decide (v = lit) then Some [] else None)
  | PExtract x => Ok ((λ c, [c]) <$> item_capture x i)
  | PArray ps => l ← array_items i; pats_items pat_item ps l
  | PMap ps => l ← map_items i; pats_items pat_item ps l
  end.

(** ** A matcher implements a function of the item *)

(** On success the iterator is behind the value. *)
Definition implements {A} (m : res (option A * bytes)) (s : res (option A)) (rest : bytes) : Prop :=
  match s with
  | Ok (Some c) => m = Ok (Some c, rest)
  | Ok None => ∃ b, m = Ok (None, b)
  | Throw e => m = Throw e
  end.

Lemma implements_keep {A B} (m : matcher A) (f : A → option B) s b rest :
  implements (m b) (Ok s) rest → implements (keep m f b) (Ok (s ≫= f)) rest.
Proof.
  unfold implements, keep. destruct s as [a|].
  - intros ->. cbn. destruct (f a); eauto.
  - intros [c ->]. cbn. eauto.
Qed.

Lemma implements_fst {A} (m : res (option A * bytes)) s rest :
  implements m s rest → fst <$> m = s.
Proof. unfold implements. destruct s as [[]|]; [intros ->|intros [? ->]|intros ->]; done. Qed.

Lemma s64_neg_wrap v : is_u64 v → s64 (u64 (- u64 (v + 1))) = nint_value v.
Proof.
  intros Hv. rewrite s64_u64. unfold is_u64 in Hv. unfold nint_value.
  destruct (decide (v = 2 ^ 64 - 1)) as [->|Hne].
  - reflexivity.
  - rewrite u64_small by (unfold is_u64; lia). destruct (Z.ltb_spec v (2 ^ 63)).
    + rewrite s64_small by (unfold is_s64; lia). lia.
    + replace (- (v + 1)) with (2 ^ 64 - 1 - v + (-1) * 2 ^ 64) by lia.
      rewrite s64_wrap, s64_small by (unfold is_s64; lia). lia.
Qed.

Lemma decode_nint_head w v rest :
  bytes_ok rest → 0 <= v < width_bound w →
  decode_nint (width_minor w v) (big_endian (width_octets w) v ++ rest)
  = Ok (nint_value v, rest).
Proof.
  intros Hr Hv. unfold decode_nint. rewrite decode_pint_head by done. cbn [mbind res_bind].
  rewrite s64_neg_wrap; [done|]. pose proof (width_bound_le w). unfold is_u64. lia.
Qed.

Lemma s64_uint_test v :
  is_u64 v → (s64 v <? 0) = negb (v <? 2 ^ 63) ∧ (v < 2 ^ 63 → s64 v = v).
Proof.
  unfold is_u64. intros Hv. split.
  - destruct (Z.ltb_spec v (2 ^ 63)).
    + rewrite s64_small by (unfold is_s64; lia). apply Z.ltb_ge. lia.
    + replace v with (v - 2 ^ 64 + 1 * 2 ^ 64) by lia.
      rewrite s64_wrap, s64_small by (unfold is_s64; lia). apply Z.ltb_lt. lia.
  - intros. apply s64_small. unfold is_s64. lia.
Qed.

(** Open the head of an item for a matcher. *)
Ltac open_item Hi :=
  let i := match type of Hi with item_ok ?i => i end in
  let HM := fresh "HM" in let Hv := fresh "Hv" in let Hb := fresh "Hb" in
  pose proof (item_head_ok i Hi) as [HM Hv]; pose proof (item_body_ok i Hi) as Hb;
  rewrite (wire_split i); cbn [item_head item_body] in *; rewrite <- (assoc_L app);
  rewrite decode_type_head by done; cbn [mbind res_bind]; cbv beta iota.

Lemma match_type_item i rest :
  item_ok i → bytes_ok rest → match_type (wire i ++ rest) = Ok (Some (item_type i), rest).
Proof.
  intros Hi Hr. pose proof (skip_value_complete i rest Hi Hr) as Hs.
  rewrite skip_value_unfold in Hs. unfold match_type.
  destruct i; pose proof (item_head_ok _ Hi) as [HM Hv];
    rewrite wire_split in Hs |- *; cbn [item_head item_body] in *; rewrite <- (assoc_L app) in Hs |- *;
    rewrite decode_type_head in Hs |- * by done; cbn [mbind res_bind] in Hs |- *;
    rewrite Hs; cbn [mbind res_bind]; try done.
  destruct w; try done. cbn [width_minor item_type width_bound] in *. unfold is_float_type.
  cbn -[Z.eqb Z.mul Z.add]. unfold cbor_magic_float16, cbor_magic_float32, cbor_magic_float64.
  repeat f_equal. ztests; try lia; done.
Qed.

Lemma match_int_item i rest :
  item_ok i → bytes_ok rest → implements (match_int (wire i ++ rest)) (Ok (item_int i)) rest.
Proof.
  intros Hi Hr. unfold match_int. destruct i as [w v|w v| | | | |]; open_item Hi;
    try (cbn; by eauto).
  - cbn [Z.eqb app]. rewrite decode_pint_head by done. cbn [mbind res_bind].
    pose proof (width_bound_le w). destruct (s64_uint_test v) as [-> Hs]; [unfold is_u64; lia|].
    cbn [item_int]. destruct (Z.ltb_spec v (2 ^ 63)); cbn; [|by eauto].
    by rewrite Hs.
  - cbn [Z.eqb app]. rewrite decode_nint_head by done. done.
Qed.

Lemma match_uint_item i rest :
  item_ok i → bytes_ok rest → implements (match_uint (wire i ++ rest)) (Ok (item_uint i)) rest.
Proof.
  intros Hi Hr. unfold match_uint. destruct i as [w v| | | | | |]; open_item Hi;
    try (cbn; by eauto).
  cbn [Z.eqb negb app]. by rewrite decode_pint_head.
Qed.

Lemma match_bool_item i rest :
  item_ok i → bytes_ok rest → implements (match_bool (wire i ++ rest)) (Ok (item_bool i)) rest.
Proof.
  intros Hi Hr. unfold match_bool. destruct i as [| | | | | |w v]; open_item Hi;
    try (cbn; by eauto).
  destruct w; cbn -[Z.eqb Z.mul Z.add] in *; try (by eauto).
  change (7 * 32) with 224. ztests; try lia; cbn; eauto.
Qed.

Lemma match_string_item i rest :
  item_ok i → bytes_ok rest → implements (match_string (wire i ++ rest)) (Ok (item_string i)) rest.
Proof.
  intros Hi Hr. unfold match_string, decode_bytes, decode_string.
  destruct i as [| |w s|w s| | |]; open_item Hi; try (cbn; by eauto);
    cbn [Z.eqb app]; rewrite decode_pint_head by (done || by apply Forall_app);
    cbn [mbind res_bind]; unfold len_of; rewrite advance_app; done.
Qed.

Lemma decode_int_length_be n v rest :
  (1 <= n)%nat → bytes_ok rest → 0 <= v < 2 ^ (8 * Z.of_nat n) →
  decode_int_length n (big_endian n v ++ rest) = Ok (s64 v, rest).
Proof.
  intros Hn Hr Hv. rewrite decode_int_length_spec by
    (done || by apply Forall_app; split; [apply big_endian_ok|]).
  rewrite length_app, length_big_endian, decide_True by lia.
  rewrite take_app_length', drop_app_length' by (by rewrite length_big_endian).
  by rewrite be_val_big_endian.
Qed.

Lemma s64_mod_pow2 v k : 0 <= k <= 64 → s64 v mod 2 ^ k = v mod 2 ^ k.
Proof.
  intros Hk. destruct (s64_eq v) as [j ->].
  replace (j * 2 ^ 64) with (j * 2 ^ (64 - k) * 2 ^ k)
    by (rewrite <- Z.mul_assoc, <- Z.pow_add_r by lia; do 2 f_equal; lia).
  apply Z.mod_add. pose proof (pow2_pos k). lia.
Qed.

Lemma decode_float_head w v x rest :
  0 <= v < width_bound w → bytes_ok rest → (1 < width_octets w)%nat →
  item_float (ISpecial w v) = Some x →
  is_float_type (7 * 32 + width_minor w v) = true ∧
  decode_float (7 * 32 + width_minor w v) (big_endian (width_octets w) v ++ rest) = Ok (x, rest).
Proof.
  intros Hv Hr Hw. destruct w; cbn [width_octets] in Hw; try lia;
    cbn [item_float width_minor width_octets width_bound] in *; intros [= <-]; (split; [done|]).
  - change (decode_float (7 * 32 + 25)) with (λ b : bytes,
      '(i, b) ← decode_int_length 2 b; Ok (decode_half (u16 i), b)). cbv beta.
    rewrite decode_int_length_be by (done || lia). cbn [mbind res_bind].
    unfold u16. by rewrite s64_mod_pow2, Z.mod_small by lia.
  - change (decode_float (7 * 32 + 26)) with (λ b : bytes,
      '(i, b) ← decode_int_length 4 b; Ok (float_to_double (u32 i), b)). cbv beta.
    rewrite decode_int_length_be by (done || lia). cbn [mbind res_bind].
    unfold u32. by rewrite s64_mod_pow2, Z.mod_small by lia.
  - change (decode_float (7 * 32 + 27)) with (λ b : bytes,
      '(i, b) ← decode_int_length 8 b; Ok (u64 i, b)). cbv beta.
    rewrite decode_int_length_be by (done || lia). cbn [mbind res_bind].
    by rewrite u64_s64, u64_small by (unfold is_u64; lia).
Qed.

Lemma simple_not_float v : 0 <= v < 24 → is_float_type (7 * 32 + v) = false.
Proof.
  intros. unfold is_float_type, cbor_magic_float16, cbor_magic_float32, cbor_magic_float64.
  change (7 * 32) with 224. ztests; try lia; done.
Qed.

Lemma match_float_item i rest :
  item_ok i → bytes_ok rest → implements (match_float (wire i ++ rest)) (Ok (item_float i)) rest.
Proof.
  intros Hi Hr. unfold match_float. destruct i as [w v|w v| | | | |w v]; open_item Hi;
    try (cbn; by eauto).
  - cbn [Z.eqb app]. by rewrite decode_pint_head.
  - cbn [Z.eqb app]. by rewrite decode_nint_head.
  - cbn [Z.eqb app]. destruct w.
    + rewrite simple_not_float by done. cbn. by eauto.
    + cbn. by eauto.
    + destruct (decode_float_head W2 v _ rest Hv Hr ltac:(cbn; lia) eq_refl) as [-> ->]. done.
    + destruct (decode_float_head W4 v _ rest Hv Hr ltac:(cbn; lia) eq_refl) as [-> ->]. done.
    + destruct (decode_float_head W8 v _ rest Hv Hr ltac:(cbn; lia) eq_refl) as [-> ->]. done.
Qed.

Lemma extract_range_item i rest :
  item_ok i → bytes_ok rest →
  extract_range (wire i ++ rest) = Ok (item_range i, rest).
Proof.
  intros Hi Hr. unfold extract_range. rewrite match_type_item by done. cbn [mbind res_bind].
  rewrite length_app, Nat.add_sub, take_app_length. unfold item_range. by destruct (item_type i).
Qed.

Lemma implements_Ok {A} (m : res (option A * bytes)) s rest :
  m = Ok (s, rest) → implements m (Ok s) rest.
Proof. intros ->. destruct s; cbn; eauto. Qed.

Lemma fmap_bind_Some {A B} (o : option A) (f : A → B) : (o ≫= λ a, Some (f a)) = f <$> o.
Proof. by destruct o. Qed.

Lemma extract_item x i rest :
  item_ok i → bytes_ok rest → implements (extract x (wire i ++ rest)) (Ok (item_capture x i)) rest.
Proof.
  intros Hi Hr. destruct x; cbn [extract item_capture]; rewrite <- ?fmap_bind_Some.
  - change (Some (CType (item_type i))) with (Some (item_type i) ≫= λ t, Some (CType t)).
    by apply implements_keep, implements_Ok, match_type_item.
  - unfold extract_int.
    replace (item_int i ≫= _) with ((item_int i ≫= λ v, if (v <? lo) || (hi <? v) then None else Some v)
      ≫= λ v, Some (CInt v)) by (destruct (item_int i); cbn; [by case_match|done]).
    by apply implements_keep, implements_keep, match_int_item.
  - by apply implements_keep, match_uint_item.
  - unfold extract_uint.
    replace (item_uint i ≫= _) with ((item_uint i ≫= λ v, if max <? v then None else Some v)
      ≫= λ v, Some (CUInt v)) by (destruct (item_uint i); cbn; [by case_match|done]).
    by apply implements_keep, implements_keep, match_uint_item.
  - by apply implements_keep, match_bool_item.
  - by apply implements_keep, match_float_item.
  - by apply (implements_keep match_float (λ v, Some (CFloat (double_to_float v)))), match_float_item.
  - by apply implements_keep, match_string_item.
  - by apply implements_keep, implements_Ok, extract_range_item.
Qed.

Lemma match_value_type_item t i rest :
  item_ok i → bytes_ok rest →
  match_value_type t (wire i ++ rest)
  = Ok (if decide (t = t_any) then Some [] else if decide (t = item_type i) then Some [] else None, rest).
Proof. intros Hi Hr. unfold match_value_type, keep. by rewrite match_type_item. Qed.

(** ** Headers and counted sequences *)

Lemma type_not_null w major v :
  0 <= v < width_bound w → 0 <= major < 7 → (major * 32 + width_minor w v =? 0xf6) = false.
Proof. intros. apply Z.eqb_neq. destruct w; cbn in *; lia. Qed.

Lemma decode_array_header_item i rest :
  item_ok i → bytes_ok rest →
  decode_array_header (wire i ++ rest)
  = (l ← array_items i; Ok (len_of l, wires l ++ rest)).
Proof.
  intros Hi Hr. unfold decode_array_header. destruct i as [| | | |w l| |w v]; open_item Hi;
    try (rewrite type_not_null by (done || lia); cbn [Z.eqb negb]); try done.
  - by rewrite decode_pint_head by (done || by apply Forall_app).
  - destruct w; cbn [width_minor width_bound] in *; try done.
    change (7 * 32) with 224. destruct (Z.eqb_spec (224 + v) 0xf6).
    + by assert (v = 22) as -> by lia.
    + cbn [array_items]. repeat case_match; try done; lia.
Qed.

Lemma decode_map_header_item i rest :
  item_ok i → bytes_ok rest →
  ('(n, b) ← decode_map_header (wire i ++ rest); Ok (u64 (n * 2), b))
  = (l ← map_items i; Ok (len_of l, wires l ++ rest)).
Proof.
  intros Hi Hr. unfold decode_map_header. destruct i as [| | | | |w n l|w v]; open_item Hi;
    try (rewrite type_not_null by (done || lia); cbn [Z.eqb negb]); try done.
  - rewrite decode_pint_head by (done || by apply Forall_app).
    apply item_ok_map in Hi as (_ & Hl & _). cbn. by rewrite Hl.
  - destruct w; cbn [width_minor width_bound] in *; try done.
    change (7 * 32) with 224. destruct (Z.eqb_spec (224 + v) 0xf6).
    + by assert (v = 22) as -> by lia.
    + cbn [map_items]. repeat case_match; try done; lia.
Qed.

Lemma wires_items_ok l : Forall item_ok l → bytes_ok (wires l).
Proof. intros Hl. apply wires_ok. eapply Forall_impl; [exact Hl|exact wire_ok]. Qed.

Lemma match_more_items l rest fuel :
  bytes_ok rest → Forall item_ok l → (length (wires l ++ rest) < fuel)%nat →
  match_more fuel (len_of l) (wires l ++ rest) = Ok (Some [], rest).
Proof.
  intros Hr Hl. revert fuel. induction Hl as [|x l Hx Hl IH]; intros fuel Hf; [by destruct fuel|].
  destruct fuel as [|fuel]; [lia|]. cbn [match_more]. rewrite len_of_cons.
  pose proof (len_of_nonneg l). rewrite (proj2 (Z.eqb_neq (1 + len_of l) 0)) by lia.
  rewrite wires_cons, <- (assoc_L app) in Hf |- *.
  rewrite match_value_type_item; [|done|by apply Forall_app; split; [apply wires_items_ok|]].
  cbn [mbind res_bind]. rewrite decide_True by done.
  replace (1 + len_of l - 1) with (len_of l) by lia. apply IH.
  rewrite length_app in Hf. pose proof (wire_nonempty x). lia.
Qed.

(** The induction hypothesis of a pattern list. *)
Definition pat_implemented (p : pat) : Prop :=
  ∀ i rest, item_ok i → bytes_ok rest →
    implements (match_value p (wire i ++ rest)) (pat_item p i) rest.

Lemma match_next_cons mv n p p' ps b :
  match_next mv n (p :: p' :: ps) b
  = if n =? 0 then Ok (None, b)
    else
      '(v, b) ← mv p b;
      match v with
      | None => Ok (None, b)
      | Some c =>
          '(w, b) ← match_next mv (n - 1) (p' :: ps) b;
          Ok (match w with Some d => Some (c ++ d) | None => None end, b)
      end.
Proof. reflexivity. Qed.

Lemma pats_items_cons mi p p' ps x l :
  pats_items mi (p :: p' :: ps) (x :: l)
  = (r ← mi p x;
     match r with
     | None => Ok None
     | Some c =>
         r ← pats_items mi (p' :: ps) l;
         Ok (match r with Some d => Some (c ++ d) | None => None end)
     end).
Proof. reflexivity. Qed.

Lemma match_next_items ps l rest :
  bytes_ok rest → Forall item_ok l → Forall pat_implemented ps →
  implements (match_next match_value (len_of l) ps (wires l ++ rest)) (pats_items pat_item ps l) rest.
Proof.
  intros Hr Hl Hps. revert l Hl. induction Hps as [|p ps Hp Hps IH]; intros l Hl; [cbn; eauto|].
  destruct Hl as [|x l Hx Hl].
  { destruct ps; cbn [match_next pats_items len_of length]; [|cbn; by eauto].
    destruct (is_more p); cbn; by eauto. }
  pose proof (len_of_nonneg l). pose proof (wires_items_ok _ Hl) as Hwl.
  assert (bytes_ok (wires l ++ rest)) as Hwr by by apply Forall_app.
  specialize (Hp x (wires l ++ rest) Hx Hwr).
  destruct ps as [|p' ps].
  - cbn [match_next pats_items]. destruct (is_more p).
    { cbn [implements]. apply match_more_items; [done|by constructor|lia]. }
    rewrite len_of_cons, (proj2 (Z.eqb_neq (1 + len_of l) 0)) by lia.
    rewrite wires_cons, <- (assoc_L app).
    destruct (pat_item p x) as [[c|]|e]; cbn [implements] in Hp;
      [rewrite Hp|destruct Hp as [b ->]|by rewrite Hp]; cbn [mbind res_bind]; [|cbn; by eauto].
    destruct l as [|y l]; [done|]. rewrite len_of_cons.
    pose proof (len_of_nonneg l). rewrite (proj2 (Z.eqb_neq _ 1)) by lia. cbn. by eauto.
  - rewrite match_next_cons, pats_items_cons.
    rewrite len_of_cons, (proj2 (Z.eqb_neq (1 + len_of l) 0)) by lia.
    rewrite wires_cons, <- (assoc_L app).
    destruct (pat_item p x) as [[c|]|e]; cbn [implements] in Hp;
      [rewrite Hp|destruct Hp as [b ->]|by rewrite Hp]; cbn [mbind res_bind]; [|cbn; by eauto].
    replace (1 + len_of l - 1) with (len_of l) by lia. specialize (IH l Hl).
    destruct (pats_items pat_item (p' :: ps) l) as [[d|]|e] eqn:E; cbn [implements] in IH;
      [rewrite IH|destruct IH as [b ->]|rewrite IH]; cbn; by eauto.
Qed.

Lemma match_array_with_items ps i rest :
  item_ok i → bytes_ok rest → Forall pat_implemented ps →
  implements (match_array_with match_value ps (wire i ++ rest))
    (l ← array_items i; pats_items pat_item ps l) rest.
Proof.
  intros Hi Hr Hps. unfold match_array_with. rewrite decode_array_header_item by done.
  destruct (array_items i) as [l|e] eqn:E; [|done]. cbn [mbind res_bind].
  apply match_next_items; [done| |done].
  destruct i as [| | | |w l'| |w v]; try done.
  - injection E as ->. by apply item_ok_array in Hi as [_ Hi].
  - cbn in E. repeat case_match; try done. by injection E as <-.
Qed.

Lemma match_map_with_items ps i rest :
  item_ok i → bytes_ok rest → Forall pat_implemented ps →
  implements (match_map_with match_value ps (wire i ++ rest))
    (l ← map_items i; pats_items pat_item ps l) rest.
Proof.
  intros Hi Hr Hps. unfold match_map_with.
  pose proof (decode_map_header_item i rest Hi Hr) as Hh.
  destruct (decode_map_header (wire i ++ rest)) as [[n b]|e], (map_items i) as [l|e'] eqn:E;
    cbn [mbind res_bind] in *; try discriminate Hh; [|by injection Hh as ->].
  injection Hh as -> ->. apply match_next_items; [done| |done].
  destruct i as [| | | | |w n' l'|w v]; try done.
  - injection E as ->. by apply item_ok_map in Hi as (_ & _ & Hi).
  - cbn in E. repeat case_match; try done. by injection E as <-.
Qed.

(** Matching the octets of an item is matching the item. *)
Lemma match_value_item p : pat_implemented p.
Proof.
  induction p using pat_ind; intros i rest Hi Hr; cbn [match_value pat_item].
  - by apply implements_Ok, match_value_type_item.
  - by apply implements_keep, match_int_item.
  - by apply implements_keep, match_uint_item.
  - by apply implements_keep, match_bool_item.
  - by apply implements_keep, match_string_item.
  - rewrite <- fmap_bind_Some. by apply implements_keep, extract_item.
  - by apply match_array_with_items.
  - by apply match_map_with_items.
Qed.

Lemma all_pats_implemented ps : Forall pat_implemented ps.
Proof. apply Forall_true. intros. apply match_value_item. Qed.

Lemma matches_item ps i rest :
  item_ok i → bytes_ok rest →
  matches (wire i ++ rest) ps = (l ← array_items i; pats_items pat_item ps l).
Proof.
  intros Hi Hr. eapply implements_fst, match_array_with_items; [done..|].
  apply all_pats_implemented.
Qed.
