(* ===== verification/CborIn.v ===== *)
(** * Addresses in messages ([src/include/cbor/cbor_in.hpp])

    An [in6_addr] is sixteen octets, written as a string of that length. *)
From S2P Require Import Prelude CborEncode Ieee CborDecode CborGrammar CborMatch CborMatchSpec.

(** [buffer::push<in6_addr>] *)
Definition push_in6_addr (b : bytes) (a : bytes) : bytes := push_string b a.

(** [extract(in6_addr &)]: a string of another length does not match; the iterator is
    behind it all the same. *)
Definition extract_in6_addr : matcher bytes :=
  keep match_string (λ s, if Nat.eqb (length s) 16 then Some s else None).

(** What the extractor makes of an item. *)
Definition item_in6_addr (i : item) : option bytes :=
  item_string i ≫= λ s, if Nat.eqb (length s) 16 then Some s else None.

(** The extractor gets the octets of an item that is a string of sixteen octets, text
    or not, and refuses every other item. *)
Theorem extract_in6_item i rest :
  item_ok i → bytes_ok rest → implements (extract_in6_addr (wire i ++ rest)) (Ok (item_in6_addr i)) rest.
Proof. intros Hi Hr. by apply implements_keep, match_string_item. Qed.

(** An address survives being pushed and extracted, wherever it is in a message. *)
Theorem in6_addr_roundtrip b a rest :
  length a = 16%nat → bytes_ok a → bytes_ok rest →
  ∃ m, push_in6_addr b a = b ++ m ∧ extract_in6_addr (m ++ rest) = Ok (Some a, rest).
Proof.
  intros Hl Ha Hr. assert (arg_ok (AString a)) as Hok by (split; [done|lia]).
  set (i := IText (min_width (len_of a)) a). assert (arg_item (AString a) i) as Hi by done.
  exists (wire i). split; [exact (push_wire b (AString a) i Hok Hi)|].
  pose proof (extract_in6_item i rest (arg_item_ok _ _ Hok Hi) Hr) as H.
  unfold item_in6_addr, i in H. cbn in H. rewrite Hl in H. exact H.
Qed.

Lemma in6_addr_roundtrip_witness :
  let a := replicate 15 0 ++ [1] in
  ∃ m, push_in6_addr [0x81] a = [0x81] ++ m ∧ extract_in6_addr (m ++ [0xf6]) = Ok (Some a, [0xf6]).
Proof. intros a. apply (in6_addr_roundtrip [0x81] a [0xf6]); [reflexivity|by_decision..]. Defined.
