(* ===== verification/CborTheorems.v ===== *)
(** * What the CBOR layer guarantees

    The theorems about [CborEncode], [CborDecode] and [CborMatch] together:
    the accepted language, termination, truncation, matching as a function of
    the syntax tree, round trips, and iteration over ranges. *)
From S2P Require Import Prelude CborEncode Ieee CborDecode CborGrammar CborMatch CborMatchSpec.

(** ** The accepted language *)

(** C1: [skip_value] returns on a buffer exactly when it starts with the octets
    of a CBOR item (heads of any width, nested arrays and maps, no tags), and
    then leaves the iterator right behind the item. *)
Theorem skip_value_language b rest :
  bytes_ok b →
  skip_value b = Ok rest ↔ ∃ i, item_ok i ∧ b = wire i ++ rest.
Proof.
  intros Hb. split; [by apply skip_value_sound|]. intros (i & Hi & ->).
  apply skip_value_complete; [done|]. by apply Forall_app in Hb as [_ Hb].
Qed.

Lemma skip_value_language_witness :
  skip_value [0x82; 0x61; 0x78; 0x05; 0xff] = Ok [0xff] ∧
  ∃ i, item_ok i ∧ [0x82; 0x61; 0x78; 0x05; 0xff] = wire i ++ [0xff].
Proof.
  assert (bytes_ok [0x82; 0x61; 0x78; 0x05; 0xff]) as Hb by by_decision.
  split; [vm_compute; reflexivity|].
  apply (proj1 (skip_value_language _ [0xff] Hb)). vm_compute. reflexivity.
Defined.

(** ** Termination *)

(** The recursion over nested values terminates on every input: within the
    fuel of one unit per octet and one more, [skip_value] returns or throws an
    exception of the code. *)
Theorem skip_value_terminates b : skip_value b ≠ Throw out_of_fuel.
Proof. apply domain_no_fuel, skip_value_domain. Qed.

(** A proper prefix of an item, of any length, is reported with the
    exception "cbor message too short"; this is what a reader of a stream
    relies on to wait for more octets. *)
Theorem skip_value_reports_truncation i p :
  item_ok i → p `prefix_of` wire i → p ≠ wire i →
  skip_value p = Throw (domain_error (str "cbor message too short")).
Proof.
  intros Hi Hp Hne. apply (skip_value_truncated i); [done..|].
  destruct (decide (length p = length (wire i))) as [E|E].
  - exfalso. apply Hne. destruct Hp as [k Hk]. rewrite Hk, length_app in E.
    destruct k; [by rewrite Hk, app_nil_r|cbn in E; lia].
  - apply prefix_length in Hp. lia.
Qed.

Lemma skip_value_reports_truncation_witness :
  skip_value [0x82; 0x01] = Throw (domain_error (str "cbor message too short")).
Proof.
  apply (skip_value_reports_truncation (IArray W0 [IUInt W0 1; IUInt W0 2])).
  - by_decision.
  - by exists [0x02].
  - done.
Defined.

(** ** Matching *)

(** C2: matching a message against a pattern is the function [pats_items] of
    the list of its elements: literals, types, extractors, nested [A] and [M]
    patterns, [any] and [more], the number of elements, and the exceptions of
    a nested pattern on a value of another kind.  Octets behind the message
    are ignored. *)
Theorem matches_refines_items ps w l rest :
  item_ok (IArray w l) → bytes_ok rest →
  matches (wire (IArray w l) ++ rest) ps = pats_items pat_item ps l.
Proof. intros Hi Hr. by rewrite matches_item. Qed.

Lemma matches_refines_items_witness :
  matches (wire (IArray W0 [IText W0 (str "exit"); IText W0 (str "normal"); IUInt W0 7]) ++ [])
    [PStr (str "exit"); PExtract XString; PMore]
  = Ok (Some [CString (str "normal")]).
Proof.
  rewrite (matches_refines_items _ W0 [IText W0 (str "exit"); IText W0 (str "normal"); IUInt W0 7]).
  - vm_compute. reflexivity.
  - by_decision.
  - constructor.
Defined.

(** The variable a parameter is extracted into, and what it holds then. *)
Definition arg_target (a : arg) : target :=
  match a with
  | AUInt _ => XULL
  | AInt _ => int64_target
  | ABool _ => XBool
  | AFloat _ => XFloat
  | ADouble _ => XDouble
  | AString _ => XString
  | ACbor _ => XRange
  end.

Definition arg_capture (a : arg) : capture :=
  match a with
  | AUInt v => CUInt v
  | AInt v => CInt v
  | ABool v => CBool v
  | AFloat v => CFloat v
  | ADouble v => CDouble v
  | AString s => CString s
  | ACbor b => CRange b
  end.

(** A [float] NaN may change its payload; a [buffer] is extracted as a range
    when it holds an array, a map or null. *)
Definition arg_extractable (a : arg) : Prop :=
  arg_ok a ∧
  match a with
  | AFloat bits => is_nan binary32 bits = false
  | ACbor b => ∃ i, b = wire i ∧ item_ok i ∧
                    (item_type i = t_array ∨ item_type i = t_map ∨ item_type i = t_null)
  | _ => True
  end.

Lemma arg_extractable_item a :
  arg_extractable a →
  ∃ i, arg_item a i ∧ item_capture (arg_target a) i = Some (arg_capture a).
Proof.
  intros [Hok Hx]. destruct a as [v|v|v|v|v|s|b]; cbn [arg_item arg_target arg_capture arg_ok] in *.
  - by eexists.
  - eexists. split; [reflexivity|]. unfold is_s64 in Hok. unfold int64_target, item_capture.
    destruct (Z.ltb_spec v 0); cbn [item_int].
    + unfold nint_value. rewrite (proj2 (Z.ltb_lt _ _)) by lia. cbn [mbind option_bind].
      replace (-1 - (- v - 1)) with v by lia. ztests; try lia. done.
    + rewrite (proj2 (Z.ltb_lt _ _)) by lia. cbn [mbind option_bind]. ztests; try lia. done.
  - eexists. split; [reflexivity|]. by destruct v.
  - eexists. split; [reflexivity|]. cbn. by rewrite double_to_float_to_double.
  - by eexists.
  - by eexists.
  - destruct Hx as (i & -> & Hi & Ht). exists i. split; [done|]. cbn.
    unfold item_range. destruct Ht as [->|[->| ->]]; done.
Qed.

Lemma pats_items_extract ps l :
  Forall2 (λ a i, item_capture (arg_target a) i = Some (arg_capture a)) ps l → ps ≠ [] →
  pats_items pat_item ((λ a, PExtract (arg_target a)) <$> ps) l = Ok (Some (arg_capture <$> ps)).
Proof.
  induction 1 as [|a i ps l Ha H IH]; [done|]. intros _. cbn [fmap list_fmap].
  destruct ps as [|a' ps].
  - apply Forall2_nil_inv_l in H as ->. cbn [pats_items is_more pat_item fmap list_fmap].
    by rewrite Ha.
  - cbn [fmap list_fmap] in *. rewrite pats_items_cons. cbn [pat_item]. rewrite Ha.
    cbn [fmap option_fmap option_map mbind res_bind]. by rewrite IH.
Qed.

(** C3: what [cbor::array] packs, the extractors of the same types get back:
    integers of either signedness over their whole 64-bit range, booleans,
    floats and doubles bit for bit, strings, and nested messages. *)
Theorem array_extract_roundtrip ps rest :
  Forall arg_extractable ps → ps ≠ [] → len_of ps < 2 ^ 64 → bytes_ok rest →
  matches (cbor_array ps ++ rest) ((λ a, PExtract (arg_target a)) <$> ps)
  = Ok (Some (arg_capture <$> ps)).
Proof.
  intros Hx Hne Hlen Hr.
  assert (∃ l, Forall2 arg_item ps l ∧
    Forall2 (λ a i, item_capture (arg_target a) i = Some (arg_capture a)) ps l) as (l & Hl & Hc).
  { clear -Hx. induction Hx as [|a ps Ha _ (l & H1 & H2)]; [by exists []|].
    destruct (arg_extractable_item a Ha) as (i & ? & ?). exists (i :: l). by split; constructor. }
  assert (Forall arg_ok ps) as Hok by (eapply Forall_impl; [exact Hx|by intros ? []]).
  unfold cbor_array. rewrite (array_wire [] ps l) by done. cbn [app].
  pose proof (array_items_ok ps l Hok Hlen Hl) as Hi.
  rewrite matches_item by done. destruct l as [|i l].
  { apply Forall2_nil_inv_r in Hl. done. }
  cbn [array_items mbind res_bind]. by apply pats_items_extract.
Qed.

Lemma array_extract_roundtrip_witness :
  matches (cbor_array [AString (str "tick"); AInt (-300); ADouble 0x7ff8000000000001] ++ [])
    [PExtract XString; PExtract int64_target; PExtract XDouble]
  = Ok (Some [CString (str "tick"); CInt (-300); CDouble 0x7ff8000000000001]).
Proof.
  apply (array_extract_roundtrip [AString (str "tick"); AInt (-300); ADouble 0x7ff8000000000001]).
  - repeat (apply Forall_cons_2; [split; [by_decision|exact I]|]). constructor.
  - done.
  - done.
  - constructor.
Defined.

(** [push_typed_val] appends one head and chooses the shortest width that
    can hold the value, so equal values have equal encodings. *)
Theorem push_typed_val_shortest b t v :
  0 <= t < 8 → is_u64 v →
  push_typed_val b t v = b ++ head (min_width v) t v ∧
  ∀ w, v < width_bound w → (width_octets (min_width v) <= width_octets w)%nat.
Proof.
  intros Ht Hv. split; [by apply push_typed_val_head|].
  unfold is_u64 in Hv. intros w Hw. unfold min_width. ztests; destruct w; cbn in *; lia.
Qed.

Lemma push_typed_val_shortest_witness : push_typed_val [] 3 300 = [] ++ head W2 3 300.
Proof. apply (push_typed_val_shortest [] 3 300); [lia|by_decision]. Defined.

(** C37: a negative integer [-1 - v] is extracted exactly while it is in the
    [int64_t] range; below that the extraction still succeeds, with the
    non-negative number [2^64 - 1 - v]. *)
Theorem match_int_negative w v rest :
  0 <= v < width_bound w → bytes_ok rest →
  ∃ r, match_int (wire (INInt w v) ++ rest) = Ok (Some r, rest) ∧
       (v < 2 ^ 63 → r = - 1 - v) ∧ (2 ^ 63 <= v → r = 2 ^ 64 - 1 - v ∧ 0 <= r).
Proof.
  intros Hv Hr. exists (nint_value v).
  assert (item_ok (INInt w v)) as Hi by done.
  pose proof (match_int_item (INInt w v) rest Hi Hr) as H. cbn [item_int implements] in H.
  pose proof (width_bound_le w). unfold nint_value in *.
  split; [done|]. ztests; lia.
Qed.

Lemma match_int_negative_witness :
  ∃ r, match_int (wire (INInt W8 (2 ^ 64 - 1)) ++ []) = Ok (Some r, []) ∧
       (2 ^ 64 - 1 < 2 ^ 63 → r = - 1 - (2 ^ 64 - 1)) ∧
       (2 ^ 63 <= 2 ^ 64 - 1 → r = 2 ^ 64 - 1 - (2 ^ 64 - 1) ∧ 0 <= r).
Proof. apply (match_int_negative W8); [by_decision|constructor]. Defined.

(** The number of values a map head announces is doubled on [uint64_t]: a
    head of [2^63] pairs or more is skipped as one of that many fewer, so nine
    octets that announce [2^63] pairs and hold none are accepted as a whole
    value. *)
Theorem map_head_wraps n rest :
  2 ^ 63 <= n < 2 ^ 64 → bytes_ok rest →
  skip_value (head W8 5 n ++ rest) = skip_n (2 * n - 2 ^ 64) rest ∧
  skip_value (head W8 5 (2 ^ 63) ++ rest) = Ok rest.
Proof.
  intros Hn Hr.
  assert (∀ m, 2 ^ 63 <= m < 2 ^ 64 →
    skip_value (head W8 5 m ++ rest) = skip_n (2 * m - 2 ^ 64) rest) as H.
  { intros m Hm. rewrite skip_value_head by (done || cbn; lia).
    rewrite skip_value_body_head by (done || cbn; lia). f_equal. unfold u64.
    replace (m * 2) with (2 * m - 2 ^ 64 + 1 * 2 ^ 64) by lia.
    rewrite Z.mod_add, Z.mod_small by lia. done. }
  split; [by apply H|]. rewrite H by lia. by rewrite skip_n_unfold.
Qed.

Lemma map_head_wraps_witness :
  skip_value (head W8 5 (2 ^ 63) ++ []) = skip_n (2 * 2 ^ 63 - 2 ^ 64) [] ∧
  skip_value (head W8 5 (2 ^ 63) ++ []) = Ok [].
Proof. apply (map_head_wraps (2 ^ 63)); [lia|constructor]. Defined.

(** ** Half-precision floats *)

Lemma half_fields h :
  0 <= h < 2 ^ 16 →
  Z.land (Z.shiftr h 10) 0x1f = (h / 2 ^ 10) mod 2 ^ 5 ∧ Z.land h 0x3ff = h mod 2 ^ 10 ∧
  negb (Z.land h 0x8000 =? 0) = Z.testbit h 15.
Proof.
  intros Hh. split_and!.
  - change 0x1f with (Z.ones 5). by rewrite Z.land_ones, Z.shiftr_div_pow2 by lia.
  - change 0x3ff with (Z.ones 10). by rewrite Z.land_ones by lia.
  - assert (Z.land h 0x8000 = Z.b2z (Z.testbit h 15) * 2 ^ 15) as ->.
    { apply Z.bits_inj'. intros i Hi. rewrite Z.land_spec.
      change 0x8000 with (2 ^ 15). rewrite Z.pow2_bits_eqb by lia.
      destruct (Z.eqb_spec 15 i) as [<-|Hne].
      - rewrite Z.mul_pow2_bits by lia. rewrite Z.sub_diag, andb_true_r. by destruct (Z.testbit h 15).
      - rewrite andb_false_r. destruct (Z.lt_ge_cases i 15).
        + by rewrite Z.mul_pow2_bits_low by lia.
        + rewrite Z.mul_pow2_bits by lia. destruct (Z.testbit h 15); [|by rewrite Z.bits_0].
          cbn [Z.b2z]. change 1 with (2 ^ 0). by rewrite Z.pow2_bits_false by lia. }
    by destruct (Z.testbit h 15).
Qed.

Lemma round_shift_nonneg m k : 0 <= m → 0 <= round_shift m k.
Proof.
  intros Hm. unfold round_shift.
  assert (0 <= m / 2 ^ k) by (apply Z_div_nonneg_nonneg; [done|by apply Z.pow_nonneg]).
  repeat case_match; lia.
Qed.

Lemma pack_nonneg m e : 0 <= m → 0 <= pack binary64 false m e.
Proof.
  intros Hm. unfold pack, with_sign. destruct (m =? 0); [done|]. apply Z.min_glb; [|done].
  apply Z.add_nonneg_nonneg.
  - apply Z.mul_nonneg_nonneg; [lia|done].
  - case_match; [|by apply round_shift_nonneg].
    apply Z.mul_nonneg_nonneg; [done|by apply Z.pow_nonneg].
Qed.

Lemma double_neg_pack m e :
  0 <= m → double_neg (pack binary64 false m e) = pack binary64 true m e.
Proof.
  intros Hm. pose proof (pack_nonneg m e Hm) as Hx.
  unfold double_neg, pack, with_sign in *. set (x := if m =? 0 then 0 else _) in *.
  assert (x < sign_bit binary64) as Hlt.
  { unfold x. destruct (m =? 0); [done|]. eapply Z.le_lt_trans; [apply Z.le_min_r|]. done. }
  rewrite Z.add_comm. symmetry. apply Z.add_nocarry_lxor. apply Z.bits_inj'. intros i Hi.
  rewrite Z.land_spec, Z.bits_0. change (sign_bit binary64) with (2 ^ 63) in *.
  rewrite Z.pow2_bits_eqb by lia. destruct (Z.eqb_spec 63 i) as [<-|]; [|apply andb_false_r].
  rewrite <- (Z.mod_small x (2 ^ 63)) by lia. by rewrite Z.mod_pow2_bits_high by lia.
Qed.

(** Small dyadic numbers are exact in [double]. *)
Lemma small_double_exact s m e :
  0 <= m < 2048 → -24 <= e <= 5 →
  ∃ k, 0 <= k ∧ unpack binary64 (pack binary64 s m e) = FFin s (m * 2 ^ k) (e - k).
Proof.
  intros Hm He. destruct (decide (m = 0)) as [->|].
  - exists (e + 1074). split; [lia|]. unfold pack. cbn [Z.eqb].
    change (with_sign binary64 s 0) with (with_sign binary64 s (0 * 2 ^ mbits binary64 + 0)).
    rewrite unpack_fields by (done || by unfold format_ok). cbn [Z.eqb].
    change (emin binary64) with (-1022). change (mbits binary64) with 52. f_equal. lia.
  - assert (0 <= Z.log2 m < 11) by (split; [apply Z.log2_nonneg|apply Z.log2_lt_pow2; lia]).
    assert (Z.max (Z.log2 m + e) (emin binary64) = Z.log2 m + e) as Hmax
      by (change (emin binary64) with (-1022); lia).
    exists (52 - Z.log2 m). split; [lia|].
    rewrite (unpack_pack binary64 s m e); rewrite ?Hmax; change (mbits binary64) with 52;
      change (emin binary64) with (-1022); [|by unfold format_ok|lia..].
    replace (e - (Z.log2 m + e - 52)) with (52 - Z.log2 m) by lia. f_equal. lia.
Qed.

(** [decode_half] widens every half-precision pattern to the [double] of
    the same value: zeros with their sign, subnormal and normal numbers
    exactly, infinities and NaNs. *)
Theorem decode_half_exact h :
  0 <= h < 2 ^ 16 →
  match unpack binary16 h with
  | FFin s m e => ∃ k, 0 <= k ∧ unpack binary64 (decode_half h) = FFin s (m * 2 ^ k) (e - k)
  | FInf s => unpack binary64 (decode_half h) = FInf s
  | FNan s _ => is_nan binary64 (decode_half h) = true
  end.
Proof.
  intros Hh. destruct (half_fields h Hh) as (He & Hm & Hs). unfold decode_half.
  rewrite He, Hm, Hs. unfold unpack at 1. cbn [mbits ebits binary16].
  change (10 + 5) with 15. change (2 ^ 5 - 1) with 31. change (emin binary16) with (-14).
  set (s := Z.testbit h 15). set (d := (h / 2 ^ 10) mod 2 ^ 5). set (r := h mod 2 ^ 10).
  assert (0 <= d < 32) by (apply Z.mod_pos_bound; lia).
  assert (0 <= r < 1024) by (apply Z.mod_pos_bound; lia).
  assert (∀ m e, 0 <= m → (if s then double_neg (ldexp m e) else ldexp m e) = pack binary64 s m e) as Hp.
  { intros m e Hm0. unfold ldexp. destruct s; [by apply double_neg_pack|done]. }
  destruct (Z.eqb_spec d 31) as [->|Hd].
  - cbn [Z.eqb negb]. destruct (r =? 0); destruct s; reflexivity.
  - cbn [negb]. destruct (Z.eqb_spec d 0); rewrite Hp by lia.
    + apply small_double_exact; lia.
    + change (r + 2 ^ 10) with (r + 1024).
      replace (d - 1 + -14 - 10) with (d - 25) by lia. apply small_double_exact; lia.
Qed.

Lemma decode_half_exact_witness :
  ∃ k, 0 <= k ∧ unpack binary64 (decode_half 0xc500) = FFin true (1280 * 2 ^ k) (-8 - k).
Proof. apply (decode_half_exact 0xc500). lia. Defined.

(** ** Iteration *)

(** The values of an array or map in order (keys and values alternate). *)
Definition item_children (i : item) : option (list item) :=
  match i with
  | IArray _ l | IMap _ _ l => Some l
  | ISpecial W0 22 => Some []
  | _ => None
  end.

Lemma item_children_special w v l :
  item_children (ISpecial w v) = Some l → w = W0 ∧ v = 22 ∧ l = [].
Proof.
  cbn. destruct w; try done. intros H. destruct (decide (v = 22)) as [->|Hne]; [by injection H as <-|].
  exfalso. revert H. repeat case_match; done.
Qed.

Lemma decode_range_header_item i l rest :
  item_ok i → bytes_ok rest → item_children i = Some l →
  decode_range_header (wire i ++ rest) = Ok (len_of l, wires l ++ rest) ∧ Forall item_ok l.
Proof.
  intros Hi Hr Hc. unfold decode_range_header.
  destruct i as [| | | |w l'|w n l'|w v]; try discriminate Hc; open_item Hi;
    try (rewrite type_not_null by (done || lia)).
  - injection Hc as ->. apply item_ok_array in Hi as [_ Hi]. split; [|done].
    by rewrite decode_pint_head by (done || by apply Forall_app).
  - injection Hc as ->. apply item_ok_map in Hi as (_ & Hl & Hi). split; [|done].
    rewrite decode_pint_head by (done || by apply Forall_app). cbn. by rewrite Hl.
  - apply item_children_special in Hc as (-> & -> & ->). by split; [|constructor].
Qed.

Section iteration.
Context {A : Type} (f : bytes → res A) (g : item → A).
Hypothesis f_reads : ∀ i rest, item_ok i → bytes_ok rest → f (wire i ++ rest) = Ok (g i).

Lemma vi_collect_items l fuel :
  Forall item_ok l → (length (wires l) < fuel)%nat →
  vi_collect fuel f (ValueIterator (wires l) (len_of l)) = Ok (g <$> l).
Proof.
  intros Hl. revert fuel. induction Hl as [|x l Hx Hl IH]; intros fuel Hf; [by destruct fuel|].
  destruct fuel as [|fuel]; [lia|]. cbn [vi_collect]. pose proof (wire_nonempty x) as Hne.
  rewrite wires_cons in Hf |- *. rewrite length_app in Hf.
  assert (vi_more (ValueIterator (wire x ++ wires l) (len_of (x :: l))) = true) as ->.
  { unfold vi_more. cbn [vi_b]. rewrite bool_decide_false; [done|].
    destruct (wire x); [cbn in Hne; lia|done]. }
  pose proof (len_of_nonneg l). pose proof (wires_items_ok _ Hl).
  unfold vi_deref, vi_next. cbn [vi_n vi_b].
  rewrite len_of_cons, (proj2 (Z.eqb_neq _ 0)) by lia. cbn [mbind res_bind].
  rewrite f_reads by done. cbn [mbind res_bind match_value].
  rewrite match_value_type_item by done. cbn [mbind res_bind].
  replace (1 + len_of l - 1) with (len_of l) by lia. by rewrite IH by lia.
Qed.

Lemma range_values_items i l :
  item_ok i → item_children i = Some l → range_values f (wire i) = Ok (g <$> l).
Proof.
  intros Hi Hc. unfold range_values, vi_begin.
  destruct (decode_range_header_item i l [] Hi (Forall_nil_2 _) Hc) as [Hd Hl].
  rewrite !app_nil_r in Hd. rewrite Hd. cbn [mbind res_bind].
  apply vi_collect_items; [done|].
  assert (length (wires l) <= length (wire i))%nat; [|lia].
  destruct i as [| | | |w l'|w n l'|w v]; try discriminate Hc.
  - injection Hc as ->. rewrite wire_split. cbn [item_head item_body]. rewrite length_app. lia.
  - injection Hc as ->. rewrite wire_split. cbn [item_head item_body]. rewrite length_app. lia.
  - apply item_children_special in Hc as (-> & -> & ->). cbn. lia.
Qed.
End iteration.

(** Iterating over an extracted range visits every value of the array or
    map once, in order, and stops: it neither runs past the end nor throws
    [out_of_range].  Reading each value as a string gives the strings, and an
    empty string for a value of another kind. *)
Theorem range_iteration_strings i l :
  item_ok i → item_children i = Some l →
  extract XRange (wire i) = Ok (Some (CRange (wire i)), []) ∧
  range_values get_string (wire i) = Ok ((λ x, default [] (item_string x)) <$> l).
Proof.
  intros Hi Hc. split.
  - pose proof (extract_item XRange i [] Hi (Forall_nil_2 _)) as H. rewrite app_nil_r in H.
    cbn [item_capture] in H. unfold item_range in H.
    destruct i as [| | | |w l'|w n l'|w v]; try discriminate Hc; try exact H.
    apply item_children_special in Hc as (-> & -> & ->). exact H.
  - apply range_values_items; [|done..]. intros x rest Hx Hr. unfold get_string.
    pose proof (match_string_item x rest Hx Hr) as H. unfold implements in H.
    destruct (item_string x) as [s|]; [|destruct H as [b H]]; by rewrite H.
Qed.

Lemma range_iteration_strings_witness :
  extract XRange (wire (IArray W0 [IText W0 (str "a"); IUInt W0 3; IText W1 (str "bc")]))
  = Ok (Some (CRange (wire (IArray W0 [IText W0 (str "a"); IUInt W0 3; IText W1 (str "bc")]))), []) ∧
  range_values get_string (wire (IArray W0 [IText W0 (str "a"); IUInt W0 3; IText W1 (str "bc")]))
  = Ok [str "a"; []; str "bc"].
Proof.
  apply (range_iteration_strings (IArray W0 [IText W0 (str "a"); IUInt W0 3; IText W1 (str "bc")])
    [IText W0 (str "a"); IUInt W0 3; IText W1 (str "bc")]); [by_decision|reflexivity].
Defined.
