(* ===== verification/CppText.v ===== *)
(** * Numbers as text

    What the sources use of [<charconv>] and of stream insertion: decimal
    integers, [std::from_chars] for [int64_t] and [double], and the shortest
    round-trip form of [std::to_chars] for [double]. *)
From S2P Require Import Prelude Ieee.

(** ** Decimal digits *)

Definition digit_char (d : Z) : Z := 48 + d.
Definition is_digit (c : Z) : bool := (48 <=? c) && (c <=? 57).

Fixpoint digits_f (fuel : nat) (n : Z) (acc : bytes) : bytes :=
  match fuel with
  | O => acc
  | S fuel =>
      let acc := digit_char (n mod 10) :: acc in
      if n <? 10 then acc else digits_f fuel (n / 10) acc
  end.

(** The digits of a natural number; it has at most as many as bits. *)
Definition nat_text (n : Z) : bytes := digits_f (S (Z.to_nat (Z.log2 n))) n [].

(** [ostream << uint64_t], [ostream << int64_t] *)
Definition int_text (v : Z) : bytes :=
  if v <? 0 then 45 :: nat_text (- v) else nat_text v.

Definition digits_value (s : bytes) : Z := foldl (λ a c, a * 10 + (c - 48)) 0 s.

(** [from_chars(first, last, int64_t &)] on a string that is an optional minus
    sign followed by digits: the whole string is consumed, and a value out of
    range is an error. *)
Definition from_chars_int64 (s : bytes) : option Z :=
  let v := match s with
           | c :: ds => if c =? 45 then - digits_value ds else digits_value s
           | [] => 0
           end in
  if bool_decide (is_s64 v) then Some v else None.

(** ** Decimal to double *)

(** [p / q] rounded to the nearest pattern: the quotient is computed with 64
    bits or more and a sticky bit. *)
Definition pack_ratio (f : format) (s : bool) (p q : Z) : Z :=
  let sh := Z.max 0 (Z.log2 q - Z.log2 p + 66) in
  let n := p * 2 ^ sh in
  pack f s (2 * (n / q) + (if n mod q =? 0 then 0 else 1)) (- sh - 1).

(** The [double] nearest to [(-1)^s * m * 10^e]; [None] when a nonzero value
    overflows or underflows to zero ([errc::result_out_of_range]). *)
Definition round_decimal (s : bool) (m e : Z) : option Z :=
  if m =? 0 then Some (with_sign binary64 s 0)
  else if 400 <? e then None
  else if e + Z.log2 m <? -1500 then None
  else
    let bits := if 0 <=? e then pack binary64 s (m * 10 ^ e) 0
                else pack_ratio binary64 s m (10 ^ (- e)) in
    let mag := bits mod sign_bit binary64 in
    if (mag =? 0) || (mag =? inf_bits binary64) then None else Some bits.

(** The longest prefix of digits. *)
Fixpoint span_digits (s : bytes) : bytes * bytes :=
  match s with
  | c :: s' => if is_digit c then let '(d, r) := span_digits s' in (c :: d, r) else ([], s)
  | [] => ([], [])
  end.

(** [from_chars(first, last, double &)] on
    [-?digits(.digits)?(e[+-]?digits)?], all of which it consumes. *)
Definition from_chars_double (s : bytes) : option Z :=
  let '(neg, s) := match s with 45 :: s => (true, s) | _ => (false, s) end in
  let '(int, s) := span_digits s in
  let '(frac, s) := match s with 46 :: s => span_digits s | _ => ([], s) end in
  let ex :=
    match s with
    | 101 :: 45 :: s => - digits_value (span_digits s).1
    | 101 :: 43 :: s => digits_value (span_digits s).1
    | 101 :: s => digits_value (span_digits s).1
    | _ => 0
    end in
  round_decimal neg (digits_value (int ++ frac)) (ex - Z.of_nat (length frac)).

(** ** Double to decimal *)

(** Whether [10^k <= p / q]. *)
Definition pow10_le (k p q : Z) : bool :=
  if 0 <=? k then 10 ^ k * q <=? p else q <=? p * 10 ^ (- k).

(** The largest [k] up to [k0 + fuel] with [10^k <= p / q], from below. *)
Fixpoint dec_exp_f (fuel : nat) (k p q : Z) : Z :=
  match fuel with
  | O => k
  | S fuel => if pow10_le (k + 1) p q then dec_exp_f fuel (k + 1) p q else k
  end.

Definition dec_exp (p q : Z) : Z :=
  let l := Z.log2 p - Z.log2 q in
  dec_exp_f 6 (l * 30103 / 100000 - 3) p q.

(** The shortest digits that read back as [bits]: for a growing number of
    digits, the two neighbours of the value, the nearer one first.  Seventeen
    digits always identify a [double]. *)
Fixpoint shortest_f (fuel : nat) (n : Z) (bits k p q : Z) : bytes * Z :=
  let sc := n - 1 - k in
  let num := if 0 <=? sc then p * 10 ^ sc else p in
  let den := if 0 <=? sc then q else q * 10 ^ (- sc) in
  let c := num / den in
  let r := num mod den in
  let reads c := bool_decide (round_decimal false c (- sc) = Some bits) in
  let near := if 2 * r <=? den then c else c + 1 in
  let far := if 2 * r <=? den then c + 1 else c in
  match fuel with
  | O => (nat_text near, k)
  | S fuel =>
      if reads near then (nat_text near, k)
      else if reads far then (nat_text far, k)
      else shortest_f fuel (n + 1) bits k p q
  end.

Definition exp_text (k : Z) : bytes :=
  [101; if k <? 0 then 45 else 43] ++
  (if Z.abs k <? 10 then [48] else []) ++ nat_text (Z.abs k).

(** Scientific and fixed notation of digits [d] with decimal exponent [k]; a
    whole number is written out exactly. *)
Definition scientific (d : bytes) (k : Z) : bytes :=
  match d with
  | [] => []
  | [c] => c :: exp_text k
  | c :: d => c :: 46 :: d ++ exp_text k
  end.

Definition fixed (d : bytes) (k p q : Z) : bytes :=
  let n := Z.of_nat (length d) in
  if n - 1 <=? k then nat_text (p / q)
  else if 0 <=? k then take (Z.to_nat (k + 1)) d ++ 46 :: drop (Z.to_nat (k + 1)) d
  else [48; 46] ++ replicate (Z.to_nat (- k - 1)) 48 ++ d.

(** [to_chars(first, last, double)] for a finite value: the shorter of the two
    notations, fixed when they tie. *)
Definition to_chars_double (v : Z) : bytes :=
  match unpack binary64 v with
  | FFin s m e =>
      (if s then [45] else []) ++
      (if m =? 0 then [48]
       else
         let p := if 0 <=? e then m * 2 ^ e else m in
         let q := if 0 <=? e then 1 else 2 ^ (- e) in
         let '(d, k) := shortest_f 17 1 (v mod sign_bit binary64) (dec_exp p q) p q in
         let sci := scientific d k in
         let fix_ := fixed d k p q in
         if (length fix_ <=? length sci)%nat then fix_ else sci)
  | _ => []
  end.

(** ** Lemmas *)

Lemma digits_value_app s t :
  digits_value (s ++ t) = digits_value s * 10 ^ Z.of_nat (length t) + digits_value t.
Proof.
  unfold digits_value. rewrite foldl_app. generalize (foldl (λ a c, a * 10 + (c - 48)) 0 s) as x.
  induction t as [|c t IH] using rev_ind; intros x; [cbn; lia|].
  rewrite !foldl_app, IH, length_app. cbn. rewrite Nat2Z.inj_add, Z.pow_add_r by lia. lia.
Qed.

Lemma digits_f_spec fuel n acc :
  0 <= n < 10 ^ Z.of_nat fuel → (0 < fuel)%nat →
  ∃ d, digits_f fuel n acc = d ++ acc ∧ digits_value d = n ∧ d ≠ [] ∧
       Forall (λ c, is_digit c = true) d ∧
       ∀ k : nat, (0 < k)%nat → n < 10 ^ Z.of_nat k → (length d <= k)%nat.
Proof.
  revert n acc. induction fuel as [|fuel IH]; intros n acc Hn Hf; [lia|]. cbn [digits_f].
  pose proof (Z.mod_pos_bound n 10) as Hm. pose proof (Z.div_mod n 10) as Hdm.
  assert (is_digit (digit_char (n mod 10)) = true) as Hd.
  { unfold is_digit, digit_char. apply andb_true_iff. rewrite !Z.leb_le. lia. }
  destruct (Z.ltb_spec n 10) as [Hlt|Hge].
  - exists [digit_char (n mod 10)]. split_and!; try done.
    + unfold digits_value, digit_char. cbn. rewrite Z.mod_small by lia. lia.
    + by constructor.
  - rewrite Nat2Z.inj_succ, Z.pow_succ_r in Hn by lia.
    assert (0 <= n / 10 < 10 ^ Z.of_nat fuel) as Hq
      by (split; [apply Z.div_pos; lia|apply Z.div_lt_upper_bound; lia]).
    assert (0 < fuel)%nat as Hf' by (destruct fuel; [cbn in Hq; lia|lia]).
    destruct (IH (n / 10) (digit_char (n mod 10) :: acc) Hq Hf') as (d & -> & Hv & Hne & Hall & Hlen).
    exists (d ++ [digit_char (n mod 10)]). split_and!.
    + by rewrite <- (assoc_L app).
    + rewrite digits_value_app, Hv. unfold digits_value, digit_char. cbn. lia.
    + by destruct d.
    + apply Forall_app; split; [done|by constructor].
    + intros k Hk Hnk. rewrite length_app. cbn [length].
      destruct k as [|k]; [lia|]. rewrite Nat2Z.inj_succ, Z.pow_succ_r in Hnk by lia.
      destruct k as [|k]; [cbn in Hnk; lia|].
      assert (n / 10 < 10 ^ Z.of_nat (S k)) by (apply Z.div_lt_upper_bound; lia).
      specialize (Hlen (S k)). lia.
Qed.

Lemma nat_text_fuel n : 0 <= n → n < 10 ^ Z.of_nat (S (Z.to_nat (Z.log2 n))).
Proof.
  intros Hn. destruct (decide (n = 0)) as [->|]; [done|].
  pose proof (Z.log2_spec n) as Hl. pose proof (Z.log2_nonneg n).
  rewrite Nat2Z.inj_succ, Z2Nat.id by lia.
  assert (2 ^ Z.succ (Z.log2 n) <= 10 ^ Z.succ (Z.log2 n)) by (apply Z.pow_le_mono_l; lia). lia.
Qed.

(** The digits of a number are digits, denote it, and are no more than
    needed. *)
Lemma nat_text_spec n :
  0 <= n →
  digits_value (nat_text n) = n ∧ nat_text n ≠ [] ∧
  Forall (λ c, is_digit c = true) (nat_text n) ∧
  ∀ k : nat, (0 < k)%nat → n < 10 ^ Z.of_nat k → (length (nat_text n) <= k)%nat.
Proof.
  intros Hn. unfold nat_text.
  destruct (digits_f_spec (S (Z.to_nat (Z.log2 n))) n []) as (d & -> & H);
    [split; [done|by apply nat_text_fuel]|lia|]. rewrite app_nil_r. tauto.
Qed.

(** Scanning digits stops at the first other character. *)
Definition no_digit_first (s : bytes) : Prop :=
  match s with c :: _ => is_digit c = false | [] => True end.

Lemma span_digits_app d s :
  Forall (λ c, is_digit c = true) d → no_digit_first s → span_digits (d ++ s) = (d, s).
Proof.
  intros Hd Hs. induction Hd as [|c d Hc Hd IH]; cbn [app span_digits].
  - destruct s as [|c s]; [done|]. cbn in *. by rewrite Hs.
  - by rewrite Hc, IH.
Qed.
