(* ===== verification/CborJson.v ===== *)
(** * JSON text ([src/src/cbor.cpp])

    The printer ([to_json]) and the parser ([push_json]) of [cbor::buffer].

    The printer writes to a stream and may throw in the middle; the text
    written so far is part of the exception's message, so a printing function
    takes the stream and returns it with the iterator or the exception.

    The parser moves an iterator [b] towards the end of the string and appends
    to a buffer; a function returns its [bool], the iterator and the buffer.
    Recursion and loops are bounded by the characters left; [JsonSound] and
    [JsonTheorems] show that is enough. *)
From S2P Require Import Prelude CborEncode Ieee CborDecode CborGrammar CborMatch CppText.

(** ** Printing *)

Definition hex_digit (d : Z) : Z := if d <? 10 then 48 + d else 87 + d.

(** [os << hex << setfill('0') << setw(2) << v << dec] *)
Definition tohex (os : bytes) (v : Z) : bytes := os ++ [hex_digit (v / 16); hex_digit (v mod 16)].

(** One character of a string; a [char] above 127 is negative or at least 128
    and is written as it is. *)
Definition json_char (c : Z) : bytes :=
  if c =? 8 then str "\b"
  else if c =? 12 then str "\f"
  else if c =? 10 then str "\n"
  else if c =? 13 then str "\r"
  else if c =? 9 then str "\t"
  else if c =? 92 then str "\\"
  else if c =? 34 then [92; 34]
  else if (0 <=? c) && (c <=? 0x1f) then tohex (str "\u00") c else [c].

Definition string_to_json (os : bytes) (s : bytes) : bytes :=
  foldl (λ os c, os ++ json_char c) (os ++ [34]) s ++ [34].

Definition float_to_json (ss : bytes) (v : Z) : bytes :=
  if negb (isfinite v) then ss ++ str "null"
  else
    let text := to_chars_double v in
    let ss := ss ++ text in
    if existsb (λ c, (c =? 46) || (c =? 101)) text then ss else ss ++ str ".0".

Definition printed : Type := bytes * res bytes.

(** Run [m] and, if it returns, the rest with its value. *)
Definition print_with {A} (ss : bytes) (m : res A) (k : A → printed) : printed :=
  match m with Ok a => k a | Throw e => (ss, Throw e) end.

(** Continue with the stream and the iterator. *)
Definition print_then (p : printed) (k : bytes → bytes → printed) : printed :=
  match p with (ss, Ok b) => k ss b | (ss, Throw e) => (ss, Throw e) end.

Section to_json_stream.
Context (to_json_stream : bytes → bytes → printed).

(** [while (i) { to_json_stream(ss, b, e); --i; if (i) ss << ','; }] *)
Fixpoint print_array (fuel : nat) (i : Z) (ss b : bytes) : printed :=
  if i =? 0 then (ss, Ok b)
  else match fuel with
       | O => (ss, Throw out_of_fuel)
       | S fuel =>
           print_then (to_json_stream ss b) (λ ss b,
             let i := i - 1 in
             let ss := if i =? 0 then ss else ss ++ [44] in
             print_array fuel i ss b)
       end.

Fixpoint print_map (fuel : nat) (i : Z) (ss b : bytes) : printed :=
  if i =? 0 then (ss, Ok b)
  else match fuel with
       | O => (ss, Throw out_of_fuel)
       | S fuel =>
           print_then (to_json_stream ss b) (λ ss b,
             let ss := ss ++ [58] in
             print_then (to_json_stream ss b) (λ ss b,
               let i := i - 1 in
               let ss := if i =? 0 then ss else ss ++ [44] in
               print_map fuel i ss b))
       end.
End to_json_stream.

Fixpoint to_json_stream_f (fuel : nat) (ss b : bytes) : printed :=
  match fuel with
  | O => (ss, Throw out_of_fuel)
  | S fuel =>
      print_with ss (decode_type b) (λ '((major, minor, type), b),
      match major with
      | 0 => print_with ss (decode_pint minor b) (λ '(i, b), (ss ++ int_text i, Ok b))
      | 1 => print_with ss (decode_nint minor b) (λ '(i, b), (ss ++ int_text i, Ok b))
      | 2 => print_with ss (decode_bytes minor b) (λ '(v, b), (string_to_json ss v, Ok b))
      | 3 => print_with ss (decode_string minor b) (λ '(v, b), (string_to_json ss v, Ok b))
      | 4 => print_with ss (decode_pint minor b) (λ '(i, b),
               print_then (print_array (to_json_stream_f fuel) fuel i (ss ++ [91]) b)
                 (λ ss b, (ss ++ [93], Ok b)))
      | 5 => print_with ss (decode_pint minor b) (λ '(i, b),
               print_then (print_map (to_json_stream_f fuel) fuel i (ss ++ [123]) b)
                 (λ ss b, (ss ++ [125], Ok b)))
      | 6 => (ss, Throw (domain_error (str "cbor unsupported type tag")))
      | 7 =>
          if type =? 0xf4 then (ss ++ str "false", Ok b)
          else if type =? 0xf5 then (ss ++ str "true", Ok b)
          else if type =? 0xf6 then (ss ++ str "null", Ok b)
          else if is_float_type type then
            print_with ss (decode_float type b) (λ '(v, b), (float_to_json ss v, Ok b))
          else (ss, Throw (domain_error (str "cbor unsupported simple value")))
      | _ => (ss, Throw (domain_error (str "cbor unsupported type unknown")))
      end)
  end.

Definition to_json_stream (ss b : bytes) : printed := to_json_stream_f (S (length b)) ss b.

(** [to_json_]: an exception is rethrown with the text written so far. *)
Definition to_json (b : bytes) : res bytes :=
  match to_json_stream [] b with
  | (ss, Ok _) => Ok ss
  | (ss, Throw (domain_error what)) =>
      Throw (domain_error (str "cbor to json failed: " ++ what ++ 10 :: str "after:" ++ 10 :: ss))
  | (_, Throw e) => Throw e
  end.

(** [buffer::hexdump] *)
Definition hexdump (b : bytes) : bytes :=
  foldl (λ ss c, tohex (ss ++ [32]) c) (int_text (Z.of_nat (length b)) ++ [58]) b.

(** ** Parsing *)

(** The [bool], the iterator and the buffer after a call. *)
Abbreviation parsed := (res (bool * bytes * bytes)).

(** [match_wsp_char] tests one character, [skip_wsp] is
    [while (match_wsp_char(b, e)) ;]. *)
Definition is_wsp (c : Z) : bool := (c =? 32) || (c =? 9) || (c =? 13) || (c =? 10).

Fixpoint skip_wsp (b : bytes) : bytes :=
  match b with
  | c :: b' => if is_wsp c then skip_wsp b' else b
  | [] => b
  end.

Definition match_char (c : Z) (b : bytes) : bool * bytes :=
  match b with
  | x :: b' => if x =? c then (true, b') else (false, b)
  | [] => (false, b)
  end.

(** The iterator moves only when the whole literal matches. *)
Definition match_literal (lit : bytes) (b : bytes) : bool * bytes :=
  (fix go (lit i : bytes) :=
     match lit with
     | [] => (true, i)
     | c :: lit => let '(ok, i) := match_char c i in if ok then go lit i else (false, b)
     end) lit b.

Definition number_str_max : Z := 64.

(** The digits appended to [s]; [false] when there are none. *)
Definition match_digits (b s : bytes) : bool * bytes * bytes :=
  let '(d, b) := span_digits b in
  (negb (bool_decide (d = [])), b, s ++ d).

Definition push_json_number (buf b : bytes) : bool * bytes * bytes :=
  let '(neg, b) := match_char 45 b in
  let s := if neg then [45] else [] in
  let '(ok, b, s) := match_digits b s in
  if negb ok then (false, b, buf) else
  let '(dot, b) := match_char 46 b in
  let '(ok, b, s) := if dot then match_digits b (s ++ [46]) else (true, b, s) in
  if negb ok then (false, b, buf) else
  let '(ex, b) :=
    match b with
    | c :: b' => if (c =? 101) || (c =? 69) then (true, b') else (false, b)
    | [] => (false, b)
    end in
  let '(ok, b, s) :=
    if ex then
      let s := s ++ [101] in
      let '(b, s) :=
        match b with
        | c :: b' => if (c =? 43) || (c =? 45) then (b', s ++ [c]) else (b, s)
        | [] => (b, s)
        end in
      match_digits b s
    else (true, b, s) in
  if negb ok then (false, b, buf) else
  if number_str_max <? Z.of_nat (length s) then (false, b, buf) else
  if dot || ex then
    match from_chars_double s with
    | None => (false, b, buf)
    | Some d => (true, b, push_double buf d)
    end
  else
    match from_chars_int64 s with
    | None => (false, b, buf)
    | Some i => (true, b, push_int buf i)
    end.

Definition unescape (c : Z) : Z :=
  if c =? 98 then 8         (* b *)
  else if c =? 102 then 12  (* f *)
  else if c =? 110 then 10  (* n *)
  else if c =? 114 then 13  (* r *)
  else if c =? 116 then 9   (* t *)
  else c.

(** The loop of [push_json_qstring_slow] behind the opening quote. *)
Fixpoint qstring_loop (s b : bytes) : bool * bytes * bytes :=
  match b with
  | [] => (false, b, s)
  | c :: b =>
      if c =? 92 then
        match b with
        | [] => (false, b, s)
        | c :: b => qstring_loop (s ++ [unescape c]) b
        end
      else if c =? 34 then (true, b, s)
      else qstring_loop (s ++ [c]) b
  end.

Definition push_json_qstring_slow (buf b : bytes) : bool * bytes * bytes :=
  let '(ok, b) := match_char 34 b in
  if negb ok then (false, b, buf) else
  let '(ok, b, s) := qstring_loop [] b in
  (ok, b, if ok then push_string buf s else buf).

(** [scan_json_qstring] behind the opening quote: [None] at the end of input,
    [Some None] at an escape, else the text up to the closing quote and what
    follows the quote. *)
Fixpoint scan_json_qstring (b : bytes) : option (option (bytes * bytes)) :=
  match b with
  | [] => None
  | c :: b =>
      if c =? 92 then Some None
      else if c =? 34 then Some (Some ([], b))
      else match scan_json_qstring b with
           | Some (Some (s, r)) => Some (Some (c :: s, r))
           | o => o
           end
  end.

Definition push_json_qstring (buf b : bytes) : bool * bytes * bytes :=
  let '(ok, sb) := match_char 34 b in
  if negb ok then (false, b, buf) else
  match scan_json_qstring sb with
  | None => (false, b, buf)
  | Some None => push_json_qstring_slow buf b
  | Some (Some (s, r)) => (true, r, push_string buf s)
  end.

Definition push_json_keyword (buf b : bytes) : bool * bytes * bytes :=
  let '(ok, b) := match_literal (str "false") b in
  if ok then (true, b, push_bool buf false) else
  let '(ok, b) := match_literal (str "true") b in
  if ok then (true, b, push_bool buf true) else
  let '(ok, b) := match_literal (str "null") b in
  if ok then (true, b, push_null buf) else (false, b, buf).

Section push_json_value.
Context (push_json_value : bytes → bytes → parsed).

(** The [while (true)] loop of [push_json_array]: [inner] holds [count]
    values. *)
Fixpoint json_array_loop (fuel : nat) (buf inner : bytes) (count : Z) (b : bytes) : parsed :=
  match fuel with
  | O => Throw out_of_fuel
  | S fuel =>
      match skip_wsp b with
      | [] => Ok (false, [], buf)
      | (c :: b') as b =>
          if c =? 44 then json_array_loop fuel buf inner count (skip_wsp b')
          else if c =? 93 then Ok (true, b', to_cbor inner (array_header buf count))
          else
            '(ok, b, inner) ← push_json_value inner b;
            if negb ok then Ok (false, b, buf)
            else json_array_loop fuel buf inner (count + 1) b
      end
  end.

Definition push_json_array (fuel : nat) (buf b : bytes) : parsed :=
  let '(ok, b) := match_char 91 b in
  if negb ok then Ok (false, b, buf) else
  let b := skip_wsp b in
  let '(ok, b) := match_char 93 b in
  if ok then Ok (true, b, array_header buf 0) else
  '(ok, b, inner) ← push_json_value [] b;
  if negb ok then Ok (false, b, buf)
  else json_array_loop fuel buf inner 1 b.

Fixpoint json_map_loop (fuel : nat) (buf inner : bytes) (count : Z) (b : bytes) : parsed :=
  match fuel with
  | O => Throw out_of_fuel
  | S fuel =>
      match skip_wsp b with
      | [] => Ok (false, [], buf)
      | (c :: b') as b =>
          if (c =? 58) || (c =? 44) then json_map_loop fuel buf inner count (skip_wsp b')
          else if c =? 125 then
            if negb (count mod 2 =? 0) then Ok (false, b', buf)
            else Ok (true, b', to_cbor inner (map_header buf (count / 2)))
          else
            '(ok, b, inner) ← push_json_value inner b;
            if negb ok then Ok (false, b, buf)
            else json_map_loop fuel buf inner (count + 1) b
      end
  end.

Definition push_json_map (fuel : nat) (buf b : bytes) : parsed :=
  let '(ok, b) := match_char 123 b in
  if negb ok then Ok (false, b, buf) else
  let b := skip_wsp b in
  let '(ok, b) := match_char 125 b in
  if ok then Ok (true, b, map_header buf 0) else
  '(ok, b, inner) ← push_json_value [] b;
  if negb ok then Ok (false, b, buf)
  else json_map_loop fuel buf inner 1 b.
End push_json_value.

Fixpoint push_json_value_f (fuel : nat) (buf b : bytes) : parsed :=
  match fuel with
  | O => Throw out_of_fuel
  | S fuel =>
      let b := skip_wsp b in
      match b with
      | [] => Ok (false, b, buf)
      | c :: _ =>
          if is_digit c || (c =? 45) then Ok (push_json_number buf b)
          else if (97 <=? c) && (c <=? 122) then Ok (push_json_keyword buf b)
          else if c =? 34 then Ok (push_json_qstring buf b)
          else if c =? 91 then push_json_array (push_json_value_f fuel) fuel buf b
          else if c =? 123 then push_json_map (push_json_value_f fuel) fuel buf b
          else Ok (false, b, buf)
      end
  end.

Definition push_json_value (buf b : bytes) : parsed := push_json_value_f (S (length b)) buf b.

(** [buffer::push_json]: the buffer after the call, or an exception that names
    the position. *)
Definition push_json (buf s : bytes) : res bytes :=
  '(ok, b, buf) ← push_json_value buf s;
  if negb ok then
    Throw (domain_error (str "invalid json value at pos " ++
           int_text (Z.of_nat (length s) - Z.of_nat (length b)) ++ str " in: " ++ s))
  else Ok buf.
