(* ===== verification/CborAccess.v ===== *)
(** * Values of a range ([value_accessor], [range])

    Iterating over a buffer or range gives [value_accessor]s
    ([src/include/cbor/cbor.hpp], [src/src/cbor.cpp]): they convert the value they
    stand at to a C++ type, or pass it to a visitor.  A conversion reads into a
    variable that is not initialised ([T val;]) and does not look at whether the
    extractor matched: [None] is the value of such a variable.  The octets of an
    accessor reach from its value to the end of the buffer or range, which is what
    its [to_cbor] copies. *)
From S2P Require Import Prelude CborEncode Ieee CborDecode CborGrammar CborMatch CborMatchSpec CppText CborJson CborTheorems.

(** ** Conversions *)

(** [get<T>], for the [T] an extractor is bound to. *)
Definition get (x : target) (b : bytes) : res (option capture) :=
  '(c, _) ← extract x b; Ok c.

Definition operator_type := get XType.
Definition operator_unsigned_long_long := get XULL.
Definition operator_unsigned_long := get (XUInt (2 ^ 64 - 1)).
Definition operator_unsigned_int := get (XUInt (2 ^ 32 - 1)).
Definition operator_unsigned_short := get (XUInt (2 ^ 16 - 1)).
Definition operator_unsigned_char := get (XUInt (2 ^ 8 - 1)).
Definition operator_long_long := get (XInt (- 2 ^ 63) (2 ^ 63 - 1)).
Definition operator_long := get (XInt (- 2 ^ 63) (2 ^ 63 - 1)).
Definition operator_int := get (XInt (- 2 ^ 31) (2 ^ 31 - 1)).
Definition operator_short := get (XInt (- 2 ^ 15) (2 ^ 15 - 1)).
Definition operator_signed_char := get (XInt (- 2 ^ 7) (2 ^ 7 - 1)).
Definition operator_bool := get XBool.
Definition operator_range := get XRange.
(** A [string_view] has a constructor. *)
Definition operator_string_view (b : bytes) : res (option capture) :=
  s ← get_string b; Ok (Some (CString s)).

(** ** Visitors *)

(** What a visitor is called with; [None]: with the value of a variable that was
    never set. *)
Inductive visited : Type :=
| VValue (c : option capture)
| unvisitable_type (t : type).

Definition visit (b : bytes) : res visited :=
  t ← type_of b;
  match t with
  | t_string => VValue <$> operator_string_view b
  | t_number => VValue <$> operator_long b
  | t_boolean => VValue <$> operator_bool b
  | t_array | t_map => VValue <$> operator_range b
  | _ => Ok (unvisitable_type t)
  end.

(** [push(unvisitable_type)] *)
Definition push_unvisitable (buf : bytes) : bytes :=
  push buf (AString (str "cbor::value_accessor::unvisitable_type")).

(** [value_accessor::to_cbor] *)
Definition accessor_to_cbor (buf b : bytes) : bytes := buf ++ b.

(** ** Ranges *)

Definition range_match (r : bytes) (ps : list pat) : res (option (list capture)) := fst <$> match_array ps r.
Definition range_to_json (r : bytes) : res bytes := to_json r.
Definition range_to_cbor (buf r : bytes) : bytes := buf ++ r.
Definition range_eq (r r' : bytes) : bool := bool_decide (r' = r).

(** ** What the conversions give *)

Lemma get_item x i rest :
  item_ok i → bytes_ok rest → get x (wire i ++ rest) = Ok (item_capture x i).
Proof.
  intros Hi Hr. unfold get. pose proof (extract_item x i rest Hi Hr) as H. unfold implements in H.
  destruct (item_capture x i); [|destruct H as [b H]]; by rewrite H.
Qed.

Lemma get_string_item i rest :
  item_ok i → bytes_ok rest → get_string (wire i ++ rest) = Ok (default [] (item_string i)).
Proof.
  intros Hi Hr. unfold get_string. pose proof (match_string_item i rest Hi Hr) as H. unfold implements in H.
  destruct (item_string i); [|destruct H as [b H]]; by rewrite H.
Qed.

(** The call of a visitor for a value, by its kind. *)
Definition item_visited (i : item) : visited :=
  match i with
  | IText _ s => VValue (Some (CString s))
  | IUInt _ v => VValue (if v <? 2 ^ 63 then Some (CInt v) else None)
  | INInt _ v => VValue (Some (CInt (nint_value v)))
  | IArray _ _ | IMap _ _ _ => VValue (Some (CRange (wire i)))
  | IBytes _ _ => unvisitable_type t_bytes
  | ISpecial _ _ =>
      match item_bool i with
      | Some b => VValue (Some (CBool b))
      | None => unvisitable_type (item_type i)
      end
  end.

Lemma nint_value_s64 v : is_u64 v → is_s64 (nint_value v).
Proof. unfold is_u64, is_s64, nint_value. intros. destruct (Z.ltb_spec v (2 ^ 63)); lia. Qed.

Lemma int64_kept n : is_s64 n → (n <? - 2 ^ 63) || (2 ^ 63 - 1 <? n) = false.
Proof. unfold is_s64. intros. apply orb_false_iff. split; apply Z.ltb_ge; lia. Qed.

Lemma long_item i : item_ok i → item_type i = t_number →
  VValue (item_capture (XInt (- 2 ^ 63) (2 ^ 63 - 1)) i) = item_visited i.
Proof.
  intros Hi Ht. pose proof (item_head_ok i Hi) as Hh. destruct i as [w v|w v| | | | |[] v]; try done.
  - cbn in Hh |- *. destruct (Z.ltb_spec v (2 ^ 63)); [|done]. cbn. by rewrite int64_kept by (unfold is_s64; lia).
  - cbn in Hh |- *. rewrite int64_kept; [done|]. apply nint_value_s64.
    pose proof (width_bound_le w). unfold is_u64. lia.
  - cbn in Ht. by destruct (v =? 22), ((v =? 20) || (v =? 21)).
Qed.

(** ** Theorems *)

Lemma visit_special w v rest :
  item_ok (ISpecial w v) → bytes_ok rest →
  visit (wire (ISpecial w v) ++ rest) = Ok (item_visited (ISpecial w v)).
Proof.
  intros Hi Hr. unfold visit, type_of. rewrite match_type_item by done. cbn [mbind res_bind default].
  unfold operator_bool, item_visited. rewrite (get_item XBool) by done.
  destruct w; try done. cbn. destruct (Z.eqb_spec v 22) as [->|]; [done|].
  destruct (Z.eqb_spec v 20) as [->|]; [done|]. by destruct (Z.eqb_spec v 21) as [->|].
Qed.

Lemma visit_item i rest :
  item_ok i → bytes_ok rest → visit (wire i ++ rest) = Ok (item_visited i).
Proof.
  intros Hi Hr. destruct i as [w v|w v|w s|w s|w l|w n l|w v]; [..|by apply visit_special].
  all: unfold visit, type_of; rewrite match_type_item by done; cbn [mbind res_bind default item_type].
  all: unfold operator_string_view, operator_long, operator_range; rewrite ?get_item, ?get_string_item by done.
  all: cbn [mbind res_bind fmap res_fmap id]; first [done | by rewrite long_item].
Qed.

(** C30: a loop over a range with a visitor calls it once for every value of the
    array or map, in order: text as a string, a number, a truth value, an array or
    map as a range of exactly its octets, anything else as [unvisitable_type].
    For a number of 2^63 or more, and for no other value, the visitor is called
    with a variable that was never set. *)
Theorem visit_values i l :
  item_ok i → item_children i = Some l →
  range_values visit (wire i) = Ok (item_visited <$> l) ∧
  ∀ x, x ∈ l → (item_visited x = VValue None ↔ ∃ w v, x = IUInt w v ∧ 2 ^ 63 <= v).
Proof.
  intros Hi Hc. split; [apply range_values_items; [exact visit_item|done..]|].
  intros x _. destruct x as [w v|w v|w s|w s|w k|w n k|w v]; cbn [item_visited]; try naive_solver.
  - destruct (Z.ltb_spec v (2 ^ 63)); naive_solver lia.
  - destruct (item_bool _); naive_solver.
Qed.

(** The octets from each value to the end. *)
Fixpoint suffixes (l : list item) : list bytes :=
  match l with [] => [] | x :: k => wires (x :: k) :: suffixes k end.

Lemma vi_collect_suffixes {A} (f : bytes → A) l fuel :
  Forall item_ok l → (length (wires l) < fuel)%nat →
  vi_collect fuel (λ b, Ok (f b)) (ValueIterator (wires l) (len_of l)) = Ok (f <$> suffixes l).
Proof.
  intros Hl. revert fuel. induction Hl as [|x l Hx Hl IH]; intros fuel Hf; [by destruct fuel|].
  destruct fuel as [|fuel]; [lia|]. cbn [vi_collect suffixes]. pose proof (wire_nonempty x) as Hne.
  assert (vi_more (ValueIterator (wires (x :: l)) (len_of (x :: l))) = true) as ->.
  { unfold vi_more. cbn [vi_b]. rewrite bool_decide_false; [done|]. rewrite wires_cons.
    destruct (wire x); [cbn in Hne; lia|done]. }
  rewrite wires_cons in Hf. rewrite length_app in Hf.
  pose proof (len_of_nonneg l). pose proof (wires_items_ok _ Hl).
  unfold vi_deref, vi_next. cbn [vi_n vi_b].
  rewrite len_of_cons, (proj2 (Z.eqb_neq _ 0)) by lia. cbn [mbind res_bind match_value].
  rewrite wires_cons, match_value_type_item by done. cbn [mbind res_bind].
  replace (1 + len_of l - 1) with (len_of l) by lia. by rewrite IH by lia.
Qed.

(** [to_cbor] of the value of an iterator appends that value and all that
    follow it in the range, so that copying the values of an array of two or more
    one by one does not give the array back. *)
Theorem accessor_copies_rest w l buf :
  item_ok (IArray w l) →
  range_values (λ b, Ok (accessor_to_cbor buf b)) (wire (IArray w l)) = Ok (app buf <$> suffixes l).
Proof.
  intros Hi. unfold range_values, vi_begin.
  destruct (decode_range_header_item (IArray w l) l [] Hi (Forall_nil_2 _) eq_refl) as [Hd Hl].
  rewrite !app_nil_r in Hd. rewrite Hd. cbn [mbind res_bind].
  apply (vi_collect_suffixes (app buf)); [done|].
  rewrite (wire_split (IArray w l)). cbn [item_head item_body]. rewrite length_app. lia.
Qed.

Lemma visit_values_witness :
  let big := IUInt W8 (2 ^ 63) in
  range_values visit (wire (IArray W0 [IText W0 (str "a"); IUInt W0 3; INull; big]))
  = Ok [VValue (Some (CString (str "a"))); VValue (Some (CInt 3)); unvisitable_type t_null; VValue None].
Proof.
  intros big. apply (visit_values (IArray W0 [IText W0 (str "a"); IUInt W0 3; INull; big])
    [IText W0 (str "a"); IUInt W0 3; INull; big]); [by_decision|reflexivity].
Defined.

Lemma accessor_copies_rest_witness :
  range_values (λ b, Ok (accessor_to_cbor [] b)) (wire (IArray W0 [IUInt W0 1; IUInt W0 2]))
  = Ok [[1; 2]; [2]].
Proof. apply (accessor_copies_rest W0 [IUInt W0 1; IUInt W0 2] []). by_decision. Defined.
