(* ===== verification/JsonSpec.v ===== *)
(** * What the JSON layer guarantees

    [json_text] is the text of a syntax tree; [to_json] computes it
    ([to_json_item]) and [push_json] reads it back ([push_json_item]). *)
From S2P Require Import Prelude CborEncode Ieee CborDecode CborGrammar CborMatch CborMatchSpec CppText CborJson.

(** ** The text of an item *)

Definition quoted (s : bytes) : bytes := [34] ++ concat (json_char <$> s) ++ [34].

Definition commas (ts : list bytes) : bytes :=
  match ts with
  | [] => []
  | t :: ts => t ++ concat ((λ t, 44 :: t) <$> ts)
  end.

(** Keys and values alternate. *)
Fixpoint pair_texts (ts : list bytes) : list bytes :=
  match ts with
  | k :: v :: ts => (k ++ 58 :: v) :: pair_texts ts
  | _ => []
  end.

Definition float_text (v : Z) : bytes := float_to_json [] v.

Fixpoint json_text (i : item) : bytes :=
  match i with
  | IUInt _ v => int_text v
  | INInt _ v => int_text (nint_value v)
  | IBytes _ s | IText _ s => quoted s
  | IArray _ l => [91] ++ commas (json_text <$> l) ++ [93]
  | IMap _ _ l => [123] ++ commas (pair_texts (json_text <$> l)) ++ [125]
  | ISpecial W0 v => if v =? 20 then str "false" else if v =? 21 then str "true" else str "null"
  | ISpecial W1 v => []
  | ISpecial W2 v => float_text (decode_half v)
  | ISpecial W4 v => float_text (float_to_double v)
  | ISpecial W8 v => float_text v
  end.

(** Items with a JSON form: no simple values other than booleans and null, and
    no map whose head wraps. *)
Fixpoint printable (i : item) : Prop :=
  match i with
  | IArray _ l => foldr (λ x P, printable x ∧ P) True l
  | IMap _ n l => n < 2 ^ 63 ∧ foldr (λ x P, printable x ∧ P) True l
  | ISpecial W0 v => v = 20 ∨ v = 21 ∨ v = 22
  | ISpecial W1 _ => False
  | _ => True
  end.

(** ** Printing *)

Lemma foldl_app_concat {A} (f : A → bytes) os l :
  foldl (λ os c, os ++ f c) os l = os ++ concat (f <$> l).
Proof.
  revert os. induction l as [|x l IH]; intros os; cbn; [by rewrite app_nil_r|].
  by rewrite IH, (assoc_L app).
Qed.

Lemma string_to_json_quoted os s : string_to_json os s = os ++ quoted s.
Proof.
  unfold string_to_json, quoted. rewrite foldl_app_concat. by rewrite <- !(assoc_L app).
Qed.

Lemma float_to_json_text ss v : float_to_json ss v = ss ++ float_text v.
Proof.
  unfold float_text, float_to_json. destruct (negb (isfinite v)); [done|].
  destruct (existsb _ _); [done|]. cbn [app]. by rewrite (assoc_L app).
Qed.

Definition prints (P : bytes → bytes → printed) (i : item) : Prop :=
  ∀ ss rest, bytes_ok rest → P ss (wire i ++ rest) = (ss ++ json_text i, Ok rest).

Lemma print_array_items P l ss rest fuel :
  bytes_ok rest → Forall item_ok l →
  Forall (λ i, ∀ ss r, bytes_ok r → (length (wire i ++ r) <= length (wires l ++ rest))%nat →
    P ss (wire i ++ r) = (ss ++ json_text i, Ok r)) l →
  (length (wires l ++ rest) < fuel)%nat →
  print_array P fuel (len_of l) ss (wires l ++ rest) = (ss ++ commas (json_text <$> l), Ok rest).
Proof.
  intros Hr Hok HP. revert ss fuel. induction l as [|x l IH]; intros ss fuel Hf.
  { destruct fuel; cbn; by rewrite app_nil_r. }
  destruct fuel as [|fuel]; [lia|]. apply Forall_cons in Hok as [Hx Hok].
  apply Forall_cons in HP as [HPx HP]. pose proof (wires_items_ok _ Hok) as Hw.
  rewrite wires_cons, <- (assoc_L app) in *. rewrite length_app in Hf.
  pose proof (wire_nonempty x) as Hne. pose proof (len_of_nonneg l).
  cbn [print_array]. rewrite len_of_cons, (proj2 (Z.eqb_neq _ 0)) by lia.
  rewrite HPx by (done || by apply Forall_app). cbn [print_then].
  replace (1 + len_of l - 1) with (len_of l) by lia.
  destruct l as [|y l].
  { cbn [len_of length Z.of_nat Z.eqb]. destruct fuel; cbn; by rewrite app_nil_r. }
  rewrite (proj2 (Z.eqb_neq (len_of (y :: l)) 0))
    by (rewrite len_of_cons; pose proof (len_of_nonneg l); lia).
  rewrite IH; [|done| |lia].
  - cbn [fmap list_fmap commas concat]. by rewrite <- !(assoc_L app).
  - eapply Forall_impl; [exact HP|]. cbn. intros i Hi ss' r Hr' Hle. apply Hi; [done|].
    rewrite (length_app (wire x)). lia.
Qed.

Lemma print_map_items P (k : nat) l ss rest fuel :
  bytes_ok rest → Forall item_ok l → len_of l = 2 * Z.of_nat k →
  Forall (λ i, ∀ ss r, bytes_ok r → (length (wire i ++ r) <= length (wires l ++ rest))%nat →
    P ss (wire i ++ r) = (ss ++ json_text i, Ok r)) l →
  (length (wires l ++ rest) < fuel)%nat →
  print_map P fuel (Z.of_nat k) ss (wires l ++ rest)
  = (ss ++ commas (pair_texts (json_text <$> l)), Ok rest).
Proof.
  intros Hr. revert l ss fuel. induction k as [|k IH]; intros l ss fuel Hok Hlen HP Hf.
  { destruct l; [|rewrite len_of_cons in Hlen; pose proof (len_of_nonneg l); lia].
    destruct fuel; cbn; by rewrite app_nil_r. }
  destruct l as [|x [|y l]]; [unfold len_of in Hlen; cbn [length] in Hlen; lia..|].
  destruct fuel as [|fuel]; [lia|]. rewrite !len_of_cons in Hlen.
  apply Forall_cons in Hok as [Hx Hok]. apply Forall_cons in Hok as [Hy Hok].
  apply Forall_cons in HP as [HPx HP]. apply Forall_cons in HP as [HPy HP].
  pose proof (wires_items_ok _ Hok) as Hw. pose proof (wire_ok _ Hy) as Hwy.
  rewrite !wires_cons, <- !(assoc_L app) in *. rewrite !length_app in Hf.
  pose proof (wire_nonempty x) as Hne. pose proof (wire_nonempty y) as Hne'.
  cbn [print_map]. rewrite (proj2 (Z.eqb_neq _ 0)) by lia.
  rewrite HPx by (done || (repeat apply Forall_app_2; done)). cbn [print_then].
  rewrite HPy by ((repeat apply Forall_app_2; done) || (rewrite !length_app; lia)). cbn [print_then].
  replace (Z.of_nat (S k) - 1) with (Z.of_nat k) by lia.
  assert (∀ ss, print_map P fuel (Z.of_nat k) ss (wires l ++ rest)
    = (ss ++ commas (pair_texts (json_text <$> l)), Ok rest)) as ->.
  { intros ss'. apply IH; [done|lia| |rewrite length_app; lia].
    eapply Forall_impl; [exact HP|]. cbn. intros i Hi ss'' r Hr' Hle. apply Hi; [done|].
    rewrite !length_app in *. lia. }
  f_equal. destruct l as [|x' [|y' l]].
  - assert (k = 0%nat) as -> by (unfold len_of in Hlen; cbn [length] in Hlen; lia). cbn. by rewrite !app_nil_r, <- !(assoc_L app).
  - unfold len_of in Hlen. cbn [length] in Hlen. lia.
  - rewrite !len_of_cons in Hlen. pose proof (len_of_nonneg l).
    rewrite (proj2 (Z.eqb_neq _ 0)) by lia. cbn. by rewrite <- !(assoc_L app).
Qed.

Lemma foldr_printable l : foldr (λ x P, printable x ∧ P) True l ↔ Forall printable l.
Proof. apply foldr_Forall. Qed.

(** The printer on the octets of an item, for every fuel above the octets
    left. *)
Lemma to_json_stream_item i : item_ok i → printable i →
  ∀ fuel ss rest, bytes_ok rest → (length (wire i ++ rest) < fuel)%nat →
  to_json_stream_f fuel ss (wire i ++ rest) = (ss ++ json_text i, Ok rest).
Proof.
  induction i as [w v|w v|w s|w s|w l IH|w n l IH|w v] using item_ind;
    intros Hi Hp [|fuel] ss rest Hr Hf; try lia; cbn [to_json_stream_f];
    pose proof (item_head_ok _ Hi) as [HM Hv]; pose proof (item_body_ok _ Hi) as Hb;
    rewrite (wire_split _) in Hf |- *; cbn [item_head item_body] in *;
    rewrite <- (assoc_L app) in Hf |- *; rewrite decode_type_head by done; cbn [print_with];
    rewrite length_app, length_head in Hf; cbn [app].
  - by rewrite decode_pint_head.
  - by rewrite decode_nint_head.
  - unfold decode_bytes, decode_string. rewrite decode_pint_head by (done || by apply Forall_app).
    cbn [mbind res_bind print_with]. unfold len_of. rewrite advance_app. cbn [print_with].
    by rewrite string_to_json_quoted.
  - unfold decode_string. rewrite decode_pint_head by (done || by apply Forall_app).
    cbn [mbind res_bind print_with]. unfold len_of. rewrite advance_app. cbn [print_with].
    by rewrite string_to_json_quoted.
  - rewrite decode_pint_head by (done || by apply Forall_app). cbn [print_with].
    apply item_ok_array in Hi as [_ Hi]. apply foldr_printable in Hp.
    rewrite print_array_items; [|done..| |lia].
    + cbn [print_then json_text]. by rewrite <- !(assoc_L app).
    + apply (Forall_mp item_ok); [done|]. apply (Forall_mp printable); [done|].
      eapply Forall_impl; [exact IH|]. cbn. intros x Hx Hxp Hxo ss' r Hr' Hle.
      apply Hx; [done..|lia].
  - rewrite decode_pint_head by (done || by apply Forall_app). cbn [print_with].
    apply item_ok_map in Hi as (Hn & Hlen & Hi). destruct Hp as [Hn' Hp]. apply foldr_printable in Hp.
    rewrite u64_small in Hlen by (unfold is_u64; lia).
    rewrite <- (Z2Nat.id n) by lia. rewrite print_map_items; [|done|done|lia| |lia].
    + cbn [print_then json_text]. by rewrite <- !(assoc_L app).
    + apply (Forall_mp item_ok); [done|]. apply (Forall_mp printable); [done|].
      eapply Forall_impl; [exact IH|]. cbn. intros x Hx Hxp Hxo ss' r Hr' Hle.
      apply Hx; [done..|lia].
  - assert (∀ x, (1 < width_octets w)%nat → item_float (ISpecial w v) = Some x →
      (width_minor w v =? 20) || (width_minor w v =? 21) || (width_minor w v =? 22) = false →
      (if 7 * 32 + width_minor w v =? 0xf4 then (ss ++ str "false", Ok (big_endian (width_octets w) v ++ rest))
       else if 7 * 32 + width_minor w v =? 0xf5 then (ss ++ str "true", Ok (big_endian (width_octets w) v ++ rest))
       else if 7 * 32 + width_minor w v =? 0xf6 then (ss ++ str "null", Ok (big_endian (width_octets w) v ++ rest))
       else if is_float_type (7 * 32 + width_minor w v) then
         print_with ss (decode_float (7 * 32 + width_minor w v) (big_endian (width_octets w) v ++ rest))
           (λ '(v, b), (float_to_json ss v, Ok b))
       else (ss, Throw (domain_error (str "cbor unsupported simple value"))))
      = (ss ++ float_text x, Ok rest)) as Hfloat.
    { intros x Hw Hx Hm. destruct (decode_float_head w v x rest Hv Hr Hw Hx) as [-> ->].
      cbn [print_with]. rewrite float_to_json_text. destruct w; done. }
    destruct w; cbn [printable] in Hp; try done;
      try (apply Hfloat; [cbn; lia|done|done]).
    destruct Hp as [->|[->| ->]]; done.
Qed.

Lemma to_json_text i rest :
  item_ok i → printable i → bytes_ok rest → to_json (wire i ++ rest) = Ok (json_text i).
Proof.
  intros Hi Hp Hr. unfold to_json, to_json_stream. rewrite to_json_stream_item by (done || lia).
  done.
Qed.

(** ** Parsing what was printed *)

(** Characters a printed string carries through: the escapes the parser knows,
    and everything from the space up. *)
Definition json_safe (c : Z) : Prop :=
  32 <= c < 256 ∨ c = 8 ∨ c = 12 ∨ c = 10 ∨ c = 13 ∨ c = 9.

#[export] Instance json_safe_dec c : Decision (json_safe c).
Proof. unfold json_safe. apply _. Defined.

(** The items that survive printing and parsing.  They are some of those the parser
    produces: it also writes doubles, whose text need not be exact, and strings with
    control characters that the printer writes as an escape [\u00XX], which the
    parser does not read, and neither are here.
    Heads are the shortest, integers are in the [int64_t] range, strings are safe,
    and there are no octet strings. *)
Fixpoint json_item (i : item) : Prop :=
  match i with
  | IUInt w v | INInt w v => w = min_width v ∧ 0 <= v < 2 ^ 63
  | IBytes _ _ => False
  | IText w s => w = min_width (len_of s) ∧ Forall json_safe s ∧ len_of s < 2 ^ 64
  | IArray w l =>
      w = min_width (len_of l) ∧ len_of l < 2 ^ 64 ∧ foldr (λ x P, json_item x ∧ P) True l
  | IMap w n l =>
      w = min_width n ∧ 0 <= n < 2 ^ 63 ∧ len_of l = 2 * n ∧ foldr (λ x P, json_item x ∧ P) True l
  | ISpecial w v => w = W0 ∧ (v = 20 ∨ v = 21 ∨ v = 22)
  end.

(** What may follow a printed value inside an array or map, or at the end. *)
Definition json_stop (rest : bytes) : Prop :=
  match rest with
  | [] => True
  | c :: _ => c = 44 ∨ c = 58 ∨ c = 93 ∨ c = 125
  end.

Lemma json_stop_digit rest : json_stop rest → no_digit_first rest.
Proof. destruct rest; [done|]. cbn. intros [->|[->|[->| ->]]]; done. Qed.

Lemma match_char_stop c rest :
  json_stop rest → c = 46 → match_char c rest = (false, rest).
Proof. destruct rest; [done|]. cbn. intros [->|[->|[->| ->]]] ->; done. Qed.

Lemma int_text_range v : is_s64 v → (length (int_text v) <= 20)%nat ∧ int_text v ≠ [].
Proof.
  unfold is_s64, int_text. intros Hv.
  assert (10 ^ Z.of_nat 19 = 10000000000000000000) as H19 by done.
  destruct (Z.ltb_spec v 0).
  - destruct (nat_text_spec (- v)) as (_ & _ & _ & Hlen); [lia|].
    specialize (Hlen 19%nat). cbn [length]. split; [|done]. lia.
  - destruct (nat_text_spec v) as (_ & Hne & _ & Hlen); [lia|].
    specialize (Hlen 19%nat). split; [lia|done].
Qed.

Lemma from_chars_int_text v : is_s64 v → from_chars_int64 (int_text v) = Some v.
Proof.
  intros Hv. unfold from_chars_int64, int_text. destruct (Z.ltb_spec v 0).
  - destruct (nat_text_spec (- v)) as (-> & _); [lia|].
    rewrite Z.opp_involutive. by rewrite bool_decide_true.
  - destruct (nat_text_spec v) as (Hval & Hne & Hall & _); [lia|].
    destruct (nat_text v) as [|c d]; [done|]. apply Forall_cons in Hall as [Hc _].
    assert (c ≠ 45) by (intros ->; discriminate Hc).
    rewrite (proj2 (Z.eqb_neq c 45)), Hval by done. by rewrite bool_decide_true.
Qed.

(** Numbers. *)
Lemma push_json_int buf v rest :
  is_s64 v → json_stop rest →
  push_json_number buf (int_text v ++ rest) = (true, rest, push_int buf v).
Proof.
  intros Hv Hs. destruct (int_text_range v Hv) as [Hlen _].
  pose proof (from_chars_int_text v Hv) as Hfc. pose proof (json_stop_digit rest Hs) as Hnd.
  assert (∀ d s, Forall (λ c, is_digit c = true) d → d ≠ [] → int_text v = s ++ d →
    match_digits (d ++ rest) s = (true, rest, int_text v)) as Hd.
  { intros d s Hall Hne ->. unfold match_digits. rewrite span_digits_app by done.
    by rewrite bool_decide_false. }
  assert (∃ s d, Forall (λ c, is_digit c = true) d ∧ d ≠ [] ∧ int_text v = s ++ d ∧
    ∃ neg, match_char 45 (int_text v ++ rest) = (neg, d ++ rest) ∧ s = if neg then [45] else [])
    as (s & d & Hall & Hne & Ht & neg & Hm & Hs').
  { unfold int_text. destruct (Z.ltb_spec v 0).
    - destruct (nat_text_spec (- v)) as (_ & Hne & Hall & _); [lia|].
      exists [45], (nat_text (- v)). split_and!; try done. by exists true.
    - destruct (nat_text_spec v) as (_ & Hne & Hall & _); [lia|].
      exists [], (nat_text v). split_and!; try done. exists false.
      destruct (nat_text v) as [|c d]; [done|]. apply Forall_cons in Hall as [Hc _]. cbn.
      destruct (Z.eqb_spec c 45) as [->|]; [discriminate Hc|done]. }
  unfold push_json_number. rewrite Hm, <- Hs'. rewrite (Hd d s) by done. cbn [negb].
  rewrite match_char_stop by done. cbn [negb].
  assert (match rest with
    | c :: b' => if (c =? 101) || (c =? 69) then (true, b') else (false, rest)
    | [] => (false, rest) end = (false, rest)) as ->.
  { destruct rest; [done|]. cbn in Hs. by destruct Hs as [->|[->|[->| ->]]]. }
  cbn [negb orb]. unfold number_str_max.
  rewrite (proj2 (Z.ltb_ge 64 _)) by lia. by rewrite Hfc.
Qed.

(** Strings. *)
Definition json_escaped (c : Z) : bool :=
  (c =? 8) || (c =? 12) || (c =? 10) || (c =? 13) || (c =? 9) || (c =? 92) || (c =? 34).

Lemma json_char_safe c :
  json_safe c →
  if json_escaped c then ∃ x, json_char c = [92; x] ∧ unescape x = c
  else json_char c = [c] ∧ (c =? 92) = false ∧ (c =? 34) = false.
Proof.
  intros Hc. unfold json_escaped, json_char.
  destruct (Z.eqb_spec c 8) as [->|]; [by exists 98|].
  destruct (Z.eqb_spec c 12) as [->|]; [by exists 102|].
  destruct (Z.eqb_spec c 10) as [->|]; [by exists 110|].
  destruct (Z.eqb_spec c 13) as [->|]; [by exists 114|].
  destruct (Z.eqb_spec c 9) as [->|]; [by exists 116|].
  destruct (Z.eqb_spec c 92) as [->|]; [by exists 92|].
  destruct (Z.eqb_spec c 34) as [->|]; [by exists 34|].
  cbn [orb]. unfold json_safe in Hc.
  rewrite (proj2 (Z.leb_gt c 0x1f)) by lia. by rewrite andb_false_r.
Qed.

Lemma qstring_loop_safe s t rest :
  Forall json_safe s →
  qstring_loop t (concat (json_char <$> s) ++ 34 :: rest) = (true, rest, t ++ s).
Proof.
  intros Hs. revert t. induction Hs as [|c s Hc Hs IH]; intros t; cbn [fmap list_fmap concat].
  - cbn. by rewrite app_nil_r.
  - pose proof (json_char_safe c Hc) as H. rewrite <- (assoc_L app).
    destruct (json_escaped c); [destruct H as (x & -> & Hx)|destruct H as (-> & H1 & H2)];
      cbn [app qstring_loop].
    + cbn [Z.eqb Pos.eqb]. rewrite Hx, IH. by rewrite <- (assoc_L app).
    + rewrite H1, H2, IH. by rewrite <- (assoc_L app).
Qed.

Lemma scan_safe s rest :
  Forall json_safe s →
  scan_json_qstring (concat (json_char <$> s) ++ 34 :: rest)
  = Some (if existsb json_escaped s then None else Some (s, rest)).
Proof.
  induction 1 as [|c s Hc Hs IH]; [done|]. cbn [fmap list_fmap concat existsb].
  pose proof (json_char_safe c Hc) as H. rewrite <- (assoc_L app).
  destruct (json_escaped c); [by destruct H as (x & -> & _)|destruct H as (-> & H1 & H2)].
  cbn [app scan_json_qstring orb]. rewrite H1, H2, IH. by destruct (existsb json_escaped s).
Qed.

Lemma push_json_quoted buf s rest :
  Forall json_safe s → push_json_qstring buf (quoted s ++ rest) = (true, rest, push_string buf s).
Proof.
  intros Hs. unfold push_json_qstring, push_json_qstring_slow, quoted.
  cbn [app match_char Z.eqb Pos.eqb negb]. rewrite <- (assoc_L app). cbn [app].
  rewrite scan_safe by done. destruct (existsb json_escaped s); [|done].
  by rewrite qstring_loop_safe.
Qed.

(** Keywords and null. *)
Lemma push_json_special buf v rest :
  v = 20 ∨ v = 21 ∨ v = 22 →
  push_json_keyword buf (json_text (ISpecial W0 v) ++ rest)
  = (true, rest, buf ++ wire (ISpecial W0 v)).
Proof. intros [->|[->| ->]]; done. Qed.

(** The first character of a printed value selects its branch. *)
Definition json_first (i : item) (c : Z) : Prop :=
  match i with
  | IUInt _ _ | INInt _ _ => is_digit c = true ∨ c = 45
  | IBytes _ _ | IText _ _ => c = 34
  | IArray _ _ => c = 91
  | IMap _ _ _ => c = 123
  | ISpecial _ _ => c = 102 ∨ c = 116 ∨ c = 110
  end.

Lemma int_text_first v : ∃ c t, int_text v = c :: t ∧ (is_digit c = true ∨ c = 45).
Proof.
  unfold int_text. destruct (Z.ltb_spec v 0); [by eauto 10|].
  destruct (nat_text_spec v) as (_ & Hne & Hall & _); [lia|].
  destruct (nat_text v) as [|c t]; [done|]. apply Forall_cons in Hall as [Hc _]. by eauto 10.
Qed.

Lemma json_text_first i :
  json_item i → ∃ c t, json_text i = c :: t ∧ json_first i c.
Proof.
  destruct i as [w v|w v|w s|w s|w l|w n l|w v]; cbn [json_text json_item json_first]; intros Hi.
  - apply int_text_first.
  - apply int_text_first.
  - done.
  - by eexists _, _.
  - by eexists _, _.
  - by eexists _, _.
  - destruct Hi as [-> [->|[->| ->]]]; eexists _, _; (split; [reflexivity|tauto]).
Qed.

(** No value starts with white space or with a separator. *)
Lemma json_first_plain i c :
  json_first i c →
  is_wsp c = false ∧ c ≠ 44 ∧ c ≠ 58 ∧ c ≠ 93 ∧ c ≠ 125.
Proof.
  intros H. assert (is_wsp c = false ∧ (c =? 44) = false ∧ (c =? 58) = false ∧
    (c =? 93) = false ∧ (c =? 125) = false) as H'.
  { destruct i; cbn in H; destruct_or? H; subst; try done;
      unfold is_digit in H; apply andb_true_iff in H as [H1 H2];
      apply Z.leb_le in H1, H2; unfold is_wsp; ztests; try lia; done. }
  rewrite !Z.eqb_neq in H'. tauto.
Qed.

(** The text of values behind a first one, each after its separator. *)
Definition tail_text (seps : list Z) (l : list item) : bytes :=
  concat (zip_with (λ c i, c :: json_text i) seps l).

Definition parses (P : bytes → bytes → parsed) (bound : nat) (i : item) : Prop :=
  ∀ buf rest, json_stop rest → (length (json_text i ++ rest) < bound)%nat →
    P buf (json_text i ++ rest) = Ok (true, rest, buf ++ wire i).

Lemma skip_wsp_text i t : json_item i → skip_wsp (json_text i ++ t) = json_text i ++ t.
Proof.
  intros Hi. destruct (json_text_first i Hi) as (c & u & -> & Hc).
  apply json_first_plain in Hc as [Hc _]. cbn [app skip_wsp]. by rewrite Hc.
Qed.

Lemma tail_text_stop seps l close rest :
  Forall (λ c, c = 44 ∨ c = 58) seps → close = 93 ∨ close = 125 →
  json_stop (tail_text seps l ++ close :: rest).
Proof.
  intros Hs Hc. destruct Hs as [|c seps Hsep Hs], l as [|i l]; cbn; naive_solver.
Qed.

Section loops.
Context (P : bytes → bytes → parsed) (bound : nat).

Lemma json_array_loop_items l : ∀ fuel buf inner count rest,
  Forall json_item l → Forall (parses P bound) l →
  let b := tail_text (replicate (length l) 44) l ++ 93 :: rest in
  (length b < fuel)%nat → (length b <= bound)%nat →
  json_array_loop P fuel buf inner count b
  = Ok (true, rest, to_cbor (inner ++ wires l) (array_header buf (count + len_of l))).
Proof.
  induction l as [|x l IH]; intros fuel buf inner count rest Hj HP b Hf Hb.
  { destruct fuel as [|fuel]; [cbn in Hf; lia|]. cbn. rewrite app_nil_r. by rewrite Z.add_0_r. }
  apply Forall_cons in Hj as [Hx Hj]. apply Forall_cons in HP as [HPx HP].
  destruct (json_text_first x Hx) as (c & u & Ht & Hc).
  apply json_first_plain in Hc as (_ & H44 & _ & H93 & _).
  assert (b = 44 :: json_text x ++ tail_text (replicate (length l) 44) l ++ 93 :: rest) as Eb.
  { unfold b, tail_text. cbn. by rewrite <- (assoc_L app). }
  rewrite Eb in Hf, Hb |- *. cbn [length] in Hf, Hb.
  destruct fuel as [|fuel]; [lia|]. cbn [json_array_loop skip_wsp]. cbn [is_wsp Z.eqb Pos.eqb orb].
  rewrite skip_wsp_text by done. rewrite length_app in Hf.
  destruct fuel as [|fuel]; [lia|]. cbn [json_array_loop]. rewrite skip_wsp_text by done.
  specialize (HPx inner (tail_text (replicate (length l) 44) l ++ 93 :: rest)).
  rewrite Ht in HPx, Hf, Hb |- *. cbn [app] in HPx, Hb |- *.
  rewrite (proj2 (Z.eqb_neq c 44)), (proj2 (Z.eqb_neq c 93)) by done.
  rewrite HPx; [| |cbn in *; lia].
  - cbn [mbind res_bind negb]. cbn [length] in Hf, Hb. rewrite length_app in Hb.
    rewrite IH by (done || cbn in *; lia).
    rewrite len_of_cons, wires_cons, (assoc_L app).
    by replace (count + 1 + len_of l) with (count + (1 + len_of l)) by lia.
  - apply tail_text_stop; [|by left]. apply Forall_replicate. by left.
Qed.

Lemma json_map_loop_items l : ∀ seps fuel buf inner count rest,
  Forall json_item l → Forall (parses P bound) l →
  Forall (λ c, c = 44 ∨ c = 58) seps → length seps = length l →
  (count + len_of l) mod 2 = 0 →
  let b := tail_text seps l ++ 125 :: rest in
  (length b < fuel)%nat → (length b <= bound)%nat →
  json_map_loop P fuel buf inner count b
  = Ok (true, rest, to_cbor (inner ++ wires l) (map_header buf ((count + len_of l) / 2))).
Proof.
  induction l as [|x l IH]; intros [|sep seps] fuel buf inner count rest Hj HP Hs Hl Hm b Hf Hb;
    try discriminate Hl.
  { destruct fuel as [|fuel]; [cbn in Hf; lia|]. unfold b. cbn [tail_text zip_with concat app].
    cbn [json_map_loop skip_wsp is_wsp Z.eqb Pos.eqb orb]. rewrite Z.add_0_r in Hm.
    rewrite Hm, Z.add_0_r. cbn. by rewrite app_nil_r. }
  apply Forall_cons in Hj as [Hx Hj]. apply Forall_cons in HP as [HPx HP].
  apply Forall_cons in Hs as [Hsep Hs]. injection Hl as Hl.
  destruct (json_text_first x Hx) as (c & u & Ht & Hc).
  apply json_first_plain in Hc as (_ & H44 & H58 & _ & H125).
  assert (b = sep :: json_text x ++ tail_text seps l ++ 125 :: rest) as Eb.
  { unfold b, tail_text. cbn. by rewrite <- (assoc_L app). }
  rewrite Eb in Hf, Hb |- *. cbn [length] in Hf, Hb.
  destruct fuel as [|fuel]; [lia|]. cbn [json_map_loop skip_wsp].
  assert (is_wsp sep = false ∧ (sep =? 58) || (sep =? 44) = true) as [-> ->]
    by by destruct Hsep as [-> | ->].
  rewrite skip_wsp_text by done. rewrite length_app in Hf.
  destruct fuel as [|fuel]; [lia|]. cbn [json_map_loop]. rewrite skip_wsp_text by done.
  specialize (HPx inner (tail_text seps l ++ 125 :: rest)).
  rewrite Ht in HPx, Hf, Hb |- *. cbn [app] in HPx, Hb |- *.
  rewrite (proj2 (Z.eqb_neq c 44)), (proj2 (Z.eqb_neq c 58)), (proj2 (Z.eqb_neq c 125)) by done.
  cbn [orb]. rewrite HPx; [| |cbn in *; lia].
  - cbn [mbind res_bind negb]. cbn [length] in Hf, Hb. rewrite length_app in Hb.
    rewrite len_of_cons in Hm |- *. rewrite IH;
      [|done..|rewrite <- Hm; f_equal; lia|cbn in *; lia|cbn in *; lia].
    rewrite wires_cons, (assoc_L app).
    by replace (count + 1 + len_of l) with (count + (1 + len_of l)) by lia.
  - apply tail_text_stop; [done|by right].
Qed.
End loops.

Lemma commas_tail x l :
  commas (json_text <$> (x :: l)) = json_text x ++ tail_text (replicate (length l) 44) l.
Proof.
  cbn. f_equal. unfold tail_text. induction l as [|y l IH]; [done|]. cbn. by rewrite IH.
Qed.

Lemma pairs_tail (k : nat) l :
  len_of l = 2 * Z.of_nat (S k) →
  ∃ x l' seps, l = x :: l' ∧ Forall (λ c, c = 44 ∨ c = 58) seps ∧ length seps = length l' ∧
    commas (pair_texts (json_text <$> l)) = json_text x ++ tail_text seps l'.
Proof.
  revert l. induction k as [|k IH]; intros l Hl;
    (destruct l as [|x [|y l]]; [unfold len_of in Hl; cbn [length] in Hl; lia..|]);
    rewrite !len_of_cons in Hl.
  - destruct l; [|rewrite len_of_cons in Hl; pose proof (len_of_nonneg l); lia].
    exists x, [y], [58]. split_and!; [done|by repeat constructor; right|done|].
    unfold tail_text. cbn. by rewrite !app_nil_r.
  - destruct (IH l) as (x' & l' & seps & -> & Hs & Hlen & Ht); [lia|].
    exists x, (y :: x' :: l'), (58 :: 44 :: seps).
    split_and!; [done|constructor; [by right|constructor; [by left|done]]|cbn; lia|].
    change (pair_texts (json_text <$> x :: y :: x' :: l'))
      with ((json_text x ++ 58 :: json_text y) :: pair_texts (json_text <$> x' :: l')).
    unfold tail_text in *. cbn [zip_with concat app]. rewrite <- Ht.
    destruct l' as [|y' l']; [rewrite len_of_cons in Hl; unfold len_of in Hl; cbn [length] in Hl; lia|].
    cbn. by rewrite <- !(assoc_L app).
Qed.

Lemma foldr_json_item l : foldr (λ x P, json_item x ∧ P) True l ↔ Forall json_item l.
Proof. apply foldr_Forall. Qed.

(** A value in front of a closing bracket or brace is not the closing one. *)
Lemma match_char_item close i t :
  json_item i → close = 93 ∨ close = 125 →
  match_char close (json_text i ++ t) = (false, json_text i ++ t).
Proof.
  intros Hi Hc. destruct (json_text_first i Hi) as (c & u & -> & Hf).
  apply json_first_plain in Hf as (_ & _ & _ & H93 & H125). cbn [app match_char].
  by destruct Hc as [-> | ->]; rewrite (proj2 (Z.eqb_neq _ _)).
Qed.

Lemma push_json_array_item P fuel w l buf rest :
  json_item (IArray w l) → Forall (λ i, json_item i → parses P fuel i) l →
  (length (json_text (IArray w l) ++ rest) < S fuel)%nat →
  push_json_array P fuel buf (json_text (IArray w l) ++ rest)
  = Ok (true, rest, buf ++ wire (IArray w l)).
Proof.
  intros (-> & Hlen & Hi) IH Hf. apply foldr_json_item in Hi.
  assert (push_typed_val buf 4 (len_of l) = buf ++ head (min_width (len_of l)) 4 (len_of l)) as Hh.
  { apply push_typed_val_head; [lia|]. unfold is_u64. pose proof (len_of_nonneg l). lia. }
  unfold push_json_array. cbn [json_text app match_char Z.eqb Pos.eqb negb] in Hf |- *.
  destruct l as [|x l]; [done|]. rewrite commas_tail, <- !(assoc_L app) in *. cbn [app] in *.
  apply Forall_cons in Hi as [Hx Hi]. apply Forall_cons in IH as [IHx IH].
  rewrite skip_wsp_text, match_char_item by (done || by left).
  cbn [length] in Hf. rewrite IHx; [|done| |lia].
  - cbn [mbind res_bind negb app]. rewrite length_app in Hf.
    rewrite (json_array_loop_items _ fuel); [|done| |lia..].
    + unfold to_cbor, array_header, cbor_magic_type_array. rewrite <- len_of_cons with (x := x), Hh.
      rewrite (wire_split (IArray _ _)). cbn [item_head item_body].
      by rewrite wires_cons, <- !(assoc_L app).
    + eapply (Forall_mp json_item); [done|]. eapply Forall_impl; [exact IH|]. cbn. auto.
  - apply tail_text_stop; [|by left]. apply Forall_replicate. by left.
Qed.

Lemma push_json_map_item P fuel w n l buf rest :
  json_item (IMap w n l) → Forall (λ i, json_item i → parses P fuel i) l →
  (length (json_text (IMap w n l) ++ rest) < S fuel)%nat →
  push_json_map P fuel buf (json_text (IMap w n l) ++ rest)
  = Ok (true, rest, buf ++ wire (IMap w n l)).
Proof.
  intros (-> & Hn & Hlen & Hi) IH Hf. apply foldr_json_item in Hi.
  assert (push_typed_val buf 5 n = buf ++ head (min_width n) 5 n) as Hh.
  { apply push_typed_val_head; [lia|]. unfold is_u64. lia. }
  unfold push_json_map. cbn [json_text app match_char Z.eqb Pos.eqb negb] in Hf |- *.
  destruct (decide (n = 0)) as [->|Hn0].
  { destruct l as [|x l]; [done|]. rewrite len_of_cons in Hlen. pose proof (len_of_nonneg l). lia. }
  destruct (pairs_tail (Z.to_nat (n - 1)) l) as (x & l' & seps & -> & Hseps & Hsl & Htl); [lia|].
  rewrite Htl, <- !(assoc_L app) in *. cbn [app] in *.
  apply Forall_cons in Hi as [Hx Hi]. apply Forall_cons in IH as [IHx IH].
  rewrite skip_wsp_text, match_char_item by (done || by right). rewrite len_of_cons in Hlen.
  cbn [length] in Hf. rewrite IHx; [|done| |lia].
  - cbn [mbind res_bind negb app]. rewrite length_app in Hf.
    assert (1 + len_of l' = n * 2) as Hc2 by lia.
    rewrite (json_map_loop_items _ fuel);
      [|done| |done|done|rewrite Hc2; by apply Z.mod_mul|lia..].
    + unfold to_cbor, map_header, cbor_magic_type_map. rewrite Hc2, Z.div_mul, Hh by lia.
      rewrite (wire_split (IMap _ _ _)). cbn [item_head item_body].
      by rewrite wires_cons, <- !(assoc_L app).
    + eapply (Forall_mp json_item); [done|]. eapply Forall_impl; [exact IH|]. cbn. auto.
  - apply tail_text_stop; [done|by right].
Qed.

(** The first character selects the branch of [push_json_value]. *)
Lemma push_json_value_branch fuel buf i t :
  json_item i →
  push_json_value_f (S fuel) buf (json_text i ++ t) =
  match i with
  | IUInt _ _ | INInt _ _ => Ok (push_json_number buf (json_text i ++ t))
  | IBytes _ _ | IText _ _ => Ok (push_json_qstring buf (json_text i ++ t))
  | IArray _ _ => push_json_array (push_json_value_f fuel) fuel buf (json_text i ++ t)
  | IMap _ _ _ => push_json_map (push_json_value_f fuel) fuel buf (json_text i ++ t)
  | ISpecial _ _ => Ok (push_json_keyword buf (json_text i ++ t))
  end.
Proof.
  intros Hi. cbn [push_json_value_f]. rewrite skip_wsp_text by done.
  destruct (json_text_first i Hi) as (c & u & Ht & Hc).
  rewrite Ht. cbn [app].
  destruct i; cbn [json_first] in Hc; destruct_or? Hc; subst; try done; by rewrite Hc.
Qed.

(** The parser on the text of an item, for every fuel above the characters
    left. *)
Lemma push_json_value_item i : json_item i →
  ∀ fuel, parses (push_json_value_f fuel) fuel i.
Proof.
  induction i as [w v|w v|w s|w s|w l IH|w n l IH|w v] using item_ind;
    intros Hi fuel buf rest Hs Hf; (destruct fuel as [|fuel]; [lia|]);
    rewrite push_json_value_branch by done.
  - destruct Hi as [-> Hv]. cbn [json_text]. rewrite push_json_int by (done || unfold is_s64; lia).
    assert (push_int buf v = buf ++ wire (IUInt (min_width v) v)) as ->; [|done].
    apply (push_wire buf (AInt v)); [cbn; unfold is_s64; lia|].
    cbn. by rewrite (proj2 (Z.ltb_ge v 0)) by lia.
  - destruct Hi as [-> Hv]. cbn [json_text]. unfold nint_value.
    rewrite (proj2 (Z.ltb_lt v (2 ^ 63))) by lia.
    rewrite push_json_int by (done || unfold is_s64; lia).
    assert (push_int buf (-1 - v) = buf ++ wire (INInt (min_width v) v)) as ->; [|done].
    apply (push_wire buf (AInt (-1 - v))); [cbn; unfold is_s64; lia|].
    cbn. rewrite (proj2 (Z.ltb_lt (-1 - v) 0)) by lia. by replace (- (-1 - v) - 1) with v by lia.
  - done.
  - destruct Hi as (-> & Hsafe & Hlen). cbn [json_text]. rewrite push_json_quoted by done.
    assert (push_string buf s = buf ++ wire (IText (min_width (len_of s)) s)) as ->; [|done].
    apply (push_wire buf (AString s)); [|done]. split; [|done].
    eapply Forall_impl; [exact Hsafe|]. unfold json_safe, is_byte. intros. lia.
  - apply push_json_array_item; [done| |done].
    eapply Forall_impl; [exact IH|]. cbn. auto.
  - apply push_json_map_item; [done| |done].
    eapply Forall_impl; [exact IH|]. cbn. auto.
  - destruct Hi as [-> Hv]. by rewrite push_json_special.
Qed.
