(* ===== verification/JsonText.v ===== *)
(** * The characters of JSON text

    What [to_json] prints is one line without control characters, whatever
    strings the message holds. *)
From S2P Require Import Prelude CborEncode Ieee CborDecode CborGrammar CborMatch CborMatchSpec CppText CborJson JsonSpec.

Definition text_char (c : Z) : Prop := 32 <= c < 256.
Abbreviation plain := (Forall text_char).

#[export] Instance text_char_dec c : Decision (text_char c).
Proof. unfold text_char. apply _. Defined.

Lemma plain_bytes t : plain t → bytes_ok t.
Proof. intros H. eapply Forall_impl; [exact H|]. unfold text_char, is_byte. intros. lia. Qed.

Lemma plain_one_line t : plain t → one_line t.
Proof. intros H Hi. rewrite Forall_forall in H. specialize (H _ Hi). unfold text_char in H. lia. Qed.

(** ** Numbers *)

Lemma digits_f_plain fuel n acc : plain acc → plain (digits_f fuel n acc).
Proof.
  revert n acc. induction fuel as [|fuel IH]; intros n acc Ha; cbn [digits_f]; [done|].
  assert (plain (digit_char (n mod 10) :: acc)) as H.
  { constructor; [|done]. unfold text_char, digit_char. pose proof (Z.mod_pos_bound n 10). lia. }
  destruct (n <? 10); [done|by apply IH].
Qed.

Lemma nat_text_plain n : plain (nat_text n).
Proof. by apply digits_f_plain. Qed.

Lemma int_text_plain v : plain (int_text v).
Proof. unfold int_text. destruct (v <? 0); [constructor; [by_decision|]|]; apply nat_text_plain. Qed.

Lemma shortest_plain fuel n bits k p q : plain (shortest_f fuel n bits k p q).1.
Proof.
  revert n. induction fuel as [|fuel IH]; intros n; cbn [shortest_f]; [apply nat_text_plain|].
  repeat case_match; try apply nat_text_plain; apply IH.
Qed.

Lemma exp_text_plain k : plain (exp_text k).
Proof.
  unfold exp_text. apply Forall_app; split; [destruct (k <? 0); by_decision|].
  apply Forall_app; split; [destruct (_ <? 10); by_decision|apply nat_text_plain].
Qed.

Lemma scientific_plain d k : plain d → plain (scientific d k).
Proof.
  intros Hd. pose proof (exp_text_plain k) as He. destruct Hd as [|c d Hc Hd]; cbn; [done|].
  destruct d as [|c' d]; constructor; try done. constructor; [by_decision|].
  by apply (Forall_app_2 _ (c' :: d)).
Qed.

Lemma fixed_plain d k p q : plain d → plain (fixed d k p q).
Proof.
  intros Hd. unfold fixed. repeat case_match; [apply nat_text_plain|..].
  - apply Forall_app_2; [by apply Forall_take|]. constructor; [by_decision|by apply Forall_drop].
  - apply Forall_app_2; [by_decision|]. apply Forall_app_2; [|done]. apply Forall_replicate. by_decision.
Qed.

Lemma float_text_plain v : plain (float_text v).
Proof.
  unfold float_text, float_to_json. destruct (negb (isfinite v)); [by_decision|].
  assert (plain (to_chars_double v)) as H.
  { unfold to_chars_double. destruct (unpack binary64 v) as [| |s m e]; try done.
    apply Forall_app_2; [destruct s; by_decision|]. destruct (m =? 0); [by_decision|].
    set (p := if 0 <=? e then _ else _). set (q := if 0 <=? e then _ else _).
    pose proof (shortest_plain 17 1 (v mod sign_bit binary64) (dec_exp p q) p q) as Hs.
    destruct (shortest_f _ _ _ _ _ _) as [d k]. case_match; [by apply fixed_plain|by apply scientific_plain]. }
  destruct (existsb _ _); [done|]. apply Forall_app_2; [done|by_decision].
Qed.

(** ** Strings, arrays and maps *)

Lemma json_char_plain c : is_byte c → plain (json_char c) ∧ (length (json_char c) <= 6)%nat.
Proof.
  intros Hc. assert (Forall (λ c, plain (json_char c) ∧ (length (json_char c) <= 6)%nat) (seqZ 0 256)) as H
    by by_decision.
  rewrite Forall_forall in H. apply H, elem_of_seqZ. unfold is_byte in Hc. lia.
Qed.

Lemma quoted_plain s : bytes_ok s → plain (quoted s) ∧ len_of (quoted s) <= 6 * len_of s + 2.
Proof.
  intros Hs. unfold quoted, len_of. rewrite !length_app. cbn [length].
  enough (plain (concat (json_char <$> s)) ∧ (length (concat (json_char <$> s)) <= 6 * length s)%nat) as [H1 H2].
  { split; [|lia]. apply Forall_app_2; [by_decision|]. apply Forall_app_2; [done|by_decision]. }
  induction Hs as [|c s Hc Hs IH]; cbn; [done|]. destruct IH as [IH1 IH2].
  destruct (json_char_plain c Hc) as [H1 H2]. rewrite length_app. split; [by apply Forall_app_2|lia].
Qed.

Lemma commas_plain ts : Forall (λ t, plain t) ts → plain (commas ts).
Proof.
  destruct 1 as [|t ts Ht Hts]; cbn; [done|]. apply Forall_app_2; [done|].
  induction Hts as [|t' ts Ht' Hts IH]; cbn; [done|]. constructor; [by_decision|by apply Forall_app_2].
Qed.

Lemma pair_texts_plain ts : Forall (λ t, plain t) ts → Forall (λ t, plain t) (pair_texts ts).
Proof.
  induction ts as [ts IH] using (induction_ltof1 _ (@length bytes)). unfold ltof in IH. intros H.
  destruct H as [|k ts Hk H]; [done|]. destruct H as [|v ts Hv H]; [done|]. cbn [pair_texts].
  constructor; [apply Forall_app_2; [done|]; by constructor; [by_decision|]|]. apply IH; [cbn; lia|done].
Qed.

(** The text of a well-formed message is plain. *)
Lemma json_text_plain i : item_ok i → plain (json_text i).
Proof.
  induction i as [w v|w v|w s|w s|w l IH|w n l IH|w v] using item_ind; intros Hi; cbn [json_text].
  1,2: apply int_text_plain.
  1,2: apply quoted_plain, Hi.
  - apply item_ok_array in Hi as [_ Hi]. apply Forall_app_2; [by_decision|].
    apply Forall_app_2; [|by_decision]. apply commas_plain, Forall_fmap. by eapply Forall_mp.
  - apply item_ok_map in Hi as (_ & _ & Hi). apply Forall_app_2; [by_decision|].
    apply Forall_app_2; [|by_decision]. apply commas_plain, pair_texts_plain, Forall_fmap. by eapply Forall_mp.
  - destruct w; try apply float_text_plain; [|done]. repeat case_match; by_decision.
Qed.
