(* ===== verification/JsonSound.v ===== *)
(** * What the JSON parser writes

    Whatever text [push_json_value] is given, it returns, it moves its iterator
    forward, and it either appends one well-formed CBOR item to the buffer or
    leaves the buffer alone. *)
From S2P Require Import Prelude CborEncode Ieee CborDecode CborGrammar CborMatch CborMatchSpec CppText CborJson JsonSpec.

(** ** Numbers stay in range *)

Lemma pack_range f s m e :
  format_ok f → 0 <= m → 0 <= pack f s m e < 2 * sign_bit f.
Proof.
  intros Hf Hm. pose proof (sign_bit_split f Hf) as Hs. destruct Hf as [Hmb Heb].
  pose proof (pow2_pos (mbits f)) as Hp. pose proof (pow2_pos (ebits f)) as Hpe.
  assert (0 <= inf_bits f < sign_bit f) as Hinf.
  { rewrite Hs. unfold inf_bits. nia. }
  unfold pack. set (mag := if m =? 0 then _ else _).
  assert (0 <= mag < sign_bit f); [|unfold with_sign; destruct s; lia].
  unfold mag. destruct (m =? 0); [lia|]. cbv zeta.
  set (ex := Z.max _ _). set (mant := if _ <=? _ then _ else _).
  assert (0 <= mant).
  { unfold mant. destruct (Z.leb_spec (ex - mbits f) e).
    - apply Z.mul_nonneg_nonneg; [lia|]. apply Z.pow_nonneg. lia.
    - unfold round_shift. assert (0 <= m / 2 ^ (ex - mbits f - e)).
      { apply Z.div_pos; [lia|]. apply pow2_pos. lia. }
      destruct (_ <? _); [lia|]. destruct (_ <? _); [lia|]. destruct (Z.even _); lia. }
  assert (0 <= ex - emin f) by lia. nia.
Qed.

Lemma digits_value_nonneg d : Forall (λ c, is_digit c = true) d → 0 <= digits_value d.
Proof.
  induction d as [|c d IH] using rev_ind; intros H; [done|].
  apply Forall_app in H as [Hd Hc]. apply Forall_cons in Hc as [Hc _].
  rewrite digits_value_app. apply andb_true_iff in Hc as [Hc _]. apply Z.leb_le in Hc.
  specialize (IH Hd). unfold digits_value at 2. cbn. lia.
Qed.

Lemma span_digits_spec s :
  Forall (λ c, is_digit c = true) (span_digits s).1 ∧ s = (span_digits s).1 ++ (span_digits s).2.
Proof.
  induction s as [|c s [IH1 IH2]]; cbn; [done|]. destruct (is_digit c) eqn:E; [|done].
  destruct (span_digits s) as [d r]. cbn in *. split; [by constructor|by rewrite <- IH2].
Qed.

Lemma round_decimal_range s m e v : 0 <= m → round_decimal s m e = Some v → is_u64 v.
Proof.
  intros Hm. unfold round_decimal, is_u64. destruct binary_formats_ok as (_ & _ & Hf).
  assert (2 * sign_bit binary64 = 2 ^ 64) as H64 by done.
  destruct (m =? 0). { intros [= <-]. destruct s; cbn; lia. }
  destruct (400 <? e); [done|]. destruct (_ <? -1500); [done|]. cbv zeta.
  intros H. destruct (orb _ _); [done|]. injection H as <-.
  destruct (Z.leb_spec 0 e).
  - rewrite <- H64. apply pack_range; [done|]. apply Z.mul_nonneg_nonneg; [done|].
    apply Z.pow_nonneg. lia.
  - unfold pack_ratio. cbv zeta. rewrite <- H64. apply pack_range; [done|].
    set (n := m * _). assert (0 <= n) by (apply Z.mul_nonneg_nonneg; [done|]; apply Z.pow_nonneg; lia).
    assert (0 <= n / 10 ^ (- e)) by (apply Z.div_pos; [done|]; apply Z.pow_pos_nonneg; lia).
    destruct (_ =? 0); lia.
Qed.

Lemma from_chars_double_range s v : from_chars_double s = Some v → is_u64 v.
Proof.
  unfold from_chars_double. destruct (match s with 45 :: _ => _ | _ => _ end) as [neg s1].
  destruct (span_digits s1) as [int s2] eqn:E1.
  destruct (match s2 with 46 :: _ => _ | _ => _ end) as [frac s3] eqn:E2.
  apply round_decimal_range, digits_value_nonneg, Forall_app. split.
  - pose proof (proj1 (span_digits_spec s1)) as H. by rewrite E1 in H.
  - assert (frac = [] ∨ ∃ s, frac = (span_digits s).1) as [->|[s' ->]]; [|constructor|apply span_digits_spec].
    repeat case_match; simplify_eq; try by left. right. exists l. by rewrite E2.
Qed.

Lemma from_chars_int64_range s v : from_chars_int64 s = Some v → is_s64 v.
Proof.
  unfold from_chars_int64. cbv zeta. destruct (bool_decide_reflect (is_s64
    match s with c :: ds => if c =? 45 then - digits_value ds else digits_value s | [] => 0 end));
    [|done]. by intros [= <-].
Qed.

(** ** One step of the parser *)

(** What the parser writes: a well-formed item that has a JSON form. *)
Definition writable (i : item) : Prop := item_ok i ∧ printable i.

Lemma writable_items l : Forall writable l ↔ Forall item_ok l ∧ Forall printable l.
Proof. apply Forall_and. Qed.

Lemma arg_printable a i : (∀ b, a ≠ ACbor b) → arg_item a i → printable i.
Proof.
  intros Hc. destruct a as [v|v|[]|v|v|v|b]; cbn; try by intros ->; cbn; auto.
  - destruct (v <? 0); by intros ->.
  - by destruct (Hc b).
Qed.

(** The result [(ok, b', buf')] of a parse of [b] onto [buf]. *)
Definition sound (buf b : bytes) (r : bool * bytes * bytes) : Prop :=
  let '(ok, b', buf') := r in
  b' `suffix_of` b ∧
  if ok : bool then (length b' < length b)%nat ∧ ∃ i, writable i ∧ buf' = buf ++ wire i
  else buf' = buf.

Lemma sound_fail buf b b' : b' `suffix_of` b → sound buf b (false, b', buf).
Proof. by split. Qed.

Lemma sound_push buf b b' a i :
  b' `suffix_of` b → (length b' < length b)%nat → arg_ok a → arg_item a i →
  (∀ c, a ≠ ACbor c) → sound buf b (true, b', push buf a).
Proof.
  intros Hs Hl Ha Hi Hc. split; [done|]. split; [done|]. exists i.
  split; [|by apply push_wire]. split; [by eapply arg_item_ok|by apply (arg_printable a)].
Qed.

Lemma sound_mono buf b c r : sound buf c r → c `suffix_of` b → sound buf b r.
Proof.
  destruct r as [[ok b'] buf']. intros [Hs Hr] Hc. split; [by etrans|].
  apply suffix_length in Hc. destruct ok; [|done]. destruct Hr. split; [lia|done].
Qed.

Lemma skip_wsp_suffix b : skip_wsp b `suffix_of` b.
Proof.
  induction b as [|c b IH]; cbn; [done|]. destruct (is_wsp c); [|done]. by apply suffix_cons_r.
Qed.

Lemma match_char_suffix c b :
  let '(ok, b') := match_char c b in b' `suffix_of` b ∧ (ok = true → (length b' < length b)%nat).
Proof.
  destruct b as [|x b]; cbn; [done|]. destruct (x =? c); [|done].
  split; [by apply suffix_cons_r|]. cbn. lia.
Qed.

Lemma match_digits_suffix b s :
  let '(ok, b', s') := match_digits b s in
  b' `suffix_of` b ∧ (ok = true → (length b' < length b)%nat).
Proof.
  unfold match_digits. pose proof (span_digits_spec b) as [_ H].
  destruct (span_digits b) as [d r]. cbn in H. subst b. split; [by exists d|].
  destruct d; [by rewrite bool_decide_true|]. cbn. rewrite length_app. lia.
Qed.

Lemma push_json_number_sound buf b : sound buf b (push_json_number buf b).
Proof.
  unfold push_json_number.
  pose proof (match_char_suffix 45 b) as H1. destruct (match_char 45 b) as [neg b1].
  destruct H1 as [H1 _].
  pose proof (match_digits_suffix b1 (if neg then [45] else [])) as H2.
  destruct (match_digits b1 _) as [[ok2 b2] s2]. destruct H2 as [H2 H2'].
  assert (b2 `suffix_of` b) as S2 by by etrans.
  destruct ok2; cbn [negb]; [|by apply sound_fail]. specialize (H2' eq_refl).
  pose proof (match_char_suffix 46 b2) as H3. destruct (match_char 46 b2) as [dot b3].
  destruct H3 as [H3 _].
  destruct (if dot then _ else _) as [[ok4 b4] s4] eqn:E4.
  assert (b4 `suffix_of` b3) as H4.
  { destruct dot; [|by simplify_eq]. pose proof (match_digits_suffix b3 (s2 ++ [46])) as H.
    rewrite E4 in H. apply H. }
  assert (b4 `suffix_of` b2) as S4 by by etrans.
  destruct ok4; cbn [negb]; [|apply sound_fail; by etrans].
  destruct (match b4 with [] => _ | _ => _ end) as [ex b5] eqn:E5.
  assert (b5 `suffix_of` b4) as H5.
  { destruct b4 as [|c b4]; simplify_eq; [done|]. destruct (_ || _); simplify_eq; [|done].
    by apply suffix_cons_r. }
  destruct (if ex then _ else _) as [[ok6 b6] s6] eqn:E6.
  assert (b6 `suffix_of` b5) as H6.
  { destruct ex; [|by simplify_eq].
    destruct (match b5 with [] => _ | _ => _ end) as [b7 s7] eqn:E7.
    pose proof (match_digits_suffix b7 s7) as H. rewrite E6 in H. etrans; [apply H|].
    destruct b5 as [|c b5]; simplify_eq; [done|]. destruct (_ || _); simplify_eq; [|done].
    by apply suffix_cons_r. }
  assert (b6 `suffix_of` b2) as S6 by (do 2 (etrans; [done|]); done).
  assert (b6 `suffix_of` b) as S6' by by etrans.
  apply suffix_length in S6. apply suffix_length in H1.
  destruct ok6; cbn [negb]; [|by apply sound_fail].
  destruct (_ <? _); [by apply sound_fail|]. destruct (dot || ex).
  - destruct (from_chars_double s6) as [v|] eqn:Ev; [|by apply sound_fail].
    eapply (sound_push _ _ _ (ADouble v)); [done|lia|by eapply from_chars_double_range|done|done].
  - destruct (from_chars_int64 s6) as [v|] eqn:Ev; [|by apply sound_fail].
    eapply (sound_push _ _ _ (AInt v)); [done|lia|by eapply from_chars_int64_range|done|done].
Qed.

Lemma match_literal_suffix lit b :
  let '(ok, b') := match_literal lit b in
  b' `suffix_of` b ∧ (ok = true → lit ≠ [] → (length b' < length b)%nat).
Proof.
  unfold match_literal.
  assert (∀ l i, i `suffix_of` b →
    let '(ok, b') := (fix go (lit i : bytes) :=
     match lit with
     | [] => (true, i)
     | c :: lit => let '(ok, i) := match_char c i in if ok then go lit i else (false, b)
     end) l i in
    b' `suffix_of` b ∧ (ok = true → (length b' + length l <= length i)%nat)) as H.
  { induction l as [|c l IH]; intros i Hi; [split; [done|cbn; lia]|].
    pose proof (match_char_suffix c i) as Hm. destruct (match_char c i) as [[] i']; [|done].
    destruct Hm as [Hs Hl]. specialize (IH i' ltac:(by etrans)). specialize (Hl eq_refl).
    destruct (_ l i') as [ok b']. destruct IH as [? IH]. split; [done|].
    intros Hok. specialize (IH Hok). cbn. lia. }
  specialize (H lit b ltac:(done)). destruct (_ lit b) as [ok b']. destruct H as [? H].
  split; [done|]. intros Hok Hne. specialize (H Hok). destruct lit; [done|]. cbn in H. lia.
Qed.

Lemma push_json_keyword_sound buf b : sound buf b (push_json_keyword buf b).
Proof.
  unfold push_json_keyword.
  pose proof (match_literal_suffix (str "false") b) as H. destruct (match_literal _ b) as [[] b1].
  { destruct H as [Hs Hl].
    by eapply (sound_push buf b b1 (ABool false)); [done|by apply Hl|done|..]. }
  destruct H as [S1 _]. eapply sound_mono; [|exact S1]. clear S1 b.
  pose proof (match_literal_suffix (str "true") b1) as H. destruct (match_literal _ b1) as [[] b2].
  { destruct H as [Hs Hl].
    by eapply (sound_push buf b1 b2 (ABool true)); [done|by apply Hl|done|..]. }
  destruct H as [S1 _]. eapply sound_mono; [|exact S1]. clear S1 b1.
  pose proof (match_literal_suffix (str "null") b2) as H. destruct (match_literal _ b2) as [[] b3].
  { destruct H as [Hs Hl]. split; [done|]. split; [by apply Hl|]. exists INull.
    split; [|done]. split; cbn; auto; lia. }
  apply sound_fail, H.
Qed.

Lemma qstring_loop_suffix b : bytes_ok b → ∀ s, bytes_ok s →
  let '(ok, b', s') := qstring_loop s b in
  b' `suffix_of` b ∧ bytes_ok s' ∧ (length s' <= length s + length b)%nat ∧
  (ok = true → (length b' < length b)%nat).
Proof.
  induction b as [b IH] using (induction_ltof1 _ (@length Z)). unfold ltof in IH.
  intros Hb s Hs. destruct b as [|c b]; [cbn; split_and!; [done|done|lia|done]|].
  apply Forall_cons in Hb as [Hc Hb]. cbn [qstring_loop].
  destruct (c =? 92).
  - destruct b as [|x b]; [cbn; split_and!; [by apply suffix_cons_r|done|lia|done]|].
    apply Forall_cons in Hb as [Hx Hb].
    specialize (IH b ltac:(cbn; lia) Hb (s ++ [unescape x])).
    destruct (qstring_loop _ b) as [[ok b'] s']. destruct IH as (H1 & H2 & H3 & H4).
    + apply Forall_app. split; [done|]. constructor; [|done]. unfold unescape.
      destruct (_ =? _); [unfold is_byte; lia|]. destruct (_ =? _); [unfold is_byte; lia|].
      destruct (_ =? _); [unfold is_byte; lia|]. destruct (_ =? _); [unfold is_byte; lia|].
      destruct (_ =? _); [unfold is_byte; lia|done].
    + rewrite length_app in H3. cbn [length] in *. split_and!; [by do 2 apply suffix_cons_r|done|lia|].
      intros Hok. specialize (H4 Hok). lia.
  - destruct (c =? 34); [cbn; split_and!; [by apply suffix_cons_r|done|lia|lia]|].
    specialize (IH b ltac:(cbn; lia) Hb (s ++ [c])).
    destruct (qstring_loop _ b) as [[ok b'] s']. destruct IH as (H1 & H2 & H3 & H4).
    + apply Forall_app. by split; [|constructor].
    + rewrite length_app in H3. cbn [length] in *. split_and!; [by apply suffix_cons_r|done|lia|].
      intros Hok. specialize (H4 Hok). lia.
Qed.

Lemma scan_json_qstring_spec b s r :
  scan_json_qstring b = Some (Some (s, r)) → b = s ++ 34 :: r.
Proof.
  revert s. induction b as [|c b IH]; intros s; cbn; [done|]. destruct (c =? 92); [done|].
  destruct (Z.eqb_spec c 34) as [->|]; [by intros [= <- <-]|].
  destruct (scan_json_qstring b) as [[[s' r']|]|]; intros [= <- <-]. by rewrite (IH s').
Qed.

Lemma push_json_qstring_slow_sound buf b :
  bytes_ok b → len_of b < 2 ^ 63 → sound buf b (push_json_qstring_slow buf b).
Proof.
  intros Hb Hl. unfold push_json_qstring_slow.
  destruct b as [|c b]; cbn [match_char]; [by apply sound_fail|].
  destruct (c =? 34); cbn [negb]; [|by apply sound_fail].
  apply Forall_cons in Hb as [_ Hb]. pose proof (qstring_loop_suffix b Hb [] ltac:(done)) as H.
  destruct (qstring_loop [] b) as [[ok b'] s]. destruct H as (Hs & Hok & Hls & Hlt).
  destruct ok; [|by apply sound_fail, suffix_cons_r]. specialize (Hlt eq_refl).
  rewrite len_of_cons in Hl. unfold len_of in Hl. cbn [length] in Hls.
  eapply (sound_push _ _ _ (AString s)); [by apply suffix_cons_r|cbn; lia| |done|done].
  split; [done|lia].
Qed.

Lemma push_json_qstring_sound buf b :
  bytes_ok b → len_of b < 2 ^ 63 → sound buf b (push_json_qstring buf b).
Proof.
  intros Hb Hl. unfold push_json_qstring.
  destruct (match_char 34 b) as [ok sb] eqn:E. destruct ok; cbn [negb]; [|by apply sound_fail].
  destruct b as [|c b]; [done|]. cbn [match_char] in E. destruct (c =? 34); [|done].
  injection E as <-.
  destruct (scan_json_qstring b) as [[[s r]|]|] eqn:Es.
  - apply scan_json_qstring_spec in Es as ->. apply Forall_cons in Hb as [_ Hb].
    apply Forall_app in Hb as [Hb _]. rewrite len_of_cons in Hl.
    unfold len_of in Hl. rewrite length_app in Hl. cbn [length] in Hl.
    eapply (sound_push _ _ _ (AString s)); [| |split; [done|lia]|done|done].
    + exists (c :: s ++ [34]). cbn. by rewrite <- (assoc_L app).
    + cbn. rewrite length_app. cbn. lia.
  - by apply push_json_qstring_slow_sound.
  - by apply sound_fail.
Qed.

(** ** Arrays and maps *)

Lemma array_wire_sound buf l :
  Forall writable l → len_of l < 2 ^ 64 →
  ∃ i, writable i ∧ to_cbor (wires l) (array_header buf (len_of l)) = buf ++ wire i.
Proof.
  intros [Hl Hp]%writable_items Hn. pose proof (len_of_nonneg l). assert (is_u64 (len_of l)) as Hu by (split; lia).
  exists (IArray (min_width (len_of l)) l). split.
  - split; [|by apply foldr_printable]. apply item_ok_array. split; [by apply min_width_bound|done].
  - unfold to_cbor, array_header, cbor_magic_type_array. rewrite push_typed_val_head by (done || lia).
    rewrite (wire_split (IArray _ _)). cbn [item_head item_body]. by rewrite <- (assoc_L app).
Qed.

Lemma map_wire_sound buf l n :
  Forall writable l → len_of l = n * 2 → len_of l < 2 ^ 64 →
  ∃ i, writable i ∧ to_cbor (wires l) (map_header buf n) = buf ++ wire i.
Proof.
  intros [Hl Hp]%writable_items Hn Hb. pose proof (len_of_nonneg l). assert (is_u64 n) as Hu by (split; lia).
  exists (IMap (min_width n) n l). split.
  - split; [|split; [lia|by apply foldr_printable]]. apply item_ok_map. split; [split; [lia|by apply min_width_bound]|]. split; [|done].
    rewrite Hn. by rewrite u64_small by (split; lia).
  - unfold to_cbor, map_header, cbor_magic_type_map. rewrite push_typed_val_head by (done || lia).
    rewrite (wire_split (IMap _ _ _)). cbn [item_head item_body]. by rewrite <- (assoc_L app).
Qed.

Section loops.
Context (P : bytes → bytes → parsed) (bound : nat).
Context (HP : ∀ buf b, bytes_ok b → len_of b < 2 ^ 63 → (length b < bound)%nat →
              ∃ r, P buf b = Ok r ∧ sound buf b r).

(** What the loops have read so far. *)
Definition loop_ok (l : list item) (b : bytes) : Prop :=
  Forall writable l ∧ bytes_ok b ∧ len_of l + len_of b < 2 ^ 63 ∧ (length b < bound)%nat.

Lemma loop_ok_suffix l b b' : loop_ok l b → b' `suffix_of` b → loop_ok l b'.
Proof.
  intros (? & Hb & ? & ?) Hs. pose proof (suffix_length _ _ Hs) as Hl.
  destruct Hs as [k ->]. apply Forall_app in Hb as [_ Hb].
  unfold loop_ok, len_of in *. split_and!; [done..|lia|lia].
Qed.

(** A value read by the loop. *)
Lemma loop_value l b :
  loop_ok l b →
  ∃ ok b' inner, P (wires l) b = Ok (ok, b', inner) ∧ b' `suffix_of` b ∧
    if (ok : bool) then (length b' < length b)%nat ∧
      ∃ l', inner = wires l' ∧ len_of l' = len_of l + 1 ∧ loop_ok l' b'
    else True.
Proof.
  intros Hok. pose proof Hok as (Hl & Hb & Hn & Hlt). pose proof (len_of_nonneg l).
  destruct (HP (wires l) b) as ([[ok b'] inner] & HPe & Hs & Hr); [done|lia|done|].
  exists ok, b', inner. split_and!; [done..|]. destruct ok; [|done].
  destruct Hr as (Hlen & i & Hi & ->). split; [done|]. exists (l ++ [i]). split_and!.
  - rewrite wires_app. cbn. by rewrite app_nil_r.
  - unfold len_of. rewrite length_app. cbn. lia.
  - destruct (loop_ok_suffix _ _ _ Hok Hs) as (_ & Hb' & _ & Hlt').
    split_and!; [apply Forall_app; by split; [|constructor]|done| |done].
    unfold len_of in *. rewrite length_app. cbn. lia.
Qed.

(** The result of a loop that reads behind [b]. *)
Definition loop_sound (buf b : bytes) (p : parsed) : Prop := ∃ r, p = Ok r ∧ sound buf b r.

Lemma loop_sound_mono buf b c p : loop_sound buf c p → c `suffix_of` b → loop_sound buf b p.
Proof. intros (r & -> & Hr) Hs. exists r. split; [done|]. by eapply sound_mono. Qed.

Lemma json_array_loop_sound fuel : ∀ buf l b,
  loop_ok l b → (length b < fuel)%nat →
  loop_sound buf b (json_array_loop P fuel buf (wires l) (len_of l) b).
Proof.
  induction fuel as [|fuel IH]; intros buf l b Hok Hf; [lia|]. cbn [json_array_loop].
  pose proof (skip_wsp_suffix b) as Hw. eapply loop_sound_mono; [|exact Hw].
  pose proof (suffix_length _ _ Hw) as Hwl. pose proof (loop_ok_suffix _ _ _ Hok Hw) as Hok'.
  clear Hok Hw. destruct (skip_wsp b) as [|c b']; [eexists; split; [done|by apply sound_fail]|].
  assert (b' `suffix_of` c :: b') as Hb' by by apply suffix_cons_r.
  cbn [length] in Hwl. destruct (c =? 44).
  { pose proof (skip_wsp_suffix b') as Hs. pose proof (suffix_length _ _ Hs).
    assert (skip_wsp b' `suffix_of` c :: b') by by etrans.
    eapply loop_sound_mono; [apply IH; [by eapply loop_ok_suffix|lia]|done]. }
  destruct (c =? 93).
  { destruct Hok' as (Hl & _ & Hn & _). pose proof (len_of_nonneg (c :: b')).
    destruct (array_wire_sound buf l) as (i & Hi & Hw); [done|lia|].
    eexists. split; [done|]. split; [done|]. split; [cbn; lia|]. by exists i. }
  destruct (loop_value l (c :: b')) as (ok & b2 & inner & -> & Hs & Hr); [done|].
  cbn [mbind res_bind]. destruct ok; cbn [negb]; [|eexists; split; [done|by apply sound_fail]].
  destruct Hr as (Hlt & l' & -> & <- & Hok2). cbn [length] in Hlt.
  eapply loop_sound_mono; [apply IH; [done|lia]|done].
Qed.

Lemma json_map_loop_sound fuel : ∀ buf l b,
  loop_ok l b → (length b < fuel)%nat →
  loop_sound buf b (json_map_loop P fuel buf (wires l) (len_of l) b).
Proof.
  induction fuel as [|fuel IH]; intros buf l b Hok Hf; [lia|]. cbn [json_map_loop].
  pose proof (skip_wsp_suffix b) as Hw. eapply loop_sound_mono; [|exact Hw].
  pose proof (suffix_length _ _ Hw) as Hwl. pose proof (loop_ok_suffix _ _ _ Hok Hw) as Hok'.
  clear Hok Hw. destruct (skip_wsp b) as [|c b']; [eexists; split; [done|by apply sound_fail]|].
  assert (b' `suffix_of` c :: b') as Hb' by by apply suffix_cons_r.
  cbn [length] in Hwl. destruct (_ || _).
  { pose proof (skip_wsp_suffix b') as Hs. pose proof (suffix_length _ _ Hs).
    assert (skip_wsp b' `suffix_of` c :: b') by by etrans.
    eapply loop_sound_mono; [apply IH; [by eapply loop_ok_suffix|lia]|done]. }
  destruct (c =? 125).
  { destruct (Z.eqb_spec (len_of l mod 2) 0) as [Hm|]; cbn [negb];
      [|eexists; split; [done|by apply sound_fail]].
    destruct Hok' as (Hl & _ & Hn & _). pose proof (len_of_nonneg (c :: b')).
    destruct (map_wire_sound buf l (len_of l / 2)) as (i & Hi & Hw);
      [done|pose proof (Z.div_mod (len_of l) 2); lia|lia|].
    eexists. split; [done|]. split; [done|]. split; [cbn; lia|]. by exists i. }
  destruct (loop_value l (c :: b')) as (ok & b2 & inner & -> & Hs & Hr); [done|].
  cbn [mbind res_bind]. destruct ok; cbn [negb]; [|eexists; split; [done|by apply sound_fail]].
  destruct Hr as (Hlt & l' & -> & <- & Hok2). cbn [length] in Hlt.
  eapply loop_sound_mono; [apply IH; [done|lia]|done].
Qed.

(** [push_json_array] and [push_json_map] up to their loops. *)
Lemma push_json_brackets (open close : Z) (empty : bytes → bytes)
    (loop : nat → bytes → bytes → Z → bytes → parsed) buf b :
  (∀ buf, ∃ i, writable i ∧ empty buf = buf ++ wire i) →
  (∀ buf l b, loop_ok l b → (length b < bound)%nat →
     loop_sound buf b (loop bound buf (wires l) (len_of l) b)) →
  bytes_ok b → len_of b < 2 ^ 63 → (length b < S bound)%nat →
  loop_sound buf b
    (let '(ok, b) := match_char open b in
     if negb ok then Ok (false, b, buf) else
     let b := skip_wsp b in
     let '(ok, b) := match_char close b in
     if ok then Ok (true, b, empty buf) else
     '(ok, b, inner) ← P [] b;
     if negb ok then Ok (false, b, buf) else loop bound buf inner 1 b).
Proof.
  intros He HL Hb Hn Hf. pose proof (match_char_suffix open b) as H1.
  destruct (match_char open b) as [ok1 b1]. destruct H1 as [S1 L1].
  destruct ok1; cbn [negb]; [|eexists; split; [done|by apply sound_fail]].
  specialize (L1 eq_refl). pose proof (skip_wsp_suffix b1) as S2. cbv zeta.
  pose proof (match_char_suffix close (skip_wsp b1)) as H3.
  destruct (match_char close (skip_wsp b1)) as [ok3 b3]. destruct H3 as [S3 _].
  assert (b3 `suffix_of` b1) as S13 by by etrans. pose proof (suffix_length _ _ S13) as L13.
  destruct ok3.
  { destruct (He buf) as (i & Hi & ->). eexists. split; [done|].
    split; [by etrans|]. split; [lia|]. by exists i. }
  assert (b3 `suffix_of` b) as S3b by by etrans.
  assert (loop_ok [] b3) as Hok3.
  { destruct S3b as [k ->]. apply Forall_app in Hb as [_ Hb]. unfold len_of in *.
    rewrite length_app in *. unfold loop_ok, len_of. cbn [length].
    split_and!; [by constructor|done|lia|lia]. }
  destruct (loop_value [] b3 Hok3) as (ok & b4 & inner & Hp & S4 & Hr).
  change (wires []) with ([] : bytes) in Hp. rewrite Hp. cbn [mbind res_bind].
  destruct ok; cbn [negb]; [|eexists; split; [done|apply sound_fail; by etrans]].
  destruct Hr as (Hlt & l' & -> & Hl' & Hok4). change (len_of [] + 1) with 1 in Hl'.
  rewrite <- Hl'. eapply loop_sound_mono; [apply HL; [done|lia]|by etrans].
Qed.
End loops.

Lemma push_json_value_sound fuel : ∀ buf b,
  bytes_ok b → len_of b < 2 ^ 63 → (length b < fuel)%nat →
  ∃ r, push_json_value_f fuel buf b = Ok r ∧ sound buf b r.
Proof.
  induction fuel as [|fuel IH]; intros buf b Hb Hn Hf; [lia|]. cbn [push_json_value_f].
  pose proof (skip_wsp_suffix b) as Hw. change (loop_sound buf b
    (let b := skip_wsp b in match b with [] => Ok (false, b, buf) | c :: _ =>
      if is_digit c || (c =? 45) then Ok (push_json_number buf b)
      else if (97 <=? c) && (c <=? 122) then Ok (push_json_keyword buf b)
      else if c =? 34 then Ok (push_json_qstring buf b)
      else if c =? 91 then push_json_array (push_json_value_f fuel) fuel buf b
      else if c =? 123 then push_json_map (push_json_value_f fuel) fuel buf b
      else Ok (false, b, buf) end)).
  cbv zeta. eapply loop_sound_mono; [|exact Hw].
  assert (bytes_ok (skip_wsp b) ∧ len_of (skip_wsp b) < 2 ^ 63 ∧ (length (skip_wsp b) < S fuel)%nat)
    as (Hb' & Hn' & Hf').
  { destruct Hw as [k Hk]. rewrite Hk in Hb, Hn, Hf. apply Forall_app in Hb as [_ Hb].
    unfold len_of in *. rewrite length_app in *. split_and!; [done|lia|lia]. }
  destruct (skip_wsp b) as [|c b']; [eexists; split; [done|by apply sound_fail]|].
  set (b2 := c :: b') in *.
  destruct (_ || _); [eexists; split; [done|apply push_json_number_sound]|].
  destruct (_ && _); [eexists; split; [done|apply push_json_keyword_sound]|].
  destruct (c =? 34); [eexists; split; [done|by apply push_json_qstring_sound]|].
  destruct (c =? 91).
  { apply (push_json_brackets _ fuel IH 91 93 (λ buf, array_header buf 0)
      (json_array_loop (push_json_value_f fuel))); [| |done..].
    - intros buf'. destruct (array_wire_sound buf' []) as (i & Hi & Hw'); [constructor|done|].
      exists i. split; [done|]. rewrite <- Hw'. symmetry. apply app_nil_r.
    - intros. by apply (json_array_loop_sound _ fuel IH). }
  destruct (c =? 123); [|eexists; split; [done|by apply sound_fail]].
  apply (push_json_brackets _ fuel IH 123 125 (λ buf, map_header buf 0)
    (json_map_loop (push_json_value_f fuel))); [| |done..].
  - intros buf'. destruct (map_wire_sound buf' [] 0) as (i & Hi & Hw'); [constructor|done..|].
    exists i. split; [done|]. rewrite <- Hw'. symmetry. apply app_nil_r.
  - intros. by apply (json_map_loop_sound _ fuel IH).
Qed.
