(* ===== verification/JsonTheorems.v ===== *)
(** * What the JSON layer guarantees, as theorems

    Printing follows the syntax tree of the message, parsing writes well-formed
    CBOR, and the two are inverse on what the parser writes, control characters
    apart. *)
From S2P Require Import Prelude CborEncode Ieee CborDecode CborGrammar CborMatch CborMatchSpec CppText CborJson JsonSpec JsonSound.

(** ** Termination of the printer *)

(** A printer that never runs out of fuel and moves forward. *)
Definition print_progress (b : bytes) (p : printed) : Prop :=
  match p.2 with
  | Ok b' => (length b' < length b)%nat
  | Throw e => e ≠ out_of_fuel
  end.

(** The loops may read nothing at all. *)
Definition print_weak (b : bytes) (p : printed) : Prop :=
  match p.2 with
  | Ok b' => (length b' <= length b)%nat
  | Throw e => e ≠ out_of_fuel
  end.

Lemma print_weak_mono b c p : print_weak b p → (length b <= length c)%nat → print_weak c p.
Proof. unfold print_weak. destruct (p.2); [lia|done]. Qed.

Section loops.
Context (P : bytes → bytes → printed) (bound : nat).
Context (HP : ∀ ss b, (length b < bound)%nat → print_progress b (P ss b)).

Lemma print_array_progress fuel : ∀ i ss b,
  (length b < fuel)%nat → (length b < bound)%nat → print_weak b (print_array P fuel i ss b).
Proof.
  induction fuel as [|fuel IH]; intros i ss b Hf Hb; [lia|]. cbn [print_array].
  destruct (i =? 0); [unfold print_weak; cbn; lia|].
  pose proof (HP ss b Hb) as H. destruct (P ss b) as [ss' [b'|e]]; cbn in H |- *; [|done].
  eapply print_weak_mono; [apply IH|]; lia.
Qed.

Lemma print_map_progress fuel : ∀ i ss b,
  (length b < fuel)%nat → (length b < bound)%nat → print_weak b (print_map P fuel i ss b).
Proof.
  induction fuel as [|fuel IH]; intros i ss b Hf Hb; [lia|]. cbn [print_map].
  destruct (i =? 0); [unfold print_weak; cbn; lia|].
  pose proof (HP ss b Hb) as H. destruct (P ss b) as [ss' [b'|e]]; cbn in H |- *; [|done].
  pose proof (HP (ss' ++ [58]) b' ltac:(lia)) as H'.
  destruct (P (ss' ++ [58]) b') as [ss2 [b2|e]]; cbn in H' |- *; [|done].
  eapply print_weak_mono; [apply IH|]; lia.
Qed.
End loops.

(** A decoder that never runs out of fuel and never moves back. *)
Definition reads {A} (b : bytes) (m : res (A * bytes)) : Prop :=
  match m with
  | Ok (_, b') => (length b' <= length b)%nat
  | Throw e => e ≠ out_of_fuel
  end.

Lemma reads_intro {A} b (m : res (A * bytes)) :
  no_fuel m → (∀ a b', m = Ok (a, b') → (length b' <= length b)%nat) → reads b m.
Proof. destruct m as [[a b']|e]; cbn; [eauto|]. intros H _ ->. by apply H. Qed.

Lemma reads_bind {A B} b (m : res (A * bytes)) (f : A → bytes → res (B * bytes)) :
  reads b m → (∀ a b', (length b' <= length b)%nat → reads b (f a b')) →
  reads b ('(a, b') ← m; f a b').
Proof. destruct m as [[a b']|e]; cbn; auto. Qed.

Lemma reads_mono {A} b c (m : res (A * bytes)) :
  reads c m → (length c <= length b)%nat → reads b m.
Proof. destruct m as [[a b']|e]; cbn; [lia|done]. Qed.

Lemma decode_pint_reads m b : reads b (decode_pint m b).
Proof. apply reads_intro; [apply domain_no_fuel, decode_pint_domain|apply decode_pint_length]. Qed.

Lemma decode_nint_reads m b : reads b (decode_nint m b).
Proof. apply reads_bind; [apply decode_pint_reads|done]. Qed.

Lemma decode_string_reads m b : reads b (decode_string m b).
Proof.
  apply reads_bind; [apply decode_pint_reads|]. intros v c Hc. eapply reads_mono; [|exact Hc].
  apply reads_intro; [apply domain_no_fuel, advance_domain|apply advance_length].
Qed.

Lemma decode_float_reads type b : reads b (decode_float type b).
Proof.
  assert (∀ n, reads b (decode_int_length n b)) as H.
  { intros n. apply reads_intro; [apply domain_no_fuel, decode_recurse_domain|].
    intros v c Hc. apply decode_recurse_length in Hc. lia. }
  unfold decode_float. repeat case_match; try done; (apply reads_bind; [apply H|done]).
Qed.

(** A value printed behind its type octet. *)
Lemma print_reads {A} x ss b (m : res (A * bytes)) (k : A → bytes → printed) :
  reads b m → (∀ a b', (length b' <= length b)%nat → print_weak b (k a b')) →
  print_progress (x :: b) (print_with ss m (λ '(a, b), k a b)).
Proof.
  unfold print_progress, print_weak. destruct m as [[a b']|e]; cbn; [|done].
  intros Hm Hk. specialize (Hk a b' Hm). destruct ((k a b').2); [lia|done].
Qed.

Lemma print_close b c p close :
  print_weak c p → (length c <= length b)%nat →
  print_weak b (print_then p (λ ss b, (ss ++ [close], Ok b))).
Proof. unfold print_weak. destruct p as [ss [b'|e]]; cbn; [lia|done]. Qed.

Lemma to_json_stream_progress fuel : ∀ ss b,
  (length b < fuel)%nat → print_progress b (to_json_stream_f fuel ss b).
Proof.
  induction fuel as [|fuel IH]; intros ss b Hf; [lia|]. cbn [to_json_stream_f].
  destruct b as [|x b]; [done|]. cbn [length] in Hf. cbn [decode_type print_with].
  assert (∀ (p : printed), print_weak b p → print_progress (x :: b) p) as Hweak.
  { intros [ss' [b'|e]]; unfold print_weak, print_progress; cbn; [lia|done]. }
  repeat case_match; try done;
    try (apply print_reads; [apply decode_pint_reads || apply decode_nint_reads ||
                             apply decode_string_reads || apply decode_float_reads|]);
    try (by intros); try (apply Hweak; unfold print_weak; cbn; lia).
  - intros n c Hc. eapply print_close; [apply (print_map_progress _ fuel IH)|]; lia.
  - intros n c Hc. eapply print_close; [apply (print_array_progress _ fuel IH)|]; lia.
Qed.

(** ** The theorems *)

(** Whatever octets it is given, [to_json] returns a text or throws an
    exception of the code: the recursion into nested values ends within one
    unit of fuel per octet and one more, also when a head announces more
    values than there are octets. *)
Theorem to_json_terminates b : to_json b ≠ Throw out_of_fuel.
Proof.
  unfold to_json, to_json_stream.
  pose proof (to_json_stream_progress (S (length b)) [] b ltac:(lia)) as H.
  unfold print_progress in H. destruct (to_json_stream_f _ _ _) as [ss [b'|[]]]; cbn in H; done.
Qed.

(** C29: [to_json] of a message is the text [json_text] of its syntax tree,
    whatever follows the message in the buffer: heads of any width print the
    same, arrays and maps print their values in order, strings are escaped,
    doubles print in their shortest form.  [printable] leaves out what the code
    rejects: simple values that have no JSON form. *)
Theorem to_json_refines_items i rest :
  item_ok i → printable i → bytes_ok rest → to_json (wire i ++ rest) = Ok (json_text i).
Proof. apply to_json_text. Qed.

Lemma to_json_refines_items_witness :
  to_json (wire (IMap W0 1 [IText W0 (str "k"); IArray W1 [INInt W0 4; ISpecial W0 22]]) ++ [0])
  = Ok (json_text (IMap W0 1 [IText W0 (str "k"); IArray W1 [INInt W0 4; ISpecial W0 22]])).
Proof.
  apply to_json_refines_items; [by_decision| |by_decision]. cbn. split_and!; auto. lia.
Defined.

Lemma push_json_result buf s :
  bytes_ok s → len_of s < 2 ^ 63 →
  (∃ i, item_ok i ∧ printable i ∧ push_json buf s = Ok (buf ++ wire i)) ∨
  (∃ pos, 0 <= pos <= len_of s ∧
    push_json buf s = Throw (domain_error
      (str "invalid json value at pos " ++ int_text pos ++ str " in: " ++ s))).
Proof.
  intros Hs Hn. unfold push_json, push_json_value.
  destruct (push_json_value_sound (S (length s)) buf s) as ([[ok b] buf'] & -> & Hsuf & Hr);
    [done|done|lia|]. cbn [mbind res_bind]. destruct ok; cbn [negb].
  - left. destruct Hr as (_ & i & [Hi Hp] & ->). by exists i.
  - right. eexists. split; [|reflexivity]. apply suffix_length in Hsuf. unfold len_of. lia.
Qed.

(** C5: whatever text it is given, [push_json] returns with one well-formed CBOR item
    that [to_json] can print appended to the buffer, or throws the exception that names
    the position; it terminates on nested and on unbalanced input. *)
Theorem push_json_writes_items buf s :
  bytes_ok s → len_of s < 2 ^ 63 →
  (∃ i, item_ok i ∧ printable i ∧ push_json buf s = Ok (buf ++ wire i)) ∨
  (∃ pos, 0 <= pos <= len_of s ∧
    push_json buf s = Throw (domain_error
      (str "invalid json value at pos " ++ int_text pos ++ str " in: " ++ s))).
Proof. apply push_json_result. Qed.

Lemma push_json_writes_items_witness :
  (∃ i, item_ok i ∧ printable i ∧ push_json [] (str "[1,{}") = Ok ([] ++ wire i)) ∨
  (∃ pos, 0 <= pos <= len_of (str "[1,{}") ∧
    push_json [] (str "[1,{}") = Throw (domain_error
      (str "invalid json value at pos " ++ int_text pos ++ str " in: " ++ str "[1,{}"))).
Proof. apply push_json_writes_items; by_decision. Defined.

(** Items the parser writes can be printed. *)
Lemma json_item_ok i : json_item i → item_ok i ∧ printable i.
Proof.
  induction i as [w v|w v|w s|w s|w l IH|w n l IH|w v] using item_ind; cbn [json_item].
  - intros [-> ?]. split; [|done]. split; [|done]. split; [lia|]. apply min_width_bound. split; lia.
  - intros [-> ?]. split; [|done]. split; [|done]. split; [lia|]. apply min_width_bound. split; lia.
  - done.
  - intros (-> & Hs & Hl). split; [|done]. pose proof (len_of_nonneg s). split.
    + split; [lia|]. apply min_width_bound. split; lia.
    + eapply Forall_impl; [exact Hs|]. unfold json_safe, is_byte. intros. lia.
  - intros (-> & Hl & Hi). apply foldr_json_item in Hi. pose proof (len_of_nonneg l).
    assert (Forall (λ x, item_ok x ∧ printable x) l) as H' by by eapply Forall_mp.
    apply Forall_and in H' as [Hok Hp]. split; [|by apply foldr_printable].
    apply item_ok_array. split; [apply min_width_bound; split; lia|done].
  - intros (-> & Hn & Hl & Hi). apply foldr_json_item in Hi.
    assert (Forall (λ x, item_ok x ∧ printable x) l) as H' by by eapply Forall_mp.
    apply Forall_and in H' as [Hok Hp]. split; [|split; [lia|by apply foldr_printable]].
    apply item_ok_map. split_and!; [lia|apply min_width_bound; split; lia| |done].
    rewrite u64_small by (split; lia). lia.
  - intros [-> Hv]. split; [cbn; lia|done].
Qed.

(** C4: printing and then parsing gives back the same octets, for the items that
    [json_item] describes: integers in the [int64_t] range, strings whose octets are
    at least 32 or are one of backspace, form feed, line feed, carriage return and
    tab, booleans, null, and arrays and maps of such items nested to any depth, each
    with the shortest head.  Items with a double, an octet string, or a string with
    any other control character are outside the claim, though the parser writes
    doubles and such strings too. *)
Theorem json_roundtrip i buf :
  json_item i → ∃ t, to_json (wire i) = Ok t ∧ push_json buf t = Ok (buf ++ wire i).
Proof.
  intros Hi. destruct (json_item_ok i Hi) as [Hok Hp]. exists (json_text i). split.
  - rewrite <- (app_nil_r (wire i)). by apply to_json_text.
  - unfold push_json, push_json_value.
    pose proof (push_json_value_item i Hi (S (length (json_text i))) buf []) as H.
    rewrite app_nil_r in H. by rewrite H by (done || lia).
Qed.

Lemma json_roundtrip_witness :
  let i := IArray W0 [IText W0 (str "a" ++ [10; 34]); INInt W1 41; IMap W0 1 [IText W0 []; INull]] in
  ∃ t, to_json (wire i) = Ok t ∧ push_json [] t = Ok ([] ++ wire i).
Proof.
  apply json_roundtrip. cbn. split_and!; try done; try lia; auto.
  by_decision.
Defined.

(** A control character without an escape of its own is printed as
    [\u00XX], an escape the parser does not know: it drops the backslash, so
    the one character comes back as the five characters [u00XX]. *)
Theorem json_control_lost c :
  0 <= c < 32 → ¬ json_safe c →
  ∃ t, to_json (wire (IText W0 [c])) = Ok t ∧
       push_json [] t = Ok (wire (IText W0 (str "u00" ++ [hex_digit (c / 16); hex_digit (c mod 16)]))).
Proof.
  intros Hc Hs. exists (quoted [c]). split.
  { rewrite <- (app_nil_r (wire _)). apply (to_json_text (IText W0 [c])); [|done|done].
    split; [done|]. constructor; [unfold is_byte; lia|constructor]. }
  assert (Forall (λ c, json_safe c ∨ push_json [] (quoted [c])
    = Ok (wire (IText W0 (str "u00" ++ [hex_digit (c / 16); hex_digit (c mod 16)])))) (seqZ 0 32)) as H.
  { by_decision. }
  rewrite Forall_forall in H. destruct (H c) as [H'|H']; [|done|done].
  apply elem_of_seqZ. lia.
Qed.

Lemma json_control_lost_witness :
  ∃ t, to_json (wire (IText W0 [1])) = Ok t ∧ push_json [] t = Ok (wire (IText W0 (str "u0001"))).
Proof. apply (json_control_lost 1); [lia|]. unfold json_safe. lia. Defined.
