(* ===== verification/Env.v ===== *)
(** * Handles and environments

    [handle] ([src/include/thespian/handle.hpp]), the trace channels
    ([src/include/thespian/trace.hpp]) and [env_t]
    ([src/include/thespian/env.hpp]), the set of named values and trace settings
    every instance carries and hands to the instances it spawns. *)
From S2P Require Import Prelude CborEncode.

(** ** Handles *)

(** [ref] is a [weak_ptr<instance>]: [None] is the empty pointer, [Some i]
    points to the instance with key [i], which may be gone.  Keys are never
    used twice. *)
Abbreviation ref := (option Z).

Record handle : Type := Handle { h_ref : ref; h_id : Z }.

(** [handle{}] *)
Definition null_handle : handle := Handle None 0.

#[export] Instance handle_eq_dec : EqDecision handle.
Proof. solve_decision. Defined.

(** [expected<void, error>]: [None] is [ok()], [Some e] is [to_error(e)]. *)
Abbreviation result := (option bytes).

(** ** Trace channels *)

Inductive channel : Type :=
| ch_send | ch_receive | ch_lifetime | ch_link | ch_execute | ch_udp | ch_tcp | ch_timer
| ch_metronome | ch_endpoint | ch_signal | ch_all.

#[export] Instance channel_eq_dec : EqDecision channel.
Proof. solve_decision. Defined.

(** [channel_set] is an [int]. *)
Definition channel_bits (c : channel) : Z :=
  match c with
  | ch_send => 1 | ch_receive => 2 | ch_lifetime => 4 | ch_link => 8 | ch_execute => 16
  | ch_udp => 32 | ch_tcp => 64 | ch_timer => 128 | ch_metronome => 256 | ch_endpoint => 512
  | ch_signal => 1024
  | ch_all => 2 ^ 31 - 1
  end.

(** ** Environments *)

(** A trace handler is code of the client; [trace_handler] is the handler that
    is installed, by a number of its own. *)
Record env_t : Type := Env {
  env_s : gmap bytes bytes;
  env_b : gmap bytes bool;
  env_i : gmap bytes Z;
  env_h : gmap bytes handle;
  trace_channels : Z;
  trace_handler : option Z
}.

Definition env_empty : env_t := Env ∅ ∅ ∅ ∅ 0 None.

Definition set_channels (e : env_t) (cs : Z) : env_t :=
  Env (env_s e) (env_b e) (env_i e) (env_h e) cs (trace_handler e).

Definition enable_all_channels (e : env_t) : env_t := set_channels e (channel_bits ch_all).
Definition disable_all_channels (e : env_t) : env_t := set_channels e 0.
Definition enable (e : env_t) (c : channel) : env_t :=
  set_channels e (Z.lor (trace_channels e) (channel_bits c)).
Definition disable (e : env_t) (c : channel) : env_t :=
  set_channels e (Z.lxor (trace_channels e) (channel_bits c)).
Definition enabled (e : env_t) (c : channel) : bool :=
  negb (Z.land (trace_channels e) (channel_bits c) =? 0).

(** The previous handler is returned. *)
Definition on_trace (e : env_t) (h : option Z) : option Z * env_t :=
  (trace_handler e, Env (env_s e) (env_b e) (env_i e) (env_h e) (trace_channels e) h).

(** [is], [num], [str] and [proc] return a reference into a map, which
    [operator[]] creates with the default value: reading is [env_num e k], and
    an assignment through the reference [set_env_num e k v]. *)
Definition env_is (e : env_t) (k : bytes) : bool * env_t :=
  let v := default false (env_b e !! k) in
  (v, Env (env_s e) (<[k := v]> (env_b e)) (env_i e) (env_h e) (trace_channels e) (trace_handler e)).
Definition set_env_is (e : env_t) (k : bytes) (v : bool) : env_t :=
  Env (env_s e) (<[k := v]> (env_b e)) (env_i e) (env_h e) (trace_channels e) (trace_handler e).

Definition env_num (e : env_t) (k : bytes) : Z * env_t :=
  let v := default 0 (env_i e !! k) in
  (v, Env (env_s e) (env_b e) (<[k := v]> (env_i e)) (env_h e) (trace_channels e) (trace_handler e)).
Definition set_env_num (e : env_t) (k : bytes) (v : Z) : env_t :=
  Env (env_s e) (env_b e) (<[k := v]> (env_i e)) (env_h e) (trace_channels e) (trace_handler e).

Definition env_str (e : env_t) (k : bytes) : bytes * env_t :=
  let v := default [] (env_s e !! k) in
  (v, Env (<[k := v]> (env_s e)) (env_b e) (env_i e) (env_h e) (trace_channels e) (trace_handler e)).
Definition set_env_str (e : env_t) (k : bytes) (v : bytes) : env_t :=
  Env (<[k := v]> (env_s e)) (env_b e) (env_i e) (env_h e) (trace_channels e) (trace_handler e).

Definition env_proc (e : env_t) (k : bytes) : handle * env_t :=
  let v := default null_handle (env_h e !! k) in
  (v, Env (env_s e) (env_b e) (env_i e) (<[k := v]> (env_h e)) (trace_channels e) (trace_handler e)).
Definition set_env_proc (e : env_t) (k : bytes) (v : handle) : env_t :=
  Env (env_s e) (env_b e) (env_i e) (<[k := v]> (env_h e)) (trace_channels e) (trace_handler e).

(** The [const] overload of [proc] is [map::at]. *)
Definition env_proc_const (e : env_t) (k : bytes) : res handle :=
  match env_h e !! k with
  | Some h => Ok h
  | None => Throw (out_of_range (str "map::at"))
  end.

(** ** Lemmas *)

(** Every channel but [all] is one bit. *)
Definition channel_index (c : channel) : Z :=
  match c with
  | ch_send => 0 | ch_receive => 1 | ch_lifetime => 2 | ch_link => 3 | ch_execute => 4
  | ch_udp => 5 | ch_tcp => 6 | ch_timer => 7 | ch_metronome => 8 | ch_endpoint => 9
  | ch_signal => 10 | ch_all => 31
  end.

Lemma channel_bits_pow c : c ≠ ch_all → channel_bits c = 2 ^ channel_index c.
Proof. by destruct c. Qed.

Lemma land_pow2_eqb n k : 0 <= k → negb (Z.land n (2 ^ k) =? 0) = Z.testbit n k.
Proof.
  intros Hk. destruct (Z.testbit n k) eqn:E.
  - apply negb_true_iff, Z.eqb_neq. intros H.
    assert (Z.testbit (Z.land n (2 ^ k)) k = true) as H' by (by rewrite Z.land_spec, E, Z.pow2_bits_true).
    by rewrite H, Z.bits_0 in H'.
  - apply negb_false_iff, Z.eqb_eq, Z.bits_inj_0. intros j. rewrite Z.land_spec.
    destruct (decide (j = k)) as [->|]; [by rewrite E|].
    by rewrite Z.pow2_bits_false, andb_false_r by done.
Qed.

Lemma enabled_testbit e c :
  c ≠ ch_all → enabled e c = Z.testbit (trace_channels e) (channel_index c).
Proof.
  intros Hc. unfold enabled. rewrite channel_bits_pow by done. apply land_pow2_eqb. by destruct c.
Qed.

Lemma channel_index_inj c d : channel_index c = channel_index d → c = d.
Proof. by destruct c, d. Qed.

(** What the three updates do to the channels, one at a time. *)
Lemma enabled_enable e c d :
  c ≠ ch_all → d ≠ ch_all → enabled (enable e c) d = bool_decide (c = d) || enabled e d.
Proof.
  intros Hc Hd. rewrite !enabled_testbit by done. cbn [enable set_channels trace_channels].
  rewrite Z.lor_spec, channel_bits_pow, Z.pow2_bits_eqb, orb_comm by (done || by destruct c).
  f_equal. destruct (Z.eqb_spec (channel_index c) (channel_index d)) as [E|E].
  - by rewrite bool_decide_true by by apply channel_index_inj.
  - rewrite bool_decide_false; [done|]. by intros ->.
Qed.

Lemma enabled_disable e c d :
  c ≠ ch_all → d ≠ ch_all → enabled (disable e c) d = xorb (bool_decide (c = d)) (enabled e d).
Proof.
  intros Hc Hd. rewrite !enabled_testbit by done. cbn [disable set_channels trace_channels].
  rewrite Z.lxor_spec, channel_bits_pow, Z.pow2_bits_eqb, xorb_comm by (done || by destruct c).
  f_equal. destruct (Z.eqb_spec (channel_index c) (channel_index d)) as [E|E].
  - by rewrite bool_decide_true by by apply channel_index_inj.
  - rewrite bool_decide_false; [done|]. by intros ->.
Qed.
