(* ===== verification/Instance.v ===== *)
(** * The actor runtime ([src/src/instance.cpp])

    [instance], [context_impl] and the functions of
    [src/include/thespian/instance.hpp] and [context.hpp].

    The state of the process is a [world]: the instances that exist, the queue
    of the strand of each, the process-wide table of instances, the context, and
    the calls made to handlers of the client.  The code of the client is
    arbitrary: a behaviour or receiver is a closure of a type [C], [call] gives
    the program it runs, and a program is a tree of calls of the API with any
    computation between them; what closures share is a value of a type [U].

    Threads interleave between calls of the API: [step] runs one call of one
    running instance, starts one task of one strand or one callback of the
    executor on it, or makes one call from a thread outside of every instance.
    A callback is a step that is possible while the instance exists.  The
    thread-local [current_instance] is the argument [cur].

    A send takes no lock: [queue] looks at [in_shutdown], copies [lifetime_] and
    posts its task while the instance that it sends to may exit on a thread of
    its own.  A program may therefore send in one step ([OSend]) or one by one
    in those of [queue_step], with steps of other threads between them; what
    [send_steps] has is that the steps in a row are the send.  The theorems on the runtime are for all
    programs, with sends of both kinds.  An exit is one step: between its two
    writes, of [in_shutdown] and of [lifetime_], a sender that copies
    [lifetime_] gets what it had got before them, and one that looks at
    [in_shutdown] what it would get after them.  The sends that an exit, a
    spawn, a link or a tap makes are part of its step.

    An instance is deleted when its last [shared_ptr] goes: its own [lifetime_],
    the [lifelock] of a queued task, the one of the running task, the one that a
    callback of the executor was given, and the one that a sender got from a
    handle ([holders]).  Tasks hold a plain [this] besides, so running a task
    whose instance is gone is [Crash].  An exception that leaves [run] ends the
    thread: [Terminate].

    A program is a finite tree.  Code of the client that never returns is
    covered as far as any finite number of its steps goes, being the tree cut
    off there; nothing is claimed about its end. *)
From S2P Require Import Prelude CborEncode Ieee CborDecode CborMatch CppText CborJson Env.

(** ** Messages of the runtime *)

Definition exit_message (e : bytes) (parms : list arg) : bytes :=
  cbor_array (AString (str "exit") :: AString e :: parms).

Definition link_msg : bytes := cbor_array [AString (str "link")].
Definition exit_normal_msg : bytes := cbor_array [AString (str "exit"); AString (str "normal")].
Definition exit_noreceive_msg : bytes :=
  cbor_array [AString (str "exit"); AString (str "noreceive")].
Definition context_error : bytes := str "call out of context".

Definition is_exit_msg (m : bytes) : res bool :=
  (λ v, bool_decide (is_Some v)) <$> matches m [PStr (str "exit"); PAny; PMore].
Definition is_link_msg (m : bytes) : bool := bool_decide (m = link_msg).

(** [exit()], [exit(e)], [exit(e, m)], [exit(e, err)] and [exit(e, n)]. *)
Definition exit_ (parms : option (bytes * list arg)) : result :=
  Some match parms with
       | None => exit_message (str "normal") []
       | Some (e, ps) => exit_message e ps
       end.

Definition unexpected (b : bytes) : res result :=
  j ← to_json b; Ok (exit_ (Some (str "UNEXPECTED_MESSAGE:" ++ j, []))).

(** ** The code of the client *)

(** The steps of a send by handle: [ref_.lock()] and the first lines of [queue];
    [if (in_shutdown)] and the taps; [lifelock{lifetime_}]; [submit_msg_task]. *)
Inductive queue_step : Type :=
| QLock (h : handle) (m : bytes)
| QCheck
| QCopy
| QPost.

(** Calls of the API. *)
Inductive op (U C : Type) : Type :=
| OSend (h : handle) (m : bytes)
| OTrySend (h : handle) (m : bytes)  (** a send in a [try] statement *)
| OSendSelf (m : bytes)
| OReceive (r : option C)
| OReceiveSync (r : option C)
| OTrap
| OSetTrap (t : bool)
| OObserveLinks
| OSetObserveLinks (o : bool)
| OLink (h : handle)
| OSelf
| OSelfRef
| OInstanceById (id : Z)
| OSpawn (b : C) (name : bytes) (e : option env_t)
| OSpawnLink (b : C) (name : bytes) (e : option env_t)
| OContextSpawn (b : C) (name : bytes) (e : env_t)
| OContextSpawnLink (b : C) (eh : option Z) (name : bytes) (e : env_t)
| OEnv (f : env_t → env_t)
| OOnTrace (h : option Z)
| OOnLastExit (h : option Z)
| ODebugEnable
| ODebugDisable
| ODebugUnregister (name : bytes)
| OTapAdd (name : bytes) (sub : handle)
| OTapRemove (name : bytes) (sub : handle)
| OGetName (name : bytes)
| OGetNames
| ORegistry               (** the names and whether their handles have expired *)
| OInstanceName (h : handle)
| OExpired (h : handle)
| ORename (name : bytes)  (** [private_call().name_ = name] *)
| OTraceRaw (parms : list arg)  (** [env_.trace(array(ref_m(self), parms...))] *)
| OUser (f : U → U)
| OLockedSend (f : U → U) (h : handle) (m : bytes)  (** both under a lock of the client *)
| OQueue (n : nat) (q : queue_step)  (** a step of the send [n] *)
| OHold (n : nat).  (** [lifelock{owner_.lifetime_}] of a callback [n] for the executor *)
Arguments OSend {U C} h m. Arguments OTrySend {U C} h m. Arguments OSendSelf {U C} m. Arguments OReceive {U C} r.
Arguments OReceiveSync {U C} r. Arguments OTrap {U C}. Arguments OSetTrap {U C} t.
Arguments OObserveLinks {U C}. Arguments OSetObserveLinks {U C} o. Arguments OLink {U C} h.
Arguments OSelf {U C}. Arguments OSelfRef {U C}. Arguments OInstanceById {U C} id.
Arguments OSpawn {U C} b name e. Arguments OSpawnLink {U C} b name e.
Arguments OContextSpawn {U C} b name e. Arguments OContextSpawnLink {U C} b eh name e.
Arguments OEnv {U C} f. Arguments OOnTrace {U C} h. Arguments OOnLastExit {U C} h.
Arguments ODebugEnable {U C}. Arguments ODebugDisable {U C}. Arguments ODebugUnregister {U C} name.
Arguments OTapAdd {U C} name sub. Arguments OTapRemove {U C} name sub. Arguments OUser {U C} f.
Arguments OGetName {U C} name. Arguments OGetNames {U C}. Arguments ORegistry {U C}.
Arguments OInstanceName {U C} h. Arguments OExpired {U C} h. Arguments ORename {U C} name.
Arguments OTraceRaw {U C} parms.
Arguments OLockedSend {U C} f h m. Arguments OQueue {U C} n q. Arguments OHold {U C} n.

(** What they return. *)
Inductive ans (U : Type) : Type :=
| AnsUnit
| AnsBool (b : bool)
| AnsResult (r : result)
| AnsTried (r : res result)
| AnsHandle (h : handle)
| AnsSpawn (r : handle + bytes)
| AnsEnv (e : env_t)
| AnsHandler (h : option Z)
| AnsBytes (b : bytes)
| AnsNames (l : list (bytes * bool))
| AnsUser (u : U).
Arguments AnsUnit {U}. Arguments AnsBool {U} b. Arguments AnsResult {U} r. Arguments AnsTried {U} r.
Arguments AnsHandle {U} h. Arguments AnsSpawn {U} r. Arguments AnsEnv {U} e.
Arguments AnsHandler {U} h. Arguments AnsBytes {U} b. Arguments AnsNames {U} l.
Arguments AnsUser {U} u.

(** An exception of the client: one with a [what()], or another object. *)
Inductive thrown : Type := ThrowStd (what : bytes) | ThrowOther.

Inductive prog (U C : Type) : Type :=
| Ret (r : result)
| Raise (t : thrown)
| Call (o : op U C) (k : ans U → prog U C).
Arguments Ret {U C} r. Arguments Raise {U C} t. Arguments Call {U C} o k.

(** [what()] *)
Definition what (e : exn) : bytes :=
  match e with domain_error w | out_of_range w => w | out_of_fuel => [] end.

Section runtime.
Context {U C : Type}.

(** ** State *)

(** [receiver_] holds the behaviour until it first runs. *)
Inductive recv : Type := RInit (b : C) | RUser (c : C).

Record inst : Type := Inst {
  i_name : bytes;
  i_receiver : option recv;
  i_exited_receiver : option recv;
  i_sync_receiver : option C;
  i_exited_sync_receiver : option C;
  i_exit_handlers : list Z;
  i_lifetime : bool;
  i_trap_exit : bool;
  i_observe_links : bool;
  i_in_shutdown : bool;
  i_links : list handle;
  i_env : env_t;
  (** the rest of the program of the task that is running *)
  i_run : option (prog U C)
}.

(** [run_m] of [queue]: its [from], [m] and [lifelock]. *)
Record task : Type := Task { t_from : handle; t_msg : bytes; t_lock : bool }.

(** Who else holds an instance: a send on its way, by the steps it has taken, or a
    callback of the executor or a send that is over. *)
Inductive holder : Type :=
| HLocked (i : Z) (from : handle) (m : bytes)
| HChecked (i : Z) (from : handle) (m : bytes)
| HCopied (i : Z) (from : handle) (m : bytes) (lifelock : bool)
| HHeld (i : Z).

Definition holds (h : holder) : Z :=
  match h with HLocked i _ _ | HChecked i _ _ | HCopied i _ _ _ | HHeld i => i end.

Record context_impl : Type := Context {
  active : Z;
  last_exit : option Z;
  registry : gmap bytes handle;
  debug_enabled : Z;
  taps : list (bytes * handle);
  tap_count : Z
}.

(** Calls of handlers of the client: an exit handler with the reason, the last
    exit handler, a trace handler with the values of the trace message behind
    the counters of the executor. *)
Inductive output : Type :=
| OutExit (eh : Z) (err : bytes)
| OutLastExit (h : Z)
| OutTrace (h : Z) (parms : list arg).

Record world : Type := World {
  insts : gmap Z inst;
  strands : gmap Z (list task);
  instances : gmap Z ref;
  next_instance_id : Z;
  ctx : context_impl;
  user : U;
  out : list output;
  holders : gmap nat holder
}.

Implicit Types (w : world) (x : inst).

Definition set_receiver x v := Inst (i_name x) v (i_exited_receiver x) (i_sync_receiver x)
  (i_exited_sync_receiver x) (i_exit_handlers x) (i_lifetime x) (i_trap_exit x)
  (i_observe_links x) (i_in_shutdown x) (i_links x) (i_env x) (i_run x).
Definition set_sync_receiver x v := Inst (i_name x) (i_receiver x) (i_exited_receiver x) v
  (i_exited_sync_receiver x) (i_exit_handlers x) (i_lifetime x) (i_trap_exit x)
  (i_observe_links x) (i_in_shutdown x) (i_links x) (i_env x) (i_run x).
Definition set_exit_handlers x v := Inst (i_name x) (i_receiver x) (i_exited_receiver x)
  (i_sync_receiver x) (i_exited_sync_receiver x) v (i_lifetime x) (i_trap_exit x)
  (i_observe_links x) (i_in_shutdown x) (i_links x) (i_env x) (i_run x).
Definition set_trap_exit x v := Inst (i_name x) (i_receiver x) (i_exited_receiver x)
  (i_sync_receiver x) (i_exited_sync_receiver x) (i_exit_handlers x) (i_lifetime x) v
  (i_observe_links x) (i_in_shutdown x) (i_links x) (i_env x) (i_run x).
Definition set_observe_links x v := Inst (i_name x) (i_receiver x) (i_exited_receiver x)
  (i_sync_receiver x) (i_exited_sync_receiver x) (i_exit_handlers x) (i_lifetime x) (i_trap_exit x)
  v (i_in_shutdown x) (i_links x) (i_env x) (i_run x).
Definition set_in_shutdown x := Inst (i_name x) (i_receiver x) (i_exited_receiver x)
  (i_sync_receiver x) (i_exited_sync_receiver x) (i_exit_handlers x) (i_lifetime x) (i_trap_exit x)
  (i_observe_links x) true (i_links x) (i_env x) (i_run x).
Definition set_links x v := Inst (i_name x) (i_receiver x) (i_exited_receiver x)
  (i_sync_receiver x) (i_exited_sync_receiver x) (i_exit_handlers x) (i_lifetime x) (i_trap_exit x)
  (i_observe_links x) (i_in_shutdown x) v (i_env x) (i_run x).
Definition set_name x v := Inst v (i_receiver x) (i_exited_receiver x) (i_sync_receiver x)
  (i_exited_sync_receiver x) (i_exit_handlers x) (i_lifetime x) (i_trap_exit x)
  (i_observe_links x) (i_in_shutdown x) (i_links x) (i_env x) (i_run x).
Definition set_env x v := Inst (i_name x) (i_receiver x) (i_exited_receiver x)
  (i_sync_receiver x) (i_exited_sync_receiver x) (i_exit_handlers x) (i_lifetime x) (i_trap_exit x)
  (i_observe_links x) (i_in_shutdown x) (i_links x) v (i_run x).
Definition set_run x v := Inst (i_name x) (i_receiver x) (i_exited_receiver x)
  (i_sync_receiver x) (i_exited_sync_receiver x) (i_exit_handlers x) (i_lifetime x) (i_trap_exit x)
  (i_observe_links x) (i_in_shutdown x) (i_links x) (i_env x) v.

(** [exited_receiver_.swap(receiver_); exited_sync_receiver_.swap(sync_receiver_);
    lifetime_.reset();] *)
Definition swap_exited x := Inst (i_name x) (i_exited_receiver x) (i_receiver x)
  (i_exited_sync_receiver x) (i_sync_receiver x) (i_exit_handlers x) false (i_trap_exit x)
  (i_observe_links x) (i_in_shutdown x) (i_links x) (i_env x) (i_run x).

(** The end of [run]: [cleanup_receiver_] and [cleanup_sync_receiver_]. *)
Definition cleanup x := Inst (i_name x) (i_receiver x) None (i_sync_receiver x) None
  (i_exit_handlers x) (i_lifetime x) (i_trap_exit x) (i_observe_links x) (i_in_shutdown x)
  (i_links x) (i_env x) None.

Definition set_insts w v :=
  World v (strands w) (instances w) (next_instance_id w) (ctx w) (user w) (out w) (holders w).
Definition set_strands w v :=
  World (insts w) v (instances w) (next_instance_id w) (ctx w) (user w) (out w) (holders w).
Definition set_instances w v :=
  World (insts w) (strands w) v (next_instance_id w) (ctx w) (user w) (out w) (holders w).
Definition set_ctx w v :=
  World (insts w) (strands w) (instances w) (next_instance_id w) v (user w) (out w) (holders w).
Definition set_user w v :=
  World (insts w) (strands w) (instances w) (next_instance_id w) (ctx w) v (out w) (holders w).
Definition emit w (l : list output) :=
  World (insts w) (strands w) (instances w) (next_instance_id w) (ctx w) (user w) (out w ++ l) (holders w).
Definition set_holders w v :=
  World (insts w) (strands w) (instances w) (next_instance_id w) (ctx w) (user w) (out w) v.

Definition upd w (i : Z) (f : inst → inst) : world := set_insts w (alter f i (insts w)).

Definition strand w (i : Z) : list task := default [] (strands w !! i).

(** ** References *)

(** [weak_ptr::lock]: the instance, while it exists. *)
Definition lock w (r : ref) : option Z :=
  match r with
  | Some i => match insts w !! i with Some _ => Some i | None => None end
  | None => None
  end.

Definition expired w (r : ref) : bool := negb (bool_decide (is_Some (lock w r))).

(** [operator==] on handles. *)
Definition handle_eq w (a b : handle) : bool :=
  bool_decide (lock w (h_ref a) = lock w (h_ref b)).

Definition make_handle w (r : ref) : handle :=
  Handle r (match lock w r with Some i => i | None => 0 end).

(** [self_ref_] *)
Definition self_handle (i : Z) : handle := Handle (Some i) i.

Definition name_of w (r : ref) : bytes :=
  match r with Some i => match insts w !! i with Some x => i_name x | None => [] end | None => [] end.

Definition pid_m (id : Z) (name : bytes) : bytes :=
  cbor_array [AString (str "PID"); AUInt id; AString name].

Definition ref_m w (r : ref) : bytes :=
  match lock w r with
  | Some i => pid_m i (name_of w (Some i))
  | None => pid_m 0 (str "none")
  end.

(** ** Tracing *)

Definition trace_raw x (parms : list arg) : list output :=
  match trace_handler (i_env x) with Some h => [OutTrace h parms] | None => [] end.

(** [do_trace(c, parms...)] of instance [i]. *)
Definition trace (i : Z) x (c : channel) (parms : list arg) : list output :=
  if enabled (i_env x) c then trace_raw x (ACbor (pid_m i (i_name x)) :: parms) else [].

Definition do_trace w (i : Z) (c : channel) (parms : list arg) : world :=
  emit w (match insts w !! i with Some x => trace i x c parms | None => [] end).

(** [do_trace_links(c)] *)
Definition link_names w x : list bytes :=
  omap (λ h, match lock w (h_ref h) with Some j => Some (name_of w (Some j)) | None => None end)
    (i_links x).

Definition trace_links w (i : Z) x (c : channel) : list output :=
  trace i x c
    [AString (str "links");
     ACbor (push_parms (array_header [] (Z.of_nat (length (link_names w x))))
              (AString <$> link_names w x))].

(** ** The debug registry and taps *)

Definition isenabled w : bool := 0 <? debug_enabled (ctx w).

Definition set_registry w v :=
  set_ctx w (Context (active (ctx w)) (last_exit (ctx w)) v (debug_enabled (ctx w))
               (taps (ctx w)) (tap_count (ctx w))).
Definition set_debug_enabled w v :=
  set_ctx w (Context (active (ctx w)) (last_exit (ctx w)) (registry (ctx w)) v
               (taps (ctx w)) (tap_count (ctx w))).
Definition set_taps w v n :=
  set_ctx w (Context (active (ctx w)) (last_exit (ctx w)) (registry (ctx w))
               (debug_enabled (ctx w)) v n).
Definition set_active w v :=
  set_ctx w (Context v (last_exit (ctx w)) (registry (ctx w)) (debug_enabled (ctx w))
               (taps (ctx w)) (tap_count (ctx w))).
Definition set_last_exit w v :=
  set_ctx w (Context (active (ctx w)) v (registry (ctx w)) (debug_enabled (ctx w))
               (taps (ctx w)) (tap_count (ctx w))).

Definition debug_enable w : world := set_debug_enabled w (u64 (debug_enabled (ctx w) + 1)).

Definition debug_disable w : world :=
  let prev := debug_enabled (ctx w) in
  let w := set_debug_enabled w (u64 (prev - 1)) in
  if prev =? 1 then set_registry w ∅ else w.

Definition register_instance w (h : handle) : world :=
  if negb (isenabled w) then w
  else match lock w (h_ref h) with
       | None => w
       | Some p =>
           let name := name_of w (Some p) in
           if bool_decide (name = []) then w else set_registry w (<[name := h]> (registry (ctx w)))
       end.

Definition unregister_instance w (name : bytes) : world :=
  if negb (isenabled w) then w else set_registry w (delete name (registry (ctx w))).

Definition get_name w (name : bytes) : handle := default null_handle (registry (ctx w) !! name).

(** The names of a [std::map] come in order. *)
Fixpoint bytes_lt (a b : bytes) : bool :=
  match a, b with
  | _, [] => false
  | [], _ :: _ => true
  | x :: a, y :: b => (x <? y) || ((x =? y) && bytes_lt a b)
  end.

Fixpoint insert_name (n : bytes) (l : list bytes) : list bytes :=
  match l with
  | [] => [n]
  | m :: l => if bytes_lt n m then n :: m :: l else m :: insert_name n l
  end.

Definition names w : list bytes :=
  foldr insert_name []
    ((filter (λ p, expired w (h_ref p.2) = false) (map_to_list (registry (ctx w)))).*1).

Definition get_names w : bytes :=
  push_parms (array_header [] (Z.of_nat (length (names w)))) (AString <$> names w).

Definition registry_entries w : list (bytes * bool) :=
  (λ n, (n, expired w (h_ref (get_name w n)))) <$>
    foldr insert_name [] ((map_to_list (registry (ctx w))).*1).

Definition is_tapping w : bool := 0 <? tap_count (ctx w).

(** [equal_range(name)] of a [multimap] is in order of insertion. *)
Definition tap_subscribers w (name : bytes) : world * list handle :=
  let gone := λ p : bytes * handle, p.1 = name ∧ expired w (h_ref p.2) = true in
  let subs := filter (λ p : bytes * handle, p.1 = name ∧ expired w (h_ref p.2) = false)
                (taps (ctx w)) in
  let n := Z.of_nat (length (filter gone (taps (ctx w)))) in
  (set_taps w (filter (λ p, ¬ gone p) (taps (ctx w))) (u64 (tap_count (ctx w) - n)), subs.*2).

Definition tap_add w (name : bytes) (sub : handle) : world :=
  if existsb (λ p : bytes * handle, bool_decide (p.1 = name) && handle_eq w p.2 sub) (taps (ctx w))
  then w
  else set_taps w (taps (ctx w) ++ [(name, sub)]) (u64 (tap_count (ctx w) + 1)).

Definition tap_remove w (name : bytes) (sub : handle) : world * bool :=
  let hit := λ p : bytes * handle,
    (bool_decide (name = []) || bool_decide (p.1 = name)) && handle_eq w p.2 sub = true in
  let n := Z.of_nat (length (filter hit (taps (ctx w)))) in
  (set_taps w (filter (λ p, ¬ hit p) (taps (ctx w))) (u64 (tap_count (ctx w) - n)), 0 <? n).

(** ** Sending *)

Definition in_shutdown w (i : Z) : bool :=
  match insts w !! i with Some x => i_in_shutdown x | None => false end.

Definition deadsend w (cur : option Z) (m : bytes) (from : ref) : res result :=
  match cur with
  | Some c =>
      if in_shutdown w c then Ok None
      else
        v ← matches m [PStr (str "exit"); PMore];
        Ok (match v with
            | Some _ => None
            | None => Some (exit_message (str "DEADSEND")
                              [ACbor m; ACbor (ref_m w from); ACbor (ref_m w (Some c))])
            end)
  | None => Ok None
  end.

(** [lifelock{lifetime_}] *)
Definition lifetime w (i : Z) : bool := match insts w !! i with Some x => i_lifetime x | None => false end.

(** [strand_.post] of the task with its copy of [lifetime_]. *)
Definition post_task w (i : Z) (from : handle) (m : bytes) (lifelock : bool) : world :=
  set_strands w (<[i := strand w i ++ [Task from m lifelock]]> (strands w)).

(** [submit_msg_task]: the task keeps a copy of [lifetime_]. *)
Definition submit_msg_task w (i : Z) (from : handle) (m : bytes) : world :=
  post_task w i from m (lifetime w i).

Definition trace_send w (i : Z) (from : handle) (m : bytes) : world :=
  emit w (match insts w !! i with
          | Some x =>
              if negb (is_null m) && enabled (i_env x) ch_send then
                trace_raw x [ACbor (ref_m w (h_ref from)); AString (str "send");
                             ACbor (pid_m i (i_name x)); ACbor m]
              else []
          | None => []
          end).

(** [queue] while [in_tap] is set: nothing is tapped. *)
Definition queue_in_tap w (cur : option Z) (i : Z) (from : handle) (m : bytes) : world * res result :=
  let w := trace_send w i from m in
  if in_shutdown w i then (w, deadsend w cur m (h_ref from))
  else (submit_msg_task w i from m, Ok None).

Definition tap_deliver w (cur : option Z) (subs : list handle) (ev : bytes) : world :=
  foldl (λ w s, match lock w (h_ref s) with
                | Some p => (queue_in_tap w cur p null_handle ev).1
                | None => w
                end) w subs.

(** One half of [tap_message]: the subscribers of [name]. *)
Definition tap_event w (cur : option Z) (name : bytes) (what other m : bytes) : world :=
  if bool_decide (name = []) then w
  else
    let '(w, subs) := tap_subscribers w name in
    if bool_decide (subs = []) then w
    else tap_deliver w cur subs
           (cbor_array [AString (str "debug_tap"); AString name; AString what; AString other; ACbor m]).

Definition tap_message w (cur : option Z) (to : bytes) (from : handle) (m : bytes) : world :=
  let from_name := name_of w (h_ref from) in
  let w := tap_event w cur to (str "recv") from_name m in
  tap_event w cur from_name (str "send") to m.

Definition tap_exit w (cur : option Z) (name m : bytes) : world :=
  tap_event w cur name (str "exit") [] m.

Definition queue w (cur : option Z) (i : Z) (from : handle) (m : bytes) : world * res result :=
  let w := trace_send w i from m in
  if in_shutdown w i then (w, deadsend w cur m (h_ref from))
  else
    let w := if is_tapping w && negb (is_null m)
             then tap_message w cur (name_of w (Some i)) from m else w in
    (submit_msg_task w i from m, Ok None).

Definition sender (cur : option Z) : handle :=
  match cur with Some c => self_handle c | None => null_handle end.

(** [instance::send_raw] and [handle::send_raw]. *)
Definition send_raw w (cur : option Z) (i : Z) (m : bytes) : world * res result :=
  queue w cur i (sender cur) m.

Definition handle_send_raw w (cur : option Z) (h : handle) (m : bytes) : world * res result :=
  match lock w (h_ref h) with
  | Some p => send_raw w cur p m
  | None => (w, deadsend w cur m (h_ref h))
  end.

(** [handle::send_raw] step by step.  The answer is that of the send where it ends. *)
Definition queue_part w (cur : option Z) (n : nat) (q : queue_step) : world * res (option result) :=
  match q, holders w !! n with
  | QLock h m, None =>
      match lock w (h_ref h) with
      | Some p =>
          let w := trace_send w p (sender cur) m in
          (set_holders w (<[n := HLocked p (sender cur) m]> (holders w)), Ok None)
      | None => (w, Some <$> deadsend w cur m (h_ref h))
      end
  | QCheck, Some (HLocked i from m) =>
      if in_shutdown w i
      then (set_holders w (<[n := HHeld i]> (holders w)), Some <$> deadsend w cur m (h_ref from))
      else
        let w := if is_tapping w && negb (is_null m)
                 then tap_message w cur (name_of w (Some i)) from m else w in
        (set_holders w (<[n := HChecked i from m]> (holders w)), Ok None)
  | QCopy, Some (HChecked i from m) =>
      (set_holders w (<[n := HCopied i from m (lifetime w i)]> (holders w)), Ok None)
  | QPost, Some (HCopied i from m lifelock) =>
      let w := post_task w i from m lifelock in
      (set_holders w (<[n := HHeld i]> (holders w)), Ok (Some None))
  | _, _ => (w, Ok None)
  end.

(** ** Exit *)

(** The reason given to the exit handlers. *)
Definition exit_reason (m : bytes) : res bytes :=
  v ← matches m [PType t_string; PExtract XString; PMore];
  match v with
  | Some [CString err] => Ok err
  | _ => j ← to_json m; Ok (str "bad_exit_message: " ++ j)
  end.

(** [handle_exit] up to the exit handlers: the links, the trace and the taps. *)
Definition exit_notify w (i : Z) x (m : bytes) : world :=
  let w := upd w i set_in_shutdown in
  let w := foldl (λ w h, (handle_send_raw w (Some i) h m).1) w (i_links x) in
  let w := do_trace w i ch_lifetime [AString (str "exit"); ACbor m] in
  if is_tapping w then tap_exit w (Some i) (i_name x) m else w.

Definition handle_exit w (i : Z) (m : bytes) : world * res unit :=
  match insts w !! i with
  | None => (w, Ok tt)
  | Some x =>
      let w := exit_notify w i x m in
      match i_exit_handlers x with
      | [] => (upd w i swap_exited, Ok tt)
      | ehs =>
          let w := upd w i (λ x, set_exit_handlers x []) in
          match exit_reason m with
          | Throw e => (w, Throw e)
          | Ok err => (upd (emit w ((λ eh, OutExit eh err) <$> ehs)) i swap_exited, Ok tt)
          end
      end
  end.

(** ** Deletion *)

Definition is_held w (i : Z) : bool := existsb (λ p, holds p.2 =? i) (map_to_list (holders w)).

(** Whether a [shared_ptr] to the instance is left. *)
Definition held w (i : Z) x : bool :=
  i_lifetime x || existsb t_lock (strand w i) || bool_decide (is_Some (i_run x)) || is_held w i.

(** [~instance] *)
Definition destroy w (i : Z) x : world :=
  let w := set_instances w (delete i (instances w)) in
  let prev := active (ctx w) in
  let w := set_active w (u64 (prev - 1)) in
  let w := set_insts w (delete i (insts w)) in
  let w := emit w (if isenabled w then
                     trace_links w i x ch_link ++
                     trace i x ch_lifetime [AString (str "living"); ACbor (get_names w)]
                   else []) in
  let w := emit w (trace i x ch_lifetime [AString (str "destroyed"); AUInt (u64 (prev - 1))]) in
  if prev =? 1 then
    let w := emit w (trace i x ch_lifetime [AString (str "last_exit")]) in
    match last_exit (ctx w) with Some h => emit w [OutLastExit h] | None => w end
  else w.

(** The end of a task: its locks go. *)
Definition collect w (i : Z) : world :=
  match insts w !! i with
  | Some x => if held w i x then w else destroy w i x
  | None => w
  end.

(** ** Running a task *)

(** What a step of a thread comes to: it cannot be taken now; it uses an
    instance that is gone; an exception leaves [run], and with it the thread;
    or the process goes on. *)
Inductive outcome : Type := Blocked | Crash | Terminate (e : exn) | Next (w : world).

(** [run] from the end of its [try] statement. *)
Definition run_end w (i : Z) : world :=
  let w := if in_shutdown w i then w else do_trace w i ch_execute [AString (str "sleep")] in
  collect (upd w i cleanup) i.

(** The handlers of [run]. *)
Definition catch_message (t : thrown) : bytes :=
  match t with
  | ThrowStd what => exit_message (str "UNHANDLED_EXCEPTION: " ++ what) []
  | ThrowOther => exit_message (str "UNHANDLED_EXCEPTION") []
  end.

Definition run_catch w (i : Z) (t : thrown) : outcome :=
  match handle_exit w i (catch_message t) with
  | (w, Ok _) => Next (run_end w i)
  | (_, Throw e) => Terminate e
  end.

Definition run_exit w (i : Z) (m : bytes) : outcome :=
  match handle_exit w i m with
  | (w, Ok _) => Next (run_end w i)
  | (w, Throw e) => run_catch w i (ThrowStd (what e))
  end.

(** The receiver returned [r]. *)
Definition run_ret w (i : Z) (r : result) : outcome :=
  match r with
  | Some e => run_exit w i e
  | None =>
      match insts w !! i with
      | Some x => match i_receiver x with
                  | None => run_exit w i exit_noreceive_msg
                  | Some _ => Next (run_end w i)
                  end
      | None => Crash
      end
  end.

Section call.
Context (call : C → handle → bytes → prog U C).

(** [receiver_(move(from), move(msg))]: the program that runs.  Calling an
    empty function object throws. *)
Definition run_receiver w (i : Z) x (from : handle) (msg : bytes) : outcome :=
  match i_receiver x with
  | None => run_catch w i (ThrowStd (str "bad_function_call"))
  | Some (RInit b) =>
      let w := do_trace w i ch_lifetime [AString (str "init")] in
      Next (upd w i (λ x, set_run (set_receiver x None) (Some (call b null_handle null_value))))
  | Some (RUser c) => Next (upd w i (λ x, set_run x (Some (call c from msg))))
  end.

Definition run_body w (i : Z) x (from : handle) (msg : bytes) : outcome :=
  let w := do_trace w i ch_execute [AString (str "run")] in
  match (if i_trap_exit x then Ok false else is_exit_msg msg) with
  | Throw e => run_catch w i (ThrowStd (what e))
  | Ok true => if bool_decide (msg = exit_normal_msg) then Next (run_end w i) else run_exit w i msg
  | Ok false =>
      let w := if is_null msg then w
               else do_trace w i ch_receive
                      [AString (str "receive"); ACbor (ref_m w (h_ref from)); ACbor msg] in
      run_receiver w i x from msg
  end.

(** A link message is recorded; the instance sees it only if it asked to. *)
Definition run_link w (i : Z) x (from : handle) : world :=
  let sees := i_observe_links x in
  let w := if sees then w else do_trace w i ch_execute [AString (str "run")] in
  let w := do_trace w i ch_link [AString (str "link"); ACbor (ref_m w (h_ref from))] in
  let w := upd w i (λ x, set_links x (from :: i_links x)) in
  let w := emit w (match insts w !! i with
                   | Some x => if isenabled w then trace_links w i x ch_link else []
                   | None => []
                   end) in
  if sees then w else do_trace w i ch_execute [AString (str "sleep")].

(** [run], called without a current instance, on an instance that exists. *)
Definition run w (i : Z) x (from : handle) (msg : bytes) : outcome :=
  let '(w, returns) :=
    if is_link_msg msg then (run_link w i x from, negb (i_observe_links x)) else (w, false) in
  if returns then Next (collect w i)
  else if i_in_shutdown x then Next (collect w i)
  else run_body w i x from msg.

(** [dispatch_sync_raw] from a callback of the executor, which runs on the
    strand of the instance without a current instance: [deadsend] is silent
    there. *)
Definition dispatch_sync w (i : Z) x (m : bytes) : outcome :=
  if i_in_shutdown x then Next w else run w i x null_handle m.

(** ** The API *)

(** The constructor, and the first lines of [spawn]: the instance owns itself
    and is entered in the table. *)
Definition construct w (b : C) (eh : option Z) (name : bytes) (e : env_t) : world :=
  let i := next_instance_id w in
  let x := Inst name (Some (RInit b)) None None None
             (match eh with Some h => [h] | None => [] end) true false false false [] e None in
  let w := World (<[i := x]> (insts w)) (strands w) (<[i := Some i]> (instances w)) (i + 1)
             (ctx w) (user w) (out w) (holders w) in
  set_active w (u64 (active (ctx w) + 1)).

(** The rest of [spawn] once the new instance [i] is linked. *)
Definition schedule w (cur : option Z) (i : Z) (h : handle) : world * res (handle + bytes) :=
  match queue w cur i null_handle null_value with
  | (w, Ok None) => (register_instance w h, Ok (inl h))
  | (w, Ok (Some e)) => (w, Ok (inr e))
  | (w, Throw e) => (w, Throw e)
  end.

(** [instance::spawn] *)
Definition spawn w (cur : option Z) (b : C) (eh : option Z) (name : bytes) (link : ref) (e : env_t)
  : world * res (handle + bytes) :=
  let i := next_instance_id w in
  let w := construct w b eh name e in
  let w := do_trace w i ch_lifetime [AString (str "spawn")] in
  let h := make_handle w (Some i) in
  if expired w link then schedule w cur i h
  else match queue w cur i (make_handle w link) link_msg with
       | (w, Ok None) => schedule w cur i h
       | (w, Ok (Some e)) => (w, Ok (inr e))
       | (w, Throw e) => (w, Throw e)
       end.

(** [instance::spawn_link] of the current instance. *)
Definition spawn_link w (i : Z) (b : C) (name : bytes) (e : env_t) : world * res (handle + bytes) :=
  match spawn w (Some i) b None name (Some i) e with
  | (w, Ok (inl h)) =>
      let w := do_trace w i ch_link [AString (str "link"); ACbor (ref_m w (h_ref h))] in
      (upd w i (λ x, set_links x (h :: i_links x)), Ok (inl h))
  | r => r
  end.

(** [instance::link] of the current instance. *)
Definition link w (i : Z) (h : handle) : world * res result :=
  match handle_send_raw w (Some i) h link_msg with
  | (w, Ok None) =>
      let w := do_trace w i ch_link [AString (str "link"); ACbor (ref_m w (h_ref h))] in
      (upd w i (λ x, set_links x (h :: i_links x)), Ok None)
  | r => r
  end.

Definition instance_by_id w (id : Z) : handle :=
  make_handle w (match instances w !! id with Some r => r | None => None end).

Definition ans_map {A} (f : A → ans U) (r : world * res A) : world * res (ans U) :=
  (r.1, f <$> r.2).

(** A call of the API by the instance [i], found by [private_call]. *)
Definition exec_private w (i : Z) x (o : op U C) : world * res (ans U) :=
  match o with
  | OSendSelf m => ans_map AnsResult (send_raw w (Some i) i m)
  | OReceive r =>
      let w := do_trace w i ch_receive [AString (str "receive"); AString (str "set")] in
      (upd w i (λ x, set_receiver x (RUser <$> r)), Ok AnsUnit)
  | OReceiveSync r =>
      let w := do_trace w i ch_receive [AString (str "receive_sync"); AString (str "set")] in
      (upd w i (λ x, set_sync_receiver x r), Ok AnsUnit)
  | OTrap => (w, Ok (AnsBool (i_trap_exit x)))
  | OSetTrap t => (upd w i (λ x, set_trap_exit x t), Ok (AnsBool (i_trap_exit x)))
  | OObserveLinks => (w, Ok (AnsBool (i_observe_links x)))
  | OSetObserveLinks o => (upd w i (λ x, set_observe_links x o), Ok (AnsBool (i_observe_links x)))
  | OLink h => ans_map (λ _, AnsUnit) (link w i h)
  | OSelf => (w, Ok (AnsHandle (make_handle w (if i_lifetime x then Some i else None))))
  | OSelfRef => (w, Ok (AnsHandle (self_handle i)))
  | OSpawn b name e =>
      ans_map AnsSpawn (spawn w (Some i) b None name None (default (i_env x) e))
  | OSpawnLink b name e => ans_map AnsSpawn (spawn_link w i b name (default (i_env x) e))
  | OEnv f => (upd w i (λ x, set_env x (f (i_env x))), Ok (AnsEnv (i_env x)))
  | ORename name => (upd w i (λ x, set_name x name), Ok AnsUnit)
  | OTraceRaw parms => (emit w (trace_raw x (ACbor (pid_m i (i_name x)) :: parms)), Ok AnsUnit)
  | OOnTrace h =>
      let '(old, e) := on_trace (i_env x) h in
      (upd w i (λ x, set_env x e), Ok (AnsHandler old))
  | OHold n =>
      match holders w !! n, i_lifetime x with
      | None, true => (set_holders w (<[n := HHeld i]> (holders w)), Ok AnsUnit)
      | _, _ => (w, Ok AnsUnit)
      end
  | _ => (w, Ok AnsUnit)
  end.

Definition exec w (cur : option Z) (o : op U C) : world * res (ans U) :=
  match o with
  | OSend h m => ans_map AnsResult (handle_send_raw w cur h m)
  | OTrySend h m => let '(w, r) := handle_send_raw w cur h m in (w, Ok (AnsTried r))
  | OInstanceById id => (w, Ok (AnsHandle (instance_by_id w id)))
  | OContextSpawn b name e => ans_map AnsSpawn (spawn w cur b None name None e)
  | OContextSpawnLink b eh name e =>
      match eh with
      | None => (w, Throw (domain_error (str "exit_handler required")))
      | Some _ => ans_map AnsSpawn (spawn w cur b eh name None e)
      end
  | OOnLastExit h => (set_last_exit w h, Ok AnsUnit)
  | ODebugEnable => (debug_enable w, Ok AnsUnit)
  | ODebugDisable => (debug_disable w, Ok AnsUnit)
  | ODebugUnregister name => (unregister_instance w name, Ok AnsUnit)
  | OTapAdd name sub => (tap_add w name sub, Ok AnsUnit)
  | OTapRemove name sub => let '(w, found) := tap_remove w name sub in (w, Ok (AnsBool found))
  | OGetName name => (w, Ok (AnsHandle (get_name w name)))
  | OGetNames => (w, Ok (AnsBytes (get_names w)))
  | ORegistry => (w, Ok (AnsNames (registry_entries w)))
  | OInstanceName h => (w, Ok (AnsBytes (name_of w (h_ref h))))
  | OExpired h => (w, Ok (AnsBool (expired w (h_ref h))))
  | OUser f => (set_user w (f (user w)), Ok (AnsUser (user w)))
  | OLockedSend f h m => ans_map AnsResult (handle_send_raw (set_user w (f (user w))) cur h m)
  | OQueue n q => ans_map (λ r, match r with Some r => AnsResult r | None => AnsUnit end) (queue_part w cur n q)
  | _ =>
      match cur with
      | None => (w, Throw (domain_error context_error))
      | Some i =>
          match insts w !! i with
          | Some x => exec_private w i x o
          | None => (w, Throw (domain_error context_error))
          end
      end
  end.

(** ** Interleaving *)

Inductive label : Type :=
| LRun (i : Z)            (** the strand of [i] starts its next task *)
| LStep (i : Z)           (** the running task of [i] makes its next call *)
| LDispatch (i : Z) (m : bytes)   (** a callback on the strand of [i] runs it with a message *)
| LExtern (o : op U C)    (** a thread outside of every instance makes a call *)
| LRelease (n : nat).     (** the callback or the send [n] gives its [shared_ptr] back *)

(** A strand runs one task at a time. *)
Definition step w (l : label) : outcome :=
  match l with
  | LRun i =>
      match strand w i with
      | [] => Blocked
      | t :: ts =>
          match insts w !! i with
          | None => Crash
          | Some x =>
              match i_run x with
              | Some _ => Blocked
              | None => run (set_strands w (<[i := ts]> (strands w))) i x (t_from t) (t_msg t)
              end
          end
      end
  | LStep i =>
      match insts w !! i with
      | None => Blocked
      | Some x =>
          match i_run x with
          | None => Blocked
          | Some (Ret r) => run_ret w i r
          | Some (Raise t) => run_catch w i t
          | Some (Call o k) =>
              match exec w (Some i) o with
              | (w, Ok a) => Next (upd w i (λ x, set_run x (Some (k a))))
              | (w, Throw e) => run_catch w i (ThrowStd (what e))
              end
          end
      end
  | LDispatch i m =>
      match insts w !! i with
      | None => Blocked
      | Some x => match i_run x with Some _ => Blocked | None => dispatch_sync w i x m end
      end
  | LExtern o => Next (exec w None o).1
  | LRelease n =>
      match holders w !! n with
      | Some (HHeld i) => Next (collect (set_holders w (delete n (holders w))) i)
      | _ => Blocked
      end
  end.

(** The call that a step makes, and the current instance. *)
Definition called w (l : label) : option (option Z * op U C) :=
  match l with
  | LExtern o => Some (None, o)
  | LStep i =>
      match insts w !! i with
      | Some x => match i_run x with Some (Call o _) => Some (Some i, o) | _ => None end
      | None => None
      end
  | _ => None
  end.

(** A step races the exit of an instance: the send has seen that the instance is not in
    shutdown, and copies [lifetime_] when the instance has reset it. *)
Definition races w (l : label) : bool :=
  match called w l with
  | Some (_, OQueue n QCopy) =>
      match holders w !! n with Some (HChecked i _ _) => in_shutdown w i | _ => false end
  | _ => false
  end.

Inductive steps : world → list label → world → Prop :=
| steps_nil w : steps w [] w
| steps_cons w l w' ls w'' : step w l = Next w' → steps w' ls w'' → steps w (l :: ls) w''.

(** No step of a schedule races an exit. *)
Fixpoint race_free w (ls : list label) : Prop :=
  match ls with
  | [] => True
  | l :: ls => races w l = false ∧ ∀ w', step w l = Next w' → race_free w' ls
  end.

End call.

(** [context::create] *)
Definition context_create (u : U) : world :=
  World ∅ ∅ ∅ 1 (Context 0 None ∅ 0 [] 0) u [] ∅.

End runtime.

Arguments recv : clear implicits. Arguments inst : clear implicits. Arguments world : clear implicits.
Arguments label : clear implicits. Arguments outcome : clear implicits.
