(* ===== verification/InstanceInv.v ===== *)
(** * The invariant of the actor runtime

    [grows] is what sending does to the world: instances stay as they are and
    strands only get longer.  [wf] is the invariant of every world a context
    reaches, and [step_wf] shows that each step keeps it. *)
From S2P Require Import Prelude CborEncode Ieee CborDecode CborMatch CppText CborJson Env Instance.

Section inv.
Context {U C : Type}.
Implicit Types (w : world U C) (x : inst U C).

Lemma set_strand w i l j :
  strand (set_strands w (<[i := l]> (strands w))) j = if decide (i = j) then l else strand w j.
Proof.
  unfold strand. cbn. case_decide as E; [subst; by rewrite lookup_insert_eq|].
  by rewrite lookup_insert_ne.
Qed.

(** ** Sending *)

Definition is_trace (o : output) : Prop := match o with OutTrace _ _ => True | _ => False end.

(** Tasks that may be added to the strand of [i]: the instance exists and is
    not in shutdown, and they hold its lifetime. *)
Definition accepts w (i : Z) (new : list task) : Prop :=
  new ≠ [] →
  ∃ x, insts w !! i = Some x ∧ i_in_shutdown x = false ∧ Forall (λ t, t_lock t = i_lifetime x) new.

Definition taps_ok w : Prop := tap_count (ctx w) = u64 (Z.of_nat (length (taps (ctx w)))).

Record grows w w' : Prop := Grows {
  g_insts : insts w' = insts w;
  g_instances : instances w' = instances w;
  g_next : next_instance_id w' = next_instance_id w;
  g_user : user w' = user w;
  g_active : active (ctx w') = active (ctx w);
  g_last_exit : last_exit (ctx w') = last_exit (ctx w);
  g_registry : registry (ctx w') = registry (ctx w);
  g_debug : debug_enabled (ctx w') = debug_enabled (ctx w);
  g_holders : holders w' = holders w;
  g_taps : taps_ok w → taps_ok w';
  g_out : ∃ l, out w' = out w ++ l ∧ Forall is_trace l;
  g_strand : ∀ j, ∃ new, strand w' j = strand w j ++ new ∧ accepts w j new
}.

Lemma accepts_nil w i : accepts w i [].
Proof. by intros []. Qed.

Lemma accepts_insts w w' i l : insts w' = insts w → accepts w' i l → accepts w i l.
Proof. unfold accepts. by intros ->. Qed.

Lemma accepts_app w i l k : accepts w i l → accepts w i k → accepts w i (l ++ k).
Proof.
  intros Hl Hk Hne. destruct l as [|t l].
  - by apply Hk.
  - destruct (Hl ltac:(done)) as (x & Hx & Hs & Hall). exists x. split_and!; [done..|].
    apply Forall_app. split; [done|]. destruct k; [constructor|].
    destruct (Hk ltac:(done)) as (y & Hy & _ & Hall'). by simplify_eq.
Qed.

#[export] Instance grows_refl : Reflexive grows.
Proof.
  intros w. split; try done; [exists []; by rewrite app_nil_r|].
  intros j. exists []. rewrite app_nil_r. split; [done|apply accepts_nil].
Qed.

#[export] Instance grows_trans : Transitive grows.
Proof.
  intros w1 w2 w3 [] []. split; try congruence; [tauto| |].
  - destruct g_out0 as (l1 & H1 & T1), g_out1 as (l2 & H2 & T2). exists (l1 ++ l2).
    rewrite H2, H1, (assoc_L app). split; [done|]. by apply Forall_app.
  - intros j. destruct (g_strand0 j) as (n1 & E1 & A1), (g_strand1 j) as (n2 & E2 & A2).
    exists (n1 ++ n2). rewrite E2, E1, (assoc_L app). split; [done|].
    apply accepts_app; [done|]. by eapply accepts_insts.
Qed.

Lemma grows_emit w l : Forall is_trace l → grows w (emit w l).
Proof.
  intros Hl. split; try done; [by exists l|].
  intros j. exists []. rewrite app_nil_r. split; [done|apply accepts_nil].
Qed.

Lemma emit_upd w i f l : emit (upd w i f) l = upd (emit w l) i f.
Proof. done. Qed.

Lemma emit_emit w l k : emit (emit w l) k = emit w (l ++ k).
Proof. unfold emit. cbn. by rewrite (assoc_L app). Qed.

Lemma trace_raw_is_trace x l : Forall is_trace (trace_raw x l).
Proof. unfold trace_raw. destruct (trace_handler _); repeat constructor. Qed.

Lemma trace_is_trace i x c l : Forall is_trace (trace i x c l).
Proof. unfold trace. destruct (enabled _ _); [apply trace_raw_is_trace|constructor]. Qed.

Lemma grows_do_trace w i c l : grows w (do_trace w i c l).
Proof. apply grows_emit. destruct (insts w !! i); [apply trace_is_trace|constructor]. Qed.

Lemma grows_trace_send w i from m : grows w (trace_send w i from m).
Proof.
  apply grows_emit. destruct (insts w !! i); [|constructor].
  destruct (_ && _); [apply trace_raw_is_trace|constructor].
Qed.

Lemma grows_submit w i from m :
  is_Some (insts w !! i) → in_shutdown w i = false → grows w (submit_msg_task w i from m).
Proof.
  intros [x Hx] Hs. unfold in_shutdown in Hs. rewrite Hx in Hs.
  split; try done; [exists []; by rewrite app_nil_r|].
  intros j. unfold submit_msg_task, post_task, lifetime. rewrite set_strand, Hx. case_decide as E; [subst j|].
  - eexists. split; [done|]. intros _. exists x. split_and!; [done..|]. by constructor.
  - exists []. rewrite app_nil_r. split; [done|apply accepts_nil].
Qed.

Lemma queue_in_tap_grows w cur i from m :
  is_Some (insts w !! i) → grows w (queue_in_tap w cur i from m).1.
Proof.
  intros Hx. pose proof (grows_trace_send w i from m) as Ht. unfold queue_in_tap. cbv zeta.
  destruct (in_shutdown _ _) eqn:E; [done|]. etrans; [exact Ht|].
  apply grows_submit; [|done]. by rewrite (g_insts _ _ Ht).
Qed.

Lemma lock_Some w r i : lock w r = Some i ↔ r = Some i ∧ is_Some (insts w !! i).
Proof.
  destruct r as [j|]; cbn; [|by split; [|intros []]].
  destruct (insts w !! j) eqn:E; split.
  - intros [= <-]. by rewrite E.
  - by intros [[= <-] _].
  - done.
  - intros [[= <-] [y Hy]]. congruence.
Qed.

Lemma tap_deliver_grows w cur subs ev : grows w (tap_deliver w cur subs ev).
Proof.
  revert w. induction subs as [|s subs IH]; intros w; cbn; [done|].
  etrans; [|apply IH]. destruct (lock w (h_ref s)) eqn:E; [|done].
  apply lock_Some in E as [_ E]. by apply queue_in_tap_grows.
Qed.

Lemma length_filter_not {A} (P : A → Prop) `{!∀ a, Decision (P a)} (l : list A) :
  (length (filter P l) + length (filter (λ a, ¬ P a) l) = length l)%nat.
Proof.
  induction l as [|a l IH]; [done|]. rewrite !filter_cons.
  destruct (decide (P a)), (decide (¬ P a)); try done; cbn; lia.
Qed.

Lemma set_taps_ok w (P : bytes * handle → Prop) `{!∀ p, Decision (P p)} :
  taps_ok w →
  taps_ok (set_taps w (filter (λ p, ¬ P p) (taps (ctx w)))
    (u64 (tap_count (ctx w) - Z.of_nat (length (filter P (taps (ctx w))))))).
Proof.
  unfold taps_ok. cbn. intros ->. pose proof (length_filter_not P (taps (ctx w))) as Hlen.
  unfold u64. rewrite Zminus_mod_idemp_l. f_equal. lia.
Qed.

Lemma grows_set_taps w l n :
  (taps_ok w → taps_ok (set_taps w l n)) → grows w (set_taps w l n).
Proof.
  intros H. split; try done; [exists []; by rewrite app_nil_r|].
  intros j. exists []. rewrite app_nil_r. split; [done|apply accepts_nil].
Qed.

Lemma tap_subscribers_grows w name : grows w (tap_subscribers w name).1.
Proof. apply grows_set_taps. intros H. by apply set_taps_ok. Qed.

Lemma tap_event_grows w cur name a b m : grows w (tap_event w cur name a b m).
Proof.
  unfold tap_event. pose proof (tap_subscribers_grows w name) as Hg.
  case_bool_decide; [done|]. destruct (tap_subscribers w name) as [w' subs].
  case_bool_decide; [done|]. etrans; [exact Hg|apply tap_deliver_grows].
Qed.

Lemma tap_message_grows w cur to from m : grows w (tap_message w cur to from m).
Proof. etrans; apply tap_event_grows. Qed.

(** [queue] puts the message at the end of the strand, possibly behind tap
    events for the same instance. *)
Lemma queue_spec w cur i from m x :
  insts w !! i = Some x →
  grows w (queue w cur i from m).1 ∧
  if i_in_shutdown x then ∀ j, strand (queue w cur i from m).1 j = strand w j
  else (queue w cur i from m).2 = Ok None ∧
       ∃ new, strand (queue w cur i from m).1 i = strand w i ++ new ++ [Task from m (i_lifetime x)].
Proof.
  intros Hx. pose proof (grows_trace_send w i from m) as Ht. unfold queue. cbv zeta.
  set (w1 := trace_send w i from m) in *.
  assert (in_shutdown w1 i = i_in_shutdown x) as Hsh by (unfold in_shutdown; by rewrite (g_insts _ _ Ht), Hx).
  rewrite Hsh. destruct (i_in_shutdown x) eqn:E; [done|]. cbn.
  set (w2 := if is_tapping w1 && negb (is_null m) then _ else w1).
  assert (grows w1 w2) as H2 by (unfold w2; destruct (_ && _); [apply tap_message_grows|done]).
  assert (insts w2 = insts w) as Hi by by rewrite (g_insts _ _ H2), (g_insts _ _ Ht).
  split; [|split; [done|]].
  - etrans; [exact Ht|]. etrans; [exact H2|]. apply grows_submit; [by rewrite Hi, Hx|].
    unfold in_shutdown. by rewrite Hi, Hx.
  - destruct (g_strand _ _ H2 i) as (new & Hn & _). exists new.
    unfold submit_msg_task, post_task, lifetime. rewrite set_strand, decide_True by done. rewrite Hi, Hx.
    rewrite Hn. by rewrite <- (assoc_L app).
Qed.

Lemma queue_grows w cur i from m :
  is_Some (insts w !! i) → grows w (queue w cur i from m).1.
Proof. intros [x Hx]. by destruct (queue_spec w cur i from m x Hx). Qed.

Lemma handle_send_grows w cur h m : grows w (handle_send_raw w cur h m).1.
Proof.
  unfold handle_send_raw. destruct (lock w (h_ref h)) eqn:E; [|done].
  apply lock_Some in E as [_ E]. by apply queue_grows.
Qed.

Lemma send_all_grows w cur m l :
  grows w (foldl (λ w h, (handle_send_raw w cur h m).1) w l).
Proof.
  revert w. induction l as [|h l IH]; intros w; cbn; [done|].
  etrans; [apply handle_send_grows|apply IH].
Qed.

(** ** Holders *)

Lemma is_held_true w i : is_held w i = true ↔ ∃ n h, holders w !! n = Some h ∧ holds h = i.
Proof.
  unfold is_held. rewrite existsb_exists. split.
  - intros ([n h] & Hin & Hi%Z.eqb_eq). exists n, h. split; [|done].
    by apply elem_of_map_to_list, list_elem_of_In.
  - intros (n & h & Hn & Hi). exists (n, h). split; [|by apply Z.eqb_eq].
    by apply list_elem_of_In, elem_of_map_to_list.
Qed.

Lemma is_held_eq w w' i : holders w' = holders w → is_held w' i = is_held w i.
Proof. unfold is_held. by intros ->. Qed.

(** The tasks that sends have ready for the strand of [j]. *)
Definition flight (j : Z) (h : holder) : option task :=
  match h with HCopied i from m lk => if decide (i = j) then Some (Task from m lk) else None | _ => None end.
Definition flying w (j : Z) : list task := omap (λ p, flight j p.2) (map_to_list (holders w)).

Lemma flying_eq w w' j : holders w' = holders w → flying w' j = flying w j.
Proof. unfold flying. by intros ->. Qed.

Lemma flying_delete w n h j :
  holders w !! n = Some h →
  flying w j ≡ₚ option_list (flight j h) ++ flying (set_holders w (delete n (holders w))) j.
Proof.
  intros Hn. unfold flying. cbn. rewrite <- (map_to_list_delete (holders w) n h Hn). cbn. by destruct (flight j h).
Qed.

Lemma flying_insert w n h j :
  flying (set_holders w (<[n := h]> (holders w))) j ≡ₚ
    option_list (flight j h) ++ flying (set_holders w (delete n (holders w))) j.
Proof.
  unfold flying. cbn. rewrite <- insert_delete_eq, map_to_list_insert by apply lookup_delete_eq. cbn.
  by destruct (flight j h).
Qed.

Lemma flying_new w n h j :
  holders w !! n = None → flying (set_holders w (<[n := h]> (holders w))) j ≡ₚ option_list (flight j h) ++ flying w j.
Proof. intros Hn. rewrite flying_insert. unfold flying. cbn. by rewrite delete_id. Qed.

(** ** The invariant *)

(** An instance between tasks, or at a call of the running one. *)
Definition inst_ok w (i : Z) x : Prop :=
  i_lifetime x = negb (i_in_shutdown x) ∧
  (is_Some (i_run x) → i_in_shutdown x = false) ∧
  (i_in_shutdown x = true → strand w i ≠ [] ∨ is_held w i = true) ∧
  (i_run x = None → i_in_shutdown x = false → is_Some (i_receiver x)) ∧
  i_exited_receiver x = None ∧ i_exited_sync_receiver x = None.

(** The invariant, but for the instance [k] in the middle of a task. *)
Record wf_but (k : option Z) w : Prop := Wf {
  wf_ids : ∀ i, is_Some (insts w !! i) → 1 <= i < next_instance_id w;
  wf_next : 1 <= next_instance_id w;
  wf_table : ∀ i, instances w !! i = (λ _, Some i) <$> insts w !! i;
  wf_active : active (ctx w) = u64 (Z.of_nat (size (insts w)));
  wf_tasks : ∀ i, strand w i ≠ [] →
    is_Some (insts w !! i) ∧ Forall (λ t, t_lock t = true) (strand w i);
  wf_weak : ∀ i x, insts w !! i = Some x → i_in_shutdown x = false → i_lifetime x = true;
  wf_inst : ∀ i x, insts w !! i = Some x → Some i ≠ k → inst_ok w i x;
  wf_holders : ∀ n h, holders w !! n = Some h →
    is_Some (insts w !! holds h) ∧ ∀ i from m lk, h = HCopied i from m lk → lk = true;
  wf_taps : taps_ok w;
  wf_registry : ∀ name h, registry (ctx w) !! name = Some h →
    ∃ i, h = self_handle i ∧ 1 <= i < next_instance_id w
}.

Abbreviation wf := (wf_but None).

Lemma context_create_wf (u : U) : wf (context_create u : world U C).
Proof.
  split; cbn; try done; try (intros; by simplify_map_eq).
Qed.

Lemma wf_but_weaken k w : wf w → wf_but k w.
Proof. intros []. split; auto. Qed.

Lemma wf_but_restore w i x :
  wf_but (Some i) w → insts w !! i = Some x → inst_ok w i x → wf w.
Proof.
  intros [] Hx Hok. split; try done. intros j y Hy _.
  destruct (decide (j = i)) as [->|]; [by simplify_eq|]. apply wf_inst0; [done|congruence].
Qed.

Lemma wf_grows k w w' : wf_but k w → grows w w' → wf_but k w'.
Proof.
  intros [] []. split; rewrite ?g_insts0, ?g_instances0, ?g_next0, ?g_active0, ?g_registry0, ?g_holders0; auto.
  - intros i. destruct (g_strand0 i) as (new & -> & Hnew). intros Hne. destruct new as [|t new].
    { rewrite app_nil_r in *. auto. }
    destruct (Hnew ltac:(done)) as (x & Hx & Hs & Hall). split; [by exists x|].
    apply Forall_app. split.
    + destruct (strand w i) eqn:E; [constructor|]. rewrite <- E. apply wf_tasks0. by rewrite E.
    + eapply Forall_impl; [exact Hall|]. cbn. intros t' ->. by apply (wf_weak0 i).
  - intros i x Hx Hk. destruct (wf_inst0 i x Hx Hk) as (H1 & H2 & H3 & H4).
    split_and!; [done|done| |apply H4..]. intros Hs. destruct (H3 Hs) as [Hne|Hh]; [left|right].
    + destruct (g_strand0 i) as (new & -> & _). by destruct (strand w i).
    + by rewrite (is_held_eq w).
Qed.

(** An update of the instance that is left out. *)
Lemma wf_upd_but w i (f : inst U C → inst U C) :
  wf_but (Some i) w →
  (∀ x, insts w !! i = Some x → i_in_shutdown (f x) = false → i_lifetime (f x) = true) →
  wf_but (Some i) (upd w i f).
Proof.
  intros [] Hf. unfold upd. split; cbn; auto.
  - intros j Hj. apply wf_ids0. by apply lookup_alter_is_Some in Hj.
  - intros j. rewrite wf_table0. destruct (decide (i = j)) as [<-|].
    + rewrite lookup_alter_eq. by destruct (insts w !! i).
    + by rewrite lookup_alter_ne.
  - rewrite wf_active0. do 2 f_equal.
    by rewrite <- (size_dom (D:=gset Z) (alter f i (insts w))), dom_alter_L, size_dom.
  - intros j Hj. specialize (wf_tasks0 j Hj) as [? ?]. split; [|done].
    by apply lookup_alter_is_Some.
  - intros j y Hy. destruct (decide (i = j)) as [<-|].
    + rewrite lookup_alter_eq in Hy. destruct (insts w !! i) as [x|] eqn:E; [|done].
      injection Hy as <-. by apply Hf.
    + rewrite lookup_alter_ne in Hy by done. eauto.
  - intros j y Hy Hk. rewrite lookup_alter_ne in Hy by congruence. apply wf_inst0 in Hy; done.
  - intros n h Hn. destruct (wf_holders0 n h Hn) as [? ?]. split; [|done]. by apply lookup_alter_is_Some.
Qed.

Lemma lookup_upd w i f : insts (upd w i f) !! i = f <$> insts w !! i.
Proof. apply lookup_alter_eq. Qed.

Lemma lookup_upd_ne w i j f : i ≠ j → insts (upd w i f) !! j = insts w !! j.
Proof. apply lookup_alter_ne. Qed.

Lemma wf_upd w i x (f : inst U C → inst U C) :
  wf w → insts w !! i = Some x → inst_ok w i (f x) → wf (upd w i f).
Proof.
  intros Hw Hx Hok. eapply (wf_but_restore _ i (f x)).
  - apply wf_upd_but; [by apply wf_but_weaken|]. intros y Hy. simplify_eq.
    destruct Hok as (-> & _). by destruct (i_in_shutdown (f x)).
  - by rewrite lookup_upd, Hx.
  - exact Hok.
Qed.

(** ** Exit *)

Lemma upd_insts w i x f : insts w !! i = Some x → insts (upd w i f) = <[i := f x]> (insts w).
Proof.
  intros Hx. apply map_eq. intros j. destruct (decide (i = j)) as [<-|].
  - by rewrite lookup_upd, Hx, lookup_insert_eq.
  - by rewrite lookup_upd_ne, lookup_insert_ne.
Qed.

Lemma exit_notify_grows w i x m : grows (upd w i set_in_shutdown) (exit_notify w i x m).
Proof.
  unfold exit_notify. cbv zeta. etrans; [apply send_all_grows|]. etrans; [apply grows_do_trace|].
  destruct (is_tapping _); [apply tap_event_grows|done].
Qed.

Lemma wf_emit k w l : wf_but k w → wf_but k (emit w l).
Proof. intros []. split; auto. Qed.

(** An update of an instance in shutdown that leaves it there. *)
Lemma wf_upd_shutdown w i x f :
  wf_but (Some i) w → insts w !! i = Some x →
  i_in_shutdown (f x) = true → wf_but (Some i) (upd w i f).
Proof.
  intros Hw Hx Hs. apply wf_upd_but; [done|]. intros y Hy. simplify_eq. congruence.
Qed.

(** [handle_exit] puts the instance in shutdown; when it returns, the instance
    no longer owns itself, and when it throws, its exit handlers are gone. *)
Lemma handle_exit_spec w i m x :
  wf_but (Some i) w → insts w !! i = Some x →
  ∃ x', insts (handle_exit w i m).1 = <[i := x']> (insts w) ∧
    wf_but (Some i) (handle_exit w i m).1 ∧
    i_in_shutdown x' = true ∧ i_run x' = i_run x ∧ i_name x' = i_name x ∧
    match (handle_exit w i m).2 with
    | Ok _ => i_lifetime x' = false
    | Throw e => i_exit_handlers x' = [] ∧ i_exit_handlers x ≠ [] ∧ exit_reason m = Throw e
    end.
Proof.
  intros Hw Hx. unfold handle_exit. rewrite Hx. cbv zeta.
  pose proof (exit_notify_grows w i x m) as Hg. set (w1 := exit_notify w i x m) in *.
  assert (wf_but (Some i) w1) as Hw1.
  { eapply wf_grows; [|exact Hg]. by eapply wf_upd_shutdown. }
  assert (insts w1 = <[i := set_in_shutdown x]> (insts w)) as Hi1
    by by rewrite (g_insts _ _ Hg), (upd_insts _ _ _ _ Hx).
  assert (insts w1 !! i = Some (set_in_shutdown x)) as Hx1 by by rewrite Hi1, lookup_insert_eq.
  destruct (i_exit_handlers x) as [|eh ehs] eqn:Eh; cbn [fst snd].
  - exists (swap_exited (set_in_shutdown x)). split_and!; [| |done..].
    + by rewrite (upd_insts _ _ _ _ Hx1), Hi1, insert_insert_eq.
    + by eapply wf_upd_shutdown.
  - set (w2 := upd w1 i (λ x, set_exit_handlers x [])).
    assert (wf_but (Some i) w2) as Hw2 by by eapply wf_upd_shutdown.
    assert (insts w2 = <[i := set_exit_handlers (set_in_shutdown x) []]> (insts w)) as Hi2
      by (unfold w2; by rewrite (upd_insts _ _ _ _ Hx1), Hi1, insert_insert_eq).
    destruct (exit_reason m) as [err|e] eqn:Er; cbn [fst snd].
    + exists (swap_exited (set_exit_handlers (set_in_shutdown x) [])).
      assert (insts (emit w2 ((λ eh, OutExit eh err) <$> eh :: ehs)) !! i
        = Some (set_exit_handlers (set_in_shutdown x) [])) as Hx2
        by by cbn [insts emit]; rewrite Hi2, lookup_insert_eq.
      split_and!; [| |done..].
      * rewrite (upd_insts _ _ _ _ Hx2). cbn [insts emit]. by rewrite Hi2, insert_insert_eq.
      * eapply wf_upd_shutdown; [by apply wf_emit|exact Hx2|done..].
    + exists (set_exit_handlers (set_in_shutdown x) []). by split_and!.
Qed.

(** ** Deletion *)

Lemma wf_destroy w i x :
  wf_but (Some i) w → insts w !! i = Some x → strand w i = [] → is_held w i = false → wf (destroy w i x).
Proof.
  intros Hw Hx Hst Hh.
  set (w1 := set_insts (set_active (set_instances w (delete i (instances w)))
    (u64 (active (ctx w) - 1))) (delete i (insts w))).
  assert (wf w1) as Hw1.
  { destruct Hw. split; cbn; auto.
    - intros j [y Hy]. apply lookup_delete_Some in Hy as [_ Hy]. eauto.
    - intros j. destruct (decide (i = j)) as [<-|]; [by rewrite !lookup_delete_eq|].
      by rewrite !lookup_delete_ne.
    - rewrite wf_active0, map_size_delete, Hx. unfold u64. rewrite Zminus_mod_idemp_l. f_equal.
      assert (size (insts w) ≠ 0%nat); [|lia]. intros E%map_size_empty_iff. by rewrite E in Hx.
    - intros j Hj. assert (i ≠ j) by (intros ->; by apply Hj). rewrite lookup_delete_ne by done.
      by apply wf_tasks0.
    - intros j y Hy. apply lookup_delete_Some in Hy as [_ Hy]. eauto.
    - intros j y Hy _. apply lookup_delete_Some in Hy as [Hne Hy].
      apply (wf_inst0 j y Hy). congruence.
    - intros n h Hn. destruct (wf_holders0 n h Hn) as [? ?]. split; [|done]. rewrite lookup_delete_ne; [done|].
      intros Hi. assert (is_held w i = true); [apply is_held_true; eauto|congruence]. }
  unfold destroy. cbv zeta. fold w1. destruct (_ =? 1); [destruct (last_exit _)|];
    by repeat apply wf_emit.
Qed.

(** The end of a task on an instance that is as [inst_ok] says, but for the
    tasks that hold it. *)
Lemma wf_collect w i x :
  wf_but (Some i) w → insts w !! i = Some x →
  i_lifetime x = negb (i_in_shutdown x) →
  (i_in_shutdown x = false → is_Some (i_receiver x)) →
  i_run x = None → i_exited_receiver x = None → i_exited_sync_receiver x = None →
  wf (collect w i).
Proof.
  intros Hw Hx Hl Hr Hrun He1 He2. unfold collect. rewrite Hx. unfold held. rewrite Hrun, Hl.
  destruct (i_in_shutdown x) eqn:Hs; cbn [negb orb].
  - assert (strand w i ≠ [] ∨ is_held w i = true → wf w) as Hkeep.
    { intros Hne. eapply wf_but_restore; [done..|]. unfold inst_ok. rewrite Hs, Hl, Hrun. split_and!; try done; by intros []. }
    destruct (strand w i) as [|t ts] eqn:Et; cbn [existsb].
    + rewrite (bool_decide_false (is_Some None)) by by intros []. cbn [orb].
      destruct (is_held w i) eqn:Eh; [by apply Hkeep; right|by apply wf_destroy].
    + destruct (wf_tasks _ _ Hw i) as [_ Hall]; [by rewrite Et|]. rewrite Et in Hall.
      apply Forall_cons in Hall as [-> _]. apply Hkeep. by left.
  - eapply wf_but_restore; [done..|]. unfold inst_ok. rewrite Hs, Hl, Hrun.
    split_and!; try done; by intros [].
Qed.

Lemma wf_run_end w i x :
  wf_but (Some i) w → insts w !! i = Some x →
  i_lifetime x = negb (i_in_shutdown x) →
  (i_in_shutdown x = false → is_Some (i_receiver x)) →
  wf (run_end w i).
Proof.
  intros Hw Hx Hl Hr. unfold run_end.
  set (w1 := if in_shutdown w i then w else _).
  assert (grows w w1) as Hg by (unfold w1; destruct (in_shutdown w i); [done|apply grows_do_trace]).
  assert (insts w1 !! i = Some x) as Hx1 by by rewrite (g_insts _ _ Hg).
  apply (wf_collect _ i (cleanup x)); try done.
  - apply wf_upd_but; [by eapply wf_grows|]. intros y Hy. simplify_eq. cbn.
    rewrite Hl. by intros ->.
  - by rewrite lookup_upd, Hx1.
Qed.

(** ** Running a task *)

Definition outcome_ok (o : outcome U C) : Prop :=
  match o with Next w => wf w | Crash => False | Blocked | Terminate _ => True end.

Lemma run_catch_ok w i x t :
  wf_but (Some i) w → insts w !! i = Some x → outcome_ok (run_catch w i t).
Proof.
  intros Hw Hx. unfold run_catch.
  destruct (handle_exit_spec w i (catch_message t) x Hw Hx) as (x' & Hi & Hw' & Hs & _ & _ & Hl).
  destruct (handle_exit _ _ _) as [w' [[]|e]]; cbn [fst snd] in *; [|done].
  apply (wf_run_end _ _ x'); [done|by rewrite Hi, lookup_insert_eq|by rewrite Hl, Hs|congruence].
Qed.

Lemma run_exit_ok w i x m :
  wf_but (Some i) w → insts w !! i = Some x → outcome_ok (run_exit w i m).
Proof.
  intros Hw Hx. unfold run_exit.
  destruct (handle_exit_spec w i m x Hw Hx) as (x' & Hi & Hw' & Hs & _ & _ & Hl).
  destruct (handle_exit _ _ _) as [w' [[]|e]]; cbn [fst snd] in *.
  - apply (wf_run_end _ _ x'); [done|by rewrite Hi, lookup_insert_eq|by rewrite Hl, Hs|congruence].
  - apply (run_catch_ok _ _ x'); [done|by rewrite Hi, lookup_insert_eq].
Qed.

Lemma run_ret_ok w i x r :
  wf_but (Some i) w → insts w !! i = Some x → i_in_shutdown x = false → outcome_ok (run_ret w i r).
Proof.
  intros Hw Hx Hs. destruct r as [e|]; [by eapply run_exit_ok|]. unfold run_ret. rewrite Hx.
  destruct (i_receiver x) eqn:Hr; [|by eapply run_exit_ok].
  apply (wf_run_end _ _ x); [done..| |by rewrite Hr].
  rewrite Hs. cbn. by apply (wf_weak _ _ Hw i x).
Qed.

(** An instance that waits for a message. *)
Definition waiting x : Prop :=
  i_in_shutdown x = false ∧ i_lifetime x = true ∧ i_run x = None ∧ is_Some (i_receiver x) ∧
  i_exited_receiver x = None ∧ i_exited_sync_receiver x = None.

Section call.
Context (call : C → handle → bytes → prog U C).

Lemma run_receiver_ok w i x y from msg :
  wf_but (Some i) w → insts w !! i = Some y → waiting y → i_receiver x = i_receiver y →
  outcome_ok (run_receiver call w i x from msg).
Proof.
  intros Hw Hy (Hs & Hl & Hr & Hrc & He1 & He2) Hx. unfold run_receiver. rewrite Hx.
  assert (∀ w' f, grows w w' → inst_ok w' i (f y) → wf (upd w' i f)) as Hwf.
  { intros w' f Hg Hok. assert (insts w' !! i = Some y) as Hy' by by rewrite (g_insts _ _ Hg).
    eapply (wf_but_restore _ i (f y)); [|by rewrite lookup_upd, Hy'|done].
    apply wf_upd_but; [by eapply wf_grows|]. intros z Hz. simplify_eq.
    destruct Hok as (-> & _). by destruct (i_in_shutdown (f y)). }
  destruct Hrc as [[b|c] ->].
  - apply Hwf; [apply grows_do_trace|]. split_and!; cbn; try done; by rewrite Hs.
  - apply Hwf; [done..|]. split_and!; cbn; try done; by rewrite Hs.
Qed.

Lemma run_body_ok w i x y from msg :
  wf_but (Some i) w → insts w !! i = Some y → waiting y → i_receiver x = i_receiver y →
  outcome_ok (run_body call w i x from msg).
Proof.
  intros Hw Hy Hwait Hx. unfold run_body. cbv zeta.
  pose proof (grows_do_trace w i ch_execute [AString (str "run")]) as Hg. set (w1 := do_trace _ _ _ _) in *.
  assert (insts w1 !! i = Some y) as Hy1 by by rewrite (g_insts _ _ Hg).
  assert (wf_but (Some i) w1) as Hw1 by by eapply wf_grows.
  destruct (if i_trap_exit x then _ else _) as [[]|e].
  - case_bool_decide; [|by eapply run_exit_ok]. destruct Hwait as (Hs & Hl & _ & Hrc & _).
    apply (wf_run_end _ _ y); [done..|by rewrite Hs, Hl|done].
  - set (w2 := if is_null msg then w1 else _).
    assert (grows w1 w2) as Hg2 by (unfold w2; destruct (is_null msg); [done|apply grows_do_trace]).
    eapply run_receiver_ok; [by eapply wf_grows|by rewrite (g_insts _ _ Hg2)|done..].
  - by eapply run_catch_ok.
Qed.

Lemma run_link_grows w i x from :
  insts w !! i = Some x →
  grows (upd w i (λ x, set_links x (from :: i_links x))) (run_link w i x from).
Proof.
  intros Hx. unfold run_link. cbv zeta.
  set (w1 := if i_observe_links x then w else _).
  assert (∃ l, w1 = emit w l ∧ Forall is_trace l) as (l1 & -> & H1).
  { unfold w1. destruct (i_observe_links x).
    - exists []. split; [|constructor]. destruct w. unfold emit. cbn. by rewrite app_nil_r.
    - eexists. split; [reflexivity|]. rewrite Hx. apply trace_is_trace. }
  set (w2 := emit (upd _ _ _) _).
  assert (grows (upd w i (λ x, set_links x (from :: i_links x))) w2) as Hg.
  { unfold w2, do_trace. rewrite <- !emit_upd. rewrite !emit_emit. apply grows_emit.
    repeat (apply Forall_app; split); [done|..];
      repeat case_match; solve [apply trace_is_trace | constructor]. }
  destruct (i_observe_links x); [done|]. etrans; [exact Hg|apply grows_do_trace].
Qed.

Lemma run_ok w i x from msg :
  wf_but (Some i) w → insts w !! i = Some x →
  i_lifetime x = negb (i_in_shutdown x) → (i_in_shutdown x = false → is_Some (i_receiver x)) →
  i_run x = None → i_exited_receiver x = None → i_exited_sync_receiver x = None →
  outcome_ok (run call w i x from msg).
Proof.
  intros Hw Hx Hl Hrc Hr He1 He2. unfold run.
  set (p := if is_link_msg msg then _ else _).
  assert (∃ w1 y, p.1 = w1 ∧ wf_but (Some i) w1 ∧ insts w1 !! i = Some y ∧
    (y = x ∨ y = set_links x (from :: i_links x))) as (w1 & y & Hp & Hw1 & Hy & Hxy).
  { unfold p. destruct (is_link_msg msg); cbn [fst]; [|by eexists _, x; eauto].
    pose proof (run_link_grows w i x from Hx) as Hg. eexists _, (set_links x (from :: i_links x)).
    split_and!; [done| |by rewrite (g_insts _ _ Hg), lookup_upd, Hx|by right].
    eapply wf_grows; [|exact Hg]. apply wf_upd_but; [done|]. intros z Hz. simplify_eq.
    cbn. rewrite Hl. by intros ->. }
  assert (i_lifetime y = i_lifetime x ∧ i_in_shutdown y = i_in_shutdown x ∧ i_run y = i_run x ∧
    i_receiver x = i_receiver y ∧ i_exited_receiver y = i_exited_receiver x ∧
    i_exited_sync_receiver y = i_exited_sync_receiver x) as (E1 & E2 & E3 & E4 & E5 & E6)
    by (destruct Hxy as [-> | ->]; done).
  destruct p as [w1' ret]. cbn in Hp. subst w1'.
  assert (wf (collect w1 i)) as Hc by (apply (wf_collect _ i y); rewrite ?E1, ?E2, ?E3, ?E5, ?E6, <- ?E4; done).
  destruct ret; [done|]. destruct (i_in_shutdown x) eqn:Hs; [done|].
  apply (run_body_ok _ _ _ y); [done..| |done].
  unfold waiting. rewrite E1, E2, E3, E5, E6, <- E4, Hl. auto 10.
Qed.

Lemma wf_pop w i t ts :
  wf w → strand w i = t :: ts → wf_but (Some i) (set_strands w (<[i := ts]> (strands w))).
Proof.
  intros [] Ht. split; try done.
  - intros j. rewrite set_strand. case_decide as E; [subst j|apply wf_tasks0].
    intros _. destruct (wf_tasks0 i) as [H1 H2]; [by rewrite Ht|]. split; [done|].
    rewrite Ht in H2. by apply Forall_cons in H2 as [_ H2].
  - intros j x Hx Hk. destruct (wf_inst0 j x Hx) as (H1 & H2 & H3 & H4); [done|].
    split_and!; [done|done| |apply H4..]. intros Hs. rewrite set_strand. case_decide; [congruence|]. by apply H3.
Qed.

(** ** The API *)

(** What a call leaves of the instances that were there. *)
Definition keeps w w' : Prop :=
  ∀ j x, insts w !! j = Some x →
  ∃ x', insts w' !! j = Some x' ∧ i_run x' = i_run x ∧ i_in_shutdown x' = i_in_shutdown x.

Lemma grows_keeps w w' : grows w w' → keeps w w'.
Proof. intros Hg j x Hx. exists x. by rewrite (g_insts _ _ Hg). Qed.

Lemma keeps_trans w1 w2 w3 : keeps w1 w2 → keeps w2 w3 → keeps w1 w3.
Proof.
  intros H1 H2 j x Hx. destruct (H1 j x Hx) as (y & Hy & ? & ?).
  destruct (H2 j y Hy) as (z & Hz & ? & ?). exists z. split_and!; [done|congruence..].
Qed.

Lemma keeps_upd w i f :
  (∀ x, insts w !! i = Some x → i_run (f x) = i_run x ∧ i_in_shutdown (f x) = i_in_shutdown x) →
  keeps w (upd w i f).
Proof.
  intros Hf j x Hx. destruct (decide (i = j)) as [<-|].
  - exists (f x). rewrite lookup_upd, Hx. split; [done|auto].
  - exists x. by rewrite lookup_upd_ne.
Qed.

Lemma fresh_lookup k w : wf_but k w → insts w !! next_instance_id w = None.
Proof.
  intros Hw. destruct (insts w !! _) eqn:E; [|done].
  destruct (wf_ids _ _ Hw (next_instance_id w)); [by rewrite E|lia].
Qed.

Lemma fresh_strand k w : wf_but k w → strand w (next_instance_id w) = [].
Proof.
  intros Hw. destruct (strand w _) eqn:E; [done|].
  destruct (wf_tasks _ _ Hw (next_instance_id w)) as [[x Hx] _]; [by rewrite E|].
  by rewrite (fresh_lookup k w Hw) in Hx.
Qed.

Lemma construct_insts w b eh name e :
  ∃ x, insts (construct w b eh name e) = <[next_instance_id w := x]> (insts w) ∧
    i_in_shutdown x = false ∧ i_lifetime x = true ∧ i_receiver x = Some (RInit b) ∧ i_run x = None ∧
    i_name x = name ∧ i_exited_receiver x = None ∧ i_exited_sync_receiver x = None.
Proof. by eexists. Qed.

Lemma wf_construct w b eh name e : wf w → wf (construct w b eh name e).
Proof.
  intros Hw. pose proof (fresh_lookup _ w Hw) as Hn. destruct Hw. set (i := next_instance_id w) in *.
  unfold construct. fold i. split; cbn.
  - intros j [y Hy]. destruct (decide (i = j)) as [<-|]; [lia|].
    rewrite lookup_insert_ne in Hy by done. destruct (wf_ids0 j); [eauto|lia].
  - lia.
  - intros j. destruct (decide (i = j)) as [<-|]; [by rewrite !lookup_insert_eq|].
    by rewrite !lookup_insert_ne.
  - rewrite wf_active0, map_size_insert_None by done. unfold u64. rewrite Zplus_mod_idemp_l.
    f_equal. lia.
  - intros j Hj. destruct (wf_tasks0 j Hj) as [Hs ?]. split; [|done].
    destruct (decide (i = j)) as [<-|]; [by rewrite lookup_insert_eq|by rewrite lookup_insert_ne].
  - intros j y Hy. destruct (decide (i = j)) as [<-|].
    + rewrite lookup_insert_eq in Hy. by injection Hy as <-.
    + rewrite lookup_insert_ne in Hy by done. eauto.
  - intros j y Hy _. destruct (decide (i = j)) as [<-|].
    + rewrite lookup_insert_eq in Hy. injection Hy as <-. by split_and!.
    + rewrite lookup_insert_ne in Hy by done. by apply wf_inst0.
  - intros n h Hh. destruct (wf_holders0 n h Hh) as [? ?]. split; [|done].
    destruct (decide (i = holds h)) as [<-|]; [by rewrite lookup_insert_eq|by rewrite lookup_insert_ne].
  - done.
  - intros n h Hh. destruct (wf_registry0 n h Hh) as (j & -> & Hj). exists j. split; [done|lia].
Qed.

Lemma wf_set_ctx w c :
  wf w → active c = active (ctx w) → taps_ok (set_ctx w c) →
  (∀ name h, registry c !! name = Some h →
    ∃ i, h = self_handle i ∧ 1 <= i < next_instance_id w) →
  wf (set_ctx w c).
Proof. intros [] Ha Ht Hr. split; cbn; auto. congruence. Qed.

Lemma wf_register w i : wf w → wf (register_instance w (self_handle i)).
Proof.
  intros Hw. unfold register_instance. destruct (isenabled w); cbn [negb]; [|done].
  destruct (lock w _) as [p|] eqn:E; [|done]. apply lock_Some in E as [[= ->] [x Hx]].
  case_bool_decide; [done|]. apply wf_set_ctx; [done..|apply Hw|]. cbn. rewrite Hx.
  intros name h. destruct (decide (i_name x = name)) as [<-|].
  - rewrite lookup_insert_eq. intros [= <-]. exists p.
    destruct (wf_ids _ _ Hw p); [eauto|]. split; [done|lia].
  - rewrite lookup_insert_ne by done. apply Hw.
Qed.

Lemma register_same w h :
  insts (register_instance w h) = insts w ∧ strands (register_instance w h) = strands w ∧
  next_instance_id (register_instance w h) = next_instance_id w.
Proof. unfold register_instance. repeat case_match; done. Qed.

Lemma schedule_spec w cur i x :
  wf w → insts w !! i = Some x → i_in_shutdown x = false →
  let '(w', r) := schedule w cur i (self_handle i) in
  r = Ok (inl (self_handle i)) ∧ wf w' ∧ insts w' = insts w ∧
  next_instance_id w' = next_instance_id w ∧
  ∃ new, strand w' i = strand w i ++ new ++ [Task null_handle null_value (i_lifetime x)].
Proof.
  intros Hw Hx Hs. unfold schedule.
  pose proof (queue_spec w cur i null_handle null_value x Hx) as [Hg Hq]. rewrite Hs in Hq.
  destruct (queue _ _ _ _ _) as [w' r]. cbn [fst snd] in *. destruct Hq as [-> [new Hnew]].
  destruct (register_same w' (self_handle i)) as (Ei & Es & En).
  split_and!; [done|by apply wf_register; eapply wf_grows|by rewrite Ei, (g_insts _ _ Hg)|
               by rewrite En, (g_next _ _ Hg)|].
  exists new. unfold strand in *. by rewrite Es.
Qed.

(** [spawn] always succeeds: a new instance waits with its behaviour, its first
    message queued, the link message before it. *)
Lemma spawn_spec w cur b eh name lnk e :
  wf w →
  let i := next_instance_id w in
  let '(w', r) := spawn w cur b eh name lnk e in
  r = Ok (inl (self_handle i)) ∧ wf w' ∧ next_instance_id w' = i + 1 ∧
  (∃ x, insts w' = <[i := x]> (insts w) ∧ waiting x ∧ i_receiver x = Some (RInit b) ∧
        i_name x = name) ∧
  (∃ pre, strand w' i = pre ++ [Task null_handle null_value true] ∧
          ∀ j, lock w lnk = Some j → Task (self_handle j) link_msg true ∈ pre).
Proof.
  intros Hw. cbv zeta. set (i := next_instance_id w). unfold spawn. fold i.
  destruct (construct_insts w b eh name e) as (x & Hi & Hs & Hl & Hrc & Hrun & Hn & He1 & He2).
  fold i in Hi. pose proof (wf_construct w b eh name e Hw) as Hw1.
  assert (next_instance_id (construct w b eh name e) = i + 1) as Hnx by done.
  assert (strand (construct w b eh name e) i = []) as Hst by by apply (fresh_strand None w).
  set (w1 := construct w b eh name e) in *. cbv zeta.
  pose proof (grows_do_trace w1 i ch_lifetime [AString (str "spawn")]) as Hg.
  assert (strand (do_trace w1 i ch_lifetime [AString (str "spawn")]) i = []) as Hst2 by done.
  set (w2 := do_trace _ _ _ _) in *.
  assert (wf w2) as Hw2 by by eapply wf_grows.
  assert (insts w2 = <[i := x]> (insts w)) as Hi2 by by rewrite (g_insts _ _ Hg).
  assert (insts w2 !! i = Some x) as Hx2 by by rewrite Hi2, lookup_insert_eq.
  assert (make_handle w2 (Some i) = self_handle i) as ->
    by (unfold make_handle, lock; by rewrite Hx2).
  assert (∀ j, lock w lnk = Some j → lock w2 lnk = Some j ∧ lnk = Some j) as Hlk.
  { intros j Hj. apply lock_Some in Hj as [-> Hj]. split; [|done]. apply lock_Some. split; [done|].
    rewrite Hi2. destruct (decide (i = j)) as [<-|]; [by rewrite lookup_insert_eq|].
    by rewrite lookup_insert_ne. }
  assert (∃ y, insts w2 = <[i := y]> (insts w) ∧ waiting y ∧ i_receiver y = Some (RInit b) ∧
    i_name y = name) as Hy by (exists x; unfold waiting; rewrite Hrc; eauto 12).
  destruct (expired w2 lnk) eqn:Ex.
  - pose proof (schedule_spec w2 cur i x Hw2 Hx2 Hs) as H.
    destruct (schedule _ _ _ _) as [w' r]. destruct H as (-> & Hw' & Hi' & Hn' & new & Hnew).
    split_and!; [done|done|by rewrite Hn', (g_next _ _ Hg)|by rewrite Hi'|].
    exists new. rewrite Hnew, Hst2, Hl. split; [done|]. intros j Hj.
    destruct (Hlk j Hj) as [Hj' ->]. unfold expired in Ex. rewrite Hj' in Ex.
    by rewrite bool_decide_true in Ex.
  - pose proof (queue_spec w2 cur i (make_handle w2 lnk) link_msg x Hx2) as [Hg3 Hq]. rewrite Hs in Hq.
    destruct (queue _ _ _ _ _) as [w3 r3]. cbn [fst snd] in *. destruct Hq as [-> [new3 Hnew3]].
    pose proof (schedule_spec w3 cur i x) as H. rewrite (g_insts _ _ Hg3) in H.
    specialize (H (wf_grows _ _ _ Hw2 Hg3) Hx2 Hs).
    destruct (schedule _ _ _ _) as [w' r]. destruct H as (-> & Hw' & Hi' & Hn' & new & Hnew).
    split_and!; [done|done|by rewrite Hn', (g_next _ _ Hg3), (g_next _ _ Hg)|by rewrite Hi'|].
    exists (new3 ++ [Task (make_handle w2 lnk) link_msg (i_lifetime x)] ++ new).
    rewrite Hnew, Hnew3, Hst2, Hl. split; [by rewrite <- !(assoc_L app)|]. intros j Hj.
    destruct (Hlk j Hj) as [Hj' ->]. apply elem_of_app. right. apply elem_of_cons. left.
    unfold make_handle. by rewrite Hj'.
Qed.

(** A call by the instance [cur], which is running, or from outside. *)
Definition caller w (cur : option Z) : Prop :=
  ∀ i, cur = Some i → ∃ x, insts w !! i = Some x ∧ is_Some (i_run x).

Definition call_ok w (p : world U C * res (ans U)) : Prop := wf p.1 ∧ keeps w p.1.

Lemma call_ok_grows {A} (f : A → ans U) w (p : world U C * res A) :
  wf w → grows w p.1 → call_ok w (ans_map f p).
Proof. intros Hw Hg. split; [by eapply wf_grows|by apply grows_keeps]. Qed.

Lemma keeps_construct w w' x :
  wf w → insts w' = <[next_instance_id w := x]> (insts w) → keeps w w'.
Proof.
  intros Hw Hi j y Hy. exists y. rewrite Hi, lookup_insert_ne; [done|].
  intros <-. by rewrite (fresh_lookup _ _ Hw) in Hy.
Qed.

Lemma spawn_call_ok w cur b eh name lnk e :
  wf w → wf (spawn w cur b eh name lnk e).1 ∧ keeps w (spawn w cur b eh name lnk e).1.
Proof.
  intros Hw. pose proof (spawn_spec w cur b eh name lnk e Hw) as H. cbv zeta in H.
  destruct (spawn _ _ _ _ _ _ _) as [w' r]. destruct H as (_ & Hw' & _ & (x & Hi & _) & _).
  split; [done|by eapply keeps_construct].
Qed.

(** A running instance changes one of its own settings. *)
Lemma wf_setting w i x (f : inst U C → inst U C) :
  wf w → insts w !! i = Some x → is_Some (i_run x) →
  i_run (f x) = i_run x → i_in_shutdown (f x) = i_in_shutdown x →
  i_lifetime (f x) = i_lifetime x → i_exited_receiver (f x) = i_exited_receiver x →
  i_exited_sync_receiver (f x) = i_exited_sync_receiver x →
  wf (upd w i f) ∧ keeps w (upd w i f).
Proof.
  intros Hw Hx [p Hp] Hr Hs Hl He1 He2. split.
  - eapply wf_upd; [done..|]. destruct (wf_inst _ _ Hw i x Hx) as (H1 & H2 & H3 & _ & H5 & H6);
      [done|]. unfold inst_ok. rewrite Hl, Hs, Hr, He1, He2, Hp in *. by split_and!.
  - apply keeps_upd. intros y Hy. by simplify_eq.
Qed.

(** The same behind a trace message. *)
Lemma wf_traced_setting w i x c l (f : inst U C → inst U C) :
  wf w → insts w !! i = Some x → is_Some (i_run x) →
  i_run (f x) = i_run x → i_in_shutdown (f x) = i_in_shutdown x →
  i_lifetime (f x) = i_lifetime x → i_exited_receiver (f x) = i_exited_receiver x →
  i_exited_sync_receiver (f x) = i_exited_sync_receiver x →
  wf (upd (do_trace w i c l) i f) ∧ keeps w (upd (do_trace w i c l) i f).
Proof.
  intros Hw Hx Hr H1 H2 H3 H4 H5. pose proof (grows_do_trace w i c l) as Hg.
  assert (insts (do_trace w i c l) !! i = Some x) as Hx' by by rewrite (g_insts _ _ Hg).
  destruct (wf_setting (do_trace w i c l) i x f (wf_grows _ _ _ Hw Hg)) as [? Hk]; [done..|].
  split; [done|]. eapply keeps_trans; [by apply grows_keeps|done].
Qed.

Lemma spawn_link_ok w i x b name e :
  wf w → insts w !! i = Some x → is_Some (i_run x) →
  wf (spawn_link w i b name e).1 ∧ keeps w (spawn_link w i b name e).1.
Proof.
  intros Hw Hx Hr. unfold spawn_link. pose proof (spawn_spec w (Some i) b None name (Some i) e Hw) as H.
  cbv zeta in H. destruct (spawn _ _ _ _ _ _ _) as [w' r].
  destruct H as (-> & Hw' & _ & (y & Hi & _) & _). cbn [fst].
  assert (insts w' !! i = Some x) as Hx'.
  { rewrite Hi, lookup_insert_ne; [done|]. intros <-. by rewrite (fresh_lookup _ _ Hw) in Hx. }
  match goal with |- wf ?W ∧ _ => assert (wf W ∧ keeps w' W) as [Hwf Hk] end.
  { by apply wf_traced_setting with (x := x). }
  split; [exact Hwf|]. eapply keeps_trans; [by eapply keeps_construct|exact Hk].
Qed.

Lemma link_ok w i x h :
  wf w → insts w !! i = Some x → is_Some (i_run x) →
  wf (link w i h).1 ∧ keeps w (link w i h).1.
Proof.
  intros Hw Hx Hr. unfold link. pose proof (handle_send_grows w (Some i) h link_msg) as Hg.
  destruct (handle_send_raw _ _ _ _) as [w' [[r|]|e]]; cbn [fst] in *;
    try (split; [by eapply wf_grows|by apply grows_keeps]).
  match goal with |- wf ?W ∧ _ => assert (wf W ∧ keeps w' W) as [Hwf Hk] end.
  { apply wf_traced_setting with (x := x); [by eapply wf_grows|by rewrite (g_insts _ _ Hg)|done..]. }
  split; [exact Hwf|]. eapply keeps_trans; [by apply grows_keeps|exact Hk].
Qed.

Lemma keeps_refl w : keeps w w.
Proof. intros j x Hx. by exists x. Qed.

Lemma keeps_insts w w' : insts w' = insts w → keeps w w'.
Proof. intros E j x Hx. exists x. by rewrite E. Qed.

(** ** Sends step by step *)

(** Somebody holds an instance that exists, or goes on holding it. *)
Lemma wf_hold w n h :
  wf w → holders w !! n = None ∨ (∃ h0, holders w !! n = Some h0 ∧ holds h0 = holds h) →
  is_Some (insts w !! holds h) → (∀ i from m lk, h = HCopied i from m lk → lk = true) →
  wf (set_holders w (<[n := h]> (holders w))).
Proof.
  intros Hw Hn Hi Hc. assert (∀ j, is_held w j = true → is_held (set_holders w (<[n := h]> (holders w))) j = true) as Hh.
  { intros j (n' & h' & Hn' & <-)%is_held_true. apply is_held_true. cbn. destruct (decide (n = n')) as [<-|].
    - exists n, h. rewrite lookup_insert_eq. split; [done|]. destruct Hn as [Hn|(h0 & Hn & <-)]; congruence.
    - exists n', h'. by rewrite lookup_insert_ne. }
  destruct Hw. split; cbn; try done.
  - intros i x Hx Hk. destruct (wf_inst0 i x Hx Hk) as (H1 & H2 & H3 & H4). split_and!; [done|done| |apply H4..].
    intros Hs. destruct (H3 Hs) as [?|?]; [by left|right; by apply Hh].
  - intros n' h'. rewrite lookup_insert_Some. intros [[<- <-]|[_ Hn']]; [done|by apply (wf_holders0 n')].
Qed.

Lemma wf_post w i from m : wf w → is_Some (insts w !! i) → wf (post_task w i from m true).
Proof.
  intros [] Hi. unfold post_task. split; try done.
  - intros j. rewrite set_strand. case_decide as E; [subst j|by apply wf_tasks0]. intros _. split; [done|].
    apply Forall_app. split; [|by constructor]. destruct (strand w i) eqn:Es; [constructor|]. rewrite <- Es.
    apply wf_tasks0. by rewrite Es.
  - intros j x Hx Hk. destruct (wf_inst0 j x Hx Hk) as (H1 & H2 & H3 & H4). split_and!; [done|done| |apply H4..].
    intros Hs. destruct (H3 Hs) as [Hne|Hh]; [left|by right]. rewrite set_strand. case_decide; [subst j; by destruct (strand w i)|done].
Qed.

(** The call does not copy the [lifetime_] of an instance that has reset it. *)
Definition unraced w (o : op U C) : Prop :=
  ∀ n i from m, o = OQueue n QCopy → holders w !! n = Some (HChecked i from m) → in_shutdown w i = false.

Lemma queue_part_ok w cur n q :
  wf w → unraced w (OQueue n q) → wf (queue_part w cur n q).1 ∧ insts (queue_part w cur n q).1 = insts w.
Proof.
  intros Hw Hr. unfold queue_part.
  assert (∀ h, holders w !! n = Some h → is_Some (insts w !! holds h)) as Hex by (intros h Hh; by apply (wf_holders _ _ Hw n)).
  destruct q as [h m| | |]; destruct (holders w !! n) as [[i from m'|i from m'|i from m' lk|i]|] eqn:Hn; try done.
  - destruct (lock w (h_ref h)) as [p|] eqn:Hl; [|done]. cbn [fst].
    pose proof (grows_trace_send w p (sender cur) m) as Hg. split; [|apply Hg].
    apply wf_hold; [by eapply wf_grows|left; by rewrite (g_holders _ _ Hg)| |done].
    rewrite (g_insts _ _ Hg). cbn. by apply lock_Some in Hl as [_ ?].
  - destruct (in_shutdown w i); cbn [fst].
    + split; [|done]. apply wf_hold; [done|right; eauto|by apply (Hex (HLocked i from m'))|done].
    + set (w1 := if _ && _ then _ else _).
      assert (grows w w1) as Hg by (unfold w1; destruct (_ && _); [apply tap_message_grows|done]).
      split; [|apply Hg]. apply wf_hold; [by eapply wf_grows| | |done].
      * right. rewrite (g_holders _ _ Hg). eauto.
      * rewrite (g_insts _ _ Hg). by apply (Hex (HLocked i from m')).
  - split; [|done]. pose proof (Hex _ eq_refl) as [x Hx]. cbn in Hx.
    apply wf_hold; [done|right; eauto|cbn; by rewrite Hx|]. intros ? ? ? ? [= _ _ _ <-].
    specialize (Hr n i from m' eq_refl Hn). unfold in_shutdown in Hr. unfold lifetime. rewrite Hx in Hr |- *. by apply (wf_weak _ _ Hw i).
  - pose proof (Hex _ eq_refl) as Hi. cbn in Hi.
    destruct (wf_holders _ _ Hw n _ Hn) as [_ Hlk]. rewrite (Hlk i from m' lk eq_refl). split; [|done].
    apply wf_hold; [by apply wf_post|right; eauto|done|done].
Qed.

Lemma exec_private_ok w i x o :
  wf w → insts w !! i = Some x → is_Some (i_run x) → call_ok w (exec_private w i x o).
Proof.
  intros Hw Hx Hr. unfold call_ok.
  destruct o; cbn [exec_private]; try (by split; [|apply keeps_refl]);
    try (by apply wf_setting with (x := x)); try (by apply wf_traced_setting with (x := x)).
  - apply call_ok_grows; [done|]. apply queue_grows. by rewrite Hx.
  - by apply (link_ok w i x).
  - by apply spawn_call_ok.
  - by apply (spawn_link_ok w i x).
  - pose proof (grows_emit w _ (trace_raw_is_trace x (ACbor (pid_m i (i_name x)) :: parms))) as Hg.
    split; [by eapply wf_grows|by apply grows_keeps].
  - destruct (holders w !! n) eqn:Hn; [by split; [|apply keeps_refl]|].
    destruct (i_lifetime x); [|by split; [|apply keeps_refl]]. cbn [fst].
    split; [|by apply keeps_insts]. apply wf_hold; [done|by left|cbn; by rewrite Hx|done].
Qed.

Lemma debug_disable_ok w : wf w → wf (debug_disable w).
Proof.
  intros Hw. unfold debug_disable.
  assert (∀ v, wf (set_debug_enabled w v)) as H1 by (intros v; apply wf_set_ctx; [done..|apply Hw|apply Hw]).
  destruct (_ =? 1); [|done]. apply wf_set_ctx; [done..|apply Hw|]. cbn. intros. by simplify_map_eq.
Qed.

Lemma unregister_ok w name : wf w → wf (unregister_instance w name).
Proof.
  intros Hw. unfold unregister_instance. destruct (isenabled w); cbn [negb]; [|done].
  apply wf_set_ctx; [done..|apply Hw|]. cbn. intros n h Hh.
  apply lookup_delete_Some in Hh as [_ Hh]. by eapply wf_registry.
Qed.

Lemma tap_add_ok w name sub : wf w → wf (tap_add w name sub).
Proof.
  intros Hw. unfold tap_add. destruct (existsb _ _); [done|]. apply wf_set_ctx; [done..| |apply Hw].
  unfold taps_ok. cbn. rewrite (wf_taps _ _ Hw), length_app. cbn. unfold u64.
  rewrite Zplus_mod_idemp_l. f_equal. lia.
Qed.

Lemma tap_remove_ok w name sub : wf w → wf (tap_remove w name sub).1.
Proof.
  intros Hw. unfold tap_remove. cbn [fst]. apply wf_set_ctx; [done..| |apply Hw].
  apply set_taps_ok, Hw.
Qed.

Lemma wf_set_user k w u : wf_but k w → wf_but k (set_user w u).
Proof. intros []. by split. Qed.

Lemma exec_ok w cur o : wf w → caller w cur → unraced w o → call_ok w (exec w cur o).
Proof.
  intros Hw Hc Hur.
  assert (∀ o, call_ok w match cur with
    | None => (w, Throw (domain_error context_error))
    | Some i => match insts w !! i with
                | Some x => exec_private w i x o
                | None => (w, Throw (domain_error context_error)) end end) as Hpriv.
  { intros o'. destruct cur as [i|]; [|by split; [|apply keeps_refl]].
    destruct (Hc i eq_refl) as (x & Hx & Hr). rewrite Hx. by apply exec_private_ok. }
  destruct o; try apply Hpriv; unfold exec, call_ok; cbn [fst];
    try (by split; [|apply keeps_refl]).
  - apply call_ok_grows; [done|apply handle_send_grows].
  - pose proof (handle_send_grows w cur h m) as Hg. destruct (handle_send_raw w cur h m) as [w' r'].
    split; [by eapply wf_grows|by apply grows_keeps].
  - by apply spawn_call_ok.
  - destruct eh; [by apply spawn_call_ok|by split; [|apply keeps_refl]].
  - split; [|by apply keeps_insts]. apply wf_set_ctx; [done..|apply Hw|apply Hw].
  - split; [|by apply keeps_insts]. apply wf_set_ctx; [done..|apply Hw|apply Hw].
  - split; [by apply debug_disable_ok|]. apply keeps_insts. unfold debug_disable. by destruct (_ =? 1).
  - split; [by apply unregister_ok|]. apply keeps_insts. unfold unregister_instance.
    by destruct (negb _).
  - split; [by apply tap_add_ok|]. apply keeps_insts. unfold tap_add. by destruct (existsb _ _).
  - pose proof (tap_remove_ok w name sub Hw). destruct (tap_remove w name sub) as [w' f] eqn:E.
    split; [done|]. apply keeps_insts. unfold tap_remove in E. by injection E as <- _.
  - split; [by apply wf_set_user|by apply keeps_insts].
  - apply (call_ok_grows AnsResult (set_user w (f (user w)))); [by apply wf_set_user|apply handle_send_grows].
  - destruct (queue_part_ok w cur n q Hw Hur) as [? ?]. split; [done|by apply keeps_insts].
Qed.

Lemma races_unraced w l : races w l = false →
  (∀ o, l = LExtern o → unraced w o) ∧
  (∀ i x o k, l = LStep i → insts w !! i = Some x → i_run x = Some (Call o k) → unraced w o).
Proof.
  unfold races, called. intros Hr. split.
  - intros o -> n i from m -> Hn. by rewrite Hn in Hr.
  - intros j x o k -> Hx Hk n i from m -> Hn. by rewrite Hx, Hk, Hn in Hr.
Qed.

Lemma wf_release w n i :
  wf w → holders w !! n = Some (HHeld i) → wf_but (Some i) (set_holders w (delete n (holders w))).
Proof.
  intros [] Hn. split; cbn; try done.
  - intros j x Hx Hk. destruct (wf_inst0 j x Hx) as (H1 & H2 & H3 & H4); [done|]. split_and!; [done|done| |apply H4..].
    intros Hs. destruct (H3 Hs) as [?|(n' & h' & Hn' & Hj)%is_held_true]; [by left|right]. apply is_held_true.
    exists n', h'. split; [|done]. cbn. rewrite lookup_delete_ne; [done|]. intros <-. rewrite Hn in Hn'.
    injection Hn' as <-. cbn in Hj. congruence.
  - intros n' h'. rewrite lookup_delete_Some. intros [_ ?]. eauto.
Qed.

(** The last holder of an instance may go at any time. *)
Lemma wf_collect_any w i x : wf_but (Some i) w → insts w !! i = Some x → (∀ y, insts w !! i = Some y → 
    i_lifetime y = negb (i_in_shutdown y) ∧ (is_Some (i_run y) → i_in_shutdown y = false) ∧
    (i_run y = None → i_in_shutdown y = false → is_Some (i_receiver y)) ∧
    i_exited_receiver y = None ∧ i_exited_sync_receiver y = None) → wf (collect w i).
Proof.
  intros Hw Hx Hok. destruct (Hok x Hx) as (H1 & H2 & H4 & H5 & H6).
  destruct (i_run x) as [p|] eqn:Hr; [|by apply (wf_collect w i x); auto].
  assert (i_in_shutdown x = false) as Hs by (apply H2; eauto). unfold collect. rewrite Hx. unfold held. rewrite H1, Hs. cbn.
  eapply wf_but_restore; [done..|]. unfold inst_ok. rewrite H1, Hs, Hr. by split_and!.
Qed.

(** Every step keeps the invariant and none uses an instance that is gone. *)
Lemma step_ok w l : wf w → races w l = false → outcome_ok (step call w l).
Proof.
  intros Hw Hrace. pose proof (races_unraced w l Hrace) as [Hur1 Hur2].
  destruct l as [i|i|i m|o|n]; cbn [step].
  - destruct (strand w i) as [|t ts] eqn:Et; [done|].
    destruct (wf_tasks _ _ Hw i) as [[x Hx] _]; [by rewrite Et|]. rewrite Hx.
    destruct (i_run x) eqn:Hr; [done|].
    destruct (wf_inst _ _ Hw i x Hx) as (H1 & H2 & H3 & H4 & H5 & H6); [done|].
    apply run_ok; auto. by apply wf_pop with t.
  - destruct (insts w !! i) as [x|] eqn:Hx; [|done].
    destruct (i_run x) as [[r|t|o k]|] eqn:Hr; [| | |done].
    + apply (run_ret_ok _ _ x); [by apply wf_but_weaken|done|].
      destruct (wf_inst _ _ Hw i x Hx) as (_ & H2 & _); [done|]. apply H2. by rewrite Hr.
    + apply (run_catch_ok _ _ x); [by apply wf_but_weaken|done].
    + assert (caller w (Some i)) as Hc.
      { intros j [= <-]. exists x. by rewrite Hr. }
      pose proof (exec_ok w (Some i) o Hw Hc (Hur2 i x o k eq_refl Hx Hr)) as [Hw' Hk].
      destruct (Hk i x Hx) as (x' & Hx' & Hr' & Hs').
      destruct (exec w (Some i) o) as [w' [a|e]]; cbn [fst] in *.
      * eapply (wf_upd _ _ x'); [done..|].
        destruct (wf_inst _ _ Hw' i x' Hx') as (H1 & H2 & H3 & _ & H5); [done|].
        split_and!; cbn; try done; [|apply H5..]. intros _. apply H2. by rewrite Hr', Hr.
      * apply (run_catch_ok _ _ x'); [by apply wf_but_weaken|done].
  - destruct (insts w !! i) as [x|] eqn:Hx; [|done]. destruct (i_run x) eqn:Hr; [done|].
    unfold dispatch_sync. destruct (i_in_shutdown x) eqn:Hs; [done|].
    destruct (wf_inst _ _ Hw i x Hx) as (H1 & H2 & H3 & H4 & H5 & H6); [done|].
    apply run_ok; auto. by apply wf_but_weaken.
  - apply exec_ok; [done|done|by apply Hur1].
  - destruct (holders w !! n) as [[| | |i]|] eqn:Hn; try done.
    destruct (wf_holders _ _ Hw n _ Hn) as [[x Hx] _]. cbn in Hx. eapply wf_collect_any; [by apply wf_release|exact Hx|].
    intros y Hy. destruct (wf_inst _ _ Hw i y Hy) as (? & ? & _ & ? & ? & ?); [done|]. by split_and!.
Qed.

Lemma steps_wf w ls w' : wf w → race_free call w ls → steps call w ls w' → wf w'.
Proof.
  intros Hw Hf H. induction H as [|w l w1 ls w2 Hstep _ IH]; [done|]. destruct Hf as [Hr Hf]. apply IH; [|by apply Hf].
  pose proof (step_ok w l Hw Hr) as Ho. by rewrite Hstep in Ho.
Qed.

End call.

End inv.

Abbreviation wf := (wf_but None).
