(* ===== verification/InstanceStep.v ===== *)
(** * What a step of the actor runtime changes

    [quiet k] is what a step by instance [k] may do before it ends: instances
    come but do not go, those other than [k] keep running or resting as they
    were, strands only get longer, and an instance in shutdown gets nothing but
    what sends had ready for it.
    [step_shape] shows that every step is quiet, up to the pop that starts a
    task and the [collect] that ends one. *)
From S2P Require Import Prelude CborEncode Ieee CborDecode CborMatch CppText CborJson Env Instance InstanceInv.

Section quiet.
Context {U C : Type}.
Implicit Types (w : world U C) (x : inst U C).

Definition is_last (o : output) : Prop := match o with OutLastExit _ => True | _ => False end.
#[export] Instance is_last_dec o : Decision (is_last o).
Proof. destruct o; cbn; apply _. Defined.

(** How often the last exit handler was called. *)
Definition lasts w : nat := length (filter is_last (out w)).

(** The count of active instances is their number. *)
Definition active_ok w : Prop := active (ctx w) = u64 (Z.of_nat (size (insts w))).

Record quiet (k : option Z) w w' : Prop := Quiet {
  q_next : next_instance_id w <= next_instance_id w';
  q_insts : ∀ j x, insts w !! j = Some x → ∃ x', insts w' !! j = Some x' ∧
    (Some j ≠ k → i_run x' = i_run x ∧ i_in_shutdown x' = i_in_shutdown x);
  q_gone : ∀ j, insts w !! j = None → j < next_instance_id w → insts w' !! j = None;
  q_strand : ∀ j, ∃ new, strand w' j = strand w j ++ new ∧
    (Some j ≠ k → in_shutdown w j = true → new ++ flying w' j ⊆+ flying w j);
  q_last : lasts w' = lasts w;
  q_active : active_ok w → active_ok w';
  q_new : ∀ j x', Some j ≠ k → insts w !! j = None → insts w' !! j = Some x' → i_run x' = None
}.

#[export] Instance quiet_refl k : Reflexive (quiet k).
Proof.
  intros w. split; try done; [eauto| |congruence]. intros j. exists []. by rewrite app_nil_r.
Qed.

#[export] Instance quiet_trans k : Transitive (quiet k).
Proof.
  intros w1 w2 w3 [] []. split; [lia| | | |congruence|tauto|].
  - intros j x Hx. destruct (q_insts0 j x Hx) as (y & Hy & H1).
    destruct (q_insts1 j y Hy) as (z & Hz & H2). exists z. split; [done|]. intros Hk.
    destruct (H1 Hk) as [<- <-]. auto.
  - intros j Hj Hlt. apply q_gone1; [auto|lia].
  - intros j. destruct (q_strand0 j) as (n1 & E1 & A1), (q_strand1 j) as (n2 & E2 & A2).
    exists (n1 ++ n2). rewrite E2, E1, (assoc_L app). split; [done|]. intros Hk Hs.
    rewrite <- (assoc_L app). etrans; [|apply (A1 Hk Hs)]. apply submseteq_skips_l, A2; [done|].
    unfold in_shutdown in *. destruct (insts w1 !! j) as [x|] eqn:Hx; [|done].
    destruct (q_insts0 j x Hx) as (y & -> & H). by destruct (H Hk) as [_ ->].
  - intros j z Hk Hj Hz. destruct (insts w2 !! j) as [y|] eqn:Hy; [|by eapply q_new1].
    destruct (q_insts1 j y Hy) as (z' & Hz' & H). simplify_eq. destruct (H Hk) as [-> _]. by eapply q_new0.
Qed.

Lemma lasts_app w l : lasts (emit w l) = (lasts w + length (filter is_last l))%nat.
Proof. unfold lasts. cbn. by rewrite filter_app, length_app. Qed.

Lemma trace_not_last l : Forall is_trace l → length (filter is_last l) = 0%nat.
Proof. induction 1 as [|[] l]; done. Qed.

Lemma grows_quiet k w w' : grows w w' → quiet k w w'.
Proof.
  intros []. split.
  - rewrite g_next. done.
  - rewrite g_insts. eauto.
  - by rewrite g_insts.
  - intros j. destruct (g_strand j) as (new & E & Ha). exists new. split; [done|]. intros _ Hs.
    destruct new as [|t new]; [by rewrite (flying_eq w)|]. destruct (Ha ltac:(done)) as (x & Hx & Hf & _).
    unfold in_shutdown in Hs. rewrite Hx in Hs. congruence.
  - destruct g_out as (l & Hl & Ht). unfold lasts. rewrite Hl, filter_app, length_app.
    rewrite (trace_not_last l Ht). lia.
  - unfold active_ok. by rewrite g_active, g_insts.
  - rewrite g_insts. congruence.
Qed.

(** An update of the acting instance. *)
Lemma quiet_upd i w f : quiet (Some i) w (upd w i f).
Proof.
  split; [done| | | |done| |].
  - intros j x Hx. destruct (decide (i = j)) as [<-|].
    + exists (f x). rewrite lookup_upd, Hx. split; [done|]. by intros [].
    + exists x. by rewrite lookup_upd_ne.
  - intros j Hj _. destruct (decide (i = j)) as [<-|]; [by rewrite lookup_upd, Hj|].
    by rewrite lookup_upd_ne.
  - intros j. exists []. by rewrite app_nil_r.
  - unfold active_ok. cbn. by rewrite <- (size_dom (D:=gset Z) (alter f i (insts w))), dom_alter_L, size_dom.
  - intros j x Hj Hn. rewrite lookup_upd_ne by congruence. congruence.
Qed.

Lemma quiet_emit k w l : length (filter is_last l) = 0%nat → quiet k w (emit w l).
Proof.
  intros Hl. split; try done; [eauto| |rewrite lasts_app; lia|cbn; congruence].
  intros j. exists []. by rewrite app_nil_r.
Qed.

Lemma quiet_set_ctx k w c : active c = active (ctx w) → quiet k w (set_ctx w c).
Proof.
  intros Ha. split; try done; [eauto| |unfold active_ok; cbn; by rewrite Ha|cbn; congruence].
  intros j. exists []. by rewrite app_nil_r.
Qed.

Lemma quiet_construct k w b eh name e : wf w → quiet k w (construct w b eh name e).
Proof.
  intros Hw. pose proof (fresh_lookup _ _ Hw) as Hf.
  destruct (construct_insts w b eh name e) as (x & Hi & Hx). split; [cbn; lia| | | |done| |].
  - intros j y Hy. exists y. rewrite Hi, lookup_insert_ne; [done|]. intros <-. congruence.
  - intros j Hj Hlt. rewrite Hi, lookup_insert_ne; [done|lia].
  - intros j. exists []. by rewrite app_nil_r.
  - intros _. apply (wf_active _ _ (wf_construct w b eh name e Hw)).
  - intros j y _ Hj. rewrite Hi, lookup_insert_Some. intros [[_ <-]|[_ ?]]; [apply Hx|congruence].
Qed.

Lemma quiet_register k w h : quiet k w (register_instance w h).
Proof. unfold register_instance. repeat case_match; try done; by apply quiet_set_ctx. Qed.

Lemma quiet_schedule k w cur i h : is_Some (insts w !! i) → quiet k w (schedule w cur i h).1.
Proof.
  intros Hx. unfold schedule. pose proof (queue_grows w cur i null_handle null_value Hx) as Hg.
  destruct (queue _ _ _ _ _) as [w' [[]|]]; cbn in *; try by apply grows_quiet.
  etrans; [by apply grows_quiet|apply quiet_register].
Qed.

Lemma quiet_spawn k w cur b eh name lnk e : wf w → quiet k w (spawn w cur b eh name lnk e).1.
Proof.
  intros Hw. unfold spawn. cbv zeta. set (i := next_instance_id w).
  etrans; [by apply quiet_construct|].
  pose proof (construct_insts w b eh name e) as (x & Hi & _). fold i in Hi.
  set (w1 := construct w b eh name e) in *.
  pose proof (grows_do_trace w1 i ch_lifetime [AString (str "spawn")]) as Hg.
  etrans; [apply grows_quiet, Hg|]. set (w2 := do_trace _ _ _ _) in *.
  assert (is_Some (insts w2 !! i)) as Hx by (rewrite (g_insts _ _ Hg), Hi, lookup_insert_eq; eauto).
  destruct (expired w2 lnk); [by apply quiet_schedule|].
  pose proof (queue_grows w2 cur i (make_handle w2 lnk) link_msg Hx) as Hg3.
  destruct (queue _ _ _ _ _) as [w3 [[]|]]; cbn in *; try by apply grows_quiet.
  etrans; [by apply grows_quiet|]. apply quiet_schedule. by rewrite (g_insts _ _ Hg3).
Qed.

Lemma quiet_spawn_link w i b name e : wf w → quiet (Some i) w (spawn_link w i b name e).1.
Proof.
  intros Hw. unfold spawn_link.
  pose proof (quiet_spawn (Some i) w (Some i) b None name (Some i) e Hw) as Hq.
  destruct (spawn _ _ _ _ _ _ _) as [w' [[]|]]; cbn in *; try done.
  etrans; [exact Hq|]. etrans; [apply grows_quiet, grows_do_trace|apply quiet_upd].
Qed.

Lemma quiet_link w i h : quiet (Some i) w (link w i h).1.
Proof.
  unfold link. pose proof (grows_quiet (Some i) _ _ (handle_send_grows w (Some i) h link_msg)) as Hq.
  destruct (handle_send_raw _ _ _ _) as [w' [[]|]]; cbn in *; try done.
  etrans; [exact Hq|]. etrans; [apply grows_quiet, grows_do_trace|apply quiet_upd].
Qed.

(** A holder comes, goes or takes its next step. *)
Lemma quiet_hold k w H :
  (∀ j, in_shutdown w j = true → flying (set_holders w H) j ⊆+ flying w j) → quiet k w (set_holders w H).
Proof.
  intros Hf. split; try done; [eauto| |cbn; congruence]. intros j. exists []. rewrite app_nil_r. split; [done|].
  intros _ Hs. by apply Hf.
Qed.

Lemma flying_same w n h h' j :
  holders w !! n = Some h → flight j h' = flight j h ∨ flight j h' = None →
  flying (set_holders w (<[n := h']> (holders w))) j ⊆+ flying w j.
Proof.
  intros Hn Hh. rewrite flying_insert, (flying_delete w n h j Hn). destruct Hh as [-> | ->]; [done|].
  cbn. by apply submseteq_inserts_l.
Qed.

(** A post for a send: what was ready is on the strand. *)
Lemma quiet_post k w n i from m lk :
  holders w !! n = Some (HCopied i from m lk) →
  quiet k w (set_holders (post_task w i from m lk) (<[n := HHeld i]> (holders w))).
Proof.
  intros Hn. split; try done; [eauto| |cbn; congruence]. intros j.
  change (strand (set_holders ?a _) j) with (strand a j). unfold post_task. rewrite set_strand.
  set (w1 := set_holders _ _).
  assert (flying w1 j = flying (set_holders w (<[n := HHeld i]> (holders w))) j) as Ef by done.
  rewrite Ef. case_decide as E; [subst j|].
  - exists [Task from m lk]. split; [done|]. intros _ _. rewrite flying_insert, (flying_delete w n _ i Hn). cbn.
    by rewrite decide_True.
  - exists []. rewrite app_nil_r. split; [done|]. intros _ _. rewrite flying_insert, (flying_delete w n _ j Hn). cbn.
    by apply submseteq_inserts_l.
Qed.

Lemma quiet_queue_part k w cur n q : unraced w (OQueue n q) → quiet k w (queue_part w cur n q).1.
Proof.
  intros Hr. unfold queue_part.
  destruct q as [h m| | |]; destruct (holders w !! n) as [[i from m'|i from m'|i from m' lk|i]|] eqn:Hn; try done.
  - destruct (lock w (h_ref h)) as [p|]; [|done]. cbn [fst]. etrans; [apply grows_quiet, grows_trace_send|].
    apply quiet_hold. intros j _. by rewrite (flying_new (trace_send w p (sender cur) m) n (HLocked p (sender cur) m) j Hn).
  - destruct (in_shutdown w i); cbn [fst].
    + apply quiet_hold. intros j _. eapply flying_same; [done|by left].
    + set (w1 := if _ && _ then _ else _).
      assert (grows w w1) as Hg by (unfold w1; destruct (_ && _); [apply tap_message_grows|done]).
      etrans; [apply grows_quiet, Hg|]. apply quiet_hold. intros j _.
      eapply (flying_same _ n (HLocked i from m')); [by rewrite (g_holders _ _ Hg)|by left].
  - apply quiet_hold. intros j Hs. eapply flying_same; [done|]. left. cbn. rewrite decide_False; [done|].
    intros ->. by rewrite (Hr n j from m' eq_refl Hn) in Hs.
  - exact (quiet_post k w n i from m' lk Hn).
Qed.

Lemma quiet_exec_private w i x o :
  wf w → insts w !! i = Some x → quiet (Some i) w (exec_private w i x o).1.
Proof.
  intros Hw Hx. destruct o; cbn [exec_private ans_map fst]; try done; try apply quiet_upd;
    try (etrans; [apply grows_quiet, grows_do_trace|apply quiet_upd]).
  - apply grows_quiet, queue_grows. by rewrite Hx.
  - apply quiet_link.
  - by apply quiet_spawn.
  - by apply quiet_spawn_link.
  - apply grows_quiet, grows_emit, trace_raw_is_trace.
  - destruct (holders w !! n) eqn:Hn; [done|]. destruct (i_lifetime x); [|done]. apply quiet_hold. intros j _.
    by rewrite (flying_new w n (HHeld i) j Hn).
Qed.

Lemma quiet_set_user k w u : quiet k w (set_user w u).
Proof. split; try done; [eauto| |cbn; congruence]. intros j. exists []. by rewrite app_nil_r. Qed.

Lemma quiet_exec w cur o : wf w → unraced w o → quiet cur w (exec w cur o).1.
Proof.
  intros Hw Hur.
  assert (∀ o, quiet cur w (match cur with
    | None => (w, Throw (domain_error context_error))
    | Some i => match insts w !! i with
                | Some x => exec_private w i x o
                | None => (w, Throw (domain_error context_error)) end end).1) as Hpriv.
  { intros o'. destruct cur as [i|]; [|done]. destruct (insts w !! i) eqn:Hx; [|done].
    by apply quiet_exec_private. }
  destruct o; try apply Hpriv; cbn [exec ans_map fst]; try done; try by apply quiet_set_ctx.
  - apply grows_quiet, handle_send_grows.
  - pose proof (handle_send_grows w cur h m) as Hg. destruct (handle_send_raw w cur h m).
    by apply grows_quiet.
  - by apply quiet_spawn.
  - destruct eh; [by apply quiet_spawn|done].
  - unfold debug_disable. destruct (_ =? 1); [|by apply quiet_set_ctx].
    etrans; by apply quiet_set_ctx.
  - unfold unregister_instance. destruct (negb _); [done|by apply quiet_set_ctx].
  - unfold tap_add. destruct (existsb _ _); [done|by apply quiet_set_ctx].
  - apply quiet_set_user.
  - etrans; [apply (quiet_set_user _ _ (f (user w)))|apply grows_quiet, handle_send_grows].
  - by apply quiet_queue_part.
Qed.

(** ** Tasks *)

Lemma exits_not_last (ehs : list Z) err :
  length (filter is_last ((λ eh, OutExit eh err) <$> ehs)) = 0%nat.
Proof. by induction ehs. Qed.

Lemma quiet_handle_exit w i m : quiet (Some i) w (handle_exit w i m).1.
Proof.
  unfold handle_exit. destruct (insts w !! i) as [x|]; [|done]. cbv zeta.
  assert (quiet (Some i) w (exit_notify w i x m)) as Hq.
  { etrans; [apply quiet_upd|apply grows_quiet, exit_notify_grows]. }
  destruct (i_exit_handlers x) as [|eh ehs]; cbn [fst]; [etrans; [exact Hq|apply quiet_upd]|].
  destruct (exit_reason m); cbn [fst]; (etrans; [exact Hq|]); [|apply quiet_upd].
  etrans; [apply quiet_upd|]. etrans; [|apply quiet_upd]. apply quiet_emit, exits_not_last.
Qed.

(** ** Deletion *)

Lemma collect_strand w i j : strand (collect w i) j = strand w j.
Proof.
  unfold collect, destroy. destruct (insts w !! i) as [x|]; [|done].
  destruct (held w i x); [done|]. cbv zeta. repeat case_match; done.
Qed.

Lemma collect_other w i j : i ≠ j → insts (collect w i) !! j = insts w !! j.
Proof.
  intros Hne. unfold collect, destroy. destruct (insts w !! i) as [x|]; [|done].
  destruct (held w i x); [done|]. cbv zeta. repeat case_match; cbn; by rewrite lookup_delete_ne.
Qed.

Lemma collect_same w i x : insts (collect w i) !! i = Some x → insts w !! i = Some x.
Proof.
  unfold collect, destroy. destruct (insts w !! i) as [y|] eqn:Hy; [|by rewrite Hy].
  destruct (held w i y); [by rewrite Hy|]. cbv zeta. repeat case_match; cbn; by rewrite lookup_delete_eq.
Qed.

Lemma collect_destroys w i x : insts w !! i = Some x → held w i x = false → insts (collect w i) !! i = None.
Proof.
  intros Hx Hh. unfold collect, destroy. rewrite Hx, Hh. cbv zeta. repeat case_match; cbn; by rewrite lookup_delete_eq.
Qed.

Lemma collect_holders w i : holders (collect w i) = holders w.
Proof.
  unfold collect, destroy. destruct (insts w !! i) as [x|]; [|done].
  destruct (held w i x); [done|]. cbv zeta. repeat case_match; done.
Qed.

Lemma collect_held w i x : insts w !! i = Some x → held w i x = true → collect w i = w.
Proof. intros Hx Hh. unfold collect. by rewrite Hx, Hh. Qed.

(** A step that ends the task of [i], before the locks of the task go. *)
Definition ends (i : Z) w w' : Prop := ∃ w1, quiet (Some i) w w1 ∧ w' = collect w1 i.

Lemma ends_trans i w1 w2 w3 : quiet (Some i) w1 w2 → ends i w2 w3 → ends i w1 w3.
Proof. intros H (w4 & H4 & ->). exists w4. split; [by etrans|done]. Qed.

Lemma run_end_ends w i : ends i w (run_end w i).
Proof.
  eexists. split; [|reflexivity]. etrans; [|apply quiet_upd].
  destruct (in_shutdown w i); [done|apply grows_quiet, grows_do_trace].
Qed.

Definition next_ends (i : Z) w (o : outcome U C) : Prop :=
  match o with Next w' => ends i w w' | _ => True end.

Lemma run_catch_ends w i t : next_ends i w (run_catch w i t).
Proof.
  unfold run_catch. pose proof (quiet_handle_exit w i (catch_message t)) as Hq.
  destruct (handle_exit _ _ _) as [w' []]; [|done]. eapply ends_trans; [exact Hq|apply run_end_ends].
Qed.

Lemma run_exit_ends w i m : next_ends i w (run_exit w i m).
Proof.
  unfold run_exit. pose proof (quiet_handle_exit w i m) as Hq.
  destruct (handle_exit _ _ _) as [w' []]; cbn [fst] in Hq.
  - eapply ends_trans; [exact Hq|apply run_end_ends].
  - pose proof (run_catch_ends w' i (ThrowStd (what e))) as H. unfold next_ends in *.
    destruct (run_catch _ _ _); try done. by eapply ends_trans.
Qed.

Lemma run_ret_ends w i r : next_ends i w (run_ret w i r).
Proof.
  destruct r; [apply run_exit_ends|]. unfold run_ret. destruct (insts w !! i) as [x|]; [|done].
  destruct (i_receiver x); [apply run_end_ends|apply run_exit_ends].
Qed.

Section call.
Context (call : C → handle → bytes → prog U C).

(** The start of a task leaves it running or ends it. *)
Definition next_shape (i : Z) w (o : outcome U C) : Prop :=
  match o with Next w' => quiet (Some i) w w' ∨ ends i w w' | _ => True end.

Lemma next_ends_shape i w o : next_ends i w o → next_shape i w o.
Proof. destruct o; cbn; auto. Qed.

Lemma next_shape_trans i w w' o : quiet (Some i) w w' → next_shape i w' o → next_shape i w o.
Proof.
  destruct o; cbn; try done. intros H [H'|H']; [left; by etrans|right; by eapply ends_trans].
Qed.

Lemma run_receiver_shape w i x from msg : next_shape i w (run_receiver call w i x from msg).
Proof.
  unfold run_receiver. destruct (i_receiver x) as [[b|c]|].
  - left. etrans; [apply grows_quiet, grows_do_trace|apply quiet_upd].
  - left. apply quiet_upd.
  - apply next_ends_shape, run_catch_ends.
Qed.

Lemma run_body_shape w i x from msg : next_shape i w (run_body call w i x from msg).
Proof.
  unfold run_body. cbv zeta. eapply next_shape_trans; [apply grows_quiet, grows_do_trace|].
  destruct (if i_trap_exit x then _ else _) as [[]|e].
  - case_bool_decide; [right; apply run_end_ends|apply next_ends_shape, run_exit_ends].
  - eapply next_shape_trans; [|apply run_receiver_shape].
    destruct (is_null msg); [done|apply grows_quiet, grows_do_trace].
  - apply next_ends_shape, run_catch_ends.
Qed.

Lemma run_shape w i x from msg :
  insts w !! i = Some x → next_shape i w (run call w i x from msg).
Proof.
  intros Hx. unfold run. set (p := if is_link_msg msg then _ else _).
  assert (quiet (Some i) w p.1) as Hq.
  { unfold p. destruct (is_link_msg msg); [|done]. cbn [fst].
    etrans; [apply quiet_upd|apply grows_quiet, run_link_grows, Hx]. }
  destruct p as [w1 ret]. cbn [fst] in Hq.
  destruct ret; [right; by exists w1|]. destruct (i_in_shutdown x); [right; by exists w1|].
  eapply next_shape_trans; [exact Hq|apply run_body_shape].
Qed.

(** The instance that acts in a step. *)
Definition actor (l : label U C) : option Z :=
  match l with LRun i | LStep i | LDispatch i _ => Some i | LExtern _ | LRelease _ => None end.

(** The world when the task, if one starts, has left its strand. *)
Definition popped (l : label U C) w : world U C :=
  match l with
  | LRun i => set_strands w (<[i := tail (strand w i)]> (strands w))
  | _ => w
  end.

Definition shape (l : label U C) w w' : Prop :=
  quiet (actor l) (popped l w) w' ∨
  ∃ i, (actor l = Some i ∨ ∃ n, l = LRelease n) ∧ is_Some (insts w !! i) ∧
    ∃ w1, quiet (actor l) (popped l w) w1 ∧ w' = collect w1 i.

Lemma step_shape w l w' : wf w → races w l = false → step call w l = Next w' → shape l w w'.
Proof.
  intros Hw Hrace Hstep. pose proof (races_unraced w l Hrace) as [Hur1 Hur2].
  unfold shape. destruct l as [i|i|i m|o|n]; cbn [step actor popped] in *.
  - destruct (strand w i) as [|t ts] eqn:Et; [done|]. cbn [tail].
    destruct (insts w !! i) as [x|] eqn:Hx; [|done]. destruct (i_run x) eqn:Hr; [done|].
    pose proof (run_shape (set_strands w (<[i := ts]> (strands w))) i x (t_from t) (t_msg t) Hx) as H.
    rewrite Hstep in H. destruct H as [H|H]; [by left|right]. exists i. eauto.
  - destruct (insts w !! i) as [x|] eqn:Hx; [|done].
    assert (∀ o : outcome U C, next_ends i w o → o = Next w' →
      quiet (Some i) w w' ∨
      ∃ i0, (Some i = Some i0 ∨ ∃ n, (LStep i : label U C) = LRelease n) ∧ is_Some (insts w !! i0) ∧
        ∃ w1, quiet (Some i) w w1 ∧ w' = collect w1 i0) as Hends.
    { intros o Ho ->. right. exists i. rewrite Hx. eauto. }
    destruct (i_run x) as [[r|t|o k]|] eqn:Hr; [| | |done].
    + eapply Hends; [apply run_ret_ends|done].
    + eapply Hends; [apply run_catch_ends|done].
    + pose proof (quiet_exec w (Some i) o Hw (Hur2 i x o k eq_refl Hx Hr)) as Hq.
      destruct (exec w (Some i) o) as [w1 [a|e]]; cbn [fst] in Hq.
      * injection Hstep as <-. left. etrans; [exact Hq|apply quiet_upd].
      * pose proof (run_catch_ends w1 i (ThrowStd (what e))) as H. rewrite Hstep in H.
        right. exists i. rewrite Hx. split_and!; [by left|eauto|]. by eapply ends_trans.
  - destruct (insts w !! i) as [x|] eqn:Hx; [|done]. destruct (i_run x) eqn:Hr; [done|].
    unfold dispatch_sync in Hstep. destruct (i_in_shutdown x); [injection Hstep as <-; by left|].
    pose proof (run_shape w i x null_handle m Hx) as H. rewrite Hstep in H.
    destruct H as [H|H]; [by left|right]. exists i. rewrite Hx. eauto.
  - injection Hstep as <-. left. apply quiet_exec; [done|by apply Hur1].
  - destruct (holders w !! n) as [[| | |i]|] eqn:Hn; try done. injection Hstep as <-. right. exists i.
    split_and!; [right; eauto|by apply (wf_holders _ _ Hw n (HHeld i))|]. eexists. split; [|done].
    apply quiet_hold. intros j _. by rewrite (flying_delete w n (HHeld i) j Hn).
Qed.

End call.
End quiet.
