(* ===== verification/InstanceTheorems.v ===== *)
(** * What the actor runtime guarantees

    The theorems hold for every client code [call], every number of instances
    and every interleaving.  A small client with linked instances serves as the
    concrete input of the witnesses. *)
From S2P Require Import Prelude CborEncode Ieee CborDecode CborGrammar CborMatch CborMatchSpec CppText CborJson Env Instance InstanceInv InstanceStep.

(** ** A client

    Closure 0 spawns a linked instance and then waits; closure 1 exits with an
    error; closure 2 ignores every message; closure 3 spawns, sends to what it
    spawned and waits; closure 4 throws. *)
Module Client.
Definition call (c : nat) (from : handle) (m : bytes) : prog unit nat :=
  match c with
  | 0%nat => Call (OSpawnLink 1%nat (str "child") None)
               (λ _, Call (OReceive (Some 2%nat)) (λ _, Ret None))
  | 1%nat => Ret (exit_ (Some (str "boom", [])))
  | 2%nat => Ret None
  | 3%nat => Call (OReceive (Some 2%nat)) (λ _, Call (OSetTrap true) (λ _, Ret None))
  | _ => Raise (ThrowStd (str "oops"))
  end.

Fixpoint go (ls : list (label unit nat)) (w : world unit nat) : world unit nat :=
  match ls with
  | [] => w
  | l :: ls => match step call w l with Next w => go ls w | _ => w end
  end.

(** Every step of the schedule can be taken, and none races an exit. *)
Fixpoint enabled_all (ls : list (label unit nat)) (w : world unit nat) : bool :=
  match ls with
  | [] => true
  | l :: ls => negb (races w l) && match step call w l with Next w => enabled_all ls w | _ => false end
  end.

Lemma go_steps ls w : enabled_all ls w = true → steps call w ls (go ls w).
Proof.
  revert w. induction ls as [|l ls IH]; intros w; cbn [enabled_all go]; [constructor|].
  intros [_ H]%andb_true_iff. destruct (step call w l) eqn:E; try done. econstructor; [exact E|auto].
Qed.

Lemma go_race_free ls w : enabled_all ls w = true → race_free call w ls.
Proof.
  revert w. induction ls as [|l ls IH]; intros w; cbn [enabled_all race_free]; [done|].
  intros [Hr H]%andb_true_iff. split; [by destruct (races w l)|]. intros w' E. rewrite E in H. auto.
Qed.

Definition start : world unit nat := context_create tt.

Lemma reach_wf ls : enabled_all ls start = true → wf (go ls start).
Proof. intros H. eapply steps_wf; [apply context_create_wf|by apply go_race_free|by apply go_steps]. Qed.

Definition get (w : world unit nat) (i : Z) : inst unit nat :=
  default (Inst [] None None None None [] false false false false [] env_empty None) (insts w !! i).

(** An instance that runs closure [c], with exit handler 7, and the last exit
    handler 9. *)
Definition boot (c : nat) : list (label unit nat) :=
  [LExtern (OOnLastExit (Some 9));
   LExtern (OContextSpawnLink c (Some 7) (str "main") env_empty)].

(** The instance has linked a child and waits; the child is queued. *)
Definition linked : list (label unit nat) := boot 0 ++ [LRun 1; LStep 1; LStep 1; LStep 1].

(** The instance is in shutdown and has one message [m] left to drain. *)
Definition stopped (m : bytes) : list (label unit nat) :=
  boot 1 ++ [LExtern (OSend (self_handle 1) m); LRun 1; LStep 1].

(** The child has exited and its exit message waits for its parent. *)
Definition child_gone : list (label unit nat) := linked ++ [LRun 2; LRun 2; LStep 2].

(** A thread outside has begun to send to the instance, which then exits; the sender has
    copied [lifetime_] before that, or goes on after it. *)
Definition send_begins (m : bytes) : list (label unit nat) :=
  boot 1 ++ [LExtern (OQueue 0 (QLock (self_handle 1) m)); LExtern (OQueue 0 QCheck)].
Definition sent_late (m : bytes) : list (label unit nat) :=
  send_begins m ++ [LExtern (OQueue 0 QCopy); LRun 1; LStep 1].
Definition raced (m : bytes) : list (label unit nat) := send_begins m ++ [LRun 1; LStep 1].
End Client.

Section theorems.
Context {U C : Type} (call : C → handle → bytes → prog U C).
Implicit Types (w : world U C) (x : inst U C).

(** C6: every world that a context reaches satisfies the invariant of the runtime,
    whatever the client code and the interleaving, sends step by step among other
    threads included, unless a send copied the [lifetime_] of an instance that was not
    in shutdown when the send looked and has exited since: the table lists exactly the
    instances that exist, the count of active instances is their number, every queued
    task belongs to an instance that exists and holds it, and so does every callback and
    every send on its way, an instance owns itself until it shuts down, a running one is
    not in shutdown, a waiting one has a receiver, one in shutdown has tasks left to
    drain or is held by a callback or a sender, the count of taps is their number, and a
    registered name denotes an identity that was given to an instance. *)
Theorem runtime_invariant u ls w :
  race_free call (context_create u) ls → steps call (context_create u) ls w → wf w.
Proof. intros Hf H. eapply steps_wf; [apply context_create_wf|exact Hf|exact H]. Qed.

(** C7: no reachable step uses an instance that was deleted, over schedules in which no
    send copies the [lifetime_] of an instance that has exited since the send looked at
    [in_shutdown]: a task holds its instance as long as it is queued and while it runs,
    also one that is posted when the instance has shut down. *)
Theorem no_use_after_free u ls w l :
  race_free call (context_create u) ls → steps call (context_create u) ls w → races w l = false →
  step call w l ≠ Crash.
Proof.
  intros Hf H Hr Hc. assert (wf w) as Hw by (eapply steps_wf; [apply context_create_wf|done|exact H]).
  pose proof (step_ok call w l Hw Hr) as Ho. by rewrite Hc in Ho.
Qed.

(** ** Order of delivery *)

Lemma ends_strand i w w' j : ends i w w' → ∃ new, strand w' j = strand w j ++ new.
Proof.
  intros (w1 & Hq & ->). rewrite collect_strand. destruct (q_strand _ _ _ Hq j) as (new & ? & _).
  by exists new.
Qed.

Lemma step_strand w l w' j :
  wf w → races w l = false → step call w l = Next w' → ∃ new, strand w' j = strand (popped l w) j ++ new.
Proof.
  intros Hw Hr Hs. destruct (step_shape call w l w' Hw Hr Hs) as [Hq|(i & _ & _ & w1 & Hq & ->)].
  - destruct (q_strand _ _ _ Hq j) as (new & ? & _). by exists new.
  - rewrite collect_strand. destruct (q_strand _ _ _ Hq j) as (new & ? & _). by exists new.
Qed.

Lemma step_start_nonempty w i w' : step call w (LRun i) = Next w' → strand w i ≠ [].
Proof. cbn. by destruct (strand w i). Qed.

(** How many tasks of [i] a schedule starts. *)
Fixpoint starts (i : Z) (ls : list (label U C)) : nat :=
  match ls with
  | [] => 0
  | LRun j :: ls => if decide (i = j) then S (starts i ls) else starts i ls
  | _ :: ls => starts i ls
  end.

Lemma popped_strand l w i :
  strand (popped l w) i = match l with
                          | LRun j => if decide (i = j) then tail (strand w i) else strand w i
                          | _ => strand w i
                          end.
Proof.
  destruct l as [j|j|j m|o|n]; cbn [popped]; [|done..]. rewrite set_strand.
  destruct (decide (j = i)), (decide (i = j)); congruence.
Qed.

(** Over any schedule, the tasks that were started are the first ones of the strand
    followed by what was queued meanwhile, and the strand is the rest. *)
Lemma strand_order w ls w' i :
  wf w → race_free call w ls → steps call w ls w' →
  ∃ new, (starts i ls <= length (strand w i ++ new))%nat ∧
         strand w' i = drop (starts i ls) (strand w i ++ new).
Proof.
  intros Hw Hf H. induction H as [w|w l w1 ls w2 Hstep H IH].
  { exists []. rewrite app_nil_r. cbn [starts]. split; [lia|done]. }
  destruct Hf as [Hr Hf].
  assert (wf w1) as Hw1 by (pose proof (step_ok call w l Hw Hr) as Ho; by rewrite Hstep in Ho).
  destruct (IH Hw1 (Hf w1 Hstep)) as (new2 & Hle & Heq). clear IH.
  destruct (step_strand w l w1 i Hw Hr Hstep) as (new1 & E1). rewrite popped_strand in E1.
  exists (new1 ++ new2). rewrite E1, <- (assoc_L app) in Hle, Heq.
  destruct l as [j|j|j m|o|n]; cbn [starts]; [|done..]. destruct (decide (i = j)) as [->|]; [|done].
  pose proof (step_start_nonempty _ _ _ Hstep). destruct (strand w j); [done|].
  cbn [tail app length drop] in *. split; [lia|done].
Qed.

Lemma starts_split i p ls :
  (p < starts i ls)%nat → ∃ ls1 ls2, ls = ls1 ++ LRun i :: ls2 ∧ starts i ls1 = p.
Proof.
  revert p. induction ls as [|l ls IH]; cbn [starts]; [lia|]. intros p Hp.
  assert ((p < starts i ls)%nat → (∀ ls1, starts i (l :: ls1) = starts i ls1) →
    ∃ ls1 ls2, l :: ls = ls1 ++ LRun i :: ls2 ∧ starts i ls1 = p) as Hskip.
  { intros H Hl. destruct (IH p H) as (ls1 & ls2 & -> & <-). exists (l :: ls1), ls2. by rewrite Hl. }
  destruct l as [j|j|j m|o|n]; try by apply Hskip. destruct (decide (i = j)) as [<-|Hne].
  - destruct p as [|p]; [by exists [], ls|]. destruct (IH p) as (ls1 & ls2 & -> & <-); [lia|].
    exists (LRun i :: ls1), ls2. cbn [starts]. by rewrite decide_True.
  - apply Hskip; [done|]. intros ls1. cbn [starts]. by rewrite decide_False.
Qed.

Lemma steps_prefix ls1 ls2 w w' :
  steps call w (ls1 ++ ls2) w' → race_free call w (ls1 ++ ls2) →
  ∃ w1, steps call w ls1 w1 ∧ race_free call w ls1.
Proof.
  revert w. induction ls1 as [|l ls1 IH]; intros w H Hf; [exists w; split; [constructor|done]|].
  inversion H as [|? ? w1 ? ? Hs Hrest]; subst. destruct Hf as [Hr Hf].
  destruct (IH w1 Hrest (Hf w1 Hs)) as (w2 & H1 & H2). exists w2. split; [by econstructor|]. split; [done|].
  intros w3 E. rewrite Hs in E. by injection E as <-.
Qed.

(** The call sends the task [t] to [i]: a send by handle in one step, where nothing is
    tapped, or the last step of one. *)
Inductive posts w (cur : option Z) : op U C → Z → task → Prop :=
| posts_send h m i :
    lock w (h_ref h) = Some i → in_shutdown w i = false → is_tapping w = false →
    posts w cur (OSend h m) i (Task (sender cur) m true)
| posts_part n i from m lk :
    holders w !! n = Some (HCopied i from m lk) → posts w cur (OQueue n QPost) i (Task from m lk).

Lemma exec_posts w cur o i t :
  wf w → posts w cur o i t →
  (exec w cur o).2 = Ok (AnsResult None) ∧
  ∀ j, strand (exec w cur o).1 j = strand w j ++ if decide (j = i) then [t] else [].
Proof.
  intros Hw Hp.
  assert (∀ (w1 : world U C) from m lk, strands w1 = strands w → ∀ j,
    strand (post_task w1 i from m lk) j = strand w j ++ if decide (j = i) then [Task from m lk] else []) as Hpost.
  { intros w1 from m lk E j. assert (∀ j, strand w1 j = strand w j) as Es by (intros j'; unfold strand; by rewrite E).
    unfold post_task. rewrite set_strand. destruct (decide (i = j)) as [<-|].
    - by rewrite decide_True, Es.
    - by rewrite decide_False, app_nil_r, Es by congruence. }
  destruct Hp as [h m i Hl Hs Ht|n i from m lk Hn]; cbn [exec ans_map fst snd].
  - unfold handle_send_raw. rewrite Hl. unfold send_raw, queue. cbv zeta.
    change (in_shutdown (trace_send w i (sender cur) m) i) with (in_shutdown w i). rewrite Hs.
    change (is_tapping (trace_send w i (sender cur) m)) with (is_tapping w). rewrite Ht. cbn [andb fst snd].
    split; [done|]. unfold submit_msg_task. apply lock_Some in Hl as [_ [x Hx]].
    assert (lifetime (trace_send w i (sender cur) m) i = true) as ->; [|by apply Hpost].
    unfold lifetime, in_shutdown in *. change (insts (trace_send w i (sender cur) m)) with (insts w).
    rewrite Hx in *. by apply (wf_weak _ _ Hw i).
  - unfold queue_part. rewrite Hn. cbn. split; [done|]. intros j. by apply (Hpost w).
Qed.

Lemma called_posts w l w1 cur o i t :
  wf w → called w l = Some (cur, o) → posts w cur o i t → step call w l = Next w1 →
  ∀ j, strand w1 j = strand w j ++ if decide (j = i) then [t] else [].
Proof.
  intros Hw Hc Hp Hs j. destruct (exec_posts w cur o i t Hw Hp) as [Ha Hj].
  destruct l as [k|k|k m|o'|n]; cbn [called] in Hc; try done; cbn [step] in Hs.
  - destruct (insts w !! k) as [x|]; [|done]. destruct (i_run x) as [[r|th|o' kk]|]; try done.
    injection Hc as <- <-. destruct (exec w (Some k) o') as [w2 [a|e]]; [|done]. injection Hs as <-. apply Hj.
  - injection Hc as <- <-. injection Hs as <-. apply Hj.
Qed.


(** ** Shutdown *)

Lemma gone_step w l w' i :
  wf w → races w l = false → step call w l = Next w' → insts w !! i = None → i < next_instance_id w →
  insts w' !! i = None ∧ i < next_instance_id w'.
Proof.
  intros Hw Hr Hs Hi Hlt.
  assert (insts (popped l w) = insts w ∧ next_instance_id (popped l w) = next_instance_id w)
    as [Ep En] by by destruct l.
  destruct (step_shape call w l w' Hw Hr Hs) as [Hq|(j & _ & _ & w1 & Hq & ->)].
  - pose proof (q_next _ _ _ Hq) as Hn. rewrite En in Hn. split; [|lia].
    apply (q_gone _ _ _ Hq); by rewrite ?Ep, ?En.
  - pose proof (q_next _ _ _ Hq) as Hn. rewrite En in Hn.
    assert (insts w1 !! i = None) as H1 by (apply (q_gone _ _ _ Hq); by rewrite ?Ep, ?En).
    unfold collect, destroy. destruct (insts w1 !! j) as [x|] eqn:Ex; [|split; [done|lia]].
    destruct (held w1 j x); [split; [done|lia]|]. cbv zeta.
    assert (delete j (insts w1) !! i = None) as H2.
    { destruct (decide (j = i)) as [->|]; [by rewrite lookup_delete_eq|by rewrite lookup_delete_ne]. }
    repeat case_match; (split; [exact H2|cbn; lia]).
Qed.

(** A task that starts in shutdown records a link at most. *)
Lemma run_shutdown w i x from msg :
  wf_but (Some i) w → insts w !! i = Some x → i_in_shutdown x = true →
  ∃ w1 links, run call w i x from msg = Next (collect w1 i) ∧ wf_but (Some i) w1 ∧
    insts w1 !! i = Some (set_links x links) ∧ holders w1 = holders w ∧ ∀ j, strand w1 j = strand w j.
Proof.
  intros Hw Hx Hs. unfold run. rewrite Hs. destruct (is_link_msg msg).
  - pose proof (run_link_grows w i x from Hx) as Hg. exists (run_link w i x from), (from :: i_links x).
    split_and!; [by destruct (negb _)| |by rewrite (g_insts _ _ Hg), lookup_upd, Hx|by rewrite (g_holders _ _ Hg)|].
    + eapply wf_grows; [|exact Hg]. by eapply wf_upd_shutdown.
    + intros j. unfold run_link. cbv zeta. repeat case_match; done.
  - exists w, (i_links x). split_and!; try done. rewrite Hx. by destruct x.
Qed.

(** What a step leaves of an instance in shutdown. *)
Definition drains w w' (i : Z) : Prop :=
  (∀ x, insts w' !! i = Some x → i_in_shutdown x = true) ∧
  ∃ late, strand w' i `suffix_of` strand w i ++ late ∧ late ++ flying w' i ⊆+ flying w i.

Lemma shutdown_step w l w' i x :
  wf w → races w l = false → step call w l = Next w' → insts w !! i = Some x → i_in_shutdown x = true → drains w w' i.
Proof.
  intros Hw Hrace Hstep Hx Hs. unfold drains.
  destruct (wf_inst _ _ Hw i x Hx) as (Hl & Hr & _); [done|].
  assert (i_run x = None) as Hrun.
  { destruct (i_run x); [|done]. rewrite Hr in Hs by eauto. done. }
  destruct (decide (actor l = Some i)) as [Ha|Ha].
  - destruct l as [j|j|j m|o|n]; [| | |done|done]; injection Ha as ->; cbn [step] in Hstep;
      rewrite Hx, Hrun in Hstep; [|done|].
    2: { unfold dispatch_sync in Hstep. rewrite Hs in Hstep. injection Hstep as <-.
         split; [intros y Hy; by simplify_eq|]. exists []. by rewrite app_nil_r. }
    destruct (strand w i) as [|t ts] eqn:Et; [done|].
    destruct (run_shutdown (set_strands w (<[i := ts]> (strands w))) i x (t_from t) (t_msg t))
      as (w1 & links & Erun & Hw1 & Hx1 & Hh & Hst); [by apply wf_pop with t|done|done|].
    rewrite Erun in Hstep. injection Hstep as <-. rewrite collect_strand, Hst, set_strand, decide_True by done. split.
    + intros y Hy%collect_same. rewrite Hx1 in Hy. by injection Hy as <-.
    + exists []. rewrite app_nil_r. split; [by apply suffix_cons_r|]. by rewrite (flying_eq w) by by rewrite collect_holders.
  - assert (insts (popped l w) = insts w) as Ep by by destruct l.
    assert (flying (popped l w) i = flying w i) as Ef by by destruct l.
    assert (strand (popped l w) i = strand w i) as Es.
    { rewrite popped_strand. destruct l; try done. rewrite decide_False; [done|].
      intros ->. by apply Ha. }
    assert (∀ w2, quiet (actor l) (popped l w) w2 →
      (∀ y, insts w2 !! i = Some y → i_in_shutdown y = true) ∧
      ∃ late, strand w2 i `suffix_of` strand w i ++ late ∧ late ++ flying w2 i ⊆+ flying w i) as Hquiet.
    { intros w2 Hq. split.
      - intros y Hy. destruct (q_insts _ _ _ Hq i x) as (y' & Hy' & Hyx); [by rewrite Ep|]. simplify_eq.
        by destruct Hyx as [_ ->].
      - destruct (q_strand _ _ _ Hq i) as (new & Hn & Hnew). exists new. rewrite Hn, Es, <- Ef. split; [done|].
        apply Hnew; [done|]. unfold in_shutdown. by rewrite Ep, Hx. }
    destruct (step_shape call w l w' Hw Hrace Hstep) as [Hq|(j & _ & _ & w1 & Hq & ->)]; [by apply Hquiet|].
    destruct (Hquiet w1 Hq) as [H1 H2]. rewrite collect_strand, (flying_eq w1 (collect w1 j)) by apply collect_holders.
    split; [|done]. intros y Hy. apply H1. destruct (decide (j = i)) as [->|]; [by apply collect_same|].
    by rewrite collect_other in Hy.
Qed.

Lemma step_next w l w' :
  wf w → races w l = false → step call w l = Next w' → next_instance_id w <= next_instance_id w'.
Proof.
  intros Hw Hr Hstep. assert (next_instance_id (popped l w) = next_instance_id w) as En by by destruct l.
  destruct (step_shape call w l w' Hw Hr Hstep) as [Hq|(j & _ & _ & w1 & Hq & ->)];
    pose proof (q_next _ _ _ Hq) as Hn; rewrite En in Hn; [lia|].
  unfold collect, destroy. repeat case_match; cbn; lia.
Qed.

(** Nothing is left of an instance that is gone. *)
Lemma gone_empty w i : wf w → insts w !! i = None → strand w i = [] ∧ is_held w i = false ∧ flying w i = [].
Proof.
  intros Hw Hi. assert (is_held w i = false) as Hh.
  { apply not_true_iff_false. intros (n & h & Hn & <-)%is_held_true.
    destruct (wf_holders _ _ Hw n h Hn) as [[y Hy] _]. congruence. }
  split_and!; [|done|].
  - destruct (strand w i) eqn:E; [done|]. destruct (wf_tasks _ _ Hw i) as [[y Hy] _]; [by rewrite E|congruence].
  - destruct (flying w i) as [|t l] eqn:E; [done|]. exfalso.
    assert (t ∈ flying w i) as Ht by (rewrite E; by left). unfold flying in Ht.
    apply list_elem_of_omap in Ht as ([n h] & Hn%elem_of_map_to_list & Hf). cbn in Hf.
    assert (is_held w i = true); [|congruence]. apply is_held_true. exists n, h. split; [done|].
    destruct h; try done. cbn in Hf. by case_decide.
Qed.

(** An instance in shutdown, or gone. *)
Definition draining w (i : Z) : Prop :=
  wf w ∧ i < next_instance_id w ∧ ∀ x, insts w !! i = Some x → i_in_shutdown x = true.

Lemma draining_step w l w' i :
  draining w i → races w l = false → step call w l = Next w' → draining w' i ∧ drains w w' i.
Proof.
  intros (Hw & Hlt & Hi) Hr Hstep. unfold draining.
  assert (wf w') as Hw' by (pose proof (step_ok call w l Hw Hr) as Ho; by rewrite Hstep in Ho).
  pose proof (step_next w l w' Hw Hr Hstep) as Hn.
  assert (drains w w' i) as Hd; [|split; [split_and!; [done|lia|apply Hd]|done]].
  destruct (insts w !! i) as [x|] eqn:Hx; [by eapply shutdown_step; eauto|].
  destruct (gone_step w l w' i Hw Hr Hstep Hx Hlt) as [Hi' _].
  destruct (gone_empty w i Hw Hx) as (E1 & _ & E2), (gone_empty w' i Hw' Hi') as (E3 & _ & E4).
  split; [congruence|]. exists []. by rewrite E1, E2, E3, E4.
Qed.

(** C9: shutdown is final.  Once an instance is in shutdown it never runs its receiver
    again and gets no new message but those of sends that had made their task before:
    whatever the others do, with no send that races an exit, its strand is a suffix of
    what it was and of these, each at most once, and the instance is deleted exactly
    when the strand is empty and no callback or sender holds it. *)
Theorem shutdown_is_final w ls w' i :
  wf w → in_shutdown w i = true → race_free call w ls → steps call w ls w' →
  (∃ late, strand w' i `suffix_of` strand w i ++ late ∧ late ⊆+ flying w i) ∧
  match insts w' !! i with
  | Some x => i_in_shutdown x = true ∧ i_run x = None ∧ (strand w' i ≠ [] ∨ is_held w' i = true)
  | None => strand w' i = [] ∧ is_held w' i = false
  end.
Proof.
  intros Hw Hs Hf H.
  assert (draining w i) as Hd.
  { unfold in_shutdown in Hs. destruct (insts w !! i) as [x|] eqn:Hx; [|done].
    split_and!; [done|apply (wf_ids _ _ Hw); eauto|]. intros y Hy. by simplify_eq. }
  assert (draining w' i ∧ ∃ late, strand w' i `suffix_of` strand w i ++ late ∧ late ++ flying w' i ⊆+ flying w i)
    as [(Hw' & _ & Hc) (late & H1 & H2)].
  { clear Hs Hw. induction H as [w|w l w1 ls w2 Hstep H IH].
    - split; [done|]. exists []. by rewrite app_nil_r.
    - destruct Hf as [Hr Hf]. destruct (draining_step w l w1 i Hd Hr Hstep) as [Hd1 [_ (l1 & H1 & H2)]].
      destruct (IH (Hf w1 Hstep) Hd1) as [Hd2 (l2 & H3 & H4)]. split; [done|]. exists (l1 ++ l2). split.
      + etrans; [exact H3|]. rewrite (assoc_L app). by apply suffix_app.
      + rewrite <- (assoc_L app). etrans; [|exact H2]. by apply submseteq_skips_l. }
  split; [exists late; split; [done|]; etrans; [|exact H2]; by apply submseteq_inserts_r|].
  destruct (insts w' !! i) as [x|] eqn:Hx; [|by destruct (gone_empty w' i Hw' Hx) as (? & ? & _)].
  specialize (Hc x eq_refl). destruct (wf_inst _ _ Hw' i x Hx) as (_ & Hr & Hh & _); [done|].
  split_and!; [done| |by apply Hh]. destruct (i_run x); [|done]. rewrite Hr in Hc by eauto. done.
Qed.

(** ** Sends step by step *)

(** Taps do not look at the holders. *)
Lemma tap_deliver_holders w H cur subs ev :
  tap_deliver (set_holders w H) cur subs ev = set_holders (tap_deliver w cur subs ev) H.
Proof.
  revert w. induction subs as [|h subs IH]; intros w; [done|]. cbn [tap_deliver foldl]. fold (tap_deliver (U:=U) (C:=C)).
  unfold tap_deliver in IH. rewrite <- IH. f_equal. change (lock (set_holders w H) (h_ref h)) with (lock w (h_ref h)).
  destruct (lock w (h_ref h)) as [p|]; [|done]. unfold queue_in_tap. cbv zeta.
  change (in_shutdown (trace_send (set_holders w H) p null_handle ev) p) with (in_shutdown (trace_send w p null_handle ev) p).
  by destruct (in_shutdown (trace_send w p null_handle ev) p).
Qed.

Lemma tap_event_holders w H cur name a b m :
  tap_event (set_holders w H) cur name a b m = set_holders (tap_event w cur name a b m) H.
Proof.
  unfold tap_event. case_bool_decide; [done|].
  change (tap_subscribers (set_holders w H) name)
    with (set_holders (tap_subscribers w name).1 H, (tap_subscribers w name).2).
  destruct (tap_subscribers w name) as [w' subs]. cbn [fst snd]. case_bool_decide; [done|apply tap_deliver_holders].
Qed.

Lemma wf_held w i x : wf w → insts w !! i = Some x → held w i x = true.
Proof.
  intros Hw Hx. unfold held. destruct (wf_inst _ _ Hw i x Hx) as (Hl & _ & Hs & _); [done|].
  destruct (i_in_shutdown x); rewrite Hl; [|done]. destruct (Hs eq_refl) as [Hne|Hh].
  - destruct (wf_tasks _ _ Hw i Hne) as [_ Ht]. destruct (strand w i) as [|t l]; [done|].
    apply Forall_cons in Ht as [Ht _]. cbn. by rewrite Ht.
  - rewrite Hh. by rewrite orb_true_r.
Qed.

(** The end of a holder that came and went. *)
Lemma release_new w w' n i h :
  wf w → is_Some (insts w !! i) → w' = set_holders w (<[n := HHeld i]> h) → delete n h = holders w →
  step call w' (LRelease n) = Next w.
Proof.
  intros Hw [x Hx] -> Hh. cbn. rewrite lookup_insert_eq. f_equal.
  assert (set_holders (set_holders w (<[n := HHeld i]> h)) (delete n (<[n := HHeld i]> h)) = w) as ->.
  { rewrite delete_insert_eq, Hh. by destruct w. }
  apply (collect_held w i x Hx). by apply wf_held.
Qed.

(** The steps of a send in a row, with what the sender holds given back at the end, are
    the send in one step, with the same answer. *)
Lemma send_steps w cur n h m i :
  wf w → holders w !! n = None → lock w (h_ref h) = Some i →
  let w1 := (queue_part w cur n (QLock h m)).1 in
  let '(w2, r2) := queue_part w1 cur n QCheck in
  if in_shutdown w i then
    r2 = Some <$> (handle_send_raw w cur h m).2 ∧ step call w2 (LRelease n) = Next (handle_send_raw w cur h m).1
  else
    let w3 := (queue_part w2 cur n QCopy).1 in
    let '(w4, r4) := queue_part w3 cur n QPost in
    r4 = Some <$> (handle_send_raw w cur h m).2 ∧ step call w4 (LRelease n) = Next (handle_send_raw w cur h m).1.
Proof.
  intros Hw Hn Hl. unfold handle_send_raw, send_raw, queue. rewrite Hl. cbv zeta.
  pose proof Hl as [_ Hx]%lock_Some. set (s := sender cur). pose proof (grows_trace_send w i s m) as Hg.
  unfold queue_part at 2. rewrite Hn, Hl. cbn [fst]. fold s. set (tw := trace_send w i s m) in *.
  assert (wf tw) as Hwt by by eapply wf_grows.
  assert (delete n (holders w) = holders w) as Hd by by apply delete_id.
  unfold queue_part at 1. cbn [holders set_holders]. rewrite lookup_insert_eq.
  set (w1 := set_holders tw _). change (in_shutdown w1 i) with (in_shutdown w i).
  change (in_shutdown tw i) with (in_shutdown w i). destruct (in_shutdown w i) eqn:Hs; cbn [fst snd].
  - split; [done|]. apply (release_new tw _ n i (<[n := HLocked i s m]> (holders w))); [done..|].
    by rewrite delete_insert_eq.
  - change (is_tapping w1) with (is_tapping tw). change (name_of w1 (Some i)) with (name_of tw (Some i)).
    set (tm := if is_tapping tw && negb (is_null m) then tap_message tw cur (name_of tw (Some i)) s m else tw).
    assert (grows tw tm) as Hgm by (unfold tm; destruct (_ && _); [apply tap_message_grows|done]).
    set (H1 := <[n := HLocked i s m]> (holders tw)).
    assert ((if is_tapping tw && negb (is_null m) then tap_message w1 cur (name_of tw (Some i)) s m else w1)
      = set_holders tm H1) as ->.
    { unfold tm. destruct (_ && _); [|done]. unfold tap_message, w1. by rewrite !tap_event_holders. }
    unfold queue_part at 2. cbn [holders set_holders fst]. rewrite lookup_insert_eq. cbn [fst].
    unfold queue_part. cbn [holders set_holders]. rewrite lookup_insert_eq. split; [done|].
    unfold submit_msg_task.
    assert (is_Some (insts tm !! i)) as [x Hxm] by by rewrite (g_insts _ _ Hgm).
    assert (in_shutdown tm i = false) as Hsm by (unfold in_shutdown in *; by rewrite (g_insts _ _ Hgm)).
    eapply (release_new _ _ n i); [|by eexists|reflexivity|].
    + eapply wf_grows; [|apply grows_submit; [by eexists|done]]. by eapply wf_grows.
    + cbn. rewrite !delete_insert_eq. unfold H1. rewrite delete_insert_eq, (g_holders _ _ Hgm). exact Hd.
Qed.

(** ** Sends that race an exit *)

(** C22: a send races the exit of the instance it sends to.  In every state of the
    runtime in which a send has seen that an instance is not in shutdown, the instance
    has exited since and its strand is empty, and nobody else holds it, the rest of the
    send copies an empty [lifetime_], posts a task that does not hold the instance, and
    gives back the last [shared_ptr]: the instance is deleted, and the strand runs the
    task on it. *)
Theorem racing_send_crashes w n i from m x :
  wf w → insts w !! i = Some x → i_in_shutdown x = true → strand w i = [] →
  holders w !! n = Some (HChecked i from m) → (∀ n' h, holders w !! n' = Some h → holds h = i → n' = n) →
  ∃ w', steps call w [LExtern (OQueue n QCopy); LExtern (OQueue n QPost); LRelease n] w' ∧
    insts w' !! i = None ∧ strand w' i = [Task from m false] ∧ step call w' (LRun i) = Crash.
Proof.
  intros Hw Hx Hs Hst Hn Hone. destruct (wf_inst _ _ Hw i x Hx) as (Hl & Hr & _); [done|].
  assert (i_run x = None) as Hrun by (destruct (i_run x); [rewrite Hr in Hs by eauto; done|done]).
  rewrite Hs in Hl. cbn in Hl.
  set (w1 := set_holders w (<[n := HCopied i from m false]> (holders w))).
  set (w2 := set_holders (post_task w1 i from m false) (<[n := HHeld i]> (holders w1))).
  set (w3 := set_holders w2 (delete n (holders w2))).
  assert (strand w3 i = [Task from m false]) as Hs3.
  { change (strand w3 i) with (strand (post_task w1 i from m false) i). unfold post_task.
    rewrite set_strand, decide_True by done. change (strand w1 i) with (strand w i). by rewrite Hst. }
  assert (insts w3 !! i = Some x) as Hx3 by done.
  assert (is_held w3 i = false) as Hh.
  { apply not_true_iff_false. intros (n' & h & Hn' & Hi)%is_held_true. cbn in Hn'.
    rewrite delete_insert_eq, delete_insert_eq in Hn'. apply lookup_delete_Some in Hn' as [Hne Hn']. by apply Hne, eq_sym, (Hone n' h). }
  assert (insts (collect w3 i) !! i = None) as Hgone.
  { apply (collect_destroys w3 i x Hx3). unfold held. rewrite Hl, Hs3, Hrun, Hh. cbn [existsb t_lock orb].
    by rewrite bool_decide_false by by intros []. }
  exists (collect w3 i). split_and!.
  - econstructor; [|econstructor; [|econstructor; [|constructor]]].
    + cbn. rewrite Hn. unfold lifetime. rewrite Hx, Hl. reflexivity.
    + cbn. rewrite lookup_insert_eq. reflexivity.
    + cbn. rewrite lookup_insert_eq. reflexivity.
  - done.
  - by rewrite collect_strand.
  - cbn. by rewrite collect_strand, Hs3, Hgone.
Qed.

End theorems.

(** ** Witnesses *)

Lemma runtime_invariant_witness : wf (Client.go Client.child_gone Client.start).
Proof.
  apply (runtime_invariant Client.call tt Client.child_gone);
    [apply Client.go_race_free|apply Client.go_steps]; vm_compute; reflexivity.
Defined.

Lemma no_use_after_free_witness :
  step Client.call (Client.go (Client.sent_late (cbor_array [AInt 1])) Client.start) (LExtern (OQueue 0 QPost)) ≠ Crash.
Proof.
  apply (no_use_after_free Client.call tt (Client.sent_late (cbor_array [AInt 1])));
    [apply Client.go_race_free|apply Client.go_steps|]; vm_compute; reflexivity.
Defined.


(** The task of a send that was late is all that an instance in shutdown gets. *)
Lemma shutdown_is_final_witness :
  let w := Client.go (Client.sent_late (cbor_array [AInt 1])) Client.start in
  let w' := Client.go [LExtern (OQueue 0 QPost); LRelease 0] w in
  (∃ late, strand w' 1 `suffix_of` strand w 1 ++ late ∧ late ⊆+ flying w 1) ∧ strand w' 1 ≠ [] ∧
  match insts w' !! 1 with
  | Some x => i_in_shutdown x = true ∧ i_run x = None ∧ (strand w' 1 ≠ [] ∨ is_held w' 1 = true)
  | None => strand w' 1 = [] ∧ is_held w' 1 = false
  end.
Proof.
  intros w w'.
  destruct (shutdown_is_final Client.call w [LExtern (OQueue 0 QPost); LRelease 0] w' 1) as [H1 H2].
  - apply Client.reach_wf. vm_compute. reflexivity.
  - vm_compute. reflexivity.
  - apply Client.go_race_free. vm_compute. reflexivity.
  - apply Client.go_steps. vm_compute. reflexivity.
  - split; [exact H1|]. split; [vm_compute; discriminate|exact H2].
Defined.

Lemma racing_send_crashes_witness :
  let m := cbor_array [AInt 1] in
  let w := Client.go (Client.raced m) Client.start in
  steps Client.call Client.start (Client.raced m) w ∧
  ∃ w', steps Client.call w [LExtern (OQueue 0 QCopy); LExtern (OQueue 0 QPost); LRelease 0] w' ∧
    insts w' !! 1 = None ∧ strand w' 1 = [Task null_handle m false] ∧ step Client.call w' (LRun 1) = Crash.
Proof.
  intros m w. split; [apply Client.go_steps; vm_compute; reflexivity|].
  eapply (racing_send_crashes Client.call w 0 1 null_handle m (Client.get w 1)).
  - apply Client.reach_wf. vm_compute. reflexivity.
  - vm_compute. reflexivity.
  - vm_compute. reflexivity.
  - vm_compute. reflexivity.
  - vm_compute. reflexivity.
  - intros n' h Hn' _. assert (holders w = {[0%nat := HChecked 1 null_handle m]}) as E by (vm_compute; reflexivity).
    rewrite E in Hn'. by apply lookup_singleton_Some in Hn' as [<- _].
Defined.
