(* ===== verification/InstanceExit.v ===== *)
(** * How an instance ends

    The causes of an exit, what its links and exit handlers get, and what does
    not end an instance. *)
From S2P Require Import Prelude CborEncode Ieee CborDecode CborGrammar CborMatch CborMatchSpec CppText CborJson Env Instance InstanceInv InstanceStep InstanceTheorems.

Section exit.
Context {U C : Type} (call : C → handle → bytes → prog U C).
Implicit Types (w : world U C) (x y : inst U C).

(** Why the instance [i], which is [x], exits with message [m] in a step. *)
Inductive exit_cause w (i : Z) x : label U C → bytes → Prop :=
| cause_message from m lk ts :
    strand w i = Task from m lk :: ts → i_run x = None → i_in_shutdown x = false →
    i_trap_exit x = false → is_exit_msg m = Ok true → m ≠ exit_normal_msg →
    exit_cause w i x (LRun i) m
| cause_error e : i_run x = Some (Ret (Some e)) → exit_cause w i x (LStep i) e
| cause_noreceive :
    i_run x = Some (Ret None) → i_receiver x = None → exit_cause w i x (LStep i) exit_noreceive_msg
| cause_exception t : i_run x = Some (Raise t) → exit_cause w i x (LStep i) (catch_message t).

Lemma exit_not_link m : is_exit_msg m = Ok true → is_link_msg m = false.
Proof. intros H. unfold is_link_msg. apply bool_decide_false. intros ->. by vm_compute in H. Qed.

(** Every cause ends in [handle_exit] on a world that only has grown. *)
Lemma exit_step w i x l m :
  insts w !! i = Some x → exit_cause w i x l m →
  ∃ w0, grows (popped l w) w0 ∧
    (step call w l = run_exit w0 i m ∨ ∃ t, m = catch_message t ∧ step call w l = run_catch w0 i t).
Proof.
  intros Hx Hc. destruct Hc as [from m lk ts Et Hr Hs Htrap Hm Hne|e Hr|Hr Hrc|t Hr];
    cbn [step popped]; rewrite Hx, Hr.
  - rewrite Et. cbn [tail t_from t_msg]. unfold run. rewrite (exit_not_link m Hm), Hs.
    unfold run_body. rewrite Htrap, Hm, bool_decide_false by done.
    eexists. split; [apply grows_do_trace|]. by left.
  - exists w. split; [done|]. by left.
  - exists w. split; [done|]. left. unfold run_ret. by rewrite Hx, Hrc.
  - exists w. split; [done|]. right. by exists t.
Qed.

Lemma send_all_delivers i m l : ∀ w h j y,
  h ∈ l → h_ref h = Some j → insts w !! j = Some y → i_in_shutdown y = false →
  ∃ new, strand (foldl (λ w h, (handle_send_raw w (Some i) h m).1) w l) j = strand w j ++ new ∧
         Task (self_handle i) m (i_lifetime y) ∈ new.
Proof.
  induction l as [|g l IH]; intros w h j y Hh Hj Hy Hs; [by apply elem_of_nil in Hh|]. cbn [foldl].
  pose proof (handle_send_grows w (Some i) g m) as Hg.
  pose proof (send_all_grows (handle_send_raw w (Some i) g m).1 (Some i) m l) as Hall.
  destruct (g_strand _ _ Hg j) as (n1 & E1 & _).
  apply elem_of_cons in Hh as [->|Hh].
  - assert (handle_send_raw w (Some i) g m = queue w (Some i) j (self_handle i) m) as Eq.
    { unfold handle_send_raw. rewrite Hj. unfold lock. by rewrite Hy. }
    pose proof (queue_spec w (Some i) j (self_handle i) m y Hy) as [_ Hq]. rewrite Hs in Hq.
    destruct Hq as [_ [n2 E2]]. destruct (g_strand _ _ Hall j) as (n3 & E3 & _).
    rewrite E3, Eq, E2. eexists. rewrite <- !(assoc_L app). split; [done|].
    rewrite (assoc_L app n2), !elem_of_app. left. right. by apply elem_of_cons; left.
  - destruct (IH (handle_send_raw w (Some i) g m).1 h j y) as (n2 & E2 & Hin); [done..| |done|].
    + by rewrite (g_insts _ _ Hg).
    + rewrite E2, E1. eexists. rewrite <- (assoc_L app). split; [done|]. apply elem_of_app. by right.
Qed.

Lemma handle_exit_strand w i x m j :
  insts w !! i = Some x → strand (handle_exit w i m).1 j = strand (exit_notify w i x m) j.
Proof. intros Hx. unfold handle_exit. rewrite Hx. repeat case_match; done. Qed.

Lemma handle_exit_delivers w i x m h j y :
  insts w !! i = Some x → h ∈ i_links x → h_ref h = Some j → j ≠ i →
  insts w !! j = Some y → i_in_shutdown y = false →
  ∃ new, strand (handle_exit w i m).1 j = strand w j ++ new ∧
         Task (self_handle i) m (i_lifetime y) ∈ new.
Proof.
  intros Hx Hh Hj Hne Hy Hs. rewrite (handle_exit_strand w i x m j Hx). unfold exit_notify. cbv zeta.
  destruct (send_all_delivers i m (i_links x) (upd w i set_in_shutdown) h j y) as (n1 & E1 & Hin);
    [done..|by rewrite lookup_upd_ne|done|].
  set (w1 := foldl _ _ _) in *.
  set (w2 := do_trace w1 _ _ _). assert (grows w1 w2) as G1 by apply grows_do_trace.
  assert (grows w1 (if is_tapping w2 then tap_exit w2 (Some i) (i_name x) m else w2)) as G2.
  { etrans; [exact G1|]. destruct (is_tapping w2); [apply tap_event_grows|done]. }
  destruct (g_strand _ _ G2 j) as (n2 & -> & _). rewrite E1. exists (n1 ++ n2).
  rewrite <- (assoc_L app). split; [done|]. apply elem_of_app. by left.
Qed.

(** What follows [handle_exit] in the step. *)
Lemma exit_rest w0 i m o w' :
  (o = run_exit w0 i m ∨ ∃ t, m = catch_message t ∧ o = run_catch w0 i t) → o = Next w' →
  ends i (handle_exit w0 i m).1 w'.
Proof.
  intros [->|(t & -> & ->)] H; [unfold run_exit in H|unfold run_catch in H];
    destruct (handle_exit _ _ _) as [w1 [[]|e]]; cbn [fst]; try done;
    try (injection H as <-; apply run_end_ends).
  pose proof (run_catch_ends w1 i (ThrowStd (what e))) as He. by rewrite H in He.
Qed.

(** ** In shutdown afterwards *)

Definition out_of_service w (i : Z) : Prop := insts w !! i = None ∨ in_shutdown w i = true.

Lemma collect_out w i : out_of_service w i → out_of_service (collect w i) i.
Proof.
  intros H. unfold collect. destruct (insts w !! i) as [x|] eqn:Hx; [|by left].
  destruct (held w i x); [done|]. left. unfold destroy. cbv zeta.
  repeat case_match; cbn; by rewrite lookup_delete_eq.
Qed.

Lemma run_end_out w i x :
  insts w !! i = Some x → i_in_shutdown x = true → out_of_service (run_end w i) i.
Proof.
  intros Hx Hs. unfold run_end. apply collect_out. right. unfold in_shutdown at 1.
  assert (∀ w2, insts w2 = insts w → insts (upd w2 i cleanup) !! i = Some (cleanup x)) as H.
  { intros w2 E. by rewrite lookup_upd, E, Hx. }
  rewrite H; [done|]. by destruct (in_shutdown w i).
Qed.

Lemma run_catch_out w i x t w' :
  wf_but (Some i) w → insts w !! i = Some x → run_catch w i t = Next w' → out_of_service w' i.
Proof.
  intros Hw Hx. unfold run_catch.
  destruct (handle_exit_spec w i (catch_message t) x Hw Hx) as (x' & Hi & _ & Hs & _).
  destruct (handle_exit _ _ _) as [w1 [[]|e]]; [|done]. intros [= <-].
  apply (run_end_out _ _ x'); [|done]. cbn in Hi. by rewrite Hi, lookup_insert_eq.
Qed.

Lemma run_exit_out w i x m w' :
  wf_but (Some i) w → insts w !! i = Some x → run_exit w i m = Next w' → out_of_service w' i.
Proof.
  intros Hw Hx. unfold run_exit.
  destruct (handle_exit_spec w i m x Hw Hx) as (x' & Hi & Hw1 & Hs & _).
  destruct (handle_exit _ _ _) as [w1 [[]|e]]; cbn [fst] in *.
  - intros [= <-]. apply (run_end_out _ _ x'); [by rewrite Hi, lookup_insert_eq|done].
  - apply (run_catch_out _ _ x'); [done|by rewrite Hi, lookup_insert_eq].
Qed.

Lemma wf_popped l w i : wf w → actor l = Some i → wf_but (Some i) (popped l w).
Proof.
  intros Hw Ha. destruct l as [j|j|j m|o|n]; [| | |done|done]; injection Ha as ->; cbn [popped];
    [|by apply wf_but_weaken..].
  destruct (strand w i) as [|t ts] eqn:Et; [|by apply (wf_pop w i t ts)]. cbn [tail].
  assert (∀ j, strand (set_strands w (<[i := []]> (strands w))) j = strand w j) as E.
  { intros j. rewrite set_strand. case_decide; [by subst|done]. }
  apply wf_but_weaken. destruct Hw. split; try done.
  - intros j. rewrite E. auto.
  - intros j x Hx Hk. destruct (wf_inst j x Hx Hk) as (? & ? & Hst & ? & ? & ?).
    split_and!; try done. rewrite E. by apply Hst.
Qed.

(** C10: an exit reaches the links.  An instance that exits, because of an exit
    message it does not trap, because its receiver returned an error or threw,
    or because its behaviour left it without a receiver, is in shutdown or gone
    after the step, and every instance it is linked to that is not itself in
    shutdown has the exit message in its queue, sent by the instance. *)
Theorem exit_reaches_links w i x l m w' :
  wf w → insts w !! i = Some x → exit_cause w i x l m → step call w l = Next w' →
  (insts w' !! i = None ∨ in_shutdown w' i = true) ∧
  ∀ h j y, h ∈ i_links x → h_ref h = Some j → j ≠ i →
    insts w !! j = Some y → i_in_shutdown y = false →
    ∃ new, strand w' j = strand w j ++ new ∧ Task (self_handle i) m true ∈ new.
Proof.
  intros Hw Hx Hc Hstep. destruct (exit_step w i x l m Hx Hc) as (w0 & Hg & Hrun).
  assert (actor l = Some i) as Ha by by destruct Hc.
  assert (insts (popped l w) = insts w) as Ep by by destruct l.
  assert (insts w0 = insts w) as E0 by by rewrite (g_insts _ _ Hg).
  assert (wf_but (Some i) w0) as Hw0 by (eapply wf_grows; [by apply wf_popped|done]).
  split.
  - destruct Hrun as [Hrun|(t & _ & Hrun)]; rewrite Hstep in Hrun; symmetry in Hrun;
      [eapply (run_exit_out w0 i x m)|eapply (run_catch_out w0 i x t)]; eauto; by rewrite E0.
  - intros h j y Hh Hj Hne Hy Hs.
    destruct (handle_exit_delivers w0 i x m h j y) as (n1 & E1 & Hin);
      [by rewrite E0|done..|by rewrite E0|done|].
    pose proof (exit_rest w0 i m _ w' Hrun Hstep) as He.
    destruct (ends_strand i _ _ j He) as (n2 & E2).
    destruct (g_strand _ _ Hg j) as (n0 & E3 & _).
    assert (strand (popped l w) j = strand w j) as E4.
    { rewrite popped_strand. destruct l; try done. cbn in Ha. injection Ha as ->.
      by rewrite decide_False. }
    rewrite E2, E1, E3, E4. exists (n0 ++ n1 ++ n2). rewrite <- !(assoc_L app). split; [done|].
    rewrite (wf_weak _ _ Hw j y Hy Hs) in Hin. rewrite !elem_of_app. auto.
Qed.

(** ** Exit handlers *)

Definition exit_calls w : list (Z * bytes) :=
  omap (λ o, match o with OutExit eh err => Some (eh, err) | _ => None end) (out w).

Lemma exit_calls_emit w l :
  exit_calls (emit w l)
  = exit_calls w ++ omap (λ o, match o with OutExit eh err => Some (eh, err) | _ => None end) l.
Proof. unfold exit_calls. cbn. apply omap_app. Qed.

Lemma exit_calls_trace w l : Forall is_trace l → exit_calls (emit w l) = exit_calls w.
Proof.
  intros Hl. rewrite exit_calls_emit. replace (omap _ l) with ([] : list (Z * bytes)); [apply app_nil_r|].
  induction Hl as [|[] l]; done.
Qed.

Lemma exit_calls_grows w w' : grows w w' → exit_calls w' = exit_calls w.
Proof.
  intros Hg. destruct (g_out _ _ Hg) as (l & Hl & Ht). rewrite <- (exit_calls_trace w l Ht).
  unfold exit_calls. cbn. by rewrite Hl.
Qed.

Lemma exit_calls_destroy w i x : exit_calls (destroy w i x) = exit_calls w.
Proof.
  unfold destroy. cbv zeta. set (w1 := set_insts _ _).
  assert (∀ l k, Forall is_trace l → exit_calls (emit (emit w1 l) (trace i x ch_lifetime k)) = exit_calls w)
    as H by (intros; by rewrite !exit_calls_trace by (done || apply trace_is_trace)).
  set (l1 := if isenabled w1 then _ else _).
  assert (Forall is_trace l1) as Hl1.
  { unfold l1. destruct (isenabled w1); [|constructor]. apply Forall_app. split; apply trace_is_trace. }
  destruct (_ =? 1); [|by apply H].
  assert (∀ w2, exit_calls (emit w2 (trace i x ch_lifetime [AString (str "last_exit")])) = exit_calls w2)
    as H2 by (intros; apply exit_calls_trace, trace_is_trace).
  destruct (last_exit _); [|by rewrite H2, H].
  rewrite exit_calls_emit, H2, H by done. apply app_nil_r.
Qed.

Lemma exit_calls_run_end w i : exit_calls (run_end w i) = exit_calls w.
Proof.
  unfold run_end. cbv zeta. set (w1 := if in_shutdown w i then w else _).
  assert (exit_calls w1 = exit_calls w) as E
    by (unfold w1; destruct (in_shutdown w i); [done|apply exit_calls_grows, grows_do_trace]).
  rewrite <- E. unfold collect. destruct (insts _ !! i) as [x|]; [|done].
  destruct (held _ i x); [done|]. by rewrite exit_calls_destroy.
Qed.

Lemma exit_calls_handle_exit w i m x :
  insts w !! i = Some x →
  exit_calls (handle_exit w i m).1 = exit_calls w ++
    match exit_reason m with
    | Ok err => (λ eh, (eh, err)) <$> i_exit_handlers x
    | Throw _ => []
    end.
Proof.
  intros Hx. unfold handle_exit. rewrite Hx. cbv zeta.
  pose proof (exit_calls_grows _ _ (exit_notify_grows w i x m)) as E.
  change (exit_calls (upd w i set_in_shutdown)) with (exit_calls w) in E.
  destruct (i_exit_handlers x) as [|eh ehs].
  - cbn [fst]. transitivity (exit_calls (exit_notify w i x m)); [done|]. rewrite E.
    destruct (exit_reason m); by rewrite app_nil_r.
  - destruct (exit_reason m) as [err|e]; cbn [fst]; [|by rewrite app_nil_r].
    rewrite <- E. unfold exit_calls. cbn [upd set_insts emit out]. rewrite omap_app.
    do 2 f_equal. cbn. f_equal. induction ehs as [|e ehs IH]; [done|]. cbn. by rewrite IH.
Qed.

(** C11: when an instance exits, each of its exit handlers is called once, in the
    order of the list, with the reason: the second value of the exit message where
    its first two are strings, or else the text of the message.  When finding the reason
    throws, the handlers are dropped without a call: matching throws where the message
    is neither an array nor null (or is no value at all), and printing throws where
    the message is not of the form of an exit message and has no text. *)
Theorem exit_handlers_called w i x l m w' :
  wf w → insts w !! i = Some x → exit_cause w i x l m → step call w l = Next w' →
  exit_calls w' = exit_calls w ++
    match exit_reason m with
    | Ok err => (λ eh, (eh, err)) <$> i_exit_handlers x
    | Throw _ => []
    end.
Proof.
  intros Hw Hx Hc Hstep. destruct (exit_step w i x l m Hx Hc) as (w0 & Hg & Hrun).
  assert (actor l = Some i) as Ha by by destruct Hc.
  assert (insts (popped l w) = insts w ∧ exit_calls (popped l w) = exit_calls w) as [Ep Ec]
    by by destruct l.
  assert (insts w0 !! i = Some x) as E0 by by rewrite (g_insts _ _ Hg), Ep.
  rewrite <- Ec, <- (exit_calls_grows _ _ Hg).
  pose proof (exit_calls_handle_exit w0 i m x E0) as Hh.
  destruct Hrun as [Hrun|(t & -> & Hrun)]; rewrite Hstep in Hrun;
    [unfold run_exit in Hrun|unfold run_catch in Hrun].
  - destruct (handle_exit_spec w0 i m x) as (x' & Hi & Hw1 & _ & _ & _ & Hr);
      [eapply wf_grows; [by apply wf_popped|done]|done|].
    destruct (handle_exit w0 i m) as [w1 [[]|e]]; cbn [fst snd] in *.
    + injection Hrun as ->. by rewrite exit_calls_run_end.
    + destruct Hr as (Heh & _ & Er). unfold run_catch in Hrun.
      pose proof (exit_calls_handle_exit w1 i (catch_message (ThrowStd (what e))) x') as Hh1.
      destruct (handle_exit w1 i _) as [w2 [[]|e2]]; [|done]. injection Hrun as ->.
      rewrite exit_calls_run_end. cbn [fst] in Hh1. rewrite Hh1 by by rewrite Hi, lookup_insert_eq.
      rewrite Heh, Hh. by destruct (exit_reason (catch_message _)); rewrite app_nil_r.
  - destruct (handle_exit w0 i _) as [w1 [[]|e]]; [|done]. injection Hrun as ->.
    by rewrite exit_calls_run_end.
Qed.

(** ** What does not end an instance *)

(** A normal exit message is ignored: an instance that does not trap exits
    is after the step exactly as it was, and so is every other one; nothing is
    sent and no handler is called. *)
Theorem normal_exit_ignored w i x from lk ts w' :
  wf w → insts w !! i = Some x → i_run x = None → i_in_shutdown x = false → i_trap_exit x = false →
  strand w i = Task from exit_normal_msg lk :: ts → step call w (LRun i) = Next w' →
  insts w' = insts w ∧ exit_calls w' = exit_calls w ∧
  ∀ j, strand w' j = if decide (i = j) then ts else strand w j.
Proof.
  intros Hw Hx Hr Hs Htrap Et. cbn [step]. rewrite Et, Hx, Hr. cbn [t_from t_msg].
  unfold run. replace (is_link_msg exit_normal_msg) with false by done. rewrite Hs.
  unfold run_body. cbv zeta. rewrite Htrap.
  replace (is_exit_msg exit_normal_msg) with (Ok true : res bool) by (vm_compute; reflexivity).
  rewrite bool_decide_true by done. intros [= <-].
  set (w1 := do_trace _ i ch_execute _).
  assert (insts w1 = insts w) as E1 by done.
  destruct (wf_inst _ _ Hw i x Hx) as (Hl & _ & _ & _ & He1 & He2); [done|].
  assert (cleanup x = x) as Hcl by (destruct x; cbn in *; by subst).
  split_and!.
  - unfold run_end. cbv zeta. unfold in_shutdown. rewrite E1, Hx, Hs.
    set (w2 := do_trace w1 i ch_execute _).
    assert (insts (upd w2 i cleanup) = insts w) as E2.
    { rewrite (upd_insts w2 i x) by done. rewrite Hcl. by apply insert_id. }
    unfold collect. rewrite E2, Hx. unfold held. by rewrite Hl, Hs.
  - rewrite exit_calls_run_end. unfold w1. by rewrite (exit_calls_grows _ _ (grows_do_trace _ _ _ _)).
  - intros j. unfold run_end. rewrite collect_strand. cbv zeta.
    assert (strand w1 j = if decide (i = j) then ts else strand w j) as <- by apply set_strand.
    by destruct (in_shutdown w1 i).
Qed.

(** Any other message is given to the receiver, with its sender: the step
    starts the receiver's program.  With [trap] set that includes exit
    messages; a link message is seen by the receiver only when the instance
    observes links. *)
Theorem message_received w i x c from m lk ts :
  wf w → insts w !! i = Some x → i_run x = None → i_in_shutdown x = false →
  i_receiver x = Some (RUser c) → strand w i = Task from m lk :: ts →
  i_trap_exit x = true ∨ is_exit_msg m = Ok false →
  is_link_msg m = false ∨ i_observe_links x = true →
  ∃ w' x', step call w (LRun i) = Next w' ∧ insts w' !! i = Some x' ∧
    i_run x' = Some (call c from m) ∧
    i_links x' = if is_link_msg m then from :: i_links x else i_links x.
Proof.
  intros Hw Hx Hr Hs Hrc Et Hexit Hlink. cbn [step]. rewrite Et, Hx, Hr. cbn [t_from t_msg].
  unfold run. rewrite Hs. set (w0 := set_strands w _).
  set (p := if is_link_msg m then _ else _).
  assert (∃ w1 y, p = (w1, false) ∧ insts w1 !! i = Some y ∧
    i_links y = if is_link_msg m then from :: i_links x else i_links x) as (w1 & y & -> & Hy & Hly).
  { unfold p. destruct (is_link_msg m) eqn:El; [|by eexists _, x].
    destruct Hlink as [Hf|Ho]; [congruence|]. rewrite Ho. eexists _, _. split; [done|].
    rewrite (g_insts _ _ (run_link_grows w0 i x from Hx)), lookup_upd.
    change (insts w0) with (insts w). rewrite Hx. done. }
  cbv beta iota. unfold run_body. cbv zeta.
  assert ((if i_trap_exit x then Ok false else is_exit_msg m) = Ok false) as ->
    by (destruct Hexit as [-> | ->]; [done|by destruct (i_trap_exit x)]).
  unfold run_receiver. rewrite Hrc.
  eexists _, _. split; [done|]. rewrite lookup_upd.
  assert (∀ w2, insts w2 = insts w1 → (λ x, set_run x (Some (call c from m))) <$> insts w2 !! i
    = Some (set_run y (Some (call c from m)))) as Hset by (intros w2 E; by rewrite E, Hy).
  rewrite Hset by by destruct (is_null m). done.
Qed.

End exit.

(** ** Witnesses *)

Lemma exit_reaches_links_witness :
  let w := Client.go (Client.linked ++ [LRun 2; LRun 2]) Client.start in
  ∃ new, strand (Client.go Client.child_gone Client.start) 1 = strand w 1 ++ new ∧
         Task (self_handle 2) (exit_message (str "boom") []) true ∈ new.
Proof.
  intros w.
  apply (λ H1 H2 H3 H4, proj2 (exit_reaches_links Client.call w 2 (Client.get w 2) (LStep 2)
    (exit_message (str "boom") []) (Client.go Client.child_gone Client.start) H1 H2 H3 H4)
    (self_handle 1) 1 (Client.get w 1)); try (vm_compute; reflexivity).
  - apply Client.reach_wf. vm_compute. reflexivity.
  - apply cause_error. vm_compute. reflexivity.
  - by_decision.
  - done.
Defined.

Lemma exit_handlers_called_witness :
  let w := Client.go Client.child_gone Client.start in
  exit_calls (Client.go [LRun 1] w) = exit_calls w ++ [(7, str "boom")].
Proof.
  intros w.
  apply (exit_handlers_called Client.call w 1 (Client.get w 1) (LRun 1) (exit_message (str "boom") [])).
  - apply Client.reach_wf. vm_compute. reflexivity.
  - vm_compute. reflexivity.
  - apply (cause_message w 1 (Client.get w 1) (self_handle 2) _ true []); vm_compute; try reflexivity. done.
  - vm_compute. reflexivity.
Defined.

Lemma normal_exit_ignored_witness :
  let w := Client.go (Client.linked ++ [LExtern (OSend (self_handle 1) exit_normal_msg)]) Client.start in
  let w' := Client.go [LRun 1] w in
  insts w' = insts w ∧ exit_calls w' = exit_calls w ∧
  ∀ j, strand w' j = if decide (1 = j) then [] else strand w j.
Proof.
  intros w w'.
  apply (normal_exit_ignored Client.call w 1 (Client.get w 1) null_handle true []);
    try (vm_compute; reflexivity).
  apply Client.reach_wf. vm_compute. reflexivity.
Defined.

Lemma message_received_witness :
  let w := Client.go (Client.linked ++ [LExtern (OSend (self_handle 1) (cbor_array [AInt 5]))])
             Client.start in
  ∃ w' x', step Client.call w (LRun 1) = Next w' ∧ insts w' !! 1 = Some x' ∧
    i_run x' = Some (Client.call 2 null_handle (cbor_array [AInt 5])) ∧
    i_links x' = [self_handle 2].
Proof.
  intros w.
  apply (message_received Client.call w 1 (Client.get w 1) 2%nat null_handle (cbor_array [AInt 5]) true []);
    try (vm_compute; reflexivity).
  - apply Client.reach_wf. vm_compute. reflexivity.
  - right. vm_compute. reflexivity.
  - left. vm_compute. reflexivity.
Defined.
