(* ===== verification/InstanceApi.v ===== *)
(** * Sending, spawning and finishing

    What the calls of the API promise to the instance that makes them, and when
    the last exit handler is called. *)
From S2P Require Import Prelude CborEncode Ieee CborDecode CborGrammar CborMatch CborMatchSpec CppText CborJson Env Instance InstanceInv InstanceStep InstanceTheorems InstanceExit.

Section api.
Context {U C : Type} (call : C → handle → bytes → prog U C).
Implicit Types (w : world U C) (x y : inst U C).

(** ** Sending *)

(** Sending to an instance that is not in shutdown succeeds and puts the
    message, with its sender, at the end of the instance's queue; no instance
    changes. *)
Theorem send_queues w i h j y m :
  wf w → h_ref h = Some j → insts w !! j = Some y → i_in_shutdown y = false →
  (exec w (Some i) (OSend h m)).2 = Ok (AnsResult None) ∧
  insts (exec w (Some i) (OSend h m)).1 = insts w ∧
  ∃ new, strand (exec w (Some i) (OSend h m)).1 j
         = strand w j ++ new ++ [Task (self_handle i) m true].
Proof.
  intros Hw Hj Hy Hs. cbn [exec ans_map fst snd]. unfold handle_send_raw. rewrite Hj.
  unfold lock. rewrite Hy. unfold send_raw, sender.
  destruct (queue_spec w (Some i) j (self_handle i) m y Hy) as [Hg Hq]. rewrite Hs in Hq.
  destruct Hq as [-> [new Hnew]]. split_and!; [done|apply Hg|].
  exists new. by rewrite Hnew, (wf_weak _ _ Hw j y Hy Hs).
Qed.

(** Sending to an instance that is gone or in shutdown queues nothing.  The
    sender gets the error [DEADSEND] with its message, unless the message is an
    exit message, which is dropped silently. *)
Theorem send_to_dead w i x h m v :
  insts w !! i = Some x → i_in_shutdown x = false →
  (∀ j y, h_ref h = Some j → insts w !! j = Some y → i_in_shutdown y = true) →
  matches m [PStr (str "exit"); PMore] = Ok v →
  (∀ j, strand (exec w (Some i) (OSend h m)).1 j = strand w j) ∧
  ∃ p, (exec w (Some i) (OSend h m)).2
       = Ok (AnsResult (match v with
                        | Some _ => None
                        | None => Some (exit_message (str "DEADSEND")
                                          [ACbor m; ACbor p; ACbor (ref_m w (Some i))])
                        end)).
Proof.
  intros Hx Hs Hdead Hm. cbn [exec ans_map fst snd].
  assert (∀ w1 r, insts w1 = insts w → ∃ p, (AnsResult : result → ans U) <$> deadsend w1 (Some i) m r
    = Ok (AnsResult (match v with Some _ => None | None => Some (exit_message (str "DEADSEND")
            [ACbor m; ACbor p; ACbor (ref_m w (Some i))]) end))) as Hd.
  { intros w1 r E. exists (ref_m w1 r). unfold deadsend, in_shutdown. rewrite E, Hx, Hs, Hm.
    cbn. unfold ref_m, lock, name_of. by rewrite E. }
  unfold handle_send_raw. destruct (lock w (h_ref h)) as [j|] eqn:El.
  - apply lock_Some in El as [Hj [y Hy]]. specialize (Hdead j y Hj Hy).
    unfold send_raw, sender, queue. cbv zeta.
    pose proof (grows_trace_send w j (self_handle i) m) as Hg.
    assert (in_shutdown (trace_send w j (self_handle i) m) j = true) as ->
      by (unfold in_shutdown; by rewrite (g_insts _ _ Hg), Hy).
    cbn [fst snd]. split; [done|]. apply Hd, Hg.
  - cbn [fst snd]. split; [done|]. by apply Hd.
Qed.

(** ** Spawning *)

(** Spawning always succeeds with a fresh identity: the new instance waits
    with its behaviour and its first message queued, its id finds it in the
    table, the count of active instances goes up by one, and every other
    instance is as before. *)
Theorem spawn_fresh w cur b eh name lnk e :
  wf w →
  let i := next_instance_id w in
  let w' := (spawn w cur b eh name lnk e).1 in
  (spawn w cur b eh name lnk e).2 = Ok (inl (self_handle i)) ∧ insts w !! i = None ∧
  (∃ x, insts w' = <[i := x]> (insts w) ∧ i_receiver x = Some (RInit b) ∧ i_name x = name ∧
        i_in_shutdown x = false ∧ i_run x = None) ∧
  (∃ pre, strand w' i = pre ++ [Task null_handle null_value true]) ∧
  instance_by_id w' i = self_handle i ∧ active (ctx w') = u64 (active (ctx w) + 1).
Proof.
  intros Hw. cbv zeta. set (i := next_instance_id w).
  pose proof (spawn_spec w cur b eh name lnk e Hw) as H. cbv zeta in H. fold i in H.
  destruct (spawn w cur b eh name lnk e) as [w' r]. cbn [fst snd].
  destruct H as (-> & Hw' & Hn & (x & Hi & (Hs & _ & Hr & _) & Hrc & Hnm) & pre & Hst & _).
  assert (insts w !! i = None) as Hfresh by by apply (fresh_lookup None).
  assert (insts w' !! i = Some x) as Hx by by rewrite Hi, lookup_insert_eq.
  split_and!; [done|done|by exists x|by exists pre| |].
  - unfold instance_by_id. rewrite (wf_table _ _ Hw'), Hx. cbn. unfold make_handle, lock.
    by rewrite Hx.
  - rewrite (wf_active _ _ Hw'), Hi, map_size_insert_None, (wf_active _ _ Hw) by done.
    unfold u64. rewrite Zplus_mod_idemp_l. f_equal. lia.
Qed.

(** A handle whose instance is gone never comes to denote another one:
    identities are not used twice, so it stays expired whatever happens. *)
Theorem expired_stays_expired w ls w' h i :
  wf w → race_free call w ls → steps call w ls w' → h_ref h = Some i → i < next_instance_id w →
  expired w (h_ref h) = true → expired w' (h_ref h) = true.
Proof.
  intros Hw Hf Hsteps Hh Hlt Hex.
  assert (∀ w, expired w (h_ref h) = true ↔ insts w !! i = None) as Hexp.
  { intros w0. unfold expired. rewrite Hh. cbn. destruct (insts w0 !! i) eqn:E.
    - rewrite bool_decide_true by eauto. done.
    - rewrite bool_decide_false by by intros []. done. }
  apply Hexp. apply Hexp in Hex. clear Hexp.
  induction Hsteps as [w|w l w1 ls w2 Hstep H IH]; [done|].
  destruct Hf as [Hr Hf]. destruct (gone_step call w l w1 i Hw Hr Hstep Hex Hlt) as [Hex1 Hlt1].
  apply IH; [|by apply Hf|done|done]. pose proof (step_ok call w l Hw Hr) as Ho. by rewrite Hstep in Ho.
Qed.

(** ** The last exit *)

Lemma destroy_lasts w i x :
  active_ok w → insts w !! i = Some x → Z.of_nat (size (insts w)) < 2 ^ 64 →
  insts (destroy w i x) = delete i (insts w) ∧ last_exit (ctx (destroy w i x)) = last_exit (ctx w) ∧
  lasts (destroy w i x)
  = (lasts w + if decide (delete i (insts w) = ∅ ∧ is_Some (last_exit (ctx w))) then 1 else 0)%nat.
Proof.
  intros Ha Hx Hsz. assert (size (insts w) ≠ 0%nat) as Hne.
  { intros E%map_size_empty_iff. by rewrite E in Hx. }
  assert (active (ctx w) = Z.of_nat (size (insts w))) as Ea.
  { rewrite Ha. apply u64_small. split; lia. }
  assert (delete i (insts w) = ∅ ↔ (active (ctx w) =? 1) = true) as Hd.
  { rewrite <- map_size_empty_iff, map_size_delete, Hx, Z.eqb_eq. lia. }
  unfold destroy. cbv zeta. cbn [set_instances ctx active].
  assert (∀ w0 l, Forall is_trace l → lasts (emit w0 l) = lasts w0) as Htr.
  { intros w0 l Hl. rewrite lasts_app, trace_not_last by done. lia. }
  set (w1 := set_insts _ _). assert (lasts w1 = lasts w) as E1 by done.
  set (l1 := if isenabled w1 then _ else _).
  assert (Forall is_trace l1) as Hl1.
  { unfold l1. destruct (isenabled w1); [|constructor]. apply Forall_app. split; apply trace_is_trace. }
  destruct (active (ctx w) =? 1) eqn:E.
  - cbn [emit ctx]. change (last_exit (ctx w1)) with (last_exit (ctx w)).
    destruct (last_exit (ctx w)) as [h|] eqn:El; (split; [done|]); (split; [done|]).
    + rewrite decide_True by (split; [by apply Hd|eauto]).
      rewrite lasts_app, !Htr, E1 by (done || apply trace_is_trace). done.
    + rewrite decide_False by (intros [_ []]; done).
      rewrite !Htr, E1 by (done || apply trace_is_trace). lia.
  - split; [done|]. split; [done|]. rewrite decide_False by (rewrite Hd; naive_solver).
    rewrite !Htr, E1 by (done || apply trace_is_trace). lia.
Qed.

Lemma quiet_nonempty k w w' : quiet k w w' → insts w ≠ ∅ → insts w' ≠ ∅.
Proof.
  intros Hq Hne E. apply map_choose in Hne as (i & x & Hx).
  destruct (q_insts _ _ _ Hq i x Hx) as (y & Hy & _). by rewrite E in Hy.
Qed.

(** The last exit handler is called once when the last instance goes and at
    no other time. *)
Theorem last_exit_called w l w' :
  wf w → races w l = false → Z.of_nat (size (insts w')) + 1 < 2 ^ 64 → step call w l = Next w' →
  lasts w' = (lasts w + if decide ((insts w ≠ ∅ ∧ insts w' = ∅) ∧ is_Some (last_exit (ctx w')))
                        then 1 else 0)%nat.
Proof.
  intros Hw Hr Hsz Hstep.
  assert (insts (popped l w) = insts w ∧ lasts (popped l w) = lasts w ∧
    (active_ok (popped l w) ↔ active_ok w)) as (Ep & El & Ea) by by destruct l.
  destruct (step_shape call w l w' Hw Hr Hstep) as [Hq|(i & _ & [x Hx] & w1 & Hq & ->)].
  - rewrite (q_last _ _ _ Hq), El, decide_False; [lia|]. intros [[Hne He] _].
    apply (quiet_nonempty _ _ _ Hq); [by rewrite Ep|done].
  - rewrite <- El, <- (q_last _ _ _ Hq).
    assert (insts w ≠ ∅) as Hne by (intros E; by rewrite E in Hx).
    assert (insts w1 ≠ ∅) as Hne1 by (apply (quiet_nonempty _ _ _ Hq); by rewrite Ep).
    assert (active_ok w1) as Ha1 by (apply (q_active _ _ _ Hq), Ea, Hw).
    unfold collect in *. destruct (insts w1 !! i) as [y|] eqn:Hy.
    + destruct (held w1 i y).
      * rewrite decide_False by naive_solver. lia.
      * assert (insts (destroy w1 i y) = delete i (insts w1)) as Ed
          by (unfold destroy; cbv zeta; repeat case_match; done).
        rewrite Ed, map_size_delete, Hy in Hsz.
        destruct (destroy_lasts w1 i y Ha1 Hy) as (_ & Hle & ->); [lia|].
        rewrite Ed, Hle. f_equal. by apply decide_ext; naive_solver.
    + rewrite decide_False by naive_solver. lia.
Qed.

(** ** Exceptions of the client *)

Lemma exit_reason_message e :
  bytes_ok e → len_of e < 2 ^ 64 → exit_reason (exit_message e []) = Ok e.
Proof.
  intros He Hl. unfold exit_reason, exit_message, cbor_array.
  set (l := [IText W0 (str "exit"); IText (min_width (len_of e)) e]).
  assert (Forall arg_ok [AString (str "exit"); AString e]) as Hok.
  { constructor; [by_decision|]. constructor; [by split|constructor]. }
  assert (Forall2 arg_item [AString (str "exit"); AString e] l) as Hi.
  { unfold l. repeat constructor. }
  rewrite (array_wire [] _ l Hok) by done. cbn [app].
  pose proof (array_items_ok _ _ Hok ltac:(done) Hi) as Hil.
  rewrite <- (app_nil_r (wire _)). rewrite matches_item; [|done|constructor].
  done.
Qed.

Definition thrown_ok (t : thrown) : Prop :=
  match t with ThrowStd what => bytes_ok what ∧ len_of what < 2 ^ 63 | ThrowOther => True end.

Definition thrown_reason (t : thrown) : bytes :=
  match t with
  | ThrowStd what => str "UNHANDLED_EXCEPTION: " ++ what
  | ThrowOther => str "UNHANDLED_EXCEPTION"
  end.

Lemma exit_reason_catch t : thrown_ok t → exit_reason (catch_message t) = Ok (thrown_reason t).
Proof.
  destruct t as [e|]; cbn [thrown_ok catch_message thrown_reason].
  - intros [He Hl]. apply exit_reason_message.
    + apply Forall_app. split; [by_decision|done].
    + unfold len_of in *. rewrite length_app. change (length (str "UNHANDLED_EXCEPTION: ")) with 21%nat. lia.
  - intros _. by apply exit_reason_message; [by_decision|].
Qed.

(** An exception that leaves the code of the client never leaves [run]: it
    ends the instance alone, the exit handlers are called with
    [UNHANDLED_EXCEPTION] and the text of the exception. *)
Theorem client_exception_contained w i x t :
  wf w → insts w !! i = Some x → i_run x = Some (Raise t) → thrown_ok t →
  ∃ w', step call w (LStep i) = Next w' ∧ (insts w' !! i = None ∨ in_shutdown w' i = true) ∧
    exit_calls w' = exit_calls w ++ ((λ eh, (eh, thrown_reason t)) <$> i_exit_handlers x).
Proof.
  intros Hw Hx Hr Ht. cbn [step]. rewrite Hx, Hr. pose proof (exit_reason_catch t Ht) as Her.
  pose proof (wf_but_weaken (Some i) w Hw) as Hwb.
  pose proof (run_catch_out w i x t) as Hout. unfold run_catch in *.
  destruct (handle_exit_spec w i (catch_message t) x Hwb Hx) as (x' & _ & _ & _ & _ & _ & Hres).
  pose proof (exit_calls_handle_exit w i (catch_message t) x Hx) as Hcalls.
  destruct (handle_exit w i (catch_message t)) as [w1 [[]|e]]; cbn [fst snd] in *.
  - eexists. split; [done|]. split; [by eapply Hout|]. by rewrite exit_calls_run_end, Hcalls, Her.
  - destruct Hres as (_ & _ & Her'). congruence.
Qed.

(** ** Links and shutdown *)

(** A link message that an instance meets in shutdown is recorded and
    nothing else: the instance that asked for the link, whose call of [link]
    succeeded, is sent no exit message. *)
Theorem late_link_unnoticed w i x from lk ts :
  wf w → insts w !! i = Some x → i_in_shutdown x = true →
  strand w i = Task from link_msg lk :: ts →
  ∃ w', step call w (LRun i) = Next w' ∧ strand w' i = ts ∧
    (∀ j, j ≠ i → strand w' j = strand w j) ∧
    (insts w' !! i = None ∨ in_shutdown w' i = true).
Proof.
  intros Hw Hx Hs Et. destruct (wf_inst _ _ Hw i x Hx) as (Hl & Hr & _); [done|].
  assert (i_run x = None) as Hrun.
  { destruct (i_run x); [|done]. rewrite Hr in Hs by eauto. done. }
  destruct (run_shutdown call (set_strands w (<[i := ts]> (strands w))) i x from link_msg)
    as (w1 & links & Erun & Hw1 & Hx1 & _ & Hst); [by eapply wf_pop|done|done|].
  exists (collect w1 i). cbn [step]. rewrite Et, Hx, Hrun. split; [done|].
  split_and!.
  - by rewrite collect_strand, Hst, set_strand, decide_True.
  - intros j Hj. by rewrite collect_strand, Hst, set_strand, decide_False by done.
  - apply collect_out. right. unfold in_shutdown. by rewrite Hx1.
Qed.

End api.

(** ** Trace channels *)

(** [enable] sets exactly one channel; [disable] toggles it, so that a
    channel that is not enabled is enabled by [disable]. *)
Theorem disable_toggles e c d :
  c ≠ ch_all → d ≠ ch_all →
  enabled (enable e c) d = (bool_decide (c = d) || enabled e d) ∧
  enabled (disable e c) d = (if decide (c = d) then negb (enabled e d) else enabled e d).
Proof.
  intros Hc Hd. split; [by apply enabled_enable|]. rewrite enabled_disable by done.
  destruct (decide (c = d)); [by rewrite bool_decide_true|].
  rewrite bool_decide_false by done. by destruct (enabled e d).
Qed.

(** ** Witnesses *)

Lemma send_queues_witness :
  let w := Client.go Client.linked Client.start in
  (exec w (Some 1) (OSend (self_handle 2) null_value)).2 = Ok (AnsResult None) ∧
  insts (exec w (Some 1) (OSend (self_handle 2) null_value)).1 = insts w ∧
  ∃ new, strand (exec w (Some 1) (OSend (self_handle 2) null_value)).1 2
         = strand w 2 ++ new ++ [Task (self_handle 1) null_value true].
Proof.
  intros w. apply (send_queues w 1 (self_handle 2) 2 (Client.get w 2) null_value);
    try (vm_compute; reflexivity).
  apply Client.reach_wf. vm_compute. reflexivity.
Defined.

Lemma send_to_dead_witness :
  let w := Client.go Client.linked Client.start in
  (∀ j, strand (exec w (Some 1) (OSend (self_handle 5) (cbor_array [AInt 1]))).1 j = strand w j) ∧
  ∃ p, (exec w (Some 1) (OSend (self_handle 5) (cbor_array [AInt 1]))).2
       = Ok (AnsResult (Some (exit_message (str "DEADSEND")
               [ACbor (cbor_array [AInt 1]); ACbor p; ACbor (ref_m w (Some 1))]))).
Proof.
  intros w. apply (send_to_dead w 1 (Client.get w 1) (self_handle 5) (cbor_array [AInt 1]) None);
    try (vm_compute; reflexivity).
  intros j y [= <-] Hy. vm_compute in Hy. discriminate Hy.
Defined.

Lemma spawn_fresh_witness :
  (spawn Client.start None 2%nat None (str "a") None env_empty).2 = Ok (inl (self_handle 1)).
Proof.
  apply (spawn_fresh Client.start None 2%nat None (str "a") None env_empty). apply context_create_wf.
Defined.

Lemma expired_stays_expired_witness :
  let w := Client.go (Client.boot 1 ++ [LRun 1; LStep 1]) Client.start in
  let w' := Client.go [LExtern (OContextSpawn 2%nat [] env_empty); LRun 2] w in
  expired w' (Some 1) = true.
Proof.
  intros w w'.
  apply (expired_stays_expired Client.call w
    [LExtern (OContextSpawn 2%nat [] env_empty); LRun 2] w' (self_handle 1) 1).
  - apply Client.reach_wf. vm_compute. reflexivity.
  - apply Client.go_race_free. vm_compute. reflexivity.
  - apply Client.go_steps. vm_compute. reflexivity.
  - reflexivity.
  - vm_compute. reflexivity.
  - vm_compute. reflexivity.
Defined.

Lemma last_exit_called_witness :
  let w := Client.go (Client.boot 1 ++ [LRun 1]) Client.start in
  lasts (Client.go [LStep 1] w) = (lasts w + 1)%nat.
Proof.
  intros w. apply (last_exit_called Client.call w (LStep 1) (Client.go [LStep 1] w));
    try (vm_compute; reflexivity).
  apply Client.reach_wf. vm_compute. reflexivity.
Defined.

Lemma client_exception_contained_witness :
  let w := Client.go (Client.boot 4 ++ [LRun 1]) Client.start in
  ∃ w', step Client.call w (LStep 1) = Next w' ∧ (insts w' !! 1 = None ∨ in_shutdown w' 1 = true) ∧
    exit_calls w' = exit_calls w ++ [(7, str "UNHANDLED_EXCEPTION: oops")].
Proof.
  intros w. apply (client_exception_contained Client.call w 1 (Client.get w 1) (ThrowStd (str "oops")));
    try (vm_compute; reflexivity).
  - apply Client.reach_wf. vm_compute. reflexivity.
  - by_decision.
Defined.

Lemma late_link_unnoticed_witness :
  let w := Client.go (Client.stopped link_msg) Client.start in
  ∃ w', step Client.call w (LRun 1) = Next w' ∧ strand w' 1 = [] ∧
    (∀ j, j ≠ 1 → strand w' j = strand w j) ∧ (insts w' !! 1 = None ∨ in_shutdown w' 1 = true).
Proof.
  intros w. apply (late_link_unnoticed Client.call w 1 (Client.get w 1) null_handle true []);
    try (vm_compute; reflexivity).
  apply Client.reach_wf. vm_compute. reflexivity.
Defined.

Lemma disable_toggles_witness :
  enabled (enable env_empty ch_send) ch_send = true ∧ enabled (disable env_empty ch_link) ch_link = true.
Proof.
  split.
  - rewrite (proj1 (disable_toggles env_empty ch_send ch_send ltac:(done) ltac:(done))). reflexivity.
  - rewrite (proj2 (disable_toggles env_empty ch_link ch_link ltac:(done) ltac:(done))). reflexivity.
Defined.
