(* ===== verification/Actors.v ===== *)
(** * The actors that come with the library: their data

    The hub ([src/src/hub.cpp]), the endpoints and the debug server
    ([src/src/instance.cpp]) are actors written against the API of the runtime.
    Their closures are values of [closure], what they share by pointers lives
    in a [heap], and both have a place for the client's own.

    What they ask of sockets, acceptors, connectors and timeouts is recorded in
    order in [h_io]: the objects answer later with messages, and [Socket] and
    [Ports] model the objects themselves.  Objects that no closure refers to any
    more stay in the heap. *)
From S2P Require Import Prelude CborEncode Ieee CborDecode CborMatch Env Instance.

(** ** Input and output objects *)

(** [unx::mode] *)
Inductive mode : Type := mode_file | mode_abstract.

Inductive addr : Type :=
| TcpAddr (ip : bytes) (port : Z)
| UnxAddr (path : bytes) (m : mode).

Inductive io_call : Type :=
| IoSocketCreate (s : Z) (tag : bytes) (fd : Z)
| IoSocketRead (s : Z)
| IoSocketWrite (s : Z) (data : bytes)
| IoSocketClose (s : Z)
| IoConnectorCreate (c : Z) (tag : bytes)
| IoConnect (c : Z) (a : addr)
| IoConnectorCancel (c : Z)
| IoAcceptorCreate (a : Z) (tag : bytes)
| IoListen (a : Z) (at_ : addr)
| IoAcceptorClose (a : Z)
| IoTimeoutCreate (t : Z) (us : Z) (m : bytes)
| IoTimeoutCancel (t : Z)
| IoTimeoutDestroy (t : Z)
| IoCloseFd (fd : Z).

(** A message of the socket, acceptor or connector with the tag [tag]. *)
Definition io_msg (kind tag event : bytes) (args : list arg) : bytes :=
  cbor_array (AString kind :: AString tag :: AString event :: args).

(** ** Hub *)

(** [hub::filter]: empty, given by the client, or the one of
    [subscribe_messages] with its set of tags. *)
Inductive filter : Type :=
| no_filter
| user_filter (f : bytes → res bool)
| message_filter (msgs : gset bytes).

Record hub_impl : Type := HubImpl {
  subscribers_ : list (handle * filter);
  q_ : Z
}.

(** ** Endpoints *)

Record connection : Type := Connection {
  c_s : Z;
  c_owner : handle;
  c_read_buf : bytes;
  c_tag : bytes;
  c_write_pending : bool;
  c_close_on_write_complete : bool;
  c_trace_enabled : bool
}.

Record connector : Type := Connector {
  k_c : Z;
  k_owner : handle;
  k_connection_count : Z;
  k_addr : addr;
  k_retry_time : Z;        (** milliseconds, an [int64_t] *)
  k_retry_count : Z;
  k_retry_timeout : option Z
}.

(** [listen_port] of a TCP acceptor, [listen_path] of a unix one. *)
Record acceptor : Type := Acceptor {
  a_a : Z;
  a_owner : handle;
  a_listen_port : Z;
  a_listen_path : bytes
}.

(** ** Debug server *)

Record call_proxy : Type := CallProxy {
  p_conn : handle;
  p_seq : Z;
  p_t : option Z;
  p_timed_out : bool
}.

Record debug_connection : Type := DebugConnection {
  d_s : Z;
  d_prompt : bytes;
  d_prev_buf : bytes;
  d_self : handle;
  d_json_mode : bool;
  d_close_on_write_complete : bool;
  d_unwritten : Z;
  d_next_call : Z;
  d_pending_calls : gmap Z bytes
}.

Record debug_acceptor : Type := DebugAcceptor {
  l_a : Z;
  l_tag : bytes;
  l_prompt : bytes
}.

(** ** Closures and heap *)

Inductive closure (C : Type) : Type :=
| HubStart (q : Z)
| HubReceive (p : Z)
| ConnectionStart (fd : Z) (owner : handle) (tag : bytes)
| ConnectionReceive (p : Z)
| ConnectorStart (a : addr) (owner : handle) (retry_time retry_count : Z)
| TcpConnectorReceive (p : Z)
| UnxConnectorReceive (p : Z)
| AcceptorStart (a : addr) (owner : handle)
| TcpAcceptorReceive (p : Z)
| UnxAcceptorReceive (p : Z)
| CallProxyStart (conn : handle) (seq : Z) (to : handle) (msg : bytes) (timeout_ms : Z)
| CallProxyReceive (p : Z)
| DebugConnectionStart (fd : Z) (prompt : bytes)
| DebugConnectionReceive (p : Z)
| DebugAcceptorStart (a : addr) (prompt : bytes)
| DebugAcceptorReceive (p : Z)
| Client (c : C).
Arguments HubStart {C} q. Arguments HubReceive {C} p. Arguments ConnectionStart {C} fd owner tag.
Arguments ConnectionReceive {C} p. Arguments ConnectorStart {C} a owner retry_time retry_count.
Arguments TcpConnectorReceive {C} p. Arguments UnxConnectorReceive {C} p.
Arguments AcceptorStart {C} a owner. Arguments TcpAcceptorReceive {C} p.
Arguments UnxAcceptorReceive {C} p. Arguments CallProxyStart {C} conn seq to msg timeout_ms.
Arguments CallProxyReceive {C} p. Arguments DebugConnectionStart {C} fd prompt.
Arguments DebugConnectionReceive {C} p. Arguments DebugAcceptorStart {C} a prompt.
Arguments DebugAcceptorReceive {C} p. Arguments Client {C} c.

Record heap (U : Type) : Type := Heap {
  h_next : Z;                         (** the next pointer *)
  h_hubs : gmap Z hub_impl;
  h_queues : gmap Z (list filter);    (** [subscribe_queue] *)
  h_connections : gmap Z connection;
  h_connectors : gmap Z connector;
  h_acceptors : gmap Z acceptor;
  h_proxies : gmap Z call_proxy;
  h_debug_connections : gmap Z debug_connection;
  h_debug_acceptors : gmap Z debug_acceptor;
  h_io : list io_call;
  h_client : U
}.
Arguments Heap {U}. Arguments h_next {U}. Arguments h_hubs {U}. Arguments h_queues {U}.
Arguments h_connections {U}. Arguments h_connectors {U}. Arguments h_acceptors {U}.
Arguments h_proxies {U}. Arguments h_debug_connections {U}. Arguments h_debug_acceptors {U}.
Arguments h_io {U}. Arguments h_client {U}.

Definition heap_empty {U} (u : U) : heap U := Heap 1 ∅ ∅ ∅ ∅ ∅ ∅ ∅ ∅ [] u.

(** A kind of object that lives in the heap. *)
Class Stored (A : Type) : Type := {
  table {U} : heap U → gmap Z A;
  set_table {U} : heap U → gmap Z A → heap U
}.

#[export] Instance hub_stored : Stored hub_impl := {|
  table _ := h_hubs;
  set_table _ h v := Heap (h_next h) v (h_queues h) (h_connections h) (h_connectors h)
    (h_acceptors h) (h_proxies h) (h_debug_connections h) (h_debug_acceptors h) (h_io h) (h_client h)
|}.
#[export] Instance queue_stored : Stored (list filter) := {|
  table _ := h_queues;
  set_table _ h v := Heap (h_next h) (h_hubs h) v (h_connections h) (h_connectors h)
    (h_acceptors h) (h_proxies h) (h_debug_connections h) (h_debug_acceptors h) (h_io h) (h_client h)
|}.
#[export] Instance connection_stored : Stored connection := {|
  table _ := h_connections;
  set_table _ h v := Heap (h_next h) (h_hubs h) (h_queues h) v (h_connectors h)
    (h_acceptors h) (h_proxies h) (h_debug_connections h) (h_debug_acceptors h) (h_io h) (h_client h)
|}.
#[export] Instance connector_stored : Stored connector := {|
  table _ := h_connectors;
  set_table _ h v := Heap (h_next h) (h_hubs h) (h_queues h) (h_connections h) v
    (h_acceptors h) (h_proxies h) (h_debug_connections h) (h_debug_acceptors h) (h_io h) (h_client h)
|}.
#[export] Instance acceptor_stored : Stored acceptor := {|
  table _ := h_acceptors;
  set_table _ h v := Heap (h_next h) (h_hubs h) (h_queues h) (h_connections h) (h_connectors h)
    v (h_proxies h) (h_debug_connections h) (h_debug_acceptors h) (h_io h) (h_client h)
|}.
#[export] Instance proxy_stored : Stored call_proxy := {|
  table _ := h_proxies;
  set_table _ h v := Heap (h_next h) (h_hubs h) (h_queues h) (h_connections h) (h_connectors h)
    (h_acceptors h) v (h_debug_connections h) (h_debug_acceptors h) (h_io h) (h_client h)
|}.
#[export] Instance debug_connection_stored : Stored debug_connection := {|
  table _ := h_debug_connections;
  set_table _ h v := Heap (h_next h) (h_hubs h) (h_queues h) (h_connections h) (h_connectors h)
    (h_acceptors h) (h_proxies h) v (h_debug_acceptors h) (h_io h) (h_client h)
|}.
#[export] Instance debug_acceptor_stored : Stored debug_acceptor := {|
  table _ := h_debug_acceptors;
  set_table _ h v := Heap (h_next h) (h_hubs h) (h_queues h) (h_connections h) (h_connectors h)
    (h_acceptors h) (h_proxies h) (h_debug_connections h) v (h_io h) (h_client h)
|}.

(** The object behind a pointer, and a change to it. *)
Definition deref {U A} `{!Stored A} (p : Z) (h : heap U) : option A := table h !! p.
Definition modify {U A} `{!Stored A} (p : Z) (f : A → A) (h : heap U) : heap U :=
  set_table h (alter f p (table h)).
Definition store {U A} `{!Stored A} (p : Z) (a : A) (h : heap U) : heap U :=
  set_table h (<[p := a]> (table h)).

Definition bump {U} (h : heap U) : heap U :=
  Heap (h_next h + 1) (h_hubs h) (h_queues h) (h_connections h) (h_connectors h) (h_acceptors h)
    (h_proxies h) (h_debug_connections h) (h_debug_acceptors h) (h_io h) (h_client h).
Definition io {U} (l : list io_call) (h : heap U) : heap U :=
  Heap (h_next h) (h_hubs h) (h_queues h) (h_connections h) (h_connectors h) (h_acceptors h)
    (h_proxies h) (h_debug_connections h) (h_debug_acceptors h) (h_io h ++ l) (h_client h).

(** What the tables promise: the usual laws of a lens. *)
Class StoredLaws (A : Type) `{!Stored A} : Prop := {
  table_set {U} (h : heap U) v : table (set_table h v) = v;
  set_table_twice {U} (h : heap U) v v' : set_table (set_table h v) v' = set_table h v';
  set_table_same {U} (h : heap U) : set_table h (table h) = h;
  set_table_io {U} (h : heap U) v l : set_table (io l h) v = io l (set_table h v);
  table_io {U} (h : heap U) l : table (io l h) = table h;
  io_set_table {U} (h : heap U) v : h_io (set_table h v) = h_io h
}.
#[export] Instance hub_laws : StoredLaws hub_impl.
Proof. split; by intros ? []. Qed.
#[export] Instance queue_laws : StoredLaws (list filter).
Proof. split; by intros ? []. Qed.
#[export] Instance connection_laws : StoredLaws connection.
Proof. split; by intros ? []. Qed.
#[export] Instance connector_laws : StoredLaws connector.
Proof. split; by intros ? []. Qed.
#[export] Instance acceptor_laws : StoredLaws acceptor.
Proof. split; by intros ? []. Qed.
#[export] Instance proxy_laws : StoredLaws call_proxy.
Proof. split; by intros ? []. Qed.
#[export] Instance debug_connection_laws : StoredLaws debug_connection.
Proof. split; by intros ? []. Qed.
#[export] Instance debug_acceptor_laws : StoredLaws debug_acceptor.
Proof. split; by intros ? []. Qed.

Section stored.
Context {U A : Type} `{!Stored A, !StoredLaws A}.
Implicit Types (h : heap U) (p : Z) (a : A).

Lemma deref_store h p a : deref p (store p a h) = Some a.
Proof. unfold deref, store. by rewrite table_set, lookup_insert_eq. Qed.

Lemma store_store h p a a' : store p a' (store p a h) = store p a' h.
Proof. unfold store. by rewrite table_set, set_table_twice, insert_insert_eq. Qed.

Lemma store_same h p a : deref p h = Some a → store p a h = h.
Proof. intros H. unfold store. by rewrite insert_id, set_table_same. Qed.

(** A change to an object that is there stores the new one. *)
Lemma modify_store h p a f : deref p h = Some a → modify p f h = store p (f a) h.
Proof.
  intros H. unfold modify, store. f_equal. apply map_eq. intros q. destruct (decide (p = q)) as [<-|].
  - unfold deref in H. by rewrite lookup_alter_eq, lookup_insert_eq, H.
  - by rewrite lookup_alter_ne, lookup_insert_ne.
Qed.

Lemma deref_io h p l : deref (A := A) p (io l h) = deref p h.
Proof. unfold deref. by rewrite table_io. Qed.

Lemma store_io h p a l : store p a (io l h) = io l (store p a h).
Proof. unfold store. by rewrite table_io, set_table_io. Qed.

Lemma h_io_store h p a : h_io (store p a h) = h_io h.
Proof. apply io_set_table. Qed.
End stored.

Lemma io_io {U} (h : heap U) l l' : io l' (io l h) = io (l ++ l') h.
Proof. unfold io. cbn. by rewrite (assoc_L app). Qed.
Lemma io_nil {U} (h : heap U) : io [] h = h.
Proof. destruct h. unfold io. cbn. by rewrite app_nil_r. Qed.

(** ** Programs

    A command is a program that waits for what to do with its value. *)
Section commands.
Context {U C : Type}.

Abbreviation program := (prog (heap U) (closure C)).
Definition cmd (A : Type) : Type := (A → program) → program.

(** An answer the API never gives. *)
Definition impossible : program := Raise ThrowOther.

Definition reads {A} (f : heap U → A) : cmd A := λ k,
  Call (OUser id) (λ a, match a with AnsUser h => k (f h) | _ => impossible end).
Definition writes (f : heap U → heap U) : cmd unit := λ k,
  Call (OUser f) (λ a, match a with AnsUser _ => k tt | _ => impossible end).
Definition new {A} `{!Stored A} (a : A) : cmd Z := λ k,
  Call (OUser (λ h, bump (store (h_next h) a h)))
    (λ a, match a with AnsUser h => k (h_next h) | _ => impossible end).
Definition load {A} `{!Stored A} (p : Z) : cmd A := λ k,
  Call (OUser id) (λ a, match a with
                        | AnsUser h => match deref p h with Some a => k a | None => impossible end
                        | _ => impossible
                        end).
Definition performs (l : list io_call) : cmd unit := writes (io l).
(** An object of the executor, named by a fresh pointer. *)
Definition creates (f : Z → io_call) : cmd Z := λ k,
  Call (OUser (λ h, bump (io [f (h_next h)] h)))
    (λ a, match a with AnsUser h => k (h_next h) | _ => impossible end).

Definition sends (h : handle) (m : bytes) : cmd result := λ k,
  Call (OSend h m) (λ a, match a with AnsResult r => k r | _ => impossible end).
Definition tries_send (h : handle) (m : bytes) : cmd (res result) := λ k,
  Call (OTrySend h m) (λ a, match a with AnsTried r => k r | _ => impossible end).
Definition receives (c : closure C) : cmd unit := λ k, Call (OReceive (Some c)) (λ _, k tt).
Definition traps (t : bool) : cmd unit := λ k, Call (OSetTrap t) (λ _, k tt).
Definition links (h : handle) : cmd unit := λ k, Call (OLink h) (λ _, k tt).
Definition self : cmd handle := λ k,
  Call OSelf (λ a, match a with AnsHandle h => k h | _ => impossible end).
Definition spawns (c : closure C) (name : bytes) : cmd (handle + bytes) := λ k,
  Call (OSpawn c name None) (λ a, match a with AnsSpawn r => k r | _ => impossible end).
Definition spawns_link (c : closure C) (name : bytes) : cmd (handle + bytes) := λ k,
  Call (OSpawnLink c name None) (λ a, match a with AnsSpawn r => k r | _ => impossible end).

(** A computation that may throw, outside of every [try]. *)
Definition attempt {A} (m : res A) : cmd A := λ k,
  match m with Ok a => k a | Throw e => Raise (ThrowStd (what e)) end.

(** [if (m(...)) yes else no] *)
Definition if_match (m : bytes) (ps : list pat) (yes : list capture → program) (no : program)
  : program :=
  attempt (matches m ps) (λ v, match v with Some c => yes c | None => no end).
End commands.

Declare Scope actor_scope.
Delimit Scope actor_scope with actor.
Notation "'let!' x := c 'in' k" := (c (λ x, k))
  (at level 10, x pattern, c at level 100, k at level 200) : actor_scope.
Notation "c ';;' k" := (c (λ _, k)) (at level 100, k at level 200, right associativity) : actor_scope.
#[global] Open Scope actor_scope.
