(* ===== verification/Messages.v ===== *)
(** * Messages of the library, matched

    The messages that actors exchange are arrays written by [cbor::array];
    matching one is a computation on its values. *)
From S2P Require Import Prelude CborEncode Ieee CborDecode CborGrammar CborMatch CborMatchSpec CppText CborJson Env Instance Actors.

(** The items of a message whose values are given. *)
Lemma matches_array ps args l :
  Forall arg_ok args → args ≠ [] → len_of args < 2 ^ 64 → Forall2 arg_item args l →
  matches (cbor_array args) ps = pats_items pat_item ps l.
Proof.
  intros Hok Hne Hlen Hi. unfold cbor_array. rewrite (array_wire [] args l Hok Hlen Hi). cbn [app].
  pose proof (array_items_ok args l Hok Hlen Hi) as Hl. destruct Hi as [|a i args l Ha Hi]; [done|].
  rewrite <- (app_nil_r (wire _)). rewrite matches_item; [done|done|constructor].
Qed.

(** Whether a message is an exit message never fails on an array. *)
Lemma matches_exit_returns w l rest :
  item_ok (IArray w l) → bytes_ok rest →
  ∃ v, matches (wire (IArray w l) ++ rest) [PStr (str "exit"); PMore] = Ok v.
Proof.
  intros Hi Hr. rewrite matches_item by done. cbn [pat_item mbind res_bind array_items].
  destruct l as [|i l]; [by eexists|]. rewrite pats_items_cons. cbn [pat_item mbind res_bind].
  destruct (item_string i ≫= _); cbn; by eexists.
Qed.

(** The messages of input and output objects. *)
Section io_msg.
Context (kind tag ev : bytes) (args : list arg) (l : list item).
Context (Hkind : arg_ok (AString kind)) (Htag : arg_ok (AString tag)) (Hev : arg_ok (AString ev)).
Context (Hargs : Forall arg_ok args) (Hlen : len_of args < 2 ^ 32) (Hl : Forall2 arg_item args l).

Lemma io_msg_items ps :
  matches (io_msg kind tag ev args) ps
  = pats_items pat_item ps (IText (min_width (len_of kind)) kind :: IText (min_width (len_of tag)) tag ::
                            IText (min_width (len_of ev)) ev :: l).
Proof.
  unfold io_msg. apply matches_array; [by do 3 (constructor; [assumption|])|done| |by do 3 (constructor; [done|])].
  rewrite !len_of_cons. pose proof (len_of_nonneg args). lia.
Qed.

(** The event decides. *)
Lemma io_msg_event ev' ps :
  matches (io_msg kind tag ev args) (PStr kind :: PStr tag :: PStr ev' :: ps)
  = if decide (ev = ev') then pats_items pat_item (PStr ev' :: ps) (IText (min_width (len_of ev)) ev :: l)
    else Ok None.
Proof.
  rewrite io_msg_items, !pats_items_cons. cbn [pat_item item_string mbind res_bind option_bind].
  rewrite !decide_True by done. case_decide as E.
  - destruct (pats_items _ (PStr ev' :: ps) _) as [[]|]; done.
  - destruct ps as [|p ps]; [|rewrite pats_items_cons]; cbn [pats_items is_more pat_item item_string mbind res_bind option_bind];
      by rewrite decide_False.
Qed.
End io_msg.
