(* ===== verification/Replies.v ===== *)
(** * Messages made by the runtime and the library are well-formed

    Arrays and maps made of values that can be printed can be printed; so can the
    references of instances and the errors of sends. *)
From S2P Require Import Prelude CborEncode Ieee CborDecode CborGrammar CborMatch CborMatchSpec CppText CborJson JsonSpec JsonSound JsonText Env Instance InstanceInv Messages.

(** The item an argument stands for, one that has a JSON form. *)
Definition good_arg (a : arg) (i : item) : Prop := arg_ok a ∧ arg_item a i ∧ printable i.

Lemma good_string s : bytes_ok s → len_of s < 2 ^ 64 → good_arg (AString s) (IText (min_width (len_of s)) s).
Proof. intros. by split_and!. Qed.
Lemma good_uint v : is_u64 v → good_arg (AUInt v) (IUInt (min_width v) v).
Proof. intros. by split_and!. Qed.
Lemma good_bool b : good_arg (ABool b) (ISpecial W0 (if b then 21 else 20)).
Proof. split_and!; [done..|]. destruct b; cbn; auto. Qed.
Lemma good_cbor i : writable i → good_arg (ACbor (wire i)) i.
Proof. intros [Hi Hp]. split_and!; [by apply wire_ok|done..]. Qed.

(** A literal of the source. *)
Lemma good_str (s : string) :
  (String.length s < 1000)%nat → good_arg (AString (str s)) (IText (min_width (len_of (str s))) (str s)).
Proof.
  intros Hs. assert (length (str s) = String.length s) as Hl.
  { unfold str. rewrite length_fmap. clear. by induction s as [|c s IH]; cbn; [|rewrite IH]. }
  apply good_string; [|unfold len_of; lia]. unfold str. apply Forall_fmap, Forall_forall. intros c _.
  unfold is_byte. cbn. pose proof (Ascii.N_ascii_bounded c). lia.
Qed.

#[export] Hint Resolve good_string good_uint good_bool good_cbor good_str : bytesdb.

Lemma good_args args l :
  Forall2 good_arg args l → Forall arg_ok args ∧ Forall2 arg_item args l ∧ Forall printable l.
Proof.
  induction 1 as [|a i args l (Ha & Hi & Hp) _ (IH1 & IH2 & IH3)]; split_and!; by constructor.
Qed.

Section lists.
Context (args : list arg) (l : list item) (H : Forall2 good_arg args l).

Lemma array_good :
  args ≠ [] → len_of args < 2 ^ 64 →
  cbor_array args = wire (IArray (min_width (len_of l)) l) ∧ writable (IArray (min_width (len_of l)) l).
Proof.
  intros Hne Hlen. destruct (good_args args l H) as (Hok & Hi & Hp).
  pose proof (array_wire [] args l Hok Hlen Hi) as Hw. pose proof (array_items_ok args l Hok Hlen Hi) as Ho.
  unfold cbor_array. rewrite Hw. destruct Hi; [done|]. split; [done|]. split; [done|by apply foldr_printable].
Qed.

Lemma map_good n :
  len_of l = 2 * n → 0 < n < 2 ^ 63 →
  cbor_map args = wire (IMap (min_width n) n l) ∧ writable (IMap (min_width n) n l).
Proof.
  intros Hl Hn. destruct (good_args args l H) as (Hok & Hi & Hp). pose proof (Forall2_length _ _ _ Hi) as Hlen.
  assert (is_u64 n) as Hu by (split; lia).
  assert (Forall item_ok l) as Hitems.
  { clear -Hok Hi. induction Hi; [constructor|]. inversion_clear Hok.
    constructor; [by eapply arg_item_ok|auto]. }
  split.
  - unfold cbor_map, map. destruct args as [|a args']; [cbn in Hlen; unfold len_of in Hl; lia|].
    replace (Z.of_nat (length (a :: args')) / 2) with n.
    2:{ unfold len_of in Hl. rewrite Hlen, Hl, (Z.mul_comm 2 n). by rewrite Z.div_mul. }
    rewrite (push_parms_wires _ _ l) by done. unfold map_header, cbor_magic_type_map.
    rewrite push_typed_val_head by (done || lia). by rewrite (wire_split (IMap _ _ _)).
  - split; [|split; [lia|by apply foldr_printable]]. apply item_ok_map. split_and!; [lia| | |done].
    + by apply min_width_bound.
    + rewrite Hl. rewrite u64_small by (unfold is_u64; lia). lia.
Qed.
End lists.

(** ** References and errors of the runtime *)

Section runtime.
Context {U C : Type}.
Implicit Types (w : world U C).

(** Identities and names are of a size that can be written. *)
Definition named w : Prop :=
  ∀ j x, insts w !! j = Some x → is_u64 j ∧ bytes_ok (i_name x) ∧ len_of (i_name x) < 2 ^ 32.

Lemma name_of_ok w r : named w → bytes_ok (name_of w r) ∧ len_of (name_of w r) < 2 ^ 32.
Proof.
  intros Hw. destruct r as [j|]; [|done]. unfold name_of. destruct (insts w !! j) as [x|] eqn:Hx; [|done].
  by apply (Hw j x).
Qed.

Definition pid_item (id : Z) (name : bytes) : item :=
  IArray W0 [IText W0 (str "PID"); IUInt (min_width id) id; IText (min_width (len_of name)) name].

Lemma pid_m_item id name :
  is_u64 id → bytes_ok name → len_of name < 2 ^ 32 →
  pid_m id name = wire (pid_item id name) ∧ writable (pid_item id name) ∧
  len_of (json_text (pid_item id name)) < 2 ^ 36.
Proof.
  intros Hid Hn Hl.
  destruct (array_good [AString (str "PID"); AUInt id; AString name]
    [IText W0 (str "PID"); IUInt (min_width id) id; IText (min_width (len_of name)) name]) as [E Hw].
  { constructor; [apply (good_str "PID"); cbn; lia|]. constructor; [by apply good_uint|].
    constructor; [apply good_string; [done|lia]|constructor]. }
  1,2: done.
  split_and!; [exact E|exact Hw|]. unfold pid_item.
  destruct (quoted_plain name Hn) as [_ Hq].
  assert ((length (int_text id) <= 20)%nat) as Hi.
  { unfold is_u64 in Hid. unfold int_text. rewrite (proj2 (Z.ltb_ge _ _)) by lia.
    apply (proj2 (proj2 (proj2 (nat_text_spec id ltac:(lia))))); [lia|].
    change (10 ^ Z.of_nat 20) with 100000000000000000000. lia. }
  change (json_text _) with ([91] ++ (quoted (str "PID") ++ (44 :: int_text id) ++ (44 :: quoted name) ++ []) ++ [93]).
  unfold len_of in *. rewrite !length_app. cbn [length]. change (length (quoted (str "PID"))) with 5%nat. lia.
Qed.

Lemma ref_m_item w r :
  named w → ∃ i, ref_m w r = wire i ∧ writable i ∧ len_of (json_text i) < 2 ^ 36.
Proof.
  intros Hw. unfold ref_m. destruct (lock w r) as [j|] eqn:Hl.
  - apply lock_Some in Hl as [-> [x Hx]]. destruct (Hw j x Hx) as (Hj & Hn & Hlen).
    unfold name_of. rewrite Hx. eexists. by apply pid_m_item.
  - eexists. apply pid_m_item; by_decision.
Qed.

(** The error of a send is an array that holds the message. *)
Lemma deadsend_item w cur m im r e :
  named w → m = wire im → writable im → deadsend w cur m r = Ok (Some e) →
  ∃ ie, e = wire ie ∧ writable ie ∧ (∃ wd l, ie = IArray wd l) ∧
    len_of (json_text ie) < len_of (json_text im) + 2 ^ 40.
Proof.
  intros Hw -> Him. unfold deadsend. destruct cur as [c|]; [|done]. destruct (in_shutdown w c); [done|].
  destruct (matches _ _) as [v|]; [|done]. cbn. destruct v; intros [= <-].
  destruct (ref_m_item w r Hw) as (i1 & E1 & W1 & L1), (ref_m_item w (Some c) Hw) as (i2 & E2 & W2 & L2).
  rewrite E1, E2. unfold exit_message.
  edestruct (array_good [AString (str "exit"); AString (str "DEADSEND"); ACbor (wire im); ACbor (wire i1); ACbor (wire i2)])
    as [E W]; [|done|done|].
  { constructor; [apply (good_str "exit"); cbn; lia|]. constructor; [apply (good_str "DEADSEND"); cbn; lia|].
    by repeat (constructor; [by apply good_cbor|]). }
  eexists. split_and!; [exact E|exact W|eauto|].
  match goal with |- context [json_text ?i] => change (json_text i) with
    ([91] ++ (quoted (str "exit") ++ (44 :: quoted (str "DEADSEND")) ++ (44 :: json_text im) ++
      (44 :: json_text i1) ++ (44 :: json_text i2) ++ []) ++ [93]) end.
  unfold len_of in *. rewrite !length_app. cbn [length].
  change (length (quoted (str "exit"))) with 6%nat. change (length (quoted (str "DEADSEND"))) with 10%nat. lia.
Qed.

Lemma send_error_item w cur h m im e :
  named w → m = wire im → writable im → (handle_send_raw w cur h m).2 = Ok (Some e) →
  ∃ ie, e = wire ie ∧ writable ie ∧ (∃ wd l, ie = IArray wd l) ∧
    len_of (json_text ie) < len_of (json_text im) + 2 ^ 40.
Proof.
  intros Hw Hm Him. unfold handle_send_raw, send_raw, queue.
  destruct (lock w (h_ref h)) as [j|]; [|by apply deadsend_item]. cbv zeta.
  destruct (in_shutdown _ _); [|done]. by apply deadsend_item.
Qed.

(** A send throws only for a message that is no array. *)
Lemma send_throws w cur h m im e :
  m = wire im → item_ok im → (handle_send_raw w cur h m).2 = Throw e →
  e = domain_error (str "cbor unexpected type (expected array)").
Proof.
  intros -> Hi.
  assert (∀ w r, deadsend w cur (wire im) r = Throw e →
    e = domain_error (str "cbor unexpected type (expected array)")) as Hd.
  { intros w0 r. unfold deadsend. destruct cur as [c|]; [|done]. destruct (in_shutdown w0 c); [done|].
    rewrite <- (app_nil_r (wire im)), matches_item by (done || constructor). cbn [mbind res_bind].
    destruct (array_items im) as [l|e'] eqn:E; cbn [mbind res_bind].
    - destruct l as [|x l]; [done|]. rewrite pats_items_cons. cbn [pat_item mbind res_bind].
      destruct (item_string x ≫= _); done.
    - intros [= <-]. unfold array_items in E. repeat case_match; try done; by injection E as <-. }
  unfold handle_send_raw, send_raw, queue. destruct (lock w (h_ref h)) as [j|]; [|apply Hd]. cbv zeta.
  destruct (in_shutdown _ _); [apply Hd|done].
Qed.

(** ** The names of the registry *)

Definition registered w : Prop :=
  ∀ n h, registry (ctx w) !! n = Some h → bytes_ok n ∧ len_of n < 2 ^ 32.

Lemma insert_name_Forall (P : bytes → Prop) n l : P n → Forall P l → Forall P (insert_name n l).
Proof.
  intros Hn Hl. induction Hl as [|m l Hm Hl IH]; cbn; [by constructor|].
  destruct (bytes_lt n m); by repeat constructor.
Qed.
Lemma insert_name_length n l : length (insert_name n l) = S (length l).
Proof. induction l as [|m l IH]; cbn; [done|]. destruct (bytes_lt n m); cbn; by rewrite ?IH. Qed.

Lemma get_names_item w :
  registered w → Z.of_nat (size (registry (ctx w))) < 2 ^ 32 →
  ∃ i, get_names w = wire i ∧ writable i.
Proof.
  intros Hr Hsz. set (ns := names w).
  assert (Forall (λ n, bytes_ok n ∧ len_of n < 2 ^ 32) ns ∧ len_of ns < 2 ^ 32) as [Hns Hlen].
  { unfold ns, names. set (l := (filter _ _).*1).
    assert (Forall (λ n, bytes_ok n ∧ len_of n < 2 ^ 32) l ∧ (length l <= size (registry (ctx w)))%nat) as [Hl Hll].
    { split.
      - apply Forall_fmap, Forall_forall. intros [n h] Hi. apply list_elem_of_filter in Hi as [_ Hi].
        apply elem_of_map_to_list in Hi. by apply (Hr n h).
      - unfold l. rewrite length_fmap. etrans; [apply length_filter|]. by rewrite length_map_to_list. }
    clearbody l. assert (length (foldr insert_name [] l) = length l) as Hfl.
    { clear. induction l as [|n l IH]; cbn; [done|]. by rewrite insert_name_length, IH. }
    split; [|unfold len_of; lia]. clear -Hl. induction Hl; cbn; [constructor|]. by apply insert_name_Forall. }
  assert (Forall2 good_arg (AString <$> ns) ((λ n, IText (min_width (len_of n)) n) <$> ns)) as Hg.
  { clear Hlen. induction Hns as [|n l [Hn Hl]]; cbn; constructor; [|done]. apply good_string; [done|lia]. }
  destruct (good_args _ _ Hg) as (Hok & Hi & Hp). exists (IArray (min_width (len_of ns)) ((λ n, IText (min_width (len_of n)) n) <$> ns)).
  pose proof (len_of_nonneg ns). unfold get_names. fold ns. split.
  - rewrite (push_parms_wires _ _ _ Hok Hi). unfold array_header, cbor_magic_type_array.
    rewrite push_typed_val_head by (unfold is_u64, len_of in *; lia). rewrite (wire_split (IArray _ _)).
    cbn [item_head item_body]. unfold len_of. by rewrite length_fmap.
  - split; [|by apply foldr_printable]. apply item_ok_array. split.
    + unfold len_of. rewrite length_fmap. apply min_width_bound. unfold is_u64, len_of in *. lia.
    + clear -Hok Hi. induction Hi; [constructor|]. inversion_clear Hok. constructor; [by eapply arg_item_ok|auto].
Qed.
End runtime.
