(* ===== verification/InstanceTypes.v ===== *)
(** * Messages stay well-formed

    A message is an array or null, with a JSON form.  When the programs of the
    clients only send such messages, given that they only get such messages, so does
    the runtime: links, exits, taps and errors of sends included.  Then no task ends
    because its message cannot be matched. *)
From S2P Require Import Prelude CborEncode Ieee CborDecode CborGrammar CborMatch CborMatchSpec CppText CborJson JsonSpec JsonSound JsonText JsonTheorems Env Instance InstanceInv InstanceStep InstanceTheorems InstanceExit Messages Replies.

(** ** Messages *)

Definition array_or_null (i : item) : Prop := i = INull ∨ ∃ w l, i = IArray w l.
Definition message (m : bytes) : Prop := ∃ i, m = wire i ∧ writable i ∧ array_or_null i.

Lemma message_array args l :
  Forall2 good_arg args l → args ≠ [] → len_of args < 2 ^ 64 → message (cbor_array args).
Proof.
  intros H Hne Hl. destruct (array_good args l H Hne Hl) as [-> Hw]. eexists. split_and!; [done..|]. right. eauto.
Qed.

Lemma message_null : message null_value.
Proof. exists INull. split_and!; [done|split; cbn; auto; lia|by left]. Qed.

Lemma message_good m : message m → ∃ i, good_arg (ACbor m) i.
Proof. intros (i & -> & Hi & _). exists i. by apply good_cbor. Qed.

(** Text that a message can hold with room for more. *)
Definition text (s : bytes) : Prop := bytes_ok s ∧ len_of s < 2 ^ 62.
#[export] Instance text_dec s : Decision (text s).
Proof. unfold text. apply _. Defined.

Lemma text_good s : text s → good_arg (AString s) (IText (min_width (len_of s)) s).
Proof. intros [? ?]. apply good_string; [done|lia]. Qed.

Lemma message_link : message link_msg.
Proof. eapply message_array; [|done|done]. constructor; [by apply text_good; by_decision|constructor]. Qed.

Lemma message_exit e : text e → message (exit_message e []).
Proof.
  intros He. eapply message_array; [|done|done].
  constructor; [apply text_good; by_decision|]. constructor; [by apply text_good|constructor].
Qed.

Lemma message_catch t :
  match t with ThrowStd what => bytes_ok what ∧ len_of what < 2 ^ 61 | ThrowOther => True end → message (catch_message t).
Proof.
  destruct t as [s|]; intros H; apply message_exit; [|by_decision].
  destruct H as [Hb Hl]. split; [apply Forall_app; split; [by_decision|done]|].
  unfold len_of in *. rewrite length_app. change (length (str "UNHANDLED_EXCEPTION: ")) with 21%nat. lia.
Qed.

(** Matching a message never throws. *)
Lemma message_matches m ps :
  message m → Forall (λ q, ∀ x, returns (pat_item q x)) ps → returns (matches m ps).
Proof.
  intros (i & -> & [Hi _] & Ha) Hps. unfold returns. rewrite <- (app_nil_r (wire i)), matches_item by (done || constructor).
  assert (∃ l, array_items i = Ok l) as [l ->] by (destruct Ha as [->|(w & l & ->)]; by eexists).
  cbn [mbind res_bind]. clear -Hps. revert l. induction Hps as [|q ps Hq Hps IH]; intros l; [by eexists|].
  destruct ps as [|q' ps].
  - cbn. destruct (is_more q); [by eexists|]. destruct l as [|x l]; [by eexists|].
    destruct (Hq x) as [r ->]. cbn. by eexists.
  - destruct l as [|x l]; [by eexists|]. rewrite pats_items_cons. destruct (Hq x) as [[c|] ->]; cbn [mbind res_bind]; [|by eexists].
    destruct (IH l) as [r ->]. by eexists.
Qed.

Lemma exit_msg_returns m : message m → returns (is_exit_msg m).
Proof.
  intros Hm. unfold is_exit_msg.
  destruct (message_matches m [PStr (str "exit"); PAny; PMore] Hm) as [v ->]; [|by eexists].
  repeat constructor; intros x; by eexists.
Qed.

Lemma exit_reason_returns m : message m → returns (exit_reason m).
Proof.
  intros Hm. unfold exit_reason.
  destruct (message_matches m [PType t_string; PExtract XString; PMore] Hm) as [v ->].
  { repeat constructor; intros x; by eexists. }
  cbn [mbind res_bind]. assert (returns (j ← to_json m; Ok (str "bad_exit_message: " ++ j))) as Hj.
  { destruct Hm as (i & -> & [Hi Hp] & _). rewrite <- (app_nil_r (wire i)), to_json_text by (done || constructor). by eexists. }
  destruct v as [[|[] []]|]; try exact Hj. by eexists.
Qed.

(** ** Programs that only send messages *)

Section typed.
Context {U C : Type}.
Implicit Types (w : world U C) (x : inst U C).

Definition text_name (s : bytes) : Prop := bytes_ok s ∧ len_of s < 2 ^ 32.

Definition ok_result (r : result) : Prop := match r with Some e => message e | None => True end.
Definition ok_thrown (t : thrown) : Prop :=
  match t with ThrowStd what => bytes_ok what ∧ len_of what < 2 ^ 61 | ThrowOther => True end.

Definition ok_op (o : op U C) : Prop :=
  match o with
  | OSend _ m | OTrySend _ m | OSendSelf m | OLockedSend _ _ m => message m
  | OSpawn _ name _ | OSpawnLink _ name _ | OContextSpawn _ name _ | OContextSpawnLink _ _ name _
  | ORename name => text_name name
  | OQueue _ (QLock _ m) => message m
  | _ => True
  end.

Definition ok_ans (a : ans U) : Prop :=
  match a with
  | AnsResult r | AnsTried (Ok r) => ok_result r
  | AnsTried (Throw _) => False
  | AnsSpawn (inr e) => message e
  | _ => True
  end.

Inductive ok_prog : prog U C → Prop :=
| ok_ret r : ok_result r → ok_prog (Ret r)
| ok_raise t : ok_thrown t → ok_prog (Raise t)
| ok_call o k : ok_op o → (∀ a, ok_ans a → ok_prog (k a)) → ok_prog (Call o k).

(** ** Worlds *)

(** The message of a send on its way. *)
Definition carries (h : holder) : option bytes :=
  match h with HLocked _ _ m | HChecked _ _ m | HCopied _ _ m _ => Some m | HHeld _ => None end.

Record typed w : Prop := Typed {
  ty_names : ∀ j x, insts w !! j = Some x → text_name (i_name x);
  ty_progs : ∀ j x q, insts w !! j = Some x → i_run x = Some q → ok_prog q;
  ty_tasks : ∀ j t, t ∈ strand w j → message (t_msg t);
  ty_sends : ∀ n h m, holders w !! n = Some h → carries h = Some m → message m
}.

(** A change that only adds messages to strands. *)
Record adds w w' : Prop := Adds {
  a_insts : insts w' = insts w;
  a_next : next_instance_id w' = next_instance_id w;
  a_holders : holders w' = holders w;
  a_tasks : ∀ j t, t ∈ strand w' j → t ∈ strand w j ∨ message (t_msg t)
}.

#[export] Instance adds_refl : Reflexive adds.
Proof. split; auto. Qed.
#[export] Instance adds_trans : Transitive adds.
Proof.
  intros w1 w2 w3 [] []. split; [congruence..|]. intros j t Ht. destruct (a_tasks1 j t Ht); auto.
Qed.

Lemma adds_same w w' :
  insts w' = insts w → next_instance_id w' = next_instance_id w → strands w' = strands w → holders w' = holders w →
  adds w w'.
Proof. intros Hi Hn Hs Hh. split; [done..|]. intros j t. unfold strand. rewrite Hs. auto. Qed.

Lemma adds_emit w l : adds w (emit w l).
Proof. by apply adds_same. Qed.

Lemma adds_named w w' : adds w w' → named w → named w'.
Proof. intros Ha Hn j x. rewrite (a_insts _ _ Ha). apply Hn. Qed.

Lemma adds_typed w w' : adds w w' → typed w → typed w'.
Proof.
  intros [] []. split.
  - intros j x. rewrite a_insts0. apply ty_names0.
  - intros j x q. rewrite a_insts0. apply ty_progs0.
  - intros j t Ht. destruct (a_tasks0 j t Ht); eauto.
  - by rewrite a_holders0.
Qed.

Lemma adds_submit w j from m : message m → adds w (submit_msg_task w j from m).
Proof.
  intros Hm. split; [done..|]. intros k t. unfold submit_msg_task, post_task. rewrite set_strand.
  case_decide as E; [subst k|auto]. rewrite elem_of_app, list_elem_of_singleton. intros [H|H]; [auto|subst t; auto].
Qed.

(** ** Sending *)

Lemma adds_queue_in_tap w cur j from m : message m → adds w (queue_in_tap w cur j from m).1.
Proof.
  intros Hm. unfold queue_in_tap. cbv zeta. set (w1 := trace_send w j from m).
  assert (adds w w1) as H1 by apply adds_emit.
  destruct (in_shutdown _ _); cbn [fst]; [done|]. etrans; [exact H1|by apply adds_submit].
Qed.

Lemma adds_tap_deliver w cur subs ev : message ev → adds w (tap_deliver w cur subs ev).
Proof.
  intros Hm. unfold tap_deliver. revert w. induction subs as [|s subs IH]; intros w; cbn [foldl]; [done|].
  etrans; [|apply IH]. destruct (lock w (h_ref s)); [by apply adds_queue_in_tap|done].
Qed.

Lemma text_name_text s : text_name s → text s.
Proof. unfold text_name, text. intros [? ?]. split; [done|lia]. Qed.

Lemma adds_tap_event w cur name a b m :
  text_name name → text a → text_name b → message m → adds w (tap_event w cur name a b m).
Proof.
  intros Hn Ha Hb Hm. unfold tap_event. destruct (bool_decide (name = [])); [done|].
  destruct (tap_subscribers w name) as [w1 subs] eqn:E.
  assert (adds w w1) as H1 by (injection E as <- _; by apply adds_same).
  destruct (bool_decide (subs = [])); [done|]. etrans; [exact H1|]. apply adds_tap_deliver.
  destruct (message_good m Hm) as [im Him]. 
  eapply (message_array _ [_; _; _; _; im]); [|discriminate|reflexivity].
  repeat (apply Forall2_cons; split); [apply (good_str "debug_tap"); cbn; lia|exact (text_good _ (text_name_text _ Hn))|
    exact (text_good _ Ha)|exact (text_good _ (text_name_text _ Hb))|exact Him|constructor].
Qed.

Lemma adds_tap_message w cur to from m :
  named w → text_name to → message m → adds w (tap_message w cur to from m).
Proof.
  intros Hw Ht Hm. unfold tap_message. cbv zeta. pose proof (name_of_ok w (h_ref from) Hw) as Hf.
  assert (text (str "recv") ∧ text (str "send")) as [Hr Hs] by by_decision.
  etrans; [exact (adds_tap_event w cur to (str "recv") _ m Ht Hr Hf Hm)|].
  exact (adds_tap_event _ cur _ (str "send") to m Hf Hs Ht Hm).
Qed.

Lemma deadsend_ok w cur m r : named w → message m → ∃ v, deadsend w cur m r = Ok v ∧ ok_result v.
Proof.
  intros Hw Hm. destruct (deadsend w cur m r) as [[e|]|ex] eqn:E; [|by eexists|].
  - exists (Some e). split; [done|]. destruct Hm as (i & -> & Hi & _).
    destruct (deadsend_item w cur (wire i) i r e Hw eq_refl Hi E) as (ie & -> & Hie & Ha & _).
    exists ie. split_and!; [done..|by right].
  - exfalso. unfold deadsend in E. destruct cur; [|done]. destruct (in_shutdown _ _); [done|].
    destruct (message_matches m [PStr (str "exit"); PMore] Hm) as [v Hv]; [|by rewrite Hv in E].
    repeat constructor; intros x; by eexists.
Qed.

Lemma queue_ok w cur j from m :
  named w → message m →
  adds w (queue w cur j from m).1 ∧ ∃ v, (queue w cur j from m).2 = Ok v ∧ ok_result v.
Proof.
  intros Hw Hm. unfold queue. cbv zeta. set (w1 := trace_send w j from m).
  assert (adds w w1) as H1 by apply adds_emit. assert (named w1) as Hw1 by by eapply adds_named.
  destruct (in_shutdown w1 j); cbn [fst snd].
  - split; [done|by apply deadsend_ok].
  - split; [|by eexists]. etrans; [exact H1|]. etrans; [|by apply adds_submit].
    destruct (_ && _); [|done]. apply adds_tap_message; [done|by apply name_of_ok|done].
Qed.

Lemma send_ok w cur h m :
  named w → message m →
  adds w (handle_send_raw w cur h m).1 ∧ ∃ v, (handle_send_raw w cur h m).2 = Ok v ∧ ok_result v.
Proof.
  intros Hw Hm. unfold handle_send_raw. destruct (lock w (h_ref h)); [by apply queue_ok|].
  split; [done|by apply deadsend_ok].
Qed.

(** ** Changes of an instance *)

(** Both conditions on a world. *)
Definition sound w : Prop := typed w ∧ named w.

Lemma adds_sound w w' : adds w w' → sound w → sound w'.
Proof. intros Ha [Ht Hn]. split; [by eapply adds_typed|by eapply adds_named]. Qed.

Lemma sound_upd w i f :
  sound w → (∀ x, insts w !! i = Some x → text_name (i_name (f x)) ∧ ∀ q, i_run (f x) = Some q → ok_prog q) →
  sound (upd w i f).
Proof.
  intros [[] Hn] Hf.
  assert (∀ j x, insts (upd w i f) !! j = Some x → ∃ y, insts w !! j = Some y ∧
    text_name (i_name x) ∧ ∀ q, i_run x = Some q → ok_prog q) as H.
  { intros j x. destruct (decide (i = j)) as [<-|Hne].
    - rewrite lookup_upd. destruct (insts w !! i) as [y|] eqn:Hy; intros [= <-]. exists y. by split; [|apply Hf].
    - rewrite lookup_upd_ne by done. intros Hx. exists x. split_and!; [done|by eapply ty_names0|eauto]. }
  split; [split|].
  - intros j x Hx. by destruct (H j x Hx) as (_ & _ & ? & _).
  - intros j x q Hx. destruct (H j x Hx) as (_ & _ & _ & Hq). apply Hq.
  - exact ty_tasks0.
  - exact ty_sends0.
  - intros j x Hx. destruct (H j x Hx) as (y & Hy & Hname & _). split; [by apply (Hn j y)|done].
Qed.

(** Changes that keep name and program. *)
Lemma sound_set w i f :
  sound w → (∀ x, i_name (f x) = i_name x ∧ i_run (f x) = i_run x) → sound (upd w i f).
Proof.
  intros Hs Hf. apply sound_upd; [done|]. intros x Hx. destruct (Hf x) as [-> ->], Hs as [[] _].
  split; [by eapply ty_names0|eauto].
Qed.

Lemma sound_emit w l : sound w → sound (emit w l).
Proof. apply adds_sound, adds_emit. Qed.

(** ** Exits *)

Lemma send_all_adds i m l : ∀ w,
  named w → message m → adds w (foldl (λ w h, (handle_send_raw w (Some i) h m).1) w l).
Proof.
  induction l as [|h l IH]; intros w Hw Hm; cbn [foldl]; [done|].
  destruct (send_ok w (Some i) h m Hw Hm) as [Ha _]. etrans; [exact Ha|]. apply IH; [by eapply adds_named|done].
Qed.

Lemma exit_notify_sound w i x m :
  sound w → insts w !! i = Some x → message m → sound (exit_notify w i x m).
Proof.
  intros Hs Hx Hm. unfold exit_notify. cbv zeta.
  assert (sound (upd w i set_in_shutdown)) as H1 by by apply sound_set.
  pose proof (send_all_adds i m (i_links x) _ (proj2 H1) Hm) as Ha.
  set (w2 := foldl _ _ _) in *. assert (sound w2) as H2 by by eapply adds_sound.
  assert (sound (do_trace w2 i ch_lifetime [AString (str "exit"); ACbor m])) as H3 by by apply sound_emit.
  destruct (is_tapping _); [|done]. eapply adds_sound; [|exact H3]. unfold tap_exit.
  assert (text (str "exit") ∧ text_name []) as [He Hnil] by (split; [by_decision|by split; [constructor|]]).
  refine (adds_tap_event _ _ (i_name x) (str "exit") [] m _ He Hnil Hm). destruct Hs as [[] _]. by eapply ty_names0.
Qed.

Lemma handle_exit_sound w i m :
  sound w → message m → sound (handle_exit w i m).1 ∧ (handle_exit w i m).2 = Ok tt.
Proof.
  intros Hs Hm. unfold handle_exit. destruct (insts w !! i) as [x|] eqn:Hx; [|done].
  pose proof (exit_notify_sound w i x m Hs Hx Hm) as H1. set (w1 := exit_notify w i x m) in *.
  destruct (i_exit_handlers x); [split; [by apply sound_set|done]|].
  destruct (exit_reason_returns m Hm) as [err ->]. split; [|done].
  apply sound_set; [|done]. apply sound_emit. by apply sound_set.
Qed.

Lemma destroy_sound w i x : sound w → sound (destroy w i x).
Proof.
  intros [[] Hn]. unfold destroy. cbv zeta. set (w1 := set_insts _ _).
  assert (sound w1) as H1.
  { split; [split|].
    - intros j y Hy. unfold w1 in Hy. cbn in Hy. apply lookup_delete_Some in Hy as [_ Hy]. by eapply ty_names0.
    - intros j y q Hy. unfold w1 in Hy. cbn in Hy. apply lookup_delete_Some in Hy as [_ Hy]. by eapply ty_progs0.
    - exact ty_tasks0.
    - exact ty_sends0.
    - intros j y Hy. unfold w1 in Hy. cbn in Hy. apply lookup_delete_Some in Hy as [_ Hy]. by apply Hn. }
  repeat case_match; by repeat apply sound_emit.
Qed.

Lemma collect_sound w i : sound w → sound (collect w i).
Proof.
  intros Hs. unfold collect. destruct (insts w !! i); [|done]. destruct (held _ _ _); [done|by apply destroy_sound].
Qed.

Lemma run_end_sound w i : sound w → sound (run_end w i).
Proof.
  intros Hs. unfold run_end. cbv zeta. apply collect_sound.
  set (w1 := if in_shutdown w i then w else _).
  assert (sound w1) as H1 by (unfold w1; destruct (in_shutdown w i); [done|by apply sound_emit]).
  apply sound_upd; [done|]. intros x Hx. destruct H1 as [[] _]. split; [by eapply (ty_names0 i x)|done].
Qed.

(** ** Tasks *)

(** A step that goes on in such a world, and is not the end of the process. *)
Definition goes_on (o : outcome U C) : Prop :=
  match o with Next w => sound w | Terminate _ => False | _ => True end.

Lemma run_catch_sound w i t : sound w → ok_thrown t → goes_on (run_catch w i t).
Proof.
  intros Hs Ht. unfold run_catch. destruct (handle_exit_sound w i (catch_message t) Hs) as [H1 H2]; [by apply message_catch|].
  destruct (handle_exit _ _ _) as [w1 r]. cbn in H1, H2. subst r. by apply run_end_sound.
Qed.

Lemma run_exit_sound w i m : sound w → message m → goes_on (run_exit w i m).
Proof.
  intros Hs Hm. unfold run_exit. destruct (handle_exit_sound w i m Hs Hm) as [H1 H2].
  destruct (handle_exit _ _ _) as [w1 r]. cbn in H1, H2. subst r. by apply run_end_sound.
Qed.

Lemma run_ret_sound w i r : sound w → ok_result r → goes_on (run_ret w i r).
Proof.
  intros Hs Hr. unfold run_ret. destruct r as [e|]; [by apply run_exit_sound|].
  destruct (insts w !! i) as [x|]; [|done]. destruct (i_receiver x); [by apply run_end_sound|].
  apply run_exit_sound; [done|]. apply (message_exit (str "noreceive")). by_decision.
Qed.

(** ** The API *)

Definition answers_ok (p : world U C * res (ans U)) : Prop :=
  sound p.1 ∧ match p.2 with Ok a => ok_ans a | Throw e => ok_thrown (ThrowStd (what e)) end.

Lemma send_answers w cur h m (f : result → ans U) :
  sound w → message m → (∀ r, ok_result r → ok_ans (f r)) → answers_ok (ans_map f (handle_send_raw w cur h m)).
Proof.
  intros Hs Hm Hf. destruct (send_ok w cur h m (proj2 Hs) Hm) as [Ha (v & E & Hv)].
  split; [by eapply adds_sound|]. unfold ans_map. cbn. rewrite E. by apply Hf.
Qed.

Lemma construct_sound w b eh name e :
  sound w → text_name name → is_u64 (next_instance_id w) → sound (construct w b eh name e).
Proof.
  intros [[] Hn] Hname Hid. unfold construct. cbv zeta. split; [split|]; cbn.
  - intros j x. rewrite lookup_insert_Some. intros [[_ <-]|[_ Hx]]; [done|by eapply ty_names0].
  - intros j x q. rewrite lookup_insert_Some. intros [[_ <-]|[_ Hx]]; [done|by eapply ty_progs0].
  - exact ty_tasks0.
  - exact ty_sends0.
  - intros j x. cbn. rewrite lookup_insert_Some. intros [[<- <-]|[_ Hx]]; [by split|by apply Hn].
Qed.

Lemma register_adds w h : adds w (register_instance w h).
Proof. unfold register_instance. repeat case_match; by apply adds_same. Qed.

Lemma schedule_sound w cur i h :
  sound w → sound (schedule w cur i h).1 ∧
  match (schedule w cur i h).2 with Ok (inr e) => message e | Ok (inl _) => True | Throw _ => False end.
Proof.
  intros Hs. unfold schedule. destruct (queue_ok w cur i null_handle null_value (proj2 Hs) message_null) as [Ha (v & E & Hv)].
  destruct (queue _ _ _ _ _) as [w1 r]. cbn in Ha, E. subst r. pose proof (adds_sound _ _ Ha Hs) as H1.
  destruct v; cbn [fst snd]; [done|]. split; [|done]. eapply adds_sound; [apply register_adds|done].
Qed.

Lemma spawn_sound w cur b eh name lnk e :
  sound w → text_name name → is_u64 (next_instance_id w) →
  sound (spawn w cur b eh name lnk e).1 ∧
  match (spawn w cur b eh name lnk e).2 with Ok (inr e) => message e | Ok (inl _) => True | Throw _ => False end.
Proof.
  intros Hs Hn Hid. unfold spawn. cbv zeta. pose proof (construct_sound w b eh name e Hs Hn Hid) as H1.
  set (w1 := do_trace _ _ _ _). assert (sound w1) as H2 by by apply sound_emit.
  destruct (expired w1 lnk); [by apply schedule_sound|].
  destruct (queue_ok w1 cur (next_instance_id w) (make_handle w1 lnk) link_msg (proj2 H2) message_link) as [Ha (v & E & Hv)].
  destruct (queue _ _ _ _ _) as [w2 r]. cbn in Ha, E. subst r. pose proof (adds_sound _ _ Ha H2) as H3.
  destruct v; cbn [fst snd]; [done|]. by apply schedule_sound.
Qed.

Lemma spawn_answers w (p : world U C * res (handle + bytes)) :
  sound p.1 → match p.2 with Ok (inr e) => message e | Ok (inl _) => True | Throw _ => False end →
  answers_ok (ans_map AnsSpawn p).
Proof. intros Hs Hr. destruct p as [w1 [[]|]]; by split. Qed.

(** A holder comes, goes or takes its next step. *)
Lemma sound_holders w H :
  sound w → (∀ n h m, H !! n = Some h → carries h = Some m → message m) → sound (set_holders w H).
Proof. intros [[] Hn] Hh. by split. Qed.

Lemma sound_hold w n h :
  sound w → (∀ m, carries h = Some m → message m) → sound (set_holders w (<[n := h]> (holders w))).
Proof.
  intros Hs Hh. apply sound_holders; [done|]. intros n' h' m. rewrite lookup_insert_Some.
  intros [[_ <-]|[_ Hn]]; [apply Hh|]. destruct Hs as [[] _]. by apply (ty_sends0 n').
Qed.

Lemma queue_part_sound w cur n q :
  sound w → ok_op (OQueue n q) →
  sound (queue_part w cur n q).1 ∧
  match (queue_part w cur n q).2 with Ok (Some r) => ok_result r | Ok None => True | Throw _ => False end.
Proof.
  intros Hs Ho. unfold queue_part.
  assert (∀ h m, holders w !! n = Some h → carries h = Some m → message m) as Hm by (intros h m; apply (ty_sends _ (proj1 Hs))).
  destruct q as [h m| | |]; destruct (holders w !! n) as [[i from m'|i from m'|i from m' lk|i]|] eqn:Hn; try done.
  - destruct (lock w (h_ref h)) as [p|]; cbn [fst snd].
    + split; [|done]. apply sound_hold; [by apply sound_emit|]. by intros ? [= <-].
    + destruct (deadsend_ok w cur m (h_ref h) (proj2 Hs) Ho) as (v & -> & Hv). by split.
  - specialize (Hm _ m' eq_refl eq_refl). destruct (in_shutdown w i); cbn [fst snd].
    + destruct (deadsend_ok w cur m' (h_ref from) (proj2 Hs) Hm) as (v & -> & Hv). split; [by apply sound_hold|done].
    + split; [|done]. set (w1 := if _ && _ then _ else _). assert (sound w1) as H1.
      { unfold w1. destruct (_ && _); [|done]. eapply adds_sound; [|exact Hs].
        apply adds_tap_message; [apply Hs|apply name_of_ok, Hs|done]. }
      apply sound_hold; [done|]. by intros ? [= <-].
  - specialize (Hm _ m' eq_refl eq_refl). split; [|done]. apply sound_hold; [done|]. by intros ? [= <-].
  - specialize (Hm _ m' eq_refl eq_refl). split; [|done]. apply sound_hold; [|done]. eapply adds_sound; [|exact Hs].
    split; [done..|]. intros j t. unfold post_task. rewrite set_strand. case_decide as E; [subst j|auto].
    rewrite elem_of_app, list_elem_of_singleton. intros [H|H]; [auto|subst t; auto].
Qed.

Lemma exec_private_sound w i x o :
  sound w → insts w !! i = Some x → ok_op o → is_u64 (next_instance_id w) → answers_ok (exec_private w i x o).
Proof.
  intros Hs Hx Ho Hid. assert (∀ c l f, (∀ y, i_name (f y) = i_name y ∧ i_run (f y) = i_run y) →
    sound (upd (do_trace w i c l) i f)) as Hset by (intros; apply sound_set; [by apply sound_emit|done]).
  destruct o; cbn [exec_private]; try (split; [(done || by apply sound_set)|done]); try (split; [by apply Hset|done]).
  - destruct (queue_ok w (Some i) i (self_handle i) m (proj2 Hs) Ho) as [Ha (v & E & Hv)].
    split; [by eapply adds_sound|]. unfold ans_map, send_raw. cbn. by rewrite E.
  - unfold link. destruct (send_ok w (Some i) h link_msg (proj2 Hs) message_link) as [Ha (v & E & Hv)].
    destruct (handle_send_raw _ _ _ _) as [w1 r]. cbn in Ha, E. subst r. pose proof (adds_sound _ _ Ha Hs).
    destruct v; cbn; [done|]. split; [|done]. apply sound_set; [by apply sound_emit|done].
  - apply (spawn_answers w); by apply spawn_sound.
  - destruct (spawn_sound w (Some i) b None name (Some i) (default (i_env x) e) Hs Ho Hid) as [H1 H2].
    unfold spawn_link. destruct (spawn _ _ _ _ _ _ _) as [w1 [[h|e1]|]]; cbn in H1, H2; [|done..].
    split; [|done]. cbn. apply sound_set; [by apply sound_emit|done].
  - split; [|done]. apply sound_upd; [done|]. intros y Hy. destruct Hs as [[] _]. cbn. split; [exact Ho|]. intros q Hq. by eapply (ty_progs0 i y).
  - split; [by apply sound_emit|done].
  - destruct (holders w !! n); [done|]. destruct (i_lifetime x); [|done]. split; [by apply sound_hold|done].
Qed.

Lemma exec_sound w cur o :
  sound w → ok_op o → is_u64 (next_instance_id w) → answers_ok (exec w cur o).
Proof.
  intros Hs Ho Hid. assert (answers_ok (w, Throw (domain_error context_error))) as Hctx by (split; [done|by_decision]).
  assert (answers_ok (match cur with
     | None => (w, Throw (domain_error context_error))
     | Some i => match insts w !! i with Some x => exec_private w i x o | None => (w, Throw (domain_error context_error)) end
     end)) as Hp by (destruct cur as [i|]; [|done]; destruct (insts w !! i) eqn:Hx; [by apply exec_private_sound|done]).
  assert (∀ c, sound (set_ctx w c)) as Hc by (intros c; by eapply adds_sound; [apply (adds_same w)|]).
  assert (∀ u, sound (set_user w u)) as Hu by (intros u; by eapply adds_sound; [apply (adds_same w)|]).
  destruct o; try exact Hp; cbn [exec]; try (split; [done|done]); try by split; [apply Hc|].
  - by apply send_answers.
  - destruct (send_ok w cur h m (proj2 Hs) Ho) as [Ha (v & E & Hv)].
    destruct (handle_send_raw _ _ _ _) as [w1 r]. cbn in Ha, E. subst r. split; [by eapply adds_sound|done].
  - apply (spawn_answers w); by apply spawn_sound.
  - destruct eh; [|split; [done|by_decision]]. apply (spawn_answers w); by apply spawn_sound.
  - split; [|done]. unfold debug_disable. destruct (_ =? 1); apply Hc.
  - split; [|done]. unfold unregister_instance. destruct (negb _); [done|apply Hc].
  - split; [|done]. unfold tap_add. destruct (existsb _ _); [done|apply Hc].
  - split; [apply Hu|done].
  - apply send_answers; [apply Hu|done|done].
  - destruct (queue_part_sound w cur n q Hs Ho) as [H1 H2]. split; [done|]. unfold ans_map. cbn.
    by destruct (queue_part w cur n q).2 as [[r|]|].
Qed.

Section call.
Context (call : C → handle → bytes → prog U C).
Context (Hcall : ∀ c from m, message m → ok_prog (call c from m)).

Lemma run_receiver_sound w i x from m : sound w → message m → goes_on (run_receiver call w i x from m).
Proof.
  intros Hs Hm. unfold run_receiver. destruct (i_receiver x) as [[b|c]|]; cbn [goes_on].
  - apply sound_upd; [by apply sound_emit|]. intros y Hy. destruct Hs as [[] _]. split; [by eapply (ty_names0 i y)|].
    intros q [= <-]. by apply Hcall, message_null.
  - apply sound_upd; [done|]. intros y Hy. destruct Hs as [[] _]. split; [by eapply (ty_names0 i y)|].
    intros q [= <-]. by apply Hcall.
  - apply run_catch_sound; [done|by_decision].
Qed.

Lemma run_body_sound w i x from m : sound w → message m → goes_on (run_body call w i x from m).
Proof.
  intros Hs Hm. unfold run_body. cbv zeta. set (w1 := do_trace _ _ _ _). assert (sound w1) as H1 by by apply sound_emit.
  assert (∃ b, (if i_trap_exit x then Ok false else is_exit_msg m) = Ok b) as [b ->].
  { destruct (i_trap_exit x); [by eexists|]. by apply exit_msg_returns. }
  destruct b.
  - destruct (bool_decide _); [by apply run_end_sound|by apply run_exit_sound].
  - apply run_receiver_sound; [|done]. destruct (is_null m); [done|by apply sound_emit].
Qed.

Lemma run_sound w i x from m : sound w → message m → goes_on (run call w i x from m).
Proof.
  intros Hs Hm. unfold run.
  destruct (if is_link_msg m then _ else _) as [w1 ret] eqn:E.
  assert (sound w1) as H1.
  { destruct (is_link_msg m); injection E as <- _; [|done]. unfold run_link. cbv zeta.
    assert (∀ w2, sound w2 → sound (if i_observe_links x then w2 else do_trace w2 i ch_execute [AString (str "sleep")])) as Hsl
      by (intros w2 H2; destruct (i_observe_links x); [done|by apply sound_emit]).
    apply Hsl, sound_emit, sound_set; [|done]. apply sound_emit. destruct (i_observe_links x); [done|by apply sound_emit]. }
  destruct ret; [by apply collect_sound|]. destruct (i_in_shutdown x); [by apply collect_sound|]. by apply run_body_sound.
Qed.

(** What is asked of a step from outside. *)
Definition ok_label (l : label U C) : Prop :=
  match l with LDispatch _ m => message m | LExtern o => ok_op o | _ => True end.

Lemma step_sound w l : sound w → ok_label l → is_u64 (next_instance_id w) → goes_on (step call w l).
Proof.
  intros Hs Hl Hid. pose proof Hs as [[] _]. destruct l as [i|i|i m|o|n]; cbn [step].
  - destruct (strand w i) as [|t ts] eqn:Et; [done|]. destruct (insts w !! i) as [x|]; [|done].
    destruct (i_run x); [done|]. apply run_sound; [|apply (ty_tasks0 i t); rewrite Et; left].
    eapply adds_sound; [|exact Hs]. split; [done..|]. intros j k. rewrite set_strand.
    case_decide as E; [subst j|by left]. intros Hk. left. rewrite Et. by right.
  - destruct (insts w !! i) as [x|] eqn:Hx; [|done]. destruct (i_run x) as [q|] eqn:Hr; [|done].
    pose proof (ty_progs0 i x q Hx Hr) as Hq. destruct Hq as [r Hr'|t Ht|o k Ho Hk];
      [by apply run_ret_sound|by apply run_catch_sound|].
    pose proof (exec_sound w (Some i) o Hs Ho Hid) as [H1 H2].
    destruct (exec w (Some i) o) as [w1 [a|e]]; cbn in H1, H2; [|by apply run_catch_sound].
    apply sound_upd; [done|]. intros y Hy. destruct H1 as [[] _]. split; [by eapply (ty_names1 i y)|].
    intros q [= <-]. by apply Hk.
  - destruct (insts w !! i) as [x|]; [|done]. destruct (i_run x); [done|]. unfold dispatch_sync.
    destruct (i_in_shutdown x); [done|by apply run_sound].
  - by apply exec_sound.
  - destruct (holders w !! n) as [[| | |i]|]; try done. apply collect_sound, sound_holders; [done|].
    intros n' h m. rewrite lookup_delete_Some. intros [_ Hn]. by apply (ty_sends0 n').
Qed.

(** ** Theorems *)

Lemma next_collect w i : next_instance_id (collect w i) = next_instance_id w.
Proof. unfold collect, destroy. repeat case_match; done. Qed.

(** Identities only grow. *)
Lemma queue_next w cur i from m : next_instance_id (queue w cur i from m).1 = next_instance_id w.
Proof.
  unfold queue. cbv zeta. destruct (in_shutdown _ _); [done|]. cbn. destruct (_ && _); [|done].
  by rewrite (g_next _ _ (tap_message_grows _ _ _ _ _)).
Qed.

Lemma spawn_next w cur b eh name lnk e : next_instance_id w <= next_instance_id (spawn w cur b eh name lnk e).1.
Proof.
  unfold spawn. cbv zeta. set (w1 := do_trace _ _ _ _). assert (next_instance_id w1 = next_instance_id w + 1) as E by done.
  assert (∀ w2 i h, next_instance_id (schedule w2 cur i h).1 = next_instance_id w2) as Hsch.
  { intros w2 i h. unfold schedule. pose proof (queue_next w2 cur i null_handle null_value) as Hq.
    destruct (queue w2 _ _ _ _) as [w3 [[]|]]; cbn in Hq |- *; [done|by rewrite (a_next _ _ (register_adds w3 h))|done]. }
  destruct (expired w1 lnk); [rewrite Hsch; lia|].
  pose proof (queue_next w1 cur (next_instance_id w) (make_handle w1 lnk) link_msg) as Hq.
  destruct (queue w1 _ _ _ _) as [w3 [[]|]]; cbn in Hq |- *; [lia|rewrite Hsch; lia|lia].
Qed.

Lemma exec_next w cur o : next_instance_id w <= next_instance_id (exec w cur o).1.
Proof.
  assert (∀ w h m, next_instance_id (handle_send_raw w cur h m).1 = next_instance_id w) as Hsend
    by (intros w0 h m; apply handle_send_grows).
  assert (∀ o, next_instance_id w <= next_instance_id (match cur with
     | None => (w, Throw (domain_error context_error))
     | Some i => match insts w !! i with Some x => exec_private w i x o | None => (w, Throw (domain_error context_error)) end
     end).1) as Hp.
  { intros o'. destruct cur as [i|]; [|done]. destruct (insts w !! i) as [x|]; [|done].
    destruct o'; cbn [exec_private ans_map fst]; try done.
    - unfold send_raw. by rewrite queue_next.
    - unfold link. pose proof (Hsend w h link_msg) as Hq. destruct (handle_send_raw _ _ _ _) as [w1 [[]|]]; cbn in Hq |- *; lia.
    - apply spawn_next.
    - unfold spawn_link. pose proof (spawn_next w (Some i) b None name (Some i) (default (i_env x) e)) as Hq.
      destruct (spawn _ _ _ _ _ _ _) as [w1 [[]|]]; cbn in Hq |- *; done.
    - by repeat case_match. }
  destruct o; try apply Hp; cbn [exec ans_map fst]; try done.
  - by rewrite Hsend.
  - pose proof (Hsend w h m) as Hq. destruct (handle_send_raw _ _ _ _) as [w1 r]. cbn in Hq |- *. lia.
  - apply spawn_next.
  - destruct eh; [apply spawn_next|done].
  - unfold debug_disable. by destruct (_ =? 1).
  - unfold unregister_instance. by destruct (negb _).
  - unfold tap_add. by destruct (existsb _ _).
  - by rewrite Hsend.
  - unfold queue_part. destruct q; destruct (holders w !! n) as [[]|]; try done.
    + by destruct (lock w (h_ref h)).
    + destruct (in_shutdown w i); [done|]. cbn. destruct (_ && _); [|done].
      by rewrite (g_next _ _ (tap_message_grows _ _ _ _ _)).
Qed.

Lemma next_mono w l w' : step call w l = Next w' → next_instance_id w <= next_instance_id w'.
Proof.
  assert (∀ i w o, next_shape i w o → ∀ w', o = Next w' → next_instance_id w <= next_instance_id w') as Hsh.
  { intros i w0 o Ho w1 ->. destruct Ho as [Hq|(w2 & Hq & ->)]; [|rewrite next_collect]; apply Hq. }
  destruct l as [i|i|i m|o|n]; cbn [step]; intros Hs.
  - destruct (strand w i) as [|t ts]; [done|]. destruct (insts w !! i) as [x|] eqn:Hx; [|done]. destruct (i_run x); [done|].
    exact (Hsh i _ _ (run_shape call (set_strands w (<[i := ts]> (strands w))) i x _ _ Hx) w' Hs).
  - destruct (insts w !! i) as [x|]; [|done]. destruct (i_run x) as [[r|t|o k]|]; [| | |done].
    + exact (Hsh i _ _ (next_ends_shape _ _ _ (run_ret_ends w i r)) w' Hs).
    + exact (Hsh i _ _ (next_ends_shape _ _ _ (run_catch_ends w i t)) w' Hs).
    + pose proof (exec_next w (Some i) o) as He. destruct (exec w (Some i) o) as [w1 [a|e]]; cbn in He.
      * by injection Hs as <-.
      * pose proof (Hsh i _ _ (next_ends_shape _ _ _ (run_catch_ends w1 i _)) w' Hs). lia.
  - destruct (insts w !! i) as [x|] eqn:Hx; [|done]. destruct (i_run x); [done|]. unfold dispatch_sync in Hs.
    destruct (i_in_shutdown x); [by injection Hs as <-|]. exact (Hsh i _ _ (run_shape call w i x null_handle m Hx) w' Hs).
  - injection Hs as <-. apply exec_next.
  - destruct (holders w !! n) as [[| | |i]|]; try done. injection Hs as <-. by rewrite next_collect.
Qed.

Lemma steps_sound ls : ∀ w w',
  1 <= next_instance_id w → sound w → steps call w ls w' → Forall ok_label ls → next_instance_id w' < 2 ^ 64 →
  sound w' ∧ next_instance_id w <= next_instance_id w'.
Proof.
  induction ls as [|l ls IH]; intros w w' Hw Hs Hsteps Hls Hn; inversion Hsteps as [|? ? w1 ? ? Hstep Hrest]; subst; [done|].
  apply Forall_cons in Hls as [Hl Hls]. pose proof (next_mono w l w1 Hstep) as H1.
  assert (next_instance_id w1 <= next_instance_id w') as Hle.
  { clear -Hrest. induction Hrest as [|w1 l w2 ls w' Hs Hr IHr]; [done|]. pose proof (next_mono w1 l w2 Hs). lia. }
  pose proof (step_sound w l Hs Hl ltac:(unfold is_u64; lia)) as Hs1. rewrite Hstep in Hs1.
  destruct (IH w1 w' ltac:(lia) Hs1 Hrest Hls Hn). split; [done|lia].
Qed.

(** C19: when clients only send arrays that can be printed, given that they only get
    such messages, every message that waits for any instance is one, those of the
    runtime itself included (links, exits, exceptions, taps and errors of sends); no
    step can end the process with an exception, and no task ends because its message
    cannot be matched. *)
Theorem messages_well_formed u ls w :
  steps call (context_create u) ls w → Forall ok_label ls → next_instance_id w < 2 ^ 64 →
  (∀ j t, t ∈ strand w j → message (t_msg t) ∧ returns (is_exit_msg (t_msg t))) ∧
  ∀ l e, ok_label l → step call w l ≠ Terminate e.
Proof.
  intros Hsteps Hls Hn.
  assert (sound (context_create u : world U C)) as H0.
  { split; [split|]; intros j x; unfold strand; cbn; rewrite ?lookup_empty; [done..| |done|done]. by intros ?%elem_of_nil. }
  destruct (steps_sound ls (context_create u) w (Z.le_refl 1) H0 Hsteps Hls Hn) as [Hs Hnx]. cbn in Hnx.
  split.
  - intros j t Ht. destruct Hs as [[] _]. specialize (ty_tasks0 j t Ht). split; [done|by apply exit_msg_returns].
  - intros l e Hl E. pose proof (step_sound w l Hs Hl ltac:(unfold is_u64; lia)) as H.
    by rewrite E in H.
Qed.
End call.

(** C39: an instance that does not trap exits and is not in shutdown, and whose next
    message is a value that is neither an array nor null, so that matching it throws,
    is ended by that message: whether it is an exit message cannot be told, and the
    exception of the match is taken for one of the receiver.  The step ends the
    instance, or leaves it in shutdown while others still hold it. *)
Theorem bad_message_ends call w i x from im lk ts e :
  wf w → insts w !! i = Some x → i_run x = None → i_in_shutdown x = false → i_trap_exit x = false →
  strand w i = Task from (wire im) lk :: ts → item_ok im → array_items im = Throw e →
  ∃ w', step call w (LRun i) = Next w' ∧ (insts w' !! i = None ∨ in_shutdown w' i = true).
Proof.
  intros Hw Hx Hr Hsh Htrap Et Hi He. cbn [step]. rewrite Et, Hx, Hr. cbn [t_from t_msg].
  assert (∀ ps, matches (wire im) ps = Throw e) as Hm.
  { intros ps. rewrite <- (app_nil_r (wire im)), matches_item by (done || constructor). by rewrite He. }
  assert (is_link_msg (wire im) = false) as Hl.
  { unfold is_link_msg. apply bool_decide_false. intros E. specialize (Hm []). rewrite E in Hm. by vm_compute in Hm. }
  assert (ok_thrown (ThrowStd (what e))) as Ht.
  { unfold array_items in He. repeat case_match; try done; injection He as <-; by_decision. }
  unfold run. rewrite Hl, Hsh. unfold run_body. cbv zeta. rewrite Htrap. unfold is_exit_msg. rewrite Hm. cbn [fmap res_fmap].
  set (w1 := do_trace _ _ _ _). unfold run_catch.
  destruct (exit_reason_returns _ (message_catch (ThrowStd (what e)) Ht)) as [err Herr].
  assert ((handle_exit w1 i (catch_message (ThrowStd (what e)))).2 = Ok tt) as E.
  { unfold handle_exit. destruct (insts w1 !! i) as [y|]; [|done]. rewrite Herr. by destruct (i_exit_handlers y). }
  destruct (handle_exit w1 i _) as [w2 r] eqn:Ew. cbn in E. subst r. eexists. split; [reflexivity|].
  assert (wf_but (Some i) w1) as Hw1.
  { eapply wf_grows; [|apply grows_do_trace]. by apply (wf_pop w i (Task from (wire im) lk) ts). }
  apply (run_catch_out w1 i x (ThrowStd (what e))); [done|exact Hx|]. unfold run_catch. by rewrite Ew.
Qed.
End typed.

Lemma client_ok c from m : message m → ok_prog (Client.call c from m).
Proof.
  intros _. destruct c as [|[|[|[|]]]]; cbn.
  - constructor; [by_decision|]. intros a _. constructor; [done|]. intros a' _. by constructor.
  - constructor. apply (message_exit (str "boom")). by_decision.
  - by constructor.
  - constructor; [done|]. intros a _. constructor; [done|]. intros a' _. by constructor.
  - constructor. by_decision.
Qed.

Lemma messages_well_formed_witness :
  let w := Client.go Client.child_gone Client.start in
  message (exit_message (str "boom") []) ∧ Task (self_handle 2) (exit_message (str "boom") []) true ∈ strand w 1.
Proof.
  intros w.
  destruct (messages_well_formed Client.call client_ok tt Client.child_gone w) as [H _].
  - apply Client.go_steps. vm_compute. reflexivity.
  - repeat constructor; try done; by_decision.
  - vm_compute. reflexivity.
  - assert (Task (self_handle 2) (exit_message (str "boom") []) true ∈ strand w 1) as Hin.
    { assert (strand w 1 = [Task (self_handle 2) (exit_message (str "boom") []) true]) as -> by (vm_compute; reflexivity). left. }
    split; [apply (H 1 _ Hin)|exact Hin].
Defined.

Lemma bad_message_ends_witness :
  let w := Client.go (Client.linked ++ [LExtern (OSend (self_handle 1) (wire (IUInt W0 5)))]) Client.start in
  ∃ w', step Client.call w (LRun 1) = Next w' ∧ (insts w' !! 1 = None ∨ in_shutdown w' 1 = true).
Proof.
  intros w.
  apply (bad_message_ends Client.call w 1 (Client.get w 1) null_handle (IUInt W0 5) true []
    (domain_error (str "cbor unexpected type (expected array)"))); try (vm_compute; reflexivity); [|by_decision].
  apply Client.reach_wf. vm_compute. reflexivity.
Defined.
