(* ===== verification/Acts.v ===== *)
(** * One task among others

    A task of an actor of the library, whatever worlds its calls of the API are
    made in: between two calls other instances may do anything but write to the
    actor's own object, which no other instance has a pointer to.  [acts] gives
    the events of the task; [wp] is the weakest precondition of a program over the
    actor's object, with a rule for each command. *)
From S2P Require Import Prelude CborEncode Ieee CborDecode CborGrammar CborMatch CborMatchSpec CppText CborJson Env Instance InstanceInv InstanceStep Actors.

(** What others can see of a task. *)
Inductive event (C : Type) : Type :=
| Sent (h : handle) (m : bytes)
| Asked (c : io_call)
| Spawned (c : closure C) (name : bytes)
| Received (c : closure C).   (** the receiver is set *)
Arguments Sent {C} h m. Arguments Asked {C} c. Arguments Spawned {C} c name. Arguments Received {C} c.

Section projections.
Context {C : Type}.
Implicit Types (tr : list (event C)).

Definition sends_of tr : list (handle * bytes) := omap (λ e, match e with Sent h m => Some (h, m) | _ => None end) tr.
Definition asked_of tr : list io_call := omap (λ e, match e with Asked c => Some c | _ => None end) tr.
Definition spawned_of tr : list (closure C * bytes) :=
  omap (λ e, match e with Spawned c n => Some (c, n) | _ => None end) tr.

Lemma asked_of_asked l tr : asked_of ((Asked <$> l) ++ tr) = l ++ asked_of tr.
Proof. unfold asked_of. induction l as [|c l IH]; cbn; [done|]. by rewrite IH. Qed.
Lemma sends_of_asked l tr : sends_of ((Asked <$> l) ++ tr) = sends_of tr.
Proof. unfold sends_of. by induction l. Qed.
Lemma spawned_of_asked l tr : spawned_of ((Asked <$> l) ++ tr) = spawned_of tr.
Proof. unfold spawned_of. by induction l. Qed.
End projections.

Section acts.
Context {U C : Type}.
Abbreviation program := (prog (heap U) (closure C)).
Abbreviation world := (world (heap U) (closure C)).
Implicit Types (u : heap U) (tr : list (event C)).

(** The events of a call. *)
Definition events_of (o : op (heap U) (closure C)) u : list (event C) :=
  match o with
  | OSend h m | OTrySend h m => [Sent h m]
  | OUser f => Asked <$> drop (length (h_io u)) (h_io (f u))
  | OSpawnLink c name _ => [Spawned c name]
  | OReceive (Some c) => [Received c]
  | _ => []
  end.

(** The object behind [p] and the worlds in which calls are made. *)
Context {A : Type} `{!Stored A, !StoredLaws A} (fine : world → Prop) (i p : Z).

Definition kept u u' : Prop := deref (A := A) p u' = deref p u.

Inductive acts : program → heap U → list (event C) → heap U → result + thrown → Prop :=
| acts_ret r u : acts (Ret r) u [] u (inl r)
| acts_raise t u : acts (Raise t) u [] u (inr t)
| acts_call o k w w' a u1 tr u' r :
    fine w → exec w (Some i) o = (w', Ok a) → kept (user w') u1 → acts (k a) u1 tr u' r →
    acts (Call o k) (user w) (events_of o (user w) ++ tr) u' r
| acts_throw o k w w' e :
    fine w → exec w (Some i) o = (w', Throw e) →
    acts (Call o k) (user w) (events_of o (user w)) (user w') (inr (ThrowStd (what e))).

(** Whatever the task meets, it ends with [Q] of its events, its object and its
    result. *)
Definition wp (m : program) (a : A) (Q : list (event C) → A → result + thrown → Prop) : Prop :=
  ∀ u tr u' r, deref p u = Some a → acts m u tr u' r → ∃ a', deref p u' = Some a' ∧ Q tr a' r.

Lemma wp_ret r a (Q : list (event C) → A → result + thrown → Prop) : Q [] a (inl r) → wp (Ret r) a Q.
Proof. intros HQ u tr u' r' Ha H. inversion H; subst. by exists a. Qed.

Lemma wp_raise t a (Q : list (event C) → A → result + thrown → Prop) : Q [] a (inr t) → wp (Raise t) a Q.
Proof. intros HQ u tr u' r' Ha H. inversion H; subst. by exists a. Qed.

Lemma wp_mono m a (Q Q' : list (event C) → A → result + thrown → Prop) :
  wp m a Q → (∀ tr a' r, Q tr a' r → Q' tr a' r) → wp m a Q'.
Proof. intros H HQ u tr u' r Ha Hr. destruct (H u tr u' r Ha Hr) as (a' & ? & ?). eauto. Qed.

(** A call that does not write to the object. *)
Lemma wp_call o k a (Q : list (event C) → A → result + thrown → Prop) evs :
  (∀ w, fine w → deref p (user w) = Some a →
    events_of o (user w) = evs ∧ deref p (user (exec w (Some i) o).1) = Some a ∧
    match (exec w (Some i) o).2 with
    | Ok b => wp (k b) a (λ tr, Q (evs ++ tr))
    | Throw e => Q evs a (inr (ThrowStd (what e)))
    end) →
  wp (Call o k) a Q.
Proof.
  intros H u tr u' r Ha Hr. inversion Hr as [| |? ? w w' b u1 tr1 ? ? Hf E Hk Hd|? ? w w' e Hf E]; subst;
    destruct (H w Hf Ha) as (He & Hp & HQ); rewrite E in Hp, HQ; cbn in Hp, HQ.
  - destruct (HQ u1 tr1 u' r) as (a' & ? & ?); [by unfold kept in Hk; rewrite Hk|done|]. exists a'. by rewrite He.
  - exists a. by rewrite He.
Qed.

(** A call of the heap, seen from the run. *)
Lemma acts_user f k u tr u' r :
  acts (Call (OUser f) k) u tr u' r →
  ∃ u1 tr1, kept (f u) u1 ∧ acts (k (AnsUser u)) u1 tr1 u' r ∧
    tr = (Asked <$> drop (length (h_io u)) (h_io (f u))) ++ tr1.
Proof.
  intros Hr. inversion Hr as [| |? ? w w' c u1 tr1 ? ? Hfine E Hk Hd|? ? w w' e Hfine E]; subst;
    cbn in E; [|done]. injection E as <- <-. cbn in Hk. by exists u1, tr1.
Qed.

(** ** Commands *)

Lemma wp_user f k a b (Q : list (event C) → A → result + thrown → Prop) evs :
  (∀ u, deref p u = Some a → deref p (f u) = Some b ∧ h_io (f u) = h_io u ++ evs) →
  (∀ u, deref p u = Some a → wp (k (AnsUser u)) b (λ tr, Q ((Asked <$> evs) ++ tr))) →
  wp (Call (OUser f) k) a Q.
Proof.
  intros Hf HQ u tr u' r Ha (u1 & tr1 & Hk & Hd & ->)%acts_user.
  destruct (Hf _ Ha) as [Hb Hio]. destruct (HQ _ Ha u1 tr1 u' r) as (a' & ? & ?); [by unfold kept in Hk; rewrite Hk|done|].
  exists a'. by rewrite Hio, drop_app_length.
Qed.

Lemma wp_load k a (Q : list (event C) → A → result + thrown → Prop) :
  wp (k a) a Q → wp (load p k) a Q.
Proof.
  intros H. apply (wp_user _ _ a a _ []); [intros u Ha; by rewrite app_nil_r|]. intros u Ha. by rewrite Ha.
Qed.

Lemma wp_modify f k a (Q : list (event C) → A → result + thrown → Prop) :
  wp (k tt) (f a) Q → wp (writes (modify p f) k) a Q.
Proof.
  intros H. apply (wp_user _ _ a (f a) _ []); [|by intros].
  intros u Ha. rewrite (modify_store u p a f Ha), deref_store, h_io_store, app_nil_r. done.
Qed.

Lemma wp_performs l k a (Q : list (event C) → A → result + thrown → Prop) :
  wp (k tt) a (λ tr, Q ((Asked <$> l) ++ tr)) → wp (performs l k) a Q.
Proof.
  intros H. apply (wp_user _ _ a a _ l); [|by intros]. intros u Ha. by rewrite deref_io.
Qed.

(** A send throws only where the message cannot be matched. *)
Lemma send_returns w cur h m v e :
  matches m [PStr (str "exit"); PMore] = Ok v → (handle_send_raw (w : world) cur h m).2 ≠ Throw e.
Proof.
  intros Hm. assert (∀ (w : world) from, deadsend w cur m from ≠ Throw e) as Hd.
  { intros w0 from. unfold deadsend. destruct cur; [|done]. rewrite Hm. by destruct (in_shutdown _ _). }
  unfold handle_send_raw, send_raw, queue. destruct (lock w (h_ref h)); [|apply Hd]. cbv zeta.
  destruct (in_shutdown _ _); [apply Hd|done].
Qed.

Lemma wp_sends h m k a v (Q : list (event C) → A → result + thrown → Prop) :
  matches m [PStr (str "exit"); PMore] = Ok v →
  (∀ r, wp (k r) a (λ tr, Q (Sent h m :: tr))) → wp (sends h m k) a Q.
Proof.
  intros Hm HQ. apply (wp_call _ _ _ _ [Sent h m]). intros w _ Ha. cbn. unfold ans_map. cbn [fst snd].
  split_and!; [done| |].
  - by rewrite (g_user _ _ (handle_send_grows w (Some i) h m)).
  - pose proof (send_returns w (Some i) h m v) as Hr. destruct (handle_send_raw _ _ _ _).2 as [r|e]; cbn; [apply HQ|].
    by destruct (Hr e Hm).
Qed.

(** What a send that is tried may give in a world. *)
Lemma wp_tries_send h m k a (Q : list (event C) → A → result + thrown → Prop) :
  (∀ w, fine w → wp (k (handle_send_raw w (Some i) h m).2) a (λ tr, Q (Sent h m :: tr))) →
  wp (tries_send h m k) a Q.
Proof.
  intros HQ. apply (wp_call _ _ _ _ [Sent h m]). intros w Hw Ha. cbn.
  pose proof (HQ w Hw) as H. pose proof (g_user _ _ (handle_send_grows w (Some i) h m)) as Hu.
  destruct (handle_send_raw w (Some i) h m) as [w' r]. cbn in *. by rewrite Hu.
Qed.

Lemma wp_instance_name h k a (Q : list (event C) → A → result + thrown → Prop) :
  (∀ w, fine w → wp (k (AnsBytes (name_of w (h_ref h)))) a Q) → wp (Call (OInstanceName h) k) a Q.
Proof. intros HQ. apply (wp_call _ _ _ _ []). intros w Hw Ha. cbn. split_and!; [done..|]. by apply HQ. Qed.

Lemma wp_get_names k a (Q : list (event C) → A → result + thrown → Prop) :
  (∀ w, fine w → wp (k (AnsBytes (get_names w))) a Q) → wp (Call OGetNames k) a Q.
Proof. intros HQ. apply (wp_call _ _ _ _ []). intros w Hw Ha. cbn. split_and!; [done..|]. by apply HQ. Qed.

(** Calls that only answer, or change the registry or the taps. *)
Lemma wp_get_name name k a (Q : list (event C) → A → result + thrown → Prop) :
  (∀ h, wp (k (AnsHandle h)) a Q) → wp (Call (OGetName name) k) a Q.
Proof. intros HQ. apply (wp_call _ _ _ _ []). intros w Hw Ha. cbn. split_and!; [done..|]. apply HQ. Qed.

Lemma wp_expired h k a (Q : list (event C) → A → result + thrown → Prop) :
  (∀ b, wp (k (AnsBool b)) a Q) → wp (Call (OExpired h) k) a Q.
Proof. intros HQ. apply (wp_call _ _ _ _ []). intros w Hw Ha. cbn. split_and!; [done..|]. apply HQ. Qed.

Lemma wp_tap_add name h k a (Q : list (event C) → A → result + thrown → Prop) :
  wp (k AnsUnit) a Q → wp (Call (OTapAdd name h) k) a Q.
Proof.
  intros HQ. apply (wp_call _ _ _ _ []). intros w Hw Ha. cbn. split_and!; [done| |done].
  unfold tap_add. by destruct (existsb _ _).
Qed.

Lemma wp_tap_remove name h k a (Q : list (event C) → A → result + thrown → Prop) :
  (∀ b, wp (k (AnsBool b)) a Q) → wp (Call (OTapRemove name h) k) a Q.
Proof. intros HQ. apply (wp_call _ _ _ _ []). intros w Hw Ha. cbn. split_and!; [done..|]. apply HQ. Qed.

(** ** Spawning *)

Lemma register_user w h : user (register_instance (w : world) h) = user w.
Proof. unfold register_instance. repeat case_match; done. Qed.

Lemma schedule_user w cur j h : is_Some (insts (w : world) !! j) → user (schedule w cur j h).1 = user w.
Proof.
  intros Hj. unfold schedule. pose proof (g_user _ _ (queue_grows w cur j null_handle null_value Hj)) as Hu.
  destruct (queue _ _ _ _ _) as [w' [[]|]]; cbn in *; [done| |done]. by rewrite register_user.
Qed.

Lemma spawn_user w cur b eh name lnk e : user (spawn (w : world) cur b eh name lnk e).1 = user w.
Proof.
  unfold spawn. cbv zeta. set (w1 := do_trace _ _ _ _).
  assert (is_Some (insts w1 !! next_instance_id w)) as Hi by (unfold w1; cbn; rewrite lookup_insert_eq; eauto).
  assert (user w1 = user w) as Hu by done. destruct (expired w1 lnk); [by rewrite schedule_user|].
  pose proof (queue_grows w1 cur _ (make_handle w1 lnk) link_msg Hi) as Hg.
  destruct (queue _ _ _ _ _) as [w2 [[]|]]; cbn in *; [by rewrite (g_user _ _ Hg)| |by rewrite (g_user _ _ Hg)].
  rewrite schedule_user; [by rewrite (g_user _ _ Hg)|]. by rewrite (g_insts _ _ Hg).
Qed.

(** A running instance always spawns. *)
Lemma spawn_link_returns w j b name e :
  wf (w : world) → user (spawn_link w j b name e).1 = user w ∧
  (spawn_link w j b name e).2 = Ok (inl (self_handle (next_instance_id w))).
Proof.
  intros Hw. unfold spawn_link. pose proof (spawn_spec w (Some j) b None name (Some j) e Hw) as H.
  pose proof (spawn_user w (Some j) b None name (Some j) e) as Hu. cbv zeta in H.
  destruct (spawn _ _ _ _ _ _ _) as [w' r]. by destruct H as (-> & _).
Qed.

Lemma wp_spawns_link c name k a (Q : list (event C) → A → result + thrown → Prop) :
  (∀ w, fine w → wf w ∧ caller w (Some i)) →
  (∀ h, wp (k (inl h)) a (λ tr, Q (Spawned c name :: tr))) → wp (spawns_link c name k) a Q.
Proof.
  intros Hfine HQ. apply (wp_call _ _ _ _ [Spawned c name]). intros w Hw Ha. split; [done|].
  destruct (Hfine w Hw) as [Hwf Hc]. destruct (Hc i eq_refl) as (x & Hx & _). cbn. rewrite Hx. cbn. unfold ans_map. cbn.
  destruct (spawn_link_returns w i c name (i_env x) Hwf) as [-> ->]. split; [done|]. apply HQ.
Qed.

(** ** The runtime acts this way *)

Context (call : closure C → handle → bytes → program).

Definition running (w : world) (q : program) : Prop := ∃ x, insts w !! i = Some x ∧ i_run x = Some q.

(** Steps during which the instance is at work on one task, others keep off its
    object, and no send races an exit. *)
Inductive at_work : world → list (label (heap U) (closure C)) → world → Prop :=
| at_work_nil w : at_work w [] w
| at_work_own w o k w1 ls w' q :
    fine w → running w (Call o k) → races w (LStep i) = false → step call w (LStep i) = Next w1 → running w1 q →
    at_work w1 ls w' →
    at_work w (LStep i :: ls) w'
| at_work_other w l w1 ls w' :
    l ≠ LStep i → races w l = false → step call w l = Next w1 → kept (user w) (user w1) → at_work w1 ls w' →
    at_work w (l :: ls) w'.

Lemma run_end_rests (w : world) q : ¬ running (run_end w i) q.
Proof.
  intros (x & Hx & Hr). unfold run_end, collect in Hx. set (w0 := if in_shutdown w i then _ else _) in Hx.
  destruct (insts (upd w0 i cleanup) !! i) as [y|] eqn:Hy; [|congruence].
  assert (i_run y = None) as Hn.
  { rewrite lookup_upd in Hy. destruct (insts w0 !! i); [|done]. by injection Hy as <-. }
  destruct (held _ i y); [congruence|]. unfold destroy in Hx.
  repeat match goal with
  | Hx : context [if ?b then _ else _] |- _ => destruct b
  | Hx : context [match ?b with Some _ => _ | None => _ end] |- _ => destruct b
  end; cbn in Hx; by rewrite lookup_delete_eq in Hx.
Qed.

(** A step by the instance itself is one call that returns. *)
Lemma instance_own_step (w w1 : world) o k q :
  running w (Call o k) → step call w (LStep i) = Next w1 → running w1 q →
  ∃ w2 a, exec w (Some i) o = (w2, Ok a) ∧ q = k a ∧ user w1 = user w2.
Proof.
  intros (x & Hx & Hr) Hs Hq. cbn [step] in Hs. rewrite Hx, Hr in Hs.
  destruct (exec w (Some i) o) as [w2 [a|e]].
  - injection Hs as <-. exists w2, a. destruct Hq as (y & Hy & Hry). rewrite lookup_upd in Hy.
    destruct (insts w2 !! i); [|done]. injection Hy as <-. cbn in Hry. by injection Hry as <-.
  - unfold run_catch in Hs. destruct (handle_exit _ _ _) as [w3 [|]]; [|done]. injection Hs as <-.
    by apply run_end_rests in Hq.
Qed.

(** A step by another instance leaves the task as it is. *)
Lemma other_step (w w1 : world) l q :
  wf w → l ≠ LStep i → races w l = false → step call w l = Next w1 → running w q → running w1 q.
Proof.
  intros Hw Hl Hrace Hs (x & Hx & Hr). destruct (decide (actor l = Some i)) as [Ha|Ha].
  - destruct l as [j|j|j m|o|n]; cbn in Ha; [|congruence| |done|done]; injection Ha as ->;
      cbn [step] in Hs; rewrite Hx, Hr in Hs; [by destruct (strand w i)|done].
  - destruct (step_shape call w l w1 Hw Hrace Hs) as [Hq|(j & Hj & _ & w2 & Hq & ->)].
    + destruct (q_insts _ _ _ Hq i x) as (x' & Hx' & Hk); [by destruct l|]. exists x'.
      split; [done|]. rewrite (proj1 (Hk (not_eq_sym Ha))). done.
    + destruct (q_insts _ _ _ Hq i x) as (x' & Hx' & Hk); [by destruct l|].
      assert (i_run x' = Some q) as Hr' by by rewrite (proj1 (Hk (not_eq_sym Ha))).
      exists x'. split; [|done]. destruct (decide (j = i)) as [->|]; [|by rewrite collect_other].
      rewrite (collect_held w2 i x' Hx'); [done|]. unfold held. rewrite Hr', (bool_decide_true (is_Some _)) by eauto.
      by rewrite orb_true_r.
Qed.

(** From the start of a task to its last step, the runtime does what [acts] says. *)
Lemma at_work_acts w ls w' q r :
  wf w → at_work w ls w' → running w q → running w' (Ret r) →
  ∃ u tr u', kept (user w) u ∧ acts q u tr u' (inl r) ∧ kept u' (user w').
Proof.
  intros Hw H. revert q. induction H as [w|w o k w1 ls w' q1 Hf Hr Hrace Hs Hr1 _ IH|w l w1 ls w' Hl Hrace Hs Hk _ IH];
    intros q Hq Hret.
  - destruct Hq as (x & Hx & Hq), Hret as (y & Hy & Hy'). simplify_eq.
    exists (user w), [], (user w). by split_and!; [|constructor|].
  - pose proof (step_ok call w (LStep i) Hw Hrace) as Hw1. rewrite Hs in Hw1.
    assert (q = Call o k) as -> by (destruct Hq as (? & ? & ?), Hr as (? & ? & ?); by simplify_eq).
    destruct (instance_own_step w w1 o k q1 Hr Hs Hr1) as (w2 & a & E & -> & Hu).
    destruct (IH Hw1 (k a) Hr1 Hret) as (u & tr & u' & K1 & Ha & K2).
    exists (user w), (events_of o (user w) ++ tr), u'. split_and!; [done| |done].
    apply (acts_call o k w w2 a u); [done|done|by rewrite <- Hu|done].
  - pose proof (step_ok call w l Hw Hrace) as Hw1. rewrite Hs in Hw1.
    destruct (IH Hw1 q) as (u & tr & u' & K1 & Ha & K2); [exact (other_step w w1 l q Hw Hl Hrace Hs Hq)|exact Hret|].
    exists u, tr, u'. split_and!; [|done|done]. unfold kept in *. by rewrite K1.
Qed.
End acts.
