(* ===== verification/Hub.v ===== *)
(** * The hub ([src/src/hub.cpp])

    A hub is an actor that passes every broadcast message on to its
    subscribers.  A subscription is a message to the hub; one with a filter goes
    through a queue, shared by the hub and its handles, under a lock. *)
From S2P Require Import Prelude CborEncode Ieee CborDecode CborMatch Env Instance Actors.

Section hub.
Context {U C : Type}.
Abbreviation program := (prog (heap U) (closure C)).

(** [subscribe_queue::push]: the filter is queued and the message is sent under
    the lock of the queue. *)
Definition push (q : Z) (from : handle) (f : filter) : program :=
  Call (OLockedSend (modify q (λ l, l ++ [f])) from (cbor_array [AString (str "subscribe_filtered")]))
    (λ a, match a with AnsResult r => Ret r | _ => impossible end).

(** [subscribe_queue::pop]: the first filter.  On an empty queue the behaviour of
    [deque::front] is undefined: [undefined] stands for anything. *)
Definition pop (undefined : program) (q : Z) : cmd (U := U) (C := C) filter := λ k,
  Call (OUser (modify q (λ l : list filter, drop 1 l)))
    (λ a, match a with
          | AnsUser h => match deref (A := list filter) q h with
                         | Some (f :: _) => k f
                         | _ => undefined
                         end
          | _ => impossible
          end).

(** [s.second(msg)]; the filter of [subscribe_messages] looks the tag up. *)
Definition apply_filter (f : filter) (m : bytes) : res bool :=
  match f with
  | no_filter => Ok true
  | user_filter f => f m
  | message_filter msgs =>
      v ← matches m [PExtract XString; PMore];
      Ok (match v with Some [CString tag] => bool_decide (tag ∈ msgs) | _ => false end)
  end.

(** The loop over the subscribers. *)
Fixpoint deliver (msg : bytes) (subs : list (handle * filter)) : program :=
  match subs with
  | [] => Ret None
  | (h, f) :: subs =>
      let! pass := attempt (apply_filter f msg) in
      if pass then let! _ := sends h msg in deliver msg subs else deliver msg subs
  end.

Definition subscribe_as (p : Z) (from : handle) (f : filter) : program :=
  writes (modify p (λ s, HubImpl (subscribers_ s ++ [(from, f)]) (q_ s)));; Ret None.

(** [hub_impl::receive] *)
Definition hub_receive (undefined : program) (p : Z) (from : handle) (msg : bytes) : program :=
  if_match msg [PStr (str "broadcast"); PType t_array]
    (λ _, let! s := load (A := hub_impl) p in deliver (drop 11 msg) (subscribers_ s)) $
  if_match msg [PStr (str "subscribe")] (λ _, subscribe_as p from no_filter) $
  if_match msg [PStr (str "subscribe_filtered")]
    (λ _, let! s := load (A := hub_impl) p in
          let! f := pop undefined (q_ s) in subscribe_as p from f) $
  if_match msg [PStr (str "subscribe_messages"); PExtract XRange]
    (λ c, match c with
          | [CRange r] =>
              let! msgs := attempt (range_values get_string r) in
              subscribe_as p from (message_filter (list_to_set msgs))
          | _ => impossible
          end) $
  (** a request to listen is served and then found unexpected *)
  let rest :=
    if_match msg [PStr (str "shutdown")] (λ _, Ret (exit_ (Some (str "shutdown", [])))) $
    let! r := attempt (unexpected msg) in Ret r in
  if_match msg [PStr (str "listen"); PExtract XString]
    (λ c, match c with
          | [CString desc] =>
              let! owner := self in
              let! _ := spawns_link (AcceptorStart (UnxAddr desc mode_abstract) owner)
                          (str "endpoint::unx::acceptor") in
              rest
          | _ => impossible
          end)
    rest.

(** The behaviour of [hub::create]. *)
Definition hub_start (q : Z) : program :=
  let! p := new (HubImpl [] q) in
  receives (HubReceive p);; Ret None.

(** ** The handle *)

(** [hub::create]: the queue, and the hub linked to its creator. *)
Definition hub_create (name : bytes) (k : handle * Z + bytes → program) : program :=
  let! q := new (A := list filter) [] in
  let! r := spawns_link (HubStart q) name in
  k (match r with inl h => inl (h, q) | inr e => inr e end).

(** [hub::broadcast]: the values go as an array of their own. *)
Definition broadcast_msg (b : bytes) : bytes :=
  cbor_array [AString (str "broadcast"); ACbor b].
Definition hub_broadcast (hub : handle) (parms : list arg) : cmd (U := U) (C := C) result :=
  sends hub (broadcast_msg (cbor_array parms)).

Definition hub_subscribe (hub : handle) : program :=
  links hub;;
  let! r := sends hub (cbor_array [AString (str "subscribe")]) in Ret r.

Definition hub_subscribe_filtered (hub : handle) (q : Z) (f : filter) : program :=
  links hub;; push q hub f.

Definition hub_listen (hub : handle) (desc : bytes) : cmd (U := U) (C := C) result :=
  sends hub (cbor_array [AString (str "listen"); AString desc]).
Definition hub_shutdown (hub : handle) : cmd (U := U) (C := C) result :=
  sends hub (cbor_array [AString (str "shutdown")]).
End hub.
