(* ===== verification/Endpoint.v ===== *)
(** * Endpoints ([src/src/instance.cpp], namespace [endpoint])

    An endpoint connection carries messages between two processes: it writes
    every message it is sent to its socket, and cuts what it reads from the
    socket into CBOR values, which it sends to its owner.  A connector makes a
    connection, with retries; an acceptor spawns one per client. *)
From S2P Require Import Prelude CborEncode Ieee CborDecode CborMatch CppText CborJson Env Instance Actors.

Section endpoint.
Context {U C : Type}.
Abbreviation program := (prog (heap U) (closure C)).
Abbreviation cmd := (cmd (U := U) (C := C)).

(** ** Connections *)

Definition set_read_buf (v : bytes) (c : connection) : connection :=
  Connection (c_s c) (c_owner c) v (c_tag c) (c_write_pending c) (c_close_on_write_complete c) (c_trace_enabled c).
Definition set_write_pending (v : bool) (c : connection) : connection :=
  Connection (c_s c) (c_owner c) (c_read_buf c) (c_tag c) v (c_close_on_write_complete c) (c_trace_enabled c).
Definition set_close_on_write_complete (c : connection) : connection :=
  Connection (c_s c) (c_owner c) (c_read_buf c) (c_tag c) (c_write_pending c) true (c_trace_enabled c).

(** [ss << this]: the address in hexadecimal. *)
Fixpoint hex_f (fuel : nat) (n : Z) (acc : bytes) : bytes :=
  match fuel with
  | O => acc
  | S fuel => let acc := hex_digit (n mod 16) :: acc in if n <? 16 then acc else hex_f fuel (n / 16) acc
  end.
Definition pointer_text (p : Z) : bytes := str "0x" ++ hex_f 16 p [].

(** [trace(parms...)] *)
Definition conn_trace (p : Z) (parms : list arg) : cmd unit := λ k,
  let! c := load (A := connection) p in
  if c_trace_enabled c
  then Call (OTraceRaw (AString (c_tag c) :: AString (pointer_text p) :: parms)) (λ _, k tt)
  else k tt.

Definition conn_read (p : Z) : cmd unit := λ k,
  conn_trace p [AString (str "read")];;
  let! c := load (A := connection) p in performs [IoSocketRead (c_s c)];; k tt.

Definition conn_write (p : Z) (buf : bytes) : cmd unit := λ k,
  writes (modify p (set_write_pending true));;
  conn_trace p [AString (str "write"); ACbor buf];;
  let! c := load (A := connection) p in performs [IoSocketWrite (c_s c) buf];; k tt.

Definition conn_close (p : Z) : cmd unit := λ k,
  writes (modify p set_close_on_write_complete);;
  let! c := load (A := connection) p in
  if c_write_pending c then k tt
  else conn_trace p [AString (str "close")];; performs [IoSocketClose (c_s c)];; k tt.

(** The loop over the values in [read_buf].  A [domain_error] in its body leaves
    it, also one that the send of a message throws. *)
Fixpoint read_frames (fuel : nat) (p : Z) : cmd unit := λ k,
  let! c := load (A := connection) p in
  let buf := c_read_buf c in
  if bool_decide (buf = []) then k tt
  else match fuel with
  | O => impossible
  | S fuel =>
      match extract_range buf with
      | Throw (domain_error _) => k tt
      | Throw e => Raise (ThrowStd (what e))
      | Ok (msg, rest) =>
          let forward :=
            let! r := tries_send (c_owner c) (take (length buf - length rest) buf) in
            match r with
            | Throw _ => k tt
            | Ok ret =>
                writes (modify p (set_read_buf rest));;
                match ret with
                | None => read_frames fuel p k
                | Some _ => conn_close p;; read_frames fuel p k
                end
            end in
          match msg with
          | Some _ => forward
          | None =>
              let! r := tries_send (c_owner c) (exit_message (str "framing_error") []) in
              match r with Throw _ => k tt | Ok _ => conn_close p;; forward end
          end
      end
  end.

(** [connection::receive] *)
Definition connection_receive (p : Z) (from : handle) (m : bytes) : program :=
  let! c := load (A := connection) p in
  let tag := c_tag c in
  if_match m [PStr (str "socket"); PStr tag; PStr (str "read_error"); PExtract int_target; PExtract XString]
    (λ cs, match cs with
           | [_; CString err_msg] =>
               let! _ := sends (c_owner c) (exit_message (str "read_error") [AString err_msg]) in
               conn_close p;; Ret None
           | _ => impossible
           end) $
  if_match m [PStr (str "socket"); PStr tag; PStr (str "read_complete"); PExtract XString]
    (λ cs, match cs with
           | [CString data] =>
               if bool_decide (data = []) then conn_close p;; Ret None
               else
                 writes (modify p (λ c, set_read_buf (c_read_buf c ++ data) c));;
                 read_frames (length (c_read_buf c ++ data)) p;;
                 conn_read p;; Ret None
           | _ => impossible
           end) $
  if_match m [PStr (str "socket"); PStr tag; PStr (str "write_error"); PExtract int_target; PExtract XString]
    (λ cs, match cs with
           | [_; CString err_msg] =>
               let! _ := sends (c_owner c) (exit_message (str "write_error") [AString err_msg]) in
               conn_close p;; Ret None
           | _ => impossible
           end) $
  if_match m [PStr (str "socket"); PStr tag; PStr (str "write_complete"); PExtract int_target]
    (λ _, writes (modify p (set_write_pending false));;
          if c_close_on_write_complete c then conn_close p;; Ret None else Ret None) $
  if_match m [PStr (str "socket"); PStr tag; PStr (str "closed")]
    (λ _, Ret (exit_ (Some (str "closed", [])))) $
  let! e := attempt (is_exit_msg m) in
  if e then conn_write p m;; conn_close p;; Ret None
  else conn_write p m;; Ret None.

(** The constructor. *)
Definition connection_new (fd : Z) (owner : handle) (tag : bytes) : cmd Z := λ k,
  let! s := creates (λ s, IoSocketCreate s tag fd) in
  Call (OEnv (λ e, e)) (λ a, match a with
  | AnsEnv e =>
      let! p := new (Connection s owner [] tag false false (enabled e ch_endpoint)) in
      conn_read p;; k p
  | _ => impossible
  end).

(** [connection::start] and its behaviour. *)
Definition connection_behaviour (fd : Z) (owner : handle) (tag : bytes) : program :=
  links owner;; traps true;;
  let! p := connection_new fd owner tag in
  receives (ConnectionReceive p);; Ret None.
Definition connection_start (fd : Z) (owner : handle) (tag : bytes) : cmd (handle + bytes) :=
  spawns (ConnectionStart fd owner tag) tag.

Definition connection_attach (fd : Z) (owner : handle) (tag : bytes) : cmd unit := λ k,
  Call (ORename tag) (λ _,
    let! p := connection_new fd owner tag in
    receives (ConnectionReceive p);; k tt).

(** ** Connectors *)

Definition tcp_connector_tag : bytes := str "endpoint::tcp::connector".
Definition unx_connector_tag : bytes := str "endpoint::unx::connector".
Definition connector_tag (a : addr) : bytes :=
  match a with TcpAddr _ _ => tcp_connector_tag | UnxAddr _ _ => unx_connector_tag end.

(** The constructor: the first attempt. *)
Definition connector_new (a : addr) (owner : handle) (retry_time retry_count : Z) : cmd Z := λ k,
  let! c := creates (λ c, IoConnectorCreate c (connector_tag a)) in
  let! p := new (Connector c owner 1 a retry_time retry_count None) in
  performs [IoConnect c a];; k p.

(** [connection_count++; retry_timeout = create_timeout(...); retry_time *= 2]:
    the old timeout goes when the new one is assigned.  [milliseconds] and
    [microseconds] are [int64_t]; their overflow is undefined, and [s64] is what
    two's complement arithmetic makes of it. *)
Definition connector_retry (p : Z) (tag : bytes) : cmd unit := λ k,
  writes (modify p (λ s, Connector (k_c s) (k_owner s) (u64 (k_connection_count s + 1)) (k_addr s)
                           (k_retry_time s) (k_retry_count s) (k_retry_timeout s)));;
  let! s := load (A := connector) p in
  let! t := creates (λ t, IoTimeoutCreate t (s64 (k_retry_time s * 1000))
              (cbor_array [AString (str "connector"); AString tag; AString (str "retry")])) in
  performs (match k_retry_timeout s with Some old => [IoTimeoutDestroy old] | None => [] end);;
  writes (modify p (λ s, Connector (k_c s) (k_owner s) (k_connection_count s) (k_addr s)
                           (s64 (k_retry_time s * 2)) (k_retry_count s) (Some t)));;
  k tt.

(** What both kinds do with every message but [connected]. *)
Definition connector_rest (p : Z) (tag m : bytes) : program :=
  let! s := load (A := connector) p in
  if_match m [PStr (str "connector"); PStr tag; PStr (str "cancelled")]
    (λ _, Ret (exit_ (Some (str "cancelled", [])))) $
  if_match m [PStr (str "connector"); PStr tag; PStr (str "error"); PExtract int_target; PExtract XString]
    (λ cs, match cs with
           | [_; CString data] =>
               if k_retry_count s <? k_connection_count s
               then Ret (exit_ (Some (str "connect_error", [AString data])))
               else connector_retry p tag;; Ret None
           | _ => impossible
           end) $
  if_match m [PStr (str "connector"); PStr tag; PStr (str "retry")]
    (λ _, performs [IoConnect (k_c s) (k_addr s)];; Ret None) $
  let! e := attempt (is_exit_msg m) in
  if e then performs [IoConnectorCancel (k_c s)];; Ret None
  else let! r := attempt (unexpected m) in Ret r.

(** [tcp::connector::receive] *)
Definition tcp_connector_receive (p : Z) (from : handle) (m : bytes) : program :=
  let! s := load (A := connector) p in
  let tag := tcp_connector_tag in
  if_match m [PStr (str "connector"); PStr tag; PStr (str "connected"); PExtract int_target]
    (λ cs, match cs with
           | [CInt fd] =>
               let! ret := sends (k_owner s) (cbor_array [AString (str "connected")]) in
               match ret with
               | Some e => Ret (Some e)
               | None => connection_attach fd (k_owner s) (str "endpoint::tcp::active");; Ret None
               end
           | _ => impossible
           end)
    (connector_rest p tag m).

(** [unx::connector::receive]: the timeout is cancelled, and the descriptor is
    closed when the owner is gone. *)
Definition unx_connector_receive (p : Z) (from : handle) (m : bytes) : program :=
  let! s := load (A := connector) p in
  let tag := unx_connector_tag in
  if_match m [PStr (str "connector"); PStr tag; PStr (str "connected"); PExtract int_target]
    (λ cs, match cs with
           | [CInt fd] =>
               performs (match k_retry_timeout s with Some t => [IoTimeoutCancel t] | None => [] end);;
               let! ret := sends (k_owner s) (cbor_array [AString (str "connected")]) in
               match ret with
               | Some e => performs [IoCloseFd fd];; Ret (Some e)
               | None => connection_attach fd (k_owner s) (str "endpoint::unx::active");; Ret None
               end
           | _ => impossible
           end)
    (connector_rest p tag m).

(** The behaviour of [connector::connect]. *)
Definition connector_behaviour (a : addr) (owner : handle) (retry_time retry_count : Z) : program :=
  traps true;;
  let! p := connector_new a owner retry_time retry_count in
  receives (match a with
            | TcpAddr _ _ => TcpConnectorReceive p
            | UnxAddr _ _ => UnxConnectorReceive p
            end);; Ret None.

(** [endpoint::tcp::connect] and [endpoint::unx::connect]. *)
Definition connect (a : addr) (retry_time retry_count : Z) : cmd (handle + bytes) := λ k,
  let! owner := self in
  let! r := spawns_link (ConnectorStart a owner retry_time retry_count) (connector_tag a) in k r.

(** ** Acceptors *)

Definition tcp_acceptor_tag : bytes := str "endpoint::tcp::acceptor".
Definition unx_acceptor_tag : bytes := str "endpoint::unx::acceptor".
Definition acceptor_tag (a : addr) : bytes :=
  match a with TcpAddr _ _ => tcp_acceptor_tag | UnxAddr _ _ => unx_acceptor_tag end.

(** [tcp::acceptor::receive] *)
Definition tcp_acceptor_receive (p : Z) (from : handle) (m : bytes) : program :=
  let! s := load (A := acceptor) p in
  let tag := tcp_acceptor_tag in
  if_match m [PStr (str "acceptor"); PStr tag; PStr (str "accept"); PExtract int_target]
    (λ cs, match cs with
           | [CInt fd] =>
               let! _ := connection_start fd (a_owner s) (str "endpoint::tcp::passive") in Ret None
           | _ => impossible
           end) $
  if_match m [PStr (str "acceptor"); PStr tag; PStr (str "closed")]
    (λ _, Ret (exit_ (Some (str "closed", [])))) $
  if_match m [PStr (str "acceptor"); PStr tag; PStr (str "error"); PExtract int_target; PExtract XString]
    (λ cs, match cs with
           | [_; CString err] => Ret (exit_ (Some (str "listen_error", [AString err])))
           | _ => impossible
           end) $
  if_match m [PStr (str "ping")]
    (λ _, let! r := sends from (cbor_array [AString (str "pong")]) in Ret r) $
  if_match m [PStr (str "get"); PStr (str "port")]
    (λ _, let! r := sends from (cbor_array [AString (str "port"); AUInt (a_listen_port s)]) in Ret r) $
  let! e := attempt (is_exit_msg m) in
  if e then performs [IoAcceptorClose (a_a s)];; Ret None
  else let! r := attempt (unexpected m) in Ret r.

(** [unx::acceptor::receive] *)
Definition unx_acceptor_receive (p : Z) (from : handle) (m : bytes) : program :=
  let! s := load (A := acceptor) p in
  let tag := unx_acceptor_tag in
  if_match m [PStr (str "acceptor"); PStr tag; PStr (str "accept"); PExtract int_target]
    (λ cs, match cs with
           | [CInt fd] =>
               let! _ := connection_start fd (a_owner s) (str "endpoint::unx::passive") in Ret None
           | _ => impossible
           end) $
  if_match m [PStr (str "acceptor"); PStr tag; PStr (str "closed")]
    (λ _, Ret (exit_ (Some (str "closed", [])))) $
  if_match m [PStr (str "acceptor"); PStr tag; PStr (str "error"); PExtract int_target; PExtract XString]
    (λ cs, match cs with
           | [_; CString err] => Ret (exit_ (Some (str "listen_error", [AString err])))
           | _ => impossible
           end) $
  if_match m [PStr (str "ping")]
    (λ _, let! r := sends from (cbor_array [AString (str "pong")]) in Ret r) $
  if_match m [PStr (str "get"); PStr (str "path")]
    (λ _, let! r := sends from (cbor_array [AString (str "path"); AString (a_listen_path s)]) in Ret r) $
  let! e := attempt (is_exit_msg m) in
  if e then performs [IoAcceptorClose (a_a s)];; Ret None
  else let! r := attempt (unexpected m) in Ret r.

(** The behaviour of [acceptor::start]; [bound_port] is what [listen] of the
    acceptor object returns. *)
Definition acceptor_behaviour (bound_port : Z → addr → Z) (a : addr) (owner : handle) : program :=
  traps true;;
  let! o := creates (λ o, IoAcceptorCreate o (acceptor_tag a)) in
  match a with
  | TcpAddr _ _ =>
      performs [IoListen o a];;
      let! p := new (Acceptor o owner (bound_port o a) []) in
      receives (TcpAcceptorReceive p);; Ret None
  | UnxAddr path _ =>
      let! p := new (Acceptor o owner 0 path) in
      performs [IoListen o a];;
      receives (UnxAcceptorReceive p);; Ret None
  end.

(** [endpoint::tcp::listen] and [endpoint::unx::listen]. *)
Definition listen (a : addr) : cmd (handle + bytes) := λ k,
  let! owner := self in
  let! r := spawns_link (AcceptorStart a owner) (acceptor_tag a) in k r.
End endpoint.
