(* ===== verification/Debug.v ===== *)
(** * The debug server ([src/src/instance.cpp], namespace [debug::tcp])

    A debug connection is an actor that reads lines from a socket: a line of
    text names an actor and holds a message for it in JSON; a line that starts
    with a brace is a command in JSON, answered with a line of JSON that carries
    the [id] of the command. *)
From S2P Require Import Prelude CborEncode Ieee CborDecode CborMatch CppText CborJson Env Instance Actors Endpoint.

(** ** Fields of a command *)

(** The values of a map by their keys, the last one of a key. *)
Fixpoint fields_loop (fuel : nat) (it : value_iterator) (fields : gmap bytes bytes)
  : res (gmap bytes bytes) :=
  if vi_more it then
    match fuel with
    | O => Throw out_of_fuel
    | S fuel =>
        key ← vi_deref it;
        t ← type_of key;
        if decide (t = t_string) then
          k ← get_string key;
          it ← vi_next it;
          if vi_more it then
            it' ← vi_next it;
            fields_loop fuel it'
              (<[k := take (length (vi_b it) - length (vi_b it')) (vi_b it)]> fields)
          else Ok fields
        else Throw (domain_error (str "command keys must be strings"))
    end
  else Ok fields.

Definition get_fields (cmd : bytes) : res (gmap bytes bytes) :=
  t ← type_of cmd;
  if decide (t = t_map) then
    it ← vi_begin cmd;
    fields_loop (S (length cmd)) it ∅
  else Throw (domain_error (str "command must be a JSON object")).

Definition require (f : gmap bytes bytes) (k : bytes) : res bytes :=
  match f !! k with Some v => Ok v | None => Throw (domain_error (str "missing field: " ++ k)) end.

Definition require_string (f : gmap bytes bytes) (k : bytes) : res bytes :=
  v ← require f k;
  t ← type_of v;
  if decide (t = t_string) then get_string v
  else Throw (domain_error (str "field must be a string: " ++ k)).

(** A number that comes from JSON is one of 64 bits with its sign. *)
Definition optional_int (f : gmap bytes bytes) (k : bytes) (def : Z) : res Z :=
  match f !! k with
  | None => Ok def
  | Some v =>
      t ← type_of v;
      if decide (t = t_number) then
        '(i, _) ← extract_int (- 2 ^ 63) (2 ^ 63 - 1) v; Ok (default 0 i)
      else Throw (domain_error (str "field must be a number: " ++ k))
  end.

Section debug.
Context {U C : Type}.
Abbreviation program := (prog (heap U) (closure C)).
Abbreviation cmd := (cmd (U := U) (C := C)).

(** ** Calls *)

Definition set_timed_out (s : call_proxy) : call_proxy :=
  CallProxy (p_conn s) (p_seq s) (p_t s) true.

Definition call_proxy_receive (p : Z) (from : handle) (m : bytes) : program :=
  let! s := load (A := call_proxy) p in
  if p_timed_out s then Ret None
  else
    if_match m [PStr (str "debug_call_timeout")]
      (λ _, writes (modify p set_timed_out);;
            let! r := sends (p_conn s) (cbor_array [AString (str "debug_call_timeout"); AUInt (p_seq s)]) in
            Ret r) $
    let! _ := performs (match p_t s with Some t => [IoTimeoutCancel t] | None => [] end) in
    Call (OInstanceName from) (λ a, match a with
      | AnsBytes name =>
          let! _ := sends (p_conn s) (cbor_array [AString (str "debug_call_reply"); AUInt (p_seq s);
                                                  AString name; ACbor m]) in
          Ret (exit_ None)
      | _ => impossible
      end).

(** The behaviour of [call_proxy::start]. *)
Definition call_proxy_behaviour (conn : handle) (seq : Z) (to : handle) (msg : bytes) (timeout_ms : Z)
  : program :=
  let! t := creates (λ t, IoTimeoutCreate t (s64 (timeout_ms * 1000))
                            (cbor_array [AString (str "debug_call_timeout")])) in
  let! p := new (CallProxy conn seq (Some t) false) in
  let! ret := sends to msg in
  match ret with
  | Some e =>
      let! _ := sends conn (cbor_array [AString (str "debug_call_error"); AUInt seq; ACbor e]) in
      Ret (exit_ None)
  | None => receives (CallProxyReceive p);; Ret None
  end.

(** ** Connections *)

Definition debug_tag : bytes := str "debug_connection".

Definition set_prev_buf v (c : debug_connection) : debug_connection :=
  DebugConnection (d_s c) (d_prompt c) v (d_self c) (d_json_mode c) (d_close_on_write_complete c)
    (d_unwritten c) (d_next_call c) (d_pending_calls c).
Definition set_self v (c : debug_connection) : debug_connection :=
  DebugConnection (d_s c) (d_prompt c) (d_prev_buf c) v (d_json_mode c) (d_close_on_write_complete c)
    (d_unwritten c) (d_next_call c) (d_pending_calls c).
Definition set_json_mode (c : debug_connection) : debug_connection :=
  DebugConnection (d_s c) (d_prompt c) (d_prev_buf c) (d_self c) true (d_close_on_write_complete c)
    (d_unwritten c) (d_next_call c) (d_pending_calls c).
Definition set_close (c : debug_connection) : debug_connection :=
  DebugConnection (d_s c) (d_prompt c) (d_prev_buf c) (d_self c) (d_json_mode c) true
    (d_unwritten c) (d_next_call c) (d_pending_calls c).
Definition set_unwritten v (c : debug_connection) : debug_connection :=
  DebugConnection (d_s c) (d_prompt c) (d_prev_buf c) (d_self c) (d_json_mode c)
    (d_close_on_write_complete c) v (d_next_call c) (d_pending_calls c).
Definition set_calls n v (c : debug_connection) : debug_connection :=
  DebugConnection (d_s c) (d_prompt c) (d_prev_buf c) (d_self c) (d_json_mode c)
    (d_close_on_write_complete c) (d_unwritten c) n v.

(** [getword] with the delimiter [" "]. *)
Fixpoint getword (s : bytes) : bytes * bytes :=
  match s with
  | [] => ([], [])
  | c :: s => if c =? 32 then ([], s) else let '(w, r) := getword s in (c :: w, r)
  end.

Definition write (p : Z) (data : bytes) : cmd unit := λ k,
  writes (modify p (λ c, set_unwritten (u64 (d_unwritten c + Z.of_nat (length data))) c));;
  let! c := load (A := debug_connection) p in
  performs [IoSocketWrite (d_s c) data];; k tt.

Definition write_line (p : Z) (line : bytes) : cmd unit := λ k,
  write p line;; write p [10];; k tt.

(** What catches an exception: with [domain_error] its text is handled. *)
Definition catches {A} (handler : bytes → program) (m : res A) : cmd A := λ k,
  match m with
  | Ok a => k a
  | Throw (domain_error w) => handler w
  | Throw e => Raise (ThrowStd (what e))
  end.

Definition write_json (p : Z) (b : bytes) : cmd unit := λ k,
  let! j := attempt (to_json b) in write_line p j;; k tt.
Definition reply_ok (id : bytes) : bytes :=
  cbor_map [AString (str "id"); ACbor id; AString (str "ok"); ABool true].
Definition reply_error (id err : bytes) : bytes :=
  cbor_map [AString (str "id"); ACbor id; AString (str "ok"); ABool false;
            AString (str "error"); AString err].

(** [tap]: the error message, empty on success. *)
Definition tap (self_ : handle) (name : bytes) : cmd bytes := λ k,
  if bool_decide (str "debug_" `prefix_of` name) then k (str "cannot tap debug interface actors")
  else Call (OTapAdd name self_) (λ _, k []).

Definition untap (self_ : handle) (name : bytes) : cmd bool := λ k,
  Call (OTapRemove name self_) (λ a, match a with AnsBool b => k b | _ => impossible end).

(** A registered actor; [None] if it is not found. *)
Definition find_actor (name : bytes) : cmd (option handle) := λ k,
  Call (OGetName name) (λ a, match a with
    | AnsHandle h =>
        Call (OExpired h) (λ a, match a with
          | AnsBool e => k (if e then None else Some h)
          | _ => impossible
          end)
    | _ => impossible
    end).

Definition take_call (p : Z) (seq : Z) : cmd bytes := λ k,
  let! c := load (A := debug_connection) p in
  match d_pending_calls c !! seq with
  | None => k null_value
  | Some id =>
      writes (modify p (λ c, set_calls (d_next_call c) (delete seq (d_pending_calls c)) c));; k id
  end.

(** ** Lines of text *)

Fixpoint write_names (p : Z) (first : bool) (l : list (bytes * bool)) : cmd unit := λ k,
  match l with
  | [] => k tt
  | (_, true) :: l => write_names p first l k
  | (n, false) :: l =>
      if first then write p n;; write_names p false l k
      else write p [32];; write p n;; write_names p false l k
  end.

Fixpoint unregister_all (l : list bytes) : cmd unit := λ k,
  match l with
  | [] => k tt
  | n :: l => Call (ODebugUnregister n) (λ _, unregister_all l k)
  end.

(** [dispatch_text]: whether the connection goes on. *)
Definition dispatch_text (p : Z) (buf : bytes) : cmd bool := λ k,
  if bool_decide (buf = []) then
    Call ORegistry (λ a, match a with
      | AnsNames l =>
          write_names p true l;; write p [10];;
          unregister_all ((List.filter (λ e : bytes * bool, e.2) l).*1);; k true
      | _ => impossible
      end)
  else if bool_decide (buf = str "bye") then write p (str "bye" ++ [10]);; k false
  else
    let! c := load (A := debug_connection) p in
    let '(w, rest) := getword buf in
    if (bool_decide (w = str "tap") || bool_decide (w = str "untap")) && negb (bool_decide (rest = [])) then
      let report (err : bytes) :=
        if bool_decide (err = []) then k true else write_line p (str "error: " ++ err);; k true in
      if bool_decide (w = str "tap") then let! err := tap (d_self c) rest in report err
      else let! found := untap (d_self c) rest in
           report (if found then [] else rest ++ str " not tapped")
    else
      let! a := find_actor w in
      match a with
      | None => write p (str "error: ");; write p w;; write p (str " not found" ++ [10]);; k true
      | Some a =>
          let caught (e : bytes) := write p (str "error: ");; write p e;; write p [10];; k true in
          let! m := catches caught (push_json [] rest) in
          let! r := tries_send a m in
          let! ret := catches caught r in
          match ret with
          | None => k true
          | Some e =>
              write p (str "error: ");;
              let! j := catches caught (to_json e) in write p j;; write p [10];; k true
          end
      end.

(** ** Commands in JSON *)

Definition dispatch_json (p : Z) (line : bytes) : cmd bool := λ k,
  let caught (id e : bytes) := write_json p (reply_error id e);; k true in
  (** a reply written inside of the [try] statement *)
  let reply (id m : bytes) (go : bool) :=
    let! j := catches (caught id) (to_json m) in write_line p j;; k go in
  let! cmd := catches (caught null_value) (push_json [] line) in
  let! f := catches (caught null_value) (get_fields cmd) in
  let id := default null_value (f !! str "id") in
  let! op := catches (caught id) (require_string f (str "cmd")) in
  let! c := load (A := debug_connection) p in
  let lookup_field : Actors.cmd handle := λ k,
    let! to := catches (caught id) (require_string f (str "to")) in
    let! a := find_actor to in
    match a with None => caught id (to ++ str " not found") | Some a => k a end in
  if bool_decide (op = str "list") then
    Call OGetNames (λ a, match a with
      | AnsBytes names =>
          reply id (cbor_map [AString (str "id"); ACbor id; AString (str "ok"); ABool true;
                              AString (str "result"); ACbor names]) true
      | _ => impossible
      end)
  else if bool_decide (op = str "send") then
    let! to := lookup_field in
    let! msg := catches (caught id) (require f (str "msg")) in
    let! r := tries_send to msg in
    let! ret := catches (caught id) r in
    match ret with
    | None => reply id (reply_ok id) true
    | Some e => let! j := catches (caught id) (to_json e) in reply id (reply_error id j) true
    end
  else if bool_decide (op = str "call") then
    let! to := lookup_field in
    let! msg := catches (caught id) (require f (str "msg")) in
    let! timeout_ms := catches (caught id) (optional_int f (str "timeout_ms") 5000) in
    let seq := d_next_call c in
    writes (modify p (λ c, set_calls (u64 (seq + 1)) (<[seq := id]> (d_pending_calls c)) c));;
    let! r := spawns_link (CallProxyStart (d_self c) seq to msg timeout_ms) (str "debug_call") in
    match r with
    | inl _ => k true
    | inr e =>
        writes (modify p (λ c, set_calls (d_next_call c) (delete seq (d_pending_calls c)) c));;
        let! j := catches (caught id) (to_json e) in reply id (reply_error id j) true
    end
  else if bool_decide (op = str "tap") then
    let! name := catches (caught id) (require_string f (str "name")) in
    let! err := tap (d_self c) name in
    reply id (if bool_decide (err = []) then reply_ok id else reply_error id err) true
  else if bool_decide (op = str "untap") then
    let! name := catches (caught id) (require_string f (str "name")) in
    let! found := untap (d_self c) name in
    reply id (if found then reply_ok id else reply_error id (name ++ str " not tapped")) true
  else if bool_decide (op = str "bye") then reply id (reply_ok id) false
  else reply id (reply_error id (str "unknown cmd: " ++ op)) true.

(** [find_first_not_of] blanks and tabs. *)
Fixpoint skip_blanks (s : bytes) : bytes :=
  match s with c :: r => if (c =? 32) || (c =? 9) then skip_blanks r else s | [] => [] end.

(** [if (buf.back() == '\r') buf.pop_back()] *)
Definition chomp (s : bytes) : bytes :=
  if bool_decide (last s = Some 13) then take (length s - 1) s else s.

(** [dispatch]: whether the connection goes on. *)
Definition dispatch (p : Z) (buf : bytes) : cmd bool := λ k,
  let buf := chomp buf in
  let! c := load (A := debug_connection) p in
  match skip_blanks buf with
  | 123 :: _ => writes (modify p set_json_mode);; dispatch_json p buf k
  | rest =>
      if d_json_mode c then
        if bool_decide (rest = []) then k true
        else write_json p (reply_error null_value (str "expected a JSON object"));; k true
      else
        let! go := dispatch_text p buf in
        if go then write p (d_prompt c);; k true else k false
  end.

(** ** Messages *)

Definition shutdown (c : debug_connection) (reason msg : bytes) : program :=
  let! _ := untap (d_self c) [] in
  Ret (exit_ (Some (reason, if bool_decide (msg = []) then [] else [AString msg]))).

(** The text up to the first newline, and what is behind it. *)
Fixpoint split_line (s : bytes) : option (bytes * bytes) :=
  match s with
  | [] => None
  | c :: s => if c =? 10 then Some ([], s)
              else match split_line s with Some (l, r) => Some (c :: l, r) | None => None end
  end.

(** The loop over the lines: each is sent to the actor itself; what is left of
    the text when no line is complete. *)
Fixpoint read_lines (fuel : nat) (buf : bytes) (k : bytes → program) : program :=
  match fuel with
  | O => k buf
  | S fuel =>
      match split_line buf with
      | None => k buf
      | Some (line, rest) =>
          let! h := self in
          let! ret := sends h (cbor_array [AString (str "dispatch"); AString line]) in
          match ret with Some e => Ret (Some e) | None => read_lines fuel rest k end
      end
  end.

(** A line of JSON for a message that was tapped, or one of text. *)
Definition tap_report (p : Z) (json : bool) (name dir peer r : bytes) : program :=
  if json then
    write_json p (cbor_map ([AString (str "event"); AString (str "tap"); AString (str "actor"); AString name;
                             AString (str "dir"); AString dir] ++
                            (if bool_decide (dir = str "exit") then []
                             else [AString (str "peer"); AString peer]) ++
                            [AString (str "msg"); ACbor r]));; Ret None
  else
    let! j := attempt (to_json r) in
    write_line p (str "tap " ++ name ++
                  (if bool_decide (dir = str "exit") then str " exit " ++ j
                   else str " " ++ dir ++ str " " ++ peer ++ str " " ++ j));; Ret None.

(** A message that is none of the connection's own. *)
Definition message_report (p : Z) (json : bool) (from : handle) (m : bytes) : program :=
  Call (OInstanceName from) (λ a, match a with
    | AnsBytes n =>
        let name := if bool_decide (n = []) then str "expired" else n in
        if json then
          write_json p (cbor_map [AString (str "event"); AString (str "message"); AString (str "from");
                                  AString name; AString (str "msg"); ACbor m]);; Ret None
        else
          write p name;; write p [32];;
          let! j := attempt (to_json m) in write p j;; write p [10];; Ret None
    | _ => impossible
    end).

(** [connection::receive] *)
Definition debug_connection_receive (p : Z) (from : handle) (m : bytes) : program :=
  let! c := load (A := debug_connection) p in
  if_match m [PStr (str "dispatch"); PExtract XString]
    (λ cs, match cs with
           | [CString buf] =>
               let! go := dispatch p buf in
               if go then Ret None else writes (modify p set_close);; Ret None
           | _ => impossible
           end) $
  if_match m [PStr (str "socket"); PStr debug_tag; PStr (str "read_complete"); PExtract XString]
    (λ cs, match cs with
           | [CString buf] =>
               if bool_decide (buf = []) then performs [IoSocketClose (d_s c)];; Ret None
               else
                 (** [buf.swap(prev_buf)] *)
                 writes (modify p (set_prev_buf buf));;
                 let text := d_prev_buf c ++ buf in
                 read_lines (S (length text)) text (λ rest,
                   writes (modify p (set_prev_buf rest));;
                   performs [IoSocketRead (d_s c)];; Ret None)
           | _ => impossible
           end) $
  if_match m [PStr (str "socket"); PStr debug_tag; PStr (str "write_complete"); PExtract int_target]
    (λ cs, match cs with
           | [CInt written] =>
               let unwritten := d_unwritten c - Z.min (d_unwritten c) (u64 written) in
               writes (modify p (set_unwritten unwritten));;
               if d_close_on_write_complete c && (unwritten =? 0)
               then performs [IoSocketClose (d_s c)];; Ret None else Ret None
           | _ => impossible
           end) $
  if_match m [PStr (str "socket"); PStr debug_tag; PStr (str "closed")]
    (λ _, shutdown c (str "closed") []) $
  if_match m [PStr (str "socket"); PStr debug_tag; PStr (str "read_error"); PExtract int_target; PExtract XString]
    (λ cs, match cs with [_; CString msg] => shutdown c (str "read_error") msg | _ => impossible end) $
  if_match m [PStr (str "socket"); PStr debug_tag; PStr (str "write_error"); PExtract int_target; PExtract XString]
    (λ cs, match cs with [_; CString msg] => shutdown c (str "write_error") msg | _ => impossible end) $
  if_match m [PStr (str "debug_call_reply"); PExtract uint64_target; PExtract XString; PExtract XRange]
    (λ cs, match cs with
           | [CUInt seq; CString name; CRange r] =>
               let! id := take_call p seq in
               write_json p (cbor_map [AString (str "id"); ACbor id; AString (str "ok"); ABool true;
                                       AString (str "from"); AString name; AString (str "result"); ACbor r]);;
               Ret None
           | _ => impossible
           end) $
  if_match m [PStr (str "debug_call_timeout"); PExtract uint64_target]
    (λ cs, match cs with
           | [CUInt seq] =>
               let! id := take_call p seq in
               write_json p (reply_error id (str "timeout"));; Ret None
           | _ => impossible
           end) $
  if_match m [PStr (str "debug_call_error"); PExtract uint64_target; PExtract XRange]
    (λ cs, match cs with
           | [CUInt seq; CRange r] =>
               let! id := take_call p seq in
               let! j := attempt (to_json r) in
               write_json p (reply_error id j);; Ret None
           | _ => impossible
           end) $
  if_match m [PStr (str "debug_tap"); PExtract XString; PExtract XString; PExtract XString; PExtract XRange]
    (λ cs, match cs with
           | [CString name; CString dir; CString peer; CRange r] =>
               tap_report p (d_json_mode c) name dir peer r
           | _ => impossible
           end) $
  message_report p (d_json_mode c) from m.

(** The constructor, and the behaviour of [connection::start]. *)
Definition debug_connection_behaviour (fd : Z) (prompt : bytes) : program :=
  let! s := creates (λ s, IoSocketCreate s debug_tag fd) in
  let! p := new (DebugConnection s prompt [] null_handle false false 0 0 ∅) in
  write p prompt;; performs [IoSocketRead s];;
  let! h := self in
  writes (modify p (set_self h));;
  receives (DebugConnectionReceive p);; Ret None.

(** ** Acceptors *)

Definition debug_acceptor_tag (a : addr) : bytes :=
  match a with TcpAddr _ _ => str "debug_acceptor_tcp" | UnxAddr _ _ => str "debug_acceptor_unx" end.

Definition debug_acceptor_receive (p : Z) (from : handle) (m : bytes) : program :=
  let! s := load (A := debug_acceptor) p in
  let tag := l_tag s in
  if_match m [PStr (str "acceptor"); PStr tag; PStr (str "accept"); PExtract int_target]
    (λ cs, match cs with
           | [CInt fd] =>
               let! ret := spawns (DebugConnectionStart fd (l_prompt s)) debug_tag in
               Ret (match ret with inl _ => None | inr e => Some e end)
           | _ => impossible
           end) $
  if_match m [PStr (str "acceptor"); PStr tag; PStr (str "closed")]
    (λ _, Ret (exit_ (Some (str "closed", [])))) $
  if_match m [PStr (str "acceptor"); PStr tag; PStr (str "error"); PExtract int_target; PExtract XString]
    (λ cs, match cs with
           | [_; CString err] => Ret (exit_ (Some (str "listen_error", [AString err])))
           | _ => impossible
           end) $
  if_match m [PStr (str "ping")]
    (λ _, let! r := sends from (cbor_array [AString (str "pong")]) in Ret r) $
  let! _ := performs [IoAcceptorClose (l_a s)] in Ret None.

(** The behaviour of [acceptor::start] with the constructor of the listener. *)
Definition debug_acceptor_behaviour (a : addr) (prompt : bytes) : program :=
  let! o := creates (λ o, IoAcceptorCreate o (debug_acceptor_tag a)) in
  performs [IoListen o a];;
  let! p := new (DebugAcceptor o (debug_acceptor_tag a) prompt) in
  receives (DebugAcceptorReceive p);; Ret None.

(** [debug::tcp::create] and [debug::unx::create] by an actor. *)
Definition debug_create (a : addr) (prompt : bytes) : cmd (handle + bytes) :=
  spawns (DebugAcceptorStart a prompt) (debug_acceptor_tag a).
End debug.
