(* ===== verification/Solo.v ===== *)
(** * One task, left to itself

    [play] runs a program as a function: changes to the heap are made, messages
    are collected with the instances they go to, and every other instance is
    given by a [view], which says who a handle reaches and what a send that
    reaches nobody returns.  [play_sound] shows that the runtime does what [play]
    says, so that the actors of the library can be studied as functions. *)
From S2P Require Import Prelude CborEncode Ieee CborDecode CborMatch CppText CborJson Env Instance InstanceInv InstanceStep.

Section solo.
Context {U C : Type}.
Implicit Types (w : world U C) (x : inst U C) (p : prog U C).

Definition sends_view : Type := handle → bytes → option Z * res result.

(** What [i] finds in the world. *)
Definition view w (i : Z) : sends_view := λ h m,
  match lock w (h_ref h) with
  | Some j => if in_shutdown w j then (None, deadsend w (Some i) m (Some i)) else (Some j, Ok None)
  | None => (None, deadsend w (Some i) m (h_ref h))
  end.

Definition sent (j : option Z) (m : bytes) : list (Z * bytes) :=
  match j with Some j => [(j, m)] | None => [] end.

Definition played : Type := U * list (Z * bytes) * (result + thrown).
Definition log_sent (l : list (Z * bytes)) (r : option played) : option played :=
  (λ '(u, log, r), (u, l ++ log, r)) <$> r.

(** [None] where a program calls anything else, or a send throws. *)
Fixpoint play (v : sends_view) (i : Z) p (u : U) : option played :=
  match p with
  | Ret r => Some (u, [], inl r)
  | Raise t => Some (u, [], inr t)
  | Call (OUser f) k => play v i (k (AnsUser u)) (f u)
  | Call OSelf k => play v i (k (AnsHandle (self_handle i))) u
  | Call (OTraceRaw _) k => play v i (k AnsUnit) u
  | Call (OSend h m) k =>
      match (v h m).2 with
      | Ok r => log_sent (sent (v h m).1 m) (play v i (k (AnsResult r)) u)
      | Throw _ => None
      end
  | Call (OTrySend h m) k =>
      log_sent (sent (v h m).1 m) (play v i (k (AnsTried (v h m).2)) u)
  | Call _ _ => None
  end.

(** The tasks that the messages of a log give the instance [j]. *)
Definition deliveries (i : Z) (log : list (Z * bytes)) (j : Z) : list task :=
  (λ e, Task (self_handle i) e.2 true) <$> filter (λ e, e.1 = j) log.

Lemma deliveries_app i l1 l2 j : deliveries i (l1 ++ l2) j = deliveries i l1 j ++ deliveries i l2 j.
Proof. unfold deliveries. by rewrite filter_app, fmap_app. Qed.

Lemma deliveries_sent i k m j :
  deliveries i (sent (Some k) m) j = if decide (k = j) then [Task (self_handle i) m true] else [].
Proof.
  unfold deliveries, sent. case_decide.
  - by rewrite filter_cons_True by done.
  - by rewrite filter_cons_False by done.
Qed.

(** ** The world during the task *)

(** Nothing but the task of [i] has changed. *)
Definition alike (i : Z) w0 w : Prop :=
  ctx w = ctx w0 ∧ ∃ q, insts w = alter (λ x, set_run x q) i (insts w0).

Lemma alike_lookup i w0 w j :
  alike i w0 w → ∃ q, insts w !! j = (λ x, if decide (i = j) then set_run x q else x) <$> insts w0 !! j.
Proof.
  intros [_ [q ->]]. exists q. destruct (decide (i = j)) as [<-|].
  - by rewrite lookup_alter_eq.
  - rewrite lookup_alter_ne by done. by destruct (insts w0 !! j).
Qed.

Lemma alike_lock i w0 w r : alike i w0 w → lock w r = lock w0 r.
Proof.
  intros Ha. destruct r as [j|]; [|done]. cbn.
  destruct (alike_lookup i w0 w j Ha) as [q ->]. by destruct (insts w0 !! j).
Qed.

Lemma alike_in_shutdown i w0 w j : alike i w0 w → in_shutdown w j = in_shutdown w0 j.
Proof.
  intros Ha. unfold in_shutdown. destruct (alike_lookup i w0 w j Ha) as [q ->].
  destruct (insts w0 !! j); [|done]. cbn. by destruct (decide (i = j)).
Qed.

Lemma alike_ref_m i w0 w r : alike i w0 w → ref_m w r = ref_m w0 r.
Proof.
  intros Ha. unfold ref_m, name_of. rewrite (alike_lock i w0 w) by done.
  destruct (lock w0 r) as [j|]; [|done]. destruct (alike_lookup i w0 w j Ha) as [q ->].
  destruct (insts w0 !! j); [|done]. cbn. by destruct (decide (i = j)).
Qed.

Lemma alike_view i w0 w h m : alike i w0 w → view w i h m = view w0 i h m.
Proof.
  intros Ha.
  assert (∀ r, deadsend w (Some i) m r = deadsend w0 (Some i) m r) as Hd.
  { intros r. unfold deadsend. rewrite (alike_in_shutdown i w0 w) by done.
    by rewrite !(alike_ref_m i w0 w) by done. }
  unfold view. rewrite (alike_lock i w0 w), !Hd by done.
  destruct (lock w0 (h_ref h)) as [j|]; [|done]. by rewrite (alike_in_shutdown i w0 w).
Qed.

(** A send, without taps. *)
Lemma send_exact w i h m :
  wf w → is_tapping w = false →
  (handle_send_raw w (Some i) h m).2 = (view w i h m).2 ∧
  insts (handle_send_raw w (Some i) h m).1 = insts w ∧
  user (handle_send_raw w (Some i) h m).1 = user w ∧
  ctx (handle_send_raw w (Some i) h m).1 = ctx w ∧
  ∀ j, strand (handle_send_raw w (Some i) h m).1 j
       = strand w j ++ deliveries i (sent (view w i h m).1 m) j.
Proof.
  intros Hw Ht. unfold handle_send_raw, view. destruct (lock w (h_ref h)) as [p|] eqn:El.
  2:{ cbn. split_and!; try done. intros j. by rewrite app_nil_r. }
  apply lock_Some in El as [_ [y Hy]]. unfold send_raw, sender, queue. cbv zeta.
  assert (in_shutdown (trace_send w p (self_handle i) m) p = in_shutdown w p) as -> by done.
  assert (is_tapping (trace_send w p (self_handle i) m) = false) as -> by done.
  destruct (in_shutdown w p) eqn:Es; cbn [fst snd andb].
  - split_and!; try done. intros j. by rewrite app_nil_r.
  - split_and!; try done. intros j. unfold submit_msg_task, post_task, lifetime.
    change (insts (trace_send w p (self_handle i) m)) with (insts w).
    change (strand (trace_send w p (self_handle i) m)) with (strand w).
    rewrite set_strand, Hy. change (strand (trace_send w p (self_handle i) m)) with (strand w).
    unfold in_shutdown in Es. rewrite Hy in Es.
    rewrite (wf_weak _ _ Hw p y Hy Es), deliveries_sent.
    case_decide as E; [by rewrite E|by rewrite app_nil_r].
Qed.

Context (call : C → handle → bytes → prog U C).

Definition outcome_prog (r : result + thrown) : prog U C :=
  match r with inl r => Ret r | inr t => Raise t end.

(** The world after a task has played. *)
Record after (i : Z) x w (l : played) w' : Prop := After {
  after_insts : insts w' = <[i := set_run x (Some (outcome_prog l.2))]> (insts w);
  after_user : user w' = l.1.1;
  after_ctx : ctx w' = ctx w;
  after_strand : ∀ j, strand w' j = strand w j ++ deliveries i l.1.2 j;
  after_wf : wf w'
}.

Lemma set_run_twice x q1 q2 : set_run (set_run x q1) q2 = set_run x q2.
Proof. done. Qed.

Lemma after_step i x w w1 q l0 u log r w' :
  insts w1 = <[i := set_run x q]> (insts w) → ctx w1 = ctx w →
  (∀ j, strand w1 j = strand w j ++ deliveries i l0 j) →
  after i (set_run x q) w1 (u, log, r) w' → after i x w (u, l0 ++ log, r) w'.
Proof.
  intros Hi Hc Hs []. split; cbn [fst snd] in *; [|done|congruence| |done].
  - by rewrite after_insts0, Hi, insert_insert_eq.
  - intros j. by rewrite after_strand0, Hs, deliveries_app, (assoc_L app).
Qed.

Lemma exec_step w i x o k w1 a :
  insts w !! i = Some x → i_run x = Some (Call o k) → exec w (Some i) o = (w1, Ok a) →
  insts w1 = insts w →
  step call w (LStep i) = Next (upd w1 i (λ x, set_run x (Some (k a)))) ∧
  insts (upd w1 i (λ x, set_run x (Some (k a)))) = <[i := set_run x (Some (k a))]> (insts w).
Proof.
  intros Hx Hr He Hi. split; [cbn [step]; by rewrite Hx, Hr, He|].
  rewrite <- Hi in Hx. rewrite (upd_insts _ _ _ _ Hx). by rewrite Hi.
Qed.

(** One call, then the rest of the program. *)
Lemma play_step w i x o k w1 a l0 l :
  wf w → races w (LStep i) = false →
  insts w !! i = Some x → i_run x = Some (Call o k) → exec w (Some i) o = (w1, Ok a) →
  insts w1 = insts w → ctx w1 = ctx w →
  (∀ j, strand w1 j = strand w j ++ deliveries i l0 j) →
  (∀ w2 x2, wf w2 → insts w2 !! i = Some x2 → i_run x2 = Some (k a) → ctx w2 = ctx w →
     alike i w w2 → user w2 = user w1 →
     ∃ n w', steps call w2 (replicate n (LStep i)) w' ∧ after i x2 w2 l w') →
  ∃ n w', steps call w (replicate n (LStep i)) w' ∧ after i x w (l.1.1, l0 ++ l.1.2, l.2) w'.
Proof.
  intros Hw Hrace Hx Hr He Hi Hc Hst IH.
  destruct (exec_step w i x o k w1 a Hx Hr He Hi) as [Hstep Hi2].
  set (w2 := upd w1 i (λ x, set_run x (Some (k a)))) in *.
  pose proof (step_ok call w (LStep i) Hw Hrace) as Hw2. rewrite Hstep in Hw2.
  destruct (IH w2 (set_run x (Some (k a)))) as (n & w' & Hs & Ha); try done.
  - by rewrite Hi2, lookup_insert_eq.
  - split; [done|]. exists (Some (k a)). unfold w2. cbn. by rewrite Hi.
  - exists (S n), w'. split; [by econstructor|]. destruct l as [[u log] r].
    by apply (after_step i x w w2 (Some (k a)) l0 u log r w').
Qed.

Lemma alike_trans i w0 w1 w2 : alike i w0 w1 → alike i w1 w2 → alike i w0 w2.
Proof.
  intros [E1 [q1 H1]] [E2 [q2 H2]]. split; [congruence|]. exists q2.
  rewrite H2, H1. apply map_eq. intros j. destruct (decide (i = j)) as [<-|].
  - rewrite !lookup_alter_eq. by destruct (insts w0 !! i).
  - by rewrite !lookup_alter_ne.
Qed.

(** The same from any world that is like the one the view was taken from. *)
Lemma play_alike p : ∀ w0 w i x l,
  alike i w0 w → wf w → is_tapping w0 = false → insts w !! i = Some x → i_run x = Some p →
  play (view w0 i) i p (user w) = Some l →
  ∃ n w', steps call w (replicate n (LStep i)) w' ∧ after i x w l w'.
Proof.
  induction p as [r|t|o k IH]; intros w0 w i x l Ha Hw Ht Hx Hr Hp.
  1,2: injection Hp as <-; exists 0%nat, w; split; [constructor|]; split; try done;
    [cbn; rewrite insert_id by (rewrite Hx; f_equal; by destruct x; cbn in *; subst); done|
     intros j; cbn; by rewrite app_nil_r].
  assert (is_tapping w = false) as Htw by (unfold is_tapping; by rewrite (proj1 Ha)).
  assert (races w (LStep i) = false) as Hrace by (unfold races, called; rewrite Hx, Hr; by destruct o).
  assert (∀ a w1 l0 l', exec w (Some i) o = (w1, Ok a) → insts w1 = insts w → ctx w1 = ctx w →
    (∀ j, strand w1 j = strand w j ++ deliveries i l0 j) →
    play (view w0 i) i (k a) (user w1) = Some l' → l = (l'.1.1, l0 ++ l'.1.2, l'.2) →
    ∃ n w', steps call w (replicate n (LStep i)) w' ∧ after i x w l w') as Hone.
  { intros a w1 l0 l' He Hi Hc Hst Hp' ->. apply (play_step w i x o k w1 a l0 l'); try done.
    intros w2 x2 Hw2 Hx2 Hr2 _ Ha2 Hu. apply (IH a w0); try done; [|by rewrite Hu].
    by apply (alike_trans i w0 w w2). }
  destruct o; try done; cbn [play] in Hp.
  - destruct (send_exact w i h m Hw Htw) as (E & Hi & Hu & Hc & Hst).
    rewrite (alike_view i w0 w) in E, Hst by done.
    destruct (view w0 i h m) as [j [r|e]]; [|done]. cbn [fst snd] in *.
    destruct (play _ _ _ _) as [l'|] eqn:Hp'; [|done]. injection Hp as <-.
    apply (Hone (AnsResult r) (handle_send_raw w (Some i) h m).1 (sent j m) l'); try done.
    + cbn. unfold ans_map. by rewrite E.
    + by rewrite Hu.
    + by destruct l' as [[] ].
  - destruct (send_exact w i h m Hw Htw) as (E & Hi & Hu & Hc & Hst).
    rewrite (alike_view i w0 w) in E, Hst by done.
    destruct (view w0 i h m) as [j r]. cbn [fst snd] in *.
    destruct (play _ _ _ _) as [l'|] eqn:Hp'; [|done]. injection Hp as <-.
    apply (Hone (AnsTried r) (handle_send_raw w (Some i) h m).1 (sent j m) l'); try done.
    + cbn. destruct (handle_send_raw w (Some i) h m). cbn in *. by subst.
    + by rewrite Hu.
    + by destruct l' as [[] ].
  - destruct (wf_inst _ _ Hw i x Hx) as (Hl & Hsh & _); [done|].
    apply (Hone (AnsHandle (self_handle i)) w [] l); try done; [| |by destruct l as [[] ]].
    + cbn. rewrite Hx. cbn. rewrite Hl, Hsh by by rewrite Hr. cbn. unfold make_handle, lock.
      by rewrite Hx.
    + intros j. by rewrite app_nil_r.
  - apply (Hone AnsUnit (emit w (trace_raw x (ACbor (pid_m i (i_name x)) :: parms))) [] l); try done; [| |by destruct l as [[] ]].
    + cbn. by rewrite Hx.
    + intros j. by rewrite app_nil_r.
  - apply (Hone (AnsUser (user w)) (set_user w (f (user w))) [] l); try done; [|by destruct l as [[] ]].
    intros j. by rewrite app_nil_r.
Qed.

Lemma play_sound w i x p l :
  wf w → is_tapping w = false → insts w !! i = Some x → i_run x = Some p →
  play (view w i) i p (user w) = Some l →
  ∃ n w', steps call w (replicate n (LStep i)) w' ∧ after i x w l w'.
Proof.
  intros Hw Ht Hx Hr Hp. apply (play_alike p w w i x l); try done.
  split; [done|]. exists (i_run x). rewrite <- (insert_id (insts w) i x Hx) at 1.
  apply map_eq. intros j. destruct (decide (i = j)) as [<-|].
  - rewrite lookup_insert_eq, lookup_alter_eq, Hx. cbn. by destruct x.
  - by rewrite lookup_insert_ne, lookup_alter_ne.
Qed.

(** ** A whole task *)

Lemma steps_app ls1 ls2 w1 w2 w3 :
  steps call w1 ls1 w2 → steps call w2 ls2 w3 → steps call w1 (ls1 ++ ls2) w3.
Proof. induction 1; [done|]. intros H3. econstructor; eauto. Qed.

(** The task starts: the receiver is called. *)
Lemma start_task w i x c from m lk ts :
  strand w i = Task from m lk :: ts → insts w !! i = Some x → i_run x = None →
  i_in_shutdown x = false → i_receiver x = Some (RUser c) → is_link_msg m = false →
  (if i_trap_exit x then Ok false else is_exit_msg m) = Ok false →
  ∃ w1, step call w (LRun i) = Next w1 ∧ alike i w w1 ∧ user w1 = user w ∧
    insts w1 = <[i := set_run x (Some (call c from m))]> (insts w) ∧
    ∀ j, strand w1 j = if decide (i = j) then ts else strand w j.
Proof.
  intros Ht Hx Hr Hs Hc Hl He. cbn [step]. rewrite Ht, Hx, Hr. cbn [t_from t_msg].
  unfold run. rewrite Hl, Hs. unfold run_body. rewrite He. cbv zeta. unfold run_receiver. rewrite Hc.
  set (w0 := if is_null m then _ else _). eexists. split; [reflexivity|].
  assert (insts w0 = insts w ∧ ctx w0 = ctx w ∧ user w0 = user w ∧
    strands w0 = <[i := ts]> (strands w)) as (E1 & E2 & E3 & E4) by by (unfold w0; destruct (is_null m)).
  split_and!; [split; [exact E2|]; exists (Some (call c from m)); cbn; by rewrite E1|exact E3| |].
  - rewrite (upd_insts _ _ x); [by rewrite E1|by rewrite E1].
  - intros j. unfold strand. cbn. rewrite E4. case_decide as E.
    + subst. by rewrite lookup_insert_eq.
    + by rewrite lookup_insert_ne.
Qed.

(** The task ends: the instance waits as before. *)
Lemma end_task w i x :
  wf w → insts w !! i = Some (set_run x (Some (Ret None))) → i_run x = None →
  i_in_shutdown x = false → is_Some (i_receiver x) →
  ∃ w1, step call w (LStep i) = Next w1 ∧ insts w1 = <[i := x]> (insts w) ∧ user w1 = user w ∧
    ctx w1 = ctx w ∧ ∀ j, strand w1 j = strand w j.
Proof.
  intros Hw Hx Hr Hs [c Hc]. cbn [step]. rewrite Hx. cbn [i_run set_run run_ret]. rewrite Hx. cbn.
  rewrite Hc. eexists. split; [reflexivity|]. unfold run_end. cbv zeta.
  destruct (wf_inst _ _ Hw i _ Hx) as (Hl & _ & _ & _ & He1 & He2); [done|]. cbn in Hl, He1, He2.
  assert (cleanup (set_run x (Some (Ret None))) = x) as Hclean.
  { destruct x. cbn in *. by subst. }
  set (w0 := if in_shutdown w i then w else _).
  assert (insts w0 = insts w ∧ ctx w0 = ctx w ∧ user w0 = user w ∧ strands w0 = strands w)
    as (E1 & E2 & E3 & E4) by by (unfold w0; destruct (in_shutdown w i)).
  assert (insts (upd w0 i cleanup) = <[i := x]> (insts w)) as Ei.
  { rewrite (upd_insts _ _ (set_run x (Some (Ret None)))); [by rewrite Hclean, E1|by rewrite E1]. }
  unfold collect. rewrite Ei, lookup_insert_eq. unfold held. rewrite Hl, Hs. cbn [negb orb].
  split_and!; [exact Ei|exact E3|exact E2|]. intros j. unfold strand. cbn. by rewrite E4.
Qed.

(** A task that plays to its end and returns [ok()]. *)
Lemma task_plays w i x c from m lk ts u log :
  wf w → is_tapping w = false → strand w i = Task from m lk :: ts → insts w !! i = Some x →
  i_run x = None → i_in_shutdown x = false → i_receiver x = Some (RUser c) → is_link_msg m = false →
  (if i_trap_exit x then Ok false else is_exit_msg m) = Ok false →
  play (view w i) i (call c from m) (user w) = Some (u, log, inl None) →
  ∃ n w', steps call w (LRun i :: replicate n (LStep i)) w' ∧ insts w' = insts w ∧ user w' = u ∧
    ctx w' = ctx w ∧
    ∀ j, strand w' j = (if decide (i = j) then ts else strand w j) ++ deliveries i log j.
Proof.
  intros Hw Ht Hst Hx Hr Hs Hc Hl He Hp.
  destruct (start_task w i x c from m lk ts) as (w1 & Hstep & Ha & Hu & Hi & Hst1); [done..|].
  pose proof (step_ok call w (LRun i) Hw eq_refl) as Hw1. rewrite Hstep in Hw1.
  destruct (play_alike (call c from m) w w1 i (set_run x (Some (call c from m))) (u, log, inl None))
    as (n & w2 & Hsteps & []); try done; [by rewrite Hi, lookup_insert_eq|by rewrite Hu|].
  cbn [fst snd outcome_prog] in *. rewrite set_run_twice in after_insts0.
  destruct (end_task w2 i x) as (w3 & Hend & Hi3 & Hu3 & Hc3 & Hst3); [done| |done|done|by rewrite Hc|].
  { by rewrite after_insts0, lookup_insert_eq. }
  exists (n + 1)%nat, w3. split_and!.
  - econstructor; [exact Hstep|]. rewrite replicate_add. eapply steps_app; [exact Hsteps|].
    econstructor; [exact Hend|constructor].
  - by rewrite Hi3, after_insts0, Hi, !insert_insert_eq, insert_id.
  - congruence.
  - by rewrite Hc3, after_ctx0, (proj1 Ha).
  - intros j. by rewrite Hst3, after_strand0, Hst1.
Qed.

(** ** Schedules as functions *)

(** The world at the end of a schedule, if every step of it can be taken and races no exit. *)
Fixpoint run_all (ls : list (label U C)) w : option (world U C) :=
  match ls with
  | [] => Some w
  | l :: ls => if races w l then None else match step call w l with Next w => run_all ls w | _ => None end
  end.

Lemma run_all_steps ls w w' : run_all ls w = Some w' → steps call w ls w' ∧ race_free call w ls.
Proof.
  revert w. induction ls as [|l ls IH]; intros w; cbn [run_all race_free]; [intros [= ->]; split; [constructor|done]|].
  destruct (races w l); [done|]. destruct (step call w l) as [| |e|w1] eqn:E; try done. intros [H1 H2]%IH.
  split; [by econstructor|]. split; [done|]. by intros w2 [= <-].
Qed.

Lemma run_all_wf u ls w : run_all ls (context_create u) = Some w → wf w.
Proof. intros [H1 H2]%run_all_steps. eapply (steps_wf call); [apply context_create_wf|done|done]. Qed.
End solo.
