(* ===== verification/Commands.v ===== *)
(** * Playing the commands of the actors

    What each command of [Actors] does under [play]. *)
From S2P Require Import Prelude CborEncode Ieee CborDecode CborMatch CppText CborJson Env Instance InstanceInv InstanceStep Actors Endpoint Solo.

Section commands.
Context {U C : Type}.
Abbreviation program := (prog (heap U) (closure C)).
Implicit Types (v : sends_view) (u : heap U) (i p : Z).

Lemma play_load v i {A} `{!Stored A} p a (k : A → program) u :
  deref p u = Some a → play v i (load p k) u = play v i (k a) u.
Proof. intros H. cbn. by rewrite H. Qed.

Lemma play_modify v i {A} `{!Stored A, !StoredLaws A} p (a : A) f (k : unit → program) u :
  deref p u = Some a → play v i (writes (modify p f) k) u = play v i (k tt) (store p (f a) u).
Proof. intros H. cbn [play writes]. by rewrite (modify_store u p a f H). Qed.

Lemma play_performs v i l (k : unit → program) u :
  play v i (performs l k) u = play v i (k tt) (io l u).
Proof. done. Qed.

Lemma play_sends v i h m r (k : result → program) u :
  (v h m).2 = Ok r → play v i (sends h m k) u = log_sent (sent (v h m).1 m) (play v i (k r) u).
Proof. intros H. cbn [play sends]. by rewrite H. Qed.

Lemma play_tries_send v i h m (k : res result → program) u :
  play v i (tries_send h m k) u = log_sent (sent (v h m).1 m) (play v i (k (v h m).2) u).
Proof. done. Qed.

Lemma log_sent_app (l1 l2 : list (Z * bytes)) (r : option (played (U := heap U))) :
  log_sent l1 (log_sent l2 r) = log_sent (l1 ++ l2) r.
Proof. destruct r as [[[]]|]; cbn; by rewrite ?(assoc_L app). Qed.

Lemma log_sent_nil (r : option (played (U := heap U))) : log_sent [] r = r.
Proof. by destruct r as [[[]]|]. Qed.

(** ** Endpoint connections *)

Lemma play_conn_trace v i p (c : connection) parms (k : unit → program) u :
  deref p u = Some c → play v i (conn_trace p parms k) u = play v i (k tt) u.
Proof. intros H. unfold conn_trace. rewrite (play_load _ _ p c) by done. by destruct (c_trace_enabled c). Qed.

Lemma play_conn_read v i p c (k : unit → program) u :
  deref p u = Some c →
  play v i (conn_read p k) u = play v i (k tt) (io [IoSocketRead (c_s c)] u).
Proof.
  intros H. unfold conn_read. rewrite (play_conn_trace _ _ p c) by done.
  by rewrite (play_load _ _ p c), play_performs by done.
Qed.

Lemma play_conn_write v i p c buf (k : unit → program) u :
  deref p u = Some c →
  play v i (conn_write p buf k) u
  = play v i (k tt) (io [IoSocketWrite (c_s c) buf] (store p (set_write_pending true c) u)).
Proof.
  intros H. unfold conn_write. rewrite (play_modify _ _ p c) by done.
  rewrite (play_conn_trace _ _ p (set_write_pending true c)) by apply deref_store.
  by rewrite (play_load _ _ p (set_write_pending true c)), play_performs by apply deref_store.
Qed.

Lemma play_conn_close v i p c (k : unit → program) u :
  deref p u = Some c →
  play v i (conn_close p k) u
  = play v i (k tt) (io (if c_write_pending c then [] else [IoSocketClose (c_s c)])
                       (store p (set_close_on_write_complete c) u)).
Proof.
  intros H. unfold conn_close. rewrite (play_modify _ _ p c) by done.
  rewrite (play_load _ _ p (set_close_on_write_complete c)) by apply deref_store.
  cbn [c_write_pending set_close_on_write_complete]. destruct (c_write_pending c); [by rewrite io_nil|].
  by rewrite (play_conn_trace _ _ p (set_close_on_write_complete c)) by apply deref_store.
Qed.
End commands.
