(* ===== verification/Library.v ===== *)
(** * The library as one program

    The code that every closure of the library runs, with the client's.  The
    theorems on the runtime hold for this [call] as for any other; here are the
    lemmas on the steps of an instance that the theorems on the actors of the
    library share. *)
From S2P Require Import Prelude CborEncode Ieee CborDecode CborMatch CppText CborJson Env Instance InstanceInv InstanceStep Actors Hub Endpoint Debug.

Section library.
Context {U C : Type}.

(** What is not part of the library: the code of the client, what happens where
    the behaviour of C++ is undefined, and the port a listener is bound to. *)
Context (client : C → handle → bytes → prog (heap U) (closure C)).
Context (undefined : prog (heap U) (closure C)) (bound_port : Z → addr → Z).

Definition library_call (c : closure C) (from : handle) (m : bytes) : prog (heap U) (closure C) :=
  match c with
  | HubStart q => hub_start q
  | HubReceive p => hub_receive undefined p from m
  | ConnectionStart fd owner tag => connection_behaviour fd owner tag
  | ConnectionReceive p => connection_receive p from m
  | ConnectorStart a owner retry_time retry_count => connector_behaviour a owner retry_time retry_count
  | TcpConnectorReceive p => tcp_connector_receive p from m
  | UnxConnectorReceive p => unx_connector_receive p from m
  | AcceptorStart a owner => acceptor_behaviour bound_port a owner
  | TcpAcceptorReceive p => tcp_acceptor_receive p from m
  | UnxAcceptorReceive p => unx_acceptor_receive p from m
  | CallProxyStart conn seq to msg timeout_ms => call_proxy_behaviour conn seq to msg timeout_ms
  | CallProxyReceive p => call_proxy_receive p from m
  | DebugConnectionStart fd prompt => debug_connection_behaviour fd prompt
  | DebugConnectionReceive p => debug_connection_receive p from m
  | DebugAcceptorStart a prompt => debug_acceptor_behaviour a prompt
  | DebugAcceptorReceive p => debug_acceptor_receive p from m
  | Client c => client c from m
  end.

End library.

(** ** A client of the library

    Closure 0 makes a hub, subscribes to it and broadcasts a value; closure 1
    ignores every message. *)
Module Demo.
Abbreviation program := (prog (heap unit) (closure nat)).
Definition client (c : nat) (from : handle) (m : bytes) : program :=
  match c with
  | 0%nat =>
      hub_create (str "hub") (λ r, match r with
        | inl (h, _) =>
            let! _ := sends h (cbor_array [AString (str "subscribe")]) in
            let! _ := hub_broadcast h [AInt 1] in
            receives (Client 1%nat);; Ret None
        | inr _ => Ret None
        end)
  | _ => Ret None
  end.

Definition call : closure nat → handle → bytes → program :=
  library_call client (Ret None) (λ _ _, 0).

Definition start : world (heap unit) (closure nat) := context_create (heap_empty tt).

Definition nobody : inst (heap unit) (closure nat) :=
  Inst [] None None None None [] false false false false [] env_empty None.
Definition get (w : world (heap unit) (closure nat)) (i : Z) : inst (heap unit) (closure nat) :=
  default nobody (insts w !! i).

(** The client has run and the hub has its subscription; the broadcast is the
    next message of the hub. *)
Definition boot (c : nat) : list (label (heap unit) (closure nat)) :=
  [LExtern (OContextSpawn (Client c) (str "main") env_empty); LRun 1].
Definition hub_schedule : list (label (heap unit) (closure nat)) :=
  boot 0 ++ replicate 6 (LStep 1) ++
  [LRun 2; LRun 2; LStep 2; LStep 2; LStep 2; LRun 2; LStep 2; LStep 2].
End Demo.
