(* ===== verification/HubTheorems.v ===== *)
(** * What the hub guarantees *)
From S2P Require Import Prelude CborEncode Ieee CborDecode CborGrammar CborMatch CborMatchSpec CppText CborJson Env Instance InstanceInv InstanceStep Actors Hub Endpoint Debug Library Solo Messages Commands.

(** What a program can return, whatever the API answers. *)
Inductive may_return {U C : Type} : prog U C → result → Prop :=
| may_return_ret r : may_return (Ret r) r
| may_return_call o k a r : may_return (k a) r → may_return (Call o k) r.

Section hub_theorems.
Context {U C : Type} (call : closure C → handle → bytes → prog (heap U) (closure C)).
Context (undefined : prog (heap U) (closure C)).
Implicit Types (w : world (heap U) (closure C)) (v : sends_view).

(** The messages of a broadcast, to the subscribers in order. *)
Definition broadcast_log v (m : bytes) (subs : list (handle * filter)) : list (Z * bytes) :=
  concat ((λ s, sent (v s.1 m).1 m) <$> List.filter (λ s, match apply_filter s.2 m with Ok b => b | _ => false end) subs).

Lemma play_deliver v i m subs (u : heap U) :
  Forall (λ s, returns (apply_filter s.2 m)) subs → (∀ h, returns (v h m).2) →
  play v i (deliver (C := C) m subs) u = Some (u, broadcast_log v m subs, inl None).
Proof.
  intros Hf Hv. induction Hf as [|[h f] subs [b Hb] _ IH]; [done|].
  cbn [deliver]. unfold broadcast_log. cbn [List.filter]. cbn [snd] in *. unfold attempt. rewrite Hb.
  destruct b; [|exact IH]. cbn [play sends]. destruct (Hv h) as [r ->].
  by rewrite IH.
Qed.

(** ** Broadcast *)

Lemma broadcast_matches wd l :
  item_ok (IArray wd l) →
  matches (broadcast_msg (wire (IArray wd l))) [PStr (str "broadcast"); PType t_array] = Ok (Some []) ∧
  drop 11 (broadcast_msg (wire (IArray wd l))) = wire (IArray wd l).
Proof.
  intros Hi. split; [|reflexivity]. unfold broadcast_msg.
  rewrite (matches_array _ _ [IText W0 (str "broadcast"); IArray wd l]); [reflexivity| |done|done|].
  - constructor; [by_decision|]. constructor; [by apply wire_ok|constructor].
  - constructor; [reflexivity|]. constructor; [done|constructor].
Qed.

(** How many subscriptions give the instance [j] the message. *)
Definition subscriptions w (s : hub_impl) (m : bytes) (j : Z) : nat :=
  length (List.filter (λ e, bool_decide (lock w (h_ref e.1) = Some j) && negb (in_shutdown w j) &&
                            match apply_filter e.2 m with Ok b => b | _ => false end) (subscribers_ s)).

Lemma view_returns w i wd l h :
  item_ok (IArray wd l) → returns (view w i h (wire (IArray wd l))).2.
Proof.
  intros Hi. destruct (matches_exit_returns wd l [] Hi) as [v Hv]; [constructor|].
  rewrite app_nil_r in Hv. unfold view, deadsend, returns. rewrite Hv.
  destruct (lock w (h_ref h)); repeat case_match; cbn; eauto.
Qed.

Lemma deliveries_broadcast w i s m j :
  deliveries i (broadcast_log (view w i) m (subscribers_ s)) j
  = replicate (subscriptions w s m j) (Task (self_handle i) m true).
Proof.
  unfold broadcast_log, subscriptions. induction (subscribers_ s) as [|[h f] subs IH]; [done|].
  cbn [List.filter fst snd]. destruct (apply_filter f m) as [[]|]; rewrite ?andb_false_r; try exact IH.
  rewrite andb_true_r, fmap_cons, concat_cons, deliveries_app, IH. cbn [fst].
  unfold view. destruct (lock w (h_ref h)) as [k|]; [|done].
  destruct (decide (k = j)) as [->|Hne].
  - rewrite bool_decide_true by done. destruct (in_shutdown w j); [done|].
    cbn [fst]. by rewrite deliveries_sent, decide_True.
  - rewrite bool_decide_false by congruence. destruct (in_shutdown w k); [done|].
    cbn [fst]. by rewrite deliveries_sent, decide_False.
Qed.

Lemma broadcast_ordinary wd l :
  item_ok (IArray wd l) →
  is_link_msg (broadcast_msg (wire (IArray wd l))) = false ∧
  is_exit_msg (broadcast_msg (wire (IArray wd l))) = Ok false.
Proof.
  intros Hi. split.
  - unfold is_link_msg. apply bool_decide_false. intros [=].
  - unfold is_exit_msg, broadcast_msg.
    rewrite (matches_array _ _ [IText W0 (str "broadcast"); IArray wd l]); [reflexivity| |done|done|].
    + constructor; [by_decision|]. constructor; [by apply wire_ok|constructor].
    + constructor; [reflexivity|]. constructor; [done|constructor].
Qed.


(** ** Listening *)

Definition listen_msg (desc : bytes) : bytes := cbor_array [AString (str "listen"); AString desc].

Lemma listen_matches desc ps :
  arg_ok (AString desc) →
  matches (listen_msg desc) ps
  = pats_items pat_item ps [IText W0 (str "listen"); IText (min_width (len_of desc)) desc].
Proof.
  intros Hd. apply matches_array; [|done|done|by repeat constructor].
  constructor; [by_decision|by constructor].
Qed.

(** A request to listen ends the hub: after it has spawned the acceptor it
    goes on to the message it does not expect, and returns an error. *)
Theorem listen_ends_hub p from desc r :
  arg_ok (AString desc) → may_return (hub_receive undefined p from (listen_msg desc)) r → r ≠ None.
Proof.
  intros Hd Hr. pose proof (listen_matches desc) as Hm.
  assert (∀ s ps, s ≠ str "listen" → matches (listen_msg desc) (PStr s :: ps) = Ok None) as Hno.
  { intros s ps Hs. rewrite Hm by done. destruct ps; [|rewrite pats_items_cons];
      cbn [pats_items is_more pat_item item_string mbind res_bind option_bind]; by rewrite decide_False. }
  assert (matches (listen_msg desc) [PStr (str "listen"); PExtract XString] = Ok (Some [CString desc])) as Hyes
    by (by rewrite Hm).
  unfold hub_receive, if_match, attempt in Hr. rewrite !Hno, Hyes in Hr by done.
  inversion Hr as [|o k a r' H1 E1]; subst. destruct a; inversion H1 as [|o2 k2 a2 r2 H2 E2]; subst.
  destruct a2; cbv beta iota zeta in H2; try by inversion H2.
  rewrite Hno in H2 by done. destruct (unexpected (listen_msg desc)) as [x|e] eqn:Eu; [|by inversion H2].
  inversion H2; subst. unfold unexpected in Eu. destruct (to_json (listen_msg desc)); [|done].
  by injection Eu as <-.
Qed.

(** ** Filters *)

Definition subscribe_filtered_msg : bytes := cbor_array [AString (str "subscribe_filtered")].

(** A subscription with a filter takes the filter that was queued first, for its
    sender.  A message that claims to be one when no filter is queued, which any
    actor and the debug console can send, has undefined behaviour: the hub goes on with
    whatever [undefined] is. *)
Theorem filtered_subscription v i p q from subs fs (u : heap U) :
  deref p u = Some (HubImpl subs q) → deref q u = Some fs →
  play v i (hub_receive undefined p from subscribe_filtered_msg) u =
    match fs with
    | f :: fs => Some (store p (HubImpl (subs ++ [(from, f)]) q) (store q fs u), [], inl None)
    | [] => play v i undefined (store (A := list filter) q [] u)
    end.
Proof.
  intros Hp Hq. unfold hub_receive, if_match, attempt.
  change (matches subscribe_filtered_msg [PStr (str "broadcast"); PType t_array]) with (Ok (A := option (list capture)) None).
  change (matches subscribe_filtered_msg [PStr (str "subscribe")]) with (Ok (A := option (list capture)) None).
  change (matches subscribe_filtered_msg [PStr (str "subscribe_filtered")]) with (Ok (A := option (list capture)) (Some [])).
  cbv beta iota. rewrite (play_load _ _ p (HubImpl subs q)) by done. unfold pop. cbn [q_ play].
  rewrite (modify_store u q fs) by done. rewrite Hq. destruct fs as [|f fs]; [done|]. cbn [drop].
  unfold subscribe_as. rewrite (play_modify _ _ p (HubImpl subs q)); [done|exact Hp].
Qed.
End hub_theorems.

Lemma listen_ends_hub_witness :
  exit_ (Some (str "UNEXPECTED_MESSAGE:" ++ [91] ++ [34] ++ str "listen" ++ [34; 44; 34] ++ str "x" ++ [34; 93], []))
  ≠ None.
Proof.
  apply (listen_ends_hub (U := unit) (C := nat) (Ret None) 2 null_handle (str "x")); [by_decision|].
  apply (may_return_call _ _ (AnsHandle null_handle)).
  apply (may_return_call _ _ (AnsSpawn (inl null_handle))).
  apply may_return_ret.
Defined.


Lemma filtered_subscription_witness :
  let f := user_filter (λ _, Ok true) in
  let u := store 1 [f] (store 2 (HubImpl [] 1) (heap_empty ())) in
  play (C := closure nat) (λ _ _, (None, Ok None)) 3 (hub_receive (Ret None) 2 (self_handle 7) subscribe_filtered_msg) u =
    Some (store 2 (HubImpl [(self_handle 7, f)] 1) (store (A := list filter) 1 [] u), [], inl None).
Proof. intros f u. apply (filtered_subscription (Ret None) _ 3 2 1 (self_handle 7) [] [f] u); reflexivity. Defined.
