(* ===== verification/HubPipe.v ===== *)
(** * The queue of filters of a hub, thread by thread ([src/src/hub.cpp])

    Hub takes [subscribe_queue::push] and [pop] for atomic.  Here they are
    the steps of any number of client threads and of the hub: taking the
    mutex, pushing the filter, sending the message, giving the mutex back.
    Every interleaving refines a specification without a queue of filters, in
    which a subscription carries its own filter: the hub never pops an empty
    queue, and every subscriber is registered with the filter it came with.

    Messages to the hub other than subscriptions do not touch the queue and
    are [MOther]; the hub lives throughout, so a send puts the message at the
    end of its mailbox (delivery in order is [InstanceTheorems]). *)
From S2P Require Import Prelude.

Section pipe.
Context {F : Type}.

(** A thread is known by its number, which stands for its actor's handle too. *)
Inductive message : Type :=
| MFiltered (from : nat)
| MPlain (from : nat)
| MOther.

(** Where a client is in [push]. *)
Inductive client : Type :=
| CIdle
| CLocked (f : F)
| CPushed (f : F)
| CSent.

(** Where the hub is in [receive]: it has taken a message, holds the mutex,
    has popped the filter. *)
Inductive server : Type :=
| HIdle
| HGot (from : nat)
| HLocked (from : nat)
| HPopped (from : nat) (f : F).

Inductive holder : Type := ByClient (t : nat) | ByHub.

Record pipe : Type := Pipe {
  m_ : option holder;
  q_ : list F;
  mailbox : list message;
  clients : gmap nat client;
  server_ : server;
  subscribers_ : list (nat * option F)
}.

Definition client_at (s : pipe) (t : nat) : client := default CIdle (clients s !! t).
Definition set_client (t : nat) (c : client) (s : pipe) : pipe :=
  Pipe (m_ s) (q_ s) (mailbox s) (<[t := c]> (clients s)) (server_ s) (subscribers_ s).
Definition set_mutex (m : option holder) (s : pipe) : pipe :=
  Pipe m (q_ s) (mailbox s) (clients s) (server_ s) (subscribers_ s).
Definition set_queue (q : list F) (s : pipe) : pipe :=
  Pipe (m_ s) q (mailbox s) (clients s) (server_ s) (subscribers_ s).
Definition set_mailbox (l : list message) (s : pipe) : pipe :=
  Pipe (m_ s) (q_ s) l (clients s) (server_ s) (subscribers_ s).
Definition set_server (h : server) (s : pipe) : pipe :=
  Pipe (m_ s) (q_ s) (mailbox s) (clients s) h (subscribers_ s).
Definition set_subscribers (l : list (nat * option F)) (s : pipe) : pipe :=
  Pipe (m_ s) (q_ s) (mailbox s) (clients s) (server_ s) l.

Inductive label : Type :=
| Lock (t : nat) (f : F)   (** push: lock_guard lock(m_) *)
| PushBack (t : nat)       (** q_.push_back(move(f)) *)
| SendMsg (t : nat)        (** from.send("subscribe_filtered") *)
| Unlock (t : nat)         (** ~lock_guard *)
| SendPlain (t : nat)      (** hub::subscribe() *)
| SendOther                (** any other message *)
| HubTake                  (** the next message of the hub *)
| HubLock                  (** pop: lock_guard lock(m_) *)
| HubFront                 (** move(q_.front()); q_.pop_front() *)
| HubUnlock.               (** ~lock_guard; subscribers_.emplace_back *)

Inductive pout : Type := PNext (s : pipe) | PBlocked | PUndefined.

Definition push_step (l : label) (s : pipe) : pout :=
  match l with
  | Lock t f =>
      match client_at s t, m_ s with
      | CIdle, None => PNext (set_client t (CLocked f) (set_mutex (Some (ByClient t)) s))
      | _, _ => PBlocked
      end
  | PushBack t =>
      match client_at s t with
      | CLocked f => PNext (set_client t (CPushed f) (set_queue (q_ s ++ [f]) s))
      | _ => PBlocked
      end
  | SendMsg t =>
      match client_at s t with
      | CPushed f => PNext (set_client t CSent (set_mailbox (mailbox s ++ [MFiltered t]) s))
      | _ => PBlocked
      end
  | Unlock t =>
      match client_at s t with
      | CSent => PNext (set_client t CIdle (set_mutex None s))
      | _ => PBlocked
      end
  | _ => PBlocked
  end.

Definition pop_step (l : label) (s : pipe) : pout :=
  match l, server_ s with
  | HubLock, HGot from =>
      match m_ s with
      | None => PNext (set_server (HLocked from) (set_mutex (Some ByHub) s))
      | Some _ => PBlocked
      end
  | HubFront, HLocked from =>
      match q_ s with
      | f :: q => PNext (set_server (HPopped from f) (set_queue q s))
      | [] => PUndefined
      end
  | HubUnlock, HPopped from f =>
      PNext (set_server HIdle (set_mutex None (set_subscribers (subscribers_ s ++ [(from, Some f)]) s)))
  | _, _ => PBlocked
  end.

(** The part of [receive] that looks at the message. *)
Definition take_step (s : pipe) : pout :=
  match server_ s, mailbox s with
  | HIdle, MFiltered t :: l => PNext (set_server (HGot t) (set_mailbox l s))
  | HIdle, MPlain t :: l => PNext (set_subscribers (subscribers_ s ++ [(t, None)]) (set_mailbox l s))
  | HIdle, MOther :: l => PNext (set_mailbox l s)
  | _, _ => PBlocked
  end.

Definition pipe_step (l : label) (s : pipe) : pout :=
  match l with
  | Lock _ _ | PushBack _ | SendMsg _ | Unlock _ => push_step l s
  | SendPlain t => PNext (set_mailbox (mailbox s ++ [MPlain t]) s)
  | SendOther => PNext (set_mailbox (mailbox s ++ [MOther]) s)
  | HubTake => take_step s
  | HubLock | HubFront | HubUnlock => pop_step l s
  end.

Definition pipe_start : pipe := Pipe None [] [] ∅ HIdle [].

(** ** The specification

    Subscriptions wait with their filters and are registered in turn. *)
Record spec : Type := Spec { waiting : list (nat * option F); registered : list (nat * option F) }.

Inductive spec_step : list (nat * option F) → spec → spec → Prop :=
| spec_subscribe w r x : spec_step [x] (Spec w r) (Spec (w ++ [x]) r)
| spec_register w r x : spec_step [] (Spec (x :: w) r) (Spec w (r ++ [x])).

(** Everyone who has subscribed, in order. *)
Definition everyone (s : spec) : list (nat * option F) := registered s ++ waiting s.

Lemma spec_everyone x s s' : spec_step x s s' → everyone s' = everyone s ++ x.
Proof. destruct 1; unfold everyone; simpl; [by rewrite app_assoc|by rewrite <-app_assoc, app_nil_r]. Qed.

(** The subscription a step makes: that of a client inside [push] comes with
    the filter it was called with. *)
Definition asked (l : label) (s : pipe) : list (nat * option F) :=
  match l with
  | SendMsg t => match client_at s t with CPushed f => [(t, Some f)] | _ => [] end
  | SendPlain t => [(t, None)]
  | _ => []
  end.

(** ** The simulation *)

(** The messages from the one the hub is at, with their filters. *)
Fixpoint pair_up (ms : list message) (q : list F) : list (nat * option F) :=
  match ms with
  | [] => []
  | MPlain t :: ms => (t, None) :: pair_up ms q
  | MOther :: ms => pair_up ms q
  | MFiltered t :: ms => match q with f :: q => (t, Some f) :: pair_up ms q | [] => [] end
  end.

Definition filtered (ms : list message) : nat :=
  length (omap (λ m, match m with MFiltered t => Some t | _ => None end) ms).

Definition taken (s : pipe) : list message :=
  match server_ s with HGot t | HLocked t => [MFiltered t] | _ => [] end.
Definition popped (s : pipe) : list (nat * option F) :=
  match server_ s with HPopped t f => [(t, Some f)] | _ => [] end.

Definition abs (s : pipe) : spec :=
  Spec (popped s ++ pair_up (taken s ++ mailbox s) (q_ s)) (subscribers_ s).

(** The filter that is pushed and not announced yet. *)
Definition unsent (s : pipe) : list F :=
  match m_ s with
  | Some (ByClient t) => match client_at s t with CPushed f => [f] | _ => [] end
  | _ => []
  end.

(** The mutex is held by the one thread that is inside. *)
Definition exclusive (s : pipe) : Prop :=
  (∀ t, client_at s t ≠ CIdle ↔ m_ s = Some (ByClient t)) ∧
  ((∃ t, server_ s = HLocked t) ∨ (∃ t f, server_ s = HPopped t f) ↔ m_ s = Some ByHub).

Definition pipe_ok (s : pipe) : Prop :=
  exclusive s ∧ ∃ q, q_ s = q ++ unsent s ∧ length q = filtered (taken s ++ mailbox s).

Lemma filtered_app l k : filtered (l ++ k) = (filtered l + filtered k)%nat.
Proof. unfold filtered. by rewrite omap_app, length_app. Qed.

(** A filter without a message is not seen. *)
Lemma pair_up_extra ms q q' : length q = filtered ms → pair_up ms (q ++ q') = pair_up ms q.
Proof.
  revert q. induction ms as [|[t|t|] ms IH]; intros q Hq; simpl; [done|..].
  - destruct q as [|f q]; [done|]. simpl. f_equal. apply IH. by injection Hq.
  - f_equal. by apply IH.
  - by apply IH.
Qed.

Lemma pair_up_app ms ms' q q' :
  length q = filtered ms → pair_up (ms ++ ms') (q ++ q') = pair_up ms q ++ pair_up ms' q'.
Proof.
  revert q. induction ms as [|[t|t|] ms IH]; intros q Hq; simpl.
  - by destruct q.
  - destruct q as [|f q]; [done|]. simpl. f_equal. apply IH. by injection Hq.
  - f_equal. by apply IH.
  - by apply IH.
Qed.

(** What a step does: keeps the state in order, and is a step of the
    specification or none. *)
Definition simulated (x : list (nat * option F)) (s : pipe) (o : pout) : Prop :=
  match o with
  | PNext s' => pipe_ok s' ∧ (abs s' = abs s ∧ x = [] ∨ spec_step x (abs s) (abs s'))
  | PBlocked => True
  | PUndefined => False
  end.

Lemma client_at_set t t' c s :
  client_at (set_client t c s) t' = if decide (t' = t) then c else client_at s t'.
Proof.
  unfold client_at, set_client. simpl. destruct (decide (t' = t)) as [->|]; by rewrite ?lookup_insert_eq, ?lookup_insert_ne.
Qed.

Lemma exclusive_client t c s s' :
  exclusive s → client_at s t ≠ CIdle → c ≠ CIdle →
  m_ s' = m_ s → server_ s' = server_ s → clients s' = clients s → exclusive (set_client t c s').
Proof.
  intros [He Hh] Ht Hc Hm Hs Hcl. split.
  - intros t'. rewrite client_at_set. simpl. rewrite Hm. unfold client_at at 1. rewrite Hcl.
    destruct (decide (t' = t)) as [->|]; [|apply He]. apply He in Ht. naive_solver.
  - simpl. by rewrite Hm, Hs.
Qed.

(** The client that is inside holds the mutex, so its filter is the last. *)
Lemma unsent_at s t : exclusive s → client_at s t ≠ CIdle →
  unsent s = match client_at s t with CPushed f => [f] | _ => [] end.
Proof. intros [He _] Ht. apply He in Ht. unfold unsent. by rewrite Ht. Qed.

(** Steps of a client: only the message makes the subscription. *)
Lemma push_simulated l s :
  pipe_ok s → (∀ t, l ≠ SendPlain t) → simulated (asked l s) s (push_step l s).
Proof.
  intros [Hx (q & Hq & Hl)] Hn. destruct l as [t f|t|t|t|t| | | | |]; try done.
  all: simpl; destruct (client_at s t) as [|f'|f'|] eqn:Hc; try done.
  2, 3, 4: pose proof (unsent_at s t Hx ltac:(by rewrite Hc)) as Hu; rewrite Hc in Hu; rewrite Hu in Hq.
  2, 3, 4: assert (m_ s = Some (ByClient t)) as Hm by (apply Hx; by rewrite Hc).
  - destruct (m_ s) as [h|] eqn:Hm; [done|]. destruct Hx as [He Hh]. split; [split; [split|]|by left].
    + intros t'. rewrite client_at_set. simpl. destruct (decide (t' = t)) as [->|Hne]; [naive_solver|].
      change (client_at s t' ≠ CIdle ↔ Some (ByClient t) = Some (ByClient t')). rewrite He, Hm. naive_solver.
    + simpl. rewrite Hh, Hm. naive_solver.
    + exists q. unfold unsent in *. rewrite Hm in Hq. simpl. by rewrite client_at_set, decide_True.
  - split; [split|].
    + apply (exclusive_client t _ s); try done. by rewrite Hc.
    + exists q. unfold unsent. simpl. rewrite Hm, client_at_set, decide_True by done. by rewrite Hq, app_nil_r.
    + left. split; [|done]. unfold abs, popped, taken. simpl. do 2 f_equal. rewrite Hq, app_nil_r. by apply pair_up_extra.
  - split; [split|].
    + apply (exclusive_client t _ s); try done. by rewrite Hc.
    + exists (q ++ [f']). unfold unsent. simpl. rewrite Hm, client_at_set, decide_True, app_nil_r by done.
      split; [done|]. change (taken (set_client t CSent (set_mailbox (mailbox s ++ [MFiltered t]) s))) with (taken s).
      by rewrite app_assoc, filtered_app, <-Hl, length_app.
    + right. unfold abs. simpl. change (popped (set_client t CSent _)) with (popped s).
      change (taken (set_client t CSent _)) with (taken s).
      rewrite Hq, (app_assoc (taken s)), (pair_up_app (taken s ++ mailbox s)), (pair_up_extra (taken s ++ mailbox s)) by done.
      rewrite app_assoc. apply spec_subscribe.
  - destruct Hx as [He Hh]. split; [split; [split|]|by left].
    + intros t'. rewrite client_at_set. simpl. destruct (decide (t' = t)) as [->|Hne]; [naive_solver|].
      change (client_at s t' ≠ CIdle ↔ None = Some (ByClient t')). rewrite He, Hm. naive_solver.
    + simpl. rewrite Hh, Hm. naive_solver.
    + exists q. by rewrite app_nil_r in *.
Qed.

(** The mutex is not the hub's concern until it pops: a filter that is not
    announced stays behind those that are. *)
Lemma take_simulated s : pipe_ok s → simulated [] s (take_step s).
Proof.
  intros [[He Hh] (q & Hq & Hl)]. unfold take_step. destruct (server_ s) eqn:Hs; try done.
  destruct (mailbox s) as [|[t|t|] l] eqn:Hm; try done.
  all: unfold taken in Hl; rewrite Hs in Hl; simpl in Hl.
  - split; [split; [split|]|].
    + done.
    + simpl. rewrite <-Hh. naive_solver.
    + by exists q.
    + left. split; [|done]. unfold abs, popped, taken. simpl. by rewrite Hs, Hm.
  - split; [split; [split|]|].
    + done.
    + simpl. by rewrite Hs.
    + exists q. unfold taken. simpl. by rewrite Hs.
    + right. unfold abs, popped, taken. simpl. rewrite Hs, Hm. simpl. apply spec_register.
  - split; [split; [split|]|].
    + done.
    + simpl. by rewrite Hs.
    + exists q. unfold taken. simpl. by rewrite Hs.
    + left. split; [|done]. unfold abs, popped, taken. simpl. by rewrite Hs, Hm.
Qed.

Lemma pop_simulated l s : pipe_ok s → simulated [] s (pop_step l s).
Proof.
  intros [[He Hh] (q & Hq & Hl)]. unfold pop_step.
  destruct l; try done; destruct (server_ s) as [|t|t|t f] eqn:Hs; try done.
  - destruct (m_ s) as [h|] eqn:Hm; [done|]. split; [split; [split|]|].
    + intros t'. simpl. change (client_at s t' ≠ CIdle ↔ Some ByHub = Some (ByClient t')). rewrite He. naive_solver.
    + simpl. naive_solver.
    + exists q. unfold unsent, taken in *. rewrite Hm, Hs in *. simpl. done.
    + left. split; [|done]. unfold abs, popped, taken. simpl. by rewrite Hs.
  - assert (m_ s = Some ByHub) as Hm by (apply Hh; eauto).
    unfold unsent in Hq. rewrite Hm, app_nil_r in Hq. subst q. unfold taken in Hl. rewrite Hs in Hl.
    destruct (q_ s) as [|f q] eqn:Hqs; [done|]. split; [split; [split|]|].
    + done.
    + simpl. rewrite Hm. naive_solver.
    + exists q. unfold unsent, taken. simpl. rewrite Hm, app_nil_r. split; [done|]. by injection Hl.
    + left. split; [|done]. unfold abs, popped, taken. simpl. by rewrite Hs, Hqs.
  - assert (m_ s = Some ByHub) as Hm by (apply Hh; eauto).
    split; [split; [split|]|].
    + intros t'. simpl. change (client_at s t' ≠ CIdle ↔ None = Some (ByClient t')). rewrite He, Hm. naive_solver.
    + simpl. naive_solver.
    + exists q. unfold unsent, taken in *. rewrite Hm, Hs in *. simpl. done.
    + right. unfold abs, popped, taken. simpl. rewrite Hs. simpl. apply spec_register.
Qed.

Lemma send_simulated m s :
  pipe_ok s → (∀ t, m ≠ MFiltered t) →
  simulated (match m with MPlain t => [(t, None)] | _ => [] end) s (PNext (set_mailbox (mailbox s ++ [m]) s)).
Proof.
  intros [Hx (q & Hq & Hl)] Hm. split; [split; [done|]|].
  - exists q. split; [done|]. simpl. change (taken (set_mailbox _ s)) with (taken s).
    rewrite app_assoc, filtered_app, Hl. destruct m; simpl; [naive_solver|unfold filtered; simpl; lia..].
  - unfold abs. simpl. change (popped (set_mailbox _ s)) with (popped s). change (taken (set_mailbox _ s)) with (taken s).
    rewrite Hq, (app_assoc (taken s)), (pair_up_app (taken s ++ mailbox s)), (pair_up_extra (taken s ++ mailbox s)) by done.
    destruct m; simpl; [naive_solver| |left; by rewrite app_nil_r].
    right. rewrite app_assoc. apply spec_subscribe.
Qed.

Lemma pipe_simulated l s : pipe_ok s → simulated (asked l s) s (pipe_step l s).
Proof.
  intros Hs. destruct l as [t f|t|t|t|t| | | | |]; unfold pipe_step.
  5: by apply (send_simulated (MPlain t) s Hs).
  5: by apply (send_simulated MOther s Hs).
  all: first [by apply push_simulated|by apply pop_simulated|by apply take_simulated].
Qed.

(** Any interleaving, with the subscriptions it makes. *)
Inductive pipe_run : pipe → list (nat * option F) → pipe → Prop :=
| pipe_run_nil s : pipe_run s [] s
| pipe_run_cons s l s' x s'' : pipe_step l s = PNext s' → pipe_run s' x s'' → pipe_run s (asked l s ++ x) s''.

Lemma pipe_start_ok : pipe_ok pipe_start.
Proof.
  split; [split|by exists []].
  - intros t. unfold client_at. simpl. rewrite lookup_empty. naive_solver.
  - simpl. naive_solver.
Qed.

Lemma pipe_run_simulated s x s' :
  pipe_run s x s' → pipe_ok s → pipe_ok s' ∧ everyone (abs s') = everyone (abs s) ++ x.
Proof.
  induction 1 as [s|s l s1 x s2 Hl Hr IH]; intros Hs; [by rewrite app_nil_r|].
  pose proof (pipe_simulated l s Hs) as Hsim. rewrite Hl in Hsim. destruct Hsim as [H1 H2].
  destruct (IH H1) as [H3 H4]. split; [done|]. rewrite H4.
  destruct H2 as [[-> ->]|H2%spec_everyone]; [done|]. by rewrite H2, app_assoc.
Qed.
(** A run that can be evaluated. *)
Fixpoint pipe_exec (ls : list label) (s : pipe) : option (list (nat * option F) * pipe) :=
  match ls with
  | [] => Some ([], s)
  | l :: ls =>
      match pipe_step l s with
      | PNext s' => match pipe_exec ls s' with Some (x, s'') => Some (asked l s ++ x, s'') | None => None end
      | _ => None
      end
  end.

Lemma pipe_exec_run ls s x s' : pipe_exec ls s = Some (x, s') → pipe_run s x s'.
Proof.
  revert s x. induction ls as [|l ls IH]; intros s x; simpl; [intros [= <- <-]; constructor|].
  destruct (pipe_step l s) as [s1| |] eqn:Hl; try done.
  destruct (pipe_exec ls s1) as [[y s2]|] eqn:He; [|done]. intros [= <- <-]. econstructor; eauto.
Qed.
End pipe.

(** C35: subscribe_queue: over any interleaving of the threads that subscribe and
    the hub, at the granularity of the mutex, the queue and the mailbox: the
    hub never pops an empty queue of filters; the subscribers it has are the
    first of those that have subscribed, in the order of their messages and
    each with its own filter; and when no message waits and the hub is idle
    it has all of them. *)
Theorem filters_paired {F : Type} (x : list (nat * option F)) (s : pipe) :
  pipe_run pipe_start x s →
  (∀ l, pipe_step l s ≠ PUndefined) ∧
  subscribers_ s `prefix_of` x ∧
  (server_ s = HIdle → mailbox s = [] → subscribers_ s = x).
Proof.
  intros Hr. destruct (pipe_run_simulated _ _ _ Hr pipe_start_ok) as [Hs Hx]. simpl in Hx.
  split_and!.
  - intros l Hl. pose proof (pipe_simulated l s Hs) as Hsim. by rewrite Hl in Hsim.
  - rewrite <-Hx. by eexists.
  - intros Hh Hm. rewrite <-Hx. unfold everyone, abs, popped, taken. rewrite Hh, Hm. simpl. by rewrite app_nil_r.
Qed.

(** Two threads whose calls overlap, and one that subscribes without a filter
    between their messages. *)
Lemma filters_paired_witness :
  ∃ s : pipe (F := Z),
    pipe_exec [Lock 7 1; PushBack 7; SendMsg 7; HubTake; SendPlain 5; Unlock 7; Lock 8 2; PushBack 8; SendOther;
               SendMsg 8; Unlock 8; HubLock; HubFront; HubUnlock; HubTake; HubTake; HubTake; HubLock; HubFront;
               HubUnlock] pipe_start = Some ([(7%nat, Some 1); (5%nat, None); (8%nat, Some 2)], s) ∧
    subscribers_ s = [(7%nat, Some 1); (5%nat, None); (8%nat, Some 2)].
Proof.
  eexists. split; [vm_compute; reflexivity|].
  apply (filters_paired [(7%nat, Some 1); (5%nat, None); (8%nat, Some 2)]); [|done|done].
  eapply (pipe_exec_run [Lock 7 1; PushBack 7; SendMsg 7; HubTake; SendPlain 5; Unlock 7; Lock 8 2; PushBack 8; SendOther;
               SendMsg 8; Unlock 8; HubLock; HubFront; HubUnlock; HubTake; HubTake; HubTake; HubLock; HubFront;
               HubUnlock]). vm_compute. reflexivity.
Defined.
