(* ===== verification/EndpointTheorems.v ===== *)
(** * What the endpoints guarantee *)
From S2P Require Import Prelude CborEncode Ieee CborDecode CborGrammar CborMatch CborMatchSpec CppText CborJson Env Instance InstanceInv InstanceStep Actors Hub Endpoint Debug Library Solo Messages Commands.

(** ** Cutting a stream into messages *)

(** The values an endpoint takes for a message. *)
Definition framed (i : item) : Prop :=
  item_ok i ∧ (item_type i = t_array ∨ item_type i = t_map ∨ item_type i = t_null).

Lemma extract_range_framed i rest :
  framed i → bytes_ok rest → extract_range (wire i ++ rest) = Ok (Some (wire i), rest).
Proof.
  intros [Hi Ht] Hr. pose proof (extract_range_item i rest Hi Hr) as H.
  unfold item_range in H. destruct Ht as [E|[E|E]]; rewrite E in H; exact H.
Qed.

(** What is left is a proper prefix of a message, or nothing. *)
Definition partial (q : bytes) (todo : list item) : Prop :=
  match todo with [] => q = [] | m :: _ => q `prefix_of` wire m ∧ (length q < length (wire m))%nat end.

Lemma extract_range_partial q todo :
  partial q todo → Forall framed todo → q ≠ [] →
  extract_range q = Throw (domain_error (str "cbor message too short")).
Proof.
  destruct todo as [|m todo]; [done|]. intros [Hp Hlt] Hf Hq. apply Forall_cons in Hf as [[Hm _] _].
  pose proof (skip_value_truncated m q Hm Hp Hlt) as H.
  rewrite skip_value_unfold in H. unfold extract_range, match_type.
  destruct (decode_type q) as [[[[major minor] type] b]|e]; cbn [mbind res_bind] in *; [|by injection H as ->].
  destruct (skip_value_body major minor b); cbn [mbind res_bind] in *; [done|by injection H as ->].
Qed.

(** Any part of a stream of messages is some messages and a partial one. *)
Lemma stream_split todo b :
  b `prefix_of` wires todo →
  ∃ ms q todo', todo = ms ++ todo' ∧ b = wires ms ++ q ∧ partial q todo'.
Proof.
  revert b. induction todo as [|m todo IH]; intros b Hb.
  - exists [], [], []. destruct Hb as [k Hk]. by destruct b.
  - rewrite wires_cons in Hb. destruct (prefix_app_cases b (wire m) (wires todo) Hb) as [H|(k & -> & Hk)].
    + by exists [], b, (m :: todo).
    + destruct (IH k Hk) as (ms & q & todo' & -> & -> & Hp).
      exists (m :: ms), q, todo'. by rewrite wires_cons, <- (assoc_L app).
Qed.

Section endpoint.
Context {U C : Type}.
Abbreviation program := (prog (heap U) (closure C)).
Implicit Types (v : sends_view) (u : heap U).

Lemma set_read_buf_same c q : c_read_buf c = q → set_read_buf q c = c.
Proof. intros <-. by destruct c. Qed.

(** The loop sends the messages and keeps the rest. *)
Lemma play_read_frames v i p j ms :
  ∀ fuel c q todo u (k : unit → program),
  deref p u = Some c → c_read_buf c = wires ms ++ q → (length (wires ms ++ q) <= fuel)%nat →
  Forall framed ms → Forall framed todo → partial q todo → bytes_ok q →
  (∀ m, v (c_owner c) m = (Some j, Ok None)) →
  play v i (read_frames fuel p k) u
  = log_sent ((λ m, (j, wire m)) <$> ms) (play v i (k tt) (store p (set_read_buf q c) u)).
Proof.
  induction ms as [|m ms IH]; intros fuel c q todo u k Hc Hb Hfuel Hms Htodo Hq Hok Hv.
  - cbn [wires fmap list_fmap concat app] in Hb, Hfuel. rewrite log_sent_nil.
    rewrite set_read_buf_same, store_same by done.
    destruct fuel; cbn [read_frames]; rewrite (play_load _ _ p c), Hb by done; case_bool_decide; try done.
    + destruct q; [done|]. cbn in Hfuel. lia.
    + by rewrite (extract_range_partial q todo).
  - apply Forall_cons in Hms as [Hm Hms]. rewrite wires_cons, <- (assoc_L app) in Hb, Hfuel.
    pose proof (wire_nonempty m) as Hne. rewrite length_app in Hfuel. destruct fuel as [|fuel]; [lia|].
    cbn [read_frames]. rewrite (play_load _ _ p c), Hb by done.
    rewrite bool_decide_false by (intros E; apply (f_equal length) in E; rewrite length_app in E; cbn in E; lia).
    assert (bytes_ok (wires ms ++ q)) as Hrest.
    { apply Forall_app. split; [|done]. apply wires_items_ok. eapply Forall_impl; [exact Hms|by intros ? []]. }
    rewrite extract_range_framed, play_tries_send, Hv by done. cbn [fst snd].
    rewrite length_app, Nat.add_sub, take_app_length.
    rewrite (play_modify _ _ p c) by done.
    rewrite (IH fuel (set_read_buf (wires ms ++ q) c) q todo); try done; [|by apply deref_store|lia].
    rewrite store_store. cbn [fmap list_fmap sent]. by rewrite log_sent_app.
Qed.

(** ** Reading *)

Definition read_complete (tag data : bytes) : bytes :=
  io_msg (str "socket") tag (str "read_complete") [AString data].

(** The tag is a C++ string. *)
Definition tag_ok (tag : bytes) : Prop := arg_ok (AString tag).

Lemma socket_ok : arg_ok (AString (str "socket")).
Proof. by_decision. Qed.

Lemma receive_read_complete v i p c data from u :
  deref p u = Some c → tag_ok (c_tag c) → arg_ok (AString data) → data ≠ [] →
  play v i (connection_receive (C := C) p from (read_complete (c_tag c) data)) u
  = play v i (read_frames (C := C) (length (c_read_buf c ++ data)) p (λ _, conn_read p (λ _, Ret None)))
      (store p (set_read_buf (c_read_buf c ++ data) c) u).
Proof.
  intros Hc Htag Hd Hne. unfold connection_receive, read_complete. rewrite (play_load _ _ p c) by done.
  unfold if_match, attempt.
  assert (∀ ev ps, matches (io_msg (str "socket") (c_tag c) (str "read_complete") [AString data])
      (PStr (str "socket") :: PStr (c_tag c) :: PStr ev :: ps)
    = if decide (str "read_complete" = ev) then
        pats_items pat_item (PStr ev :: ps)
          [IText (min_width (len_of (str "read_complete"))) (str "read_complete"); IText (min_width (len_of data)) data]
      else Ok None) as Hm.
  { intros ev ps. apply io_msg_event; [apply socket_ok|done|by_decision|by constructor|done|by repeat constructor]. }
  rewrite Hm, decide_False, Hm, decide_True by done.
  cbn [pats_items is_more pat_item item_string mbind res_bind option_bind fmap option_fmap option_map item_capture].
  rewrite decide_True by done. cbn [app]. rewrite bool_decide_false by done.
  by rewrite (play_modify _ _ p c) by done.
Qed.

Lemma play_chunk v i p j c q todo data from u :
  deref p u = Some c → c_read_buf c = q → tag_ok (c_tag c) → partial q todo → Forall framed todo →
  q ++ data `prefix_of` wires todo → len_of (wires todo) < 2 ^ 64 → data ≠ [] →
  (∀ m, v (c_owner c) m = (Some j, Ok None)) →
  ∃ ms q' todo', todo = ms ++ todo' ∧ q ++ data = wires ms ++ q' ∧ partial q' todo' ∧
    play v i (connection_receive (C := C) p from (read_complete (c_tag c) data)) u
    = Some (io [IoSocketRead (c_s c)] (store p (set_read_buf q' c) u), (λ m, (j, wire m)) <$> ms, inl None).
Proof.
  intros Hc Hb Htag Hq Hf Hp Hlen Hne Hv.
  destruct (stream_split todo (q ++ data) Hp) as (ms & q' & todo' & -> & E & Hq').
  exists ms, q', todo'. split_and!; [done..|].
  assert (bytes_ok (q ++ data)) as Hok.
  { destruct Hp as [k Hk]. assert (bytes_ok (wires (ms ++ todo'))) as H.
    { apply wires_items_ok. eapply Forall_impl; [exact Hf|by intros ? []]. }
    rewrite Hk in H. by apply Forall_app in H as [H _]. }
  apply Forall_app in Hf as [Hms Hf].
  assert (arg_ok (AString data)) as Hd.
  { split; [by apply Forall_app in Hok as [_ Hok]|]. apply prefix_length in Hp.
    unfold len_of in Hlen. rewrite length_app in Hp. lia. }
  rewrite (receive_read_complete v i p c) by done. rewrite Hb.
  rewrite (play_read_frames v i p j ms _ (set_read_buf (q ++ data) c) q' todo'); try done.
  - rewrite store_store. rewrite (play_conn_read _ _ p (set_read_buf q' c)) by apply deref_store.
    cbn. by rewrite app_nil_r.
  - apply deref_store.
  - by rewrite E.
  - rewrite E in Hok. by apply Forall_app in Hok as [_ Hok].
Qed.

(** The chunks that a socket reads, one message of the socket each. *)
Fixpoint feed v (i p : Z) (from : handle) (tag : bytes) (chunks : list bytes) u
  : option (heap U * list (Z * bytes)) :=
  match chunks with
  | [] => Some (u, [])
  | data :: chunks =>
      match play v i (connection_receive (C := C) p from (read_complete tag data)) u with
      | Some (u', log, inl None) =>
          (λ '(u'', l), (u'', log ++ l)) <$> feed v i p from tag chunks u'
      | _ => None
      end
  end.

Lemma feed_stream v i p j from c chunks : ∀ q todo u,
  deref p u = Some (set_read_buf q c) → tag_ok (c_tag c) → partial q todo → Forall framed todo →
  q ++ concat chunks `prefix_of` wires todo → len_of (wires todo) < 2 ^ 64 → Forall (λ d, d ≠ []) chunks →
  (∀ m, v (c_owner c) m = (Some j, Ok None)) →
  ∃ ms q' todo' u', todo = ms ++ todo' ∧ q ++ concat chunks = wires ms ++ q' ∧ partial q' todo' ∧
    feed v i p from (c_tag c) chunks u = Some (u', (λ m, (j, wire m)) <$> ms) ∧
    deref p u' = Some (set_read_buf q' c) ∧
    h_io u' = h_io u ++ replicate (length chunks) (IoSocketRead (c_s c)).
Proof.
  induction chunks as [|data chunks IH]; intros q todo u Hc Htag Hq Hf Hp Hlen Hne Hv.
  { exists [], q, todo, u. cbn [concat]. split_and!; try done; by rewrite !app_nil_r. }
  apply Forall_cons in Hne as [Hd Hne]. cbn [concat] in Hp. rewrite (assoc_L app) in Hp.
  destruct (play_chunk v i p j (set_read_buf q c) q todo data from u) as (ms & q1 & todo1 & -> & E & Hq1 & Hplay);
    try done; [by etrans; [apply prefix_app_r|]; eauto|].
  apply Forall_app in Hf as [Hms Hf]. rewrite E in Hp. rewrite wires_app, <- (assoc_L app) in Hp.
  apply prefix_app_inv in Hp.
  destruct (IH q1 todo1 (io [IoSocketRead (c_s c)] (store p (set_read_buf q1 c) u)))
    as (ms' & q' & todo' & u' & -> & E' & Hq' & Hfeed & Hc' & Hio); try done.
  { rewrite deref_io. apply deref_store. }
  { rewrite wires_app in Hlen. unfold len_of in *. rewrite length_app in Hlen. lia. }
  exists (ms ++ ms'), q', todo', u'. split_and!; try done.
  - by rewrite (assoc_L app).
  - cbn [concat]. by rewrite (assoc_L app), E, wires_app, <- !(assoc_L app), E'.
  - cbn [feed]. cbn [c_tag set_read_buf] in Hplay. rewrite Hplay. cbn [c_s set_read_buf].
    replace (store p (set_read_buf q1 (set_read_buf q c)) u) with (store p (set_read_buf q1 c) u) by done.
    rewrite Hfeed. cbn. by rewrite fmap_app.
  - rewrite Hio. cbn [io h_io]. rewrite h_io_store, <- (assoc_L app). done.
Qed.
(** C13: an endpoint connection cuts the octets it reads into messages: however
    the stream is cut into chunks, after any part of a stream of messages the
    owner has been sent exactly the messages that are complete, in order and
    octet by octet, the rest waits in [read_buf], and one more read was asked
    for after every chunk. *)
Theorem frames_reassembled v i p j from c ms chunks u :
  deref p u = Some c → c_read_buf c = [] → tag_ok (c_tag c) → Forall framed ms →
  concat chunks `prefix_of` wires ms → len_of (wires ms) < 2 ^ 64 → Forall (λ d, d ≠ []) chunks →
  (∀ m, v (c_owner c) m = (Some j, Ok None)) →
  ∃ ms1 q ms2 u', ms = ms1 ++ ms2 ∧ concat chunks = wires ms1 ++ q ∧ partial q ms2 ∧
    feed v i p from (c_tag c) chunks u = Some (u', (λ m, (j, wire m)) <$> ms1) ∧
    deref p u' = Some (set_read_buf q c) ∧
    h_io u' = h_io u ++ replicate (length chunks) (IoSocketRead (c_s c)).
Proof.
  intros Hc Hb Htag Hf Hp Hlen Hne Hv.
  destruct (feed_stream v i p j from c chunks [] ms u) as (ms1 & q & ms2 & u' & H); try done.
  - by rewrite set_read_buf_same.
  - destruct ms as [|m ms]; [done|]. split; [apply prefix_nil|]. pose proof (wire_nonempty m). cbn. lia.
  - by exists ms1, q, ms2, u'.
Qed.

(** ** Values that are no messages *)

(** A complete value that is not an array, a map or null is reported to the
    owner as a framing error and closes the connection, but the value is sent
    to the owner all the same, behind the exit message. *)
Theorem bad_frame_forwarded v i p j from c m u :
  deref p u = Some c → c_read_buf c = [] → c_write_pending c = false → tag_ok (c_tag c) →
  item_ok m → item_range m = None → len_of (wire m) < 2 ^ 64 →
  (∀ m, v (c_owner c) m = (Some j, Ok None)) →
  play v i (connection_receive (C := C) p from (read_complete (c_tag c) (wire m))) u
  = Some (io [IoSocketClose (c_s c); IoSocketRead (c_s c)] (store p (set_close_on_write_complete c) u),
          [(j, exit_message (str "framing_error") []); (j, wire m)], inl None).
Proof.
  intros Hc Hb Hwp Htag Hm Hr Hlen Hv. pose proof (wire_nonempty m) as Hne. pose proof (wire_ok m Hm) as Hok.
  assert (wire m ≠ []) as Hne' by (intros E; rewrite E in Hne; cbn in Hne; lia).
  rewrite (receive_read_complete v i p c) by done. rewrite Hb. cbn [app].
  destruct (length (wire m)) as [|n] eqn:El; [lia|]. cbn [read_frames].
  rewrite (play_load _ _ p (set_read_buf (wire m) c)) by apply deref_store.
  cbn [c_read_buf set_read_buf c_owner]. rewrite bool_decide_false by done.
  assert (extract_range (wire m) = Ok (None, [])) as ->.
  { pose proof (extract_range_item m [] Hm) as H. rewrite app_nil_r, Hr in H. by apply H. }
  rewrite play_tries_send, Hv. cbn [fst snd].
  rewrite (play_conn_close _ _ p (set_read_buf (wire m) c)) by apply deref_store.
  cbn [c_write_pending set_read_buf]. rewrite Hwp, store_store, play_tries_send, Hv. cbn [fst snd length].
  rewrite Nat.sub_0_r, firstn_all.
  rewrite (play_modify _ _ p (set_close_on_write_complete (set_read_buf (wire m) c)))
    by (rewrite deref_io; apply deref_store).
  set (c2 := set_read_buf [] _). assert (c2 = set_close_on_write_complete c) as -> by (by destruct c; cbn in *; subst).
  rewrite store_io, store_store.
  destruct n; cbn [read_frames]; rewrite (play_load _ _ p (set_close_on_write_complete c))
    by (rewrite deref_io; apply deref_store); cbn [c_read_buf set_close_on_write_complete]; rewrite Hb;
    rewrite bool_decide_true by done; rewrite (play_conn_read _ _ p (set_close_on_write_complete c))
    by (rewrite deref_io; apply deref_store); by rewrite io_io.
Qed.

(** ** Streams that are no values *)

(** Octets with which no value begins, whatever follows them. *)
Definition undecodable (b : bytes) : Prop :=
  bytes_ok b ∧ ∀ rest i t, bytes_ok rest → item_ok i → b ++ rest ≠ wire i ++ t.

Lemma undecodable_app b c : undecodable b → bytes_ok c → undecodable (b ++ c).
Proof.
  intros [Hb H] Hc. split; [by apply Forall_app|]. intros rest i t Hr. rewrite <- (assoc_L app).
  apply H. by apply Forall_app.
Qed.

Lemma undecodable_nonempty b : undecodable b → b ≠ [].
Proof.
  intros [_ H] ->. apply (H (wire (IUInt W0 0)) (IUInt W0 0) []); [by_decision..|]. by rewrite app_nil_r.
Qed.

(** [skip_value] throws on them: the decoder is complete for the grammar, so this
    is the same. *)
Lemma undecodable_throws b :
  bytes_ok b → undecodable b ↔ ∀ rest, bytes_ok rest → ∃ e, skip_value (b ++ rest) = Throw (domain_error e).
Proof.
  intros Hb. split.
  - intros [_ H] rest Hr. pose proof (skip_value_domain (b ++ rest)) as Hd.
    destruct (skip_value (b ++ rest)) as [t|[e|e|]] eqn:E; try done; [|by eauto].
    apply skip_value_sound in E as (i & Hi & E); [by apply H in E|by apply Forall_app].
  - intros H. split; [done|]. intros rest i t Hr Hi E. destruct (H rest Hr) as [e He].
    assert (bytes_ok (b ++ rest)) as Ht by by apply Forall_app. rewrite E in He, Ht. apply Forall_app in Ht as [_ Ht].
    by rewrite skip_value_complete in He.
Qed.

Lemma extract_range_throws b e : skip_value b = Throw e → extract_range b = Throw e.
Proof.
  rewrite skip_value_unfold. unfold extract_range, match_type.
  destruct (decode_type b) as [[[[major minor] type] c]|]; cbn [mbind res_bind]; [|by intros [= ->]].
  destruct (skip_value_body major minor c); cbn [mbind res_bind]; [done|by intros [= ->]].
Qed.

(** A first octet that starts no value: a tag, or a reserved length. *)
Definition bad_head (x : Z) : Prop :=
  is_byte x ∧ (Z.shiftr x 5 = 6 ∨ 28 <= Z.land x 31).

Lemma bad_head_throws x rest : bad_head x → ∃ e, skip_value (x :: rest) = Throw (domain_error e).
Proof.
  intros [Hx Hh]. rewrite skip_value_unfold. cbn [decode_type mbind res_bind].
  assert (28 <= Z.land x 31 → ∀ b, decode_pint (Z.land x 31) b = Throw (domain_error (str "cbor invalid integer type"))) as Hp.
  { intros Hl b. unfold decode_pint. ztests; try lia. done. }
  assert (0 <= Z.shiftr x 5 < 8) as Hmaj.
  { rewrite Z.shiftr_div_pow2 by lia. unfold is_byte in Hx. split; [apply Z.div_pos; lia|].
    apply Z.div_lt_upper_bound; lia. }
  unfold skip_value_body, skip_value_type. destruct Hh as [->|Hl]; [by eexists|].
  assert ((24 <=? Z.land x 31) = true) as -> by (apply Z.leb_le; lia).
  unfold decode_nint, skip_bytes, skip_string, skip_array, skip_map. rewrite (Hp Hl).
  assert (Z.shiftr x 5 = 0 ∨ Z.shiftr x 5 = 1 ∨ Z.shiftr x 5 = 2 ∨ Z.shiftr x 5 = 3 ∨ Z.shiftr x 5 = 4 ∨
    Z.shiftr x 5 = 5 ∨ Z.shiftr x 5 = 6 ∨ Z.shiftr x 5 = 7) as Hin by lia.
  repeat (destruct Hin as [->|Hin]; [by eexists|]). rewrite Hin. by eexists.
Qed.

Lemma bad_head_undecodable x : bad_head x → undecodable [x].
Proof.
  intros Hx. apply undecodable_throws; [constructor; [apply Hx|constructor]|]. intros. by apply bad_head_throws.
Qed.

Lemma skip_n_throws l : ∀ n b e,
  Forall item_ok l → len_of l < n → bytes_ok b → skip_value b = Throw e → skip_n n (wires l ++ b) = Throw e.
Proof.
  induction l as [|x l IH]; intros n b e Hl Hn Hb E; rewrite skip_n_unfold.
  - rewrite (proj2 (Z.eqb_neq n 0)) by (unfold len_of in Hn; cbn in Hn; lia). cbn [wires concat fmap list_fmap app]. by rewrite E.
  - apply Forall_cons in Hl as [Hx Hl]. rewrite len_of_cons in Hn. pose proof (len_of_nonneg l).
    rewrite (proj2 (Z.eqb_neq n 0)) by lia. rewrite wires_cons, <- (assoc_L app), skip_value_complete.
    + cbn [mbind res_bind]. apply IH; [done|lia|done..].
    + done.
    + apply Forall_app; split; [|done]. apply wires_ok. eapply Forall_impl; [exact Hl|exact wire_ok].
Qed.

(** An array or a map that is undecodable behind some of its elements. *)
Lemma element_undecodable w major (v n : Z) l b :
  (major = 4 ∧ n = v) ∨ (major = 5 ∧ n = u64 (v * 2)) →
  0 <= v < width_bound w → Forall item_ok l → len_of l < n → undecodable b →
  undecodable (head w major v ++ wires l ++ b).
Proof.
  intros Hn Hv Hl Hlt Hb. pose proof Hb as [Hbok _].
  assert (bytes_ok (wires l ++ b)) as Hlb.
  { apply Forall_app; split; [|done]. apply wires_ok. eapply Forall_impl; [exact Hl|exact wire_ok]. }
  apply undecodable_throws.
  - apply Forall_app; split; [|done]. apply head_ok; [|done]. lia.
  - intros rest Hr. destruct (proj1 (undecodable_throws b Hbok) Hb rest Hr) as [e He]. exists e.
    assert (bytes_ok ((wires l ++ b) ++ rest)) as Hlr by by apply Forall_app.
    rewrite <- (assoc_L app), skip_value_head, skip_value_body_head by (done || lia).
    rewrite <- (assoc_L app). destruct Hn as [[-> ->]|[-> ->]]; (apply skip_n_throws; [done..|by apply Forall_app|done]).
Qed.

(** C38: an endpoint connection takes octets with which no value begins for one that
    is not complete: when its buffer holds such octets (a tag, a reserved length,
    or an array or map with such an element, at any depth), then whatever it reads
    from then on, the owner is sent nothing, the connection stays open and reads
    on, and the buffer keeps everything and grows. *)
Theorem malformed_stream_stalls v i p from c chunks u :
  deref p u = Some c → undecodable (c_read_buf c) → tag_ok (c_tag c) →
  Forall (λ d, d ≠ [] ∧ arg_ok (AString d)) chunks →
  ∃ u', feed v i p from (c_tag c) chunks u = Some (u', []) ∧
    deref p u' = Some (set_read_buf (c_read_buf c ++ concat chunks) c) ∧
    h_io u' = h_io u ++ replicate (length chunks) (IoSocketRead (c_s c)).
Proof.
  intros Hc Hx Htag Hch. revert c u Hc Hx Htag.
  induction Hch as [|data chunks [Hd Hok] _ IH]; intros c u Hc Hx Htag.
  { exists u. cbn [concat length replicate feed]. rewrite !app_nil_r, set_read_buf_same; done. }
  set (c1 := set_read_buf (c_read_buf c ++ data) c).
  assert (undecodable (c_read_buf c1)) as Hx1 by by apply undecodable_app; [|apply Hok].
  destruct (IH c1 (io [IoSocketRead (c_s c)] (store p c1 u))) as (u' & Hf & Hc' & Hio);
    [rewrite deref_io; apply deref_store|done|done|].
  exists u'. split_and!.
  - cbn [feed]. rewrite (receive_read_complete v i p c) by done. fold c1.
    destruct (length (c_read_buf c ++ data)) as [|n] eqn:El.
    { exfalso. by apply (undecodable_nonempty _ Hx1), length_zero_iff_nil. }
    cbn [read_frames]. rewrite (play_load _ _ p c1) by apply deref_store.
    rewrite bool_decide_false by by apply undecodable_nonempty.
    destruct (proj1 (undecodable_throws _ (proj1 Hx1)) Hx1 [] ltac:(constructor)) as [e He].
    rewrite app_nil_r in He. rewrite (extract_range_throws _ _ He).
    rewrite (play_conn_read _ _ p c1) by apply deref_store. cbn [play].
    change (c_tag c) with (c_tag c1). change (c_s c1) with (c_s c). by rewrite Hf.
  - rewrite Hc'. cbn [concat]. by rewrite (assoc_L app).
  - rewrite Hio. cbn [io h_io]. by rewrite h_io_store, <- (assoc_L app).
Qed.
End endpoint.

Lemma frames_reassembled_witness :
  let c := Connection 1 (self_handle 7) [] (str "endpoint::tcp::active") false false true in
  let ms := [IArray W0 [IText W0 (str "ab"); IUInt W0 5]; IArray W0 [IUInt W0 7]] in
  let chunks := [[0x82]; [0x62; 0x61]; [0x62; 0x05; 0x81]] in
  ∃ ms1 q ms2 u', ms = ms1 ++ ms2 ∧ concat chunks = wires ms1 ++ q ∧ partial q ms2 ∧
    feed (C := nat) (λ _ _, (Some 7, Ok None)) 3 2 null_handle (c_tag c) chunks
      (store 2 c (heap_empty tt)) = Some (u', (λ m, (7, wire m)) <$> ms1) ∧
    deref 2 u' = Some (set_read_buf q c) ∧
    h_io u' = h_io (store 2 c (heap_empty tt)) ++ replicate (length chunks) (IoSocketRead (c_s c)).
Proof.
  intros c ms chunks.
  apply (frames_reassembled (C := nat) (λ _ _, (Some 7, Ok None)) 3 2 7 null_handle c ms chunks
    (store 2 c (heap_empty tt))).
  - apply deref_store.
  - reflexivity.
  - by_decision.
  - repeat constructor; by_decision.
  - by exists [0x07].
  - vm_compute. reflexivity.
  - repeat constructor; discriminate.
  - done.
Defined.

Lemma bad_frame_forwarded_witness :
  let c := Connection 1 (self_handle 7) [] (str "endpoint::tcp::active") false false true in
  let u := store 2 c (heap_empty tt) in
  play (λ _ _, (Some 7, Ok None)) 3 (connection_receive (C := nat) 2 null_handle
    (read_complete (c_tag c) (wire (IText W0 (str "hi"))))) u
  = Some (io [IoSocketClose 1; IoSocketRead 1] (store 2 (set_close_on_write_complete c) u),
          [(7, exit_message (str "framing_error") []); (7, wire (IText W0 (str "hi")))], inl None).
Proof.
  intros c u. apply (bad_frame_forwarded (λ _ _, (Some 7, Ok None)) 3 2 7 null_handle c); try done.
  - by_decision.
  - by_decision.
Defined.

(** An array of two with a string and a tag. *)
Lemma malformed_stream_stalls_witness :
  let c := Connection 1 (self_handle 7) [0x82; 0x61; 0x78; 0xc0] (str "endpoint::tcp::active") false false true in
  let u := store 2 c (heap_empty tt) in
  ∃ u', feed (C := nat) (λ _ _, (Some 7, Ok None)) 3 2 null_handle (c_tag c) [[0x81; 0x01]] u = Some (u', []) ∧
    deref 2 u' = Some (set_read_buf [0x82; 0x61; 0x78; 0xc0; 0x81; 0x01] c) ∧ h_io u' = h_io u ++ [IoSocketRead 1].
Proof.
  intros c u. apply (malformed_stream_stalls (λ _ _, (Some 7, Ok None)) 3 2 null_handle c).
  - apply deref_store.
  - apply (element_undecodable W0 4 2 2 [IText W0 (str "x")] [0xc0]); [by left|done|by_decision|done|].
    apply bad_head_undecodable. split; [done|]. left. by vm_compute.
  - by_decision.
  - repeat constructor; by_decision.
Defined.
