(* ===== verification/ConnectorTheorems.v ===== *)
(** * How often an endpoint connector tries

    The connectors of [src/src/instance.cpp] (namespaces [endpoint::tcp] and
    [endpoint::unx]), driven by the messages of the connector object and of the
    retry timeout. *)
From S2P Require Import Prelude CborEncode Ieee CborDecode CborGrammar CborMatch CborMatchSpec CppText CborJson Env Instance InstanceInv InstanceStep Actors Hub Endpoint Debug Library Solo Messages Commands.

Section connector.
Context {U C : Type}.
Abbreviation program := (prog (heap U) (closure C)).
Implicit Types (v : sends_view) (u : heap U) (s : connector).

Definition connector_receive (a : addr) : Z → handle → bytes → program :=
  match a with TcpAddr _ _ => tcp_connector_receive | UnxAddr _ _ => unx_connector_receive end.

Definition connector_msg (a : addr) (ev : bytes) (args : list arg) : bytes :=
  io_msg (str "connector") (connector_tag a) ev args.
Definition error_msg (a : addr) (ec : Z) (data : bytes) : bytes :=
  connector_msg a (str "error") [AInt ec; AString data].
Definition retry_msg (a : addr) : bytes := connector_msg a (str "retry") [].

Lemma connector_tag_ok a : arg_ok (AString (connector_tag a)).
Proof. destruct a; by_decision. Qed.

Lemma connector_event a ev ev' args l ps :
  arg_ok (AString ev) → Forall arg_ok args → len_of args < 2 ^ 32 → Forall2 arg_item args l →
  matches (connector_msg a ev args) (PStr (str "connector") :: PStr (connector_tag a) :: PStr ev' :: ps)
  = if decide (ev = ev') then pats_items pat_item (PStr ev' :: ps) (IText (min_width (len_of ev)) ev :: l)
    else Ok None.
Proof. intros. apply io_msg_event; try done; [by_decision|apply connector_tag_ok]. Qed.

(** Every message but [connected] is handled the same way by both kinds. *)
Lemma connector_rest_receive v i a p s from ev args l u :
  deref p u = Some s → arg_ok (AString ev) → Forall arg_ok args → len_of args < 2 ^ 32 →
  Forall2 arg_item args l → ev ≠ str "connected" →
  play v i (connector_receive a p from (connector_msg a ev args)) u
  = play v i (connector_rest (C := C) p (connector_tag a) (connector_msg a ev args)) u.
Proof.
  intros Hs Hev Ha Hlen Hl Hne.
  pose proof (connector_event a ev (str "connected") args l [PExtract int_target] Hev Ha Hlen Hl) as Hm.
  rewrite decide_False in Hm by done.
  destruct a; cbn [connector_receive]; unfold tcp_connector_receive, unx_connector_receive;
    rewrite (play_load _ _ p s) by done; unfold if_match, attempt; cbn [connector_tag] in *; by rewrite Hm.
Qed.

(** An error of the connector object. *)
Section error.
Context (a : addr) (ec : Z) (data : bytes).
Context (Hec : - 2 ^ 31 <= ec < 2 ^ 31) (Hdata : arg_ok (AString data)).

Lemma error_ok : Forall arg_ok [AInt ec; AString data].
Proof. constructor; [cbn; unfold is_s64; lia|]. by constructor. Qed.

Lemma error_captures ps :
  matches (error_msg a ec data)
    [PStr (str "connector"); PStr (connector_tag a); PStr (str "error"); PExtract int_target; PExtract XString]
  = Ok (Some [CInt ec; CString data]) ∧
  matches (error_msg a ec data) (PStr (str "connector") :: PStr (connector_tag a) :: PStr (str "cancelled") :: ps)
  = Ok None.
Proof.
  unfold error_msg. set (i := if ec <? 0 then INInt (min_width (- ec - 1)) (- ec - 1) else IUInt (min_width ec) ec).
  assert (Forall2 arg_item [AInt ec; AString data] [i; IText (min_width (len_of data)) data]) as Hi
    by by repeat constructor.
  assert (item_capture int_target i = Some (CInt ec)) as Hc.
  { unfold i, int_target, item_capture. destruct (Z.ltb_spec ec 0); cbn [item_int].
    - unfold nint_value. rewrite (proj2 (Z.ltb_lt _ _)) by lia. cbn [mbind option_bind].
      replace (-1 - (- ec - 1)) with ec by lia. ztests; try lia. done.
    - rewrite (proj2 (Z.ltb_lt _ _)) by lia. cbn [mbind option_bind]. ztests; try lia. done. }
  split; rewrite (connector_event a (str "error") _ _ _ _ ltac:(by_decision) error_ok ltac:(done) Hi).
  - rewrite decide_True by done. rewrite !pats_items_cons. cbn [pats_items is_more pat_item]. rewrite Hc.
    reflexivity.
  - by rewrite decide_False.
Qed.

(** While attempts are left, a timeout is set and the delay doubles. *)
Lemma play_error v i p s from u :
  deref p u = Some s → k_connection_count s <= k_retry_count s →
  ∃ u', play v i (connector_receive a p from (error_msg a ec data)) u = Some (u', [], inl None) ∧
    deref p u' = Some (Connector (k_c s) (k_owner s) (u64 (k_connection_count s + 1)) (k_addr s)
                         (s64 (k_retry_time s * 2)) (k_retry_count s) (Some (h_next u))) ∧
    h_io u' = h_io u ++ IoTimeoutCreate (h_next u) (s64 (k_retry_time s * 1000)) (retry_msg a) ::
                match k_retry_timeout s with Some old => [IoTimeoutDestroy old] | None => [] end.
Proof.
  intros Hs Hle. unfold error_msg.
  rewrite (connector_rest_receive v i a p s from (str "error") [AInt ec; AString data]
    [if ec <? 0 then INInt (min_width (- ec - 1)) (- ec - 1) else IUInt (min_width ec) ec; IText (min_width (len_of data)) data] u Hs
    ltac:(by_decision) error_ok ltac:(done) ltac:(by repeat constructor) ltac:(done)).
  fold (error_msg a ec data). unfold connector_rest. rewrite (play_load _ _ p s) by done.
  unfold if_match, attempt. rewrite (proj2 (error_captures [])), (proj1 (error_captures [])).
  rewrite (proj2 (Z.ltb_ge _ _)) by done. unfold connector_retry.
  rewrite (play_modify _ _ p s) by done. rewrite (play_load _ _ p _) by apply deref_store.
  cbn [k_retry_time k_retry_timeout]. unfold creates. cbn [play].
  rewrite play_performs. set (u1 := io _ _).
  set (s1 := Connector _ _ _ _ _ _ _) in *.
  assert (deref p u1 = Some s1) as Hs1 by (unfold u1; rewrite deref_io; exact (deref_store u p s1)).
  rewrite (play_modify _ _ p s1) by done. eexists. split; [reflexivity|]. split.
  - rewrite deref_store. done.
  - rewrite h_io_store. unfold u1. cbn. by rewrite <- (assoc_L app).
Qed.

(** With none left the connector exits. *)
Lemma play_error_last v i p s from u :
  deref p u = Some s → k_retry_count s < k_connection_count s →
  play v i (connector_receive a p from (error_msg a ec data)) u
  = Some (u, [], inl (exit_ (Some (str "connect_error", [AString data])))).
Proof.
  intros Hs Hlt. unfold error_msg.
  rewrite (connector_rest_receive v i a p s from (str "error") [AInt ec; AString data]
    [if ec <? 0 then INInt (min_width (- ec - 1)) (- ec - 1) else IUInt (min_width ec) ec; IText (min_width (len_of data)) data] u Hs
    ltac:(by_decision) error_ok ltac:(done) ltac:(by repeat constructor) ltac:(done)).
  fold (error_msg a ec data). unfold connector_rest. rewrite (play_load _ _ p s) by done.
  unfold if_match, attempt. rewrite (proj2 (error_captures [])), (proj1 (error_captures [])).
  by rewrite (proj2 (Z.ltb_lt _ _)) by done.
Qed.
End error.

(** The timeout of a retry: the next attempt. *)
Lemma play_retry v i a p s from u :
  deref p u = Some s →
  play v i (connector_receive a p from (retry_msg a)) u
  = Some (io [IoConnect (k_c s) (k_addr s)] u, [], inl None).
Proof.
  intros Hs. unfold retry_msg.
  assert (arg_ok (AString (str "retry"))) as Hr by by_decision.
  rewrite (connector_rest_receive v i a p s from (str "retry") [] [] u Hs) by (done || constructor).
  unfold connector_rest. rewrite (play_load _ _ p s) by done. unfold if_match, attempt.
  rewrite !(connector_event a (str "retry") _ [] []) by (done || constructor).
  rewrite (decide_False (P := str "retry" = str "cancelled")), (decide_False (P := str "retry" = str "error")) by done.
  rewrite (decide_True (P := str "retry" = str "retry")) by done. reflexivity.
Qed.

(** ** All attempts *)

(** [n] times an error of the connector object and then the retry timeout. *)
Fixpoint rounds v (i : Z) (a : addr) (p : Z) (from : handle) (ec : Z) (data : bytes) (n : nat) u
  : option (heap U) :=
  match n with
  | O => Some u
  | S n =>
      match rounds v i a p from ec data n u with
      | Some u =>
          match play v i (connector_receive a p from (error_msg a ec data)) u with
          | Some (u, [], inl None) =>
              match play v i (connector_receive a p from (retry_msg a)) u with
              | Some (u, [], inl None) => Some u
              | _ => None
              end
          | _ => None
          end
      | None => None
      end
  end.

(** The attempts among the calls of the executor, and the delays in microseconds. *)
Definition attempts (l : list io_call) : list addr :=
  omap (λ c, match c with IoConnect _ a => Some a | _ => None end) l.
Definition delays (l : list io_call) : list Z :=
  omap (λ c, match c with IoTimeoutCreate _ us _ => Some us | _ => None end) l.

Lemma attempts_app l k : attempts (l ++ k) = attempts l ++ attempts k.
Proof. apply omap_app. Qed.
Lemma delays_app l k : delays (l ++ k) = delays l ++ delays k.
Proof. apply omap_app. Qed.

Lemma attempts_timeout t us m l : attempts (IoTimeoutCreate t us m :: l) = attempts l.
Proof. done. Qed.
Lemma delays_timeout t us m l : delays (IoTimeoutCreate t us m :: l) = us :: delays l.
Proof. done. Qed.

Lemma rounds_spec v i a p from ec data c owner rt rc n u :
  deref p u = Some (Connector c owner 1 a rt rc None) → 0 <= rc < 2 ^ 63 → Z.of_nat n <= rc →
  0 <= rt → rt * 2 ^ (Z.of_nat n - 1) * 1000 < 2 ^ 63 → - 2 ^ 31 <= ec < 2 ^ 31 → arg_ok (AString data) →
  ∃ u' t, rounds v i a p from ec data n u = Some u' ∧
    deref p u' = Some (Connector c owner (1 + Z.of_nat n) a (rt * 2 ^ Z.of_nat n) rc t) ∧
    attempts (h_io u') = attempts (h_io u) ++ replicate n a ∧
    delays (h_io u') = delays (h_io u) ++ ((λ k, rt * 2 ^ Z.of_nat k * 1000) <$> seq 0 n).
Proof.
  intros Hs Hrc. revert u Hs. induction n as [|n IH]; intros u Hs Hn Hrt Hov Hec Hd.
  { exists u, None. split_and!; [done| |by rewrite app_nil_r..]. rewrite Hs.
    change (2 ^ Z.of_nat 0) with 1. by rewrite Z.mul_1_r. }
  replace (Z.of_nat (S n) - 1) with (Z.of_nat n) in Hov by lia.
  assert (rt * 2 ^ (Z.of_nat n - 1) * 1000 < 2 ^ 63) as Hov'.
  { destruct n as [|n]; [cbn; lia|]. replace (Z.of_nat (S n)) with (Z.succ (Z.of_nat (S n) - 1)) in Hov by lia.
    rewrite Z.pow_succ_r in Hov by lia. pose proof (Z.pow_nonneg 2 (Z.of_nat (S n) - 1)). nia. }
  pose proof (Z.pow_nonneg 2 (Z.of_nat n) ltac:(lia)) as Hpow.
  destruct (IH u Hs) as (u1 & t & Hr & Hs1 & Ha1 & Hd1); [lia|done..|].
  destruct (play_error a ec data Hec Hd v i p _ from u1 Hs1) as (u2 & Hp2 & Hs2 & Hio2);
    [cbn [k_connection_count k_retry_count]; lia|].
  cbn [k_connection_count k_retry_time k_retry_count k_c k_owner k_addr k_retry_timeout] in *.
  rewrite (s64_small (_ * 2)) in Hs2 by (unfold is_s64; nia).
  rewrite (s64_small (_ * 1000)) in Hio2 by (unfold is_s64; nia).
  exists (io [IoConnect c a] u2), (Some (h_next u1)). split_and!.
  - cbn [rounds]. rewrite Hr, Hp2, (play_retry v i a p _ from u2 Hs2). done.
  - rewrite deref_io, Hs2. rewrite u64_small by (unfold is_u64; lia). f_equal. f_equal; [lia|].
    rewrite Nat2Z.inj_succ, Z.pow_succ_r by lia. lia.
  - cbn [io h_io]. rewrite Hio2, !attempts_app, Ha1, attempts_timeout, replicate_S_end, <- !(assoc_L app).
    by destruct t.
  - cbn [io h_io]. rewrite Hio2, !delays_app, Hd1, delays_timeout, seq_S, fmap_app, <- !(assoc_L app).
    by destruct t.
Qed.

(** The constructor makes the object and the first attempt. *)
Lemma play_connector_new v i a owner rt rc u :
  ∃ p c u', (∀ k, play v i (connector_new (C := C) a owner rt rc k) u = play v i (k p) u') ∧
    deref p u' = Some (Connector c owner 1 a rt rc None) ∧
    attempts (h_io u') = attempts (h_io u) ++ [a] ∧ delays (h_io u') = delays (h_io u).
Proof.
  set (u0 := bump (io [IoConnectorCreate (h_next u) (connector_tag a)] u)).
  set (s := Connector (h_next u) owner 1 a rt rc None).
  exists (h_next u0), (h_next u), (io [IoConnect (h_next u) a] (bump (store (h_next u0) s u0))).
  split_and!; [done|rewrite deref_io; exact (deref_store u0 (h_next u0) s)|..];
    cbn; rewrite ?attempts_app, ?delays_app; cbn; by rewrite ?app_nil_r.
Qed.

(** C15: a connector with retry time [rt] and [retry_count] [rc] makes one attempt
    when it is constructed and [rc] retries, each after an error of the connector
    object and the retry timeout, all to the same address, with delays of [rt]
    milliseconds that double from one to the next; the error after that ends it with
    [connect_error].  So where the largest delay, [rt * 2 ^ (rc - 1)] milliseconds,
    still fits the [int64_t] of its microseconds; beyond that the arithmetic
    overflows. *)
Theorem connector_attempts v i a from ec data owner rt rc u :
  0 <= rc < 2 ^ 63 → 0 <= rt → rt * 2 ^ (rc - 1) * 1000 < 2 ^ 63 →
  - 2 ^ 31 <= ec < 2 ^ 31 → arg_ok (AString data) →
  ∃ p u1 u', (∀ k, play v i (connector_new (C := C) a owner rt rc k) u = play v i (k p) u1) ∧
    rounds v i a p from ec data (Z.to_nat rc) u1 = Some u' ∧
    attempts (h_io u') = attempts (h_io u) ++ replicate (1 + Z.to_nat rc) a ∧
    delays (h_io u') = delays (h_io u) ++ ((λ k, rt * 2 ^ Z.of_nat k * 1000) <$> seq 0 (Z.to_nat rc)) ∧
    play v i (connector_receive a p from (error_msg a ec data)) u'
    = Some (u', [], inl (exit_ (Some (str "connect_error", [AString data])))).
Proof.
  intros Hrc Hrt Hov Hec Hd. destruct (play_connector_new v i a owner rt rc u) as (p & c & u1 & Hnew & Hs & Ha1 & Hd1).
  destruct (rounds_spec v i a p from ec data c owner rt rc (Z.to_nat rc) u1) as (u' & t & Hr & Hs' & Ha & Hdl);
    [done..|lia|done|by rewrite Z2Nat.id by lia|done|done|].
  exists p, u1, u'. rewrite <- Hd1, Ha, Ha1, <- (assoc_L app). split_and!; [done..|].
  by eapply (play_error_last a ec data Hec Hd v i p _ from u' Hs'); cbn [k_connection_count k_retry_count]; lia.
Qed.
End connector.

Lemma connector_attempts_witness :
  let a := UnxAddr (str "/tmp/s") mode_file in
  let v : sends_view := λ _ _, (Some 7, Ok None) in
  ∃ p u1 u', (∀ k, play v 3 (connector_new (C := nat) a (self_handle 7) 50 3 k) (heap_empty tt) = play v 3 (k p) u1) ∧
    rounds (C := nat) v 3 a p null_handle 111 (str "refused") 3 u1 = Some u' ∧
    attempts (h_io u') = [a; a; a; a] ∧ delays (h_io u') = [50000; 100000; 200000] ∧
    play (C := closure nat) v 3 (connector_receive a p null_handle (error_msg a 111 (str "refused"))) u'
    = Some (u', [], inl (exit_ (Some (str "connect_error", [AString (str "refused")])))).
Proof.
  intros a v.
  apply (connector_attempts (C := nat) v 3 a null_handle 111 (str "refused") (self_handle 7) 50 3 (heap_empty tt)).
  - lia.
  - lia.
  - lia.
  - lia.
  - by_decision.
Defined.
