(* ===== verification/DebugTheorems.v ===== *)
(** * What a debug connection does with the text it reads *)
From S2P Require Import Prelude CborEncode Ieee CborDecode CborGrammar CborMatch CborMatchSpec CppText CborJson Env Instance InstanceInv InstanceStep Actors Hub Endpoint Debug Library Solo Messages Commands.

(** ** Lines *)

Lemma split_line_Some l r : one_line l → split_line (l ++ 10 :: r) = Some (l, r).
Proof.
  induction l as [|c l IH]; intros Hl; cbn [split_line app]; [done|].
  apply not_elem_of_cons in Hl as [Hc Hl]. rewrite (proj2 (Z.eqb_neq _ _)) by done. by rewrite IH.
Qed.

Lemma split_line_None l : one_line l → split_line l = None.
Proof.
  induction l as [|c l IH]; intros Hl; cbn [split_line]; [done|].
  apply not_elem_of_cons in Hl as [Hc Hl]. rewrite (proj2 (Z.eqb_neq _ _)) by done. by rewrite IH.
Qed.

Section debug.
Context {U C : Type}.
Abbreviation program := (prog (heap U) (closure C)).
Implicit Types (v : sends_view) (u : heap U) (c : debug_connection).

Definition dispatch_msg (line : bytes) : bytes := cbor_array [AString (str "dispatch"); AString line].

Lemma play_read_lines v i ls q : ∀ fuel u (k : bytes → program),
  Forall one_line ls → one_line q → (length (lines_text ls ++ q) < fuel)%nat →
  (∀ m, v (self_handle i) m = (Some i, Ok None)) →
  play v i (read_lines fuel (lines_text ls ++ q) k) u
  = log_sent ((λ l, (i, dispatch_msg l)) <$> ls) (play v i (k q) u).
Proof.
  induction ls as [|l ls IH]; intros fuel u k Hls Hq Hfuel Hv; (destruct fuel as [|fuel]; [lia|]);
    cbn [read_lines].
  - cbn [lines_text fmap list_fmap concat app]. by rewrite split_line_None, log_sent_nil.
  - apply Forall_cons in Hls as [Hl Hls].
    replace (lines_text (l :: ls) ++ q) with (l ++ 10 :: (lines_text ls ++ q)) in *
      by (unfold lines_text; cbn; by rewrite <- !(assoc_L app)).
    rewrite length_app in Hfuel. cbn [length] in Hfuel.
    rewrite split_line_Some by done. unfold self. cbn [play].
    rewrite (play_sends _ _ _ _ None) by by rewrite Hv. rewrite Hv. cbn [fst sent].
    rewrite IH, log_sent_app by (done || lia). done.
Qed.

(** The text a debug connection is told of. *)
Definition text_msg (data : bytes) : bytes :=
  io_msg (str "socket") debug_tag (str "read_complete") [AString data].

Lemma set_prev_buf_twice c a b : set_prev_buf a (set_prev_buf b c) = set_prev_buf a c.
Proof. done. Qed.

Lemma play_text v i p c data from u :
  deref p u = Some c → arg_ok (AString data) → data ≠ [] →
  (∀ m, v (self_handle i) m = (Some i, Ok None)) →
  ∃ ls q, d_prev_buf c ++ data = lines_text ls ++ q ∧ Forall one_line ls ∧ one_line q ∧
    play v i (debug_connection_receive (C := C) p from (text_msg data)) u
    = Some (io [IoSocketRead (d_s c)] (store p (set_prev_buf q c) u), (λ l, (i, dispatch_msg l)) <$> ls, inl None).
Proof.
  intros Hc Hd Hne Hv. destruct (text_lines (d_prev_buf c ++ data)) as (ls & q & E & Hls & Hq).
  exists ls, q. split_and!; [done..|]. unfold debug_connection_receive. rewrite (play_load _ _ p c) by done.
  unfold if_match, attempt.
  assert (arg_ok (AString debug_tag) ∧ arg_ok (AString (str "socket")) ∧ arg_ok (AString (str "read_complete")))
    as (Ht & Hs & Hr) by by_decision.
  assert (Forall2 arg_item [AString data] [IText (min_width (len_of data)) data]) as Hi by by repeat constructor.
  assert (Forall arg_ok [AString data]) as Ha by by constructor.
  assert (matches (text_msg data) [PStr (str "dispatch"); PExtract XString] = Ok None) as Hno.
  { unfold text_msg. rewrite (io_msg_items _ _ _ _ _ Hs Ht Hr Ha eq_refl Hi). reflexivity. }
  rewrite Hno. unfold text_msg at 1. rewrite (io_msg_event _ _ _ _ _ Hs Ht Hr Ha eq_refl Hi), decide_True by done.
  cbn [pats_items is_more pat_item item_string mbind res_bind option_bind fmap option_fmap option_map item_capture].
  rewrite decide_True by done. cbn [app]. rewrite bool_decide_false by done.
  rewrite (play_modify _ _ p c) by done. cbv zeta. rewrite E.
  rewrite play_read_lines by (done || lia).
  rewrite (play_modify _ _ p (set_prev_buf data c)) by apply deref_store.
  rewrite set_prev_buf_twice, store_store, play_performs. cbn. by rewrite app_nil_r.
Qed.

Fixpoint feed_text v (i p : Z) (from : handle) (chunks : list bytes) u
  : option (heap U * list (Z * bytes)) :=
  match chunks with
  | [] => Some (u, [])
  | data :: chunks =>
      match play v i (debug_connection_receive (C := C) p from (text_msg data)) u with
      | Some (u', log, inl None) =>
          (λ '(u'', l), (u'', log ++ l)) <$> feed_text v i p from chunks u'
      | _ => None
      end
  end.

(** However the text that a debug connection reads is cut into chunks, every
    complete line is sent to the connection itself for dispatch, once and in
    order, without its newline; the text behind the last newline is kept for the
    next chunk, and one more read is asked for after every chunk. *)
Theorem lines_dispatched v i p c from chunks u :
  deref p u = Some c → Forall (λ d, d ≠ [] ∧ arg_ok (AString d)) chunks → one_line (d_prev_buf c) →
  (∀ m, v (self_handle i) m = (Some i, Ok None)) →
  ∃ ls q u', d_prev_buf c ++ concat chunks = lines_text ls ++ q ∧ Forall one_line ls ∧ one_line q ∧
    feed_text v i p from chunks u = Some (u', (λ l, (i, dispatch_msg l)) <$> ls) ∧
    deref p u' = Some (set_prev_buf q c) ∧
    h_io u' = h_io u ++ replicate (length chunks) (IoSocketRead (d_s c)).
Proof.
  intros Hc Hch Hone Hv. revert c u Hc Hone.
  induction Hch as [|data chunks [Hd Hok] _ IH]; intros c u Hc Hone.
  { exists [], (d_prev_buf c), u. cbn [concat]. rewrite !app_nil_r.
    split_and!; try done. rewrite Hc. by destruct c. }
  destruct (play_text v i p c data from u Hc Hok Hd Hv) as (ls1 & q1 & E1 & Hls1 & Hq1 & Hp).
  destruct (IH (set_prev_buf q1 c) (io [IoSocketRead (d_s c)] (store p (set_prev_buf q1 c) u)))
    as (ls2 & q2 & u' & E2 & Hls2 & Hq2 & Hf & Hc' & Hio); [rewrite deref_io; apply deref_store|done|].
  exists (ls1 ++ ls2), q2, u'. split_and!; [| |done| |done|].
  - cbn [concat]. rewrite (assoc_L app), E1, lines_text_app, <- !(assoc_L app). f_equal. exact E2.
  - by apply Forall_app.
  - cbn [feed_text]. rewrite Hp, Hf. cbn. by rewrite fmap_app.
  - rewrite Hio. cbn [io h_io]. by rewrite h_io_store, <- (assoc_L app).
Qed.
End debug.

Lemma lines_dispatched_witness :
  let c := DebugConnection 1 (str "> ") [] (self_handle 3) false false 0 0 ∅ in
  let u := store 2 c (heap_empty tt) in
  ∃ ls q u', concat [str "li"; str "st" ++ [10] ++ str "b"] = lines_text ls ++ q ∧ Forall one_line ls ∧ one_line q ∧
    feed_text (C := nat) (λ _ _, (Some 3, Ok None)) 3 2 null_handle [str "li"; str "st" ++ [10] ++ str "b"] u
    = Some (u', (λ l, (3, dispatch_msg l)) <$> ls) ∧
    deref 2 u' = Some (set_prev_buf q c) ∧ h_io u' = h_io u ++ replicate 2 (IoSocketRead 1).
Proof.
  intros c u.
  apply (lines_dispatched (C := nat) (λ _ _, (Some 3, Ok None)) 3 2 c null_handle [str "li"; str "st" ++ [10] ++ str "b"] u).
  - apply deref_store.
  - repeat constructor; by_decision.
  - apply not_elem_of_nil.
  - done.
Defined.
