(* ===== verification/DebugCalls.v ===== *)
(** * Calls through the debug server are answered once

    [call_proxy] ([src/src/instance.cpp]) is the actor behind a call of a debug
    connection: it sends the request, and tells the connection of the first message
    that comes back, of the timeout, or that the request could not be sent. *)
From S2P Require Import Prelude CborEncode Ieee CborDecode CborGrammar CborMatch CborMatchSpec CppText CborJson JsonSpec JsonSound JsonText Env Instance InstanceInv InstanceStep Actors Debug Messages Replies Acts.

Section calls.
Context {U C : Type}.
Abbreviation program := (prog (heap U) (closure C)).
Abbreviation world := (world (heap U) (closure C)).
Implicit Types (u : heap U).

(** The worlds in which the actor [i] makes its calls. *)
Definition able (i : Z) (w : world) : Prop := named w ∧ is_Some (insts w !! i).

(** ** One task of the proxy *)

Definition timeout_answer (seq : Z) : bytes := cbor_array [AString (str "debug_call_timeout"); AUInt seq].
Definition reply_answer (seq : Z) (name m : bytes) : bytes :=
  cbor_array [AString (str "debug_call_reply"); AUInt seq; AString name; ACbor m].

(** A message is an array. *)
Definition is_message (m : bytes) : Prop := ∃ w l, m = wire (IArray w l) ∧ item_ok (IArray w l).

Lemma message_arg m : is_message m → arg_ok (ACbor m) ∧ ∃ i, arg_item (ACbor m) i.
Proof. intros (w & l & -> & Hi). split; [by apply wire_ok|]. by exists (IArray w l). Qed.

Lemma timeout_answer_match seq : is_u64 seq → matches (timeout_answer seq) [PStr (str "exit"); PMore] = Ok None.
Proof.
  intros Hs. unfold timeout_answer.
  rewrite (matches_array _ _ [IText W0 (str "debug_call_timeout"); IUInt (min_width seq) seq]);
    [done| |done|done|by repeat constructor]. constructor; [by_decision|by constructor].
Qed.

Lemma reply_answer_match seq name m :
  is_u64 seq → arg_ok (AString name) → is_message m →
  matches (reply_answer seq name m) [PStr (str "exit"); PMore] = Ok None.
Proof.
  intros Hs Hn [Hm [i Hi]]%message_arg. unfold reply_answer.
  rewrite (matches_array _ _ [IText W0 (str "debug_call_reply"); IUInt (min_width seq) seq;
      IText (min_width (len_of name)) name; i]); [done| |done|done|].
  - constructor; [by_decision|]. by do 3 (constructor; [done|]).
  - do 3 (apply Forall2_cons; split; [done|]). apply Forall2_cons; split; [done|constructor].
Qed.

Lemma timeout_match_returns m :
  is_message m → ∃ v, matches m [PStr (str "debug_call_timeout")] = Ok v.
Proof.
  intros (w & l & -> & Hi). rewrite <- (app_nil_r (wire _)), matches_item by (done || constructor).
  cbn [mbind res_bind array_items]. destruct l as [|i [|j l]]; cbn; try by eexists.
  all: destruct (item_string i) as [x|]; cbn; try case_decide; by eexists.
Qed.

(** Whether a message is the proxy's own timeout, and what the connection is told. *)
Definition answers (conn : handle) (seq : Z) (m : bytes) (l : list (handle * bytes)) : Prop :=
  match matches m [PStr (str "debug_call_timeout")] with
  | Ok (Some _) => l = [(conn, timeout_answer seq)]
  | _ => ∃ name, l = [(conn, reply_answer seq name m)]
  end.

(** The first message is answered; then the proxy has timed out or ends. *)
Lemma proxy_first i p conn seq t from m :
  is_u64 seq → is_message m →
  wp (U := U) (able i) i p (call_proxy_receive (C := C) p from m) (CallProxy conn seq t false) (λ tr a r,
    answers conn seq m (sends_of tr) ∧ (r = inl None → a = CallProxy conn seq t true)).
Proof.
  intros Hs Hm. destruct (timeout_match_returns m Hm) as [v Hv]. unfold answers. rewrite Hv.
  unfold call_proxy_receive. apply wp_load. cbn [p_timed_out p_conn p_seq p_t]. unfold if_match, attempt.
  rewrite Hv. destruct v as [c|].
  - apply wp_modify. eapply wp_sends; [by apply timeout_answer_match|]. intros r. by apply wp_ret.
  - apply wp_performs, wp_instance_name. intros w Hw. destruct (name_of_ok w (h_ref from) (proj1 Hw)) as [Hn Hl].
    eapply wp_sends; [apply (reply_answer_match seq _ m Hs); [split; [done|unfold len_of in Hl; lia]|done]|]. intros r.
    apply wp_ret. rewrite sends_of_asked. split; [by eexists|done].
Qed.

(** After a timeout it says nothing. *)
Lemma proxy_late i p conn seq t from m :
  wp (U := U) (able i) i p (call_proxy_receive (C := C) p from m) (CallProxy conn seq t true) (λ tr a r,
    sends_of tr = [] ∧ r = inl None ∧ a = CallProxy conn seq t true).
Proof. unfold call_proxy_receive. apply wp_load. by apply wp_ret. Qed.

(** ** Its life *)

Abbreviation acts i := (acts (A := call_proxy) (U := U) (C := C) (able i) i).
Abbreviation kept := (kept (A := call_proxy) (U := U)).

Definition error_answer (seq : Z) (e : bytes) : bytes :=
  cbor_array [AString (str "debug_call_error"); AUInt seq; ACbor e].

Lemma error_answer_match seq i :
  is_u64 seq → writable i → matches (error_answer seq (wire i)) [PStr (str "exit"); PMore] = Ok None.
Proof.
  intros Hs Hi. destruct (good_cbor i Hi) as (Hok & Hit & _). unfold error_answer.
  rewrite (matches_array _ _ [IText W0 (str "debug_call_error"); IUInt (min_width seq) seq; i]); [done| |done|done|].
  - constructor; [by_decision|]. by do 2 (constructor; [done|]).
  - by do 3 (apply Forall2_cons; split; [done|]).
Qed.

Lemma acts_send i p h im k u tr u' r v :
  writable im → matches (wire im) [PStr (str "exit"); PMore] = Ok v →
  acts i p (sends h (wire im) k) u tr u' r →
  ∃ a u1 tr1, tr = Sent h (wire im) :: tr1 ∧ kept p u u1 ∧ acts i p (k a) u1 tr1 u' r ∧
    ∀ e, a = Some e → ∃ ie, e = wire ie ∧ writable ie.
Proof.
  intros Hi Hm. inversion 1 as [| |? ? w w' ? u1 tr1 ? ? Hw E Hk Hd|? ? w w' e _ E]; subst; cbn in E; unfold ans_map in E.
  - pose proof (g_user _ _ (handle_send_grows w (Some i) h (wire im))) as Hu.
    pose proof (send_error_item w (Some i) h (wire im) im) as He.
    destruct (handle_send_raw w (Some i) h (wire im)) as [w1 [a1|]]; [|done]. injection E as <- <-. cbn in Hu, Hk.
    rewrite Hu in Hk. exists a1, u1, tr1. split_and!; [done..|]. intros e ->.
    destruct (He e (proj1 Hw) eq_refl Hi eq_refl) as (ie & ? & ? & _). by exists ie.
  - pose proof (send_returns w (Some i) h (wire im) v e Hm) as Ht.
    destruct (handle_send_raw w (Some i) h (wire im)) as [w1 [a1|e1]]; [done|]. by injection E as <- ->.
Qed.

Lemma acts_receives i p c k u tr u' r :
  acts i p (receives c k) u tr u' r →
  ∃ u1 tr1, tr = Received c :: tr1 ∧ kept p u u1 ∧ acts i p (k tt) u1 tr1 u' r.
Proof.
  inversion 1 as [| |? ? w w' ? u1 tr1 ? ? [_ [x Hx]] E Hk Hd|? ? w w' e [_ [x Hx]] E]; subst;
    cbn in E; rewrite Hx in E; [|done].
  exists u1, tr1. cbn in E. by injection E as <- <-.
Qed.

(** What the behaviour does: it sends the request, and waits or tells the connection
    of the error and ends. *)
Lemma proxy_start i p conn seq to im ms u tr u' r v :
  is_u64 seq → writable im → matches (wire im) [PStr (str "exit"); PMore] = Ok v →
  acts i p (call_proxy_behaviour conn seq to (wire im) ms) u tr u' r →
  (∃ e, sends_of tr = [(to, wire im); (conn, error_answer seq e)] ∧ r = inl (exit_ None)) ∨
  (sends_of tr = [(to, wire im)] ∧ r = inl None ∧ ∃ q t, Received (CallProxyReceive q) ∈ tr ∧
     (q = p → deref p u' = Some (CallProxy conn seq (Some t) false))).
Proof.
  intros Hs Him Hm H. unfold call_proxy_behaviour in H.
  apply acts_user in H as (u1 & tr1 & _ & H & ->). apply acts_user in H as (u2 & tr2 & K2 & H & ->).
  rewrite !sends_of_asked.
  apply (acts_send _ _ _ im _ _ _ _ _ v Him Hm) in H as (a & u3 & tr3 & -> & K3 & H & He). destruct a as [e|].
  - left. destruct (He e eq_refl) as (ie & -> & Hie). exists (wire ie).
    destruct (array_good [AString (str "debug_call_error"); AUInt seq; ACbor (wire ie)]
      [IText W0 (str "debug_call_error"); IUInt (min_width seq) seq; ie]) as [E Hw]; [|done|done|].
    { constructor; [apply (good_str "debug_call_error"); cbn; lia|]. constructor; [by apply good_uint|].
      by constructor; [apply good_cbor|]. }
    pose proof (error_answer_match seq ie Hs Hie) as Hme. unfold error_answer in *. rewrite E in Hme, H |- *.
    apply (acts_send _ _ _ _ _ _ _ _ _ None Hw Hme) in H as (a & u4 & tr4 & -> & _ & H & _).
    inversion H; subst. done.
  - right. apply acts_receives in H as (u4 & tr4 & -> & K4 & H).
    inversion H; subst. split_and!; [done..|]. eexists _, _. split.
    + apply elem_of_app. right. apply elem_of_app. right. right. left.
    + intros Hp. unfold kept, Acts.kept in *. rewrite K4, K3, K2. subst p.
      unfold deref, bump. cbn. apply lookup_insert_eq.
Qed.

(** The messages it gets, one task each, until it ends; between tasks its object is
    kept. *)
Inductive receives_all (i p : Z) : heap U → list (handle * bytes) → list (handle * bytes) → Prop :=
| receives_none u : receives_all i p u [] []
| receives_more u from m ms tr u1 u2 l' :
    acts i p (call_proxy_receive p from m) u tr u1 (inl None) → kept p u1 u2 → receives_all i p u2 ms l' →
    receives_all i p u ((from, m) :: ms) (sends_of tr ++ l')
| receives_last u from m ms tr u1 r :
    acts i p (call_proxy_receive p from m) u tr u1 r → r ≠ inl None →
    receives_all i p u ((from, m) :: ms) (sends_of tr).

Lemma late_silent i p conn seq t u ms l :
  deref p u = Some (CallProxy conn seq t true) → receives_all i p u ms l → l = [].
Proof.
  intros Hp H. induction H as [|u from m ms tr u1 u2 l' Hd K _ IH|u from m ms tr u1 r Hd Hr]; [done|..];
    destruct (proxy_late i p conn seq t from m _ _ _ _ Hp Hd) as (a & Hp' & -> & Er & ->).
  - apply IH. unfold kept, Acts.kept in K. by rewrite K.
  - done.
Qed.

Lemma waiting_answers i p conn seq t u from m ms l :
  is_u64 seq → is_message m → deref p u = Some (CallProxy conn seq t false) →
  receives_all i p u ((from, m) :: ms) l → answers conn seq m l.
Proof.
  intros Hs Hm Hp H.
  inversion H as [|? ? ? ? tr u1 u2 l2 Hd K Hr|? ? ? ? ? u1 r Hd Hr]; subst;
    destruct (proxy_first i p conn seq t from m Hs Hm _ _ _ _ Hp Hd) as (a & Hp' & Ha & Hl); [|done].
  rewrite (late_silent i p conn seq t u2 ms l2), app_nil_r; [done| |done].
  unfold kept, Acts.kept in K. rewrite K, Hp'. by rewrite Hl.
Qed.

(** A call from its start: the messages that reach the actor, what it sends beside the
    request, and whether it waits. *)
Inductive call_life (i p : Z) (conn : handle) (seq : Z) (to : handle) (req : bytes) (ms : Z)
  : list (handle * bytes) → list (handle * bytes) → bool → Prop :=
| life_ends u tr u' r told :
    acts i p (call_proxy_behaviour conn seq to req ms) u tr u' r → r ≠ inl None →
    sends_of tr = (to, req) :: told → call_life i p conn seq to req ms [] told false
| life_waits u tr u' u2 got told0 told :
    acts i p (call_proxy_behaviour conn seq to req ms) u tr u' (inl None) → sends_of tr = (to, req) :: told0 →
    (∀ q, Received (CallProxyReceive q) ∈ tr → q = p) → kept p u' u2 → receives_all i p u2 got told →
    call_life i p conn seq to req ms got (told0 ++ told) true.

End calls.

(** A world with one instance, for runs of its tasks. *)
Definition lone (j : Z) (u : heap unit) : world (heap unit) (closure nat) :=
  World {[j := Inst (str "a") None None None None [] true false false false [] env_empty None]} ∅ ∅ (j + 1)
    (Context 1 None ∅ 0 [] 0) u [] ∅.

Lemma lone_able j u : is_u64 j → able j (lone j u).
Proof.
  intros Hj. split; [|by exists (Inst (str "a") None None None None [] true false false false [] env_empty None);
    unfold lone; cbn; rewrite lookup_singleton_eq].
  intros k x Hx. cbn in Hx. apply lookup_singleton_Some in Hx as [<- <-]. by split; [|by_decision].
Qed.

(** One call of a run, made in [lone]. *)
Ltac lone_call u :=
  eapply (acts_call (able 3) 3 2 _ _ (lone 3 u)); [by apply lone_able|vm_compute; reflexivity|reflexivity|].

