(* ===== verification/DebugJson.v ===== *)
(** * Commands of the debug server in JSON

    [src/include/thespian/debug.hpp] says of a connection in JSON mode that every
    command gets exactly one response.  A command is a line that starts with a
    brace; [connection::dispatch_json] ([src/src/instance.cpp]) answers it with a
    line, or starts a call, whose answer [DebugCalls] follows to the connection. *)
From S2P Require Import Prelude CborEncode Ieee CborDecode CborGrammar CborMatch CborMatchSpec CborTheorems CborAccess CppText CborJson JsonSpec JsonSound JsonText JsonTheorems Env Instance InstanceInv InstanceStep Actors Endpoint Debug DebugTheorems Messages Replies Acts DebugCalls.

(** ** The fields of a command *)

(** The text of a text string. *)
Definition item_text (i : item) : option bytes := match i with IText _ s => Some s | _ => None end.

(** The values by their keys, the last one of a key; [None]: a key is no string. *)
Fixpoint item_fields (l : list item) (f : gmap bytes item) : option (gmap bytes item) :=
  match l with
  | k :: v :: l => s ← item_text k; item_fields l (<[s := v]> f)
  | [k] => item_text k ≫= λ _, Some f
  | [] => Some f
  end.

Lemma vi_more_cons x l n : vi_more (ValueIterator (wires (x :: l)) n) = true.
Proof.
  unfold vi_more. cbn [vi_b]. rewrite bool_decide_false; [done|]. rewrite wires_cons.
  pose proof (wire_nonempty x). by destruct (wire x); [cbn in *; lia|].
Qed.

Lemma vi_next_cons x l :
  item_ok x → Forall item_ok l →
  vi_next (ValueIterator (wires (x :: l)) (len_of (x :: l))) = Ok (ValueIterator (wires l) (len_of l)).
Proof.
  intros Hx Hl. pose proof (len_of_nonneg l). unfold vi_next. cbn [vi_n vi_b].
  rewrite len_of_cons, (proj2 (Z.eqb_neq _ 0)) by lia. cbn [match_value].
  rewrite wires_cons, match_value_type_item by (done || by apply wires_items_ok). cbn [mbind res_bind].
  by replace (1 + len_of l - 1) with (len_of l) by lia.
Qed.

Lemma type_of_item x rest : item_ok x → bytes_ok rest → type_of (wire x ++ rest) = Ok (item_type x).
Proof. intros. unfold type_of. by rewrite match_type_item. Qed.

Lemma string_type x : item_type x = t_string ↔ is_Some (item_text x).
Proof.
  split.
  - destruct x as [| | |w s| | |[] v]; cbn; intros H; try done; repeat case_match; done.
  - by destruct x; intros [].
Qed.

Lemma item_text_string x s : item_text x = Some s → item_string x = Some s.
Proof. by destruct x. Qed.

Definition keys_error : exn := domain_error (str "command keys must be strings").

Lemma fields_loop_items fuel : ∀ l f,
  Forall item_ok l → (length (wires l) < fuel)%nat →
  fields_loop fuel (ValueIterator (wires l) (len_of l)) (wire <$> f) =
  match item_fields l f with Some f' => Ok (wire <$> f') | None => Throw keys_error end.
Proof.
  induction fuel as [|fuel IH]; intros l f Hl Hf; [lia|].
  destruct Hl as [|k l Hk Hl]; [done|]. cbn [fields_loop]. rewrite vi_more_cons.
  unfold vi_deref. cbn [vi_n vi_b]. pose proof (len_of_nonneg l).
  rewrite len_of_cons, (proj2 (Z.eqb_neq _ 0)) by lia. cbn [mbind res_bind].
  rewrite wires_cons at 1. rewrite type_of_item by (done || by apply wires_items_ok). cbn [mbind res_bind].
  case_decide as Et.
  - apply string_type in Et as [s Hs].
    rewrite wires_cons at 1. rewrite get_string_item by (done || by apply wires_items_ok).
    rewrite (item_text_string _ _ Hs). cbn [mbind res_bind default]. rewrite <- len_of_cons with (x := k), vi_next_cons by done.
    cbn [mbind res_bind]. destruct Hl as [|v l Hv Hl].
    { cbn. by rewrite Hs. }
    rewrite vi_more_cons, vi_next_cons by done. cbn [mbind res_bind vi_b item_fields]. rewrite Hs. cbn [mbind option_bind id].
    rewrite wires_cons at 1 2. rewrite length_app, Nat.add_sub, take_app_length.
    rewrite <- fmap_insert. apply IH; [done|].
    rewrite !wires_cons, !length_app in Hf. pose proof (wire_nonempty k). lia.
  - assert (item_text k = None) as Hn by (apply eq_None_not_Some; by rewrite <- string_type).
    destruct l; cbn; by rewrite Hn.
Qed.

(** What [get_fields] finds in a command. *)
Definition command_fields (i : item) : res (gmap bytes item) :=
  match i with
  | IMap _ _ l => match item_fields l ∅ with Some f => Ok f | None => Throw keys_error end
  | _ => Throw (domain_error (str "command must be a JSON object"))
  end.

Lemma map_type x : item_ok x → item_type x = t_map → ∃ w n l, x = IMap w n l.
Proof. intros _. destruct x as [| | | | | |[] v]; cbn; try done; eauto. repeat case_match; done. Qed.

Lemma get_fields_item i : item_ok i → get_fields (wire i) = fmap (M := res) (fmap wire) (command_fields i).
Proof.
  intros Hi. unfold get_fields. rewrite <- (app_nil_r (wire i)) at 1.
  rewrite type_of_item by (done || constructor). cbn [mbind res_bind]. case_decide as Et.
  - destruct (map_type i Hi Et) as (w & n & l & ->). unfold vi_begin.
    destruct (decode_range_header_item (IMap w n l) l [] Hi (Forall_nil_2 _) eq_refl) as [Hd Hl].
    rewrite !app_nil_r in Hd. rewrite Hd. cbn [mbind res_bind].
    rewrite <- (fmap_empty (M := gmap bytes) wire) at 1. rewrite fields_loop_items; [|done|].
    + cbn. by destruct (item_fields l ∅).
    + rewrite (wire_split (IMap w n l)). cbn [item_head item_body]. rewrite length_app. lia.
  - destruct i as [| | | | | |[] v]; done.
Qed.

(** ** Sizes *)

(** A value that fits in memory, and its text. *)
Definition small (i : item) : Prop := len_of (wire i) < 2 ^ 62 ∧ len_of (json_text i) < 2 ^ 62.

Lemma concat_length_elem {A} (t : list A) ts : t ∈ ts → (length t <= length (concat ts))%nat.
Proof.
  induction ts as [|t' ts IH]; [by intros ?%elem_of_nil|]. cbn. rewrite length_app.
  intros [->|H]%elem_of_cons; [lia|]. specialize (IH H). lia.
Qed.

Lemma commas_length_elem t ts : t ∈ ts → (length t <= length (commas ts))%nat.
Proof.
  destruct ts as [|t' ts]; [by intros ?%elem_of_nil|]. cbn. rewrite length_app.
  intros [->|H]%elem_of_cons; [lia|].
  pose proof (concat_length_elem (44 :: t) ((λ t, 44 :: t) <$> ts)) as Hc. cbn [length] in Hc.
  assert (44 :: t ∈ (λ t, 44 :: t) <$> ts) by (apply list_elem_of_fmap; eauto). specialize (Hc ltac:(done)). lia.
Qed.

Lemma item_fields_elem l : ∀ f f' k v,
  item_fields l f = Some f' → f' !! k = Some v → f !! k = Some v ∨
  (v ∈ l ∧ ∃ t, t ∈ pair_texts (json_text <$> l) ∧ (length (json_text v) <= length t)%nat).
Proof.
  induction l as [l IH] using (induction_ltof1 _ (@length item)). unfold ltof in IH.
  intros f f' k v H Hk. destruct l as [|x [|y l]]; cbn in H.
  - injection H as ->. by left.
  - destruct (item_text x); [|done]. injection H as ->. by left.
  - destruct (item_text x) as [s|]; [|done]. cbn in H.
    destruct (IH l ltac:(cbn; lia) _ _ k v H Hk) as [Hl|(Hin & t & Ht & Hlen)].
    + destruct (decide (s = k)) as [->|]; [|rewrite lookup_insert_ne in Hl by done; by left].
      rewrite lookup_insert_eq in Hl. injection Hl as ->. right. split; [by do 2 (apply elem_of_cons; (by left) || right)|].
      eexists. cbn. split; [left|]. rewrite length_app. cbn. lia.
    + right. split; [by do 2 (apply elem_of_cons; right)|]. exists t. cbn. split; [by apply elem_of_cons; right|done].
Qed.

(** The fields of a command are smaller than it is. *)
Lemma fields_small i f k v :
  writable i → small i → command_fields i = Ok f → f !! k = Some v → writable v ∧ small v.
Proof.
  intros [Hi Hp] [Hw Hj] Hf Hk. destruct i as [| | | | |w n l|]; try done. cbn in Hf.
  destruct (item_fields l ∅) as [f'|] eqn:E; [|done]. injection Hf as ->.
  destruct (item_fields_elem l ∅ f k v E Hk) as [H|(Hin & t & Ht & Hlen)]; [by rewrite lookup_empty in H|].
  apply item_ok_map in Hi as (_ & _ & Hl). destruct Hp as [_ Hp]. apply foldr_printable in Hp.
  rewrite Forall_forall in Hl, Hp. split; [by split; [apply Hl|apply Hp]|]. split.
  - eapply Z.le_lt_trans; [|exact Hw]. unfold len_of. apply inj_le.
    rewrite (wire_split (IMap w n l)). cbn [item_head item_body]. rewrite length_app.
    pose proof (concat_length_elem (wire v) (wire <$> l)). unfold wires.
    assert (wire v ∈ wire <$> l) by (apply list_elem_of_fmap; eauto). specialize (H ltac:(done)). lia.
  - eapply Z.le_lt_trans; [|exact Hj]. unfold len_of. apply inj_le. cbn [json_text]. rewrite !length_app.
    pose proof (commas_length_elem t _ Ht). lia.
Qed.

Definition good_text (s : bytes) : Prop := bytes_ok s ∧ len_of s < 2 ^ 63.
#[export] Instance good_text_dec s : Decision (good_text s).
Proof. unfold good_text. apply _. Defined.

Lemma good_text_app s t : good_text s → bytes_ok t → len_of s < 2 ^ 62 → len_of t < 2 ^ 62 → good_text (s ++ t).
Proof.
  intros [Hs _] Ht H1 H2. split; [by apply Forall_app|]. unfold len_of in *. rewrite length_app. lia.
Qed.

Lemma text_small v s : writable v → small v → item_text v = Some s → good_text s ∧ len_of s < 2 ^ 62.
Proof.
  intros [Hv _] [Hw _] Hs. destruct v; try done. injection Hs as <-.
  assert (len_of s0 < 2 ^ 62) as Hl.
  { rewrite (wire_split (IText w s0)) in Hw. cbn [item_head item_body] in Hw.
    unfold len_of in *. rewrite length_app in Hw. lia. }
  split; [|done]. split; [apply Hv|lia].
Qed.

(** A computation that gives a value or an exception whose text can be sent. *)
Definition fails_well {A} (m : res A) (P : A → Prop) : Prop :=
  match m with Ok a => P a | Throw e => ∃ t, e = domain_error t ∧ good_text t end.

Section fields.
Context (i : item) (f : gmap bytes item) (Hi : writable i) (Hs : small i) (Hf : command_fields i = Ok f).

Lemma require_item k :
  good_text (str "missing field: " ++ k) →
  fails_well (require (wire <$> f) k) (λ v, ∃ x, v = wire x ∧ f !! k = Some x ∧ writable x ∧ small x).
Proof.
  intros Hk. unfold require. rewrite lookup_fmap. destruct (f !! k) as [x|] eqn:E; cbn; [|by eexists].
  destruct (fields_small i f k x Hi Hs Hf E) as [Hx Hsm]. by exists x.
Qed.

Lemma require_string_item k :
  good_text (str "missing field: " ++ k) → good_text (str "field must be a string: " ++ k) →
  fails_well (require_string (wire <$> f) k) (λ s, good_text s ∧ len_of s < 2 ^ 62).
Proof.
  intros Hk Hk'. unfold require_string. pose proof (require_item k Hk) as H.
  destruct (require _ k) as [v|e]; cbn in H |- *; [|done]. destruct H as (x & -> & _ & Hx & Hsm).
  rewrite <- (app_nil_r (wire x)). pose proof (proj1 Hx). rewrite type_of_item by (done || constructor).
  cbn [mbind res_bind]. case_decide as Et; [|by eexists]. apply string_type in Et as [s Es].
  rewrite get_string_item by (done || constructor). rewrite (item_text_string _ _ Es). by apply (text_small x).
Qed.

Lemma optional_int_item k d :
  good_text (str "field must be a number: " ++ k) →
  fails_well (optional_int (wire <$> f) k d) (λ _, True).
Proof.
  intros Hk. unfold optional_int. rewrite lookup_fmap. destruct (f !! k) as [x|] eqn:E; cbn; [|done].
  pose proof (proj1 (proj1 (fields_small i f k x Hi Hs Hf E))) as Hx.
  rewrite <- (app_nil_r (wire x)), type_of_item by (done || constructor). cbn [mbind res_bind].
  case_decide; [|by eexists].
  pose proof (get_item (XInt (- 2 ^ 63) (2 ^ 63 - 1)) x [] Hx (Forall_nil_2 _)) as Hg.
  unfold get in Hg. cbn [extract] in Hg. unfold keep at 1 in Hg.
  by destruct (extract_int _ _ (wire x ++ [])) as [[o r]|e].
Qed.
End fields.

(** ** Replies *)

(** A line that answers the command with the given id. *)
Definition reply_text (id : item) (ok : bool) (j : bytes) : Prop :=
  one_line j ∧ ∃ w n rest, j = json_text (IMap w n (IText W0 (str "id") :: id :: IText W0 (str "ok") ::
                                                    ISpecial W0 (if ok then 21 else 20) :: rest)).

Lemma reply_prints id ok args rest n :
  writable id → Forall2 good_arg args rest → len_of rest = 2 * n → 0 <= n < 2 ^ 62 →
  ∃ j, to_json (cbor_map (AString (str "id") :: ACbor (wire id) :: AString (str "ok") :: ABool ok :: args)) = Ok j ∧
    reply_text id ok j.
Proof.
  intros Hid Hargs Hlen Hn.
  destruct (map_good (AString (str "id") :: ACbor (wire id) :: AString (str "ok") :: ABool ok :: args)
    (IText W0 (str "id") :: id :: IText W0 (str "ok") :: ISpecial W0 (if ok then 21 else 20) :: rest)
    ltac:(constructor; [apply (good_str "id"); cbn; lia|]; constructor; [by apply good_cbor|];
          constructor; [apply (good_str "ok"); cbn; lia|]; constructor; [apply good_bool|done]) (n + 2))
    as [E [Hok Hp]]; [rewrite !len_of_cons; lia|lia|].
  rewrite E. eexists. split.
  - rewrite <- (app_nil_r (wire _)). apply to_json_text; [done|done|constructor].
  - split; [by apply plain_one_line, json_text_plain|eauto].
Qed.

Lemma reply_ok_prints id : writable id → ∃ j, to_json (reply_ok (wire id)) = Ok j ∧ reply_text id true j.
Proof. intros H. apply (reply_prints id true [] [] 0); [done|constructor|done|lia]. Qed.

Lemma reply_error_prints id e :
  writable id → good_text e → ∃ j, to_json (reply_error (wire id) e) = Ok j ∧ reply_text id false j.
Proof.
  intros H [He Hl]. apply (reply_prints id false [AString (str "error"); AString e]
    [IText W0 (str "error"); IText (min_width (len_of e)) e] 1); [done| |done|lia].
  constructor; [apply (good_str "error"); cbn; lia|]. constructor; [apply good_string; [done|lia]|constructor].
Qed.

Lemma writable_null : writable INull.
Proof. split; cbn; auto; lia. Qed.

(** ** The connection *)

Section connection.
Context {U C : Type} (i p : Z).
Abbreviation program := (prog (heap U) (closure C)).
Abbreviation world := (world (heap U) (closure C)).
Implicit Types (c : debug_connection) (tr : list (event C)).

(** The worlds in which the connection [i] makes its calls. *)
Definition serving (w : world) : Prop :=
  wf w ∧ caller w (Some i) ∧ named w ∧ registered w ∧ Z.of_nat (size (registry (ctx w))) < 2 ^ 32.

Abbreviation wp := (wp (A := debug_connection) (U := U) (C := C) serving i p).

(** Between commands and answers these stay. *)
Definition same c c' : Prop :=
  d_s c' = d_s c ∧ d_self c' = d_self c ∧ d_next_call c' = d_next_call c ∧
  d_pending_calls c' = d_pending_calls c.

#[export] Instance same_refl : Reflexive same.
Proof. intros c. by split_and!. Qed.
#[export] Instance same_trans : Transitive same.
Proof. intros c1 c2 c3 (? & ? & ? & ?) (? & ? & ? & ?). split_and!; congruence. Qed.

(** One response is written and nothing is started. *)
Definition responded c (id : item) tr c' : Prop :=
  spawned_of tr = [] ∧ same c c' ∧ ∃ ok j, reply_text id ok j ∧
    asked_of tr = [IoSocketWrite (d_s c) j; IoSocketWrite (d_s c) [10]].

(** One call is started, and the command waits for it. *)
Definition called c (id : item) tr c' : Prop :=
  asked_of tr = [] ∧ d_s c' = d_s c ∧ d_self c' = d_self c ∧
  (∃ to msg ms, spawned_of tr = [(CallProxyStart (d_self c) (d_next_call c) to msg ms, str "debug_call")]) ∧
  d_next_call c' = u64 (d_next_call c + 1) ∧
  d_pending_calls c' = <[d_next_call c := wire id]> (d_pending_calls c).

Definition answered c id tr c' (r : result + thrown) : Prop :=
  r = inl None ∧ (responded c id tr c' ∨ called c id tr c').

(** What [receive] does after a command. *)
Definition finish (go : bool) : program :=
  if go then Ret None else writes (modify p set_close);; Ret None.

Lemma wp_write data k c Q :
  wp (k tt) (set_unwritten (u64 (d_unwritten c + Z.of_nat (length data))) c)
    (λ tr, Q (Asked (IoSocketWrite (d_s c) data) :: tr)) →
  wp (write p data k) c Q.
Proof.
  intros H. unfold write. apply wp_modify, wp_load, wp_performs. exact H.
Qed.

Lemma wp_finish go c (Q : list (event C) → debug_connection → result + thrown → Prop) :
  (∀ c', same c c' → Q [] c' (inl None)) → wp (finish go) c Q.
Proof.
  intros H. destruct go; [by apply wp_ret, H|]. apply wp_modify, wp_ret. by apply H.
Qed.

(** The answer, behind calls that wrote and started nothing. *)
Lemma wp_respond pre id ok j go c c0 :
  reply_text id ok j → same c c0 → asked_of pre = [] → spawned_of pre = [] →
  wp (write_line p j (λ _, finish go)) c0 (λ tr, answered c id (pre ++ tr)).
Proof.
  intros Hj Hc Ha Hs. unfold write_line. do 2 apply wp_write. apply wp_finish. intros c' Hc'.
  split; [done|]. left. unfold responded, asked_of, spawned_of in *. rewrite !omap_app, Ha, Hs. cbn.
  pose proof Hc as (E & _). split_and!; [done|by etrans; [exact Hc|]|]. exists ok, j. split; [done|]. by rewrite E.
Qed.

Lemma wp_caught pre id e c c0 :
  writable id → good_text e → same c c0 → asked_of pre = [] → spawned_of pre = [] →
  wp (write_json p (reply_error (wire id) e) (λ _, finish true)) c0 (λ tr, answered c id (pre ++ tr)).
Proof.
  intros Hid He Hc Ha Hs. unfold write_json, attempt. destruct (reply_error_prints id e Hid He) as (j & -> & Hj).
  by eapply wp_respond.
Qed.

(** A computation of the command whose exceptions are answered. *)
Lemma wp_catches {B} pre id (m : res B) (P : B → Prop) k c c0 :
  writable id → same c c0 → asked_of pre = [] → spawned_of pre = [] → fails_well m P →
  (∀ b, m = Ok b → P b → wp (k b) c0 (λ tr, answered c id (pre ++ tr))) →
  wp (catches (λ e, write_json p (reply_error (wire id) e) (λ _, finish true)) m k) c0
    (λ tr, answered c id (pre ++ tr)).
Proof.
  intros Hid Hc Ha Hs Hm Hk. unfold catches. destruct m as [b|e]; [by apply Hk|].
  destruct Hm as (t & -> & Ht). by apply wp_caught.
Qed.

(** A reply that can be printed. *)
Lemma wp_reply pre id m ok j go c c0 :
  to_json m = Ok j → reply_text id ok j → same c c0 → asked_of pre = [] → spawned_of pre = [] →
  wp (catches (λ e, write_json p (reply_error (wire id) e) (λ _, finish true)) (to_json m)
       (λ j, write_line p j (λ _, finish go))) c0 (λ tr, answered c id (pre ++ tr)).
Proof. intros Hm Hj Hc Ha Hs. rewrite Hm. by eapply wp_respond. Qed.

(** ** Commands *)

(** The id of a command; null if it has none or is no object. *)
Definition command_id (line : bytes) (id : item) : Prop :=
  match push_json [] line with
  | Ok cmd => ∃ i, cmd = wire i ∧ item_ok i ∧
      id = match command_fields i with Ok f => default INull (f !! str "id") | Throw _ => INull end
  | Throw _ => id = INull
  end.

Section command.
Context (cmd : item) (f : gmap bytes item) (Hcmd : writable cmd) (Hsm : small cmd) (Hf : command_fields cmd = Ok f).
Context (c : debug_connection) (id : item) (Hid : writable id).
Abbreviation F := (wire <$> f).
Abbreviation caught := (λ e, write_json (U := U) (C := C) p (reply_error (wire id) e) (λ _, finish true)).
Abbreviation reply m go := (catches caught (to_json m) (λ j, write_line p j (λ _, finish go))).

Lemma wp_error_reply pre t go c0 :
  good_text t → same c c0 → asked_of pre = [] → spawned_of pre = [] →
  wp (reply (reply_error (wire id) t) go) c0 (λ tr, answered c id (pre ++ tr)).
Proof. intros Ht Hc Ha Hs. destruct (reply_error_prints id t Hid Ht) as (j & E & Hj). by eapply wp_reply. Qed.

Lemma wp_ok_reply pre go c0 :
  same c c0 → asked_of pre = [] → spawned_of pre = [] →
  wp (reply (reply_ok (wire id)) go) c0 (λ tr, answered c id (pre ++ tr)).
Proof. intros Hc Ha Hs. destruct (reply_ok_prints id Hid) as (j & E & Hj). by eapply wp_reply. Qed.

(** The actor the command names. *)
Lemma wp_lookup (K : handle → program) c0 :
  same c c0 → (∀ a, wp (K a) c0 (answered c id)) →
  wp (catches caught (require_string F (str "to")) (λ to, find_actor to (λ a,
        match a with None => caught (to ++ str " not found") | Some a => K a end))) c0 (answered c id).
Proof.
  intros Hc HK. eapply (wp_catches []); [done..| |].
  { apply (require_string_item cmd f Hcmd Hsm Hf); by_decision. }
  intros to _ [Hto Hl]. unfold find_actor. apply wp_get_name. intros h. apply wp_expired. intros [].
  - apply (wp_caught []); [done| |done..]. apply good_text_app; [done|by_decision|done|by_decision].
  - apply HK.
Qed.

Lemma wp_list c0 :
  same c c0 →
  wp (Call OGetNames (λ a, match a with
      | AnsBytes names => reply (cbor_map [AString (str "id"); ACbor (wire id); AString (str "ok"); ABool true;
                                           AString (str "result"); ACbor names]) true
      | _ => impossible
      end)) c0 (answered c id).
Proof.
  intros Hc. apply wp_get_names. intros w (_ & _ & _ & Hr & Hsz). destruct (get_names_item w Hr Hsz) as (n & -> & Hn).
  destruct (reply_prints id true [AString (str "result"); ACbor (wire n)] [IText W0 (str "result"); n] 1)
    as (j & E & Hj); [done| |done|lia|].
  { constructor; [apply (good_str "result"); cbn; lia|]. constructor; [by apply good_cbor|constructor]. }
  by eapply (wp_reply []).
Qed.

Lemma wp_send c0 :
  same c c0 →
  wp (catches caught (require_string F (str "to")) (λ to, find_actor to (λ a,
        match a with None => caught (to ++ str " not found") | Some to =>
          catches caught (require F (str "msg")) (λ msg, tries_send to msg (λ r, catches caught r (λ ret,
            match ret with
            | None => reply (reply_ok (wire id)) true
            | Some e => catches caught (to_json e) (λ j, reply (reply_error (wire id) j) true)
            end))) end))) c0 (answered c id).
Proof.
  intros Hc. apply wp_lookup; [done|]. intros to.
  eapply (wp_catches []); [done..|apply (require_item cmd f Hcmd Hsm Hf); by_decision|].
  intros msg _ (x & -> & _ & Hx & [_ Hxs]). apply wp_tries_send. intros w (_ & _ & Hn & _).
  pose proof (send_error_item w (Some i) to (wire x) x) as He. pose proof (send_throws w (Some i) to (wire x) x) as Ht.
  change (λ tr, answered c id ([] ++ Sent to (wire x) :: tr)) with (λ tr, answered c id ([Sent to (wire x)] ++ tr)).
  eapply (wp_catches _ id _ (λ _, True)); [done..| |].
  { destruct (handle_send_raw _ _ _ _).2 as [r|e]; [done|]. exists (str "cbor unexpected type (expected array)").
    split; [by apply (Ht e eq_refl (proj1 Hx))|by_decision]. }
  intros [e|] E _; [|by apply wp_ok_reply]. destruct (He e Hn eq_refl Hx E) as (ie & -> & [Hie Hp] & _ & Hlen).
  rewrite <- (app_nil_r (wire ie)), (to_json_text ie []) by (done || constructor).
  apply wp_error_reply; [|done..]. split; [by apply plain_bytes, json_text_plain|lia].
Qed.

Lemma wp_call_command c0 :
  same c c0 →
  wp (catches caught (require_string F (str "to")) (λ to, find_actor to (λ a,
        match a with None => caught (to ++ str " not found") | Some to =>
          catches caught (require F (str "msg")) (λ msg,
          catches caught (optional_int F (str "timeout_ms") 5000) (λ timeout_ms,
          writes (modify p (λ c', set_calls (u64 (d_next_call c0 + 1)) (<[d_next_call c0 := wire id]> (d_pending_calls c')) c')) (λ _,
          spawns_link (CallProxyStart (d_self c0) (d_next_call c0) to msg timeout_ms) (str "debug_call") (λ r,
            match r with
            | inl _ => finish true
            | inr e =>
                writes (modify p (λ c', set_calls (d_next_call c') (delete (d_next_call c0) (d_pending_calls c')) c')) (λ _,
                catches caught (to_json e) (λ j, reply (reply_error (wire id) j) true))
            end)))) end))) c0 (answered c id).
Proof.
  intros Hc. apply wp_lookup; [done|]. intros to.
  eapply (wp_catches []); [done..|apply (require_item cmd f Hcmd Hsm Hf); by_decision|]. intros msg _ _.
  eapply (wp_catches []); [done..|apply (optional_int_item cmd f Hcmd Hsm Hf); by_decision|]. intros ms _ _.
  apply wp_modify, wp_spawns_link; [by intros w (? & ? & _)|]. intros h. apply wp_ret. split; [done|]. right.
  destruct Hc as (E1 & E2 & E3 & E4). unfold called. rewrite <- E1, <- E2, <- E3, <- E4.
  split_and!; [done..| |done|done]. by exists to, msg, ms.
Qed.

Lemma wp_tap c0 :
  same c c0 →
  wp (catches caught (require_string F (str "name")) (λ name, tap (d_self c0) name (λ err,
        reply (if bool_decide (err = []) then reply_ok (wire id) else reply_error (wire id) err) true))) c0 (answered c id).
Proof.
  intros Hc. eapply (wp_catches []); [done..|apply (require_string_item cmd f Hcmd Hsm Hf); by_decision|].
  intros name _ _. unfold tap. destruct (bool_decide _).
  - apply (wp_error_reply []); [by_decision|done..].
  - apply wp_tap_add. by apply (wp_ok_reply []).
Qed.

Lemma wp_untap c0 :
  same c c0 →
  wp (catches caught (require_string F (str "name")) (λ name, untap (d_self c0) name (λ found,
        reply (if found then reply_ok (wire id) else reply_error (wire id) (name ++ str " not tapped")) true))) c0 (answered c id).
Proof.
  intros Hc. eapply (wp_catches []); [done..|apply (require_string_item cmd f Hcmd Hsm Hf); by_decision|].
  intros name _ [Hn Hl]. unfold untap. apply wp_tap_remove. intros [].
  - by apply (wp_ok_reply []).
  - apply (wp_error_reply []); [|done..]. apply good_text_app; [done|by_decision|done|by_decision].
Qed.
End command.

Lemma json_error_good pos line :
  0 <= pos <= len_of line → len_of line < 2 ^ 62 → bytes_ok line →
  good_text (str "invalid json value at pos " ++ int_text pos ++ str " in: " ++ line).
Proof.
  intros Hpos Hl Hb. assert (is_s64 pos) as Hs by (unfold is_s64; lia).
  destruct (int_text_range pos Hs) as [Hlen _]. split.
  - apply Forall_app_2; [by_decision|]. apply Forall_app_2; [apply plain_bytes, int_text_plain|].
    by apply Forall_app_2; [by_decision|].
  - unfold len_of in *. rewrite !length_app. change (length (str "invalid json value at pos ")) with 26%nat.
    change (length (str " in: ")) with 5%nat. lia.
Qed.

Lemma command_fields_throws x : fails_well (command_fields x) (λ _, True).
Proof.
  destruct x; cbn; try (eexists; split; [reflexivity|by_decision]).
  destruct (item_fields l ∅); cbn; [done|]. eexists. split; [reflexivity|by_decision].
Qed.

Lemma wp_dispatch_json line c c0 :
  good_text line → len_of line < 2 ^ 62 → (∀ x, push_json [] line = Ok (wire x) → writable x → small x) → same c c0 →
  ∃ id, command_id line id ∧ wp (dispatch_json p line finish) c0 (answered c id).
Proof.
  intros [Hb _] Hl Hsm Hc. unfold command_id, dispatch_json. cbv zeta.
  replace null_value with (wire INull) by done.
  destruct (push_json_result [] line Hb ltac:(lia)) as [(cmd & Hi & Hp & E)|(pos & Hpos & E)]; rewrite E.
  2:{ exists INull. split; [done|]. unfold catches at 1. refine (wp_caught [] INull _ c c0 writable_null _ Hc eq_refl eq_refl).
      apply json_error_good; [done|lia|done]. }
  cbn [app] in *. assert (writable cmd) as Hcmd by done. specialize (Hsm cmd E Hcmd).
  unfold catches at 1. rewrite get_fields_item by done.
  destruct (command_fields cmd) as [f|e] eqn:Ef.
  2:{ exists INull. split; [eexists; split_and!; [done..|by rewrite Ef]|].
      pose proof (command_fields_throws cmd) as He. rewrite Ef in He. destruct He as (t & -> & Ht).
      cbn [fmap res_fmap catches]. exact (wp_caught [] INull t c c0 writable_null Ht Hc eq_refl eq_refl). }
  set (id := default INull (f !! str "id")).
  assert (writable id) as Hid.
  { unfold id. destruct (f !! str "id") as [x|] eqn:Ex; [|apply writable_null]. by apply (fields_small cmd f (str "id") x Hcmd Hsm Ef). }
  exists id. split; [eexists; split_and!; [done..|by rewrite Ef]|]. cbn [fmap res_fmap catches].
  rewrite lookup_fmap. replace (default (wire INull) (wire <$> f !! str "id")) with (wire id)
    by (unfold id; by destruct (f !! str "id")).
  eapply (wp_catches []); [done..|apply (require_string_item cmd f Hcmd Hsm Ef); by_decision|].
  intros op _ [Hop Hopl]. apply wp_load.
  destruct (bool_decide (op = str "list")); [by apply wp_list|].
  destruct (bool_decide (op = str "send")); [by apply (wp_send cmd f)|].
  destruct (bool_decide (op = str "call")); [by apply (wp_call_command cmd f)|].
  destruct (bool_decide (op = str "tap")); [by apply (wp_tap cmd f)|].
  destruct (bool_decide (op = str "untap")); [by apply (wp_untap cmd f)|].
  destruct (bool_decide (op = str "bye")); [by apply (wp_ok_reply _ _ Hid [])|].
  apply (wp_error_reply _ _ Hid []); [|done..]. by apply good_text_app; [by_decision|apply Hop|by_decision|].
Qed.

(** A line that is a command. *)
Definition command_line (line : bytes) : Prop := ∃ rest, skip_blanks (chomp line) = 123 :: rest.

Lemma chomp_prefix s : ∃ n, chomp s = take n s.
Proof. unfold chomp. destruct (bool_decide _); [by eexists|]. exists (length s). by rewrite take_ge. Qed.

Lemma chomp_good s : good_text s → good_text (chomp s) ∧ len_of (chomp s) <= len_of s.
Proof.
  intros [Hb Hl]. destruct (chomp_prefix s) as [n ->]. unfold good_text, len_of in *. rewrite length_take.
  split_and!; [by apply Forall_take|lia|lia].
Qed.

Lemma wp_receive_command from line c :
  good_text line → len_of line < 2 ^ 62 → command_line line →
  (∀ x, push_json [] (chomp line) = Ok (wire x) → writable x → small x) →
  ∃ id, command_id (chomp line) id ∧
    wp (debug_connection_receive p from (dispatch_msg line)) c (answered c id).
Proof.
  intros Hb Hl [rest Hcmd] Hsm. destruct (chomp_good line Hb) as [Hb' Hl'].
  destruct (wp_dispatch_json (chomp line) c (set_json_mode c) Hb' ltac:(lia) Hsm) as (id & Hid & H); [done|].
  exists id. split; [done|]. unfold debug_connection_receive. apply wp_load. unfold if_match, attempt.
  assert (matches (dispatch_msg line) [PStr (str "dispatch"); PExtract XString] = Ok (Some [CString line])) as ->.
  { unfold dispatch_msg. rewrite (matches_array _ _ [IText W0 (str "dispatch"); IText (min_width (len_of line)) line]);
      [reflexivity| |done|done|by repeat constructor].
    constructor; [by_decision|]. constructor; [|constructor]. split; [apply Hb|]. destruct Hb as [_ Hb]. unfold len_of in Hb. lia. }
  unfold dispatch. cbv zeta. apply wp_load. rewrite Hcmd. apply wp_modify. exact H.
Qed.

(** C20: in JSON mode every command gets exactly one response.  Whatever command a
    line holds, well-formed or not, and whatever other instances do meanwhile, the
    connection writes one line of JSON with the id of the command and whether it
    succeeded, and starts nothing; or, for a call, writes nothing and starts one
    actor for it, with the id kept under the number of the call.  The connection goes
    on in every case. *)
Theorem json_command_answered from line c u tr u' r :
  deref p u = Some c → good_text line → len_of line < 2 ^ 62 → command_line line →
  (∀ x, push_json [] (chomp line) = Ok (wire x) → writable x → small x) →
  acts (A := debug_connection) serving i p (debug_connection_receive p from (dispatch_msg line)) u tr u' r →
  r = inl None ∧ ∃ id c', command_id (chomp line) id ∧ deref p u' = Some c' ∧
    (responded c id tr c' ∨ called c id tr c').
Proof.
  intros Hc Hb Hl Hline Hsm Ha. destruct (wp_receive_command from line c Hb Hl Hline Hsm) as (id & Hid & H).
  destruct (H u tr u' r Hc Ha) as (c' & Hc' & Hr & Hans). split; [done|]. by exists id, c'.
Qed.

(** ** Answers of calls *)

(** What the actor of a call tells the connection. *)
Inductive call_answer (seq : Z) : bytes → Prop :=
| answer_reply name x l : bytes_ok name → len_of name < 2 ^ 32 → writable (IArray x l) →
    call_answer seq (reply_answer seq name (wire (IArray x l)))
| answer_timeout : call_answer seq (timeout_answer seq)
| answer_error x l : writable (IArray x l) → len_of (json_text (IArray x l)) < 2 ^ 63 →
    call_answer seq (error_answer seq (wire (IArray x l))).

(** The answer is written with the id of its command, which waits no longer. *)
Definition relayed c (seq : Z) (id : item) tr c' : Prop :=
  spawned_of tr = [] ∧ d_s c' = d_s c ∧ d_next_call c' = d_next_call c ∧
  d_pending_calls c' = delete seq (d_pending_calls c) ∧ ∃ ok j, reply_text id ok j ∧
    asked_of tr = [IoSocketWrite (d_s c) j; IoSocketWrite (d_s c) [10]].

Lemma wp_relay seq id ok m c j :
  d_pending_calls c !! seq = Some (wire id) → to_json m = Ok j → reply_text id ok j →
  wp (writes (modify p (λ c, set_calls (d_next_call c) (delete seq (d_pending_calls c)) c))
       (λ _, write_json p m (λ _, Ret None))) c (λ tr c' r, r = inl None ∧ relayed c seq id tr c').
Proof.
  intros Hid Hm Hj. apply wp_modify. unfold write_json, attempt. rewrite Hm. unfold write_line.
  do 2 apply wp_write. apply wp_ret. split; [done|]. split_and!; try done. by exists ok, j.
Qed.

(** The items of a message of the actor of a call, and the patterns it does not
    match. *)
Lemma answer_items tag seq args l ps :
  arg_ok (AString tag) → is_u64 seq → Forall arg_ok args → len_of args < 2 ^ 32 → Forall2 arg_item args l →
  matches (cbor_array (AString tag :: AUInt seq :: args)) ps =
  pats_items pat_item ps (IText (min_width (len_of tag)) tag :: IUInt (min_width seq) seq :: l).
Proof.
  intros Ht Hs Hok Hlen Hi. apply matches_array; [by do 2 (constructor; [done|])|done| |by do 2 (constructor; [done|])].
  rewrite !len_of_cons. lia.
Qed.

Lemma answer_seq seq ps l :
  is_u64 seq → pats_items pat_item (PExtract uint64_target :: ps) (IUInt (min_width seq) seq :: l) =
  match ps with
  | [] => Ok (match l with [] => Some [CUInt seq] | _ => None end)
  | _ => r ← pats_items pat_item ps l; Ok (match r with Some d => Some (CUInt seq :: d) | None => None end)
  end.
Proof.
  intros Hs. assert (pat_item (PExtract uint64_target) (IUInt (min_width seq) seq) = Ok (Some [CUInt seq])) as E.
  { cbn. rewrite (proj2 (Z.ltb_ge _ _)) by (unfold is_u64 in Hs; lia). done. }
  destruct ps as [|q ps]; [cbn [pats_items is_more]; by rewrite E|]. rewrite pats_items_cons, E. done.
Qed.

(** A pattern that is not matched, by evaluation. *)
Ltac no_match :=
  match goal with |- context [pats_items pat_item ?ps ?its] =>
    let H := fresh in assert (pats_items pat_item ps its = Ok None) as H by reflexivity; rewrite H; clear H
  end.

Lemma wp_reply_answer from seq id name x l c :
  is_u64 seq → writable id → bytes_ok name → len_of name < 2 ^ 32 → writable (IArray x l) →
  d_pending_calls c !! seq = Some (wire id) →
  wp (debug_connection_receive p from (reply_answer seq name (wire (IArray x l)))) c
    (λ tr c' r, r = inl None ∧ relayed c seq id tr c').
Proof.
  intros Hs Hid Hn Hl Hi Hp. unfold debug_connection_receive. apply wp_load. unfold if_match, attempt.
  destruct (good_cbor _ Hi) as (Hok & Hit & _).
  assert (∀ ps, matches (reply_answer seq name (wire (IArray x l))) ps = pats_items pat_item ps
    [IText W0 (str "debug_call_reply"); IUInt (min_width seq) seq; IText (min_width (len_of name)) name; IArray x l]) as E.
  { intros ps. apply (answer_items (str "debug_call_reply")); [by_decision|done| |done|by do 2 (constructor; [done|])].
    constructor; [split; [done|unfold len_of in Hl; lia]|by constructor]. }
  rewrite !E, (pats_items_cons _ (PStr (str "debug_call_reply"))). cbn [pat_item item_string mbind option_bind].
  rewrite (decide_True (P := str "debug_call_reply" = _)) by done. cbn [mbind res_bind]. rewrite answer_seq by done.
  do 6 no_match.
  cbn [pats_items is_more pat_item item_capture item_string item_range item_type mbind res_bind option_bind fmap option_fmap option_map app].
  unfold take_call. apply wp_load. rewrite Hp.
  destruct (reply_prints id true [AString (str "from"); AString name; AString (str "result"); ACbor (wire (IArray x l))]
    [IText W0 (str "from"); IText (min_width (len_of name)) name; IText W0 (str "result"); IArray x l] 2)
    as (j & Ej & Hj); [done| |done|lia|by eapply wp_relay].
  constructor; [apply (good_str "from"); cbn; lia|]. constructor; [apply good_string; [done|lia]|].
  constructor; [apply (good_str "result"); cbn; lia|]. by constructor; [apply good_cbor|].
Qed.

Lemma wp_timeout_answer from seq id c :
  is_u64 seq → writable id → d_pending_calls c !! seq = Some (wire id) →
  wp (debug_connection_receive p from (timeout_answer seq)) c (λ tr c' r, r = inl None ∧ relayed c seq id tr c').
Proof.
  intros Hs Hid Hp. unfold debug_connection_receive. apply wp_load. unfold if_match, attempt.
  assert (∀ ps, matches (timeout_answer seq) ps = pats_items pat_item ps
    [IText W0 (str "debug_call_timeout"); IUInt (min_width seq) seq]) as E.
  { intros ps. by apply (answer_items (str "debug_call_timeout")); [by_decision|..]. }
  rewrite !E, (pats_items_cons _ (PStr (str "debug_call_timeout"))). cbn [pat_item item_string mbind option_bind].
  rewrite (decide_True (P := str "debug_call_timeout" = _)) by done. cbn [mbind res_bind]. rewrite answer_seq by done.
  do 7 no_match. cbn [mbind res_bind app]. unfold take_call. apply wp_load. rewrite Hp.
  destruct (reply_error_prints id (str "timeout") Hid) as (j & Ej & Hj); [by_decision|by eapply wp_relay].
Qed.

Lemma wp_error_answer from seq id x l c :
  is_u64 seq → writable id → writable (IArray x l) → len_of (json_text (IArray x l)) < 2 ^ 63 →
  d_pending_calls c !! seq = Some (wire id) →
  wp (debug_connection_receive p from (error_answer seq (wire (IArray x l)))) c
    (λ tr c' r, r = inl None ∧ relayed c seq id tr c').
Proof.
  intros Hs Hid Hi Hl Hp. unfold debug_connection_receive. apply wp_load. unfold if_match.
  destruct (good_cbor _ Hi) as (Hok & Hit & _).
  assert (∀ ps, matches (error_answer seq (wire (IArray x l))) ps = pats_items pat_item ps
    [IText W0 (str "debug_call_error"); IUInt (min_width seq) seq; IArray x l]) as E.
  { intros ps. by apply (answer_items (str "debug_call_error")); [by_decision|done|constructor|done|constructor]. }
  rewrite !E, (pats_items_cons _ (PStr (str "debug_call_error"))). cbn [pat_item item_string mbind option_bind].
  rewrite (decide_True (P := str "debug_call_error" = _)) by done. cbn [mbind res_bind]. rewrite answer_seq by done.
  do 8 no_match. unfold attempt at 1 2 3 4 5 6 7 8 9.
  cbn [pats_items is_more pat_item item_capture item_range item_type mbind res_bind option_bind fmap option_fmap option_map app].
  unfold take_call. apply wp_load. rewrite Hp. destruct Hi as [Hi Hpr].
  unfold attempt. rewrite <- (app_nil_r (wire (IArray x l))), (to_json_text _ []) by (done || constructor).
  destruct (reply_error_prints id (json_text (IArray x l)) Hid) as (j & Ej & Hj); [|by eapply wp_relay].
  split; [by apply plain_bytes, json_text_plain|done].
Qed.

(** What the actor of a call tells the connection (the reply, the timeout or the
    error of the request) is written as one line of JSON with the id of the command
    that made the call; the call waits no longer, so that its number finds nothing
    the next time. *)
Theorem call_answer_relayed from seq id m c u tr u' r :
  deref p u = Some c → is_u64 seq → writable id → call_answer seq m → d_pending_calls c !! seq = Some (wire id) →
  acts (A := debug_connection) serving i p (debug_connection_receive p from m) u tr u' r →
  r = inl None ∧ ∃ c', deref p u' = Some c' ∧ relayed c seq id tr c'.
Proof.
  intros Hc Hs Hid Hm Hp Ha.
  assert (wp (debug_connection_receive p from m) c (λ tr c' r, r = inl None ∧ relayed c seq id tr c')) as H.
  { destruct Hm; [by apply wp_reply_answer|by apply wp_timeout_answer|by apply wp_error_answer]. }
  destruct (H u tr u' r Hc Ha) as (c' & Hc' & Hr & Hrel). split; [done|]. by exists c'.
Qed.
End connection.

(** ** A run *)

(** A world in which the instance 1 runs. *)
Definition served (u : heap unit) : world (heap unit) (closure nat) :=
  World {[1 := Inst (str "a") None None None None [] true false false false [] env_empty (Some (Ret None))]} ∅
    {[1 := Some 1]} 2 (Context 1 None ∅ 0 [] 0) u [] ∅.

Lemma served_serving u : serving 1 (served u).
Proof.
  unfold serving. split_and!; [|intros j [= <-]; eexists; split; [reflexivity|by eexists]| |by intros ?? ?|by_decision].
  - split; cbn; try done.
    + intros j [x Hx]. apply lookup_singleton_Some in Hx as [<- _]. lia.
    + intros j. destruct (decide (j = 1)) as [->|]; [done|]. by rewrite !lookup_singleton_ne.
    + intros j x Hx. apply lookup_singleton_Some in Hx as [<- <-]. done.
    + intros j x Hx _. apply lookup_singleton_Some in Hx as [<- <-]. by split_and!.
  - intros j x Hx. cbn in Hx. apply lookup_singleton_Some in Hx as [<- <-]. by_decision.
Qed.

Lemma acts_served o k u w' a tr u' r :
  exec (served u) (Some 1) o = (w', Ok a) →
  acts (A := debug_connection) (serving 1) 1 2 (k a) (user w') tr u' r →
  acts (A := debug_connection) (serving 1) 1 2 (Call o k) u (events_of o u ++ tr) u' r.
Proof. intros He Ha. apply (acts_call (serving 1) 1 2 o k (served u) w' a (user w')); [apply served_serving|done..]. Qed.

Lemma acts_catches {B} h (m : res B) b (k : B → prog (heap unit) (closure nat)) u tr u' r :
  m = Ok b → acts (A := debug_connection) (serving 1) 1 2 (k b) u tr u' r →
  acts (A := debug_connection) (serving 1) 1 2 (catches h m k) u tr u' r.
Proof. by intros ->. Qed.

Lemma acts_caught {B} h (m : res B) e (k : B → prog (heap unit) (closure nat)) u tr u' r :
  m = Throw (domain_error e) → acts (A := debug_connection) (serving 1) 1 2 (h e) u tr u' r →
  acts (A := debug_connection) (serving 1) 1 2 (catches h m k) u tr u' r.
Proof. by intros ->. Qed.

Lemma acts_attempt {B} (m : res B) b (k : B → prog (heap unit) (closure nat)) u tr u' r :
  m = Ok b → acts (A := debug_connection) (serving 1) 1 2 (k b) u tr u' r →
  acts (A := debug_connection) (serving 1) 1 2 (attempt m k) u tr u' r.
Proof. by intros ->. Qed.

Ltac served_step :=
  lazymatch goal with
  | |- acts _ _ _ (catches _ _ _) _ _ _ _ => 
      (eapply acts_catches; [vm_compute; reflexivity|]; cbv beta) ||
      (eapply acts_caught; [vm_compute; reflexivity|]; cbv beta)
  | |- acts _ _ _ ?m _ _ _ _ =>
      let m' := eval hnf in m in
      lazymatch m' with
      | Call ?o ?k => eapply (acts_served o k); [vm_compute; reflexivity|]
      | Ret ?r => apply (acts_ret (serving 1) 1 2 r)
      end
  end.

Lemma json_command_answered_witness :
  let c := DebugConnection 1 [] [] (self_handle 1) false false 0 0 ∅ in
  let u := store 2 c (heap_empty tt) in
  let line := str "{}" ++ [13] in
  ∃ tr u' r, acts (A := debug_connection) (serving (U := unit) (C := nat) 1) 1 2
      (debug_connection_receive 2 null_handle (dispatch_msg line)) u tr u' r ∧
    r = inl None ∧ ∃ id c', command_id (chomp line) id ∧ deref 2 u' = Some c' ∧
    (responded c id tr c' ∨ called c id tr c').
Proof.
  intros c u line.
  assert (∃ tr u' r, acts (A := debug_connection) (serving (U := unit) (C := nat) 1) 1 2
      (debug_connection_receive 2 null_handle (dispatch_msg line)) u tr u' r) as (tr & u' & r & H).
  { do 3 eexists. do 3 served_step. cbv beta iota. unfold dispatch_json. cbv zeta beta.
    do 3 served_step. unfold write_json. eapply acts_attempt; [vm_compute; reflexivity|]. repeat served_step. }
  exists tr, u', r. split; [exact H|].
  apply (json_command_answered (U := unit) (C := nat) 1 2 null_handle line c u tr u' r);
    [apply deref_store|by_decision|by_decision|by eexists| |exact H].
  intros x Hx [Hi Hp].
  assert (push_json [] (chomp line) = Ok [160]) as E1 by (vm_compute; reflexivity).
  assert (to_json [160] = Ok (str "{}")) as E2 by (vm_compute; reflexivity).
  rewrite E1 in Hx. injection Hx as E. pose proof (to_json_text x [] Hi Hp (Forall_nil_2 _)) as Hj.
  rewrite app_nil_r, <- E, E2 in Hj. injection Hj as Hj. unfold small. rewrite <- E, <- Hj. by_decision.
Defined.

Lemma call_answer_relayed_witness :
  let c := DebugConnection 1 [] [] (self_handle 1) true false 0 8 {[7 := wire INull]} in
  let u := store 2 c (heap_empty tt) in
  ∃ tr u' r, acts (A := debug_connection) (serving (U := unit) (C := nat) 1) 1 2
      (debug_connection_receive 2 null_handle (timeout_answer 7)) u tr u' r ∧
    r = inl None ∧ ∃ c', deref 2 u' = Some c' ∧ relayed c 7 INull tr c'.
Proof.
  intros c u.
  assert (∃ tr u' r, acts (A := debug_connection) (serving (U := unit) (C := nat) 1) 1 2
      (debug_connection_receive 2 null_handle (timeout_answer 7)) u tr u' r) as (tr & u' & r & H).
  { do 3 eexists. repeat served_step. }
  exists tr, u', r. split; [exact H|].
  apply (call_answer_relayed (U := unit) (C := nat) 1 2 null_handle 7 INull (timeout_answer 7) c u tr u' r);
    [apply deref_store|by_decision|apply writable_null|constructor|reflexivity|exact H].
Defined.
