(* ===== verification/Socket.v ===== *)
(** * Sockets ([socket_impl] of [src/src/instance.cpp])

    A socket queues what its owner writes behind the one write that the executor
    works on.  The executor, a wrapper of Asio, is seen through the calls it
    gets and the completions it reports: [write] hands it the octets of
    [write_buf_], in place, and completes with an error or with the number of
    octets that the kernel took from their front; a handler runs only while the
    socket object exists.

    A completion is dispatched to the owner, which may call the socket in turn,
    close it or destroy it, before the handler goes on; what it calls is the
    list [calls] of the event, and [ret] whether the dispatch succeeded. *)
From S2P Require Import Prelude CborEncode Ieee CborDecode CborMatch Env Instance Actors.

Record socket_impl : Type := SocketImpl {
  s_tag : bytes;
  s_open : bool;
  s_write_buf : bytes;
  s_write_q : bytes;
  s_write_pending : bool
}.

(** What the executor is asked for. *)
Inductive ecall : Type := XWrite | XRead | XClose | XDestroy.

(** The socket object while it exists; the write and the number of reads that
    the executor works on; whether the executor's socket is closed; the octets
    the kernel took; what was sent and dispatched to the owner; and, for the
    theorems, what the owner wrote, whether a write has failed, and the calls
    of the executor in order. *)
Record sock : Type := Sock {
  impl : option socket_impl;
  writing : option bytes;
  reading : nat;
  closed : bool;
  taken : bytes;
  msgs : list bytes;
  written : bytes;
  failed : bool;
  issued : list ecall
}.

Definition set_impl (i : option socket_impl) (s : sock) : sock :=
  Sock i (writing s) (reading s) (closed s) (taken s) (msgs s) (written s) (failed s) (issued s).
Definition set_writing (v : option bytes) (s : sock) : sock :=
  Sock (impl s) v (reading s) (closed s) (taken s) (msgs s) (written s) (failed s) (issued s).
Definition set_reading (v : nat) (s : sock) : sock :=
  Sock (impl s) (writing s) v (closed s) (taken s) (msgs s) (written s) (failed s) (issued s).
Definition set_closed (s : sock) : sock :=
  Sock (impl s) (writing s) (reading s) true (taken s) (msgs s) (written s) (failed s) (issued s).
Definition add_taken (v : bytes) (s : sock) : sock :=
  Sock (impl s) (writing s) (reading s) (closed s) (taken s ++ v) (msgs s) (written s) (failed s) (issued s).
Definition add_msg (m : bytes) (s : sock) : sock :=
  Sock (impl s) (writing s) (reading s) (closed s) (taken s) (msgs s ++ [m]) (written s) (failed s) (issued s).
Definition add_written (v : bytes) (s : sock) : sock :=
  Sock (impl s) (writing s) (reading s) (closed s) (taken s) (msgs s) (written s ++ v) (failed s) (issued s).
Definition set_failed (s : sock) : sock :=
  Sock (impl s) (writing s) (reading s) (closed s) (taken s) (msgs s) (written s) true (issued s).
Definition issue (l : list ecall) (s : sock) : sock :=
  Sock (impl s) (writing s) (reading s) (closed s) (taken s) (msgs s) (written s) (failed s) (issued s ++ l).

Definition set_bufs (buf q : bytes) (pending : bool) (i : socket_impl) : socket_impl :=
  SocketImpl (s_tag i) (s_open i) buf q pending.
Definition set_open (v : bool) (i : socket_impl) : socket_impl :=
  SocketImpl (s_tag i) v (s_write_buf i) (s_write_q i) (s_write_pending i).

(** [socket::create] *)
Definition socket_create (tag : bytes) : sock :=
  Sock (Some (SocketImpl tag true [] [] false)) None 0 false [] [] [] false [].

Definition socket_msg (i : socket_impl) (event : bytes) (args : list arg) : bytes :=
  io_msg (str "socket") (s_tag i) event args.

(** ** Operations *)

Definition write_internal (i : socket_impl) (s : sock) : sock :=
  issue [XWrite] (set_writing (Some (s_write_buf i))
    (set_impl (Some (set_bufs (s_write_buf i) (s_write_q i) true i)) s)).

Definition close_internal (i : socket_impl) (s : sock) : sock :=
  let s := if s_open i then issue [XClose] (set_closed (set_impl (Some (set_open false i)) s)) else s in
  add_msg (socket_msg i (str "closed") []) s.

Inductive call : Type := CWrite (buf : bytes) | CRead | CClose | CDestroy.

(** [write], [read], [close] and the destructor; calls of an object that is gone
    do not happen. *)
Definition socket_call (c : call) (s : sock) : sock :=
  match impl s with
  | None => s
  | Some i =>
      match c with
      | CWrite buf =>
          let s := add_written buf s in
          if s_write_pending i
          then set_impl (Some (set_bufs (s_write_buf i) (s_write_q i ++ buf) true i)) s
          else write_internal (set_bufs (buf ++ s_write_buf i) (s_write_q i) false i) s
      | CRead => issue [XRead] (set_reading (S (reading s)) s)
      | CClose => close_internal i s
      | CDestroy => issue [XClose; XDestroy] (set_closed (set_impl None s))
      end
  end.

(** [owner_.dispatch_sync(...)]: the message, and what the owner calls. *)
Definition dispatch (m : bytes) (calls : list call) (s : sock) : sock :=
  foldl (λ s c, socket_call c s) (add_msg m s) calls.

Definition write_complete (length_ : nat) (calls : list call) (ret : bool) (s : sock) : sock :=
  match impl s with
  | None => s
  | Some i =>
      let s := dispatch (socket_msg i (str "write_complete") [AUInt (Z.of_nat length_)]) calls s in
      match impl s with
      | None => s
      | Some i =>
          let s := if ret then s else close_internal i s in
          let i := if ret then i else set_open false i in
          if (length_ <? length (s_write_buf i))%nat
          then write_internal (set_bufs (drop length_ (s_write_buf i)) (s_write_q i) false i) s
          else if bool_decide (s_write_q i = [])
          then set_impl (Some (set_bufs [] [] false i)) s
          else write_internal (set_bufs (s_write_q i) [] false i) s
      end
  end.

(** The handler of [write_internal]. *)
Definition write_handler (r : nat + Z * bytes) (calls : list call) (ret : bool) (s : sock) : sock :=
  match r, impl s with
  | _, None => s
  | inl n, Some _ => write_complete n calls ret s
  | inr (ec, text), Some i =>
      let s := dispatch (socket_msg i (str "write_error") [AInt ec; AString text]) calls s in
      match impl s with None => s | Some i => close_internal i s end
  end.

(** The handler of [read]; 2 is the end of the stream and 125 a cancelled read. *)
Definition read_handler (ec : option (Z * bytes)) (data : bytes) (calls : list call) (ret : bool) (s : sock)
  : sock :=
  match impl s with
  | None => s
  | Some i =>
      let complete (buf : bytes) :=
        let s := dispatch (socket_msg i (str "read_complete") [AString buf]) calls s in
        match impl s with
        | Some i => if ret then s else close_internal i s
        | None => s
        end in
      if negb (s_open i) then s
      else match ec with
      | Some (value, text) =>
          if bool_decide (data = []) && (value =? 2) then complete []
          else if value =? 125 then close_internal i s
          else dispatch (socket_msg i (str "read_error") [AInt value; AString text]) calls s
      | None => complete data
      end
  end.

(** ** The executor *)

Inductive event : Type :=
| ECall (c : call)                                   (** the owner calls *)
| EWritten (n : nat) (calls : list call) (ret : bool)  (** the kernel took [n] octets *)
| EWriteError (ec : Z) (text : bytes) (calls : list call)
| ERead (ec : option (Z * bytes)) (data : bytes) (calls : list call) (ret : bool).

(** [None] where the executor has no such completion to report. *)
Definition step (e : event) (s : sock) : option sock :=
  match e with
  | ECall c => Some (socket_call c s)
  | EWritten n calls ret =>
      match writing s with
      | Some buf =>
          if (n <=? length buf)%nat
          then Some (write_handler (inl n) calls ret (set_writing None (add_taken (take n buf) s)))
          else None
      | None => None
      end
  | EWriteError ec text calls =>
      match writing s with
      | Some _ => Some (write_handler (inr (ec, text)) calls true (set_failed (set_writing None s)))
      | None => None
      end
  | ERead ec data calls ret =>
      match reading s with
      | S n => Some (read_handler ec data calls ret (set_reading n s))
      | O => None
      end
  end.

Fixpoint run (es : list event) (s : sock) : option sock :=
  match es with
  | [] => Some s
  | e :: es => match step e s with Some s => run es s | None => None end
  end.
