(* ===== verification/SocketTheorems.v ===== *)
(** * What a socket guarantees *)
From S2P Require Import Prelude CborEncode Ieee CborDecode CborMatch Env Instance Actors Socket.

(** What is left to write, in order. *)
Definition unsent (i : socket_impl) : bytes := s_write_buf i ++ s_write_q i.

(** Between two events: the octets the kernel took and the ones left are what
    the owner wrote; the executor works on [write_buf_] as it is; nothing is
    left unless a write is pending, and a pending write is with the executor
    unless one has failed. *)
Definition ok (s : sock) : Prop :=
  match impl s with
  | Some i =>
      taken s ++ unsent i = written s ∧
      (s_write_pending i = false → unsent i = [] ∧ writing s = None) ∧
      (∀ b, writing s = Some b → b = s_write_buf i) ∧
      (s_write_pending i = true → failed s = false → is_Some (writing s))
  | None => taken s ++ default [] (writing s) `prefix_of` written s
  end.

Lemma ok_create tag : ok (socket_create tag).
Proof. split_and!; cbn; try done. Qed.

Lemma close_internal_fields i s :
  writing (close_internal i s) = writing s ∧ taken (close_internal i s) = taken s ∧
  written (close_internal i s) = written s ∧ failed (close_internal i s) = failed s.
Proof. unfold close_internal. by destruct (s_open i). Qed.

Lemma close_internal_impl i s :
  impl s = Some i → ∃ i', impl (close_internal i s) = Some i' ∧ s_write_buf i' = s_write_buf i ∧
    s_write_q i' = s_write_q i ∧ s_write_pending i' = s_write_pending i.
Proof. intros Hi. unfold close_internal. destruct (s_open i); cbn; eauto. Qed.

Lemma ok_close_internal i s : impl s = Some i → ok s → ok (close_internal i s).
Proof.
  intros Hi. destruct (close_internal_fields i s) as (E1 & E2 & E3 & E4).
  destruct (close_internal_impl i s Hi) as (i' & Hi' & B1 & B2 & B3).
  unfold ok. by rewrite Hi, Hi', E1, E2, E3, E4, B3; unfold unsent; rewrite B1, B2.
Qed.

Lemma ok_call c s : ok s → ok (socket_call c s).
Proof.
  intros Hs. unfold socket_call. destruct (impl s) as [i|] eqn:Hi; [|done].
  pose proof Hs as Hok. unfold ok in Hok. rewrite Hi in Hok. destruct Hok as (H1 & H2 & H3 & H4).
  destruct c as [buf| | |].
  - destruct (s_write_pending i) eqn:Ep.
    + unfold ok, unsent in *. cbn. split_and!; try done. by rewrite <- H1, <- !(assoc_L app).
    + destruct (H2 eq_refl) as [E1 E2]. unfold unsent in *. apply app_nil in E1 as [E1 E3].
      unfold ok, unsent. cbn. rewrite E1, E3, !app_nil_r in *. split_and!; try done; [by rewrite H1|].
      by intros b [= ->].
  - unfold ok. cbn. by rewrite Hi.
  - by apply ok_close_internal.
  - unfold ok. cbn. destruct (writing s) as [b|]; cbn; [|rewrite app_nil_r; rewrite <- H1; apply prefix_app_r; done].
    rewrite (H3 b eq_refl), <- H1. unfold unsent. rewrite (assoc_L app). by apply prefix_app_r.
Qed.

(** ** While a completion is dispatched *)

(** The owner can only add to the queue: the buffer is the executor's. *)
Definition held (n : nat) (s : sock) : Prop :=
  match impl s with
  | Some i =>
      (n <= length (s_write_buf i))%nat ∧ s_write_pending i = true ∧ writing s = None ∧
      taken s ++ drop n (s_write_buf i) ++ s_write_q i = written s
  | None => writing s = None ∧ taken s `prefix_of` written s
  end.

Lemma held_call n c s : held n s → held n (socket_call c s).
Proof.
  intros Hs. unfold socket_call. destruct (impl s) as [i|] eqn:Hi; [|done].
  pose proof Hs as Hh. unfold held in Hh. rewrite Hi in Hh. destruct Hh as (H1 & H2 & H3 & H4).
  destruct c as [buf| | |].
  - rewrite H2. unfold held. cbn. split_and!; try done. by rewrite <- H4, <- !(assoc_L app).
  - unfold held. cbn. by rewrite Hi.
  - destruct (close_internal_fields i s) as (E1 & E2 & E3 & E4).
    destruct (close_internal_impl i s Hi) as (i' & Hi' & B1 & B2 & B3).
    unfold held. by rewrite Hi', E1, E2, E3, B1, B2, B3.
  - unfold held. cbn. split; [done|]. rewrite <- H4. by apply prefix_app_r.
Qed.

Lemma held_dispatch n m calls s : held n s → held n (dispatch m calls s).
Proof.
  intros Hs. unfold dispatch. assert (held n (add_msg m s)) as H by done. clear Hs.
  revert H. generalize (add_msg m s). induction calls as [|c calls IH]; intros s' H; [done|].
  cbn. apply IH. by apply held_call.
Qed.

Lemma ok_write_complete n calls ret s : held n s → ok (write_complete n calls ret s).
Proof.
  intros Hs. unfold write_complete. destruct (impl s) as [i0|] eqn:Hi0.
  2:{ unfold held in Hs. unfold ok. rewrite Hi0 in *. destruct Hs as [-> Hp]. cbn. by rewrite app_nil_r. }
  cbv zeta. set (s1 := dispatch _ calls s). assert (held n s1) as H1 by by apply held_dispatch.
  destruct (impl s1) as [i|] eqn:Hi.
  2:{ unfold held in H1. unfold ok. rewrite Hi in *. destruct H1 as [-> Hp]. cbn. by rewrite app_nil_r. }
  unfold held in H1. rewrite Hi in H1. destruct H1 as (Hn & _ & Hw & Ht).
  set (s2 := if ret then s1 else close_internal i s1).
  set (i2 := if ret then i else set_open false i).
  assert (writing s2 = None ∧ taken s2 = taken s1 ∧ written s2 = written s1) as (E1 & E2 & E3).
  { unfold s2. destruct ret; [done|]. destruct (close_internal_fields i s1) as (-> & -> & -> & _). done. }
  assert (s_write_buf i2 = s_write_buf i ∧ s_write_q i2 = s_write_q i) as [B1 B2] by (unfold i2; by destruct ret).
  rewrite B1, B2. destruct (Nat.ltb_spec n (length (s_write_buf i))) as [Hlt|Hge].
  - unfold ok, unsent. cbn. rewrite E2, E3. split_and!; try done. by intros b [= ->].
  - rewrite drop_ge in Ht by lia. case_bool_decide as Hq.
    + unfold ok, unsent. cbn. rewrite E1, E2, E3. split_and!; try done. by rewrite <- Ht, Hq.
    + unfold ok, unsent. cbn. rewrite E2, E3, app_nil_r. split_and!; try done. by intros b [= ->].
Qed.

(** After an error nothing is with the executor. *)
Lemma ok_dispatch m calls s : ok s → ok (dispatch m calls s).
Proof.
  intros Hs. unfold dispatch. assert (ok (add_msg m s)) as H by done. clear Hs.
  revert H. generalize (add_msg m s). induction calls as [|c calls IH]; intros s' H; [done|].
  cbn. apply IH. by apply ok_call.
Qed.

Lemma ok_read_handler ec data calls ret s : ok s → ok (read_handler ec data calls ret s).
Proof.
  intros Hs. unfold read_handler. destruct (impl s) as [i|] eqn:Hi; [|done]. cbv zeta.
  assert (∀ m, ok (match impl (dispatch m calls s) with
    | Some i => if ret then dispatch m calls s else close_internal i (dispatch m calls s)
    | None => dispatch m calls s end)) as Hc.
  { intros m. pose proof (ok_dispatch m calls s Hs) as Hd.
    destruct (impl (dispatch m calls s)) eqn:Hi'; [|done]. destruct ret; [done|by apply ok_close_internal]. }
  destruct (s_open i); cbn [negb]; [|done]. destruct ec as [[value text]|]; [|apply Hc].
  destruct (_ && _); [apply Hc|]. destruct (value =? 125); [by apply ok_close_internal|by apply ok_dispatch].
Qed.

Lemma ok_step e s s' : ok s → step e s = Some s' → ok s'.
Proof.
  intros Hs He. destruct e as [c|n calls ret|ec text calls|ec data calls ret]; cbn [step] in He.
  - injection He as <-. by apply ok_call.
  - destruct (writing s) as [buf|] eqn:Hw; [|done]. destruct (Nat.leb_spec n (length buf)) as [Hn|]; [|done].
    injection He as <-. unfold write_handler. unfold ok in Hs. cbn [impl set_writing add_taken].
    destruct (impl s) as [i|] eqn:Hi.
    + destruct Hs as (H1 & H2 & H3 & H4). rewrite (H3 buf Hw) in *. apply ok_write_complete.
      unfold held. cbn. rewrite Hi. split_and!; [done| |done|].
      * destruct (s_write_pending i) eqn:Ep; [done|]. destruct (H2 eq_refl) as [_ E]. congruence.
      * rewrite <- H1. unfold unsent. rewrite <- (assoc_L app). f_equal. by rewrite (assoc_L app), take_drop.
    + unfold ok. cbn. rewrite Hi, app_nil_r. etrans; [|exact Hs]. rewrite Hw. cbn.
      apply prefix_app, prefix_take.
  - destruct (writing s) as [buf|] eqn:Hw; [|done]. injection He as <-. unfold write_handler.
    set (s1 := set_failed (set_writing None s)). assert (ok s1) as H1.
    { unfold ok in *. cbn. destruct (impl s) as [i|]; cbn.
      - destruct Hs as (E1 & E2 & _). split_and!; try done. intros Ep. by destruct (E2 Ep).
      - rewrite app_nil_r. etrans; [|exact Hs]. by apply prefix_app_r. }
    change (impl s1) with (impl s). destruct (impl s) as [i|] eqn:Hi; [|exact H1].
    pose proof (ok_dispatch (socket_msg i (str "write_error") [AInt ec; AString text]) calls s1 H1) as Hd.
    destruct (impl (dispatch _ calls s1)) eqn:Hi'; [by apply ok_close_internal|done].
  - destruct (reading s) as [|n]; [done|]. injection He as <-. by apply ok_read_handler.
Qed.

Lemma ok_run es s s' : ok s → run es s = Some s' → ok s'.
Proof.
  revert s. induction es as [|e es IH]; intros s Hs; cbn [run]; [by intros [= <-]|].
  destruct (step e s) as [s1|] eqn:He; [|done]. intros Hr. eapply IH; [|exact Hr]. by eapply ok_step.
Qed.

(** C12: a socket sends the octets its owner wrote in the order of the writes,
    however the kernel cuts them, whatever the owner does while it is told of a
    completion, and after errors, a close and its destruction: what the kernel
    took is a prefix of what was written.  While the socket exists, what is
    left is in its two buffers, the buffer that the executor works on is not
    touched, all octets are taken when no write is pending, and a pending write
    is with the executor unless one failed. *)
Theorem socket_stream tag es s :
  run es (socket_create tag) = Some s →
  taken s `prefix_of` written s ∧
  ∀ i, impl s = Some i →
    taken s ++ s_write_buf i ++ s_write_q i = written s ∧
    (s_write_pending i = false → taken s = written s) ∧
    (∀ b, writing s = Some b → b = s_write_buf i) ∧
    (s_write_pending i = true → failed s = false → is_Some (writing s)).
Proof.
  intros Hr. pose proof (ok_run es _ s (ok_create tag) Hr) as Hs. unfold ok, unsent in Hs.
  destruct (impl s) as [i|].
  - destruct Hs as (H1 & H2 & H3 & H4). split; [rewrite <- H1; by apply prefix_app_r|].
    intros i' [= <-]. split_and!; try done. intros Hp. destruct (H2 Hp) as [E _].
    by rewrite <- H1, E, app_nil_r.
  - split; [|done]. etrans; [|exact Hs]. by apply prefix_app_r.
Qed.

Lemma socket_stream_witness :
  let es := [ECall (CWrite [1; 2; 3]); ECall (CWrite [4; 5]); EWritten 2 [CWrite [6]] true; EWritten 1 [] true] in
  ∃ s i, run es (socket_create (str "t")) = Some s ∧ impl s = Some i ∧
    taken s ++ s_write_buf i ++ s_write_q i = written s ∧ taken s = [1; 2; 3] ∧ written s = [1; 2; 3; 4; 5; 6].
Proof.
  intros es. destruct (run es (socket_create (str "t"))) as [s|] eqn:E; [|vm_compute in E; discriminate E].
  destruct (impl s) as [i|] eqn:Ei; [|vm_compute in E; injection E as <-; discriminate Ei].
  exists s, i. destruct (socket_stream (str "t") es s E) as [_ H]. destruct (H i Ei) as [H1 _].
  split_and!; [done|done|exact H1|..]; vm_compute in E; injection E as <-; reflexivity.
Defined.
