(* ===== verification/Timers.v ===== *)
(** * Timeouts, signals and metronomes ([src/src/instance.cpp])

    A timeout and a signal wait once for the executor and then send a message to
    their owner; a metronome sends ticks.  The executor runs a handler only
    while its own object exists, and completes a wait once: with success, or
    with an error after a cancel.  Messages that are traced go to the trace
    handler of the environment of the owner, where the channel is enabled. *)
From S2P Require Import Prelude CborEncode Ieee CborDecode CborMatch Env Instance.

(** ** Timeouts and signals *)

Inductive wait_kind : Type := WTimeout | WSignal.

(** [timeout_impl] and [signal_impl] with the handler that waits: [lifelock] of
    the handler, [dtor_cancelled_], whether the object and the executor's object
    exist, whether the executor has yet to run the handler, and whether it was
    told to cancel. *)
Record waiter : Type := Waiter {
  w_kind : wait_kind;
  w_msg : bytes;
  w_lifelock : bool;
  w_dtor_cancelled : bool;
  w_exists : bool;
  w_waiting : bool;
  w_cancelled : bool;
  w_sent : list bytes;      (** what the owner was sent *)
  w_traced : list bytes     (** what was traced *)
}.

Definition w_error (w : waiter) : bytes :=
  match w_kind w with WTimeout => str "timeout_error" | WSignal => str "signal_error" end.

(** The constructors; [lifelock] is whether the owner is not yet exiting, [trace]
    whether its channel is enabled. *)
Definition timeout_set (us : Z) (m : bytes) : bytes :=
  cbor_array [AString (str "timeout"); AString (str "set"); ACbor m; AInt us].
Definition timeout_create (us : Z) (m : bytes) (lifelock trace : bool) : waiter :=
  Waiter WTimeout m lifelock false true true false [] (if trace then [timeout_set us m] else []).
Definition signal_create (signum : Z) (m : bytes) (lifelock trace : bool) : waiter :=
  Waiter WSignal m lifelock false true true false []
    (if trace then [cbor_array [AString (str "signal"); AString (str "set"); ACbor m; AInt signum]] else []).

Definition wait_cancel (w : waiter) : waiter :=
  Waiter (w_kind w) (w_msg w) (w_lifelock w) (w_dtor_cancelled w) (w_exists w) (w_waiting w)
    (w_cancelled w || w_waiting w) (w_sent w) (w_traced w).

(** The destructor: the flag and the cancel, then the members go. *)
Definition wait_destroy (w : waiter) : waiter :=
  wait_cancel (Waiter (w_kind w) (w_msg w) (w_lifelock w) true (w_exists w) (w_waiting w)
                 (w_cancelled w) (w_sent w) (w_traced w)).
Definition wait_gone (w : waiter) : waiter :=
  Waiter (w_kind w) (w_msg w) (w_lifelock w) (w_dtor_cancelled w) false (w_waiting w)
    (w_cancelled w) (w_sent w) (w_traced w).

(** The handler given to [on_expired] and [on_fired]: what it sends. *)
Definition wait_message (w : waiter) (error : option (Z * bytes)) : list bytes :=
  if w_lifelock w then
    match error with
    | None => [w_msg w]
    | Some (value, text) =>
        if w_dtor_cancelled w then [] else [exit_message (w_error w) [AInt value; AString text]]
    end
  else [].

(** What it traces, where the channel is enabled by then: with the time that has
    passed or the number of the signal, and the text of no error. *)
Definition wait_trace (k : wait_kind) (m : bytes) (error : option (Z * bytes)) (n : Z) (ok_text : bytes) : bytes :=
  cbor_array
    (match k with
     | WTimeout => [AString (str "timeout"); AString (str "expired")]
     | WSignal => [AString (str "signal"); AString (str "fired")]
     end ++ [ACbor m; AInt n] ++
     match error with Some (value, text) => [AInt value; AString text] | None => [AInt 0; AString ok_text] end).
Definition wait_traces (w : waiter) (error : option (Z * bytes)) (traced : option (Z * bytes)) : list bytes :=
  match traced with
  | Some (n, ok_text) => if w_lifelock w then [wait_trace (w_kind w) (w_msg w) error n ok_text] else []
  | None => []
  end.

Definition wait_handler (w : waiter) (error : option (Z * bytes)) (traced : option (Z * bytes)) : waiter :=
  Waiter (w_kind w) (w_msg w) (w_lifelock w) (w_dtor_cancelled w) (w_exists w) false (w_cancelled w)
    (w_sent w ++ if w_exists w then wait_message w error else [])
    (w_traced w ++ if w_exists w then wait_traces w error traced else []).

Inductive wait_event : Type :=
| WCancel                      (** the owner cancels *)
| WDestroy                     (** the destructor starts *)
| WGone                        (** the members are gone *)
| WDone (error traced : option (Z * bytes)).

#[export] Instance wait_event_eq_dec : EqDecision wait_event.
Proof. solve_decision. Defined.

(** An error is reported only after a cancel. *)
Definition wait_step (e : wait_event) (w : waiter) : option waiter :=
  match e with
  | WCancel => if w_exists w && negb (w_dtor_cancelled w) then Some (wait_cancel w) else None
  | WDestroy => if w_exists w && negb (w_dtor_cancelled w) then Some (wait_destroy w) else None
  | WGone => if w_dtor_cancelled w then Some (wait_gone w) else None
  | WDone error traced =>
      if w_waiting w && (bool_decide (error = None) || w_cancelled w)
      then Some (wait_handler w error traced) else None
  end.

Fixpoint wait_run (es : list wait_event) (w : waiter) : option waiter :=
  match es with
  | [] => Some w
  | e :: es => match wait_step e w with Some w => wait_run es w | None => None end
  end.

(** ** Metronomes *)

(** A wait of the timer: for a time, over with success, or aborted. *)
Inductive wait : Type := Pending (at_ : Z) | Expired | Aborted.

(** [metronome_state]; a handler does nothing once the state is gone, and the
    destructor of [metronome_impl] is a stop with no start after it.
    [m_start] and [m_base] are the time and the counter of the last start, for
    the theorems. *)
Record metronome : Type := Metronome {
  m_us : Z;
  m_last_tick : Z;
  m_running : bool;
  m_counter : Z;
  m_waits : list wait;
  m_trace : bool;
  m_sent : list bytes;
  m_traced : list bytes;
  m_start : Z;
  m_base : Z
}.

(** [is_trace_enabled_] is set once, by the constructor. *)
Definition metronome_create (us : Z) (trace : bool) : metronome := Metronome us 0 false 0 [] trace [] [] 0 0.

(** [timer_.cancel()], and [expires_at], which cancels as well. *)
Definition abort_waits (l : list wait) : list wait :=
  (λ x, match x with Pending _ => Aborted | x => x end) <$> l.

Definition schedule_tick (m : metronome) : metronome :=
  Metronome (m_us m) (m_last_tick m) (m_running m) (m_counter m)
    (abort_waits (m_waits m) ++ [Pending (m_last_tick m + m_us m)]) (m_trace m) (m_sent m) (m_traced m)
    (m_start m) (m_base m).

(** [if (is_trace_enabled_) env_.trace(...)] *)
Definition metronome_trace (m : metronome) (args : list arg) : list bytes :=
  if m_trace m then [cbor_array (AString (str "metronome") :: args)] else [].

Definition metronome_start (now : Z) (lifelock : bool) (m : metronome) : metronome :=
  if m_running m then m
  else if lifelock then
    schedule_tick (Metronome (m_us m) now true (m_counter m) (m_waits m) (m_trace m) (m_sent m)
      (m_traced m ++ metronome_trace m [AString (str "start"); AInt (m_us m)]) now (m_counter m))
  else m.

Definition metronome_stop (m : metronome) : metronome :=
  Metronome (m_us m) (m_last_tick m) false (m_counter m) (abort_waits (m_waits m)) (m_trace m) (m_sent m)
    (m_traced m) (m_start m) (m_base m).

Definition tick_msg (n : Z) : bytes := cbor_array [AString (str "tick"); AUInt n].

(** [tick]; [ret] is whether the owner takes the message. *)
Definition tick (error ret : bool) (m : metronome) : metronome :=
  if error then m
  else if m_running m then
    let m := Metronome (m_us m) (m_last_tick m + m_us m) (m_running m) (u64 (m_counter m + 1)) (m_waits m)
               (m_trace m) (m_sent m ++ [tick_msg (m_counter m)])
               (m_traced m ++ metronome_trace m [AString (str "tick"); AUInt (m_counter m); AInt (m_us m)])
               (m_start m) (m_base m) in
    if ret then schedule_tick m else metronome_stop m
  else m.

Inductive metronome_event : Type :=
| MStart (now : Z) (lifelock : bool)
| MStop
| MReach (n : nat)                 (** the time of wait [n] has come *)
| MHandler (n : nat) (ret : bool). (** the handler of wait [n] runs *)

Definition set_waits (l : list wait) (m : metronome) : metronome :=
  Metronome (m_us m) (m_last_tick m) (m_running m) (m_counter m) l (m_trace m) (m_sent m) (m_traced m)
    (m_start m) (m_base m).

Definition metronome_step (e : metronome_event) (m : metronome) : option metronome :=
  match e with
  | MStart now lifelock => Some (metronome_start now lifelock m)
  | MStop => Some (metronome_stop m)
  | MReach n =>
      match m_waits m !! n with
      | Some (Pending _) => Some (set_waits (<[n := Expired]> (m_waits m)) m)
      | _ => None
      end
  | MHandler n ret =>
      match m_waits m !! n with
      | Some Expired => Some (tick false ret (set_waits (delete n (m_waits m)) m))
      | Some Aborted => Some (tick true ret (set_waits (delete n (m_waits m)) m))
      | _ => None
      end
  end.

Fixpoint metronome_run (es : list metronome_event) (m : metronome) : option metronome :=
  match es with
  | [] => Some m
  | e :: es => match metronome_step e m with Some m => metronome_run es m | None => None end
  end.

(** ** What they guarantee *)

Definition is_done (e : wait_event) : Prop := match e with WDone _ _ => True | _ => False end.

(** Until the handler runs, only the flags change. *)
Lemma wait_run_before es : ∀ w w',
  w_sent w = [] → w_waiting w = true → Forall (λ e, ¬ is_done e) es → wait_run es w = Some w' →
  w_sent w' = [] ∧ w_waiting w' = true ∧ w_kind w' = w_kind w ∧ w_msg w' = w_msg w ∧
  w_lifelock w' = w_lifelock w ∧ w_traced w' = w_traced w ∧
  w_dtor_cancelled w' = w_dtor_cancelled w || bool_decide (WDestroy ∈ es) ∧
  w_exists w' = w_exists w && negb (bool_decide (WGone ∈ es)).
Proof.
  induction es as [|e es IH]; intros w w' Hs Hw He H.
  { injection H as <-. rewrite !bool_decide_false by apply not_elem_of_nil.
    by rewrite orb_false_r, andb_true_r. }
  apply Forall_cons in He as [Hd He]. cbn [wait_run] in H.
  assert (∀ e', bool_decide (e' ∈ e :: es) = bool_decide (e' = e) || bool_decide (e' ∈ es)) as Hin.
  { intros e'. rewrite <- bool_decide_or. apply bool_decide_ext, elem_of_cons. }
  rewrite !Hin.
  destruct e; cbn [wait_step] in H; [destruct (_ && _)|destruct (_ && _)|destruct (w_dtor_cancelled w) eqn:Ed|];
    try done;
    match type of H with wait_run _ ?w1 = _ =>
      destruct (IH w1 w' Hs Hw He H) as (-> & -> & -> & -> & -> & -> & -> & ->) end; cbn.
  - done.
  - by rewrite orb_true_r.
  - by rewrite Ed, andb_false_r.
Qed.

(** Once it has run, nothing more is sent. *)
Lemma wait_run_after es : ∀ w w', w_waiting w = false → wait_run es w = Some w' →
  w_sent w' = w_sent w ∧ w_traced w' = w_traced w.
Proof.
  induction es as [|e es IH]; intros w w' Hw H; [by injection H as <-|]. cbn [wait_run] in H.
  destruct e; cbn [wait_step] in H;
    [destruct (_ && _)|destruct (_ && _)|destruct (w_dtor_cancelled w)|by rewrite Hw in H]; try done;
    match type of H with wait_run _ ?w1 = _ => exact (IH w1 w' Hw H) end.
Qed.

Lemma wait_run_app es1 es2 w :
  wait_run (es1 ++ es2) w = match wait_run es1 w with Some w => wait_run es2 w | None => None end.
Proof. revert w. induction es1 as [|e es1 IH]; intros w; [done|]. cbn. by destruct (wait_step e w). Qed.

Lemma wait_run_sent es1 error traced es2 w w' :
  w_sent w = [] → w_waiting w = true → Forall (λ e, ¬ is_done e) es1 →
  wait_run (es1 ++ WDone error traced :: es2) w = Some w' →
  w_sent w' =
    (if w_lifelock w && (w_exists w && negb (bool_decide (WGone ∈ es1))) then
       match error with
       | None => [w_msg w]
       | Some (value, text) =>
           if w_dtor_cancelled w || bool_decide (WDestroy ∈ es1) then []
           else [exit_message (w_error w) [AInt value; AString text]]
       end
     else []) ∧
  w_traced w' = w_traced w ++
    if w_exists w && negb (bool_decide (WGone ∈ es1)) then wait_traces w error traced else [].
Proof.
  intros Hs Hw He H. rewrite wait_run_app in H. destruct (wait_run es1 w) as [w1|] eqn:E1; [|done].
  destruct (wait_run_before es1 w w1 Hs Hw He E1) as (Hs1 & _ & He1 & Hm1 & Hl1 & Ht1 & Hd1 & Hx1).
  cbn [wait_run wait_step] in H. destruct (_ && _); [|done].
  destruct (wait_run_after es2 (wait_handler w1 error traced) w' eq_refl H) as [-> ->].
  cbn [wait_handler w_sent w_traced]. rewrite Hs1, Hx1, Ht1. cbn [app].
  unfold wait_message, wait_traces, w_error. rewrite He1, Hm1, Hl1, Hd1. split; [|done].
  destruct (w_lifelock w), (w_exists w && negb (bool_decide (WGone ∈ es1))); done.
Qed.

(** The ticks count up from zero, and the times of the ticks do not drift. *)
Definition metronome_ok (m : metronome) : Prop :=
  m_sent m = (λ n, tick_msg (Z.of_nat n)) <$> seq 0 (length (m_sent m)) ∧
  m_counter m = Z.of_nat (length (m_sent m)) ∧
  (m_running m = true → m_last_tick m = m_start m + m_us m * (m_counter m - m_base m)) ∧
  ∀ t, Pending t ∈ m_waits m → m_running m = true ∧ t = m_last_tick m + m_us m.

Lemma abort_waits_pending l t : Pending t ∉ abort_waits l.
Proof. unfold abort_waits. rewrite list_elem_of_fmap. intros ([] & ? & _); done. Qed.

Lemma schedule_tick_ok m :
  m_sent m = (λ n, tick_msg (Z.of_nat n)) <$> seq 0 (length (m_sent m)) →
  m_counter m = Z.of_nat (length (m_sent m)) → m_running m = true →
  m_last_tick m = m_start m + m_us m * (m_counter m - m_base m) → metronome_ok (schedule_tick m).
Proof.
  intros H1 H2 H3 H4. split_and!; try done. cbn. intros t. rewrite elem_of_app, list_elem_of_singleton.
  intros [H|[= ->]]; [by apply abort_waits_pending in H|done].
Qed.

Lemma metronome_step_ok e m m' :
  metronome_ok m → Z.of_nat (length (m_sent m)) + 1 < 2 ^ 64 → metronome_step e m = Some m' → metronome_ok m'.
Proof.
  intros Hm Hlen He. pose proof Hm as (H1 & H2 & H3 & H4).
  assert (∀ m, metronome_ok m → metronome_ok (metronome_stop m)) as Hstop.
  { intros m0 (? & ? & _). split_and!; try done. cbn. intros t Ht. by apply abort_waits_pending in Ht. }
  destruct e as [now lifelock| |n|n ret]; cbn [metronome_step] in He.
  - injection He as <-. unfold metronome_start. destruct (m_running m) eqn:Er; [exact Hm|].
    destruct lifelock; [|exact Hm]. apply schedule_tick_ok; try done. cbn. lia.
  - injection He as <-. by apply Hstop.
  - destruct (m_waits m !! n) as [[at_| |]|] eqn:En; try done. injection He as <-. split_and!; try done.
    cbn. intros t Ht. apply H4. apply list_elem_of_lookup in Ht as [k Hk].
    destruct (decide (n = k)) as [<-|]; [rewrite list_lookup_insert_eq in Hk; [done|by apply lookup_lt_Some in En]|].
    rewrite list_lookup_insert_ne in Hk by done. by eapply list_elem_of_lookup_2.
  - assert (∀ l, (∀ t, Pending t ∈ l → Pending t ∈ m_waits m) → metronome_ok (set_waits l m)) as Hset.
    { intros l Hl. split_and!; try done. cbn. intros t Ht. by apply H4, Hl. }
    assert (∀ t, Pending t ∈ delete n (m_waits m) → Pending t ∈ m_waits m) as Hdel.
    { intros t Ht. apply list_elem_of_lookup in Ht as [k Hk].
      destruct (decide (k < n)%nat); [rewrite list_lookup_delete_lt in Hk by done|rewrite list_lookup_delete_ge in Hk by lia];
        by eapply list_elem_of_lookup_2. }
    specialize (Hset _ Hdel). destruct (m_waits m !! n) as [[| |]|]; try done; injection He as <-; unfold tick; [|done].
    cbn [m_running set_waits]. destruct (m_running m) eqn:Er; [|done]. cbv zeta. specialize (H3 eq_refl).
    set (m1 := Metronome _ _ _ _ _ _ _ _ _ _).
    assert (metronome_ok (schedule_tick m1)) as Hs.
    { apply schedule_tick_ok; unfold m1;
        cbn [m_sent m_counter m_running m_last_tick m_start m_base m_us set_waits]; rewrite ?length_app; cbn [length].
      - rewrite seq_app, fmap_app, <- H1. cbn [seq fmap list_fmap]. by rewrite H2.
      - rewrite u64_small by (unfold is_u64; lia). lia.
      - done.
      - rewrite u64_small by (unfold is_u64; lia). lia. }
    destruct ret; [done|]. destruct Hs as (S1 & S2 & S3 & _). split_and!; try done. cbn.
    intros t H. by apply abort_waits_pending in H.
Qed.

Lemma metronome_run_ok es m m' :
  metronome_ok m → Z.of_nat (length (m_sent m) + length es) < 2 ^ 64 → metronome_run es m = Some m' →
  metronome_ok m'.
Proof.
  revert m. induction es as [|e es IH]; intros m Hm Hlen; cbn [metronome_run]; [by intros [= <-]|].
  destruct (metronome_step e m) as [m1|] eqn:E; [|done]. intros H. cbn [length] in Hlen.
  eapply IH; [| |exact H]; [eapply metronome_step_ok; [exact Hm|lia|exact E]|].
  assert (length (m_sent m1) <= length (m_sent m) + 1)%nat; [|lia].
  destruct e as [now []| |n|n ret]; cbn [metronome_step] in E; repeat (case_match; try done);
    injection E as <-; unfold metronome_start, tick, metronome_stop, schedule_tick; repeat case_match;
    cbn; rewrite ?length_app; cbn; lia.
Qed.
