(* ===== verification/Ports.v ===== *)
(** * Acceptors, connectors, UDP sockets, file descriptors and file streams ([src/src/instance.cpp])

    Each object turns calls of its owner into calls of the executor, and
    completions of the executor into messages to its owner.  [log] has them in
    order.  What the executor and the operating system return is an argument; a
    handler runs only while its object exists.

    A handler dispatches a message to the owner; [ret] says whether [dispatch_sync]
    succeeded, which it does on a thread without a current instance (see
    [Instance.dispatch_sync]). *)
From S2P Require Import Prelude CborEncode Ieee CborDecode CborMatch Env Instance Actors.

(** An error of the executor: its value and its text. *)
Definition error_code : Type := option (Z * bytes).

Inductive act : Type :=
| Send (m : bytes)
| Dispatch (m : bytes)
| Bind (a : bytes)
| Listen
| Accept
| Connect (a : bytes)
| Release
| Receive
| SendTo (data : bytes)
| WaitRead
| WaitWrite
| StartRead
| StartWrite (data : bytes)
| Cancel
| Close
| CloseFd (fd : Z)
| Trace (m : bytes)
| Chmod (path : bytes)
| Remove (path : bytes).

Definition error_args (e : Z * bytes) : list arg := [AInt e.1; AString e.2].

(** ** Acceptors *)

(** [tcp::acceptor_impl] and [unx::acceptor_impl]; [path_] stays empty on TCP. *)
Record acceptor_impl : Type := AcceptorImpl {
  a_tag : bytes;
  a_path : bytes;
  a_open : bool
}.

(** The object while it exists, and the log. *)
Record port (A : Type) : Type := Port { obj : option A; log : list act }.
Arguments Port {A} obj log. Arguments obj {A}. Arguments log {A}.
Definition puts {A} (l : list act) (s : port A) : port A := Port (obj s) (log s ++ l).
Definition sets {A} (o : option A) (s : port A) : port A := Port o (log s).

Definition acceptor_msg (o : acceptor_impl) (event : bytes) (args : list arg) : bytes :=
  io_msg (str "acceptor") (a_tag o) event args.

Definition acceptor_create (tag : bytes) : port acceptor_impl :=
  Port (Some (AcceptorImpl tag [] false)) [].

(** [tcp::acceptor_impl::listen]: the port, 0 on an error. *)
Definition tcp_listen (a : bytes) (bind_ec listen_ec : error_code) (local_port : Z) (s : port acceptor_impl)
  : port acceptor_impl * Z :=
  match obj s with
  | None => (s, 0)
  | Some o =>
      let s := puts [Bind a] s in
      match bind_ec with
      | Some e => (puts [Send (acceptor_msg o (str "error") (error_args e))] s, 0)
      | None =>
          let s := puts [Listen] s in
          match listen_ec with
          | Some e => (puts [Send (acceptor_msg o (str "error") (error_args e))] s, 0)
          | None => (sets (Some (AcceptorImpl (a_tag o) (a_path o) true)) (puts [Accept] s), local_port)
          end
      end
  end.

(** [unx_mode_path] *)
Definition unx_mode_path (m : mode) (path : bytes) : bytes :=
  match m with mode_file => path | mode_abstract => 0 :: path end.

(** [is_stale_socket]; what the file is and whether a connect is refused is up to
    the operating system; [sun_path] has 108 octets. *)
Definition is_stale_socket (is_socket_file connect_refused : bytes → bool) (path : bytes) : bool :=
  if (108 <=? Z.of_nat (length path)) || negb (is_socket_file path) then false
  else connect_refused path.

(** [unx::acceptor_impl::listen] *)
Definition unx_listen (origpath : bytes) (m : mode) (stale : bytes → bool) (bind_ec listen_ec : error_code)
  (s : port acceptor_impl) : port acceptor_impl :=
  match obj s with
  | None => s
  | Some o =>
      let path := unx_mode_path m origpath in
      let s := match m with
               | mode_file => if stale path then puts [Remove path] s else s
               | mode_abstract => s
               end in
      let s := puts [Bind path] s in
      match bind_ec with
      | Some e => puts [Send (acceptor_msg o (str "error") (error_args e))] s
      | None =>
          let o := match m with mode_file => AcceptorImpl (a_tag o) path (a_open o) | mode_abstract => o end in
          let s := match m with mode_file => puts [Chmod path] (sets (Some o) s) | mode_abstract => s end in
          let s := puts [Listen] s in
          match listen_ec with
          | Some e => puts [Send (acceptor_msg o (str "error") (error_args e))] s
          | None => sets (Some (AcceptorImpl (a_tag o) (a_path o) true)) (puts [Accept] s)
          end
      end
  end.

(** [release_path]: the object and the call that removes the file. *)
Definition release_path (o : acceptor_impl) : acceptor_impl * list act :=
  match a_path o with
  | [] => (o, [])
  | path => (AcceptorImpl (a_tag o) [] (a_open o), [Remove path])
  end.

(** [close] of both kinds; the path of a TCP acceptor is empty. *)
Definition acceptor_close (s : port acceptor_impl) : port acceptor_impl :=
  match obj s with
  | None => s
  | Some o =>
      let '(o, l) := release_path o in
      sets (Some (AcceptorImpl (a_tag o) (a_path o) false))
        (puts (Close :: l ++ [Send (acceptor_msg o (str "closed") [])]) s)
  end.

(** [~acceptor_impl] *)
Definition acceptor_destroy (s : port acceptor_impl) : port acceptor_impl :=
  match obj s with
  | None => s
  | Some o => sets None (puts (Close :: (release_path o).2) s)
  end.

Inductive acceptor_call : Type := AClose | ADestroy.
Definition acceptor_do (c : acceptor_call) : port acceptor_impl → port acceptor_impl :=
  match c with AClose => acceptor_close | ADestroy => acceptor_destroy end.

(** [accept]: the handler; [calls] is what the owner calls meanwhile. *)
Definition acceptor_accept (fd : Z) (ec : error_code) (calls : list acceptor_call) (ret : bool) (s : port acceptor_impl)
  : port acceptor_impl :=
  match obj s with
  | None => s
  | Some o =>
      let dispatched (m : bytes) := foldl (λ s c, acceptor_do c s) (puts [Dispatch m] s) calls in
      if negb (a_open o) then s
      else match ec with
      | Some e => dispatched (acceptor_msg o (str "error") (error_args e))
      | None =>
          let s := dispatched (acceptor_msg o (str "accept") [AInt fd]) in
          match obj s with None => s | Some _ => if ret then puts [Accept] s else acceptor_close s end
      end
  end.

(** ** Connectors *)

Record connector_impl : Type := ConnectorImpl { k_tag : bytes; k_open : bool }.

Definition connector_msg (o : connector_impl) (event : bytes) (args : list arg) : bytes :=
  io_msg (str "connector") (k_tag o) event args.

Definition connector_create (tag : bytes) : port connector_impl :=
  Port (Some (ConnectorImpl tag false)) [].

(** [tcp::connector_impl::connect] binds to a local address first. *)
Definition tcp_connect (a local : bytes) (bind_ec : error_code) (s : port connector_impl) : port connector_impl :=
  match obj s with
  | None => s
  | Some o =>
      let s := puts [Bind local] (sets (Some (ConnectorImpl (k_tag o) true)) s) in
      match bind_ec with
      | Some e => puts [Send (connector_msg o (str "error") (error_args e))] s
      | None => puts [Connect a] s
      end
  end.

(** [unx::connector_impl::connect] *)
Definition unx_connect (origpath : bytes) (m : mode) (s : port connector_impl) : port connector_impl :=
  match obj s with
  | None => s
  | Some o => puts [Connect (unx_mode_path m origpath)] (sets (Some (ConnectorImpl (k_tag o) true)) s)
  end.

Definition connector_cancel (s : port connector_impl) : port connector_impl :=
  match obj s with
  | None => s
  | Some o =>
      puts [Close; Send (connector_msg o (str "cancelled") [])]
        (sets (Some (ConnectorImpl (k_tag o) false)) s)
  end.

(** The handler of both kinds; [fd] is what [release] returns.  If the owner
    cannot be told, the connection is closed. *)
Definition connector_handler (fd : Z) (ec : error_code) (ret : bool) (s : port connector_impl) : port connector_impl :=
  match obj s with
  | None => s
  | Some o =>
      if negb (k_open o) then s
      else match ec with
      | Some e => puts [Dispatch (connector_msg o (str "error") (error_args e))] s
      | None =>
          let s := puts [Release; Dispatch (connector_msg o (str "connected") [AInt fd])] s in
          if ret then s else puts [CloseFd fd] (connector_cancel s)
      end
  end.

(** ** UDP *)

(** [is_trace_enabled_] is set once, by the constructor. *)
Record udp_impl : Type := UdpImpl { u_tag : bytes; u_open : bool; u_trace : bool }.

Definition udp_msg (o : udp_impl) (event : bytes) (args : list arg) : bytes :=
  io_msg (str "udp") (u_tag o) event args.

(** [if (is_trace_enabled_) owner_.env_.trace(...)] *)
Definition udp_trace (o : udp_impl) (event : bytes) (args : list arg) : list act :=
  if u_trace o then [Trace (udp_msg o event args)] else [].

Definition udp_create (tag : bytes) (trace : bool) : port udp_impl := Port (Some (UdpImpl tag false trace)) [].

(** [open]: the port the socket is bound to. *)
Definition udp_open (ip : bytes) (port_ : Z) (bind_ec : error_code) (local_port : Z) (s : port udp_impl)
  : port udp_impl * Z :=
  match obj s with
  | None => (s, 0)
  | Some o =>
      let s := puts (udp_trace o (str "open") [AUInt port_] ++ [Bind ip]) s in
      (match bind_ec with
       | Some e => puts [Send (udp_msg o (str "open_error") (error_args e))] s
       | None => sets (Some (UdpImpl (u_tag o) true (u_trace o))) (puts [Receive] s)
       end, local_port)
  end.

(** [receive]: the handler; [ip] and [port_] are the ones of the sender. *)
Definition udp_receive (ec : error_code) (data ip : bytes) (port_ : Z) (s : port udp_impl) : port udp_impl :=
  match obj s with
  | None => s
  | Some o =>
      let received := AUInt (Z.of_nat (length data)) in
      if negb (u_open o) then s
      else if bool_decide (data = []) then s
      else match ec with
      | Some e =>
          puts (udp_trace o (str "receive_error") (received :: error_args e) ++
                [Send (udp_msg o (str "receive_error") (error_args e))]) s
      | None =>
          puts (udp_trace o (str "receive") [received; AString data] ++
                [Send (udp_msg o (str "receive") [AString data; AString ip; AUInt port_]); Receive]) s
      end
  end.

(** [sendto]; [ip_text] is [executor::to_string(ip)], [sent] what the executor returns. *)
Definition udp_sendto (data ip_text : bytes) (port_ sent : Z) (s : port udp_impl) : port udp_impl * Z :=
  match obj s with
  | None => (s, 0)
  | Some o => (puts (udp_trace o (str "sendto") [AString data; AString ip_text; AUInt port_] ++ [SendTo data]) s, sent)
  end.

Definition udp_close (s : port udp_impl) : port udp_impl :=
  match obj s with
  | None => s
  | Some o =>
      puts ((if u_open o then [Close] else []) ++ [Send (udp_msg o (str "closed") [])])
        (sets (Some (UdpImpl (u_tag o) false (u_trace o))) s)
  end.

(** ** File descriptors *)

Record file_descriptor_impl : Type := FileDescriptorImpl { f_tag : bytes }.

Definition fd_msg (o : file_descriptor_impl) (event : bytes) (args : list arg) : bytes :=
  io_msg (str "fd") (f_tag o) event args.

Definition wait_write (s : port file_descriptor_impl) : port file_descriptor_impl :=
  match obj s with None => s | Some _ => puts [WaitWrite] s end.
Definition wait_read (s : port file_descriptor_impl) : port file_descriptor_impl :=
  match obj s with None => s | Some _ => puts [WaitRead] s end.
Definition fd_cancel (s : port file_descriptor_impl) : port file_descriptor_impl :=
  match obj s with None => s | Some _ => puts [Cancel] s end.

Definition write_handler (ec : error_code) (s : port file_descriptor_impl) : port file_descriptor_impl :=
  match obj s with
  | None => s
  | Some o => puts [Send (match ec with
                          | Some e => fd_msg o (str "write_error") (error_args e)
                          | None => fd_msg o (str "write_ready") []
                          end)] s
  end.
Definition read_handler (ec : error_code) (s : port file_descriptor_impl) : port file_descriptor_impl :=
  match obj s with
  | None => s
  | Some o => puts [Send (match ec with
                          | Some e => fd_msg o (str "read_error") (error_args e)
                          | None => fd_msg o (str "read_ready") []
                          end)] s
  end.

(** ** File streams (Windows) *)

Record file_stream_impl : Type := FileStreamImpl { fs_tag : bytes }.

Definition stream_msg (o : file_stream_impl) (event : bytes) (args : list arg) : bytes :=
  io_msg (str "stream") (fs_tag o) event args.

Definition stream_create (tag : bytes) : port file_stream_impl := Port (Some (FileStreamImpl tag)) [].

Definition stream_start_read (s : port file_stream_impl) : port file_stream_impl :=
  match obj s with None => s | Some _ => puts [StartRead] s end.
Definition stream_start_write (data : bytes) (s : port file_stream_impl) : port file_stream_impl :=
  match obj s with None => s | Some _ => puts [StartWrite data] s end.
Definition stream_cancel (s : port file_stream_impl) : port file_stream_impl :=
  match obj s with None => s | Some _ => puts [Cancel] s end.

(** The handlers given to the executor. *)
Definition stream_read_handler (ec : error_code) (data : bytes) (s : port file_stream_impl) : port file_stream_impl :=
  match obj s with
  | None => s
  | Some o => puts [Send (match ec with
                          | Some e => stream_msg o (str "read_error") (error_args e)
                          | None => stream_msg o (str "read_complete") [AString data]
                          end)] s
  end.
Definition stream_write_handler (ec : error_code) (bytes_written : Z) (s : port file_stream_impl) : port file_stream_impl :=
  match obj s with
  | None => s
  | Some o => puts [Send (match ec with
                          | Some e => stream_msg o (str "write_error") (error_args e)
                          | None => stream_msg o (str "write_complete") [AUInt bytes_written]
                          end)] s
  end.
