(* ===== verification/PortsTheorems.v ===== *)
(** * What acceptors, UDP sockets, timers and closing connections do *)
From S2P Require Import Prelude CborEncode Ieee CborDecode CborGrammar CborMatch CborMatchSpec CppText CborJson Env Instance InstanceInv InstanceStep Actors Endpoint Solo Messages Commands Socket Ports Timers.

(** ** The file of a unix acceptor *)

Definition removes (l : list act) : list bytes :=
  omap (λ a, match a with Remove p => Some p | _ => None end) l.

Lemma removes_app l k : removes (l ++ k) = removes l ++ removes k.
Proof. apply omap_app. Qed.

Inductive acceptor_event : Type :=
| AccCall (c : acceptor_call)
| AccAccept (fd : Z) (ec : error_code) (calls : list acceptor_call) (ret : bool).

Definition acceptor_step (s : port acceptor_impl) (e : acceptor_event) : port acceptor_impl :=
  match e with
  | AccCall c => acceptor_do c s
  | AccAccept fd ec calls ret => acceptor_accept fd ec calls ret s
  end.

(** The files removed so far: the path is removed when the object lets it go. *)
Definition path_ok (path : bytes) (before : list bytes) (s : port acceptor_impl) : Prop :=
  removes (log s) = before ++ match obj s with
                              | Some o => if decide (a_path o = []) then [path] else []
                              | None => [path]
                              end ∧
  ∀ o, obj s = Some o → a_path o = [] ∨ a_path o = path.

Lemma path_ok_puts path before s l :
  path_ok path before s → removes l = [] → path_ok path before (puts l s).
Proof. intros [H1 H2] Hl. split; [|done]. cbn. by rewrite removes_app, Hl, app_nil_r. Qed.

Lemma release_path_spec o :
  removes (release_path o).2 = (if decide (a_path o = []) then [] else [a_path o]) ∧
  a_path (release_path o).1 = [].
Proof. unfold release_path. destruct (a_path o) eqn:E; cbn; by rewrite ?E. Qed.

Lemma path_ok_do path before c s :
  path ≠ [] → path_ok path before s → path_ok path before (acceptor_do c s).
Proof.
  intros Hne [H1 H2].
  destruct (obj s) as [o|] eqn:Ho.
  2:{ by destruct c; cbn; unfold acceptor_close, acceptor_destroy; rewrite Ho; split; rewrite Ho. }
  destruct (release_path_spec o) as [R1 R2]. destruct (release_path o) as [o' l] eqn:Er. cbn [fst snd] in *.
  assert (removes (log s) ++ removes l = before ++ [path]) as Hr.
  { rewrite H1, R1. destruct (H2 o eq_refl) as [->|E].
    - by rewrite !decide_True, app_nil_r by done.
    - by rewrite E, !decide_False, app_nil_r by done. }
  assert (∀ l', removes (Close :: l') = removes l') as Hclose by done.
  destruct c; cbn [acceptor_do]; unfold acceptor_close, acceptor_destroy; rewrite Ho, Er;
    split; cbn [obj log sets puts a_path snd].
  - rewrite R2, decide_True, removes_app, Hclose, removes_app by done. by rewrite app_nil_r.
  - intros o2 [= <-]. by left.
  - by rewrite removes_app, Hclose.
  - done.
Qed.

(** What every call keeps, and messages do not touch, is kept by every event. *)
Lemma acceptor_step_keeps (P : port acceptor_impl → Prop) e s :
  (∀ c s, P s → P (acceptor_do c s)) → (∀ l s, removes l = [] → P s → P (puts l s)) →
  P s → P (acceptor_step s e).
Proof.
  intros Hdo Hputs Hs. destruct e as [c|fd ec calls ret]; cbn [acceptor_step]; [by apply Hdo|].
  unfold acceptor_accept. destruct (obj s) as [o|]; [|done]. cbv zeta.
  destruct (a_open o); cbn [negb]; [|done].
  assert (∀ s, P s → P (foldl (λ s c, acceptor_do c s) s calls)) as Hcalls.
  { clear s Hs o. induction calls as [|c calls IH]; intros s Hs; [done|]. cbn. by apply IH, Hdo. }
  destruct ec; [by apply Hcalls, Hputs|]. destruct (obj (foldl _ _ _)); [|by apply Hcalls, Hputs].
  destruct ret; [apply Hputs; [done|]|apply (Hdo AClose)]; by apply Hcalls, Hputs.
Qed.

(** The object has let the path go. *)
Definition released (s : port acceptor_impl) : Prop := ∀ o, obj s = Some o → a_path o = [].

Lemma released_do c s : released (acceptor_do c s).
Proof.
  intros o. destruct c; cbn [acceptor_do]; unfold acceptor_close, acceptor_destroy;
    (destruct (obj s) as [o0|] eqn:E0; [|by rewrite E0]); [|done].
  destruct (release_path_spec o0) as [_ R]. destruct (release_path o0). cbn in *. by intros [= <-].
Qed.

Lemma released_steps s es : released s → released (foldl acceptor_step s es).
Proof.
  revert s. induction es as [|e es IH]; intros s Hs; [done|]. cbn. apply IH.
  apply acceptor_step_keeps; [intros; apply released_do|by intros|done].
Qed.

Lemma path_ok_steps path before s es :
  path ≠ [] → path_ok path before s → path_ok path before (foldl acceptor_step s es).
Proof.
  intros Hne. revert s. induction es as [|e es IH]; intros s Hs; [done|]. cbn. apply IH.
  apply acceptor_step_keeps; [by intros; apply path_ok_do|by intros; apply path_ok_puts|done].
Qed.

(** C16: a unix acceptor that listens on a file owns it from its bind: whatever
    clients come and whatever the owner calls, the file is removed once, when
    the acceptor is closed or destroyed, and not before; before the bind it is
    removed if it is the stale file of a socket nobody listens on. *)
Theorem unx_path_released tag path stale listen_ec es :
  path ≠ [] →
  let s := foldl acceptor_step (unx_listen path mode_file stale None listen_ec (acceptor_create tag)) es in
  removes (log s) = (if stale path then [path] else []) ++
    match obj s with
    | Some o => if decide (a_path o = []) then [path] else []
    | None => [path]
    end ∧
  ((∃ c, AccCall c ∈ es) → removes (log s) = (if stale path then [path] else []) ++ [path]).
Proof.
  intros Hne. cbv zeta. set (s0 := unx_listen _ _ _ _ _ _). set (before := if stale path then [path] else []).
  assert (path_ok path before s0) as H0.
  { unfold s0, before, unx_listen, acceptor_create. cbn.
    destruct (stale path), listen_ec; (split; [cbn; by rewrite decide_False|]);
      intros o [= <-]; by right. }
  pose proof (path_ok_steps path before s0 es Hne H0) as [H1 H2]. split; [done|].
  intros [c Hc]. rewrite H1. f_equal. apply list_elem_of_split in Hc as (es1 & es2 & ->).
  assert (released (foldl acceptor_step s0 (es1 ++ AccCall c :: es2))) as Hr.
  { rewrite foldl_app. cbn. apply released_steps, released_do. }
  destruct (obj _) as [o|] eqn:Eo; [|done]. by rewrite decide_True by by apply Hr.
Qed.

Lemma unx_path_released_witness :
  let es := [AccAccept 5 None [] true; AccCall AClose; AccCall ADestroy] in
  let s := foldl acceptor_step (unx_listen (str "/s") mode_file (λ _, true) None None (acceptor_create (str "t"))) es in
  removes (log s) = [str "/s"; str "/s"].
Proof.
  intros es s. apply (unx_path_released (str "t") (str "/s") (λ _, true) None es); [done|].
  exists AClose. right. left.
Defined.

(** ** Datagrams *)

(** Datagrams as the executor reports them: only while a receive is under way. *)
Record udp_state : Type := UdpState { udp_port : port udp_impl; udp_handled : nat }.

Definition receives (l : list act) : nat :=
  length (omap (λ a, match a with Receive => Some tt | _ => None end) l).

Definition udp_datagram (data ip : bytes) (port_ : Z) (s : udp_state) : option udp_state :=
  if (udp_handled s <? receives (log (udp_port s)))%nat
  then Some (UdpState (udp_receive None data ip port_ (udp_port s)) (S (udp_handled s)))
  else None.

Fixpoint udp_datagrams (ds : list (bytes * (bytes * Z))) (s : udp_state) : option udp_state :=
  match ds with
  | [] => Some s
  | (data, (ip, port_)) :: ds =>
      match udp_datagram data ip port_ s with Some s => udp_datagrams ds s | None => None end
  end.

(** What the socket does for a datagram: a trace message, the message, and the
    next receive. *)
Definition udp_message (tag : bytes) (d : bytes * (bytes * Z)) : act :=
  Send (io_msg (str "udp") tag (str "receive") [AString d.1; AString d.2.1; AUInt d.2.2]).
Definition udp_passed (tag : bytes) (trace : bool) (d : bytes * (bytes * Z)) : list act :=
  (if trace then [Trace (io_msg (str "udp") tag (str "receive") [AUInt (Z.of_nat (length d.1)); AString d.1])] else []) ++
  [udp_message tag d; Receive].

Lemma receives_app l k : receives (l ++ k) = (receives l + receives k)%nat.
Proof. unfold receives. by rewrite omap_app, length_app. Qed.

Lemma udp_datagrams_spec tag trace ds : ∀ l n s',
  n = receives l → udp_datagrams ds (UdpState (Port (Some (UdpImpl tag true trace)) (l ++ [Receive])) n) = Some s' →
  ∃ ds1 ds2, ds = ds1 ++ ds2 ∧ Forall (λ d, d.1 ≠ []) ds1 ∧ (length ds2 <= 1)%nat ∧
    Forall (λ d, d.1 = []) ds2 ∧
    log (udp_port s') = l ++ [Receive] ++ concat (udp_passed tag trace <$> ds1).
Proof.
  induction ds as [|[data [ip port_]] ds IH]; intros l n s' Hn H.
  { injection H as <-. exists [], []. split_and!; [done|constructor|cbn; lia|constructor|]. by rewrite app_nil_r. }
  cbn [udp_datagrams] in H. unfold udp_datagram in H. cbn [udp_handled udp_port log] in H.
  rewrite receives_app, <- Hn in H. change (receives [Receive]) with 1%nat in H.
  rewrite (proj2 (Nat.ltb_lt n (n + 1))) in H by lia.
  destruct (decide (data = [])) as [->|Hd].
  - cbn in H. destruct ds as [|[data' [ip' port']] ds].
    + injection H as <-. exists [], [([], (ip, port_))]. split_and!; [done|constructor|cbn; lia|by repeat constructor|].
      by rewrite app_nil_r.
    + cbn in H. unfold udp_datagram in H. cbn [udp_handled udp_port log] in H.
      rewrite receives_app, <- Hn in H. change (receives [Receive]) with 1%nat in H.
      by rewrite (proj2 (Nat.ltb_ge (S n) (n + 1))) in H by lia.
  - set (k := take (length (udp_passed tag trace (data, (ip, port_))) - 1) (udp_passed tag trace (data, (ip, port_)))).
    assert (udp_receive None data ip port_ (Port (Some (UdpImpl tag true trace)) (l ++ [Receive]))
      = Port (Some (UdpImpl tag true trace)) ((l ++ [Receive] ++ k) ++ [Receive])) as E.
    { unfold udp_receive. cbn [obj u_open negb]. rewrite bool_decide_false by done.
      unfold puts. cbn [obj log]. rewrite <- !(assoc_L app). by destruct trace. }
    rewrite E in H. destruct (IH (l ++ [Receive] ++ k) (S n) s') as (ds1 & ds2 & -> & H1 & H2 & H3 & H4); [|exact H|].
    { rewrite !receives_app, <- Hn. replace (receives k) with 0%nat by by destruct trace. cbn. lia. }
    exists ((data, (ip, port_)) :: ds1), ds2. split_and!; try done; [by constructor|].
    rewrite H4, <- !(assoc_L app). by destruct trace.
Qed.

(** An open UDP socket passes every datagram on to its owner once and in
    order, up to the first empty one: with it the socket stops receiving, though
    it stays open, and the owner is not told.  Where the channel is traced, a
    trace message comes before each. *)
Theorem udp_delivers tag trace ip port_ local ds s' :
  udp_datagrams ds (UdpState (udp_open ip port_ None local (udp_create tag trace)).1 0) = Some s' →
  ∃ ds1 ds2, ds = ds1 ++ ds2 ∧ Forall (λ d, d.1 ≠ []) ds1 ∧ (length ds2 <= 1)%nat ∧
    Forall (λ d, d.1 = []) ds2 ∧
    log (udp_port s') = (if trace then [Trace (io_msg (str "udp") tag (str "open") [AUInt port_])] else []) ++
      [Bind ip; Receive] ++ concat (udp_passed tag trace <$> ds1).
Proof.
  intros H. destruct (udp_datagrams_spec tag trace ds
    ((if trace then [Trace (io_msg (str "udp") tag (str "open") [AUInt port_])] else []) ++ [Bind ip]) 0 s')
    as (ds1 & ds2 & H1 & H2 & H3 & H4 & H5); [by destruct trace|by destruct trace|].
  exists ds1, ds2. split_and!; try done. by rewrite H5, <- (assoc_L app).
Qed.

Lemma udp_delivers_witness :
  ∃ s' ds1 ds2,
    udp_datagrams [([1], ([], 9)); ([], ([], 9))]
      (UdpState (udp_open [] 80 None 80 (udp_create (str "t") true)).1 0) = Some s' ∧
    [([1], ([], 9)); ([], ([], 9))] = ds1 ++ ds2 ∧
    log (udp_port s') = [Trace (io_msg (str "udp") (str "t") (str "open") [AUInt 80]); Bind []; Receive] ++
      concat (udp_passed (str "t") true <$> ds1).
Proof.
  destruct (udp_datagrams [([1], ([], 9)); ([], ([], 9))]
      (UdpState (udp_open [] 80 None 80 (udp_create (str "t") true)).1 0))
    as [s'|] eqn:E; [|vm_compute in E; discriminate E].
  destruct (udp_delivers _ _ _ _ _ _ _ E) as (ds1 & ds2 & H1 & _ & _ & _ & H2). by exists s', ds1, ds2.
Defined.

(** ** Timeouts and metronomes *)

(** A timeout sends one message when its wait is over and nothing after that:
    its own message if the time is up, an exit message [timeout_error] if it was
    cancelled, nothing if it was cancelled by its destructor, and nothing once it
    is gone or if its owner was exiting when it was made.  It traces when it is set
    and once when its wait is over, under the same conditions. *)
Theorem timeout_once us m lifelock trace es1 error traced es2 w :
  Forall (λ e, ¬ is_done e) es1 →
  wait_run (es1 ++ WDone error traced :: es2) (timeout_create us m lifelock trace) = Some w →
  w_sent w =
    (if lifelock && negb (bool_decide (WGone ∈ es1)) then
       match error with
       | None => [m]
       | Some (value, text) =>
           if bool_decide (WDestroy ∈ es1) then []
           else [exit_message (str "timeout_error") [AInt value; AString text]]
       end
     else []) ∧
  w_traced w =
    (if trace then [timeout_set us m] else []) ++
    match traced with
    | Some (elapsed, text) =>
        if lifelock && negb (bool_decide (WGone ∈ es1)) then [wait_trace WTimeout m error elapsed text] else []
    | None => []
    end.
Proof.
  intros He H.
  destruct (wait_run_sent es1 error traced es2 (timeout_create us m lifelock trace) w eq_refl eq_refl He H) as [-> ->].
  split; [done|]. cbn. f_equal. by destruct traced as [[]|], lifelock, (bool_decide _).
Qed.

Lemma timeout_once_witness :
  ∃ w, wait_run ([WCancel] ++ WDone (Some (125, str "cancelled")) (Some (50, [])) :: [WDestroy; WGone])
         (timeout_create 100 [1] true true) = Some w ∧
    w_sent w = [exit_message (str "timeout_error") [AInt 125; AString (str "cancelled")]] ∧
    length (w_traced w) = 2%nat.
Proof.
  destruct (wait_run ([WCancel] ++ WDone (Some (125, str "cancelled")) (Some (50, [])) :: [WDestroy; WGone])
    (timeout_create 100 [1] true true)) as [w|] eqn:E; [|vm_compute in E; discriminate E].
  exists w. split; [done|].
  destruct (timeout_once 100 [1] true true [WCancel] (Some (125, str "cancelled")) (Some (50, [])) [WDestroy; WGone] w)
    as [H1 H2]; [constructor; [by intros []|constructor]|exact E|]. by rewrite H1, H2.
Defined.

(** A metronome numbers its ticks from zero without a gap, over stops and
    starts, and never drifts: the wait it is in ends one period after the last
    tick, and the last tick is a whole number of periods after the start. *)
Theorem metronome_steady us trace es m :
  Z.of_nat (length es) < 2 ^ 64 → metronome_run es (metronome_create us trace) = Some m →
  m_sent m = (λ n, tick_msg (Z.of_nat n)) <$> seq 0 (length (m_sent m)) ∧
  ∀ t, Pending t ∈ m_waits m → t = m_start m + m_us m * (m_counter m - m_base m + 1).
Proof.
  intros Hlen H. assert (metronome_ok (metronome_create us trace)) as H0.
  { split_and!; try done. cbn. intros t Ht. by apply not_elem_of_nil in Ht. }
  destruct (metronome_run_ok es _ m H0 Hlen H) as (H1 & _ & H3 & H4). split; [done|].
  intros t Ht. destruct (H4 t Ht) as [Hr ->]. rewrite (H3 Hr). lia.
Qed.

Lemma metronome_steady_witness :
  ∃ m, metronome_run [MStart 100 true; MReach 0; MHandler 0 true; MReach 0; MHandler 0 true] (metronome_create 10 true) = Some m ∧
    m_sent m = (λ n, tick_msg (Z.of_nat n)) <$> seq 0 (length (m_sent m)) ∧
    ∀ t, Pending t ∈ m_waits m → t = m_start m + m_us m * (m_counter m - m_base m + 1).
Proof.
  destruct (metronome_run [MStart 100 true; MReach 0; MHandler 0 true; MReach 0; MHandler 0 true] (metronome_create 10 true))
    as [m|] eqn:E; [|vm_compute in E; discriminate E].
  exists m. split; [done|].
  apply (metronome_steady 10 true [MStart 100 true; MReach 0; MHandler 0 true; MReach 0; MHandler 0 true] m); [done|exact E].
Defined.

(** ** Closing an endpoint connection *)

Definition write_complete_msg (tag : bytes) (n : nat) : bytes :=
  io_msg (str "socket") tag (str "write_complete") [AUInt (Z.of_nat n)].

(** The connection closes its socket at the first completion after [close()]. *)
Lemma connection_closes {U C} v i p c from n (u : heap U) :
  deref p u = Some c → c_close_on_write_complete c = true → arg_ok (AString (c_tag c)) → Z.of_nat n < 2 ^ 31 →
  play v i (connection_receive (C := C) p from (write_complete_msg (c_tag c) n)) u
  = Some (io [IoSocketClose (c_s c)]
            (store p (set_close_on_write_complete (set_write_pending false c)) u), [], inl None).
Proof.
  intros Hc Hcl Htag Hn. unfold connection_receive. rewrite (play_load _ _ p c) by done.
  unfold if_match, attempt.
  assert (∀ ev ps, matches (write_complete_msg (c_tag c) n) (PStr (str "socket") :: PStr (c_tag c) :: PStr ev :: ps)
    = if decide (str "write_complete" = ev) then
        pats_items pat_item (PStr ev :: ps)
          [IText (min_width (len_of (str "write_complete"))) (str "write_complete"); IUInt (min_width (Z.of_nat n)) (Z.of_nat n)]
      else Ok None) as Hm.
  { intros ev ps. apply io_msg_event; [by_decision|done|by_decision| |done|by repeat constructor].
    constructor; [|constructor]. cbn. unfold is_u64. lia. }
  do 3 (rewrite Hm, decide_False by done). rewrite Hm, decide_True by done.
  assert (item_capture int_target (IUInt (min_width (Z.of_nat n)) (Z.of_nat n)) = Some (CInt (Z.of_nat n))) as Hi.
  { unfold int_target, item_capture. cbn [item_int]. rewrite (proj2 (Z.ltb_lt _ _)) by lia. cbn [mbind option_bind].
    ztests; try lia. done. }
  rewrite pats_items_cons. cbn [pats_items is_more pat_item item_string mbind res_bind option_bind].
  rewrite decide_True by done. cbn [mbind res_bind]. rewrite Hi. cbn [fmap option_fmap option_map mbind res_bind app].
  rewrite (play_modify _ _ p c), Hcl by done.
  rewrite (play_conn_close _ _ p (set_write_pending false c)) by apply deref_store.
  by rewrite store_store.
Qed.

(** An endpoint connection that was told to close, for example by an exit
    message it still has to write, closes its socket when the write under way is
    done, although the socket has more queued behind it: those octets are never
    taken. *)
Theorem close_drops_queued {U C} v i p c from (u : heap U) s o :
  deref p u = Some c → c_close_on_write_complete c = true → arg_ok (AString (c_tag c)) →
  impl s = Some o → s_open o = true → s_write_pending o = true → s_write_q o ≠ [] →
  writing s = Some (s_write_buf o) → taken s ++ s_write_buf o ++ s_write_q o = written s →
  Z.of_nat (length (s_write_buf o)) < 2 ^ 31 →
  (∃ u', play v i (connection_receive (C := C) p from (write_complete_msg (c_tag c) (length (s_write_buf o)))) u
         = Some (io [IoSocketClose (c_s c)] u', [], inl None)) ∧
  ∃ s', step (EWritten (length (s_write_buf o)) [CClose] true) s = Some s' ∧ closed s' = true ∧
    taken s' ++ s_write_q o = written s'.
Proof.
  intros Hc Hcl Htag Hi Ho Hp Hq Hw Ht Hn. split.
  - rewrite (connection_closes v i p c) by done. by eexists.
  - cbn [step]. rewrite Hw, (proj2 (Nat.leb_le _ _)) by done. eexists. split; [reflexivity|].
    unfold Socket.write_handler. cbn [impl set_writing add_taken]. rewrite Hi.
    unfold write_complete. cbn [impl set_writing add_taken]. rewrite Hi. cbv zeta.
    unfold dispatch. cbn [foldl]. unfold socket_call. cbn [impl add_msg set_writing add_taken]. rewrite Hi.
    unfold close_internal. rewrite Ho. cbn [impl issue set_closed set_impl add_msg].
    cbn [s_write_buf set_open s_write_q]. rewrite Nat.ltb_irrefl, bool_decide_false by done.
    cbn. split; [done|]. rewrite firstn_all, <- (assoc_L app). exact Ht.
Qed.

Lemma close_drops_queued_witness :
  let c := Connection 1 (self_handle 7) [] (str "endpoint::tcp::active") true true false in
  let u := store 2 c (heap_empty tt) in
  let s := default (socket_create (str "endpoint::tcp::active"))
             (run [ECall (CWrite [1; 2]); ECall (CWrite [3])] (socket_create (str "endpoint::tcp::active"))) in
  (∃ u', play (C := closure nat) (λ _ _, (Some 7, Ok None)) 3 (connection_receive 2 null_handle (write_complete_msg (c_tag c) 2)) u
         = Some (io [IoSocketClose 1] u', [], inl None)) ∧
  ∃ s', step (EWritten 2 [CClose] true) s = Some s' ∧ closed s' = true ∧ taken s' ++ [3] = written s'.
Proof.
  intros c u s.
  apply (close_drops_queued (C := nat) (λ _ _, (Some 7, Ok None)) 3 2 c null_handle u s
    (SocketImpl (str "endpoint::tcp::active") true [1; 2] [3] true)); try (vm_compute; reflexivity).
  - by_decision.
  - discriminate.
Defined.
