(* ===== verification/PortsTcp.v ===== *)
(** * TCP acceptors and the probe of a socket file ([src/src/instance.cpp])

    [tcp::acceptor_impl] has no destructor of its own and no path, so it is
    modelled apart from the unix one of Ports; and the questions that
    [is_stale_socket] asks the operating system, as the system calls they are. *)
From S2P Require Import Prelude CborEncode Ieee CborDecode CborMatch Env Instance Actors Ports.

(** ** tcp::acceptor_impl *)

Record tcp_acceptor : Type := TcpAcceptor { t_tag : bytes; t_open : bool }.

Definition t_msg (o : tcp_acceptor) (event : bytes) (args : list arg) : bytes :=
  io_msg (str "acceptor") (t_tag o) event args.

Definition tcp_acceptor_create (tag : bytes) : port tcp_acceptor := Port (Some (TcpAcceptor tag false)) [].

Definition start_accept (s : port tcp_acceptor) : port tcp_acceptor := puts [Accept] s.

Definition tcp_acceptor_listen (a : bytes) (bind_ec listen_ec : error_code) (local_port : Z) (s : port tcp_acceptor)
  : port tcp_acceptor * Z :=
  match obj s with
  | None => (s, 0)
  | Some o =>
      let s := puts [Bind a] s in
      match bind_ec with
      | Some e => (puts [Send (t_msg o (str "error") (error_args e))] s, 0)
      | None =>
          let s := puts [Listen] s in
          match listen_ec with
          | Some e => (puts [Send (t_msg o (str "error") (error_args e))] s, 0)
          | None => (sets (Some (TcpAcceptor (t_tag o) true)) (start_accept s), local_port)
          end
      end
  end.

Definition tcp_acceptor_close (s : port tcp_acceptor) : port tcp_acceptor :=
  match obj s with
  | None => s
  | Some o =>
      sets (Some (TcpAcceptor (t_tag o) false)) (puts [Close; Send (t_msg o (str "closed") [])] s)
  end.

(** The destructor is the implicit one: the executor's acceptor goes with the
    object, and the owner is told nothing. *)
Definition tcp_acceptor_destroy (s : port tcp_acceptor) : port tcp_acceptor := sets None s.

Definition tcp_acceptor_do (c : acceptor_call) : port tcp_acceptor → port tcp_acceptor :=
  match c with AClose => tcp_acceptor_close | ADestroy => tcp_acceptor_destroy end.

(** The handler; [calls] is what the owner calls while it is told, [ret]
    whether dispatch_sync succeeded. *)
Definition tcp_acceptor_accept (fd : Z) (ec : error_code) (calls : list acceptor_call) (ret : bool)
  (s : port tcp_acceptor) : port tcp_acceptor :=
  match obj s with
  | None => s
  | Some o =>
      let dispatched (m : bytes) := foldl (λ s c, tcp_acceptor_do c s) (puts [Dispatch m] s) calls in
      if negb (t_open o) then s
      else match ec with
      | Some e => dispatched (t_msg o (str "error") (error_args e))
      | None =>
          let s := dispatched (t_msg o (str "accept") [AInt fd]) in
          match obj s with None => s | Some _ => if negb ret then tcp_acceptor_close s else start_accept s end
      end
  end.

(** The object behind tcp::acceptor::create and listen, until something else
    happens to it. *)
Definition tcp_listening (tag a : bytes) (port_ : Z) : port tcp_acceptor :=
  (tcp_acceptor_listen a None None port_ (tcp_acceptor_create tag)).1.

(** *** What the owner sees

    A completion of the executor, with the calls the owner makes meanwhile; or
    a call of the owner between two of them. *)
Inductive tcp_event : Type :=
| TcpDone (fd : Z) (ec : error_code) (calls : list acceptor_call)
| TcpCall (c : acceptor_call).

Definition tcp_step (s : port tcp_acceptor) (e : tcp_event) : port tcp_acceptor :=
  match e with
  | TcpDone fd ec calls => tcp_acceptor_accept fd ec calls true s
  | TcpCall c => tcp_acceptor_do c s
  end.

(** Accepts that were asked for. *)
Definition accepts (l : list act) : nat :=
  length (omap (λ a, match a with Accept => Some () | _ => None end) l).
Definition completions (es : list tcp_event) : nat :=
  length (omap (λ e, match e with TcpDone _ _ _ => Some () | TcpCall _ => None end) es).

(** The executor completes what was asked for: each event comes with an
    accept under way. *)
Fixpoint under_way (s : port tcp_acceptor) (n : nat) (es : list tcp_event) : Prop :=
  match es with
  | [] => True
  | e :: es => (match e with TcpDone _ _ _ => n < accepts (log s) | TcpCall _ => True end)%nat ∧
               under_way (tcp_step s e) (n + match e with TcpDone _ _ _ => 1 | _ => 0 end) es
  end.

(** The clients that come in while the owner keeps the acceptor. *)
Definition told (tag : bytes) (fd : Z) : list act :=
  [Dispatch (io_msg (str "acceptor") tag (str "accept") [AInt fd]); Accept].

Lemma tcp_accept_step tag l fd :
  tcp_step (Port (Some (TcpAcceptor tag true)) l) (TcpDone fd None []) =
  Port (Some (TcpAcceptor tag true)) (l ++ told tag fd).
Proof. unfold tcp_step, tcp_acceptor_accept, start_accept, puts, told. cbn [obj log foldl t_open negb]. by rewrite <-app_assoc. Qed.

Lemma tcp_accepts_clients tag l fds :
  foldl tcp_step (Port (Some (TcpAcceptor tag true)) l) ((λ fd, TcpDone fd None []) <$> fds) =
  Port (Some (TcpAcceptor tag true)) (l ++ concat (told tag <$> fds)).
Proof.
  revert l. induction fds as [|fd fds IH]; intros l; [by rewrite app_nil_r|].
  rewrite !fmap_cons. cbn [foldl concat]. by rewrite tcp_accept_step, IH, <-app_assoc.
Qed.

(** Once the owner has closed or destroyed the acceptor, or an accept has
    failed, no accept is asked for again. *)
Definition idle (s : port tcp_acceptor) : Prop := ∀ o, obj s = Some o → t_open o = false.

Lemma idle_do c s : idle (tcp_acceptor_do c s).
Proof.
  destruct c; unfold idle; cbn; [|done]. unfold tcp_acceptor_close. destruct (obj s) eqn:E; cbn.
  - by intros o [= <-].
  - by rewrite E.
Qed.
Lemma idle_dos cs s : idle s → idle (foldl (λ s c, tcp_acceptor_do c s) s cs).
Proof. revert s. induction cs as [|c cs IH]; intros s Hs; [done|]. cbn. apply IH, idle_do. Qed.

Lemma accepts_concat l k : accepts (l ++ k) = (accepts l + accepts k)%nat.
Proof. unfold accepts. by rewrite omap_app, length_app. Qed.

Lemma accepts_do c s : accepts (log (tcp_acceptor_do c s)) = accepts (log s).
Proof.
  destruct c; cbn; [|done]. unfold tcp_acceptor_close. destruct (obj s); [|done]. cbn [log sets puts]. by rewrite accepts_concat, Nat.add_0_r.
Qed.
Lemma accepts_dos cs s : accepts (log (foldl (λ s c, tcp_acceptor_do c s) s cs)) = accepts (log s).
Proof. revert s. induction cs as [|c cs IH]; intros s; [done|]. cbn. by rewrite IH, accepts_do. Qed.

(** One accept is under way while the acceptor is open and none has failed. *)
Definition one_accept (n : nat) (s : port tcp_acceptor) : Prop := (n ≤ accepts (log s) ≤ n + 1)%nat.

Lemma one_accept_step s n e :
  one_accept n s →
  match e with TcpDone _ _ _ => (n < accepts (log s))%nat | TcpCall _ => True end →
  one_accept (n + match e with TcpDone _ _ _ => 1 | _ => 0 end) (tcp_step s e).
Proof.
  unfold one_accept. intros Hn He. destruct e as [fd ec calls|c]; cbn [tcp_step]; [|rewrite accepts_do; lia].
  unfold tcp_acceptor_accept. destruct (obj s) as [o|] eqn:Ho; [|lia].
  destruct (negb (t_open o)); [lia|].
  assert (∀ m, accepts [Dispatch m] = 0%nat) as Hd by done.
  destruct ec as [e|]; [rewrite accepts_dos; cbn [log puts]; rewrite accepts_concat, Hd; lia|].
  destruct (obj (foldl _ _ _)) as [o'|]; cbn [negb].
  - unfold start_accept. cbn [log puts]. rewrite accepts_concat, accepts_dos. cbn [log puts].
    rewrite accepts_concat, Hd. change (accepts [Accept]) with 1%nat. lia.
  - rewrite accepts_dos. cbn [log puts]. rewrite accepts_concat, Hd. lia.
Qed.

(** tcp::acceptor_impl: from listen on, whatever the clients, the executor
    and the owner do, at most one accept is under way; while the owner leaves
    the acceptor alone every client is told to it once, in order, each
    followed by the next accept; and after close no client is told. *)
Theorem tcp_acceptor_serves tag a port_ fds es :
  under_way (tcp_listening tag a port_) 0 es →
  (accepts (log (foldl tcp_step (tcp_listening tag a port_) es)) ≤ completions es + 1)%nat ∧
  log (foldl tcp_step (tcp_listening tag a port_) ((λ fd, TcpDone fd None []) <$> fds)) =
    [Bind a; Listen; Accept] ++ concat (told tag <$> fds) ∧
  ∀ fd ec calls s, idle s → tcp_step s (TcpDone fd ec calls) = s.
Proof.
  intros Hes. split_and!.
  - assert (∀ es s n, one_accept n s → under_way s n es →
      one_accept (n + completions es) (foldl tcp_step s es)) as Hall.
    { clear. induction es as [|e es IH]; intros s n Hs Hu; cbn; [by rewrite Nat.add_0_r|].
      destruct Hu as [He Hu]. specialize (IH _ _ (one_accept_step s n e Hs He) Hu).
      unfold completions in *. destruct e; cbn in *; [|by rewrite Nat.add_0_r in IH].
      by rewrite <-Nat.add_assoc in IH. }
    specialize (Hall es (tcp_listening tag a port_) 0%nat ltac:(unfold one_accept; cbn; lia) Hes).
    unfold one_accept in Hall. lia.
  - change (tcp_listening tag a port_) with (Port (Some (TcpAcceptor tag true)) [Bind a; Listen; Accept]).
    by rewrite tcp_accepts_clients.
  - intros fd ec calls s Hs. cbn. unfold tcp_acceptor_accept. destruct (obj s) as [o|] eqn:Ho; [|done].
    by rewrite (Hs o Ho).
Qed.

Lemma tcp_acceptor_serves_witness :
  let es := [TcpDone 7 None []; TcpDone 8 None [AClose]; TcpCall ADestroy] in
  (accepts (log (foldl tcp_step (tcp_listening (str "t") [] 80) es)) ≤ completions es + 1)%nat ∧
  log (foldl tcp_step (tcp_listening (str "t") [] 80) ((λ fd, TcpDone fd None []) <$> [7; 8])) =
    [Bind []; Listen; Accept] ++ concat (told (str "t") <$> [7; 8]) ∧
  ∀ fd ec calls s, idle s → tcp_step s (TcpDone fd ec calls) = s.
Proof. apply tcp_acceptor_serves. cbn. repeat split; vm_compute; lia. Defined.

(** ** The probe of a socket file *)

(** lstat: its result and the mode of the file; S_ISSOCK looks at the octal
    digits 170000 for 140000. *)
Definition is_socket_file (lstat : bytes → Z * Z) (path : bytes) : bool :=
  let '(rc, st_mode) := lstat path in (rc =? 0) && (Z.land st_mode 61440 =? 49152).

(** The socket that probes is closed, whatever connect says: [connect] gives
    its result and errno. *)
Definition connect_refused (socket_ : Z) (connect : Z * Z) : bool * list act :=
  if socket_ <? 0 then (false, [])
  else let '(rc, errno) := connect in (negb (rc =? 0) && (errno =? 111), [CloseFd socket_]).

Definition restrict_to_owner (path : bytes) : list act := [Chmod path].
Definition remove_file (path : bytes) : list act := [Remove path].

(** A file is taken for stale only if it is a socket that refuses a
    connection: one that is served, or is no socket, is left alone. *)
Lemma stale_refuses lstat socket_ connect path :
  is_stale_socket (is_socket_file lstat) (λ _, (connect_refused socket_ connect).1) path = true →
  (lstat path).1 = 0 ∧ 0 <= socket_ ∧ connect.1 ≠ 0 ∧ connect.2 = 111 ∧ (length path < 108)%nat.
Proof.
  unfold is_stale_socket, is_socket_file, connect_refused. destruct (lstat path) as [rc m], connect as [cr errno].
  destruct (108 <=? Z.of_nat (length path)) eqn:E1; [done|]. destruct (rc =? 0) eqn:E2; [|done].
  destruct (Z.land _ _ =? _) eqn:E3; [|done]. simpl. destruct (socket_ <? 0) eqn:E4; [done|]. simpl.
  intros [H1 H2]%andb_true_iff. apply negb_true_iff in H1. lia.
Qed.
