(* ===== verification/Trace.v ===== *)
(** * Trace output ([src/src/trace.cpp])

    [trace_file] writes the trace messages of all threads to one file.  A thread
    pushes its message on a lock-free list and then works the list off, unless
    another thread is doing so.

    A [world] is the object with the nodes it has allocated and every thread's
    place in [push] and [do_work]; [thread_step] is one atomic action of one
    thread: a load or a compare-and-exchange of [head], a call of the mutex, or
    work on nodes that no other thread can reach.  Addresses are used again after
    [delete].  The mutex is that of POSIX: [try_lock] fails only while another
    thread holds it.  [compare_exchange_weak] may fail for no reason. *)
From S2P Require Import Prelude CborEncode Ieee CborDecode CborMatch CppText CborJson.

Abbreviation addr := nat.
Abbreviation tid := nat.

(** ** Data *)

(** [trace_file::node] *)
Record node : Type := Node { data : bytes; next : option addr }.

(** Where a thread is.  The pointers are the local variables. *)
Inductive pc : Type :=
| Idle                                   (** outside *)
| PushNew (d : bytes)                    (** [new node{move(data), head}] *)
| PushCas (p : addr)                     (** [head.compare_exchange_weak(p->next, p)] *)
| TryLock                                (** [m.try_lock()] *)
| Guard                                  (** [lock_guard<recursive_mutex> lock(m)] *)
| Unlock                                 (** [m.unlock()] *)
| LoadHead                               (** [auto p = head.load()] *)
| Take (p : option addr)                 (** [p && !head.compare_exchange_weak(p, nullptr)] *)
| Reverse (prev p : option addr)         (** the loop of [reverse] *)
| Work (p : option addr)                 (** the loop over the nodes *)
| Return (more : bool)                   (** the end of [do_work] *)
| Unwind.                                (** [on_trace] has thrown out of [push] *)

(** What became of a message that was taken off the list: [on_trace] has returned,
    or has thrown, or was not called since it threw on one before. *)
Inductive mark : Type := Returned | Threw | Lost.

(** The members of [trace_file]; [m] is the thread that owns the mutex and how
    often it has locked it; [closing] says that the destructor has begun.  For
    the theorems: the calls of [push] that began and those whose node is on the
    list, and the messages taken off it to be handled, with what became of them. *)
Record world : Type := World {
  head : option addr;
  nodes : gmap addr node;
  m : option (tid * nat);
  s : bytes;
  threads : gmap tid pc;
  closing : bool;
  started : list (tid * bytes);
  pushed : list (tid * bytes);
  taken : list (bytes * mark)
}.

Definition pc_of (w : world) (t : tid) : pc := default Idle (threads w !! t).

Definition set_head (v : option addr) (w : world) : world :=
  World v (nodes w) (m w) (s w) (threads w) (closing w) (started w) (pushed w) (taken w).
Definition set_nodes (v : gmap addr node) (w : world) : world :=
  World (head w) v (m w) (s w) (threads w) (closing w) (started w) (pushed w) (taken w).
Definition set_m (v : option (tid * nat)) (w : world) : world :=
  World (head w) (nodes w) v (s w) (threads w) (closing w) (started w) (pushed w) (taken w).
Definition goto (t : tid) (v : pc) (w : world) : world :=
  World (head w) (nodes w) (m w) (s w) (<[t := v]> (threads w)) (closing w) (started w) (pushed w) (taken w).
Definition set_closing (w : world) : world :=
  World (head w) (nodes w) (m w) (s w) (threads w) true (started w) (pushed w) (taken w).
Definition add_started (v : tid * bytes) (w : world) : world :=
  World (head w) (nodes w) (m w) (s w) (threads w) (closing w) (started w ++ [v]) (pushed w) (taken w).
Definition add_pushed (v : tid * bytes) (w : world) : world :=
  World (head w) (nodes w) (m w) (s w) (threads w) (closing w) (started w) (pushed w ++ [v]) (taken w).
Definition add_taken (s : bytes) (v : list (bytes * mark)) (w : world) : world :=
  World (head w) (nodes w) (m w) s (threads w) (closing w) (started w) (pushed w) (taken w ++ v).

(** A new object; [s] is what its constructor wrote. *)
Definition trace_file (s : bytes) : world := World None ∅ None s ∅ false [] [] [].

(** ** The mutex *)

Definition try_lock (t : tid) (w : world) : option world :=
  match m w with
  | None => Some (set_m (Some (t, 1%nat)) w)
  | Some (o, n) => if decide (o = t) then Some (set_m (Some (t, S n)) w) else None
  end.

(** [m.lock()] of a thread that must own the mutex already. *)
Definition relock (t : tid) (w : world) : option world := try_lock t w.

Definition unlock (t : tid) (w : world) : option world :=
  match m w with
  | Some (o, S n) =>
      if decide (o = t) then Some (set_m (match n with O => None | _ => Some (t, n) end) w) else None
  | _ => None
  end.

(** ** Steps *)

(** The data of the nodes of a list, for [taken]. *)
Fixpoint walk (fuel : nat) (ns : gmap addr node) (p : option addr) : list bytes :=
  match fuel, p with
  | S fuel, Some a =>
      match ns !! a with Some n => data n :: walk fuel ns (next n) | None => [] end
  | _, _ => []
  end.

(** A thread does a step, cannot do one, or does what C++ leaves undefined: it
    follows a pointer to no object, or unlocks a mutex that is not its own.  An
    exception that leaves the destructor ends the program. *)
Inductive outcome : Type := Next (w : world) | Stuck | Undefined | Terminate.

Definition or_undefined (o : option world) (k : world → world) : outcome :=
  match o with Some w => Next (k w) | None => Undefined end.

Section machine.
(** What [on_trace] makes of the stream, and whether it returned. *)
Context (on_trace : bytes → bytes → bytes * bool).

(** [weak]: a weak compare-and-exchange fails although it need not; [fresh]: the
    address that [new] returns. *)
Definition thread_step (weak : bool) (fresh : addr) (t : tid) (w : world) : outcome :=
  match pc_of w t with
  | Idle => Stuck
  | PushNew d =>
      if decide (nodes w !! fresh = None)
      then Next (goto t (PushCas fresh) (set_nodes (<[fresh := Node d (head w)]> (nodes w)) w))
      else Stuck
  | PushCas p =>
      match nodes w !! p with
      | None => Undefined
      | Some n =>
          if bool_decide (head w = next n) && negb weak
          then Next (goto t TryLock (add_pushed (t, data n) (set_head (Some p) w)))
          else Next (set_nodes (<[p := Node (data n) (head w)]> (nodes w)) w)
      end
  | TryLock =>
      match try_lock t w with
      | None => Next (goto t Idle w)
      | Some w => Next (goto t Guard w)
      end
  | Guard => or_undefined (relock t w) (goto t Unlock)
  | Unlock => or_undefined (unlock t w) (goto t LoadHead)
  | LoadHead => Next (goto t (Take (head w)) w)
  | Take None => Next (goto t (Return false) w)
  | Take (Some p) =>
      if bool_decide (head w = Some p) && negb weak
      then Next (goto t (Reverse None (Some p)) (set_head None w))
      else Next (goto t (Take (head w)) w)
  | Reverse prev None => Next (goto t (Work prev) w)
  | Reverse prev (Some p) =>
      match nodes w !! p with
      | None => Undefined
      | Some n => Next (goto t (Reverse (Some p) (next n)) (set_nodes (<[p := Node (data n) prev]> (nodes w)) w))
      end
  | Work None => Next (goto t (Return true) w)
  | Work (Some p) =>
      match nodes w !! p with
      | None => Undefined
      | Some n =>
          let '(s', returned) := on_trace (s w) (data n) in
          if returned
          then Next (goto t (Work (next n)) (set_nodes (delete p (nodes w)) (add_taken s' [(data n, Returned)] w)))
          else if closing w then Terminate
          else Next (goto t Unwind (add_taken s' ((data n, Threw) ::
                       ((λ d, (d, Lost)) <$> walk (size (nodes w)) (nodes w) (next n))) w))
      end
  | Return more => or_undefined (unlock t w) (goto t (if more then TryLock else Idle))
  | Unwind => or_undefined (unlock t w) (goto t Idle)
  end.

Definition all_idle (w : world) : Prop := ∀ t, pc_of w t = Idle.

(** A thread calls [push], the last owner of the object destroys it, or a thread
    goes on. *)
Inductive step : world → world → Prop :=
| step_push w t d :
    pc_of w t = Idle → closing w = false →
    step w (goto t (PushNew d) (add_started (t, d) w))
| step_destroy w t :
    all_idle w → closing w = false → step w (goto t TryLock (set_closing w))
| step_thread w w' t weak fresh :
    thread_step weak fresh t w = Next w' → step w w'.

Inductive reachable (init : bytes) : world → Prop :=
| reachable_init : reachable init (trace_file init)
| reachable_step w w' : reachable init w → step w w' → reachable init w'.
End machine.

(** ** The handlers *)

(** [cbor_cr] *)
Definition cbor_cr : bytes := cbor_array [AString [10]].

(** [cbor_file::on_trace] *)
Definition cbor_on_trace (s msg : bytes) : bytes * bool := (s ++ msg ++ cbor_cr, true).

(** [json_file::on_trace] *)
Definition json_on_trace (s msg : bytes) : bytes * bool :=
  match to_json_stream s msg with
  | (s, Ok _) => (s ++ [10], true)
  | (s, Throw _) => (s, false)
  end.

(** [instance::do_trace_raw]: the message an instance traces, with the counters of
    the executor, the number of instances and the owners of the instance in front. *)
Definition do_trace_raw (pending_tasks pending_posts a use_count : Z) (parms : list arg) : bytes :=
  cbor_array ([AUInt pending_tasks; AUInt pending_posts; AUInt a; AInt use_count] ++ parms).

(** What [m(ps...)] captured; a decoder may throw. *)
Definition matched (s msg : bytes) (ps : list pat) (hit : list capture → bytes * bool) (miss : bytes * bool)
  : bytes * bool :=
  match matches msg ps with
  | Throw _ => (s, false)
  | Ok None => miss
  | Ok (Some cs) => hit cs
  end.

(** [to_mermaid]. *)
Definition to_mermaid (s msg : bytes) : bytes * bool :=
  let done := (s, true) in
  matched s msg [PArray [PAny; PAny; PExtract XString]; PExtract XString; PMore] (λ cs,
    match cs with
    | [CString from; CString typ] =>
        let from := if decide (from = []) then str "UNKNOWN" else from in
        if decide (typ = str "spawn") then (s ++ str "    Note right of " ++ from ++ str ": SPAWN" ++ [10], true)
        else if decide (typ = str "receive") then done
        else if decide (typ = str "run") then (s ++ str "    activate " ++ from ++ [10], true)
        else if decide (typ = str "sleep") then (s ++ str "    deactivate " ++ from ++ [10], true)
        else if decide (typ = str "send") then
          matched s msg [PAny; PAny; PArray [PAny; PAny; PExtract XString]; PExtract XRange] (λ cs,
            match cs with
            | [CString to; CRange msg] =>
                let s := s ++ str "    " ++ from ++ str "->>" ++ to ++ str ": send " in
                match to_json_stream s msg with
                | (s, Ok _) => (s ++ [10], true)
                | (s, Throw _) => (s, false)
                end
            | _ => done
            end) done
        else if decide (typ = str "link") then
          matched s msg [PAny; PAny; PArray [PAny; PAny; PExtract XString]] (λ cs,
            match cs with
            | [CString to] => (s ++ str "    " ++ from ++ str "-->>" ++ to ++ str ": create link" ++ [10], true)
            | _ => done
            end) done
        else if decide (typ = str "exit") then
          matched s msg [PAny; PAny; PArray [PAny; PExtract XString; PMore]] (λ cs,
            match cs with
            | [CString m] => (s ++ str "    Note right of " ++ from ++ str ": EXIT " ++ m ++ [10], true)
            | _ => done
            end) done
        else done
    | _ => done
    end) done.

(** The three files as they are when they are opened. *)
Definition cbor_file : world := trace_file [].
Definition json_file : world := trace_file [].
Definition mermaid_file : world := trace_file (str "sequenceDiagram" ++ [10]).
