(* ===== verification/TraceInv.v ===== *)
(** * The invariant of a trace file

    The nodes that [head] leads to are the messages that were pushed and not
    taken, newest first; the thread that owns the mutex may hold a list it took,
    which no other thread can reach; a thread in [push] owns its node.  So a node
    is never followed after it was deleted, also when its address is used again
    ([thread_step_defined]), and the pushed messages are, in order, those that
    were taken, those in hand and those on the list. *)
From S2P Require Import Prelude CborEncode Ieee CborDecode CborMatch CppText CborJson Trace.

(** ** Lists in memory *)

Fixpoint chain (ns : gmap addr node) (p : option addr) (l : list (addr * bytes)) : Prop :=
  match l with
  | [] => p = None
  | (a, d) :: l => p = Some a ∧ ∃ n, ns !! a = Some (Node d n) ∧ chain ns n l
  end.

Lemma chain_insert ns p l a n : a ∉ l.*1 → chain ns p l → chain (<[a := n]> ns) p l.
Proof.
  revert p. induction l as [|[b d] l IH]; intros p Ha Hc; [done|].
  apply not_elem_of_cons in Ha as [Hab Ha]. destruct Hc as (-> & k & Hk & Hc).
  split; [done|]. exists k. rewrite lookup_insert_ne by done. auto.
Qed.

Lemma chain_delete ns p l a : a ∉ l.*1 → chain ns p l → chain (delete a ns) p l.
Proof.
  revert p. induction l as [|[b d] l IH]; intros p Ha Hc; [done|].
  apply not_elem_of_cons in Ha as [Hab Ha]. destruct Hc as (-> & k & Hk & Hc).
  split; [done|]. exists k. rewrite lookup_delete_ne by done. auto.
Qed.

Lemma chain_lookup ns p l a : chain ns p l → a ∈ l.*1 → is_Some (ns !! a).
Proof.
  revert p. induction l as [|[b d] l IH]; intros p Hc Ha; [by apply elem_of_nil in Ha|].
  destruct Hc as (-> & k & Hk & Hc). apply elem_of_cons in Ha as [->|Ha]; eauto.
Qed.

Lemma chain_Some ns a l :
  chain ns (Some a) l → ∃ d n l', l = (a, d) :: l' ∧ ns !! a = Some (Node d n) ∧ chain ns n l'.
Proof. destruct l as [|[b d] l]; [done|]. intros ([= ->] & n & Hn & Hc). eauto 6. Qed.

Lemma chain_None ns l : chain ns None l → l = [].
Proof. by destruct l as [|[b d] l]; [|intros []]. Qed.

Lemma chain_size ns p l : chain ns p l → NoDup l.*1 → (length l <= size ns)%nat.
Proof.
  intros Hc Hl. rewrite <- (length_fmap fst l), <- (size_list_to_set (C := gset addr)) by done.
  rewrite <- size_dom. apply subseteq_size. intros a Ha. apply elem_of_list_to_set in Ha.
  apply elem_of_dom. eauto using chain_lookup.
Qed.

Lemma walk_chain fuel : ∀ ns p l, chain ns p l → (length l <= fuel)%nat → walk fuel ns p = l.*2.
Proof.
  induction fuel as [|fuel IH]; intros ns p l Hc Hl.
  - destruct l; [done|cbn in Hl; lia].
  - destruct l as [|[a d] l]; [by rewrite Hc|]. destruct Hc as (-> & n & Hn & Hc).
    cbn. rewrite Hn. cbn. f_equal. apply IH; [done|cbn in Hl; lia].
Qed.

(** ** The invariant *)

(** How often a thread at this place has locked the mutex. *)
Definition holding (p : pc) : option nat :=
  match p with
  | Idle | PushNew _ | PushCas _ | TryLock => None
  | Unlock => Some 2%nat
  | _ => Some 1%nat
  end.

(** The messages a thread that owns the mutex has taken, oldest first. *)
Definition in_hand (ns : gmap addr node) (p : pc) (h : list (addr * bytes)) : Prop :=
  match p with
  | Reverse prev p => ∃ l r, chain ns p l ∧ chain ns prev r ∧ h = reverse l ++ r
  | Work p => chain ns p h
  | _ => h = []
  end.

Lemma in_hand_lookup ns p h a : in_hand ns p h → a ∈ h.*1 → is_Some (ns !! a).
Proof.
  destruct p as [| | | | | | | |prev r|r| |]; try (intros -> []%elem_of_nil).
  - intros (l1 & l2 & H1 & H2 & ->). rewrite fmap_app, elem_of_app, fmap_reverse, elem_of_reverse.
    intros [|]; eauto using chain_lookup.
  - apply chain_lookup.
Qed.

(** What a thread is about to push. *)
Definition pending (w : world) (t : tid) : list bytes :=
  match pc_of w t with
  | PushNew d => [d]
  | PushCas p => match nodes w !! p with Some n => [data n] | None => [] end
  | _ => []
  end.

Definition of_thread (t : tid) (l : list (tid * bytes)) : list bytes :=
  (filter (λ x, x.1 = t) l).*2.
#[export] Instance mark_eq_dec : EqDecision mark.
Proof. solve_decision. Defined.

(** The messages that [on_trace] was called with. *)
Definition called (l : list (bytes * mark)) : list bytes := (filter (λ x, x.2 ≠ Lost) l).*1.

Lemma called_app l1 l2 : called (l1 ++ l2) = called l1 ++ called l2.
Proof. unfold called. by rewrite filter_app, fmap_app. Qed.
Lemma called_cons d b l : b ≠ Lost → called ((d, b) :: l) = d :: called l.
Proof. by destruct b. Qed.
Lemma called_lost l : called ((λ d, (d, Lost)) <$> l) = [].
Proof. unfold called. induction l as [|d l IH]; [done|]. cbn. done. Qed.
Lemma of_thread_app t l1 l2 : of_thread t (l1 ++ l2) = of_thread t l1 ++ of_thread t l2.
Proof. unfold of_thread. by rewrite filter_app, fmap_app. Qed.
Lemma of_thread_one t u d : of_thread t [(u, d)] = if decide (u = t) then [d] else [].
Proof. unfold of_thread. cbn. by destruct (decide (u = t)). Qed.

Section inv.
Context (on_trace : bytes → bytes → bytes * bool) (init : bytes).

Definition writes (s : bytes) (l : list bytes) : bytes := foldl (λ s d, (on_trace s d).1) s l.

Lemma writes_app s l1 l2 : writes s (l1 ++ l2) = writes (writes s l1) l2.
Proof. apply foldl_app. Qed.

(** No message was lost, or [on_trace] has thrown on one. *)
Definition all_returned (l : list (bytes * mark)) : Prop := Forall (λ x, x.2 = Returned) l.
Definition threw (l : list (bytes * mark)) : Prop := ∃ s d, (d, Threw) ∈ l ∧ (on_trace s d).2 = false.

(** The places of the threads, the mutex and the nodes. *)
Record mem_inv (w : world) (q h : list (addr * bytes)) : Prop := {
  inv_lock t n : m w = Some (t, n) ↔ holding (pc_of w t) = Some n;
  inv_queue : chain (nodes w) (head w) q;
  inv_hand t : holding (pc_of w t) ≠ None → in_hand (nodes w) (pc_of w t) h;
  inv_free : m w = None → h = [];
  inv_disjoint : NoDup (q.*1 ++ h.*1);
  inv_push t p : pc_of w t = PushCas p → is_Some (nodes w !! p) ∧ p ∉ q.*1 ++ h.*1;
  inv_push_inj t u p : pc_of w t = PushCas p → pc_of w u = PushCas p → t = u
}.

(** Where the messages are. *)
Record log_inv (w : world) (q h : list (addr * bytes)) : Prop := {
  inv_account : (pushed w).*2 = (taken w).*1 ++ h.*2 ++ reverse q.*2;
  inv_file : s w = writes init (called (taken w));
  inv_threads t : of_thread t (started w) = of_thread t (pushed w) ++ pending w t;
  inv_lost : all_returned (taken w) ∨ threw (taken w)
}.

Definition inv (w : world) : Prop := ∃ q h, mem_inv w q h ∧ log_inv w q h.

Lemma pc_of_goto t v w u : pc_of (goto t v w) u = if decide (t = u) then v else pc_of w u.
Proof. unfold pc_of. cbn. destruct (decide (t = u)) as [->|]; [by rewrite lookup_insert_eq|by rewrite lookup_insert_ne]. Qed.

Lemma inv_init : inv (trace_file init).
Proof.
  exists [], []. split; split; done || (left; by constructor).
Qed.

(** Only one thread is past [try_lock]. *)
Lemma holders w q h t u a b :
  mem_inv w q h → holding (pc_of w t) = Some a → holding (pc_of w u) = Some b → t = u.
Proof.
  intros I Ht Hu. apply (inv_lock _ _ _ I) in Ht, Hu. congruence.
Qed.

Lemma holder_m w q h t n : mem_inv w q h → holding (pc_of w t) = Some n → m w = Some (t, n).
Proof. intros I. apply (inv_lock _ _ _ I). Qed.

(** The mutex after thread [t] has gone to [v]. *)
Definition next_m (t : tid) (v : pc) (w : world) : option (tid * nat) :=
  match holding v, holding (pc_of w t) with
  | Some n, _ => Some (t, n)
  | None, Some _ => None
  | None, None => m w
  end.

(** A thread goes on without touching the nodes. *)
Lemma mem_goto w q h t v :
  mem_inv w q h → (∀ p, v ≠ PushCas p) →
  (holding v ≠ None → m w = None ∨ holding (pc_of w t) ≠ None) →
  (if holding v is Some _ then in_hand (nodes w) v h else holding (pc_of w t) ≠ None → h = []) →
  mem_inv (goto t v (set_m (next_m t v w) w)) q h.
Proof.
  intros I Hv Hin Hh. split.
  - intros u n. rewrite pc_of_goto. change (pc_of (set_m _ w) u) with (pc_of w u). cbn [goto set_m m]. unfold next_m.
    destruct (decide (t = u)) as [->|Htu].
    + destruct (holding v) as [k|] eqn:Ev; [naive_solver|].
      destruct (holding (pc_of w u)) as [k|] eqn:Eu; [done|]. rewrite (inv_lock _ _ _ I u n). naive_solver.
    + destruct (holding v) as [k|] eqn:Ev.
      * split; [naive_solver|]. intros Hu. destruct (Hin ltac:(done)) as [Hm|Hm].
        -- apply (inv_lock _ _ _ I) in Hu. congruence.
        -- destruct (holding (pc_of w t)) eqn:Et; [|done]. by destruct (Htu (holders _ _ _ _ _ _ _ I Et Hu)).
      * destruct (holding (pc_of w t)) as [k|] eqn:Et; [|apply I].
        split; [done|]. intros Hu. by destruct (Htu (holders _ _ _ _ _ _ _ I Et Hu)).
  - apply I.
  - intros u. rewrite pc_of_goto. change (pc_of (set_m _ w) u) with (pc_of w u). cbn [goto set_m nodes].
    destruct (decide (t = u)) as [->|Htu]; [by destruct (holding v)|apply I].
  - cbn [goto set_m m]. unfold next_m. destruct (holding v); [done|].
    destruct (holding (pc_of w t)); [auto|]. apply I.
  - apply I.
  - intros u p. rewrite pc_of_goto. destruct (decide (t = u)); [by intros ?%Hv|apply I].
  - intros u u' p. rewrite !pc_of_goto. intros H1 H2.
    repeat case_decide; try (by apply Hv in H1); try (by apply Hv in H2). by apply (inv_push_inj _ _ _ I u u' p).
Qed.

Lemma log_goto w q h t v mm :
  log_inv w q h → pending w t = [] → pending (goto t v w) t = [] → log_inv (goto t v (set_m mm w)) q h.
Proof.
  intros I Hp Hv. split; try apply I.
  intros u. cbn [goto set_m started pushed]. rewrite (inv_threads _ _ _ I). f_equal.
  destruct (decide (t = u)) as [->|Htu]; [rewrite Hp, <- Hv; unfold pending; by rewrite !pc_of_goto, !decide_True|].
  unfold pending. by rewrite pc_of_goto, decide_False.
Qed.

(** A thread that owns no lock changes a node of its own, or a new one. *)
Lemma mem_own w q h t p n :
  mem_inv w q h → holding (pc_of w t) = None → p ∉ (q.*1 ++ h.*1) →
  (∀ u, pc_of w u = PushCas p → u = t) →
  mem_inv (goto t (PushCas p) (set_nodes (<[p := n]> (nodes w)) w)) q h.
Proof.
  intros I Ht Hp Hown. assert ((p ∉ q.*1) ∧ p ∉ h.*1) as [Hpq Hph] by (rewrite elem_of_app in Hp; tauto). split.
  - intros u k. rewrite pc_of_goto. cbn [goto set_nodes m]. rewrite (inv_lock _ _ _ I u k).
    destruct (decide (t = u)) as [->|]; [by rewrite Ht|done].
  - cbn. apply chain_insert; [done|apply I].
  - intros u. rewrite pc_of_goto. destruct (decide (t = u)); [done|]. intros Hu. cbn [goto set_nodes nodes].
    pose proof (inv_hand _ _ _ I u Hu) as Hh. change (pc_of (set_nodes _ w) u) with (pc_of w u).
    destruct (pc_of w u) as [| | | | | | | |prev r|r| |]; try exact Hh.
    + destruct Hh as (l1 & l2 & H1 & H2 & ->). exists l1, l2. rewrite fmap_app, elem_of_app, fmap_reverse, elem_of_reverse in Hph.
      split_and!; [apply chain_insert; tauto..|done].
    + by apply chain_insert.
  - apply I.
  - apply I.
  - intros u r. rewrite pc_of_goto. cbn [goto set_nodes nodes].
    destruct (decide (t = u)) as [->|]; [intros [= <-]; by rewrite lookup_insert_eq|].
    intros [Hs ?]%(inv_push _ _ _ I). split; [|done]. apply lookup_insert_is_Some'. auto.
  - intros u u' r. rewrite !pc_of_goto.
    destruct (decide (t = u)) as [E|], (decide (t = u')) as [E'|]; intros H1 H2; [congruence| | |].
    + injection H1 as <-. rewrite <- E. symmetry. by apply Hown.
    + injection H2 as <-. rewrite <- E'. by apply Hown.
    + by apply (inv_push_inj _ _ _ I u u' r).
Qed.

(** The node of a thread becomes the head of the list. *)
Lemma mem_push w q h t p n :
  mem_inv w q h → pc_of w t = PushCas p → nodes w !! p = Some n → head w = next n →
  mem_inv (goto t TryLock (set_head (Some p) w)) ((p, data n) :: q) h.
Proof.
  intros I Ht Hn Hhd. destruct (inv_push _ _ _ I t p Ht) as [_ Hp]. split.
  - intros u k. rewrite pc_of_goto. cbn [goto set_head m]. rewrite (inv_lock _ _ _ I u k).
    destruct (decide (t = u)) as [->|]; [by rewrite Ht|done].
  - split; [done|]. exists (next n). cbn. rewrite <- Hhd. split; [by rewrite Hn, Hhd; destruct n|apply I].
  - intros u. rewrite pc_of_goto. destruct (decide (t = u)); [done|]. apply I.
  - apply I.
  - cbn. constructor; [done|apply I].
  - intros u r. rewrite pc_of_goto. destruct (decide (t = u)) as [->|Htu]; [done|].
    intros Hu. destruct (inv_push _ _ _ I u r Hu) as [Hs Hr]. split; [done|].
    cbn. rewrite not_elem_of_cons. split; [|done]. intros ->. apply Htu. by apply (inv_push_inj _ _ _ I t u p).
  - intros u u' r. rewrite !pc_of_goto. intros H1 H2. repeat case_decide; try done.
    by apply (inv_push_inj _ _ _ I u u' r).
Qed.

(** A thread that owns the mutex changes nodes that no other thread can reach. *)
Lemma mem_holder w q h t v hd ns q' h' :
  mem_inv w q h → holding (pc_of w t) = Some 1%nat → holding v = Some 1%nat →
  chain ns hd q' → in_hand ns v h' → NoDup (q'.*1 ++ h'.*1) →
  (∀ a, a ∈ q'.*1 ++ h'.*1 → a ∈ q.*1 ++ h.*1) →
  (∀ a, a ∉ q.*1 ++ h.*1 → ns !! a = nodes w !! a) →
  mem_inv (goto t v (set_nodes ns (set_head hd w))) q' h'.
Proof.
  intros I Ht Hv Hq Hh Hnd Hsub Hns. pose proof (holder_m _ _ _ _ _ I Ht) as Hm. split.
  - intros u k. rewrite pc_of_goto. cbn [goto set_nodes set_head m]. rewrite (inv_lock _ _ _ I u k).
    destruct (decide (t = u)) as [->|]; [by rewrite Ht, Hv|done].
  - done.
  - intros u. rewrite pc_of_goto. cbn [goto set_nodes set_head nodes].
    change (pc_of (set_nodes _ _) u) with (pc_of w u).
    destruct (decide (t = u)) as [->|Htu]; [done|]. intros Hu.
    destruct (holding (pc_of w u)) eqn:Eu; [|done]. by destruct (Htu (holders _ _ _ _ _ _ _ I Ht Eu)).
  - cbn. by rewrite Hm.
  - done.
  - intros u r. rewrite pc_of_goto. destruct (decide (t = u)) as [->|Htu]; [by intros ->|].
    intros Hu. destruct (inv_push _ _ _ I u r Hu) as [Hs Hr]. cbn. rewrite Hns by done. naive_solver.
  - intros u u' r. rewrite !pc_of_goto. intros H1 H2.
    repeat case_decide; subst; try done. by apply (inv_push_inj _ _ _ I u u' r).
Qed.

(** A place outside of [push] proper. *)
Definition pushing (p : pc) : bool := match p with PushNew _ | PushCas _ => true | _ => false end.

Lemma pending_none w t : pushing (pc_of w t) = false → pending w t = [].
Proof. unfold pending. by destruct (pc_of w t). Qed.

Lemma pending_goto w t v u :
  pushing (pc_of w t) = false → pushing v = false → pending (goto t v w) u = pending w u.
Proof.
  intros Ht Hv. destruct (decide (t = u)) as [->|Htu].
  - rewrite !pending_none; [done..|]. by rewrite pc_of_goto, decide_True.
  - unfold pending. by rewrite pc_of_goto, decide_False.
Qed.

Lemma inv_goto w q h t v w' :
  mem_inv w q h → log_inv w q h → pushing (pc_of w t) = false → pushing v = false →
  (holding v ≠ None → m w = None ∨ holding (pc_of w t) ≠ None) →
  (if holding v is Some _ then in_hand (nodes w) v h else holding (pc_of w t) ≠ None → h = []) →
  w' = goto t v (set_m (next_m t v w) w) → inv w'.
Proof.
  intros I L Ht Hv Hin Hh ->. exists q, h. split; [apply mem_goto; try done; by intros p ->|].
  apply log_goto; [done|by apply pending_none|]. apply pending_none. by rewrite pc_of_goto, decide_True.
Qed.

Lemma set_m_same w : set_m (m w) w = w.
Proof. by destruct w. Qed.

(** The next place needs no change of the mutex. *)
Lemma inv_move w q h t v :
  mem_inv w q h → log_inv w q h → pushing (pc_of w t) = false → pushing v = false →
  holding (pc_of w t) = holding v →
  (if holding v is Some _ then in_hand (nodes w) v h else True) → inv (goto t v w).
Proof.
  intros I L Ht Hv E Hh. eapply (inv_goto w q h t v); try done.
  - rewrite E. by right.
  - rewrite E. by destruct (holding v).
  - replace (next_m t v w) with (m w); [by rewrite set_m_same|]. unfold next_m. rewrite E.
    destruct (holding v) as [n|] eqn:Ev; [|done]. by apply (holder_m _ _ _ _ _ I).
Qed.

Lemma next_m_lock w t v n : holding v = Some n → next_m t v w = Some (t, n).
Proof. unfold next_m. by intros ->. Qed.

(** [goto] reaches the accounts only through [pending]. *)
Lemma log_same w q h q' h' w' :
  log_inv w q h → started w' = started w → pushed w' = pushed w → taken w' = taken w → s w' = s w →
  (∀ t, pending w' t = pending w t) → h'.*2 ++ reverse q'.*2 = h.*2 ++ reverse q.*2 → log_inv w' q' h'.
Proof.
  intros L E1 E2 E3 E4 Ep Eq. split; rewrite ?E1, ?E2, ?E3, ?E4, ?Eq; try apply L.
  intros t. rewrite Ep. apply L.
Qed.

(** ** Steps *)

Abbreviation thread_step := (thread_step on_trace).

(** What a compare-and-exchange of [push] does. *)
Lemma inv_push_new w q h t d fresh :
  mem_inv w q h → log_inv w q h → pc_of w t = PushNew d → nodes w !! fresh = None →
  inv (goto t (PushCas fresh) (set_nodes (<[fresh := Node d (head w)]> (nodes w)) w)).
Proof.
  intros I L Ht Hf.
  assert (fresh ∉ q.*1 ++ h.*1) as Hfresh.
  { intros [Hq|Hh]%elem_of_app.
    - apply (chain_lookup _ _ _ _ (inv_queue _ _ _ I)) in Hq. rewrite Hf in Hq. by destruct Hq.
    - destruct (m w) as [[u n]|] eqn:Em; [|rewrite (inv_free _ _ _ I Em) in Hh; by apply elem_of_nil in Hh].
      apply (inv_lock _ _ _ I) in Em. pose proof (inv_hand _ _ _ I u ltac:(by rewrite Em)) as Hu.
      destruct (in_hand_lookup _ _ _ _ Hu Hh) as [x Hx]. congruence. }
  assert (∀ u, pc_of w u ≠ PushCas fresh) as Hno.
  { intros u Hu. destruct (inv_push _ _ _ I u _ Hu) as [[x Hx] _]. congruence. }
  exists q, h. split; [apply mem_own; try done; [by rewrite Ht|by intros u ?%Hno]|].
  apply (log_same w q h); try done. intros u. unfold pending. rewrite pc_of_goto.
  change (pc_of (set_nodes _ w) u) with (pc_of w u). cbn [goto set_nodes nodes].
  destruct (decide (t = u)) as [->|]; [by rewrite Ht, lookup_insert_eq|].
  destruct (pc_of w u) as [| |r| | | | | | | | |] eqn:Eu; try done.
  rewrite lookup_insert_ne; [done|]. intros ->. by apply (Hno u).
Qed.

Lemma inv_push_retry w q h t p n :
  mem_inv w q h → log_inv w q h → pc_of w t = PushCas p → nodes w !! p = Some n →
  inv (set_nodes (<[p := Node (data n) (head w)]> (nodes w)) w).
Proof.
  intros I L Ht Hn. destruct (inv_push _ _ _ I t p Ht) as [_ Hp].
  assert (∀ u, pc_of w u = PushCas p → u = t) as Hown by (intros u Hu; by apply (inv_push_inj _ _ _ I u t p)).
  pose proof (mem_own w q h t p (Node (data n) (head w)) I ltac:(by rewrite Ht) Hp Hown) as I'.
  set (w' := set_nodes _ w) in *.
  assert (∀ u, pc_of (goto t (PushCas p) w') u = pc_of w' u) as Hpc.
  { intros u. rewrite pc_of_goto. destruct (decide (t = u)) as [<-|]; [|done]. by rewrite <- Ht. }
  exists q, h. split.
  - split; try apply I'; intros u; repeat setoid_rewrite <- Hpc; apply I'.
  - apply (log_same w q h); try done. intros u. unfold pending.
    change (pc_of w' u) with (pc_of w u). cbn [w' set_nodes nodes].
    destruct (pc_of w u) as [| |r| | | | | | | | |] eqn:Eu; try done.
    destruct (decide (p = r)) as [<-|]; [by rewrite lookup_insert_eq, Hn|by rewrite lookup_insert_ne].
Qed.

Lemma inv_push_done w q h t p n :
  mem_inv w q h → log_inv w q h → pc_of w t = PushCas p → nodes w !! p = Some n → head w = next n →
  inv (goto t TryLock (add_pushed (t, data n) (set_head (Some p) w))).
Proof.
  intros I L Ht Hn Hhd. exists ((p, data n) :: q), h. split.
  - destruct (mem_push w q h t p n I Ht Hn Hhd). by split.
  - split; cbn [goto add_pushed set_head pushed taken s started].
    + rewrite fmap_app, (inv_account _ _ _ L). cbn [fmap list_fmap]. rewrite reverse_cons. by rewrite !(assoc_L app).
    + apply L.
    + intros u. rewrite of_thread_app, of_thread_one, (inv_threads _ _ _ L), <- (assoc_L app). f_equal.
      unfold pending. rewrite pc_of_goto.
      destruct (decide (t = u)) as [->|]; [by rewrite Ht, Hn|done].
    + apply L.
Qed.

Lemma inv_take w q h t p :
  mem_inv w q h → log_inv w q h → pc_of w t = Take (Some p) → head w = Some p →
  inv (goto t (Reverse None (Some p)) (set_head None w)).
Proof.
  intros I L Ht Hhd. exists [], (reverse q).
  pose proof (inv_hand _ _ _ I t ltac:(by rewrite Ht)) as Hh. rewrite Ht in Hh. cbn in Hh. subst h.
  pose proof (inv_disjoint _ _ _ I) as Hnd. cbn [fmap list_fmap] in Hnd. rewrite app_nil_r in Hnd. split.
  - apply (mem_holder w q [] t (Reverse None (Some p)) None (nodes w)); try done.
    + by rewrite Ht.
    + exists q, []. rewrite <- Hhd. split_and!; [apply I|done|]. by rewrite app_nil_r.
    + cbn [fmap list_fmap app]. by rewrite fmap_reverse, reverse_Permutation.
    + intros a. cbn. rewrite fmap_reverse, elem_of_reverse, app_nil_r. done.
  - apply (log_same w q []); try done.
    + intros u. unfold pending. rewrite pc_of_goto.
      destruct (decide (t = u)) as [->|]; [by rewrite Ht|done].
    + cbn. by rewrite fmap_reverse, app_nil_r.
Qed.

Lemma inv_reverse w q h t prev p n :
  mem_inv w q h → log_inv w q h → pc_of w t = Reverse prev (Some p) → nodes w !! p = Some n →
  inv (goto t (Reverse (Some p) (next n)) (set_nodes (<[p := Node (data n) prev]> (nodes w)) w)).
Proof.
  intros I L Ht Hn.
  pose proof (inv_hand _ _ _ I t ltac:(by rewrite Ht)) as Hh. rewrite Ht in Hh.
  destruct Hh as (l & r & Hl & Hr & ->). apply chain_Some in Hl as (d & k & l' & -> & Hp & Hl).
  rewrite Hn in Hp. injection Hp as ->. cbn [data next] in *.
  pose proof (inv_disjoint _ _ _ I) as Hnd. rewrite fmap_app, reverse_cons, fmap_app, <- (assoc_L app) in Hnd.
  cbn in Hnd. apply NoDup_app in Hnd as (Hq & Hqh & Hh).
  apply NoDup_app in Hh as (Hl' & Hlr & Hpr). apply NoDup_cons in Hpr as [Hp Hr'].
  assert (p ∉ q.*1) as Hpq by (intros Hin; apply (Hqh p Hin); set_solver).
  assert (p ∉ l'.*1) as Hpl by (intros Hin; apply (Hlr p); [by rewrite fmap_reverse, elem_of_reverse|set_solver]).
  exists q, (reverse l' ++ (p, d) :: r). split.
  - change (set_nodes ?ns w) with (set_nodes ns (set_head (head w) w)).
    eapply (mem_holder w q _ t); try done.
    + by rewrite Ht.
    + apply chain_insert; [done|apply I].
    + exists l', ((p, d) :: r). split_and!; [by apply chain_insert| |done].
      split; [done|]. exists prev. rewrite lookup_insert_eq. split; [done|]. by apply chain_insert.
    + apply NoDup_app. split_and!; [done| |].
      * intros a Ha. rewrite fmap_app. cbn. by apply Hqh.
      * rewrite fmap_app. cbn. apply NoDup_app. split_and!; [done|done|]. by constructor.
    + intros a. rewrite reverse_cons, <- (assoc_L app). done.
    + intros a Ha. rewrite lookup_insert_ne; [done|]. intros <-. apply Ha. rewrite reverse_cons, !fmap_app. set_solver.
  - apply (log_same w q (reverse ((p, d) :: l') ++ r)); try done.
    + intros u. unfold pending. rewrite pc_of_goto. change (pc_of (set_nodes _ w) u) with (pc_of w u).
      destruct (decide (t = u)) as [->|]; [by rewrite Ht|].
      destruct (pc_of w u) as [| |x| | | | | | | | |] eqn:Eu; try done. cbn [goto set_nodes nodes].
      rewrite lookup_insert_ne; [done|]. intros <-. destruct (inv_push _ _ _ I u p Eu) as [_ Hno].
      apply Hno. rewrite reverse_cons, !fmap_app. set_solver.
    + by rewrite reverse_cons, <- (assoc_L app).
Qed.

Lemma hand_work w q h t p n :
  mem_inv w q h → pc_of w t = Work (Some p) → nodes w !! p = Some n →
  ∃ h', h = (p, data n) :: h' ∧ chain (nodes w) (next n) h' ∧
        (p ∉ q.*1) ∧ (p ∉ h'.*1) ∧ NoDup (q.*1 ++ h'.*1).
Proof.
  intros I Ht Hn. pose proof (inv_hand _ _ _ I t ltac:(by rewrite Ht)) as Hh. rewrite Ht in Hh.
  apply chain_Some in Hh as (d & k & h' & -> & Hp & Hh). rewrite Hn in Hp. injection Hp as ->.
  exists h'. split_and!; [done..| | |].
  all: pose proof (inv_disjoint _ _ _ I) as Hnd; cbn in Hnd; apply NoDup_app in Hnd as (Hq & Hqh & Hh');
    apply NoDup_cons in Hh' as [Hp Hh'].
  - intros Hin. apply (Hqh p Hin). set_solver.
  - done.
  - apply NoDup_app. split_and!; [done| |done]. intros a Ha Hin. apply (Hqh a Ha). set_solver.
Qed.

Lemma pending_holder w q h t v ns u :
  mem_inv w q h → pushing (pc_of w t) = false → pushing v = false →
  (∀ a, a ∉ q.*1 ++ h.*1 → ns !! a = nodes w !! a) →
  pending (goto t v (set_nodes ns w)) u = pending w u.
Proof.
  intros I Ht Hv Hns. rewrite pending_goto by done. unfold pending.
  change (pc_of (set_nodes _ w) u) with (pc_of w u). cbn [set_nodes nodes].
  destruct (pc_of w u) as [| |x| | | | | | | | |] eqn:Eu; try done.
  rewrite Hns; [done|]. by apply (inv_push _ _ _ I u).
Qed.

Lemma lost_more l l' :
  all_returned l' → all_returned l ∨ threw l → all_returned (l ++ l') ∨ threw (l ++ l').
Proof.
  intros H1 [H2|(s & d & Hd & He)]; [left; by apply Forall_app|right].
  exists s, d. split; [|done]. apply elem_of_app. by left.
Qed.

Lemma inv_work w q h t p n s' :
  mem_inv w q h → log_inv w q h → pc_of w t = Work (Some p) → nodes w !! p = Some n →
  on_trace (s w) (data n) = (s', true) →
  inv (goto t (Work (next n)) (set_nodes (delete p (nodes w)) (add_taken s' [(data n, Returned)] w))).
Proof.
  intros I L Ht Hn E. destruct (hand_work _ _ _ _ _ _ I Ht Hn) as (h' & -> & Hh & Hpq & Hph & Hnd).
  assert (∀ a, a ∉ q.*1 ++ ((p, data n) :: h').*1 → delete p (nodes w) !! a = nodes w !! a) as Hns.
  { intros a Ha. rewrite lookup_delete_ne; [done|]. intros <-. apply Ha. set_solver. }
  exists q, h'. split.
  - assert (mem_inv (goto t (Work (next n)) (set_nodes (delete p (nodes w)) (set_head (head w) w))) q h') as [].
    { eapply (mem_holder w q _ t); try done; [by rewrite Ht|apply chain_delete; [done|apply I]| |].
      - by apply chain_delete.
      - intros a. cbn. set_solver. }
    by split.
  - split; cbn [goto set_nodes add_taken pushed taken s started].
    + rewrite (inv_account _ _ _ L), fmap_app, <- (assoc_L app). done.
    + rewrite called_app, writes_app, <- (inv_file _ _ _ L), called_cons by done. unfold writes. cbn. by rewrite E.
    + intros u. rewrite (inv_threads _ _ _ L). f_equal.
      symmetry. by apply (pending_holder w q ((p, data n) :: h')); [|rewrite Ht| |].
    + apply lost_more; [by repeat constructor|apply L].
Qed.

Lemma inv_throw w q h t p n s' :
  mem_inv w q h → log_inv w q h → pc_of w t = Work (Some p) → nodes w !! p = Some n →
  on_trace (s w) (data n) = (s', false) →
  inv (goto t Unwind (add_taken s' ((data n, Threw) ::
         ((λ d, (d, Lost)) <$> walk (size (nodes w)) (nodes w) (next n))) w)).
Proof.
  intros I L Ht Hn E. destruct (hand_work _ _ _ _ _ _ I Ht Hn) as (h' & -> & Hh & Hpq & Hph & Hnd).
  rewrite (walk_chain _ _ _ h') by (done || by apply (chain_size _ (next n)); [|apply NoDup_app in Hnd as (_ & _ & ?)]).
  exists q, []. split.
  - assert (mem_inv (goto t Unwind (set_nodes (nodes w) (set_head (head w) w))) q []) as [].
    { eapply (mem_holder w q _ t); try done; [by rewrite Ht|apply I| |].
      - cbn. rewrite app_nil_r. by apply NoDup_app in Hnd as (? & _ & _).
      - intros a. cbn. set_solver. }
    by split.
  - split; cbn [goto add_taken pushed taken s started].
    + rewrite (inv_account _ _ _ L), fmap_app, <- (assoc_L app). cbn. do 3 f_equal.
      rewrite <- list_fmap_compose. cbn. by rewrite list_fmap_id.
    + rewrite called_app, writes_app, <- (inv_file _ _ _ L), called_cons, called_lost by done. unfold writes. cbn. by rewrite E.
    + intros u. rewrite (inv_threads _ _ _ L). f_equal.
      symmetry. by apply (pending_holder w q ((p, data n) :: h') t Unwind (nodes w)); [|rewrite Ht| |].
    + right. exists (s w), (data n). split; [|by rewrite E]. set_solver.
Qed.

(** What [unlock] and the second lock return to a thread that owns the mutex. *)
Lemma unlock_holder w t v n :
  m w = Some (t, S n) → holding v = (match n with O => None | _ => Some n end) →
  holding (pc_of w t) ≠ None → unlock t w = Some (set_m (next_m t v w) w).
Proof.
  intros Hm Hv Ht. unfold unlock, next_m. rewrite Hm, decide_True, Hv by done.
  destruct n; [|done]. by destruct (holding (pc_of w t)).
Qed.

Lemma try_lock_cases t w :
  (∃ n, (m w = None ∧ n = 1 ∨ ∃ k, m w = Some (t, k) ∧ n = S k)%nat ∧ try_lock t w = Some (set_m (Some (t, n)) w)) ∨
  (∃ o k, m w = Some (o, k) ∧ o ≠ t ∧ try_lock t w = None).
Proof.
  unfold try_lock. destruct (m w) as [[o k]|]; [|left; by eauto].
  destruct (decide (o = t)) as [->|]; [left; eauto 8|right; eauto].
Qed.

Lemma inv_try_lock w q h t :
  mem_inv w q h → log_inv w q h → pc_of w t = TryLock →
  inv (match try_lock t w with None => goto t Idle w | Some w => goto t Guard w end).
Proof.
  intros I L Ht. destruct (try_lock_cases t w) as [(n & Hn & ->)|(o & k & Hm & Ho & ->)].
  - assert (m w = None ∧ n = 1%nat) as [Hm ->].
    { destruct Hn as [|(k & Hm & _)]; [done|]. apply (inv_lock _ _ _ I) in Hm. by rewrite Ht in Hm. }
    eapply (inv_goto w q h t Guard); try done; [by rewrite Ht|by left|]. by apply (inv_free _ _ _ I).
  - eapply (inv_move w q h t Idle); try done; by rewrite Ht.
Qed.

Lemma inv_unlock w q h t v n :
  mem_inv w q h → log_inv w q h → holding (pc_of w t) = Some (S n) → pushing (pc_of w t) = false →
  holding v = (match n with O => None | _ => Some n end) → pushing v = false →
  in_hand (nodes w) (pc_of w t) [] → (holding v ≠ None → in_hand (nodes w) v []) → h = [] →
  ∃ w', unlock t w = Some w' ∧ inv (goto t v w').
Proof.
  intros I L Ht Hp Hv Hpv Hh Hhv ->. eexists. split.
  - apply (unlock_holder w t v n); [by apply (holder_m _ _ _ _ _ I)|done|by rewrite Ht].
  - eapply (inv_goto w q [] t v); try done; [by rewrite Ht; right|].
    destruct (holding v); [by apply Hhv|done].
Qed.

(** A step preserves the invariant and is never undefined. *)
Lemma inv_thread_step weak fresh w t :
  inv w → match thread_step weak fresh t w with Next w' => inv w' | Stuck | Terminate => True | Undefined => False end.
Proof.
  intros (q & h & I & L). unfold Trace.thread_step.
  pose proof (inv_hand _ _ _ I t) as Hh. destruct (pc_of w t) as [|d|p| | | | |p|prev p|p|more|] eqn:Ht; [done|..].
  - destruct (decide (nodes w !! fresh = None)) as [Hf|]; [|done]. by apply (inv_push_new w q h).
  - destruct (inv_push _ _ _ I t p Ht) as [[n Hn] _]. rewrite Hn.
    destruct (bool_decide (head w = next n)) eqn:E; [|by apply (inv_push_retry w q h t p n)].
    apply bool_decide_eq_true in E. destruct weak; [by apply (inv_push_retry w q h t p n)|].
    by apply (inv_push_done w q h t p n).
  - pose proof (inv_try_lock w q h t I L Ht). by destruct (try_lock t w).
  - specialize (Hh ltac:(done)). cbn in Hh. subst h.
    pose proof (holder_m w q [] t 1 I ltac:(by rewrite Ht)) as Hm.
    unfold relock. destruct (try_lock_cases t w) as [(n & Hn & ->)|(o & k & Hm' & Ho & _)]; [|congruence].
    destruct Hn as [[? _]|(k & Hk & ->)]; [congruence|]. rewrite Hm in Hk. injection Hk as <-. cbn.
    eapply (inv_goto w q [] t Unlock); try done; rewrite Ht; [done|by right].
  - specialize (Hh ltac:(done)). cbn in Hh.
    destruct (inv_unlock w q h t LoadHead 1 I L) as (w' & -> & Hw'); try done; by rewrite ?Ht.
  - specialize (Hh ltac:(done)). eapply (inv_move w q h t); try done; by rewrite Ht.
  - specialize (Hh ltac:(done)). cbn in Hh. destruct p as [p|]; [|eapply (inv_move w q h t); try done; by rewrite Ht].
    destruct (bool_decide (head w = Some p)) eqn:E; [|eapply (inv_move w q h t); try done; by rewrite Ht].
    apply bool_decide_eq_true in E. destruct weak; [eapply (inv_move w q h t); try done; by rewrite Ht|].
    by apply (inv_take w q h t p).
  - specialize (Hh ltac:(done)). destruct p as [p|].
    + destruct Hh as (l & r & Hl & Hr & ->). pose proof (chain_Some _ _ _ Hl) as (d & k & l' & -> & Hp & _).
      rewrite Hp. by apply (inv_reverse w q (reverse ((p, d) :: l') ++ r) t prev p).
    + destruct Hh as (l & r & ->%chain_None & Hr & ->). eapply (inv_move w q _ t); try done; by rewrite Ht.
  - specialize (Hh ltac:(done)). destruct p as [p|].
    + pose proof (chain_Some _ _ _ Hh) as (d & k & l' & -> & Hp & _). rewrite Hp.
      destruct (on_trace (s w) _) as [s' []] eqn:E;
        [by apply (inv_work w q ((p, d) :: l') t p)|destruct (closing w); [done|]; by apply (inv_throw w q ((p, d) :: l') t p)].
    + apply chain_None in Hh as ->. eapply (inv_move w q [] t); try done; by rewrite Ht.
  - specialize (Hh ltac:(done)). cbn in Hh.
    destruct (inv_unlock w q h t (if more then TryLock else Idle) 0 I L) as (w' & -> & Hw'); rewrite ?Ht; try done; by destruct more.
  - specialize (Hh ltac:(done)). cbn in Hh.
    destruct (inv_unlock w q h t Idle 0 I L) as (w' & -> & Hw'); rewrite ?Ht; try done.
Qed.

Lemma inv_start w q h t d :
  mem_inv w q h → log_inv w q h → pc_of w t = Idle → inv (goto t (PushNew d) (add_started (t, d) w)).
Proof.
  intros I L Ht. exists q, h. split.
  - pose proof (mem_goto w q h t (PushNew d) I ltac:(done) ltac:(done) ltac:(cbn; rewrite Ht; intros H; by destruct H)) as Hm.
    unfold next_m in Hm. rewrite Ht in Hm. cbn in Hm. rewrite set_m_same in Hm. destruct Hm. by split.
  - split; try apply L. intros u. cbn [goto add_started started pushed].
    rewrite of_thread_app, of_thread_one, (inv_threads _ _ _ L), <- (assoc_L app). f_equal.
    unfold pending. rewrite pc_of_goto. change (pc_of (add_started _ w) u) with (pc_of w u).
    destruct (decide (t = u)) as [->|]; [by rewrite Ht|]. cbn. by rewrite app_nil_r.
Qed.

Lemma inv_step w w' : inv w → step on_trace w w' → inv w'.
Proof.
  intros (q & h & I & L) Hs. destruct Hs as [w t d Ht _|w t Hw _|w w' t weak fresh E].
  - by apply (inv_start w q h).
  - assert (inv (goto t TryLock w)) as (q' & h' & I' & L')
      by (apply (inv_move w q h t TryLock); rewrite ?(Hw t); done).
    exists q', h'. split; [destruct I'|destruct L']; by split.
  - pose proof (inv_thread_step weak fresh w t ltac:(by exists q, h)) as Hi. by rewrite E in Hi.
Qed.

Lemma reachable_inv w : reachable on_trace init w → inv w.
Proof. induction 1; [apply inv_init|eauto using inv_step]. Qed.
End inv.
