(* ===== verification/TraceTheorems.v ===== *)
(** * What a trace file holds *)
From S2P Require Import Prelude CborEncode Ieee CborDecode CborGrammar CborMatch CborMatchSpec CppText CborJson JsonSpec Trace TraceInv.

(** ** Runs *)

Inductive act : Type :=
| APush (t : tid) (d : bytes)
| ADestroy (t : tid)
| AStep (t : tid) (weak : bool) (fresh : addr).

#[export] Instance pc_eq_dec : EqDecision pc.
Proof. solve_decision. Defined.

Section runs.
Context (on_trace : bytes → bytes → bytes * bool).

Definition idle_now (w : world) : bool := bool_decide (map_Forall (λ _ p, p = Idle) (threads w)).

Lemma idle_now_spec w : idle_now w = true → all_idle w.
Proof.
  intros H%bool_decide_eq_true t. unfold pc_of. destruct (threads w !! t) as [p|] eqn:E; [|done].
  exact (H t p E).
Qed.

Definition do_act (a : act) (w : world) : option world :=
  match a with
  | APush t d =>
      if decide (pc_of w t = Idle ∧ closing w = false)
      then Some (goto t (PushNew d) (add_started (t, d) w)) else None
  | ADestroy t => if idle_now w && negb (closing w) then Some (goto t TryLock (set_closing w)) else None
  | AStep t weak fresh => match thread_step on_trace weak fresh t w with Next w => Some w | _ => None end
  end.

Fixpoint acts (l : list act) (w : world) : option world :=
  match l with [] => Some w | a :: l => match do_act a w with Some w => acts l w | None => None end end.

Lemma acts_reachable init l : ∀ w w', reachable on_trace init w → acts l w = Some w' → reachable on_trace init w'.
Proof.
  induction l as [|a l IH]; intros w w' Hr E; cbn in E; [by injection E as <-|].
  destruct (do_act a w) as [w1|] eqn:Ea; [|done]. apply (IH w1); [|done].
  eapply reachable_step; [exact Hr|]. destruct a as [t d|t|t weak fresh]; cbn in Ea.
  - destruct (decide _) as [[]|]; simplify_eq. by constructor.
  - destruct (idle_now w && negb (closing w)) eqn:Ei; simplify_eq.
    apply andb_true_iff in Ei as [Ei Ec%negb_true_iff]. constructor; [by apply idle_now_spec|done].
  - destruct (thread_step _ _ _ _ _) eqn:Et; simplify_eq. by eapply step_thread.
Qed.
End runs.

(** [n] steps of thread [t]; its node is at address [p]. *)
Definition steps (n : nat) (t : tid) (p : addr) : list act := replicate n (AStep t false p).

Definition msg_a : bytes := cbor_array [AString (str "a")].
Definition msg_b : bytes := cbor_array [AString (str "b")].

Section theorems.
Context (on_trace : bytes → bytes → bytes * bool) (init : bytes).
Implicit Types (w : world) (t u : tid).
Abbreviation reachable := (reachable on_trace init).
Abbreviation thread_step := (thread_step on_trace).
Abbreviation writes := (writes on_trace).

(** ** The destructor *)

(** A step of one thread leaves the others where they are. *)
Lemma thread_step_frame weak fresh t w w' u :
  thread_step weak fresh t w = Next w' → t ≠ u → pc_of w' u = pc_of w u.
Proof.
  intros E Htu. unfold Trace.thread_step, or_undefined, relock, try_lock, unlock in E.
  repeat case_match; simplify_eq; rewrite ?pc_of_goto, ?decide_False by done; done.
Qed.

(** [on_trace] returns whatever the stream, for all these messages. *)
Definition returns_on (l : list bytes) : Prop := ∀ s d, d ∈ l → (on_trace s d).2 = true.

(** Once the destructor has begun, one thread works the list off to its end. *)
Definition closing_at (w : world) (p : pc) : Prop :=
  match p with
  | PushNew _ | PushCas _ => False
  | Idle | Return false | Take None => head w = None
  | Unwind => False
  | _ => True
  end.

Definition closing_inv (w : world) : Prop :=
  closing w = true → ∃ t, (∀ u, u ≠ t → pc_of w u = Idle) ∧ closing_at w (pc_of w t).

Lemma closing_thread weak fresh t w w' :
  inv on_trace init w → closing w = true → thread_step weak fresh t w = Next w' →
  (∀ u, u ≠ t → pc_of w u = Idle) → closing_at w (pc_of w t) → closing_at w' (pc_of w' t).
Proof.
  intros (q & h & I & L) Hcl E Hothers Hc. unfold Trace.thread_step, or_undefined, relock in E.
  destruct (pc_of w t) as [|d|p| | | | |p|prev p|p|more|] eqn:Ht; try done; cbn [closing_at] in Hc.
  - destruct (try_lock_cases t w) as [(n & _ & Et)|(o & k & Hm & Ho & _)].
    + rewrite Et in E. injection E as <-. by rewrite pc_of_goto, decide_True.
    + apply (inv_lock _ _ _ I) in Hm. by rewrite Hothers in Hm.
  - destruct (try_lock t w); simplify_eq. by rewrite pc_of_goto, decide_True.
  - destruct (unlock t w); simplify_eq. by rewrite pc_of_goto, decide_True.
  - injection E as <-. rewrite pc_of_goto, decide_True by done. cbn. destruct (head w) eqn:Eh; done.
  - destruct p as [p|]; [|injection E as <-; by rewrite pc_of_goto, decide_True].
    destruct (_ && _); injection E as <-; rewrite pc_of_goto, decide_True by done; [done|].
    cbn. destruct (head w) eqn:Eh; done.
  - destruct p as [p|]; [|injection E as <-; by rewrite pc_of_goto, decide_True].
    destruct (nodes w !! p); simplify_eq. by rewrite pc_of_goto, decide_True.
  - destruct p as [p|]; [|injection E as <-; by rewrite pc_of_goto, decide_True].
    destruct (nodes w !! p) as [n|] eqn:En; simplify_eq.
    rewrite Hcl in E. destruct (on_trace _ _) as [s' []]; [|done]. injection E as <-.
    by rewrite pc_of_goto, decide_True.
  - destruct (unlock t w) as [v|] eqn:Eu; [|done]. injection E as <-. rewrite pc_of_goto, decide_True by done.
    unfold unlock in Eu. destruct more; [done|]. repeat case_match; by simplify_eq.
Qed.

Lemma reachable_closing w : reachable w → closing_inv w.
Proof.
  induction 1 as [|w w' Hr IH Hs]; [done|].
  destruct Hs as [w t d Ht Hc|w t Hw Hc|w w' t weak fresh E].
  - unfold closing_inv. cbn. congruence.
  - intros _. exists t. rewrite pc_of_goto, decide_True by done. split; [|done].
    intros u Hu. rewrite pc_of_goto, decide_False by done. apply Hw.
  - intros Hc. assert (closing w = true) as Hc'.
    { rewrite <- Hc. clear -E. unfold Trace.thread_step, or_undefined, relock, try_lock, unlock in E.
      repeat case_match; by simplify_eq. }
    destruct (IH Hc') as (v & Hothers & Hv). destruct (decide (t = v)) as [->|Htv].
    + exists v. split; [|by eapply closing_thread; eauto using reachable_inv].
      intros u Hu. rewrite (thread_step_frame _ _ _ _ _ _ E) by done. auto.
    + unfold Trace.thread_step in E. by rewrite Hothers in E.
Qed.

(** ** Order *)

Lemma pushed_started w d : inv on_trace init w → d ∈ (pushed w).*2 → d ∈ (started w).*2.
Proof.
  intros (q & h & I & L) Hd. apply list_elem_of_fmap in Hd as ([t d'] & -> & Hd).
  assert (d' ∈ of_thread t (started w)) as Hin.
  { rewrite (inv_threads _ _ _ _ _ L). apply elem_of_app. left. apply list_elem_of_fmap.
    exists (t, d'). split; [done|]. by apply list_elem_of_filter. }
  apply list_elem_of_fmap in Hin as ([t' d''] & Hd'' & Hin). apply list_elem_of_filter in Hin as [_ Hin].
  apply list_elem_of_fmap. by exists (t', d'').
Qed.

Lemma returned_called l : all_returned l → called l = l.*1.
Proof.
  induction 1 as [|[d b] l Hb Hl IH]; [done|]. cbn in Hb. subst b. by rewrite called_cons, IH.
Qed.

Lemma returned_marks l : all_returned l → l = (λ d, (d, Returned)) <$> l.*1.
Proof. induction 1 as [|[d b] l Hb Hl IH]; [done|]. cbn in *. by rewrite Hb, <- IH. Qed.

(** Where [on_trace] returns for what was pushed, nothing was lost. *)
Lemma reachable_returned w : reachable w → returns_on (pushed w).*2 → all_returned (taken w).
Proof.
  intros (q & h & I & L)%reachable_inv Hok. destruct (inv_lost _ _ _ _ _ L) as [Hl|(a & d & Hd & He)]; [done|].
  rewrite Hok in He; [done|]. rewrite (inv_account _ _ _ _ _ L). apply elem_of_app. left.
  apply list_elem_of_fmap. by exists (d, Threw).
Qed.

Lemma idle_empty w :
  reachable w → all_idle w → head w = None → (pushed w).*2 = (taken w).*1.
Proof.
  intros (q & h & I & L)%reachable_inv Hw Hh. pose proof (inv_queue _ _ _ I) as Hq. rewrite Hh in Hq.
  apply chain_None in Hq as ->. rewrite (inv_account _ _ _ _ _ L). destruct (m w) as [[t n]|] eqn:Em.
  - apply (inv_lock _ _ _ I) in Em. by rewrite Hw in Em.
  - rewrite (inv_free _ _ _ I Em). by rewrite app_nil_r.
Qed.

(** When the destructor is done the list is empty. *)
Lemma closed_empty w : reachable w → closing w = true → all_idle w → (pushed w).*2 = (taken w).*1.
Proof.
  intros Hr Hc Hw. destruct (reachable_closing w Hr Hc) as (t & _ & Ht). rewrite (Hw t) in Ht. by apply idle_empty.
Qed.

Lemma thread_order w t : reachable w → of_thread t (pushed w) `prefix_of` of_thread t (started w).
Proof. intros (q & h & I & L)%reachable_inv. rewrite (inv_threads _ _ _ _ _ L). by apply prefix_app_r. Qed.

(** The order of the messages, the file, and the end of the destructor, where
    [on_trace] always returns. *)
Lemma trace_order w :
  reachable w → returns_on (started w).*2 →
  ∃ l rest, (pushed w).*2 = l ++ rest ∧ s w = writes init l ∧
    (∀ t, of_thread t (pushed w) `prefix_of` of_thread t (started w)) ∧
    (closing w = true → all_idle w → rest = []).
Proof.
  intros Hr Hok. pose proof (reachable_inv _ _ _ Hr) as Hi.
  assert (all_returned (taken w)) as Hl.
  { apply reachable_returned; [done|]. intros a d Hd. apply Hok. by apply pushed_started. }
  pose proof Hi as (q & h & I & L). exists (taken w).*1, (h.*2 ++ reverse q.*2). split_and!.
  - apply L.
  - by rewrite (inv_file _ _ _ _ _ L), returned_called.
  - intros t. by apply thread_order.
  - intros Hc Hw. apply (app_inv_head (taken w).*1). by rewrite app_nil_r, <- (inv_account _ _ _ _ _ L), closed_empty.
Qed.

(** C18: the trace file is linearizable.  Whatever the interleaving of the threads,
    the failures of weak compare-and-exchanges and the addresses that are used
    again, the pushed messages have one order, in which each thread's messages are
    in the order it traced them.  The messages that were taken off the list are a
    first part of them, each once, and the file holds what [on_trace] wrote for those
    it was called with.  [on_trace] may throw: then the rest of what the thread had
    taken is lost; and unless [on_trace] has thrown on a message, it was called with
    every message taken and has returned.  When the destructor is done (an exception
    ends the program there) every message has been taken. *)
Theorem trace_in_order w :
  reachable w →
  (∀ t, of_thread t (pushed w) `prefix_of` of_thread t (started w)) ∧
  (taken w).*1 `prefix_of` (pushed w).*2 ∧ s w = writes init (called (taken w)) ∧
  (called (taken w) = (taken w).*1 ∧ all_returned (taken w) ∨ threw on_trace (taken w)) ∧
  (closing w = true → all_idle w → (taken w).*1 = (pushed w).*2).
Proof.
  intros Hr. pose proof (reachable_inv _ _ _ Hr) as (q & h & I & L). split_and!.
  - intros t. by apply thread_order.
  - rewrite (inv_account _ _ _ _ _ L). by apply prefix_app_r.
  - apply L.
  - destruct (inv_lost _ _ _ _ _ L) as [Hl|]; [left|by right]. by rewrite returned_called.
  - intros Hc Hw. by rewrite closed_empty.
Qed.

(** C25: no thread follows a pointer to a node that was deleted or never existed,
    or unlocks the mutex out of turn, although addresses are used again between
    a load of [head] and the compare-and-exchange behind it; and only one thread
    at a time is between [try_lock] and the end of [do_work]. *)
Theorem trace_defined w weak fresh t :
  reachable w → thread_step weak fresh t w ≠ Undefined ∧
  (∀ u, holding (pc_of w t) ≠ None → holding (pc_of w u) ≠ None → t = u).
Proof.
  intros Hi%reachable_inv. split.
  - intros E. pose proof (inv_thread_step _ _ weak fresh w t Hi) as H. by rewrite E in H.
  - intros u Ht Hu. destruct Hi as (q & h & I & _).
    destruct (holding (pc_of w t)) eqn:Et, (holding (pc_of w u)) eqn:Eu; try done. by eapply holders.
Qed.

(** ** One thread at a time *)

(** A thread runs alone, and its compare-and-exchanges do not fail for no reason. *)
Definition alone (t : tid) (w w' : world) : Prop := ∃ fresh, thread_step false fresh t w = Next w'.

Lemma alone_reachable t w w' : reachable w → rtc (alone t) w w' → reachable w'.
Proof.
  intros Hr Hs. induction Hs as [|w1 w2 w3 [fresh E] _ IH]; [done|].
  apply IH. eapply reachable_step; [done|]. by eapply step_thread.
Qed.

Lemma alone_others t w w' u : rtc (alone t) w w' → u ≠ t → pc_of w' u = pc_of w u.
Proof.
  intros Hs Hu. induction Hs as [|w1 w2 w3 [fresh E] _ IH]; [done|].
  by rewrite IH, (thread_step_frame _ _ _ _ _ _ E).
Qed.

(** [t] alone goes from [w] to a world with the same list and the same pushes. *)
Definition gets_to (t : tid) (w : world) (P : world → Prop) : Prop :=
  ∃ w', rtc (alone t) w w' ∧ head w' = head w ∧ pushed w' = pushed w ∧ P w'.

Lemma gets_to_here t w (P : world → Prop) : P w → gets_to t w P.
Proof. intros HP. by exists w. Qed.

Lemma gets_to_step t w w1 P fresh :
  thread_step false fresh t w = Next w1 → head w1 = head w → pushed w1 = pushed w →
  gets_to t w1 P → gets_to t w P.
Proof.
  intros E Eh Ep (w' & Hs & Eh' & Ep' & HP). exists w'. split_and!; [|congruence..|done].
  eapply rtc_l; [|done]. by exists fresh.
Qed.

Lemma gets_to_trans t w (P Q : world → Prop) :
  gets_to t w P → (∀ w', head w' = head w → pushed w' = pushed w → P w' → gets_to t w' Q) → gets_to t w Q.
Proof.
  intros (w1 & Hs & Eh & Ep & HP) Hk. destruct (Hk w1 Eh Ep HP) as (w2 & Hs2 & Eh2 & Ep2 & HQ).
  exists w2. split_and!; [by etrans|congruence..|done].
Qed.

Ltac alone_step := unfold Trace.thread_step; rewrite ?pc_of_goto, ?decide_True by done.

Lemma gets_to_goto t w v (P : world → Prop) fresh :
  thread_step false fresh t w = Next (goto t v w) → gets_to t (goto t v w) P → gets_to t w P.
Proof. intros E HP. by apply (gets_to_step t w (goto t v w) P fresh). Qed.

Lemma alone_reverse t l : ∀ w prev p,
  pc_of w t = Reverse prev p → chain (nodes w) p l → NoDup l.*1 →
  gets_to t w (λ w', ∃ p', pc_of w' t = Work p').
Proof.
  induction l as [|[a d] l IH]; intros w prev p Ht Hc Hnd.
  - cbn in Hc. subst p. apply (gets_to_goto _ _ (Work prev) _ O); [alone_step; by rewrite Ht|].
    apply gets_to_here. exists prev. by rewrite pc_of_goto, decide_True.
  - destruct Hc as (-> & n & Hn & Hc). apply NoDup_cons in Hnd as [Ha Hnd].
    eapply (gets_to_step _ _ _ _ O); [alone_step; rewrite Ht, Hn; done|done..|].
    eapply (IH _ (Some a) n); [by rewrite pc_of_goto, decide_True| |done]. cbn. by apply chain_insert.
Qed.

Lemma alone_work t h : ∀ w p,
  pc_of w t = Work p → chain (nodes w) p h → NoDup h.*1 → returns_on h.*2 →
  gets_to t w (λ w', pc_of w' t = Return true).
Proof.
  induction h as [|[a d] h IH]; intros w p Ht Hc Hnd Hok.
  - cbn in Hc. subst p. apply (gets_to_goto _ _ (Return true) _ O); [alone_step; by rewrite Ht|].
    apply gets_to_here. by rewrite pc_of_goto, decide_True.
  - destruct Hc as (-> & n & Hn & Hc). apply NoDup_cons in Hnd as [Ha Hnd].
    pose proof (Hok (s w) d ltac:(set_solver)) as E. destruct (on_trace (s w) d) as [s' b] eqn:Eo. cbn in E. subst b.
    eapply (gets_to_step _ _ _ _ O); [alone_step; rewrite Ht, Hn; cbn; rewrite Eo; done|done..|].
    eapply (IH _ n); [by rewrite pc_of_goto, decide_True| |done|]; [cbn; by apply chain_delete|].
    intros s0 d0 Hd0. apply Hok. set_solver.
Qed.

(** The others are outside and [t] is at [v]. *)
Definition only (t : tid) (v : pc) (w : world) : Prop :=
  reachable w ∧ pc_of w t = v ∧ ∀ u, u ≠ t → pc_of w u = Idle.

Lemma only_gets_to t v w (P : world → Prop) :
  only t v w → gets_to t w P → gets_to t w (λ w', P w' ∧ only t (pc_of w' t) w').
Proof.
  intros (Hr & _ & Hu) (w' & Hs & Eh & Ep & HP). exists w'. split_and!; [done..|].
  split_and!; [by eapply alone_reachable|done|]. intros u Hne.
  rewrite (alone_others _ _ _ _ Hs) by done. auto.
Qed.

Lemma only_step t v v' w w' fresh :
  only t v w → thread_step false fresh t w = Next w' → pc_of w' t = v' → only t v' w'.
Proof.
  intros (Hr & Ht & Hu) E Ht'. split_and!; [|done|].
  - eapply reachable_step; [done|]. by eapply step_thread.
  - intros u Hne. rewrite (thread_step_frame _ _ _ _ _ _ E) by done. auto.
Qed.

Lemma only_m t v w : only t v w → m w = match holding v with Some n => Some (t, n) | None => None end.
Proof.
  intros ((q & h & I & _)%reachable_inv & Ht & Hu). destruct (holding v) as [n|] eqn:E.
  - apply (holder_m _ _ _ _ _ I). by rewrite Ht.
  - destruct (m w) as [[o n]|] eqn:Em; [|done]. apply (inv_lock _ _ _ I) in Em.
    destruct (decide (o = t)) as [->|]; [congruence|]. by rewrite Hu in Em.
Qed.

(** The next step of [t], which does not touch the list. *)
Definition next_at (t : tid) (v' : pc) (w : world) : Prop :=
  ∃ w', thread_step false O t w = Next w' ∧ pc_of w' t = v' ∧ head w' = head w ∧ pushed w' = pushed w.

Lemma only_next t v v' w P :
  only t v w → next_at t v' w →
  (∀ w', head w' = head w → pushed w' = pushed w → only t v' w' → gets_to t w' P) → gets_to t w P.
Proof.
  intros Hw (w' & E & Ht & Eh & Ep) Hk. eapply gets_to_step; [done..|]. apply Hk; [done..|].
  by eapply only_step.
Qed.

(** What the next step is where it does not depend on the nodes. *)
Definition next_pc (hd : option addr) (v : pc) : option pc :=
  match v with
  | TryLock => Some Guard
  | Guard => Some Unlock
  | Unlock => Some LoadHead
  | LoadHead => Some (Take hd)
  | Take None => Some (Return false)
  | Return more => Some (if more then TryLock else Idle)
  | Unwind => Some Idle
  | _ => None
  end.

Lemma only_next_pc t v v' w : only t v w → next_pc (head w) v = Some v' → next_at t v' w.
Proof.
  intros Hw Hv. pose proof (only_m _ _ _ Hw) as Hm. destruct Hw as (_ & Ht & _).
  unfold next_at, Trace.thread_step. rewrite Ht.
  destruct v as [| | | | | | |[p|]| | | |]; cbn in Hv; try done; injection Hv as <-;
    unfold relock, try_lock, unlock; rewrite ?Hm; cbn [holding or_undefined];
    rewrite ?decide_True by done; cbn [or_undefined]; eexists;
    (split; [reflexivity|]); by rewrite pc_of_goto, decide_True.
Qed.

Ltac only_go H := eapply only_next; [exact H|by eapply only_next_pc; [exact H|reflexivity]|];
  let w := fresh "w" in let Eh := fresh "Eh" in let Ep := fresh "Ep" in let H' := fresh "H" in
  intros w Eh Ep H'; cbn [next_pc] in H'.

Lemma alone_finish t w : only t (Return false) w → gets_to t w all_idle.
Proof.
  intros H. only_go H. apply gets_to_here; intros u; destruct H0 as (_ & Ht & Hu);
    destruct (decide (u = t)) as [->|]; auto.
Qed.

Lemma alone_to_take t w : only t TryLock w → gets_to t w (only t (Take (head w))).
Proof.
  intros H. only_go H. only_go H0. only_go H1. only_go H2. apply gets_to_here.
  by rewrite <- Eh, <- Eh0, <- Eh1.
Qed.

(** With nothing on the list a thread finds nothing to do. *)
Lemma alone_empty t w : only t TryLock w → head w = None → gets_to t w all_idle.
Proof.
  intros H Hh. eapply gets_to_trans; [by apply alone_to_take|]. intros w' _ _ H'. rewrite Hh in H'.
  only_go H'. by apply alone_finish.
Qed.

(** What a thread has taken it handles. *)
Lemma alone_taken t w prev p :
  only t (Reverse prev p) w → head w = None → returns_on (pushed w).*2 → gets_to t w all_idle.
Proof.
  intros H Hh Hok. eapply gets_to_trans.
  { apply (only_gets_to t _ w (λ w', ∃ p', pc_of w' t = Work p') H). destruct H as ((q & h & I & _)%reachable_inv & Ht & _).
    pose proof (inv_hand _ _ _ I t ltac:(by rewrite Ht)) as Hin. rewrite Ht in Hin.
    destruct Hin as (l & r & Hl & _ & ->). eapply (alone_reverse t l); [done..|].
    pose proof (inv_disjoint _ _ _ I) as Hnd. apply NoDup_app in Hnd as (_ & _ & Hnd).
    rewrite fmap_app, fmap_reverse in Hnd. apply NoDup_app in Hnd as (Hnd & _). by rewrite reverse_Permutation in Hnd. }
  intros w1 Eh1 Epu [[p1 Ep1] H1]. rewrite Ep1 in H1. eapply gets_to_trans.
  { apply (only_gets_to t _ w1 (λ w', pc_of w' t = Return true) H1). destruct H1 as ((q & h & I & L)%reachable_inv & Ht & _).
    pose proof (inv_hand _ _ _ I t ltac:(by rewrite Ht)) as Hin. rewrite Ht in Hin.
    eapply (alone_work t h); [done..| |].
    - pose proof (inv_disjoint _ _ _ I) as Hnd. by apply NoDup_app in Hnd as (_ & _ & Hnd).
    - intros s0 d0 Hd0. apply Hok. rewrite <- Epu, (inv_account _ _ _ _ _ L). set_solver. }
  intros w2 Eh2 _ [Ew H2]. rewrite Ew in H2.
  only_go H2. apply alone_empty; [done|congruence].
Qed.

(** A thread that is alone works the list off. *)
Lemma alone_drains t w :
  only t TryLock w → returns_on (pushed w).*2 →
  ∃ w', rtc (alone t) w w' ∧ all_idle w' ∧ head w' = None ∧ pushed w' = pushed w.
Proof.
  intros H Hok. destruct (head w) as [p|] eqn:Eh.
  - destruct (alone_to_take t w H) as (w1 & Hs1 & Eh1 & Ep1 & H1). rewrite Eh in H1.
    assert (thread_step false O t w1 = Next (goto t (Reverse None (Some p)) (set_head None w1))) as E.
    { alone_step. rewrite (proj1 (proj2 H1)). by rewrite bool_decide_true by congruence. }
    pose proof (only_step _ _ (Reverse None (Some p)) _ _ _ H1 E ltac:(by rewrite pc_of_goto, decide_True)) as H2.
    destruct (alone_taken t _ _ _ H2 eq_refl ltac:(cbn; by rewrite Ep1)) as (w3 & Hs3 & Eh3 & Ep3 & Hw3).
    exists w3. split_and!; [|done|done|].
    + etrans; [exact Hs1|]. eapply rtc_l; [by exists O|done].
    + by rewrite Ep3, <- Ep1.
  - destruct (alone_empty t w H Eh) as (w' & Hs & Eh' & Ep & Hw'). exists w'. split_and!; congruence || done.
Qed.

(** C26: where [on_trace] returns for every message, a thread that traces a message
    while the others are outside comes back from [push], and then [on_trace] has been
    called and has returned for every message that was ever pushed, once and in
    order, its own last: also for those that other threads left on the list because
    the mutex was taken; and the file holds what it wrote for them.  (Where
    [on_trace] throws, [push] throws.) *)
Theorem trace_push_drains w t d :
  reachable w → all_idle w → closing w = false → returns_on ((pushed w).*2 ++ [d]) →
  ∃ w', rtc (alone t) (goto t (PushNew d) (add_started (t, d) w)) w' ∧ all_idle w' ∧
    pushed w' = pushed w ++ [(t, d)] ∧
    taken w' = (λ d, (d, Returned)) <$> ((pushed w).*2 ++ [d]) ∧
    s w' = writes init ((pushed w).*2 ++ [d]).
Proof.
  intros Hr Hw Hc Hok. set (w0 := goto t (PushNew d) (add_started (t, d) w)).
  assert (only t (PushNew d) w0) as H0.
  { split_and!; [eapply reachable_step; [done|apply step_push; [apply Hw|done]]|unfold w0; by rewrite pc_of_goto, decide_True|].
    intros u Hu. unfold w0. rewrite pc_of_goto, decide_False by done. apply Hw. }
  destruct (exist_fresh (dom (nodes w))) as [p Hp]. apply not_elem_of_dom in Hp.
  assert (thread_step false p t w0 = Next (goto t (PushCas p) (set_nodes (<[p := Node d (head w)]> (nodes w)) w0))) as E0.
  { unfold w0. alone_step. done. }
  set (w1 := goto t (PushCas p) _) in E0.
  assert (thread_step false O t w1 = Next (goto t TryLock (add_pushed (t, d) (set_head (Some p) w1)))) as E1.
  { unfold w1. alone_step. cbn. rewrite lookup_insert_eq. cbn. by rewrite bool_decide_true. }
  set (w2 := goto t TryLock _) in E1.
  assert (only t TryLock w2) as H2.
  { eapply (only_step t (PushCas p)); [eapply (only_step t (PushNew d)); [done..|]|done|];
      unfold w2, w1; by rewrite pc_of_goto, decide_True. }
  assert ((pushed w2).*2 = (pushed w).*2 ++ [d]) as Ep2 by by cbn; rewrite fmap_app.
  destruct (alone_drains t w2 H2) as (w3 & Hs & Hw3 & Hh3 & Ep3); [by rewrite Ep2|].
  assert (reachable w3) as Hr3 by by eapply alone_reachable; [apply H2|].
  assert (all_returned (taken w3)) as Hret by by apply reachable_returned; [|rewrite Ep3, Ep2].
  assert ((taken w3).*1 = (pushed w).*2 ++ [d]) as Ht3 by by rewrite <- idle_empty, Ep3, Ep2.
  exists w3. split_and!; [|done|done|by rewrite <- Ht3; apply returned_marks|].
  - eapply rtc_l; [by exists p|]. eapply rtc_l; [by exists O|done].
  - pose proof (reachable_inv _ _ _ Hr3) as (q & h & I & L). by rewrite (inv_file _ _ _ _ _ L), returned_called, Ht3.
Qed.
End theorems.

(** ** Witnesses *)

(** Two threads trace one message each, the second while the first works; then
    the file is destroyed. *)
Definition two_run : list act :=
  APush 1 msg_a :: steps 5 1 5 ++ APush 2 msg_b :: steps 3 2 6 ++ steps 15 1 0 ++ ADestroy 3 :: steps 6 3 0.

Lemma trace_in_order_witness :
  ∃ w, acts cbor_on_trace two_run cbor_file = Some w ∧ started w = [(1%nat, msg_a); (2%nat, msg_b)] ∧
  (∀ t, of_thread t (pushed w) `prefix_of` of_thread t (started w)) ∧
  (taken w).*1 `prefix_of` (pushed w).*2 ∧ s w = writes cbor_on_trace [] (called (taken w)) ∧
  (called (taken w) = (taken w).*1 ∧ all_returned (taken w) ∨ threw cbor_on_trace (taken w)) ∧
  (closing w = true → all_idle w → (taken w).*1 = (pushed w).*2).
Proof.
  eexists. split; [vm_compute; reflexivity|]. split; [reflexivity|].
  apply (trace_in_order cbor_on_trace []).
  eapply (acts_reachable _ _ two_run cbor_file); [apply reachable_init|vm_compute; reflexivity].
Defined.

Lemma trace_defined_witness :
  ∃ w, acts cbor_on_trace (take 9 two_run) cbor_file = Some w ∧
  (thread_step cbor_on_trace false 0 1 w ≠ Undefined ∧
   (∀ u, holding (pc_of w 1) ≠ None → holding (pc_of w u) ≠ None → 1%nat = u)).
Proof.
  eexists. split; [vm_compute; reflexivity|]. apply (trace_defined cbor_on_trace []).
  eapply (acts_reachable _ _ (take 9 two_run) cbor_file); [apply reachable_init|vm_compute; reflexivity].
Defined.

Lemma trace_push_drains_witness :
  ∃ w', rtc (alone cbor_on_trace 1) (goto 1 (PushNew msg_a) (add_started (1%nat, msg_a) cbor_file)) w' ∧ all_idle w' ∧
    pushed w' = [] ++ [(1%nat, msg_a)] ∧ taken w' = [(msg_a, Returned)] ∧ s w' = writes cbor_on_trace [] [msg_a].
Proof.
  apply (trace_push_drains cbor_on_trace [] cbor_file 1 msg_a); [apply reachable_init| |done..].
  by apply idle_now_spec.
Defined.

(** A file whose handler throws on the first message and has taken two: the second
    message is lost. *)
Example throw_loses_message :
  let on_trace s d := (s ++ d, negb (bool_decide (d = msg_a))) in
  taken <$> acts on_trace (APush 1 msg_a :: steps 2 1 5 ++ APush 2 msg_b :: steps 2 2 6 ++ steps 9 1 0) cbor_file
  = Some [(msg_a, Threw); (msg_b, Lost)].
Proof. vm_compute. reflexivity. Qed.
