(* ===== verification/TraceFiles.v ===== *)
(** * The three kinds of trace files

    What the handlers of [src/src/trace.cpp] make of the messages, composed with
    the order in which [trace_file] hands them over ([TraceTheorems]). *)
From S2P Require Import Prelude CborEncode Ieee CborDecode CborGrammar CborMatch CborMatchSpec CppText CborJson JsonSpec JsonText Trace TraceInv TraceTheorems.

(** ** A message may wait *)

(** Thread 1 has found the list empty and still holds the mutex when thread 2
    pushes. *)
Definition tail_run : list act :=
  APush 1 msg_a :: steps 17 1 5 ++ APush 2 msg_b :: steps 3 2 6 ++ steps 1 1 0.

(** [push] may return with its message on the list: the thread that works it
    off has found it empty but not yet unlocked the mutex, so [try_lock] fails
    and nobody looks again.  The message is written when the next one is traced
    or the file is destroyed. *)
Theorem trace_tail_waits :
  ∃ w, reachable cbor_on_trace [] w ∧ all_idle w ∧ closing w = false ∧
    (pushed w).*2 = [msg_a; msg_b] ∧ s w = msg_a ++ cbor_cr ∧ head w ≠ None.
Proof.
  destruct (acts cbor_on_trace tail_run cbor_file) as [w|] eqn:E; [|by vm_compute in E].
  exists w. split; [eapply acts_reachable; [apply reachable_init|exact E]|].
  vm_compute in E. injection E as <-. split; [by apply idle_now_spec|]. done.
Qed.

(** ** CBOR *)

Definition cr_item : item := IArray W0 [IText W0 [10]].

Lemma cr_item_ok : item_ok cr_item.
Proof. by_decision. Qed.

Lemma cbor_cr_wire : cbor_cr = wire cr_item.
Proof. done. Qed.

Lemma cbor_writes s l :
  writes cbor_on_trace s (wire <$> l) = s ++ wires (l ≫= λ i, [i; cr_item]).
Proof.
  revert s. induction l as [|i l IH]; intros s; [by rewrite app_nil_r|].
  cbn [fmap list_fmap]. unfold writes in *. cbn [foldl cbor_on_trace fst]. rewrite IH.
  cbn [mbind list_bind]. rewrite wires_app. unfold wires. cbn [concat fmap list_fmap].
  by rewrite cbor_cr_wire, app_nil_r, <- !(assoc_L app).
Qed.

(** A reader: value by value, every other one a line end. *)
Fixpoint read_trace (fuel : nat) (b : bytes) : res (list bytes) :=
  match fuel, b with
  | _, [] => Ok []
  | O, _ => Throw out_of_fuel
  | S fuel, _ =>
      rest ← skip_value b;
      rest' ← skip_value rest;
      l ← read_trace fuel rest';
      Ok (take (length b - length rest) b :: l)
  end.

Lemma read_trace_items l : ∀ fuel,
  Forall item_ok l → (length l <= fuel)%nat →
  read_trace fuel (wires (l ≫= λ i, [i; cr_item])) = Ok (wire <$> l).
Proof.
  induction l as [|i l IH]; intros [|fuel] Hl Hf; cbn in Hf; try done; try lia.
  apply Forall_cons in Hl as [Hi Hl]. cbn [mbind list_bind]. rewrite wires_app.
  set (r := wires (l ≫= _)) in *.
  assert (wires [i; cr_item] ++ r = wire i ++ wire cr_item ++ r) as ->
    by (unfold wires; cbn [concat fmap list_fmap]; by rewrite app_nil_r, <- (assoc_L app)).
  assert (bytes_ok r) as Hr.
  { apply wires_items_ok. apply Forall_bind. eapply Forall_impl; [exact Hl|]. intros x Hx.
    apply Forall_cons. split; [done|]. apply Forall_singleton, cr_item_ok. }
  pose proof (wire_nonempty i) as Hne. destruct (wire i ++ wire cr_item ++ r) as [|c b] eqn:E.
  { apply (f_equal length) in E. rewrite length_app in E. cbn in E. lia. }
  cbn [read_trace]. rewrite <- E. rewrite skip_value_complete; [|done|apply Forall_app; split; [by_decision|done]].
  cbn [mbind res_bind]. rewrite skip_value_complete by (done || apply cr_item_ok). cbn [mbind res_bind].
  unfold r. rewrite IH by (done || lia). cbn [mbind res_bind fmap list_fmap]. do 2 f_equal.
  rewrite !length_app, Nat.add_sub. by rewrite take_app_length.
Qed.

(** A message that [array] or a sender put together. *)
Definition is_wire (d : bytes) : Prop := ∃ i, item_ok i ∧ d = wire i.

Lemma wires_of (ds : list bytes) : Forall is_wire ds → ∃ l, Forall item_ok l ∧ ds = wire <$> l.
Proof.
  induction 1 as [|d ds (i & Hi & ->) _ (l & Hl & ->)]; [by exists []|].
  exists (i :: l). split; [by constructor|done].
Qed.

(** C27: a CBOR trace file is at any time a sequence of whole messages, each with
    its line end; a reader that skips from value to value gets back the first
    messages that were pushed, in order, and all of them once the file is
    closed. *)
Theorem cbor_trace_file w :
  reachable cbor_on_trace [] w → Forall is_wire (started w).*2 →
  ∃ l, read_trace (length (s w)) (s w) = Ok l ∧ l `prefix_of` (pushed w).*2 ∧
    (closing w = true → all_idle w → l = (pushed w).*2).
Proof.
  intros Hr Hd. destruct (trace_order cbor_on_trace [] w Hr) as (ds & rest & Hp & Hs & _ & Hc); [done|].
  assert (Forall is_wire ds) as Hds.
  { rewrite Forall_forall in Hd |- *. intros d Hin. apply Hd, (pushed_started cbor_on_trace []).
    - by apply reachable_inv.
    - rewrite Hp. apply elem_of_app. by left. }
  destruct (wires_of ds Hds) as (l & Hl & ->). rewrite cbor_writes in Hs. cbn [app] in Hs.
  exists (wire <$> l). split_and!.
  - rewrite Hs. apply read_trace_items; [done|].
    clear. induction l as [|i l IH]; [done|]. cbn [mbind list_bind]. rewrite wires_app, length_app.
    pose proof (wire_nonempty i). unfold wires at 1. cbn [concat fmap list_fmap length]. rewrite length_app. lia.
  - rewrite Hp. by apply prefix_app_r.
  - intros H1 H2. by rewrite Hp, (Hc H1 H2), app_nil_r.
Qed.

Lemma cbor_trace_file_witness :
  ∃ w, acts cbor_on_trace two_run cbor_file = Some w ∧ (pushed w).*2 = [msg_a; msg_b] ∧
    ∃ l, read_trace (length (s w)) (s w) = Ok l ∧ l `prefix_of` (pushed w).*2 ∧
    (closing w = true → all_idle w → l = (pushed w).*2).
Proof.
  eexists. split; [vm_compute; reflexivity|]. split; [reflexivity|].
  apply cbor_trace_file.
  - eapply (acts_reachable _ _ two_run cbor_file); [apply reachable_init|vm_compute; reflexivity].
  - repeat constructor;
      [exists (IArray W0 [IText W0 (str "a")])|exists (IArray W0 [IText W0 (str "b")])]; (split; [by_decision|done]).
Defined.

(** ** JSON *)

(** A message with a JSON form. *)
Definition is_json_wire (d : bytes) : Prop := ∃ i, item_ok i ∧ printable i ∧ d = wire i.

Lemma json_on_trace_item s i :
  item_ok i → printable i → json_on_trace s (wire i) = (s ++ json_text i ++ [10], true).
Proof.
  intros Hi Hp. unfold json_on_trace, to_json_stream.
  pose proof (to_json_stream_item i Hi Hp (S (length (wire i))) s []) as E. rewrite app_nil_r in E.
  rewrite E by (done || lia). by rewrite <- (assoc_L app).
Qed.

Lemma json_writes l : ∀ s,
  Forall item_ok l → Forall printable l →
  writes json_on_trace s (wire <$> l) = s ++ lines_text (json_text <$> l).
Proof.
  induction l as [|i l IH]; intros s Hl Hp; [by rewrite app_nil_r|].
  apply Forall_cons in Hl as [Hi Hl]. apply Forall_cons in Hp as [Hip Hp].
  cbn [fmap list_fmap]. unfold writes in *. cbn [foldl]. rewrite json_on_trace_item by done. cbn [fst].
  rewrite IH by done. unfold lines_text. cbn [concat fmap list_fmap]. by rewrite <- !(assoc_L app).
Qed.

Lemma json_wires_of (ds : list bytes) :
  Forall is_json_wire ds → ∃ l, Forall item_ok l ∧ Forall printable l ∧ ds = wire <$> l.
Proof.
  induction 1 as [|d ds (i & Hi & Hp & ->) _ (l & Hl & Hpl & ->)]; [by exists []|].
  exists (i :: l). split_and!; [by constructor..|done].
Qed.

Lemma json_returns s d : is_json_wire d → (json_on_trace s d).2 = true.
Proof. intros (i & Hi & Hp & ->). by rewrite json_on_trace_item. Qed.

(** A JSON trace file is at any time a sequence of whole lines, one for each
    of the first messages that were pushed, in order, and for all of them once
    the file is closed; a line is the JSON text of its message, whatever
    control characters the message has in its strings. *)
Theorem json_trace_file w :
  reachable json_on_trace [] w → Forall is_json_wire (started w).*2 →
  ∃ l rest, (pushed w).*2 = (wire <$> l) ++ rest ∧ s w = lines_text (json_text <$> l) ∧
    Forall one_line (json_text <$> l) ∧ (closing w = true → all_idle w → rest = []).
Proof.
  intros Hr Hd. destruct (trace_order json_on_trace [] w Hr) as (ds & rest & Hp & Hs & _ & Hc).
  { intros s d Hin. apply json_returns. rewrite Forall_forall in Hd. auto. }
  assert (Forall is_json_wire ds) as Hds.
  { rewrite Forall_forall in Hd |- *. intros d Hin. apply Hd, (pushed_started json_on_trace []).
    - by apply reachable_inv.
    - rewrite Hp. apply elem_of_app. by left. }
  destruct (json_wires_of ds Hds) as (l & Hl & Hpl & ->). rewrite json_writes in Hs by done.
  exists l, rest. split_and!; [done..| |done]. apply Forall_fmap. eapply Forall_impl; [exact Hl|]. intros i Hi. by apply plain_one_line, json_text_plain.
Qed.

Lemma json_trace_file_witness :
  ∃ w, acts json_on_trace two_run json_file = Some w ∧ closing w = true ∧
    ∃ l rest, (pushed w).*2 = (wire <$> l) ++ rest ∧ s w = lines_text (json_text <$> l) ∧
    Forall one_line (json_text <$> l) ∧ (closing w = true → all_idle w → rest = []).
Proof.
  eexists. split; [vm_compute; reflexivity|]. split; [reflexivity|].
  apply json_trace_file.
  - eapply (acts_reachable _ _ two_run json_file); [apply reachable_init|vm_compute; reflexivity].
  - repeat constructor;
      [exists (IArray W0 [IText W0 (str "a")])|exists (IArray W0 [IText W0 (str "b")])]; (split; [by_decision|done]).
Defined.

(** ** Mermaid *)

(** What [matched] makes of the octets of an item. *)
Lemma matched_item s i ps hit miss :
  item_ok i →
  matched s (wire i) ps hit miss
  = match (l ← array_items i; pats_items pat_item ps l) with
    | Throw _ => (s, false) | Ok None => miss | Ok (Some cs) => hit cs
    end.
Proof.
  intros Hi. unfold matched. pose proof (matches_item ps i [] Hi ltac:(constructor)) as E.
  rewrite app_nil_r in E. by rewrite E.
Qed.

(** [to_mermaid] throws on every message an instance traces and writes
    nothing: it expects the sender in the first place, where [do_trace_raw] puts
    the counters of the executor. *)
Theorem mermaid_rejects_traces s pending_tasks pending_posts a use_count parms l :
  is_u64 pending_tasks → is_u64 pending_posts → is_u64 a → is_s64 use_count →
  Forall arg_ok parms → Forall2 arg_item parms l → len_of parms < 2 ^ 32 →
  to_mermaid s (do_trace_raw pending_tasks pending_posts a use_count parms) = (s, false).
Proof.
  intros H1 H2 H3 H4 Hok Hl Hlen. unfold do_trace_raw, cbor_array.
  set (ps := [AUInt pending_tasks; AUInt pending_posts; AUInt a; AInt use_count] ++ parms).
  assert (Forall arg_ok ps) as Hps by (by do 4 (apply Forall_cons; split; [done|])).
  assert (Forall2 arg_item ps (IUInt (min_width pending_tasks) pending_tasks ::
    IUInt (min_width pending_posts) pending_posts :: IUInt (min_width a) a ::
    (if use_count <? 0 then INInt (min_width (- use_count - 1)) (- use_count - 1)
     else IUInt (min_width use_count) use_count) :: l)) as Hps' by (by do 4 (apply Forall2_cons; split; [done|])).
  assert (len_of ps < 2 ^ 64) as Hlen' by (unfold ps; cbn [app]; rewrite !len_of_cons; lia).
  rewrite (array_wire _ _ _ Hps Hlen' Hps'). cbn [app]. unfold to_mermaid.
  rewrite matched_item by exact (array_items_ok _ _ Hps Hlen' Hps'). done.
Qed.

Lemma mermaid_rejects_traces_witness :
  to_mermaid (str "sequenceDiagram") (do_trace_raw 1 2 3 4 [ACbor (cbor_array [AString (str "PID"); AUInt 7; AString (str "main")]);
    AString (str "run")]) = (str "sequenceDiagram", false).
Proof.
  apply (mermaid_rejects_traces _ 1 2 3 4 _
    [IArray W0 [IText W0 (str "PID"); IUInt W0 7; IText W0 (str "main")]; IText W0 (str "run")]); try by_decision.
  apply Forall2_cons. split; [split; [reflexivity|by_decision]|]. by repeat constructor.
Defined.

(** On the message it expects [to_mermaid] writes an arrow. *)
Lemma mermaid_send s w w1 w2 w3 w4 w5 x y x' y' from to m :
  item_ok (IArray w [IArray w1 [x; y; IText w2 from]; IText w3 (str "send"); IArray w4 [x'; y'; IText w5 to]; m]) →
  printable m → from ≠ [] → (∃ wm l, m = IArray wm l) →
  to_mermaid s (wire (IArray w [IArray w1 [x; y; IText w2 from]; IText w3 (str "send"); IArray w4 [x'; y'; IText w5 to]; m]))
  = (s ++ str "    " ++ from ++ str "->>" ++ to ++ str ": send " ++ json_text m ++ [10], true).
Proof.
  intros Hi Hp Hf (wm & l & ->). unfold to_mermaid. rewrite matched_item by done. cbn -[str wire to_json_stream json_text].
  rewrite !(decide_True (P := t_any = t_any)) by done. cbn -[str wire to_json_stream json_text].
  rewrite (decide_False (P := from = [])) by done.
  do 4 rewrite (decide_False (P := str "send" = _)) by by_decision. rewrite decide_True by done.
  rewrite matched_item by done. cbn -[str wire to_json_stream json_text]. rewrite !(decide_True (P := t_any = t_any)) by done. cbn -[str wire to_json_stream json_text].
  assert (item_ok (IArray wm l)) as Hm.
  { apply item_ok_array in Hi as [_ Hi]. by apply Forall_cons in Hi as [_ [_ [_ [Hi _]%Forall_cons]%Forall_cons]%Forall_cons]. }
  set (s' := s ++ _). unfold to_json_stream.
  pose proof (to_json_stream_item (IArray wm l) Hm Hp (S (length (wire (IArray wm l)))) s' []) as E. rewrite app_nil_r in E.
  rewrite E by (done || lia). unfold s'. by rewrite <- !(assoc_L app).
Qed.
