(* ===== verification/Executor.v ===== *)
(** * The executor ([src/src/executor.hpp], [src/src/executor_asio.cpp])

    The executor wraps Asio: contexts with their threads, strands, and objects
    (signals, timers, sockets, acceptors, watchers of file descriptors, file
    streams) that start
    asynchronous operations.  An operation is counted in [pending] from before it
    is started until its completion handler runs; the handler holds a weak
    pointer to the [token_] of its object and calls the client only if the object
    still exists.

    Asio is seen through what it documents: an operation that was started
    completes once, with some error code and result, at any time after; the
    handler of an operation that is bound to a strand runs while nothing else of
    that strand runs; what is posted to a strand runs in order.  A step is one
    atomic action of some thread, so the actions of completion handlers on
    different strands, and of those that are bound to none, interleave freely. *)
From S2P Require Import Prelude.

(** ** Numbers of threads and sizes of stacks *)

(** [atoi] and [atol] on a value that fits the type: white space, a sign, digits. *)
Definition is_space (c : Z) : bool := (c =? 32) || ((9 <=? c) && (c <=? 13)).

Fixpoint ato_digits (acc : Z) (s : bytes) : Z :=
  match s with
  | c :: s => if (48 <=? c) && (c <=? 57) then ato_digits (acc * 10 + (c - 48)) s else acc
  | [] => acc
  end.

Fixpoint atol (s : bytes) : Z :=
  match s with
  | c :: s' =>
      if is_space c then atol s'
      else if c =? 45 then - ato_digits 0 s'
      else if c =? 43 then ato_digits 0 s'
      else ato_digits 0 s
  | [] => 0
  end.

Definition MIN_THREAD (env : option bytes) : Z := atol (default (str "4") env).
Definition MAX_THREAD (env : option bytes) : Z := atol (default (str "64") env).

(** [threads], on a machine with [processors]. *)
Definition threads (min_env max_env : option bytes) (processors : Z) : Z :=
  Z.max (Z.min processors (MAX_THREAD max_env)) (MIN_THREAD min_env).

Definition stack_size (env : option bytes) : Z := u64 (atol (default (str "8388608") env)).

(** The size [worker_attr] sets, in [size_t] arithmetic. *)
Definition worker_stack (size stack_min page : Z) : Z :=
  let size := Z.max size stack_min in
  u64 (u64 (size + page - 1) / page * page).

(** [context::run]: the threads it starts beside its own. *)
Definition spawn_threads (thread_count : Z) : Z := Z.max (thread_count - 1) 0.

(** ** Data *)

Inductive obj_kind : Type :=
| KSignal | KTimer | KUdp | KTcp | KTcpAcceptor | KUnx | KUnxAcceptor | KWatcher | KFileStream.

(** The reads and writes of a file stream (on Windows) are the last two. *)
Inductive op_kind : Type :=
| OpSignal | OpTimer | OpReceive | OpConnect | OpWrite | OpRead | OpAccept | OpWaitRead | OpWaitWrite.

#[export] Instance obj_kind_eq_dec : EqDecision obj_kind.
Proof. solve_decision. Defined.
#[export] Instance op_kind_eq_dec : EqDecision op_kind.
Proof. solve_decision. Defined.

(** The operations each kind of object has. *)
Definition has_op (k : obj_kind) (o : op_kind) : bool :=
  match k, o with
  | KSignal, OpSignal | KTimer, OpTimer | KUdp, OpReceive => true
  | (KTcp | KUnx), (OpConnect | OpWrite | OpRead) => true
  | (KTcpAcceptor | KUnxAcceptor), OpAccept => true
  | (KWatcher | KFileStream), (OpWaitRead | OpWaitWrite) => true
  | _, _ => false
  end.

(** Signals and timers are not bound to their strand. *)
Definition bound (o : op_kind) : bool := match o with OpSignal | OpTimer => false | _ => true end.

(** An object; [open] is the state of the Asio object in it. *)
Record object : Type := Object {
  kind : obj_kind;
  strand_ : nat;
  open : bool;
  remote_endpoint_ : bytes;
  read_in_progress_ : bool;
  write_in_progress_ : bool
}.

(** An error code (0 is none) and the number, signal or file descriptor; for a
    datagram also the address it came from. *)
Record result : Type := Result { ec : Z; value : Z; from : bytes }.

Inductive phase : Type :=
| Starting                  (** counted, not yet given to Asio *)
| Waiting                   (** Asio works on it *)
| Completed (r : result).   (** its handler has been called *)

(** The handler is bound to the strand of its object when it is made. *)
Record op : Type := Op { o_obj : nat; o_strand : nat; o_kind : op_kind; o_handler : Z; o_phase : phase }.

(** A handler behind [fetch_sub]: before or after [t.lock()]. *)
Record running : Type := Running { r_op : op; r_result : result; r_locked : bool }.

(** What a strand runs: a posted function behind Asio's call and before
    [posts.fetch_sub(1)], the handler of an operation, or the client's code. *)
Inductive owner : Type :=
| PostStart (f : Z)
| OpHandler (n : nat)
| Client.

#[export] Instance owner_eq_dec : EqDecision owner.
Proof. solve_decision. Defined.

(** [context_impl], the objects, the operations and handlers by their numbers,
    the strands; functions that were counted and not yet given to Asio, that Asio
    has queued, and that a strand has just begun.  An object's number stands for
    its token and is not used again; [created] and [started] have the numbers
    that were used.  [posted], [called] and [ran] log what was queued, which
    operations' clients were called, and which functions. *)
Record world : Type := World {
  pending : Z;
  posts : Z;
  objects : gmap nat object;
  ops : gmap nat op;
  handlers : gmap nat running;
  strands : gmap nat owner;
  posting : gmap nat (nat * Z);
  queue : list (nat * Z);
  entering : gmap nat Z;
  created : gset nat;
  started : gset nat;
  posted : list (nat * Z);
  called : list (nat * Z * result);
  ran : list (nat * Z)
}.

Definition context_impl : world := World 0 0 ∅ ∅ ∅ ∅ ∅ [] ∅ ∅ ∅ [] [] [].

Definition set_pending v w := World v (posts w) (objects w) (ops w) (handlers w) (strands w) (posting w) (queue w) (entering w) (created w) (started w) (posted w) (called w) (ran w).
Definition set_posts v w := World (pending w) v (objects w) (ops w) (handlers w) (strands w) (posting w) (queue w) (entering w) (created w) (started w) (posted w) (called w) (ran w).
Definition set_objects v w := World (pending w) (posts w) v (ops w) (handlers w) (strands w) (posting w) (queue w) (entering w) (created w) (started w) (posted w) (called w) (ran w).
Definition set_ops v w := World (pending w) (posts w) (objects w) v (handlers w) (strands w) (posting w) (queue w) (entering w) (created w) (started w) (posted w) (called w) (ran w).
Definition set_handlers v w := World (pending w) (posts w) (objects w) (ops w) v (strands w) (posting w) (queue w) (entering w) (created w) (started w) (posted w) (called w) (ran w).
Definition set_strands v w := World (pending w) (posts w) (objects w) (ops w) (handlers w) v (posting w) (queue w) (entering w) (created w) (started w) (posted w) (called w) (ran w).
Definition set_posting v w := World (pending w) (posts w) (objects w) (ops w) (handlers w) (strands w) v (queue w) (entering w) (created w) (started w) (posted w) (called w) (ran w).
Definition set_queue v w := World (pending w) (posts w) (objects w) (ops w) (handlers w) (strands w) (posting w) v (entering w) (created w) (started w) (posted w) (called w) (ran w).
Definition set_entering v w := World (pending w) (posts w) (objects w) (ops w) (handlers w) (strands w) (posting w) (queue w) v (created w) (started w) (posted w) (called w) (ran w).
Definition set_created v w := World (pending w) (posts w) (objects w) (ops w) (handlers w) (strands w) (posting w) (queue w) (entering w) v (started w) (posted w) (called w) (ran w).
Definition set_started v w := World (pending w) (posts w) (objects w) (ops w) (handlers w) (strands w) (posting w) (queue w) (entering w) (created w) v (posted w) (called w) (ran w).
Definition add_posted v w := World (pending w) (posts w) (objects w) (ops w) (handlers w) (strands w) (posting w) (queue w) (entering w) (created w) (started w) (posted w ++ [v]) (called w) (ran w).
Definition add_called v w := World (pending w) (posts w) (objects w) (ops w) (handlers w) (strands w) (posting w) (queue w) (entering w) (created w) (started w) (posted w) (called w ++ [v]) (ran w).
Definition add_ran v w := World (pending w) (posts w) (objects w) (ops w) (handlers w) (strands w) (posting w) (queue w) (entering w) (created w) (started w) (posted w) (called w) (ran w ++ [v]).

(** [pending_tasks] and [pending_posts] *)
Definition pending_tasks (w : world) : Z := pending w.
Definition pending_posts (w : world) : Z := posts w.

(** ** Objects *)

Definition set_in_progress (o : op_kind) (v : bool) (x : object) : object :=
  match o with
  | OpWaitRead => Object (kind x) (strand_ x) (open x) (remote_endpoint_ x) v (write_in_progress_ x)
  | OpWaitWrite => Object (kind x) (strand_ x) (open x) (remote_endpoint_ x) (read_in_progress_ x) v
  | _ => x
  end.
Definition in_progress (o : op_kind) (x : object) : bool :=
  match o with
  | OpWaitRead => read_in_progress_ x
  | OpWaitWrite => write_in_progress_ x
  | _ => false
  end.
Definition set_remote (a : bytes) (x : object) : object :=
  Object (kind x) (strand_ x) (open x) a (read_in_progress_ x) (write_in_progress_ x).
Definition set_open (v : bool) (x : object) : object :=
  Object (kind x) (strand_ x) v (remote_endpoint_ x) (read_in_progress_ x) (write_in_progress_ x).

(** The constructors. *)
Definition create (i : nat) (k : obj_kind) (st : nat) (w : world) : world :=
  set_created ({[i]} ∪ created w) (set_objects (<[i := Object k st true [] false false]> (objects w)) w).

(** [close]; that of [udp::socket] has an empty body. *)
Definition close (x : object) : object :=
  match kind x with KUdp => x | _ => set_open false x end.

(** ** Operations *)

(** [ctx->pending.fetch_add(1)] and the handler with its weak pointer. *)
Definition begin_op (n i st : nat) (o : op_kind) (h : Z) (w : world) : world :=
  set_started ({[n]} ∪ started w)
    (set_ops (<[n := Op i st o h Starting]> (ops w)) (set_pending (u64 (pending w + 1)) w)).

(** [signal_impl::on_fired], [timer_impl::on_expired] *)
Definition on_fired (n i st : nat) (h : Z) (w : world) : world := begin_op n i st OpSignal h w.
Definition on_expired (n i st : nat) (h : Z) (w : world) : world := begin_op n i st OpTimer h w.
(** [udp::socket_impl::receive] *)
Definition receive (n i st : nat) (h : Z) (w : world) : world := begin_op n i st OpReceive h w.
(** [connect], [write] and [read] of [tcp::socket_impl] *)
Definition connect (n i st : nat) (h : Z) (w : world) : world := begin_op n i st OpConnect h w.
Definition write (n i st : nat) (h : Z) (w : world) : world := begin_op n i st OpWrite h w.
Definition read (n i st : nat) (h : Z) (w : world) : world := begin_op n i st OpRead h w.
(** [tcp::acceptor_impl::accept] *)
Definition accept (n i st : nat) (h : Z) (w : world) : world := begin_op n i st OpAccept h w.
(** The same of [unx::socket_impl] and [unx::acceptor_impl] *)
Definition unx_connect (n i st : nat) (h : Z) (w : world) : world := begin_op n i st OpConnect h w.
Definition unx_write (n i st : nat) (h : Z) (w : world) : world := begin_op n i st OpWrite h w.
Definition unx_read (n i st : nat) (h : Z) (w : world) : world := begin_op n i st OpRead h w.
Definition unx_accept (n i st : nat) (h : Z) (w : world) : world := begin_op n i st OpAccept h w.
(** [accept] of an object *)
Definition accept_of (x : object) : nat → nat → nat → Z → world → world :=
  match kind x with KUnxAcceptor => unx_accept | _ => accept end.
Arguments accept_of x : simpl never.

(** [watcher_impl::wait_read] and [wait_write]: one wait at a time; the handler of
    a second one is dropped. *)
Definition wait (o : op_kind) (n i : nat) (h : Z) (w : world) : world :=
  match objects w !! i with
  | None => w
  | Some x =>
      if in_progress o x then w
      else begin_op n i (strand_ x) o h (set_objects (<[i := set_in_progress o true x]> (objects w)) w)
  end.
Definition wait_read (n i : nat) (h : Z) (w : world) : world := wait OpWaitRead n i h w.
Definition wait_write (n i : nat) (h : Z) (w : world) : world := wait OpWaitWrite n i h w.

(** [file_stream_impl::start_read] and [start_write], which go by the same flags *)
Definition start_read (n i : nat) (h : Z) (w : world) : world := wait OpWaitRead n i h w.
Definition start_write (n i : nat) (h : Z) (w : world) : world := wait OpWaitWrite n i h w.

(** The operation [o] of the object [x]. *)
Definition start (o : op_kind) (n i : nat) (x : object) (h : Z) (w : world) : world :=
  match o with
  | OpSignal => on_fired n i (strand_ x) h w
  | OpTimer => on_expired n i (strand_ x) h w
  | OpReceive => receive n i (strand_ x) h w
  | OpConnect => (match kind x with KUnx => unx_connect | _ => connect end) n i (strand_ x) h w
  | OpWrite => (match kind x with KUnx => unx_write | _ => write end) n i (strand_ x) h w
  | OpRead => (match kind x with KUnx => unx_read | _ => read end) n i (strand_ x) h w
  | OpAccept => accept_of x n i (strand_ x) h w
  | OpWaitRead => (match kind x with KFileStream => start_read | _ => wait_read end) n i h w
  | OpWaitWrite => (match kind x with KFileStream => start_write | _ => wait_write end) n i h w
  end.

(** [is_aborted_accept]; 22 is [invalid_argument]. *)
Definition is_aborted_accept (apple : bool) (ec : Z) : bool := apple && (ec =? 22).

(** ** Completion handlers *)

(** Whether the handler uses its object beside the token. *)
Definition touches (o : op_kind) : bool :=
  match o with OpReceive | OpAccept | OpWaitRead | OpWaitWrite => true | _ => false end.

(** What the client is called with: an acceptor passes the file descriptor, or 0
    with an error. *)
Definition client_result (o : op_kind) (r : result) : result :=
  match o with
  | OpAccept => Result (ec r) (if ec r =? 0 then value r else 0) (from r)
  | _ => r
  end.

(** What the handler does to its object before it calls the client. *)
Definition touch (o : op_kind) (r : result) (x : object) : object :=
  match o with
  | OpReceive => set_remote (from r) x
  | OpWaitRead | OpWaitWrite => set_in_progress o false x
  | _ => x
  end.

(** ** Steps *)

Inductive outcome : Type := Next (w : world) | Stuck | Undefined.

Definition guard (b : bool) (w : world) : outcome := if b then Next w else Stuck.

(** The strand is left: by a handler that is bound to it. *)
Definition leave (o : op) (w : world) : world :=
  if bound (o_kind o) then set_strands (delete (o_strand o) (strands w)) w else w.
Definition to_client (o : op) (w : world) : world :=
  if bound (o_kind o) then set_strands (<[o_strand o := Client]> (strands w)) w else w.

(** The client calls its objects from the strand they were made with, apart from
    signals and timers, which it may call from anywhere. *)
Definition on_strand (x : object) (w : world) : bool :=
  match kind x with
  | KSignal | KTimer => true
  | _ => bool_decide (strands w !! strand_ x = Some Client)
  end.

(** The first function queued for a strand, and the queue without it. *)
Fixpoint pop (st : nat) (q : list (nat * Z)) : option (Z * list (nat * Z)) :=
  match q with
  | [] => None
  | (st', f) :: q =>
      if decide (st' = st) then Some (f, q)
      else match pop st q with Some (g, q) => Some (g, (st', f) :: q) | None => None end
  end.

Inductive event : Type :=
| ECreate (i : nat) (k : obj_kind) (st : nat)
| EStart (o : op_kind) (n i : nat) (h : Z)
| EClose (i : nat)
| EDestroy (i : nat)
| ESubmit (n : nat)                     (** [async_...] *)
| EFinish (n : nat) (r : result)        (** Asio calls the handler *)
| ECount (n : nat)                      (** [pending.fetch_sub(1)] *)
| ELock (n : nat)                       (** [t.lock()] *)
| EBody (n again : nat)                 (** the rest of the handler *)
| EReturn (st : nat)                    (** the client returns *)
| EPost (n st : nat) (f : Z)            (** [posts.fetch_add(1)] *)
| EQueue (n : nat)                      (** [asio::post] *)
| ERun (st : nat)                       (** Asio calls a posted function *)
| EPostCount (st : nat).                (** [posts.fetch_sub(1); f()] *)

Section step.
Context (apple : bool).

Definition step (e : event) (w : world) : outcome :=
  match e with
  | ECreate i k st => guard (bool_decide (i ∉ created w)) (create i k st w)
  | EStart o n i h =>
      match objects w !! i with
      | Some x => guard (has_op (kind x) o && on_strand x w && bool_decide (n ∉ started w)) (start o n i x h w)
      | None => Stuck
      end
  | EClose i =>
      match objects w !! i with
      | Some x => guard (on_strand x w) (set_objects (<[i := close x]> (objects w)) w)
      | None => Stuck
      end
  | EDestroy i =>
      match objects w !! i with
      | Some x => guard (on_strand x w) (set_objects (delete i (objects w)) w)
      | None => Stuck
      end
  | ESubmit n =>
      match ops w !! n with
      | Some (Op i st o h Starting) => Next (set_ops (<[n := Op i st o h Waiting]> (ops w)) w)
      | _ => Stuck
      end
  | EFinish n r =>
      match ops w !! n with
      | Some (Op i st o h Waiting) =>
          let w' := set_ops (<[n := Op i st o h (Completed r)]> (ops w)) w in
          if bound o
          then guard (bool_decide (strands w !! st = None)) (set_strands (<[st := OpHandler n]> (strands w)) w')
          else Next w'
      | _ => Stuck
      end
  | ECount n =>
      match ops w !! n with
      | Some (Op i st o h (Completed r)) =>
          Next (set_handlers (<[n := Running (Op i st o h (Completed r)) r false]> (handlers w))
                 (set_ops (delete n (ops w)) (set_pending (u64 (pending w - 1)) w)))
      | _ => Stuck
      end
  | ELock n =>
      match handlers w !! n with
      | Some (Running o r false) =>
          match objects w !! o_obj o with
          | Some _ => Next (set_handlers (<[n := Running o r true]> (handlers w)) w)
          | None => Next (leave o (set_handlers (delete n (handlers w)) w))
          end
      | _ => Stuck
      end
  | EBody n again =>
      match handlers w !! n with
      | Some (Running o r true) =>
          let w' := set_handlers (delete n (handlers w)) w in
          let call w := to_client o (add_called (n, o_handler o, client_result (o_kind o) r) w) in
          if touches (o_kind o) then
            match objects w !! o_obj o with
            | None => Undefined
            | Some x =>
                if bool_decide (o_kind o = OpAccept) && is_aborted_accept apple (ec r)
                then guard (bool_decide (again ∉ started w))
                       (leave o (accept_of x again (o_obj o) (strand_ x) (o_handler o) w'))
                else Next (call (set_objects (<[o_obj o := touch (o_kind o) r x]> (objects w)) w'))
            end
          else Next (call w')
      | _ => Stuck
      end
  | EReturn st => guard (bool_decide (strands w !! st = Some Client)) (set_strands (delete st (strands w)) w)
  | EPost n st f =>
      guard (bool_decide (posting w !! n = None))
        (set_posting (<[n := (st, f)]> (posting w)) (set_posts (u64 (posts w + 1)) w))
  | EQueue n =>
      match posting w !! n with
      | Some p => Next (add_posted p (set_queue (queue w ++ [p]) (set_posting (delete n (posting w)) w)))
      | None => Stuck
      end
  | ERun st =>
      match strands w !! st, pop st (queue w) with
      | None, Some (f, q) =>
          Next (set_entering (<[st := f]> (entering w))
                 (set_strands (<[st := PostStart f]> (strands w)) (set_queue q w)))
      | _, _ => Stuck
      end
  | EPostCount st =>
      match strands w !! st with
      | Some (PostStart f) =>
          Next (add_ran (st, f) (set_posts (u64 (posts w - 1))
                 (set_strands (<[st := Client]> (strands w)) (set_entering (delete st (entering w)) w))))
      | _ => Stuck
      end
  end.

Fixpoint run (es : list event) (w : world) : outcome :=
  match es with
  | [] => Next w
  | e :: es => match step e w with Next w => run es w | x => x end
  end.
End step.
