(* ===== verification/ExecutorInv.v ===== *)
(** * Invariants of the executor

    [own_inv]: who may use an object and a strand; [count_inv]: the counters;
    [once_inv]: operations whose client was called; [watch_inv]: the flags of
    watchers; [fifo_inv]: the order of posted functions. *)
From S2P Require Import Prelude Executor.

(** The cases of a step. *)
Ltac step_cases E :=
  unfold step, guard in E;
  repeat match type of E with
  | context [match ?x with _ => _ end] => destruct x eqn:?
  end; try discriminate E; injection E as <-.

Section theorems.
Context (apple : bool).
Implicit Types (w : world) (n i st : nat).

Inductive reachable : world → Prop :=
| reachable_init : reachable context_impl
| reachable_step w w' e : reachable w → step apple e w = Next w' → reachable w'.

Lemma reachable_run es : ∀ w w', reachable w → run apple es w = Next w' → reachable w'.
Proof.
  induction es as [|e es IH]; intros w w' Hr E; cbn in E; [by injection E as <-|].
  destruct (step apple e w) eqn:Es; try done. eauto using reachable_step.
Qed.

(** ** Starting an operation *)

(** The two kinds of acceptors start an accept in the same way. *)
Lemma accept_of_eq x : accept_of x = accept.
Proof. unfold accept_of. by destruct (kind x). Qed.

(** Every operation starts as a wait does, where the others have no flag. *)
Lemma start_eq o n i x h w :
  objects w !! i = Some x →
  start o n i x h w = if in_progress o x then w
    else begin_op n i (strand_ x) o h (set_objects (<[i := set_in_progress o true x]> (objects w)) w).
Proof.
  intros Hx. assert (set_objects (<[i := x]> (objects w)) w = w) as E by (rewrite insert_id by done; by destruct w).
  assert (∀ k, match k with KFileStream => start_read | _ => wait_read end = wait_read) as Er by by intros [].
  assert (∀ k, match k with KFileStream => start_write | _ => wait_write end = wait_write) as Ew by by intros [].
  destruct o; cbn; try (by rewrite E, ?accept_of_eq; destruct (kind x)).
  all: rewrite ?Er, ?Ew; unfold wait_read, wait_write, wait; by rewrite Hx.
Qed.

(** ** Objects and strands *)

(** An operation that was started and whose handler has not returned or called
    the client. *)
Definition active (w : world) (n : nat) (o : op) : Prop :=
  ops w !! n = Some o ∨ ∃ r b, handlers w !! n = Some (Running o r b).

(** Its handler has been called. *)
Definition holds (w : world) (n : nat) (o : op) : Prop :=
  (ops w !! n = Some o ∧ ∃ r, o_phase o = Completed r) ∨ ∃ r b, handlers w !! n = Some (Running o r b).

Lemma holds_active w n o : holds w n o → active w n o.
Proof. intros [[? _]|?]; [by left|by right]. Qed.

Record own_inv (w : world) : Prop := {
  i_created i : is_Some (objects w !! i) → i ∈ created w;
  i_known n o : active w n o → o_obj o ∈ created w ∧ n ∈ started w;
  i_apart n : is_Some (ops w !! n) → handlers w !! n = None;
  i_obj n o x : active w n o → objects w !! o_obj o = Some x →
    strand_ x = o_strand o ∧ has_op (kind x) (o_kind o) = true;
  i_holds n o : holds w n o → bound (o_kind o) = true → strands w !! o_strand o = Some (OpHandler n);
  i_locked n o r : handlers w !! n = Some (Running o r true) → bound (o_kind o) = true →
    is_Some (objects w !! o_obj o)
}.

(** Objects are changed in place. *)
Lemma own_objects w i x x' :
  own_inv w → objects w !! i = Some x → strand_ x' = strand_ x → kind x' = kind x →
  own_inv (set_objects (<[i := x']> (objects w)) w).
Proof.
  intros I Hx Es Ek. split; try apply I; cbn.
  - intros j. destruct (decide (i = j)) as [<-|]; [intros _; apply I; by rewrite Hx|].
    rewrite lookup_insert_ne by done. apply I.
  - intros n o y Ho. destruct (decide (i = o_obj o)) as [->|].
    + rewrite lookup_insert_eq. intros [= <-]. rewrite Es, Ek. by apply (i_obj _ I n o x).
    + rewrite lookup_insert_ne by done. by apply (i_obj _ I n o y).
  - intros n o r Hh Hb. pose proof (i_locked _ I n o r Hh Hb) as [y Hy].
    destruct (decide (i = o_obj o)) as [->|]; [by rewrite lookup_insert_eq|by rewrite lookup_insert_ne].
Qed.

Lemma own_begin n i o h x w :
  own_inv w → objects w !! i = Some x → has_op (kind x) o = true → n ∉ started w →
  own_inv (begin_op n i (strand_ x) o h w).
Proof.
  intros I Hx Hk Hn.
  assert (∀ k p, active (begin_op n i (strand_ x) o h w) k p →
    (k = n ∧ p = Op i (strand_ x) o h Starting) ∨ (k ≠ n ∧ active w k p)) as Hact.
  { intros k p. destruct (decide (k = n)) as [->|Hkn].
    - intros [Hp|Hp]; cbn in Hp; [rewrite lookup_insert_eq in Hp; injection Hp as <-; by left|].
      destruct (i_known _ I n p (or_intror Hp)). done.
    - intros [Hp|Hp]; cbn in Hp; [rewrite lookup_insert_ne in Hp by done|]; right; (split; [done|]); [by left|by right]. }
  split; cbn.
  - apply I.
  - intros k p [[-> ->]|[Hkn Hp]]%Hact; [split; [apply (i_created _ I); cbn; by rewrite Hx|set_solver]|].
    destruct (i_known _ I k p Hp). split; [done|set_solver].
  - intros k. destruct (decide (k = n)) as [->|Hkn].
    + intros _. apply eq_None_not_Some. intros [[p r b] Hp].
      destruct (i_known _ I n p) as [_ ?]; [right; by eauto|done].
    + rewrite lookup_insert_ne by done. apply I.
  - intros k p y [[-> ->]|[Hkn Hp]]%Hact; [cbn; rewrite Hx; by intros [= <-]|by apply (i_obj _ I k p y)].
  - intros k p Hh Hb. destruct (Hact k p (holds_active _ _ _ Hh)) as [[-> ->]|[Hkn Hp]].
    + destruct Hh as [[_ [r Hr]]|Hh]; [done|]. by destruct (i_known _ I n _ (or_intror Hh)).
    + apply (i_holds _ I k p); [|done]. destruct Hh as [[Hq Hr]|Hh]; [|by right].
      cbn in Hq. rewrite lookup_insert_ne in Hq by done. by left.
  - apply I.
Qed.

(** A strand that no handler holds changes hands. *)
Lemma own_strand w st ss :
  own_inv w → (∀ n, strands w !! st ≠ Some (OpHandler n)) → (∀ st', st' ≠ st → ss !! st' = strands w !! st') →
  own_inv (set_strands ss w).
Proof.
  intros I Hst Hss. split; try apply I. cbn. intros n o Hh Hb. pose proof (i_holds _ I n o Hh Hb) as E.
  destruct (decide (o_strand o = st)) as [<-|]; [by destruct (Hst n)|by rewrite Hss].
Qed.

(** The phase of an operation changes; with a result, its handler takes the strand. *)
Lemma own_phase w n i st o h ph ph' ss :
  own_inv w → ops w !! n = Some (Op i st o h ph) →
  (∀ st', st' ≠ st → ss !! st' = strands w !! st') →
  (if bound o then ss !! st = Some (OpHandler n) ∧ strands w !! st = None else ss = strands w) ∨
  (ph' = Waiting ∧ ph = Starting ∧ ss = strands w) →
  own_inv (set_strands ss (set_ops (<[n := Op i st o h ph']> (ops w)) w)).
Proof.
  intros I Hn Hss Hst.
  set (w' := set_strands ss _).
  assert (∀ k p, active w' k p → (k = n ∧ p = Op i st o h ph') ∨ (k ≠ n ∧ active w k p)) as Hact.
  { intros k p. destruct (decide (k = n)) as [->|Hkn].
    - intros [Hp|(r & b & Hp)]; cbn in Hp; [rewrite lookup_insert_eq in Hp; injection Hp as <-; by left|].
      by rewrite (i_apart _ I n) in Hp by by rewrite Hn.
    - intros [Hp|Hp]; cbn in Hp; [rewrite lookup_insert_ne in Hp by done|]; right; (split; [done|]); [by left|by right]. }
  split; cbn.
  - apply I.
  - intros k p [[-> ->]|[Hkn Hp]]%Hact; [|by apply I]. apply (i_known _ I n _ (or_introl Hn)).
  - intros k. destruct (decide (k = n)) as [->|Hkn]; [intros _; apply I; by rewrite Hn|].
    rewrite lookup_insert_ne by done. apply I.
  - intros k p y [[-> ->]|[Hkn Hp]]%Hact; [apply (i_obj _ I n _ y (or_introl Hn))|by apply (i_obj _ I k p y)].
  - intros k p Hh Hb. destruct (Hact k p (holds_active _ _ _ Hh)) as [[-> ->]|[Hkn Hp]]; cbn in Hb |- *.
    + destruct Hst as [Hst|(-> & _ & ->)]; [rewrite Hb in Hst; by destruct Hst|].
      destruct Hh as [[_ [r Hr]]|(r & b & Hh)]; cbn in *; [done|].
      by rewrite (i_apart _ I n) in Hh by by rewrite Hn.
    + assert (holds w k p) as Hh'.
      { destruct Hh as [[Hq Hr]|Hh]; [|by right]. cbn in Hq. rewrite lookup_insert_ne in Hq by done. by left. }
      pose proof (i_holds _ I k p Hh' Hb) as E. destruct (decide (o_strand p = st)) as [Es|]; [|by rewrite Hss].
      destruct Hst as [Hst|(-> & _ & ->)]; [|done]. destruct (bound o); [destruct Hst as [_ Hst]; congruence|by subst ss].
  - apply I.
Qed.

(** [fetch_sub]: the operation becomes a running handler. *)
Lemma own_count w n i st o h r :
  own_inv w → ops w !! n = Some (Op i st o h (Completed r)) →
  own_inv (set_handlers (<[n := Running (Op i st o h (Completed r)) r false]> (handlers w))
            (set_ops (delete n (ops w)) (set_pending (u64 (pending w - 1)) w))).
Proof.
  intros I Hn. set (w' := set_handlers _ _).
  assert (∀ k p, active w' k p → active w k p) as Hact.
  { intros k p [Hp|(r' & b & Hp)]; cbn in Hp.
    - apply lookup_delete_Some in Hp as [_ Hp]. by left.
    - apply lookup_insert_Some in Hp as [[<- [= <- <- <-]]|[_ Hp]]; [by left|right; eauto]. }
  assert (∀ k p, holds w' k p → holds w k p) as Hhold.
  { intros k p [[Hp Hr]|(r' & b & Hp)]; cbn in Hp.
    - apply lookup_delete_Some in Hp as [_ Hp]. by left.
    - apply lookup_insert_Some in Hp as [[<- [= <- <- <-]]|[_ Hp]]; [left; eauto|right; eauto]. }
  split; cbn.
  - apply I.
  - intros k p ?%Hact. by apply I.
  - intros k [p [Hk Hp]%lookup_delete_Some]. rewrite lookup_insert_ne by done. apply I. by rewrite Hp.
  - intros k p y ?%Hact. by apply (i_obj _ I k).
  - intros k p ?%Hhold. by apply (i_holds _ I k).
  - intros k p r' [[_ [=]]|[_ Hp]]%lookup_insert_Some. by apply (i_locked _ I k p r').
Qed.

(** A handler locks the token of an object that exists. *)
Lemma own_lock w n o r x :
  own_inv w → handlers w !! n = Some (Running o r false) → objects w !! o_obj o = Some x →
  own_inv (set_handlers (<[n := Running o r true]> (handlers w)) w).
Proof.
  intros I Hn Hx. set (w' := set_handlers _ w).
  assert (∀ k p, (∃ r b, handlers w' !! k = Some (Running p r b)) → ∃ r b, handlers w !! k = Some (Running p r b)) as Hh.
  { intros k p (r' & b & Hp). cbn in Hp. apply lookup_insert_Some in Hp as [[<- [= <- <- <-]]|[_ Hp]]; eauto. }
  split; cbn.
  - apply I.
  - intros k p [Hp|Hp]; apply (i_known _ I k p); [by left|right; auto].
  - intros k Hk. apply lookup_insert_None. split; [by apply I|]. intros <-. by rewrite (i_apart _ I n Hk) in Hn.
  - intros k p y [Hp|Hp]; apply (i_obj _ I k p y); [by left|right; auto].
  - intros k p [Hp|Hp]; apply (i_holds _ I k p); [by left|right; auto].
  - intros k p r' [[<- [= <- <-]]|[_ Hp]]%lookup_insert_Some; [intros; by rewrite Hx|]. by apply (i_locked _ I k p r').
Qed.

(** A handler ends and its strand is left or given to the client. *)
Lemma own_end w n o r b ss :
  own_inv w → handlers w !! n = Some (Running o r b) →
  (if bound (o_kind o) then ∀ st', st' ≠ o_strand o → ss !! st' = strands w !! st' else ss = strands w) →
  own_inv (set_strands ss (set_handlers (delete n (handlers w)) w)).
Proof.
  intros I Hn Hss. set (w' := set_strands _ _).
  assert (∀ k p, (∃ r b, handlers w' !! k = Some (Running p r b)) →
    k ≠ n ∧ ∃ r b, handlers w !! k = Some (Running p r b)) as Hh.
  { intros k p (r' & b' & Hp). cbn in Hp. apply lookup_delete_Some in Hp as [? Hp]. eauto. }
  assert (∀ k, is_Some (ops w !! k) → k ≠ n) as Hops.
  { intros k Hk ->. by rewrite (i_apart _ I n Hk) in Hn. }
  split; cbn.
  - apply I.
  - intros k p [Hp|[_ Hp]%Hh]; apply (i_known _ I k p); [by left|by right].
  - intros k Hk. apply lookup_delete_None. right. by apply I.
  - intros k p y [Hp|[_ Hp]%Hh]; apply (i_obj _ I k p y); [by left|by right].
  - intros k p Hp Hb.
    assert (k ≠ n ∧ holds w k p) as [Hkn Hp'].
    { destruct Hp as [[Hp Hr]|[? Hp]%Hh]; [|split; [done|by right]]. split; [apply Hops; eexists; exact Hp|by left]. }
    pose proof (i_holds _ I k p Hp' Hb) as E. destruct (bound (o_kind o)) eqn:Eb; [|by subst ss].
    rewrite Hss; [done|]. intros Es. pose proof (i_holds _ I n o ltac:(right; eauto) Eb) as E'. congruence.
  - intros k p r' [_ Hp]%lookup_delete_Some. by apply (i_locked _ I k p r').
Qed.

Lemma own_leave w n o r b :
  own_inv w → handlers w !! n = Some (Running o r b) → own_inv (leave o (set_handlers (delete n (handlers w)) w)).
Proof.
  intros I Hn. unfold leave. destruct (bound (o_kind o)) eqn:Eb.
  - apply (own_end w n o r b); [done..|]. rewrite Eb. intros st' Hst. cbn. by rewrite lookup_delete_ne.
  - pose proof (own_end w n o r b (strands w) I Hn ltac:(by rewrite Eb)) as I'. by destruct w.
Qed.

Lemma own_to_client w n o r b c :
  own_inv w → handlers w !! n = Some (Running o r b) →
  own_inv (to_client o (add_called c (set_handlers (delete n (handlers w)) w))).
Proof.
  intros I Hn. unfold to_client. destruct (bound (o_kind o)) eqn:Eb.
  - pose proof (own_end w n o r b (<[o_strand o := Client]> (strands w)) I Hn) as I'. rewrite Eb in I'.
    destruct I' as []; [intros st' Hst; by rewrite lookup_insert_ne|]. by split.
  - pose proof (own_end w n o r b (strands w) I Hn ltac:(by rewrite Eb)) as []. by split.
Qed.

Lemma own_destroy w i x :
  own_inv w → objects w !! i = Some x → on_strand x w = true →
  own_inv (set_objects (delete i (objects w)) w).
Proof.
  intros I Hx Hon. split; try apply I; cbn.
  - intros j [y [_ Hy]%lookup_delete_Some]. apply I. by rewrite Hy.
  - intros n o y Ho [_ Hy]%lookup_delete_Some. by apply (i_obj _ I n o y).
  - intros n o r Hn Hb. pose proof (i_locked _ I n o r Hn Hb) as [y Hy]. exists y.
    apply lookup_delete_Some. split; [|done]. intros ->. rewrite Hx in Hy. injection Hy as <-.
    destruct (i_obj _ I n o x ltac:(right; eauto) Hx) as [Es Ek].
    pose proof (i_holds _ I n o ltac:(right; eauto) Hb) as E.
    unfold on_strand in Hon. rewrite Es in Hon. destruct (kind x), (o_kind o); try done;
      apply bool_decide_eq_true in Hon; congruence.
Qed.

Lemma own_create w i k st : own_inv w → i ∉ created w → own_inv (create i k st w).
Proof.
  intros I Hi. split; cbn; try apply I.
  - intros j. destruct (decide (i = j)) as [->|]; [set_solver|]. rewrite lookup_insert_ne by done.
    intros ?%(i_created _ I). set_solver.
  - intros n o Ho. destruct (i_known _ I n o Ho). set_solver.
  - intros n o x Ho. destruct (i_known _ I n o Ho) as [Hc _].
    rewrite lookup_insert_ne by (by intros ->). by apply (i_obj _ I n o x).
  - intros n o r Hn Hb. pose proof (i_locked _ I n o r Hn Hb) as Hs. rewrite lookup_insert_ne; [done|].
    intros ->. by apply Hi, I.
Qed.

Lemma set_in_progress_same o b x : strand_ (set_in_progress o b x) = strand_ x ∧ kind (set_in_progress o b x) = kind x.
Proof. by destruct o. Qed.
Lemma touch_same o r x : strand_ (touch o r x) = strand_ x ∧ kind (touch o r x) = kind x.
Proof. by destruct o. Qed.
Lemma close_same x : strand_ (close x) = strand_ x ∧ kind (close x) = kind x.
Proof. destruct x as [k]. by destruct k. Qed.

Lemma own_start w o n i x h :
  own_inv w → objects w !! i = Some x → has_op (kind x) o = true → n ∉ started w → own_inv (start o n i x h w).
Proof.
  intros I Hx Hk Hn. rewrite start_eq by done. destruct (in_progress o x); [done|].
  destruct (set_in_progress_same o true x) as [Es Ek]. rewrite <- Es.
  apply own_begin; [by eapply own_objects|by cbn; rewrite lookup_insert_eq|by rewrite Ek|done].
Qed.

(** The parts of a step; [k] is what is to be shown of each world it may lead to. *)
Lemma own_body w n o r again w' :
  own_inv w → handlers w !! n = Some (Running o r true) → step apple (EBody n again) w = Next w' → own_inv w'.
Proof.
  intros I Hn E. cbn in E. rewrite Hn in E. destruct (touches (o_kind o)) eqn:Et.
  - destruct (objects w !! o_obj o) as [x|] eqn:Ex; [|done].
    destruct (i_obj _ I n o x ltac:(right; eauto) Ex) as [Es Ek].
    destruct (bool_decide _ && _) eqn:Ea.
    + apply andb_true_iff in Ea as [Ea%bool_decide_eq_true _]. unfold guard in E.
      destruct (bool_decide _) eqn:Eg; [|done]. apply bool_decide_eq_true in Eg. injection E as <-. rewrite accept_of_eq.
      replace (leave o (accept _ _ _ _ _)) with
        (accept again (o_obj o) (strand_ x) (o_handler o) (leave o (set_handlers (delete n (handlers w)) w)))
        by (unfold leave; rewrite Ea; done).
      apply own_begin; [by eapply own_leave|by unfold leave; rewrite Ea|by rewrite <- Ea|by unfold leave; rewrite Ea].
    + injection E as <-. destruct (touch_same (o_kind o) r x) as [Es' Ek'].
      pose proof (own_objects w (o_obj o) x (touch (o_kind o) r x) I Ex Es' Ek') as I'.
      exact (own_to_client _ n o r true _ I' Hn).
  - injection E as <-. by eapply own_to_client.
Qed.

Lemma own_step w w' e : own_inv w → step apple e w = Next w' → own_inv w'.
Proof.
  intros I E. destruct e as [i k st|o n i h|i|i|n|n r|n|n|n again|st|n st f|n|st|st].
  - cbn in E. unfold guard in E. destruct (bool_decide _) eqn:Eg; [|done]. apply bool_decide_eq_true in Eg.
    injection E as <-. by apply own_create.
  - cbn in E. destruct (objects w !! i) as [x|] eqn:Ex; [|done]. unfold guard in E.
    destruct (_ && _) eqn:Eg; [|done]. injection E as <-.
    apply andb_true_iff in Eg as [[Hk _]%andb_true_iff Hn%bool_decide_eq_true]. by apply own_start.
  - step_cases E. destruct (close_same o) as [Es Ek]. by eapply own_objects.
  - step_cases E. by eapply own_destroy.
  - cbn in E. destruct (ops w !! n) as [[i st o h []]|] eqn:Eo; try done. injection E as <-.
    pose proof (own_phase w n i st o h Starting Waiting (strands w) I Eo) as I'.
    destruct I'; [done|by right|]. by split.
  - cbn in E. destruct (ops w !! n) as [[i st o h []]|] eqn:Eo; try done. unfold guard in E.
    destruct (bound o) eqn:Eb; [destruct (bool_decide _) eqn:Es; [|done]|]; injection E as <-.
    + apply bool_decide_eq_true in Es.
      apply (own_phase w n i st o h Waiting (Completed r) (<[st := OpHandler n]> (strands w)) I Eo);
        [intros; by rewrite lookup_insert_ne|]. rewrite Eb. left. by rewrite lookup_insert_eq.
    + destruct (own_phase w n i st o h Waiting (Completed r) (strands w) I Eo); [done|rewrite Eb; by left|]. by split.
  - step_cases E. by apply own_count.
  - step_cases E; [by eapply own_lock|by eapply own_leave].
  - cbn in E. destruct (handlers w !! n) as [[o r []]|] eqn:Hn; try done. eapply own_body; [done..|]. cbn. by rewrite Hn.
  - step_cases E. apply bool_decide_eq_true in Heqb.
    apply (own_strand w st); [done|congruence|]. intros st' Hst. by rewrite lookup_delete_ne.
  - step_cases E. destruct I. by split.
  - step_cases E. destruct I. by split.
  - step_cases E. pose proof (own_strand w st (<[st := PostStart z]> (strands w)) I ltac:(congruence)) as [];
      [intros; by rewrite lookup_insert_ne|]. by split.
  - step_cases E. pose proof (own_strand w st (<[st := Client]> (strands w)) I ltac:(congruence)) as [];
      [intros; by rewrite lookup_insert_ne|]. by split.
Qed.

Lemma reachable_own w : reachable w → own_inv w.
Proof.
  induction 1 as [|w w' e _ IH E]; [|by eapply own_step]. split.
  - intros i [x Hx]. discriminate Hx.
  - intros n o [Hx|(r & b & Hx)]; discriminate Hx.
  - intros n [x Hx]. discriminate Hx.
  - intros n o x [Hx|(r & b & Hx)]; discriminate Hx.
  - intros n o [[Hx _]|(r & b & Hx)]; discriminate Hx.
  - intros n o r Hx. discriminate Hx.
Qed.

(** ** Counting *)

Record count_inv (w : world) : Prop := {
  i_pending : pending w = u64 (Z.of_nat (size (ops w)));
  i_posts : posts w = u64 (Z.of_nat (size (posting w) + length (queue w) + size (entering w)));
  i_entering st f : entering w !! st = Some f ↔ strands w !! st = Some (PostStart f)
}.

Lemma u64_succ v : u64 (u64 v + 1) = u64 (v + 1).
Proof. unfold u64. by rewrite Zplus_mod_idemp_l. Qed.
Lemma u64_pred v : u64 (u64 v - 1) = u64 (v - 1).
Proof. unfold u64. by rewrite Zminus_mod_idemp_l. Qed.

Lemma pop_length st q f q' : pop st q = Some (f, q') → length q = S (length q').
Proof.
  revert q'. induction q as [|[st' g] q IH]; intros q' E; [done|]. cbn in E.
  destruct (decide (st' = st)); [by injection E as _ <-|].
  destruct (pop st q) as [[g' q'']|]; [|done]. injection E as -> <-. cbn. by rewrite (IH q'').
Qed.

Lemma size_insert_old {A} (ns : gmap nat A) n x y : ns !! n = Some y → size (<[n := x]> ns) = size ns.
Proof. intros Hy. by rewrite map_size_insert, Hy. Qed.
Lemma size_insert_new {A} (ns : gmap nat A) n x : ns !! n = None → size (<[n := x]> ns) = S (size ns).
Proof. intros Hn. by rewrite map_size_insert, Hn. Qed.
Lemma size_delete_old {A} (ns : gmap nat A) n y : ns !! n = Some y → size ns = S (size (delete n ns)).
Proof.
  intros Hy. rewrite map_size_delete, Hy. cbn.
  assert (size ns ≠ 0%nat); [|lia]. intros E%map_size_empty_inv. by rewrite E, lookup_empty in Hy.
Qed.

Lemma count_begin n i st o h obs w :
  count_inv w → own_inv w → n ∉ started w → count_inv (begin_op n i st o h (set_objects obs w)).
Proof.
  intros C I Hn. split; cbn; try apply C.
  rewrite size_insert_new.
  - rewrite (i_pending _ C), u64_succ. f_equal. lia.
  - apply eq_None_not_Some. intros [o' Ho]. apply Hn. by apply (i_known _ I n o' (or_introl Ho)).
Qed.

(** A strand that no posted function is entering changes hands. *)
Lemma count_strand w st v :
  count_inv w → (∀ f, strands w !! st ≠ Some (PostStart f)) → (∀ f, v ≠ Some (PostStart f)) →
  count_inv (set_strands (partial_alter (λ _, v) st (strands w)) w).
Proof.
  intros C Hst Hv. split; cbn; try apply C. intros st' f. rewrite (i_entering _ C).
  destruct (decide (st = st')) as [->|]; [|by rewrite lookup_partial_alter_ne].
  rewrite lookup_partial_alter_eq. split; intros H; [by destruct (Hst f)|by destruct (Hv f)].
Qed.

Lemma count_handlers w hs : count_inv w → count_inv (set_handlers hs w).
Proof. intros []. by split. Qed.
Lemma count_objects w obs : count_inv w → count_inv (set_objects obs w).
Proof. intros []. by split. Qed.
Lemma count_called w c : count_inv w → count_inv (add_called c w).
Proof. intros []. by split. Qed.

Lemma count_leave w n o r b hs :
  count_inv w → own_inv w → handlers w !! n = Some (Running o r b) → count_inv (leave o (set_handlers hs w)).
Proof.
  intros C I Hn. unfold leave. destruct (bound (o_kind o)) eqn:Eb; [|by apply count_handlers].
  pose proof (i_holds _ I n o ltac:(right; eauto) Eb) as Hs.
  apply (count_strand (set_handlers hs w) (o_strand o) None); [by apply count_handlers|cbn; congruence|done].
Qed.

Lemma count_to_client w n o r b w1 :
  count_inv w1 → own_inv w → strands w1 = strands w → handlers w !! n = Some (Running o r b) →
  count_inv (to_client o w1).
Proof.
  intros C I Es Hn. unfold to_client. destruct (bound (o_kind o)) eqn:Eb; [|done].
  pose proof (i_holds _ I n o ltac:(right; eauto) Eb) as Hs.
  apply (count_strand w1 (o_strand o) (Some Client)); [done|congruence|done].
Qed.

Lemma count_ops w n o o' : count_inv w → ops w !! n = Some o → count_inv (set_ops (<[n := o']> (ops w)) w).
Proof. intros C Hn. split; cbn; try apply C. rewrite (size_insert_old _ _ _ o) by done. apply C. Qed.

Lemma count_body w n o r again w' :
  count_inv w → own_inv w → handlers w !! n = Some (Running o r true) →
  step apple (EBody n again) w = Next w' → count_inv w'.
Proof.
  intros C I Hn E. cbn in E. rewrite Hn in E. destruct (touches (o_kind o)) eqn:Et.
  - destruct (objects w !! o_obj o) as [x|] eqn:Ex; [|done].
    destruct (bool_decide _ && _) eqn:Ea; [|injection E as <-].
    + apply andb_true_iff in Ea as [Ea%bool_decide_eq_true _]. unfold guard in E.
      destruct (bool_decide _) eqn:Eg; [|done]. apply bool_decide_eq_true in Eg. injection E as <-. rewrite accept_of_eq.
      pose proof (count_begin again (o_obj o) (strand_ x) OpAccept (o_handler o) (objects w)
        (leave o (set_handlers (delete n (handlers w)) w))) as Cb.
      destruct Cb as []; [by eapply count_leave|by eapply own_leave|by unfold leave; rewrite Ea|].
      unfold leave in *. rewrite Ea in *. by split.
    + apply (count_to_client w n o r true); [|done..]. by apply count_called, count_objects, count_handlers.
  - injection E as <-. apply (count_to_client w n o r true); [|done..]. by apply count_called, count_handlers.
Qed.

Lemma count_step w w' e : count_inv w → own_inv w → step apple e w = Next w' → count_inv w'.
Proof.
  intros C I E. destruct e as [i k st|o n i h|i|i|n|n r|n|n|n again|st|n st f|n|st|st].
  - step_cases E. destruct C. by split.
  - cbn in E. destruct (objects w !! i) as [x|] eqn:Ex; [|done]. unfold guard in E.
    destruct (_ && _) eqn:Eg; [|done]. injection E as <-.
    apply andb_true_iff in Eg as [_ Hn%bool_decide_eq_true]. rewrite start_eq by done.
    destruct (in_progress o x); [done|]. by apply count_begin.
  - step_cases E. by apply count_objects.
  - step_cases E. by apply count_objects.
  - step_cases E. by eapply count_ops.
  - cbn in E. destruct (ops w !! n) as [[i st o h []]|] eqn:Eo; try done. unfold guard in E.
    destruct (bound o) eqn:Eb; [destruct (bool_decide _) eqn:Es; [|done]|]; injection E as <-; [|by eapply count_ops].
    apply bool_decide_eq_true in Es. set (w1 := set_ops _ w).
    apply (count_strand w1 st (Some (OpHandler n))); [by eapply count_ops|cbn; congruence|done].
  - cbn in E. destruct (ops w !! n) as [[i st o h []]|] eqn:Eo; try done. injection E as <-.
    split; cbn; try apply C. rewrite (i_pending _ C), (size_delete_old _ _ _ Eo), u64_pred. f_equal. lia.
  - cbn in E. destruct (handlers w !! n) as [[o r []]|] eqn:Hn; try done.
    destruct (objects w !! o_obj o); injection E as <-; [by apply count_handlers|by eapply count_leave].
  - cbn in E. destruct (handlers w !! n) as [[o r []]|] eqn:Hn; try done.
    eapply count_body; [done..|]. cbn. by rewrite Hn.
  - step_cases E. apply bool_decide_eq_true in Heqb.
    apply (count_strand w st None); [done|congruence|done].
  - step_cases E. apply bool_decide_eq_true in Heqb. split; cbn; try apply C.
    rewrite (i_posts _ C), u64_succ, size_insert_new by done. f_equal. lia.
  - step_cases E. split; cbn; try apply C.
    rewrite (i_posts _ C), length_app, (size_delete_old _ _ _ Heqo). cbn. do 2 f_equal. lia.
  - step_cases E. subst. split; cbn; try apply C.
    + assert (entering w !! st = None) as Hn.
      { apply eq_None_not_Some. intros [g Hg]. apply (i_entering _ C) in Hg. congruence. }
      rewrite (i_posts _ C), size_insert_new by done. rewrite (pop_length _ _ _ _ Heqo0). do 2 f_equal. lia.
    + intros st' g. destruct (decide (st = st')) as [->|]; [|rewrite !lookup_insert_ne by done; apply C].
      rewrite !lookup_insert_eq. split; congruence.
  - cbn in E. destruct (strands w !! st) as [[f| |]|] eqn:Es; try done. injection E as <-.
    pose proof (proj2 (i_entering _ C st f) Es) as Hf. split; cbn; try apply C.
    + rewrite (i_posts _ C), (size_delete_old _ _ _ Hf), u64_pred. f_equal. lia.
    + intros st' g. destruct (decide (st = st')) as [->|]; [|rewrite lookup_insert_ne, lookup_delete_ne by done; apply C].
      rewrite lookup_insert_eq, lookup_delete_eq. split; congruence.
Qed.

Lemma reachable_count w : reachable w → count_inv w.
Proof.
  induction 1 as [|w w' e Hr IH E]; [by split|]. eapply count_step; [done|by apply reachable_own|done].
Qed.

(** ** Calls *)

Definition same_op (o o' : op) : Prop :=
  o_obj o = o_obj o' ∧ o_kind o = o_kind o' ∧ o_handler o = o_handler o'.

(** What became of an operation that was active in [w]: it is still active; its handler
    has run and called the client with its result; its handler has found that the
    object is gone; or its handler has found that an accept was aborted, and started
    another with the same handler. *)
Inductive fate (w w' : world) (n : nat) (o : op) : Prop :=
| fate_active o' : active w' n o' → same_op o o' → fate w w' n o
| fate_called r : handlers w !! n = Some (Running o r true) →
    called w' = called w ++ [(n, o_handler o, client_result (o_kind o) r)] →
    (o_kind o ≠ OpSignal → o_kind o ≠ OpTimer → is_Some (objects w !! o_obj o)) → fate w w' n o
| fate_gone r : handlers w !! n = Some (Running o r false) → objects w !! o_obj o = None → fate w w' n o
| fate_again r again st : handlers w !! n = Some (Running o r true) →
    o_kind o = OpAccept → apple = true → ec r = 22 →
    ops w' !! again = Some (Op (o_obj o) st OpAccept (o_handler o) Starting) → fate w w' n o.

Lemma fate_same w w' n o :
  active w n o → (∀ k, k = n → ops w' !! k = ops w !! k ∧ handlers w' !! k = handlers w !! k) → fate w w' n o.
Proof.
  intros Ho Hk. destruct (Hk n eq_refl) as [E1 E2]. apply (fate_active _ _ _ _ o); [|done].
  unfold active. by rewrite E1, E2.
Qed.

Lemma leave_fields o w :
  ops (leave o w) = ops w ∧ handlers (leave o w) = handlers w ∧ called (leave o w) = called w ∧
  started (leave o w) = started w ∧ objects (leave o w) = objects w.
Proof. unfold leave. by destruct (bound (o_kind o)). Qed.
Lemma to_client_fields o w :
  ops (to_client o w) = ops w ∧ handlers (to_client o w) = handlers w ∧ called (to_client o w) = called w ∧
  started (to_client o w) = started w ∧ objects (to_client o w) = objects w.
Proof. unfold to_client. by destruct (bound (o_kind o)). Qed.

(** The last part of a handler, one way or the other. *)
Lemma body_cases w n o r again w' :
  handlers w !! n = Some (Running o r true) → step apple (EBody n again) w = Next w' →
  (∃ obs, w' = to_client o (add_called (n, o_handler o, client_result (o_kind o) r)
                 (set_objects obs (set_handlers (delete n (handlers w)) w))) ∧
     (obs = objects w ∧ touches (o_kind o) = false ∨
      ∃ x, objects w !! o_obj o = Some x ∧ obs = <[o_obj o := touch (o_kind o) r x]> (objects w))) ∨
  (∃ x, o_kind o = OpAccept ∧ (again ∉ started w) ∧ objects w !! o_obj o = Some x ∧ is_aborted_accept apple (ec r) = true ∧
     w' = begin_op again (o_obj o) (strand_ x) OpAccept (o_handler o) (leave o (set_handlers (delete n (handlers w)) w))).
Proof.
  intros Hn E. cbn in E. rewrite Hn in E. destruct (touches (o_kind o)) eqn:Et.
  - destruct (objects w !! o_obj o) as [x|] eqn:Ex; [|done].
    destruct (bool_decide _ && _) eqn:Ea; [|injection E as <-; left; eauto 10].
    apply andb_true_iff in Ea as [Ea%bool_decide_eq_true Eab]. unfold guard in E.
    destruct (bool_decide _) eqn:Eg; [|done]. apply bool_decide_eq_true in Eg. injection E as <-. rewrite accept_of_eq.
    right. exists x. split_and!; [done..|]. unfold leave. by rewrite Ea.
  - injection E as <-. left. exists (objects w). split; [by destruct w|by left].
Qed.

Lemma handler_fate w w' e n o : own_inv w → step apple e w = Next w' → active w n o → fate w w' n o.
Proof.
  intros I E Ho.
  destruct e as [i k st|ok k i h|i|i|k|k r|k|k|k again|st|k st f|k|st|st];
    try (step_cases E; by apply fate_same).
  - cbn in E. destruct (objects w !! i) as [x|] eqn:Ex; [|done]. unfold guard in E.
    destruct (_ && _) eqn:Eg; [|done]. injection E as <-.
    apply andb_true_iff in Eg as [_ Hn%bool_decide_eq_true]. rewrite start_eq by done.
    destruct (in_progress ok x); [by apply fate_same|]. apply fate_same; [done|]. intros ? ->.
    cbn. rewrite lookup_insert_ne; [done|]. intros ->. by apply Hn, (i_known _ I n o Ho).
  - cbn in E. destruct (ops w !! k) as [[i st ok h []]|] eqn:Eo; try done. injection E as <-.
    destruct (decide (k = n)) as [->|Hkn]; [|apply fate_same; [done|]; intros ? ->; cbn; by rewrite lookup_insert_ne].
    destruct Ho as [Ho|(r & b & Ho)]; [|by rewrite (i_apart _ I n) in Ho by by rewrite Eo].
    rewrite Ho in Eo. injection Eo as ->. eapply fate_active; [left; cbn; by rewrite lookup_insert_eq|done].
  - cbn in E. destruct (ops w !! k) as [[i st ok h []]|] eqn:Eo; try done. unfold guard in E.
    assert (ops w' = <[k := Op i st ok h (Completed r)]> (ops w) ∧ handlers w' = handlers w) as [E1 E2]
      by (repeat case_match; by simplify_eq).
    destruct (decide (k = n)) as [->|Hkn];
      [|apply fate_same; [done|]; intros ? ->; by rewrite E1, E2, lookup_insert_ne].
    destruct Ho as [Ho|(r' & b & Ho)]; [|by rewrite (i_apart _ I n) in Ho by by rewrite Eo].
    rewrite Ho in Eo. injection Eo as ->. eapply fate_active; [left; by rewrite E1, lookup_insert_eq|done].
  - cbn in E. destruct (ops w !! k) as [[i st ok h []]|] eqn:Eo; try done. injection E as <-.
    destruct (decide (k = n)) as [->|Hkn];
      [|apply fate_same; [done|]; intros ? ->; cbn; by rewrite lookup_delete_ne, lookup_insert_ne].
    destruct Ho as [Ho|(r' & b & Ho)]; [|by rewrite (i_apart _ I n) in Ho by by rewrite Eo].
    rewrite Ho in Eo. injection Eo as ->. eapply fate_active; [right; cbn; rewrite lookup_insert_eq; eauto|done].
  - cbn in E. destruct (handlers w !! k) as [[o' r []]|] eqn:Hn; try done.
    destruct (decide (k = n)) as [->|Hkn].
    + assert (o' = o) as ->.
      { destruct Ho as [Ho|(r' & b & Ho)]; [by rewrite (i_apart _ I n) in Hn by by rewrite Ho|congruence]. }
      destruct (objects w !! o_obj o) eqn:Ex; [|by eapply fate_gone]. injection E as <-.
      eapply fate_active; [right; cbn; rewrite lookup_insert_eq; eauto|done].
    + apply fate_same; [done|]. intros ? ->. destruct (leave_fields o' (set_handlers (delete k (handlers w)) w)) as (E1 & E2 & _).
      destruct (objects w !! o_obj o'); injection E as <-; rewrite ?E1, ?E2; cbn;
        by rewrite ?lookup_insert_ne, ?lookup_delete_ne.
  - destruct (handlers w !! k) as [[o' r []]|] eqn:Hn; [|cbn in E; by rewrite Hn in E..].
    destruct (decide (k = n)) as [->|Hkn].
    + assert (o' = o) as ->.
      { destruct Ho as [Ho|(r' & b & Ho)]; [by rewrite (i_apart _ I n) in Hn by by rewrite Ho|congruence]. }
      destruct (body_cases _ _ _ _ _ _ Hn E) as [(obs & -> & Hobs)|(x & Ek & Ha & Ex & Eab & ->)].
      * eapply (fate_called _ _ _ _ r); [done|unfold to_client; by destruct (bound (o_kind o))|].
        intros H1 H2. apply (i_locked _ I n o r); [done|]. by destruct (o_kind o).
      * unfold is_aborted_accept in Eab. apply andb_true_iff in Eab as [Eab1 Eab2%Z.eqb_eq].
        eapply (fate_again _ _ _ _ r again); [done..|]. cbn. by rewrite lookup_insert_eq.
    + apply fate_same; [done|]. intros ? ->.
      destruct (body_cases _ _ _ _ _ _ Hn E) as [(obs & -> & Hobs)|(x & Ek & Ha & Ex & Eab & ->)].
      * destruct (to_client_fields o' (add_called (k, o_handler o', client_result (o_kind o') r)
          (set_objects obs (set_handlers (delete k (handlers w)) w)))) as (-> & -> & _). cbn. by rewrite lookup_delete_ne.
      * destruct (leave_fields o' (set_handlers (delete k (handlers w)) w)) as (E1 & E2 & _).
        cbn. rewrite E1, E2. cbn. rewrite lookup_insert_ne, lookup_delete_ne; [done..|].
        intros ->. by apply Ha, (i_known _ I n o Ho).
Qed.

(** An operation whose client was called is over. *)
Record once_inv (w : world) : Prop := {
  i_once : NoDup (called w).*1.*1;
  i_over n : n ∈ (called w).*1.*1 → n ∈ started w ∧ ops w !! n = None ∧ handlers w !! n = None
}.

(** Operations and handlers are only removed, or are new. *)
Lemma once_keep w w' :
  once_inv w → called w' = called w → started w ⊆ started w' →
  (∀ n, n ∈ started w → ops w !! n = None → handlers w !! n = None → ops w' !! n = None ∧ handlers w' !! n = None) →
  once_inv w'.
Proof.
  intros O E Hs Hk. split; rewrite E; [apply O|]. intros n (H1 & H2 & H3)%(i_over _ O).
  destruct (Hk n H1 H2 H3). split; [set_solver|done].
Qed.

Lemma once_step w w' e : own_inv w → once_inv w → step apple e w = Next w' → once_inv w'.
Proof.
  intros I O E.
  destruct e as [i k st|ok k i h|i|i|k|k r|k|k|k again|st|k st f|k|st|st];
    try (step_cases E; by apply (once_keep w)).
  - cbn in E. destruct (objects w !! i) as [x|] eqn:Ex; [|done]. unfold guard in E.
    destruct (_ && _) eqn:Eg; [|done]. injection E as <-.
    apply andb_true_iff in Eg as [_ Hn%bool_decide_eq_true]. rewrite start_eq by done.
    destruct (in_progress ok x); [done|]. apply (once_keep w); [done|done|cbn; set_solver|].
    intros n Hs H1 H2. cbn. rewrite lookup_insert_ne by (by intros ->). done.
  - step_cases E. apply (once_keep w); [done..|]. intros n Hs H1 H2. cbn.
    rewrite lookup_insert_ne; [done|]. intros ->. congruence.
  - assert (∃ o o', ops w !! k = Some o ∧ ops w' = <[k := o']> (ops w) ∧ handlers w' = handlers w ∧ called w' = called w ∧
      started w' = started w) as (o & o' & Ho & E1 & E2 & E3 & E4)
      by (step_cases E; eauto 10).
    apply (once_keep w); [done..|by rewrite E4|]. intros n Hs H1 H2. rewrite E1, E2, lookup_insert_ne; [done|]. intros ->. congruence.
  - step_cases E. apply (once_keep w); [done..|]. intros n Hs H1 H2. cbn.
    rewrite lookup_delete_ne, lookup_insert_ne; [done|..]; intros ->; congruence.
  - cbn in E. destruct (handlers w !! k) as [[o' r []]|] eqn:Hn; try done.
    destruct (leave_fields o' (set_handlers (delete k (handlers w)) w)) as (E1 & E2 & E3 & E4 & _).
    destruct (objects w !! o_obj o'); injection E as <-; (apply (once_keep w); [done|done || by rewrite E3|by rewrite ?E4|]);
      intros n Hs H1 H2; rewrite ?E1, ?E2; cbn.
    + rewrite lookup_insert_ne; [done|]. intros ->. congruence.
    + rewrite lookup_delete_ne; [done|]. intros ->. congruence.
  - destruct (handlers w !! k) as [[o r []]|] eqn:Hn; [|cbn in E; by rewrite Hn in E..].
    assert (ops w !! k = None) as Hk.
    { apply eq_None_not_Some. intros Hs. by rewrite (i_apart _ I k Hs) in Hn. }
    destruct (body_cases _ _ _ _ _ _ Hn E) as [(obs & -> & Hobs)|(x & Ek & Ha & Ex & Eab & ->)].
    + destruct (to_client_fields o (add_called (k, o_handler o, client_result (o_kind o) r)
        (set_objects obs (set_handlers (delete k (handlers w)) w)))) as (E1 & E2 & E3 & E4 & _).
      split; rewrite E3; cbn; rewrite !fmap_app; cbn.
      * apply NoDup_app. split_and!; [apply O| |apply NoDup_singleton].
        intros n Hin ->%list_elem_of_singleton. destruct (i_over _ O k Hin) as (_ & _ & ?). congruence.
      * intros n [Hin| ->%list_elem_of_singleton]%elem_of_app; rewrite E1, E2, E4; cbn.
        -- destruct (i_over _ O n Hin) as (H1 & H2 & H3). split_and!; [done..|]. apply lookup_delete_None. by right.
        -- split_and!; [apply (i_known _ I k o); right; eauto|done|by rewrite lookup_delete_eq].
    + destruct (leave_fields o (set_handlers (delete k (handlers w)) w)) as (E1 & E2 & E3 & E4 & _).
      apply (once_keep w); [done|cbn; by rewrite E3|cbn; rewrite E4; cbn; set_solver|]. intros n Hs H1 H2. cbn. rewrite E1, E2. cbn.
      rewrite lookup_insert_ne by (by intros ->). split; [done|]. apply lookup_delete_None. by right.
Qed.

Lemma reachable_once w : reachable w → once_inv w.
Proof.
  induction 1 as [|w w' e Hr IH E]; [split; [constructor|by intros n ?%elem_of_nil]|].
  eapply once_step; [by apply reachable_own|done..].
Qed.

(** ** Watchers *)

Definition waits (ok : op_kind) : Prop := ok = OpWaitRead ∨ ok = OpWaitWrite.

(** Operation [n] of object [i] is active. *)
Definition act (w : world) (n i : nat) (ok : op_kind) : Prop :=
  ∃ o, active w n o ∧ o_obj o = i ∧ o_kind o = ok.

Record watch_inv (w : world) : Prop := {
  i_flag i x ok : objects w !! i = Some x → waits ok → in_progress ok x = true ↔ ∃ n, act w n i ok;
  i_single n n' i ok : is_Some (objects w !! i) → waits ok → act w n i ok → act w n' i ok → n = n'
}.

Lemma watch_keep w w' :
  watch_inv w →
  (∀ n i ok, is_Some (objects w' !! i) → waits ok → act w' n i ok ↔ act w n i ok) →
  (∀ i x', objects w' !! i = Some x' → ∃ x, objects w !! i = Some x ∧ ∀ ok, in_progress ok x' = in_progress ok x) →
  watch_inv w'.
Proof.
  intros W Ha Hx. split.
  - intros i x' ok Hi Hok. destruct (Hx i x' Hi) as (x & Hi' & ->). rewrite (i_flag _ W i x ok Hi' Hok).
    split; intros [n Hn]; exists n; by apply (Ha n i ok (ex_intro _ x' Hi) Hok).
  - intros n n' i ok [x' Hi] Hok H1 H2. destruct (Hx i x' Hi) as (x & Hi' & _).
    apply (i_single _ W n n' i ok); [by rewrite Hi'|done|by apply (Ha _ i ok (ex_intro _ x' Hi) Hok)..].
Qed.

Lemma act_eq w w' n i ok :
  (∀ k, ops w' !! k = ops w !! k) → (∀ k, handlers w' !! k = handlers w !! k) → act w' n i ok ↔ act w n i ok.
Proof. intros E1 E2. unfold act, active. by setoid_rewrite E1; setoid_rewrite E2. Qed.

Lemma act_begin n i st ok h obs w n' i' ok' :
  own_inv w → n ∉ started w →
  act (begin_op n i st ok h (set_objects obs w)) n' i' ok' ↔ (n' = n ∧ i' = i ∧ ok' = ok) ∨ act w n' i' ok'.
Proof.
  intros I Hn. split.
  - intros (o & Ho & <- & <-). unfold active in Ho. cbn in Ho. destruct (decide (n' = n)) as [->|Hne].
    + destruct Ho as [Ho|Ho]; [rewrite lookup_insert_eq in Ho; injection Ho as <-; by left|].
      destruct (i_known _ I n o (or_intror Ho)). done.
    + rewrite lookup_insert_ne in Ho by done. right. by exists o.
  - intros [(-> & -> & ->)|(o & Ho & <- & <-)].
    + exists (Op i st ok h Starting). split; [left; cbn; by rewrite lookup_insert_eq|done].
    + exists o. split; [|done]. assert (n' ≠ n) by (intros ->; by apply Hn, (i_known _ I n o)).
      destruct Ho as [Ho|Ho]; [left; cbn; by rewrite lookup_insert_ne|by right].
Qed.

Lemma in_progress_set ok ok' b x :
  in_progress ok' (set_in_progress ok b x) =
  if decide (ok = ok' ∧ waits ok) then b else in_progress ok' x.
Proof.
  case_decide as H; [by destruct H as [<- [-> | ->]]|].
  destruct ok, ok'; try done; destruct H; by split; [|by (left + right)].
Qed.

Lemma watch_start w ok n i x h :
  watch_inv w → own_inv w → objects w !! i = Some x → n ∉ started w → watch_inv (start ok n i x h w).
Proof.
  intros W I Hx Hn. rewrite start_eq by done. destruct (in_progress ok x) eqn:Ef; [done|].
  assert (waits ok → ¬ ∃ n, act w n i ok) as Hno.
  { intros Hok Hex. apply (i_flag _ W i x ok Hx Hok) in Hex. congruence. }
  split.
  - intros j y ok' Hj Hok'. setoid_rewrite act_begin; [|done..]. cbn in Hj. destruct (decide (i = j)) as [<-|Hij].
    + rewrite lookup_insert_eq in Hj. injection Hj as <-. rewrite in_progress_set. case_decide as Hd.
      * destruct Hd as [<- _]. split; [intros _; exists n; by left|done].
      * rewrite (i_flag _ W i x ok' Hx Hok'). split; [intros [k Hk]; eauto|].
        intros [k [(_ & _ & ->)|Hk]]; [by destruct Hd|eauto].
    + rewrite lookup_insert_ne in Hj by done. rewrite (i_flag _ W j y ok' Hj Hok').
      split; [intros [k Hk]; eauto|]. intros [k [(_ & -> & _)|Hk]]; [done|eauto].
  - intros k k' j ok' Hj Hok' H1 H2. apply act_begin in H1, H2; [|done..]. cbn in Hj.
    destruct H1 as [(-> & -> & ->)|H1], H2 as [(-> & E1 & E2)|H2]; [done|destruct Hno; eauto|subst; destruct Hno; eauto|].
    apply (i_single _ W k k' j ok'); [|done..]. destruct (decide (i = j)) as [<-|]; [by rewrite Hx|].
    by rewrite lookup_insert_ne in Hj.
Qed.

Lemma watch_create w i k st : watch_inv w → own_inv w → i ∉ created w → watch_inv (create i k st w).
Proof.
  intros W I Hi. split.
  - intros j y ok Hj Hok. cbn in Hj. destruct (decide (i = j)) as [<-|].
    + rewrite lookup_insert_eq in Hj. injection Hj as <-. split; [by destruct Hok as [-> | ->]|].
      intros (n & o & Ho & <- & _). by destruct (i_known _ I n o Ho).
    + rewrite lookup_insert_ne in Hj by done. exact (i_flag _ W j y ok Hj Hok).
  - intros n n' j ok Hj Hok H1 H2. apply (i_single _ W n n' j ok); [|done..]. cbn in Hj.
    destruct (decide (i = j)) as [<-|]; [|by rewrite lookup_insert_ne in Hj].
    destruct H1 as (o & Ho & <- & _). by destruct (i_known _ I n o Ho).
Qed.

(** A running handler is the only trace of its operation. *)
Lemma act_ended w w' k o r b n i ok :
  own_inv w → handlers w !! k = Some (Running o r b) → ops w' = ops w → handlers w' = delete k (handlers w) →
  act w' n i ok ↔ n ≠ k ∧ act w n i ok.
Proof.
  intros I Hk E1 E2. unfold act, active. rewrite E1, E2. split.
  - intros (p & [Hp|(r' & b' & [Hne Hp]%lookup_delete_Some)] & <- & <-); [|split; [done|exists p; split; [right; eauto|done]]].
    split; [|exists p; split; [by left|done]]. intros ->. by rewrite (i_apart _ I k) in Hk by by rewrite Hp.
  - intros [Hne (p & [Hp|(r' & b' & Hp)] & <- & <-)]; exists p; (split; [|done]); [by left|right].
    exists r', b'. by apply lookup_delete_Some.
Qed.

Lemma act_iff w w' n i ok :
  (∀ o, active w' n o → ∃ o', active w n o' ∧ same_op o o') →
  (∀ o, active w n o → ∃ o', active w' n o' ∧ same_op o o') → act w' n i ok ↔ act w n i ok.
Proof.
  intros H1 H2. split; intros (o & Ho & <- & <-);
    [destruct (H1 o Ho) as (o' & Ho' & E & E' & _)|destruct (H2 o Ho) as (o' & Ho' & E & E' & _)]; by exists o'.
Qed.

Lemma act_phase w w' k i st o h ph ph' n j ok :
  ops w !! k = Some (Op i st o h ph) → ops w' = <[k := Op i st o h ph']> (ops w) → handlers w' = handlers w →
  act w' n j ok ↔ act w n j ok.
Proof.
  intros Hk E1 E2. apply act_iff; intros p [Hp|Hp].
  - rewrite E1 in Hp. apply lookup_insert_Some in Hp as [[<- <-]|[_ Hp]]; (eexists; split; [by left|done]).
  - rewrite E2 in Hp. exists p. split; [by right|done].
  - destruct (decide (k = n)) as [->|Hne].
    + rewrite Hk in Hp. injection Hp as <-. eexists. split; [left; by rewrite E1, lookup_insert_eq|done].
    + exists p. split; [left; by rewrite E1, lookup_insert_ne|done].
  - exists p. split; [right; by rewrite E2|done].
Qed.

Lemma act_counted w w' k o r b n j ok :
  own_inv w → ops w !! k = Some o → ops w' = delete k (ops w) →
  handlers w' = <[k := Running o r b]> (handlers w) → act w' n j ok ↔ act w n j ok.
Proof.
  intros I Hk E1 E2. apply act_iff; intros p [Hp|(r' & b' & Hp)].
  - rewrite E1 in Hp. apply lookup_delete_Some in Hp as [_ Hp]. exists p. split; [by left|done].
  - rewrite E2 in Hp. exists p. split; [|done].
    apply lookup_insert_Some in Hp as [[<- [= <- <- <-]]|[_ Hp]]; [by left|right; eauto].
  - exists p. split; [|done]. destruct (decide (k = n)) as [->|Hne].
    + rewrite Hk in Hp. injection Hp as <-. right. rewrite E2, lookup_insert_eq. eauto.
    + left. by rewrite E1, lookup_delete_ne.
  - exists p. split; [|done]. right. rewrite E2, lookup_insert_ne; [eauto|].
    intros ->. by rewrite (i_apart _ I n) in Hp by by rewrite Hk.
Qed.

Lemma act_locked w w' k o r b b' n j ok :
  handlers w !! k = Some (Running o r b) → ops w' = ops w →
  handlers w' = <[k := Running o r b']> (handlers w) → act w' n j ok ↔ act w n j ok.
Proof.
  intros Hk E1 E2. apply act_iff; intros p [Hp|(r' & b'' & Hp)]; exists p; (split; [|done]);
    rewrite ?E1 in Hp; unfold active; rewrite ?E1, ?E2; try by left.
  - right. rewrite E2 in Hp. apply lookup_insert_Some in Hp as [[<- [= <- <- <-]]|[_ Hp]]; eauto.
  - right. destruct (decide (k = n)) as [->|Hne]; [|rewrite lookup_insert_ne by done; eauto].
    rewrite Hk in Hp. injection Hp as <- <- <-. rewrite lookup_insert_eq. eauto.
Qed.

Lemma act_running w k o r b : handlers w !! k = Some (Running o r b) → act w k (o_obj o) (o_kind o).
Proof. intros Hk. exists o. split; [right; eauto|done]. Qed.

Lemma watch_called w k o r c obs :
  watch_inv w → own_inv w → handlers w !! k = Some (Running o r true) →
  (obs = objects w ∧ touches (o_kind o) = false ∨
   ∃ x, objects w !! o_obj o = Some x ∧ obs = <[o_obj o := touch (o_kind o) r x]> (objects w)) →
  watch_inv (to_client o (add_called c (set_objects obs (set_handlers (delete k (handlers w)) w)))).
Proof.
  intros W I Hk Hobs. set (w' := to_client o _).
  destruct (to_client_fields o (add_called c (set_objects obs (set_handlers (delete k (handlers w)) w)))) as (E1 & E2 & _ & _ & E5).
  assert (∀ n i ok, act w' n i ok ↔ n ≠ k ∧ act w n i ok) as Hact by (intros; by eapply (act_ended w w' k o r true)).
  pose proof (act_running w k o r true Hk) as Hrun.
  assert (objects w' = obs) as Eo by exact E5.
  assert (∀ i, is_Some (obs !! i) → is_Some (objects w !! i)) as Hsub.
  { intros i. destruct Hobs as [[-> _]|(x & Hx & ->)]; [done|].
    destruct (decide (o_obj o = i)) as [<-|]; [by rewrite Hx|by rewrite lookup_insert_ne]. }
  split; setoid_rewrite Eo.
  - intros i y ok Hi Hok. setoid_rewrite Hact.
    assert (∃ x, objects w !! i = Some x ∧
      in_progress ok y = if decide (o_obj o = i ∧ o_kind o = ok) then false else in_progress ok x) as (x & Hx & ->).
    { destruct Hobs as [[-> Et]|(x & Hx & ->)].
      - exists y. split; [done|]. case_decide as Hd; [|done]. destruct Hd as [_ Ek]. rewrite Ek in Et. by destruct Hok as [-> | ->].
      - destruct (decide (o_obj o = i)) as [<-|Hne].
        + rewrite lookup_insert_eq in Hi. injection Hi as <-. exists x. split; [done|].
          case_decide as Hd; [destruct Hd as [_ ->]; by destruct Hok as [-> | ->]|].
          destruct Hok as [-> | ->], (o_kind o); try done; by destruct Hd.
        + rewrite lookup_insert_ne in Hi by done. exists y. split; [done|]. by rewrite decide_False by naive_solver. }
    case_decide as Hd.
    + destruct Hd as [<- <-]. split; [done|]. intros (n & Hne & Hn).
      destruct Hne. by apply (i_single _ W n k (o_obj o) (o_kind o)); [rewrite Hx|..].
    + rewrite (i_flag _ W i x ok Hx Hok). split; intros [n Hn]; exists n; [|tauto]. split; [|done].
      intros ->. apply Hd. destruct Hn as (p & Hp & <- & <-).
      destruct Hp as [Hp|(r' & b' & Hp)]; [by rewrite (i_apart _ I k) in Hk by by rewrite Hp|].
      rewrite Hk in Hp. by injection Hp as <-.
  - intros n n' i ok Hi Hok [_ H1]%Hact [_ H2]%Hact. apply (i_single _ W n n' i ok); auto.
Qed.

Lemma watch_step w w' e : watch_inv w → own_inv w → step apple e w = Next w' → watch_inv w'.
Proof.
  intros W I E.
  destruct e as [i k st|ok k i h|i|i|k|k r|k|k|k again|st|k st f|k|st|st];
    try (step_cases E; apply (watch_keep w); [done|by intros; apply act_eq|by eauto]).
  - step_cases E. apply bool_decide_eq_true in Heqb. by apply watch_create.
  - cbn in E. destruct (objects w !! i) as [x|] eqn:Ex; [|done]. unfold guard in E.
    destruct (_ && _) eqn:Eg; [|done]. injection E as <-.
    apply andb_true_iff in Eg as [_ Hn%bool_decide_eq_true]. by apply watch_start.
  - cbn in E. destruct (objects w !! i) as [x|] eqn:Ex; [|done]. unfold guard in E.
    destruct (on_strand x w); [|done]. injection E as <-. apply (watch_keep w); [done|by intros; apply act_eq|].
    intros j x'. cbn. destruct (decide (i = j)) as [<-|]; [|rewrite lookup_insert_ne by done; eauto].
    rewrite lookup_insert_eq. intros [= <-]. exists x. split; [done|]. intros ok. unfold close. by destruct (kind x), ok.
  - cbn in E. destruct (objects w !! i) as [x|] eqn:Ex; [|done]. unfold guard in E.
    destruct (on_strand x w); [|done]. injection E as <-. apply (watch_keep w); [done|by intros; apply act_eq|].
    intros j x'. cbn. intros [_ Hj]%lookup_delete_Some. eauto.
  - cbn in E. destruct (ops w !! k) as [[i st o h []]|] eqn:Eo; try done. injection E as <-.
    apply (watch_keep w); [done| |by eauto]. intros n j ok _ _. eapply (act_phase w _ k); eauto.
  - cbn in E. destruct (ops w !! k) as [[i st o h []]|] eqn:Eo; try done. unfold guard in E.
    assert (ops w' = <[k := Op i st o h (Completed r)]> (ops w) ∧ handlers w' = handlers w ∧ objects w' = objects w) as (E1 & E2 & E3)
      by (repeat case_match; by simplify_eq).
    apply (watch_keep w); [done| |rewrite E3; by eauto]. intros n j ok _ _. eapply (act_phase w _ k); eauto.
  - cbn in E. destruct (ops w !! k) as [[i st o h []]|] eqn:Eo; try done. injection E as <-.
    apply (watch_keep w); [done| |by eauto]. intros n j ok _ _. eapply (act_counted w _ k); eauto.
  - cbn in E. destruct (handlers w !! k) as [[o r []]|] eqn:Hk; try done.
    destruct (objects w !! o_obj o) as [x|] eqn:Ex; injection E as <-.
    + apply (watch_keep w); [done| |by eauto]. intros n j ok _ _. eapply (act_locked w _ k); eauto.
    + destruct (leave_fields o (set_handlers (delete k (handlers w)) w)) as (E1 & E2 & _ & _ & E5).
      apply (watch_keep w); [done| |rewrite E5; by eauto]. intros n j ok [x Hx] _.
      rewrite (act_ended w _ k o r false) by done. split; [tauto|]. intros Hn. split; [|done]. intros ->.
      rewrite E5 in Hx. cbn in Hx. destruct Hn as (p & [Hp|(r' & b' & Hp)] & <- & _); [by rewrite (i_apart _ I k) in Hk by by rewrite Hp|].
      rewrite Hk in Hp. injection Hp as <-. congruence.
  - destruct (handlers w !! k) as [[o r []]|] eqn:Hk; [|cbn in E; by rewrite Hk in E..].
    destruct (body_cases _ _ _ _ _ _ Hk E) as [(obs & -> & Hobs)|(x & Ek & Ha & Ex & Eab & ->)]; [by eapply watch_called|].
    set (w1 := leave o _).
    assert (own_inv w1) as I1 by by eapply own_leave.
    destruct (leave_fields o (set_handlers (delete k (handlers w)) w)) as (E1 & E2 & _ & E4 & E5). fold w1 in E1, E2, E4, E5.
    assert (begin_op again (o_obj o) (strand_ x) OpAccept (o_handler o) w1
      = begin_op again (o_obj o) (strand_ x) OpAccept (o_handler o) (set_objects (objects w1) w1)) as -> by by destruct w1.
    apply (watch_keep w); [done| |cbn; rewrite E5; by eauto].
    intros n j ok _ Hok. rewrite act_begin, (act_ended w w1 k o r true) by (done || by rewrite E4).
    split; [intros [(_ & _ & ->)|[_ Hn]]; [by destruct Hok|done]|]. intros Hn. right. split; [|done]. intros ->.
    destruct Hn as (p & [Hp|(r' & b' & Hp)] & _ & <-); [by rewrite (i_apart _ I k) in Hk by by rewrite Hp|].
    rewrite Hk in Hp. injection Hp as <-. rewrite Ek in Hok. by destruct Hok.
Qed.

Lemma reachable_watch w : reachable w → watch_inv w.
Proof.
  induction 1 as [|w w' e Hr IH E]; [split|eapply watch_step; [done|by apply reachable_own|done]].
  - intros i x ok Hx. discriminate Hx.
  - intros n n' i ok [x Hx]. discriminate Hx.
Qed.

(** ** Posted functions *)

Definition of_strand (st : nat) (l : list (nat * Z)) : list Z := (filter (λ p, p.1 = st) l).*2.

Lemma of_strand_app st l1 l2 : of_strand st (l1 ++ l2) = of_strand st l1 ++ of_strand st l2.
Proof. unfold of_strand. by rewrite filter_app, fmap_app. Qed.

Lemma pop_of_strand st q f q' :
  pop st q = Some (f, q') →
  ∀ st', of_strand st' q = (if decide (st = st') then [f] else []) ++ of_strand st' q'.
Proof.
  revert q'. induction q as [|[st1 g] q IH]; intros q' E st'; [done|]. cbn in E.
  change ((st1, g) :: q) with ([(st1, g)] ++ q). rewrite of_strand_app.
  assert (of_strand st' [(st1, g)] = if decide (st1 = st') then [g] else []) as Eg
    by (unfold of_strand; cbn; by destruct (decide (st1 = st'))).
  destruct (decide (st1 = st)) as [->|Hne]; [injection E as <- <-; by rewrite Eg|].
  destruct (pop st q) as [[g' q'']|] eqn:Ep; [|done]. injection E as -> <-.
  change ((st1, g) :: q'') with ([(st1, g)] ++ q''). rewrite of_strand_app, (IH q'' eq_refl st'), Eg.
  destruct (decide (st1 = st')) as [->|]; [|done]. by rewrite decide_False by congruence.
Qed.

(** The functions posted to a strand are, in order, those that ran, the one that
    is beginning and those that are queued. *)
Definition fifo_inv (w : world) : Prop :=
  ∀ st, of_strand st (posted w)
    = of_strand st (ran w) ++ option_list (entering w !! st) ++ of_strand st (queue w).

Lemma fifo_step w w' e : fifo_inv w → count_inv w → step apple e w = Next w' → fifo_inv w'.
Proof.
  intros F C E.
  destruct e as [i k st|ok k i h|i|i|k|k r|k|k|k again|st|k st f|k|st|st]; try (step_cases E; exact F).
  - cbn in E. destruct (objects w !! i) as [x|] eqn:Ex; [|done]. unfold guard in E.
    destruct (_ && _); [|done]. injection E as <-. rewrite start_eq by done. by destruct (in_progress ok x).
  - step_cases E; unfold leave; [exact F|]. by case_match.
  - destruct (handlers w !! k) as [[o r []]|] eqn:Hk; [|cbn in E; by rewrite Hk in E..].
    destruct (body_cases _ _ _ _ _ _ Hk E) as [(obs & -> & _)|(x & _ & _ & _ & _ & ->)];
      unfold to_client, leave; by destruct (bound (o_kind o)).
  - step_cases E. intros st'. cbn -[of_strand]. rewrite !of_strand_app, (F st'), <- !(assoc_L app). done.
  - cbn in E. destruct (strands w !! st) eqn:Es; [done|]. destruct (pop st (queue w)) as [[f q]|] eqn:Ep; [|done].
    injection E as <-. intros st'. cbn -[of_strand]. rewrite (F st'), (pop_of_strand _ _ _ _ Ep).
    destruct (decide (st = st')) as [<-|]; [|by rewrite lookup_insert_ne].
    rewrite lookup_insert_eq. assert (entering w !! st = None) as ->; [|done].
    apply eq_None_not_Some. intros [g Hg]. apply (i_entering _ C) in Hg. congruence.
  - cbn in E. destruct (strands w !! st) as [[f| |]|] eqn:Es; try done. injection E as <-.
    intros st'. cbn -[of_strand]. rewrite of_strand_app, (F st'). unfold of_strand at 4. cbn.
    destruct (decide (st = st')) as [<-|Hne]; cbn.
    + rewrite (proj2 (i_entering _ C st f) Es), lookup_delete_eq. cbn. by rewrite <- (assoc_L app).
    + by rewrite lookup_delete_ne, app_nil_r by done.
Qed.

Lemma reachable_fifo w : reachable w → fifo_inv w.
Proof.
  induction 1 as [|w w' e Hr IH E]; [done|]. eapply fifo_step; [done|by apply reachable_count|done].
Qed.
End theorems.
