(* ===== verification/ExecutorTheorems.v ===== *)
(** * What the executor promises

    The promises that the objects of [Socket], [Timers] and [Ports] rely on: a
    handler is called at most once, and only while its object exists; and those of
    [Instance]: posted functions of a strand run one at a time, in order. *)
From S2P Require Import Prelude Ieee CppText Executor ExecutorInv.

Section theorems.
Context (apple : bool).
Implicit Types (w : world) (n i st : nat).
Abbreviation reachable := (reachable apple).

(** A handler that is bound to a strand has it. *)
Lemma handler_owner w n o r b :
  reachable w → handlers w !! n = Some (Running o r b) → bound (o_kind o) = true →
  strands w !! o_strand o = Some (OpHandler n).
Proof. intros I%reachable_own Hn Hb. eapply i_holds; [done| |done]. right. by eauto. Qed.

(** C17: no completion handler uses an object that was destroyed: a handler that is
    bound to the strand of its object and has locked the token finds the object
    still there, since only code on that strand may destroy it; the handlers of
    signals and timers, which run on any thread, use nothing but the token. *)
Theorem executor_no_use_after_free w e : reachable w → step apple e w ≠ Undefined.
Proof.
  intros I%reachable_own E. destruct e as [| | | | | | | |n again| | | | |];
    try (unfold step, guard in E; repeat case_match; discriminate).
  cbn in E. destruct (handlers w !! n) as [[o r []]|] eqn:Hn; try done.
  destruct (touches (o_kind o)) eqn:Et; [|done].
  destruct (i_locked _ I n o r Hn) as [x Hx]; [by destruct (o_kind o)|]. rewrite Hx in E.
  unfold guard in E. repeat case_match; discriminate.
Qed.

(** C36: the counters the executor reports are exact: [pending_tasks()] is the
    number of operations between the start and the completion, of every object
    and also of destroyed ones, and [pending_posts()] that of the functions that
    were posted and have not begun; so neither runs below zero, and they are 0
    just when nothing is left to do. *)
Theorem executor_counts w :
  reachable w → Z.of_nat (size (ops w)) < 2 ^ 64 →
  Z.of_nat (size (posting w) + length (queue w) + size (entering w)) < 2 ^ 64 →
  pending_tasks w = Z.of_nat (size (ops w)) ∧
  pending_posts w = Z.of_nat (size (posting w) + length (queue w) + size (entering w)) ∧
  (pending_tasks w = 0 ↔ ops w = ∅).
Proof.
  intros C%reachable_count H1 H2.
  assert (pending_tasks w = Z.of_nat (size (ops w))) as Hp.
  { unfold pending_tasks. rewrite (i_pending _ C). apply u64_small. unfold is_u64. lia. }
  split_and!; [done| |].
  - unfold pending_posts. rewrite (i_posts _ C). apply u64_small. unfold is_u64. lia.
  - rewrite Hp. split; [intros E; apply map_size_empty_inv; lia|intros ->; done].
Qed.

(** C24: no completion handler is lost or called twice: an operation stays active
    until its handler, which has locked the token, calls the client with the very
    result the operation had, which for all but signals and timers happens while
    the object exists; or its handler, before it could lock the token, finds the
    object destroyed; or, on Apple's systems only, the operation is an accept whose
    error is [EINVAL] (22), and an accept with the same handler is started in its
    place.  No operation's client is called a second time. *)
Theorem executor_handler_fate w w' e n o :
  reachable w → step apple e w = Next w' → active w n o → fate apple w w' n o ∧ NoDup (called w').*1.*1.
Proof.
  intros Hr E Ho. split; [eapply handler_fate; [by eapply reachable_own|done..]|].
  apply (reachable_once apple). by eapply reachable_step.
Qed.

(** C28: every completion handler but those of signals and timers runs on the strand
    of its object, which is what [bind_executor] is for: when the last part of such
    a handler runs, the object exists, its strand is taken by this handler, and no
    other handler that is bound to the strand runs on any thread; the client is then
    called on that strand, which stays taken for the client's code.  Only an accept
    that was aborted does not call the client, and leaves the strand. *)
Theorem clients_on_strand w w' n o r again :
  reachable w → handlers w !! n = Some (Running o r true) → o_kind o ≠ OpSignal → o_kind o ≠ OpTimer →
  step apple (EBody n again) w = Next w' →
  ∃ x, objects w !! o_obj o = Some x ∧ strands w !! strand_ x = Some (OpHandler n) ∧
    (∀ k p q b, handlers w !! k = Some (Running p q b) → o_kind p ≠ OpSignal → o_kind p ≠ OpTimer →
       o_strand p = strand_ x → k = n) ∧
    (called w' = called w ++ [(n, o_handler o, client_result (o_kind o) r)] ∧ strands w' !! strand_ x = Some Client ∨
     o_kind o = OpAccept ∧ is_aborted_accept apple (ec r) = true ∧ called w' = called w ∧
     strands w' !! strand_ x = None).
Proof.
  intros Hr Hn H1 H2 E. assert (∀ p, o_kind p ≠ OpSignal → o_kind p ≠ OpTimer → bound (o_kind p) = true) as Hb.
  { intros p. by destruct (o_kind p). }
  pose proof (Hb o H1 H2) as Ho. pose proof (reachable_own _ _ Hr) as I.
  destruct (i_locked _ I n o r Hn Ho) as [x Hx].
  assert (strand_ x = o_strand o) as Es by (eapply (i_obj _ I n); [right; by eauto|done]).
  exists x. rewrite Es. split_and!; [done|by eapply handler_owner| |].
  - intros k p q b Hk Hp1 Hp2 Ek. pose proof (handler_owner _ _ _ _ _ Hr Hk (Hb p Hp1 Hp2)) as Hs1.
    rewrite Ek, (handler_owner _ _ _ _ _ Hr Hn Ho) in Hs1. by injection Hs1.
  - destruct (body_cases _ _ _ _ _ _ _ Hn E) as [(obs & -> & _)|(y & Ek & _ & _ & Eab & ->)]; [left|right].
    + unfold to_client. rewrite Ho. cbn. by rewrite lookup_insert_eq.
    + unfold leave. rewrite Ho. cbn. by rewrite lookup_delete_eq.
Qed.

(** A watcher has at most one wait for reading and one for writing under way,
    and its flag says exactly whether there is one: so a wait that was asked for
    is never dropped without another under way, and after a handler has been
    called a new wait is taken. *)
Theorem watcher_one_wait w i x ok :
  reachable w → objects w !! i = Some x → waits ok →
  (in_progress ok x = true ↔ ∃ n, act w n i ok) ∧
  (∀ n n', act w n i ok → act w n' i ok → n = n').
Proof.
  intros W%reachable_watch Hx Hok. split; [by apply (i_flag _ W)|]. intros n n'.
  apply (i_single _ W); [by rewrite Hx|done].
Qed.

(** Functions posted to a strand begin in the order in which they were queued,
    none is lost and none runs twice; and while one, or a handler bound to the
    strand, is under way, no other begins. *)
Theorem strand_runs_in_order w st :
  reachable w →
  of_strand st (ran w) `prefix_of` of_strand st (posted w) ∧
  (strands w !! st = None → of_strand st (posted w) = of_strand st (ran w) ++ of_strand st (queue w)) ∧
  (is_Some (strands w !! st) → step apple (ERun st) w = Stuck).
Proof.
  intros Hr. pose proof (reachable_fifo _ _ Hr st) as F. pose proof (reachable_count _ _ Hr) as C. split_and!.
  - rewrite F. by apply prefix_app_r.
  - intros Hs. rewrite F. assert (entering w !! st = None) as ->; [|done].
    apply eq_None_not_Some. intros [g Hg]. apply (i_entering _ C) in Hg. congruence.
  - intros [o Ho]. cbn. by rewrite Ho.
Qed.

(** [close] of a UDP socket does nothing: the socket stays open and bound, and
    the receive that is under way stays under way and counted. *)
Theorem udp_close_ineffective w i x :
  objects w !! i = Some x → kind x = KUdp → on_strand x w = true → step apple (EClose i) w = Next w.
Proof.
  intros Hx Hk Hon. cbn. rewrite Hx. unfold guard, close. rewrite Hon, Hk, insert_id by done. by destruct w.
Qed.
End theorems.

(** ** Threads and stacks *)

(** The stack size that worker threads get is the smallest multiple of the page
    size that is no less than what was asked for and the system's minimum. *)
Theorem worker_stack_fits size stack_min page :
  0 <= size → 0 <= stack_min → 0 < page → Z.max size stack_min + page - 1 < 2 ^ 64 →
  let n := worker_stack size stack_min page in
  (page | n) ∧ size <= n ∧ stack_min <= n ∧ n < Z.max size stack_min + page.
Proof.
  intros H1 H2 Hp Hlt. unfold worker_stack. set (m := Z.max size stack_min) in *.
  rewrite (u64_small (m + page - 1)) by (unfold is_u64; lia).
  pose proof (Z.div_mod (m + page - 1) page ltac:(lia)) as Hd.
  pose proof (Z.mod_pos_bound (m + page - 1) page Hp) as Hm.
  rewrite u64_small by (unfold is_u64; nia).
  split_and!; [apply Z.divide_factor_r|nia..].
Qed.

Lemma ato_digits_value d acc :
  Forall (λ c, is_digit c = true) d → ato_digits acc d = foldl (λ a c, a * 10 + (c - 48)) acc d.
Proof.
  intros H. revert acc. induction H as [|c d Hc _ IH]; intros acc; [done|]. cbn. unfold is_digit in Hc. by rewrite Hc, IH.
Qed.

(** What a program prints into the environment [atol] reads back. *)
Lemma atol_int_text v : atol (int_text v) = v.
Proof.
  assert (∀ n, 0 <= n → ato_digits 0 (nat_text n) = n) as Hn.
  { intros n H. destruct (nat_text_spec n H) as (Hv & _ & Hd & _). by rewrite ato_digits_value. }
  unfold int_text. destruct (Z.ltb_spec v 0) as [Hlt|Hge].
  - change (- ato_digits 0 (nat_text (- v)) = v). rewrite Hn by lia. lia.
  - destruct (nat_text_spec v Hge) as (Hv & Hne & Hd & _). pose proof (Hn v Hge) as E.
    destruct (nat_text v) as [|c d]; [done|]. apply Forall_cons in Hd as [Hc _].
    unfold is_digit in Hc. apply andb_true_iff in Hc as [?%Z.leb_le ?%Z.leb_le].
    cbn [atol]. unfold is_space. rewrite !(proj2 (Z.eqb_neq _ _)) by lia. cbn [orb].
    destruct (Z.leb_spec 9 c), (Z.leb_spec c 13); try lia; done.
Qed.

(** The number of threads is within the bounds of the environment, the lower one
    winning where they cross, and [run] works with that many, its own included,
    and with one at least. *)
Theorem thread_bounds lo hi processors :
  let n := threads (Some (int_text lo)) (Some (int_text hi)) processors in
  lo <= n ∧ (lo <= hi → n <= hi) ∧ (lo <= processors <= hi → n = processors) ∧
  spawn_threads n + 1 = Z.max n 1.
Proof.
  unfold threads, spawn_threads, MIN_THREAD, MAX_THREAD. cbn [from_option id]. rewrite !atol_int_text. lia.
Qed.

(** Without settings there are 4 to 64 threads. *)
Example threads_default : threads None None 16 = 16 ∧ threads None None 1 = 4 ∧ threads None None 200 = 64.
Proof. done. Qed.

(** A negative stack size wraps to no stack at all. *)
Example worker_stack_negative : worker_stack (stack_size (Some (str "-1"))) 16384 4096 = 0.
Proof. done. Qed.

(** ** Witnesses *)

Definition ok_result (v : Z) : result := Result 0 v [].

(** A socket is made in a function that was posted to strand 1, and its read is
    under way when it is destroyed; a watcher waits on strand 2. *)
Definition demo : list event :=
  [EPost 1 1 70; EQueue 1; ERun 1; EPostCount 1;
   ECreate 5 KTcp 1; EStart OpRead 10 5 100; ESubmit 10; EReturn 1;
   EPost 2 2 71; EQueue 2; ERun 2; EPostCount 2;
   ECreate 6 KWatcher 2; EStart OpWaitRead 11 6 101; ESubmit 11; EReturn 2;
   EFinish 11 (ok_result 0); ECount 11; ELock 11].

Definition demo_world : world := match run false demo context_impl with Next w => w | _ => context_impl end.

Lemma demo_reachable : ExecutorInv.reachable false demo_world.
Proof.
  apply (reachable_run false demo context_impl); [apply reachable_init|]. vm_compute. reflexivity.
Qed.

Lemma executor_no_use_after_free_witness : step false (EBody 11 0) demo_world ≠ Undefined.
Proof. apply executor_no_use_after_free, demo_reachable. Defined.

Lemma executor_counts_witness :
  pending_tasks demo_world = Z.of_nat (size (ops demo_world)) ∧
  pending_posts demo_world = Z.of_nat (size (posting demo_world) + length (queue demo_world) + size (entering demo_world)) ∧
  (pending_tasks demo_world = 0 ↔ ops demo_world = ∅).
Proof. apply (executor_counts false); [apply demo_reachable|by vm_compute..]. Defined.

Lemma executor_handler_fate_witness :
  ∃ w', step false (EBody 11 0) demo_world = Next w' ∧
    (fate false demo_world w' 11 (Op 6 2 OpWaitRead 101 (Completed (ok_result 0))) ∧ NoDup (called w').*1.*1).
Proof.
  eexists. split; [vm_compute; reflexivity|].
  apply (executor_handler_fate false _ _ (EBody 11 0)); [apply demo_reachable|vm_compute; reflexivity|].
  right. exists (ok_result 0), true. vm_compute. reflexivity.
Defined.

Lemma clients_on_strand_witness :
  ∃ w' x, step false (EBody 11 0) demo_world = Next w' ∧
    objects demo_world !! 6%nat = Some x ∧ strands demo_world !! strand_ x = Some (OpHandler 11) ∧
    (∀ k p q b, handlers demo_world !! k = Some (Running p q b) → o_kind p ≠ OpSignal → o_kind p ≠ OpTimer →
       o_strand p = strand_ x → k = 11%nat) ∧
    (called w' = called demo_world ++ [(11%nat, 101, client_result OpWaitRead (ok_result 0))] ∧
       strands w' !! strand_ x = Some Client ∨
     OpWaitRead = OpAccept ∧ is_aborted_accept false 0 = true ∧ called w' = called demo_world ∧
     strands w' !! strand_ x = None).
Proof.
  destruct (clients_on_strand false demo_world
    match step false (EBody 11 0) demo_world with Next w' => w' | _ => demo_world end 11
    (Op 6 2 OpWaitRead 101 (Completed (ok_result 0))) (ok_result 0) 0) as (x & H);
    [apply demo_reachable|vm_compute; reflexivity|done|done|vm_compute; reflexivity|].
  eexists _, x. split; [|exact H]. vm_compute. reflexivity.
Defined.

Lemma watcher_one_wait_witness :
  (in_progress OpWaitRead (Object KWatcher 2 true [] true false) = true ↔ ∃ n, act demo_world n 6 OpWaitRead) ∧
  (∀ n n', act demo_world n 6 OpWaitRead → act demo_world n' 6 OpWaitRead → n = n').
Proof. apply (watcher_one_wait false); [apply demo_reachable|vm_compute; reflexivity|by left]. Defined.

Lemma strand_runs_in_order_witness :
  of_strand 1 (ran demo_world) `prefix_of` of_strand 1 (posted demo_world) ∧
  (strands demo_world !! 1%nat = None →
   of_strand 1 (posted demo_world) = of_strand 1 (ran demo_world) ++ of_strand 1 (queue demo_world)) ∧
  (is_Some (strands demo_world !! 1%nat) → step false (ERun 1) demo_world = Stuck).
Proof. apply (strand_runs_in_order false), demo_reachable. Defined.

(** A UDP socket whose receive is under way. *)
Definition udp_demo : world :=
  match run false [EPost 1 1 70; EQueue 1; ERun 1; EPostCount 1; ECreate 5 KUdp 1; EStart OpReceive 10 5 100; ESubmit 10]
    context_impl with Next w => w | _ => context_impl end.

Lemma udp_close_ineffective_witness : step false (EClose 5) udp_demo = Next udp_demo.
Proof.
  apply (udp_close_ineffective false _ _ (Object KUdp 1 true [] false false)); vm_compute; reflexivity.
Defined.

Lemma worker_stack_fits_witness :
  (4096 | worker_stack 100000 16384 4096) ∧ 100000 <= worker_stack 100000 16384 4096 ∧
  16384 <= worker_stack 100000 16384 4096 ∧ worker_stack 100000 16384 4096 < Z.max 100000 16384 + 4096.
Proof. apply worker_stack_fits; lia. Defined.
