(* ===== verification/SocketStrands.v ===== *)
(** * Sockets on the executor

    [Socket] takes it for granted that the executor completes the one write
    and the reads it was asked for and nothing else; [Executor] has operations
    with their completion handlers, tokens and strands, for any number of
    objects.  Here a [socket_impl] runs on an object of the executor: its
    calls ([issued]) start operations of that object, close it or destroy it,
    and a completion handler that finds the object calls it. *)
From S2P Require Import Prelude Executor ExecutorInv CborEncode Ieee CborDecode CborMatch Env Instance Actors Socket SocketTheorems.

(** ** What a socket asks for *)

Definition count_x (x : ecall) (l : list ecall) : nat :=
  length (omap (λ y, match x, y with
                     | XWrite, XWrite | XRead, XRead | XClose, XClose | XDestroy, XDestroy => Some ()
                     | _, _ => None end) l).

Lemma count_x_app x l k : count_x x (l ++ k) = (count_x x l + count_x x k)%nat.
Proof. unfold count_x. by rewrite omap_app, length_app. Qed.

Definition writes_under_way (s : sock) : nat := match writing s with Some _ => 1 | None => 0 end.

(** Nothing is asked for without the object, and its destruction is the last. *)
Definition lives (s : sock) (l : list ecall) (s' : sock) : Prop :=
  match impl s, impl s' with
  | None, None => l = []
  | None, Some _ => False
  | Some _, Some _ => count_x XDestroy l = 0%nat
  | Some _, None => ∃ l', l = l' ++ [XDestroy] ∧ count_x XDestroy l' = 0%nat
  end.

(** From [s] to [s'] with the calls [l]: every write and read that is under
    way at the end was there before or is asked for. *)
Record asks (s : sock) (l : list ecall) (s' : sock) : Prop := {
  asks_issued : issued s' = issued s ++ l;
  asks_writes : writes_under_way s' = (writes_under_way s + count_x XWrite l)%nat;
  asks_reads : reading s' = (reading s + count_x XRead l)%nat;
  asks_lives : lives s l s'
}.

Lemma asks_none s s' :
  issued s' = issued s → writes_under_way s' = writes_under_way s → reading s' = reading s →
  (is_Some (impl s') ↔ is_Some (impl s)) → asks s [] s'.
Proof.
  intros E1 E2 E3 E4. split; cbn; rewrite ?app_nil_r; try lia; try done.
  unfold lives. destruct (impl s), (impl s'); try done; naive_solver.
Qed.

Lemma asks_trans s l s1 k s' : asks s l s1 → asks s1 k s' → asks s (l ++ k) s'.
Proof.
  intros [A1 A2 A3 A4] [B1 B2 B3 B4]. split.
  - by rewrite B1, A1, <-(assoc_L app).
  - rewrite B2, A2, count_x_app. lia.
  - rewrite B3, A3, count_x_app. lia.
  - unfold lives in *. destruct (impl s) as [i|], (impl s1) as [i1|], (impl s') as [i'|]; try done.
    + rewrite count_x_app. lia.
    + destruct B4 as (l' & -> & Hl). exists (l ++ l'). rewrite (assoc_L app). split; [done|].
      rewrite count_x_app. lia.
    + subst k. by rewrite app_nil_r.
    + by subst.
Qed.

(** A write is under way only if one is pending. *)
Definition pending_ok (s : sock) : Prop :=
  ∀ i, impl s = Some i → s_write_pending i = false → writing s = None.

Lemma asks_close i s : impl s = Some i → pending_ok s →
  ∃ l, asks s l (close_internal i s) ∧ pending_ok (close_internal i s).
Proof.
  intros Hi Hp. unfold close_internal. destruct (s_open i) eqn:Ho.
  - exists [XClose]. split.
    { split; [done|unfold writes_under_way; cbn; lia|cbn; lia|unfold lives; cbn; by rewrite Hi]. }
    intros j Hj Hn. cbn in Hj. injection Hj as <-. by apply (Hp i).
  - exists []. split; [by apply asks_none|]. intros j Hj Hn. by apply (Hp j).
Qed.

Lemma asks_call c s : pending_ok s → ∃ l, asks s l (socket_call c s) ∧ pending_ok (socket_call c s).
Proof.
  intros Hp. unfold socket_call. destruct (impl s) as [i|] eqn:Hi; [|exists []; split; [by apply asks_none|done]].
  destruct c as [buf| | |].
  - destruct (s_write_pending i) eqn:Ep.
    + exists []. split; [apply asks_none; try done; cbn; by rewrite Hi|]. intros j Hj Hn. cbn in *. by injection Hj as <-.
    + exists [XWrite]. split.
      * split; [done| |cbn; lia|unfold lives; cbn; by rewrite Hi].
        unfold writes_under_way. cbn. by rewrite (Hp i Hi Ep).
      * intros j Hj Hn. cbn in *. by injection Hj as <-.
  - exists [XRead]. split; [|intros j Hj Hn; by apply (Hp j)].
    split; [done|unfold writes_under_way; cbn; lia|cbn; lia|unfold lives; cbn; by rewrite Hi].
  - by apply asks_close.
  - exists [XClose; XDestroy]. split; [|done].
    split; [done|unfold writes_under_way; cbn; lia|cbn; lia|unfold lives; cbn; rewrite Hi; by exists [XClose]].
Qed.

Lemma asks_dispatch m calls s :
  pending_ok s → ∃ l, asks s l (dispatch m calls s) ∧ pending_ok (dispatch m calls s).
Proof.
  intros Hp. unfold dispatch.
  assert (asks s [] (add_msg m s) ∧ pending_ok (add_msg m s)) as [H1 H2] by (split; [by apply asks_none|done]).
  revert H1 H2. generalize (add_msg m s) as s1. generalize ([] : list ecall) as l.
  induction calls as [|c calls IH]; intros l s1 H1 H2; [by exists l|]. cbn.
  destruct (asks_call c s1 H2) as (k & H3 & H4). apply (IH (l ++ k)); [by eapply asks_trans|done].
Qed.

Lemma asks_write_internal i s :
  is_Some (impl s) → writing s = None →
  asks s [XWrite] (write_internal i s) ∧ pending_ok (write_internal i s).
Proof.
  intros [j Hj] Hw. split.
  - split; [done|unfold writes_under_way; cbn; by rewrite Hw|cbn; lia|unfold lives; cbn; by rewrite Hj].
  - intros k Hk Hn. cbn in *. by injection Hk as <-.
Qed.

Lemma held_pending n s : held n s → pending_ok s ∧ writing s = None.
Proof.
  unfold held, pending_ok. intros Hh. destruct (impl s) as [i|]; [|by destruct Hh].
  destruct Hh as (_ & Hp & Hw & _). done.
Qed.

Lemma asks_write_complete n calls ret s :
  held n s → ∃ l, asks s l (write_complete n calls ret s) ∧ pending_ok (write_complete n calls ret s).
Proof.
  intros Hs. destruct (held_pending n s Hs) as [Hp Hw].
  unfold write_complete. destruct (impl s) as [i0|] eqn:Hi0; [|exists []; split; [by apply asks_none|done]].
  cbv zeta. set (m := socket_msg _ _ _).
  pose proof (held_dispatch n m calls s Hs) as H1. destruct (asks_dispatch m calls s Hp) as (l1 & A1 & P1).
  set (s1 := dispatch m calls s) in *. destruct (held_pending n s1 H1) as [_ Hw1].
  destruct (impl s1) as [i|] eqn:Hi; [|by exists l1].
  assert (∃ l2, asks s1 l2 (if ret then s1 else close_internal i s1) ∧
    writing (if ret then s1 else close_internal i s1) = None ∧ is_Some (impl (if ret then s1 else close_internal i s1)))
    as (l2 & A2 & Hw2 & Hi2).
  { destruct ret; [exists []; split; [by apply asks_none|by rewrite Hi]|].
    destruct (asks_close i s1 Hi P1) as (l2 & A2 & _). exists l2. split; [done|].
    destruct (close_internal_fields i s1) as (-> & _). destruct (close_internal_impl i s1 Hi) as (i' & -> & _). done. }
  set (s2 := if ret then s1 else close_internal i s1) in *. set (i2 := if ret then i else set_open false i).
  pose proof (asks_trans _ _ _ _ _ A1 A2) as A3.
  assert (∀ j, ∃ l, asks s l (write_internal j s2) ∧ pending_ok (write_internal j s2)) as Hwi.
  { intros j. destruct (asks_write_internal j s2 Hi2 Hw2) as [A4 P4]. eexists. split; [by eapply asks_trans|done]. }
  destruct (n <? _)%nat; [apply Hwi|]. case_bool_decide; [|apply Hwi].
  eexists. split.
  - eapply asks_trans; [exact A3|]. by apply asks_none.
  - intros j Hj _. exact Hw2.
Qed.

Lemma asks_read_handler ec data calls ret s :
  pending_ok s → ∃ l, asks s l (read_handler ec data calls ret s) ∧ pending_ok (read_handler ec data calls ret s).
Proof.
  intros Hp. unfold read_handler. destruct (impl s) as [i|] eqn:Hi; [|exists []; split; [by apply asks_none|done]].
  cbv zeta.
  assert (∀ m, ∃ l, let s' := match impl (dispatch m calls s) with
    | Some i => if ret then dispatch m calls s else close_internal i (dispatch m calls s)
    | None => dispatch m calls s end in asks s l s' ∧ pending_ok s') as Hc.
  { intros m. destruct (asks_dispatch m calls s Hp) as (l & A & P). destruct (impl (dispatch m calls s)) eqn:Hi'; [|eauto].
    destruct ret; [eauto|]. destruct (asks_close _ _ Hi' P) as (k & B & Q). eexists. split; [by eapply asks_trans|done]. }
  destruct (s_open i); cbn [negb]; [|exists []; split; [by apply asks_none|done]].
  destruct ec as [[value text]|]; [|apply Hc].
  destruct (_ && _); [apply Hc|]. destruct (value =? 125); [by apply asks_close|by apply asks_dispatch].
Qed.

(** ** Completions *)

(** The event that a completion is, and what it is of. *)
Definition completes (e : Socket.event) : option op_kind :=
  match e with
  | EWritten _ _ _ | EWriteError _ _ _ => Some OpWrite
  | ERead _ _ _ _ => Some OpRead
  | ECall _ => None
  end.

(** The operations of a kind that are under way, less the one that completes. *)
Definition under_way (s : sock) (k : op_kind) : nat :=
  match k with OpWrite => writes_under_way s | OpRead => reading s | _ => 0 end.
Definition count_k (k : op_kind) (l : list ecall) : nat :=
  match k with OpWrite => count_x XWrite l | OpRead => count_x XRead l | _ => 0 end.
Definition done_one (e : Socket.event) (k : op_kind) : nat := if decide (completes e = Some k) then 1 else 0.

Lemma ok_pending s : ok s → pending_ok s.
Proof. unfold ok, pending_ok. intros Ho i Hi Hp. rewrite Hi in Ho. destruct Ho as (_ & H & _). by destruct (H Hp). Qed.

(** A step of the socket: one operation less, and those that are asked for. *)
Lemma socket_asks e s s' :
  ok s → Socket.step e s = Some s' →
  ∃ l, issued s' = issued s ++ l ∧ lives s l s' ∧
    ∀ k, (under_way s' k + done_one e k = under_way s k + count_k k l)%nat.
Proof.
  intros Ho He. pose proof (ok_pending s Ho) as Hp. pose proof Ho as Hok. unfold ok in Hok.
  assert (∀ s0 l, issued s0 = issued s → impl s0 = impl s → asks s0 l s' →
    (∀ k, (under_way s0 k + done_one e k = under_way s k)%nat) →
    ∃ l, issued s' = issued s ++ l ∧ lives s l s' ∧
      ∀ k, (under_way s' k + done_one e k = under_way s k + count_k k l)%nat) as Hfrom.
  { intros s0 l E1 E2 [A1 A2 A3 A4] Hk. exists l. rewrite A1, E1. split_and!; [done| |].
    - unfold lives in *. by rewrite E2 in A4.
    - intros k. specialize (Hk k). destruct k; cbn in *; lia. }
  destruct e as [c|n calls ret|ec text calls|ec data calls ret]; cbn [Socket.step] in He.
  - injection He as <-. destruct (asks_call c s Hp) as (l & A & _). apply (Hfrom s l); try done.
  - destruct (writing s) as [buf|] eqn:Hw; [|done]. destruct (Nat.leb_spec n (length buf)) as [Hn|]; [|done].
    injection He as He. set (s0 := set_writing None (add_taken (take n buf) s)) in *.
    assert (∀ k, (under_way s0 k + done_one (EWritten n calls ret) k = under_way s k)%nat) as Hk.
    { intros k. unfold under_way, writes_under_way, done_one. cbn. rewrite Hw. by destruct k; cbn. }
    unfold write_handler in He. change (impl s0) with (impl s) in He. destruct (impl s) as [i|] eqn:Hi.
    + destruct Hok as (H1 & H2 & H3 & H4). pose proof (H3 buf eq_refl) as Eb.
      assert (held n s0) as Hh.
      { unfold held. cbn. rewrite Hi. split_and!; [by rewrite <- Eb| |done|].
        - destruct (s_write_pending i) eqn:Ep; [done|]. by destruct (H2 eq_refl) as [_ E].
        - rewrite <- H1. unfold SocketTheorems.unsent. rewrite <- (assoc_L app). f_equal. rewrite Eb.
          by rewrite (assoc_L app), take_drop. }
      destruct (asks_write_complete n calls ret s0 Hh) as (l & A & _). rewrite He in A. by apply (Hfrom s0 l).
    + subst s'. apply (Hfrom s0 []); try done. by apply asks_none.
  - destruct (writing s) as [buf|] eqn:Hw; [|done]. injection He as He.
    set (s0 := set_failed (set_writing None s)) in *.
    assert (∀ k, (under_way s0 k + done_one (EWriteError ec text calls) k = under_way s k)%nat) as Hk.
    { intros k. unfold under_way, writes_under_way, done_one. cbn. rewrite Hw. by destruct k; cbn. }
    assert (∃ l, asks s0 l s') as [l A]; [|apply (Hfrom s0 l); [done|done|done|]; exact Hk].
    unfold write_handler in He. change (impl s0) with (impl s) in He.
    destruct (impl s) as [i|] eqn:Hi; [|subst s'; exists []; by apply asks_none].
    destruct (asks_dispatch (socket_msg i (str "write_error") [AInt ec; AString text]) calls s0) as (l & A & P); [done|].
    destruct (impl (dispatch _ _ _)) as [i'|] eqn:Hi'; [|subst s'; by exists l].
    destruct (asks_close i' _ Hi' P) as (k & B & _). subst s'. eexists. by eapply asks_trans.
  - destruct (reading s) as [|n] eqn:Hr; [done|]. injection He as <-. set (s0 := set_reading n s).
    destruct (asks_read_handler ec data calls ret s0) as (l & A & _); [exact Hp|].
    apply (Hfrom s0 l); try done. intros k. unfold under_way, done_one. destruct k; cbn; rewrite ?Hr, ?Nat.add_0_r; try done.
    rewrite decide_True by done. lia.
Qed.

(** ** The operations of an object *)

Section executor.
Context (apple : bool).
Implicit Types (w : Executor.world) (e : Executor.event) (n i : nat).
Abbreviation act := ExecutorInv.act.
Abbreviation objects := Executor.objects.
Abbreviation handlers := Executor.handlers.

(** The operations of a stream; a socket is made of one that is connected. *)
Definition stream (k : op_kind) : Prop := k = OpWrite ∨ k = OpRead ∨ k = OpConnect.

(** The handler of [n] calls the client, or finds that its object is gone. *)
Definition ends e w n : Prop :=
  match e with
  | EBody n' _ => n' = n
  | ELock n' => n' = n ∧ ∃ o r, handlers w !! n = Some (Running o r false) ∧ objects w !! o_obj o = None
  | _ => False
  end.

(** Reads and writes come by a call and go with their handler. *)
Lemma act_event e w w' n i k :
  own_inv w → Executor.step apple e w = Executor.Next w' → stream k →
  act w' n i k ↔ (∃ h, e = EStart k n i h) ∨ (act w n i k ∧ ¬ ends e w n).
Proof.
  intros I E Hk.
  assert (∀ P : Prop, (P ↔ act w n i k) → ¬ ends e w n → (∀ h, e ≠ EStart k n i h) →
    P ↔ (∃ h, e = EStart k n i h) ∨ (act w n i k ∧ ¬ ends e w n)) as Hsame by naive_solver.
  destruct e as [j k0 st|ok m j h|j|j|m|m r|m|m|m again|st|m st f|m|st|st];
    try (apply Hsame; [|by intros []|done]; step_cases E; by apply act_eq).
  - cbn in E. destruct (objects w !! j) as [x|] eqn:Ex; [|done]. unfold guard in E.
    destruct (_ && _) eqn:Eg; [|done]. injection E as <-. apply andb_true_iff in Eg as [_ Hn%bool_decide_eq_true].
    rewrite start_eq by done. destruct (in_progress ok x) eqn:Ep.
    + assert (¬ stream ok) as Hno by (intros [-> |[-> | ->]]; done).
      split; [intros Ha; right; split; [done|by intros []]|].
      intros [[h' [= -> -> -> _]]|[Ha _]]; [by destruct Hno|done].
    + rewrite act_begin by done. split.
      * intros [(-> & -> & ->)|Ha]; [left; by exists h|right; split; [done|by intros []]].
      * intros [[h' [= -> -> -> _]]|[Ha _]]; [by left|by right].
  - apply Hsame; [|by intros []|done]. cbn in E. destruct (ops w !! m) as [[j st o h []]|] eqn:Eo; try done. injection E as <-.
    by eapply act_phase.
  - apply Hsame; [|by intros []|done]. cbn in E. destruct (ops w !! m) as [[j st o h []]|] eqn:Eo; try done. unfold guard in E.
    assert (ops w' = <[m := Op j st o h (Completed r)]> (ops w) ∧ handlers w' = handlers w) as [E1 E2]
      by (repeat case_match; by simplify_eq).
    by eapply act_phase.
  - apply Hsame; [|by intros []|done]. cbn in E. destruct (ops w !! m) as [[j st o h []]|] eqn:Eo; try done. injection E as <-.
    by eapply act_counted.
  - cbn in E. destruct (handlers w !! m) as [[o r []]|] eqn:Hm; try done.
    destruct (objects w !! o_obj o) as [x|] eqn:Ex; injection E as <-.
    + apply Hsame; [by eapply act_locked| |done]. intros [<- (o' & r' & Ho' & Hx')]. by simplify_eq.
    + destruct (leave_fields o (set_handlers (delete m (handlers w)) w)) as (E1 & E2 & _).
      rewrite (act_ended w _ m o r false) by done. unfold ends. split.
      * intros [Hne Ha]. right. split; [done|]. by intros [-> _].
      * intros [[h [=]]|[Ha Hn]]. split; [|done]. intros ->. destruct Hn. split; [done|]. by exists o, r.
  - destruct (handlers w !! m) as [[o r []]|] eqn:Hm; [|cbn in E; by rewrite Hm in E..].
    destruct (body_cases _ _ _ _ _ _ _ Hm E) as [(obs & -> & _)|(x & Hacc & Hag & _ & _ & ->)].
    + destruct (to_client_fields o (add_called (m, o_handler o, client_result (o_kind o) r)
        (set_objects obs (set_handlers (delete m (handlers w)) w)))) as (E1 & E2 & _).
      rewrite (act_ended w _ m o r true) by done. naive_solver.
    + destruct (leave_fields o (set_handlers (delete m (handlers w)) w)) as (E1 & E2 & _ & E4 & E5).
      set (w1 := leave o _) in *. assert (own_inv w1) as I1 by by eapply own_leave.
      assert (begin_op again (o_obj o) (strand_ x) OpAccept (o_handler o) w1
        = begin_op again (o_obj o) (strand_ x) OpAccept (o_handler o) (set_objects (objects w1) w1)) as -> by by destruct w1.
      rewrite act_begin, (act_ended w w1 m o r true) by (done || by rewrite E4).
      assert (k ≠ OpAccept) by (destruct Hk as [-> |[-> | ->]]; done). naive_solver.
Qed.

(** *** Counting those of one object *)

Context (x : nat).

Definition counted w (k : op_kind) (m : nat) : Prop :=
  ∃ l : list nat, NoDup l ∧ (∀ n, n ∈ l ↔ act w n x k) ∧ length l = m.

Lemma counted_pos w k m n : counted w k m → act w n x k → ∃ m', m = S m'.
Proof. intros (l & _ & Hl & <-) Hn. apply Hl in Hn. destruct l; [by apply not_elem_of_nil in Hn|by eexists]. Qed.

Lemma counted_keep e w w' k m :
  own_inv w → Executor.step apple e w = Executor.Next w' → stream k →
  (∀ n h, e ≠ EStart k n x h) → (∀ n, act w n x k → ¬ ends e w n) → counted w k m → counted w' k m.
Proof.
  intros I E Hk Hs He (l & H1 & H2 & H3). exists l. split_and!; [done| |done].
  intros n. rewrite H2, (act_event e w w') by done. naive_solver.
Qed.

Lemma counted_start w w' k n h m :
  own_inv w → Executor.step apple (EStart k n x h) w = Executor.Next w' → stream k →
  counted w k m → counted w' k (S m).
Proof.
  intros I E Hk (l & H1 & H2 & H3). exists (n :: l). split_and!; [| |by cbn; rewrite H3].
  - apply NoDup_cons. split; [|done]. rewrite H2. intros (o & Ho & _ & _).
    destruct (i_known _ I n o Ho) as [_ Hst]. cbn in E. destruct (objects w !! x); [|done]. unfold guard in E.
    destruct (_ && _) eqn:Eg; [|done]. apply andb_true_iff in Eg as [_ Hn%bool_decide_eq_true]. done.
  - intros n'. rewrite elem_of_cons, H2, (act_event _ w w') by done. split.
    + intros [-> |Ha]; [left; by exists h|right; split; [done|by intros []]].
    + intros [[h' [= -> _]]|[Ha _]]; [by left|by right].
Qed.

Lemma counted_end e w w' k n m :
  own_inv w → Executor.step apple e w = Executor.Next w' → stream k →
  (∀ k' n' h, e ≠ EStart k' n' x h) → (∀ n', ends e w n' ↔ n' = n) → act w n x k →
  counted w k (S m) → counted w' k m.
Proof.
  intros I E Hk Hs He Ha (l & H1 & H2 & H3). apply H2 in Ha. apply elem_of_Permutation in Ha as [l' Hl].
  rewrite Hl in H1, H3. apply NoDup_cons in H1 as [Hn Hl']. exists l'. split_and!; [done| |by injection H3].
  intros n'. rewrite (act_event e w w') by done. rewrite <- H2, Hl, elem_of_cons, He. split.
  - intros Hin. right. split; [by right|]. by intros ->.
  - intros [[h Hh]|[[-> |Hin] Hne]]; [by destruct (Hs k n' h)|done|done].
Qed.

(** ** Calls *)

(** A call of the executor as the event it is. *)
Definition performs (c : ecall) (e : Executor.event) : Prop :=
  match c with
  | XWrite => ∃ n h, e = EStart OpWrite n x h
  | XRead => ∃ n h, e = EStart OpRead n x h
  | XClose => e = EClose x
  | XDestroy => e = EDestroy x
  end.

Lemma performs_cases c e k :
  performs c e → stream k →
  (count_k k [c] = 1%nat ∧ ∃ n h, e = EStart k n x h) ∨
  (count_k k [c] = 0%nat ∧ (∀ n h, e ≠ EStart k n x h) ∧ ∀ w n, ¬ ends e w n).
Proof.
  intros Hc Hk. destruct c; cbn in Hc; [destruct Hc as (n & h & ->)..|subst e|subst e];
    destruct Hk as [-> |[-> | ->]]; cbn; naive_solver.
Qed.

Lemma run_counted l es k m : Forall2 performs l es → stream k → ∀ w w',
  ExecutorInv.reachable apple w → Executor.run apple es w = Executor.Next w' →
  counted w k m → counted w' k (m + count_k k l).
Proof.
  intros Hf Hk. revert m. induction Hf as [|c e l es Hc Hf IH]; intros m w w' Hr E Hm; cbn in E.
  - injection E as <-. destruct Hk as [-> |[-> | ->]]; cbn; by rewrite Nat.add_0_r.
  - destruct (Executor.step apple e w) as [w1| |] eqn:E1; try done.
    pose proof (ExecutorInv.reachable_own _ w Hr) as I. pose proof (reachable_step _ _ _ _ Hr E1) as Hr1.
    assert (counted w1 k (m + count_k k [c])) as H1.
    { destruct (performs_cases c e k Hc Hk) as [[-> (n & h & ->)]|(-> & Hs & He)].
      - rewrite Nat.add_1_r. by eapply counted_start.
      - rewrite Nat.add_0_r. by eapply counted_keep. }
    specialize (IH _ w1 w' Hr1 E H1).
    assert (count_k k [c] + count_k k l = count_k k (c :: l))%nat as <-.
    { change (c :: l) with ([c] ++ l). destruct Hk as [-> |[-> | ->]]; cbn [count_k]; by rewrite ?count_x_app. }
    by rewrite Nat.add_assoc.
Qed.

(** The object while calls are made: it stays what it is until it is destroyed. *)
Definition held_by w (y : object) : Prop :=
  objects w !! x = Some y ∧ (kind y = KTcp ∨ kind y = KUnx) ∧ Executor.strands w !! strand_ y = Some Executor.Client.

Lemma perform_one c w y :
  held_by w y → c ≠ XDestroy →
  ∃ e w' y', performs c e ∧ Executor.step apple e w = Executor.Next w' ∧ held_by w' y'.
Proof.
  intros (Hy & Hkind & Hst) Hc.
  assert (∀ k, stream k → ∃ w' y', Executor.step apple (EStart k (fresh (started w)) x 0) w = Executor.Next w' ∧ held_by w' y')
    as Hstart.
  { intros k Hk. assert (has_op (kind y) k = true ∧ in_progress k y = false ∧ set_in_progress k true y = y) as (E1 & E2 & E3).
    { destruct Hkind as [-> | ->], Hk as [-> |[-> | ->]]; done. }
    assert (on_strand y w = true) as E4.
    { unfold on_strand. rewrite Hst, bool_decide_true by done. by destruct (kind y). }
    cbn. rewrite Hy, E1, E4, bool_decide_true by apply is_fresh. cbn. eexists _, y. split; [done|].
    rewrite start_eq, E2, E3 by done. unfold held_by. cbn. by rewrite lookup_insert_eq. }
  destruct c; [| | |done].
  - destruct (Hstart OpWrite) as (w' & y' & H1 & H2); [by left|]. eexists _, w', y'. split; [by eexists _, _|done].
  - destruct (Hstart OpRead) as (w' & y' & H1 & H2); [by right; left|]. eexists _, w', y'. split; [by eexists _, _|done].
  - assert (on_strand y w = true) as E4.
    { unfold on_strand. rewrite Hst, bool_decide_true by done. by destruct (kind y). }
    eexists _, _, (close y). split; [done|]. cbn. rewrite Hy, E4. split; [done|]. unfold held_by. cbn.
    rewrite lookup_insert_eq. destruct (close_same y) as [-> ->]. done.
Qed.

Lemma perform_all l w y :
  held_by w y → count_x XDestroy l = 0%nat →
  ∃ es w' y', Forall2 performs l es ∧ Executor.run apple es w = Executor.Next w' ∧ held_by w' y'.
Proof.
  revert w y. induction l as [|c l IH]; intros w y Hw Hl; [by eexists [], w, y|].
  destruct (perform_one c w y Hw) as (e & w1 & y1 & H1 & H2 & H3); [by intros ->|].
  destruct (IH w1 y1 H3) as (es & w' & y' & H4 & H5 & H6); [by destruct c|].
  exists (e :: es), w', y'. split_and!; [by constructor| |done]. cbn. by rewrite H2.
Qed.

Lemma run_snoc es e w :
  Executor.run apple (es ++ [e]) w = match Executor.run apple es w with Executor.Next w => Executor.step apple e w | o => o end.
Proof.
  revert w. induction es as [|e' es IH]; intros w; cbn.
  - by destruct (Executor.step apple e w).
  - destruct (Executor.step apple e' w); [apply IH|done|done].
Qed.

(** Calls that a socket makes from the strand of its object are carried out. *)
Lemma perform_lives s l s' w y :
  held_by w y → is_Some (impl s) → lives s l s' →
  ∃ es w', Forall2 performs l es ∧ Executor.run apple es w = Executor.Next w'.
Proof.
  intros Hw [i Hi] Hl. unfold lives in Hl. rewrite Hi in Hl. destruct (impl s') as [i'|].
  - destruct (perform_all l w y Hw Hl) as (es & w' & _ & H1 & H2 & _). eauto.
  - destruct Hl as (l' & -> & Hl). destruct (perform_all l' w y Hw Hl) as (es & w' & y' & H1 & H2 & (Hy & Hkind & Hst)).
    assert (on_strand y' w' = true) as E4.
    { unfold on_strand. rewrite Hst, bool_decide_true by done. by destruct (kind y'). }
    eexists (es ++ [EDestroy x]), _. split; [by apply Forall2_app; [|constructor]|].
    rewrite run_snoc, H2. cbn. by rewrite Hy, E4.
Qed.

(** What the calls leave of the object. *)
Definition present w : Prop := ∃ y, objects w !! x = Some y ∧ (kind y = KTcp ∨ kind y = KUnx).

Lemma run_present l es w w' :
  Forall2 performs l es → Executor.run apple es w = Executor.Next w' → count_x XDestroy l = 0%nat →
  present w → present w'.
Proof.
  intros Hf. revert w. induction Hf as [|c e l es Hc Hf IH]; intros w E Hd Hp; cbn in E; [by injection E as <-|].
  destruct (Executor.step apple e w) as [w1| |] eqn:E1; try done. apply (IH w1); [done|by destruct c|].
  destruct Hp as (y & Hy & Hk). destruct c; cbn in Hc; [| | |done].
  1, 2: destruct Hc as (n & h & ->); cbn [Executor.step] in E1; rewrite Hy in E1; unfold guard in E1; case_match; [|done];
    rewrite start_eq in E1 by done; injection E1 as <-; exists y; cbn; by rewrite lookup_insert_eq.
  subst e. cbn in E1. rewrite Hy in E1. unfold guard in E1. case_match; [|done]. injection E1 as <-.
  exists (close y). cbn. rewrite lookup_insert_eq. by destruct (close_same y) as [_ ->].
Qed.

(** The object of the executor exists while the socket does. *)
Definition paired w (s : sock) : Prop := match impl s with Some _ => present w | None => objects w !! x = None end.

Lemma run_paired s l s' es w w' :
  Forall2 performs l es → Executor.run apple es w = Executor.Next w' → lives s l s' → paired w s → paired w' s'.
Proof.
  unfold lives, paired. intros Hf E Hl Hp. destruct (impl s) as [i|], (impl s') as [i'|]; try done.
  - by eapply run_present.
  - destruct Hl as (l' & -> & Hl). apply Forall2_app_inv_l in Hf as (es' & es2 & Hf & Hd & ->).
    apply Forall2_cons_inv_l in Hd as (e & es3 & He & Hn & ->). apply Forall2_nil_inv_l in Hn as ->. cbn in He. subst e.
    rewrite run_snoc in E.
    destruct (Executor.run apple es' w) as [w1| |]; try done. cbn in E.
    destruct (objects w1 !! x) as [y|]; [|done]. unfold guard in E. case_match; [|done]. injection E as <-.
    apply lookup_delete_eq.
  - subst l. apply Forall2_nil_inv_l in Hf as ->. by injection E as <-.
Qed.

Lemma created_step e w w' : Executor.step apple e w = Executor.Next w' → created w ⊆ created w'.
Proof.
  intros E. destruct e as [i k st|ok k i h|i|i|k|k r|k|k|k again|st|k st f|k|st|st]; try (by step_cases E).
  - cbn in E. unfold guard in E. case_match; [|done]. injection E as <-. cbn. set_solver.
  - cbn [Executor.step] in E. destruct (objects w !! i) as [y|] eqn:Hy; [|done]. unfold guard in E. case_match; [|done].
    rewrite start_eq in E by done. injection E as <-. by destruct (in_progress ok y).
  - cbn in E. destruct (handlers w !! k) as [[o r []]|]; try done.
    destruct (objects w !! o_obj o); injection E as <-; [done|]. unfold leave. by destruct (bound _).
  - destruct (handlers w !! k) as [[o r []]|] eqn:Hk; [|cbn in E; by rewrite Hk in E..].
    destruct (body_cases _ _ _ _ _ _ _ Hk E) as [(obs & -> & _)|(y & _ & _ & _ & _ & ->)].
    + unfold to_client. by destruct (bound _).
    + cbn. unfold leave. by destruct (bound _).
Qed.

(** ** Both together *)

(** What the socket asks for on its way from [s] to [s'] is carried out. *)
Definition carried w s w' s' : Prop :=
  ∃ l es, issued s' = issued s ++ l ∧ Forall2 performs l es ∧ Executor.run apple es w = Executor.Next w'.

(** The completion that the result of an operation is to the socket. *)
Definition reports (e : Socket.event) (r : Executor.result) : Prop :=
  match e with
  | EWritten m _ _ => ec r = 0 ∧ value r = Z.of_nat m
  | EWriteError c _ _ => c ≠ 0 ∧ ec r = c
  | ERead (Some (c, _)) data _ _ => c ≠ 0 ∧ ec r = c ∧ value r = Z.of_nat (length data)
  | ERead None data _ _ => ec r = 0 ∧ value r = Z.of_nat (length data)
  | ECall _ => False
  end.

(** A write takes no more than it was given. *)
Definition within (e : Socket.event) s : Prop :=
  match e with EWritten m _ _ => ∀ buf, writing s = Some buf → (m <= length buf)%nat | _ => True end.

(** An event that is not about the object. *)
Definition outside e w : Prop :=
  match e with
  | EStart _ _ i _ | EClose i | EDestroy i => i ≠ x
  | EBody n _ => ∀ o r, handlers w !! n = Some (Running o r true) → o_obj o ≠ x
  | ELock n => ∀ o r, handlers w !! n = Some (Running o r false) → o_obj o = x → is_Some (objects w !! x)
  | _ => True
  end.

(** The object is made and the socket of it; the executor does anything else,
    for this object or for others; the owner calls; the handler of an operation
    calls the socket; or it finds that the socket is gone. *)
Inductive joint : Executor.world → sock → Prop :=
| joint_create w w' k st tag :
    ExecutorInv.reachable apple w → k = KTcp ∨ k = KUnx →
    Executor.step apple (ECreate x k st) w = Executor.Next w' → joint w' (socket_create tag)
| joint_outside w w' s e :
    joint w s → outside e w → Executor.step apple e w = Executor.Next w' → joint w' s
| joint_call w w' s c :
    joint w s → carried w s w' (socket_call c s) → joint w' (socket_call c s)
| joint_complete w w1 w' s s' n again o r (ev : Socket.event) :
    joint w s → handlers w !! n = Some (Running o r true) → o_obj o = x →
    Executor.step apple (EBody n again) w = Executor.Next w1 →
    completes ev = Some (o_kind o) → reports ev r → Socket.step ev s = Some s' → carried w1 s w' s' → joint w' s'
| joint_gone w w' s s' n o r (ev : Socket.event) :
    joint w s → handlers w !! n = Some (Running o r false) → o_obj o = x → objects w !! x = None →
    Executor.step apple (ELock n) w = Executor.Next w' →
    completes ev = Some (o_kind o) → reports ev r → Socket.step ev s = Some s' → joint w' s'.

Record joint_inv w s : Prop := {
  j_reachable : ExecutorInv.reachable apple w;
  j_ok : ok s;
  j_created : x ∈ created w;
  j_paired : paired w s;
  j_counted k : stream k → counted w k (under_way s k)
}.

Lemma outside_object e w w' :
  own_inv w → x ∈ created w → outside e w → Executor.step apple e w = Executor.Next w' → objects w' !! x = objects w !! x.
Proof.
  intros I Hx Ho E. destruct e as [i k st|ok k i h|i|i|k|k r|k|k|k again|st|k st f|k|st|st]; cbn in Ho; try (by step_cases E).
  - cbn in E. unfold guard in E. case_match eqn:Ei; [|done]. apply bool_decide_eq_true in Ei. injection E as <-. cbn.
    rewrite lookup_insert_ne; [done|congruence].
  - cbn [Executor.step] in E. destruct (objects w !! i) as [y|] eqn:Hy; [|done]. unfold guard in E. case_match; [|done].
    rewrite start_eq in E by done. injection E as <-. destruct (in_progress ok y); [done|]. cbn. by rewrite lookup_insert_ne.
  - cbn in E. destruct (objects w !! i) as [y|]; [|done]. unfold guard in E. case_match; [|done]. injection E as <-. cbn.
    by rewrite lookup_insert_ne.
  - cbn in E. destruct (objects w !! i) as [y|]; [|done]. unfold guard in E. case_match; [|done]. injection E as <-. cbn.
    by rewrite lookup_delete_ne.
  - cbn in E. destruct (handlers w !! k) as [[o r []]|]; try done.
    destruct (objects w !! o_obj o); injection E as <-; [done|]. unfold leave. by destruct (bound _).
  - destruct (handlers w !! k) as [[o r []]|] eqn:Hk; [|cbn in E; by rewrite Hk in E..].
    specialize (Ho o r eq_refl). destruct (body_cases _ _ _ _ _ _ _ Hk E) as [(obs & -> & Hobs)|(y & _ & _ & _ & _ & ->)].
    + destruct (to_client_fields o (add_called (k, o_handler o, client_result (o_kind o) r)
        (set_objects obs (set_handlers (delete k (handlers w)) w)))) as (_ & _ & _ & _ & ->). cbn.
      destruct Hobs as [[-> _]|(y & _ & ->)]; [done|by rewrite lookup_insert_ne].
    + cbn. by destruct (leave_fields o (set_handlers (delete k (handlers w)) w)) as (_ & _ & _ & _ & ->).
Qed.

(** An active operation whose handler runs is the one of the handler. *)
Lemma act_handler w n i k o r b :
  own_inv w → handlers w !! n = Some (Running o r b) → act w n i k ↔ o_obj o = i ∧ o_kind o = k.
Proof.
  intros I Hn. split.
  - intros (o' & [Ho|(r' & b' & Ho)] & Hi & Hk); [|by simplify_eq].
    pose proof (i_apart _ I n ltac:(by eexists)). congruence.
  - intros [<- <-]. by eapply act_running.
Qed.

Lemma outside_ends e w n k :
  own_inv w → outside e w → (∃ w', Executor.step apple e w = Executor.Next w') → act w n x k → ¬ ends e w n.
Proof.
  intros I Ho [w' E] Ha. destruct e; cbn; try (by intros []).
  - intros [<- (o & r & Hn & Hx)]. destruct (proj1 (act_handler w n0 x k o r false I Hn) Ha) as [Hox _].
    destruct (Ho o r Hn Hox) as [y Hy]. by rewrite Hox, Hy in Hx.
  - intros ->. cbn in E. destruct (handlers w !! n) as [[o r []]|] eqn:Hn; try done.
    destruct (proj1 (act_handler w n x k o r true I Hn) Ha) as [Hox _]. by apply (Ho o r Hn).
Qed.

(** A step of the socket with what it asks for. *)
Lemma joint_carry w w' s s' ev :
  ExecutorInv.reachable apple w → x ∈ created w → paired w s → ok s → Socket.step ev s = Some s' →
  (∀ k, stream k → ∃ m, counted w k m ∧ (m + done_one ev k = under_way s k)%nat) →
  carried w s w' s' → joint_inv w' s'.
Proof.
  intros Hr Hx Hp Ho Hs Hc (l & es & Hl & Hf & E).
  destruct (socket_asks ev s s' Ho Hs) as (l' & Hl' & Hlive & Hk). rewrite Hl in Hl'. simplify_list_eq.
  split; [by eapply reachable_run|by eapply ok_step| |by eapply run_paired|].
  - clear -Hx E. revert w Hx E. induction es as [|e es IH]; intros w Hx E; cbn in E; [by injection E as <-|].
    destruct (Executor.step apple e w) as [w1| |] eqn:E1; try done. apply (IH w1); [|done].
    by apply (created_step _ _ _ E1).
  - intros k Hst. destruct (Hc k Hst) as (m & Hm & Em). specialize (Hk k).
    replace (under_way s' k) with (m + count_k k l')%nat by lia. by eapply run_counted.
Qed.

(** The end of an operation is one less. *)
Lemma completion_counts e w w' s n o r b ev :
  joint_inv w s → Executor.step apple e w = Executor.Next w' → handlers w !! n = Some (Running o r b) → o_obj o = x →
  (∀ k n' h, e ≠ EStart k n' x h) → (∀ n', ends e w n' ↔ n' = n) → completes ev = Some (o_kind o) →
  ∀ k, stream k → ∃ m, counted w' k m ∧ (m + done_one ev k = under_way s k)%nat.
Proof.
  intros J E Hn Hx Hs He Hev k Hk. pose proof (ExecutorInv.reachable_own _ w (j_reachable _ _ J)) as I.
  pose proof (j_counted _ _ J k Hk) as Hc. unfold done_one. rewrite Hev.
  destruct (decide (Some (o_kind o) = Some k)) as [[= <-]|Hne].
  - assert (act w n x (o_kind o)) as Ha by by eapply act_handler.
    destruct (counted_pos _ _ _ _ Hc Ha) as [m Hm]. exists m. split; [|lia]. rewrite Hm in Hc. by eapply counted_end.
  - exists (under_way s k). split; [|lia]. eapply counted_keep; [done..| |done].
    intros n' Ha ->%He. apply Hne. f_equal. by apply (act_handler w n x k o r b I Hn).
Qed.

Lemma completes_kind ev k : completes ev = Some k → (k = OpWrite ∨ k = OpRead) ∧ bound k = true ∧ touches k = false.
Proof. destruct ev; intros [= <-]; auto. Qed.

Lemma body_client n again w o r :
  handlers w !! n = Some (Running o r true) → bound (o_kind o) = true → touches (o_kind o) = false →
  ∃ w', Executor.step apple (EBody n again) w = Executor.Next w' ∧ objects w' = objects w ∧
    Executor.strands w' = <[o_strand o := Executor.Client]> (Executor.strands w).
Proof.
  intros Hn Hb Ht. eexists. cbn. rewrite Hn, Ht. split; [done|]. unfold to_client. by rewrite Hb.
Qed.

Lemma joint_ok w s : joint w s → joint_inv w s.
Proof.
  induction 1 as [w w' k st tag Hr Hk E|w w' s e HJ J Ho E|w w' s c HJ J Hc
    |w w1 w' s s' n again o r ev HJ J Hn Hx E Hev Hrep Hs Hc|w w' s s' n o r ev HJ J Hn Hx Hy E Hev Hrep Hs].
  - pose proof (ExecutorInv.reachable_own _ w Hr) as I. assert (x ∉ created w) as Hx.
    { cbn in E. unfold guard in E. case_match eqn:Ei; [|done]. by apply bool_decide_eq_true in Ei. }
    assert (∀ k, stream k → counted w' k 0) as Hc.
    { intros k' Hk'. exists []. split_and!; [constructor| |done]. intros n. rewrite elem_of_nil, (act_event _ w w') by done.
      split; [done|]. intros [[h [=]]|[(o & Ho & <- & _) _]]. by destruct (i_known _ I n o Ho). }
    split; [by eapply reachable_step|by apply ok_create| | |].
    + cbn in E. rewrite bool_decide_true in E by done. injection E as <-. cbn. set_solver.
    + cbn in E. rewrite bool_decide_true in E by done. injection E as <-. eexists. cbn. by rewrite lookup_insert_eq.
    + intros k' Hk'. destruct Hk' as [-> |[-> | ->]]; apply Hc; [by left|by right; left|by right; right].
  - destruct J as [Hr Hok Hx Hp Hc]. pose proof (ExecutorInv.reachable_own _ w Hr) as I.
    split; [by eapply reachable_step|done|by apply (created_step _ _ _ E)| |].
    + unfold paired, present. by rewrite (outside_object e w w').
    + intros k Hk. eapply counted_keep; [done..| | |by apply Hc].
      * intros n h ->. by apply Ho.
      * intros n Ha. eapply outside_ends; eauto.
  - destruct J as [Hr Hok Hx Hp Hcn]. eapply (joint_carry w w' s _ (ECall c)); try done.
    intros k Hk. exists (under_way s k). split; [by apply Hcn|]. unfold done_one. rewrite decide_False by done. lia.
  - destruct (completes_kind _ _ Hev) as (_ & Hb & Ht).
    destruct (body_client n again w o r Hn Hb Ht) as (w2 & E2 & Eo & _). rewrite E in E2. injection E2 as <-.
    eapply (joint_carry w1 w' s s' ev); [by eapply reachable_step, E; apply J|by apply (created_step _ _ _ E), J| |by apply J|done| |done].
    + unfold paired, present. rewrite Eo. apply J.
    + eapply completion_counts; try done.
  - assert (impl s = None) as Hi.
    { pose proof (j_paired _ _ J) as Hp. unfold paired in Hp. destruct (impl s); [|done]. destruct Hp as (y & Hy' & _). congruence. }
    assert (objects w' = objects w) as Eo.
    { cbn in E. rewrite Hn, Hx, Hy in E. injection E as <-. unfold leave. by destruct (bound _). }
    eapply (joint_carry w' w' s s' ev); [by eapply reachable_step, E; apply J|by apply (created_step _ _ _ E), J| |by apply J|done| |].
    + unfold paired, present. rewrite Eo. apply J.
    + eapply completion_counts; try done. intros n'. cbn. split; [by intros [-> _]|]. intros ->. split; [done|].
      exists o, r. by rewrite Hx.
    + destruct (socket_asks ev s s' (j_ok _ _ J) Hs) as (l & Hl & Hlive & _). unfold lives in Hlive. rewrite Hi in Hlive.
      destruct (impl s'); [done|]. subst l. by exists [], [].
Qed.

Lemma socket_run_snoc es s1 ev s s' :
  Socket.run es s1 = Some s → Socket.step ev s = Some s' → Socket.run (es ++ [ev]) s1 = Some s'.
Proof.
  revert s1. induction es as [|e es IH]; intros s1 Hr Hs; cbn in *; [by simplify_eq; rewrite Hs|].
  destruct (Socket.step e s1); [by apply IH|done].
Qed.

Lemma joint_run w s : joint w s → ∃ tag es, Socket.run es (socket_create tag) = Some s.
Proof.
  induction 1 as [w w' k st tag|w w' s e _ IH _ _|w w' s c _ IH _|w w1 w' s s' n again o r ev _ IH _ _ _ _ _ Hs _
    |w w' s s' n o r ev _ IH _ _ _ _ _ _ Hs]; [by exists tag, []|done|..]; destruct IH as (tag & es & Hr).
  - exists tag, (es ++ [ECall c]). by eapply socket_run_snoc.
  - exists tag, (es ++ [ev]). by eapply socket_run_snoc.
  - exists tag, (es ++ [ev]). by eapply socket_run_snoc.
Qed.

Lemma counted_some w k m n : counted w k m → act w n x k → (0 < m)%nat.
Proof. intros Hc Ha. destruct (counted_pos w k m n Hc Ha) as [m' ->]. lia. Qed.

(** A completion that the executor reports is one that the socket waits for. *)
Lemma completion_expected w s n o r b ev :
  joint_inv w s → handlers w !! n = Some (Running o r b) → o_obj o = x →
  completes ev = Some (o_kind o) → within ev s → is_Some (Socket.step ev s).
Proof.
  intros J Hn Hx Hev Hin. pose proof (act_running w n o r b Hn) as Ha. rewrite Hx in Ha.
  destruct (completes_kind _ _ Hev) as (Hk & _ & _).
  assert (stream (o_kind o)) as Hst by (destruct Hk as [-> | ->]; unfold stream; auto).
  pose proof (counted_some _ _ _ _ (j_counted _ _ J _ Hst) Ha) as Hc.
  destruct ev as [c|m calls ret|c text calls|c data calls ret]; [done|..]; injection Hev as Hev; rewrite <- Hev in Hc; cbn in Hc |- *;
    unfold writes_under_way in Hc.
  - cbn in Hin. destruct (writing s) as [buf|]; [|lia]. specialize (Hin buf eq_refl).
    apply Nat.leb_le in Hin. rewrite Hin. by eexists.
  - destruct (writing s); [by eexists|lia].
  - destruct (reading s); [lia|by eexists].
Qed.

(** While the socket exists the executor has nothing for it but its writes and reads. *)
Lemma handler_kind w s n o r b :
  joint_inv w s → is_Some (impl s) → handlers w !! n = Some (Running o r b) → o_obj o = x →
  o_kind o = OpWrite ∨ o_kind o = OpRead.
Proof.
  intros J [i Hi] Hn Hx. pose proof (ExecutorInv.reachable_own _ w (j_reachable _ _ J)) as I.
  pose proof (j_paired _ _ J) as Hp. unfold paired in Hp. rewrite Hi in Hp. destruct Hp as (y & Hy & Hk).
  destruct (i_obj _ I n o y) as [_ Hop]; [right; eauto|by rewrite Hx|].
  assert (o_kind o ≠ OpConnect).
  { intros Ek. pose proof (act_running w n o r b Hn) as Ha. rewrite Hx, Ek in Ha.
    assert (stream OpConnect) as Hst by (right; by right).
    pose proof (counted_some _ _ _ _ (j_counted _ _ J _ Hst) Ha). cbn in *. lia. }
  destruct Hk as [Hk | Hk]; rewrite Hk in Hop; destruct (o_kind o); auto; done.
Qed.

Lemma carry_from w s s' ev y :
  ok s → is_Some (impl s) → held_by w y → Socket.step ev s = Some s' → ∃ w', carried w s w' s'.
Proof.
  intros Ho Hi Hy Hs. destruct (socket_asks ev s s' Ho Hs) as (l & Hl & Hlive & _).
  destruct (perform_lives s l s' w y Hy Hi Hlive) as (es & w' & Hf & E). exists w', l, es. done.
Qed.

Lemma paired_impl w s y :
  paired w s → objects w !! x = Some y → is_Some (impl s) ∧ (kind y = KTcp ∨ kind y = KUnx).
Proof.
  unfold paired, present. intros Hp Hy. destruct (impl s); [|congruence]. destruct Hp as (y' & Hy' & Hk). split; [done|].
  congruence.
Qed.

(** C32: a socket runs on the executor as its model has it.  Over any interleaving of a
    socket, the executor and everything else that runs on it, the socket goes through a
    run of [Socket], so that the theorems on it hold; the write that it waits for is
    exactly one operation of the executor, and its reads are as many as it waits for;
    while it exists its object has no other operations, and a handler that is called
    reports a completion that the socket waits for; from such a handler, and from code
    of the owner on the strand, whatever the socket then asks for the executor carries
    out: it is called on its strand and of an object that exists. *)
Theorem socket_on_executor w s :
  joint w s →
  (∃ tag es, Socket.run es (socket_create tag) = Some s) ∧
  counted w OpWrite (writes_under_way s) ∧ counted w OpRead (reading s) ∧
  (∀ n o r b, handlers w !! n = Some (Running o r b) → o_obj o = x →
    (is_Some (impl s) → o_kind o = OpWrite ∨ o_kind o = OpRead) ∧
    ∀ ev, completes ev = Some (o_kind o) → within ev s → is_Some (Socket.step ev s)) ∧
  (∀ n again o r ev s', handlers w !! n = Some (Running o r true) → o_obj o = x →
    completes ev = Some (o_kind o) → Socket.step ev s = Some s' →
    ∃ w1 w', Executor.step apple (EBody n again) w = Executor.Next w1 ∧ carried w1 s w' s') ∧
  (∀ y c, objects w !! x = Some y → Executor.strands w !! strand_ y = Some Executor.Client →
    ∃ w', carried w s w' (socket_call c s)).
Proof.
  intros HJ. pose proof (joint_ok w s HJ) as J. pose proof (ExecutorInv.reachable_own _ w (j_reachable _ _ J)) as I.
  split_and!; [by eapply joint_run|apply (j_counted _ _ J); by left|apply (j_counted _ _ J); by right; left|..].
  - intros n o r b Hn Hx. split; [intros Hi; by eapply handler_kind|]. intros ev Hev Hin. by eapply completion_expected.
  - intros n again o r ev s' Hn Hx Hev Hs. destruct (completes_kind _ _ Hev) as (_ & Hb & Ht).
    destruct (body_client n again w o r Hn Hb Ht) as (w1 & E & Eo & Est).
    destruct (i_locked _ I n o r Hn Hb) as [y Hy]. destruct (i_obj _ I n o y) as [Hst _]; [right; eauto|done|].
    rewrite Hx in Hy. destruct (paired_impl w s y (j_paired _ _ J) Hy) as [Hi Hk].
    destruct (carry_from w1 s s' ev y (j_ok _ _ J) Hi) as [w' Hc]; [|done|by eauto].
    split_and!; [by rewrite Eo|done|]. rewrite Est, Hst. apply lookup_insert_eq.
  - intros y c Hy Hst. destruct (paired_impl w s y (j_paired _ _ J) Hy) as [Hi Hk].
    by eapply (carry_from w s _ (ECall c) y (j_ok _ _ J) Hi).
Qed.
End executor.

(** ** A run *)

(** Code on the strand 5 makes the object 0 and a socket of it, and writes three octets;
    the kernel takes two, and the handler of the write has found the object. *)
Definition demo_begin : list Executor.event :=
  [EPost 0 5 9; EQueue 0; ERun 5; EPostCount 5].
Definition demo_sent : list Executor.event :=
  [ESubmit 0; EReturn 5; EFinish 0 (Executor.Result 0 2 []); ECount 0].
Definition demo_world (es : list Executor.event) : Executor.world :=
  match Executor.run false es Executor.context_impl with Executor.Next w => w | _ => Executor.context_impl end.
Definition demo_socket : sock := socket_call (CWrite [1; 2; 3]) (socket_create (str "t")).
Definition demo_made : list Executor.event := demo_begin ++ [ECreate 0 KTcp 5].
Definition demo_events : list Executor.event := demo_made ++ [EStart OpWrite 0 0 0] ++ demo_sent ++ [ELock 0].

Lemma demo_joint : joint false 0 (demo_world demo_events) demo_socket.
Proof.
  assert (joint false 0 (demo_world demo_made) (socket_create (str "t"))) as H1.
  { eapply (joint_create _ _ (demo_world demo_begin) _ KTcp 5); [|by left|by vm_compute].
    eapply (reachable_run _ demo_begin); [apply reachable_init|by vm_compute]. }
  assert (joint false 0 (demo_world (demo_made ++ [EStart OpWrite 0 0 0])) demo_socket) as H2.
  { eapply joint_call; [exact H1|]. exists [XWrite], [EStart OpWrite 0 0 0].
    split_and!; [done|repeat constructor; by eexists _, _|by vm_compute]. }
  assert (∀ es e, joint false 0 (demo_world es) demo_socket → outside 0 e (demo_world es) →
    Executor.step false e (demo_world es) = Executor.Next (demo_world (es ++ [e])) →
    joint false 0 (demo_world (es ++ [e])) demo_socket) as Hgo by (intros es e; apply joint_outside).
  set (es := demo_made ++ [EStart OpWrite 0 0 0]) in *.
  change demo_events with (((((es ++ [ESubmit 0]) ++ [EReturn 5]) ++ [EFinish 0 (Executor.Result 0 2 [])]) ++ [ECount 0]) ++ [ELock 0]).
  do 5 (apply Hgo; [|first [exact I|intros o r _ _; by eexists]|by vm_compute]). exact H2.
Qed.

Lemma socket_on_executor_witness :
  ∃ w1 w' s', Executor.step false (EBody 0 0) (demo_world demo_events) = Executor.Next w1 ∧
    Socket.step (EWritten 2 [CRead] true) demo_socket = Some s' ∧ carried false 0 w1 demo_socket w' s' ∧
    counted 0 (demo_world demo_events) OpWrite 1.
Proof.
  destruct (socket_on_executor false 0 _ _ demo_joint) as (_ & Hw & _ & Hh & Hb & _).
  assert (handlers (demo_world demo_events) !! 0%nat =
    Some (Running (Op 0 5 OpWrite 0 (Completed (Executor.Result 0 2 []))) (Executor.Result 0 2 []) true)) as Hn by reflexivity.
  destruct (Hh 0%nat _ _ _ Hn eq_refl) as [_ He].
  destruct (He (EWritten 2 [CRead] true) eq_refl) as [s' Hs]; [intros buf Hbuf; injection Hbuf as <-; cbn; lia|].
  destruct (Hb 0%nat 0%nat _ _ (EWritten 2 [CRead] true) s' Hn eq_refl eq_refl Hs) as (w1 & w' & E & Hc).
  exists w1, w', s'. split; [exact E|]. split; [exact Hs|]. split; [exact Hc|exact Hw].
Defined.
