(* ===== verification/Descriptors.v ===== *)
(** * Addresses, file descriptors and threads of the executor

    The rest of [src/src/executor_asio.cpp]: what is not about completions.  Who
    owns a file descriptor: the Asio object inside of a socket, acceptor or watcher,
    or the client, who holds it as a number; binding and listening; the threads of a
    context.  A watcher uses a descriptor that stays the client's.

    Of Asio this takes what it documents: a socket that is made with a protocol is
    open, one without is opened when it connects, one that is made from a descriptor
    takes it over; [close] and the destructor close the descriptor if there is one;
    [release] gives it up, and throws if there is none.  The operating system
    chooses a descriptor that is not open, and error codes (0 is none).

    A descriptor is a number, and nothing keeps a client from closing or giving away
    one that is not its own; [fd_step] lets it, and [disciplined] says that it does
    not, which is what the theorem on ownership assumes of the client. *)
From S2P Require Import Prelude Executor.

(** ** Addresses *)

(** [in6_addr] and [address_v6::bytes_type] are sixteen octets. *)
Definition in6_addr : Type := bytes.
Definition address_v6 : Type := bytes.
Record endpoint : Type := Endpoint { ip : in6_addr; port : Z }.

(** [memcpy] of the octets, one way and the other *)
Definition to_address (a : in6_addr) : address_v6 := take 16 a.
Definition to_in6_addr (a : address_v6) : in6_addr := take 16 a ++ replicate (16 - length a) 0.
Definition to_endpoint_tcp (a : in6_addr) (port : Z) : endpoint := Endpoint (to_address a) port.
Definition to_endpoint_udp (a : in6_addr) (port : Z) : endpoint := Endpoint (to_address a) port.

Lemma address_roundtrip a : length a = 16%nat → to_in6_addr (to_address a) = a.
Proof.
  intros H. unfold to_in6_addr, to_address. rewrite take_take, length_take, H.
  rewrite take_ge by lia. apply app_nil_r.
Qed.

(** ** State *)

(** An object: the descriptor of [socket_], [acceptor_] or [fd_], that of the member
    [socket_] of an acceptor, and the address it is bound to. *)
Record sobject : Type := SObject {
  s_kind : obj_kind;
  native : option Z;
  accepted : option Z;
  local_ : option endpoint;
  listening : bool
}.

(** The objects; the descriptors the client holds as numbers; those that are open;
    those that [::close] was called with, in order. *)
Record fds : Type := Fds {
  sobjects : gmap nat sobject;
  held : gset Z;
  opened : gset Z;
  closed : list Z
}.

Definition no_fds : fds := Fds ∅ ∅ ∅ [].

Definition set_sobjects v s := Fds v (held s) (opened s) (closed s).
Definition hold fd s := Fds (sobjects s) ({[fd]} ∪ held s) (opened s) (closed s).
Definition unhold fd s := Fds (sobjects s) (held s ∖ {[fd]}) (opened s) (closed s).
Definition kernel_open fd s := Fds (sobjects s) (held s) ({[fd]} ∪ opened s) (closed s).
(** [::close] *)
Definition kernel_close fd s := Fds (sobjects s) (held s) (opened s ∖ {[fd]}) (closed s ++ [fd]).
Definition kernel_close_opt (fd : option Z) s := match fd with Some fd => kernel_close fd s | None => s end.

Definition set_native v x := SObject (s_kind x) v (accepted x) (local_ x) (listening x).
Definition set_accepted v x := SObject (s_kind x) (native x) v (local_ x) (listening x).
Definition set_local v x := SObject (s_kind x) (native x) (accepted x) v (listening x).
Definition set_listening x := SObject (s_kind x) (native x) (accepted x) (local_ x) true.
Definition set_closed x := SObject (s_kind x) None (accepted x) None false.
Definition put (i : nat) (x : sobject) (s : fds) : fds := set_sobjects (<[i := x]> (sobjects s)) s.

(** ** What Asio does *)

(** A socket or acceptor that is made with a protocol, without one, and from a
    descriptor, which the client gives away *)
Definition made_open (k : obj_kind) (i : nat) (fd : Z) (s : fds) : fds :=
  put i (SObject k (Some fd) None None false) (kernel_open fd s).
Definition made_closed (k : obj_kind) (i : nat) (s : fds) : fds :=
  put i (SObject k None None None false) s.
Definition made_from (k : obj_kind) (i : nat) (fd : Z) (s : fds) : fds :=
  put i (SObject k (Some fd) None None false) (unhold fd s).

(** [bind] of an endpoint, with the error code of the system; the system chooses the
    port if it is 0. *)
Definition bound_to (x : sobject) (e : endpoint) (chosen ec : Z) : sobject * Z :=
  if ec =? 0 then (set_local (Some (Endpoint (ip e) (if port e =? 0 then chosen else port e))) x, 0) else (x, ec).

(** [listen] *)
Definition now_listening (x : sobject) (ec : Z) : sobject * Z := if ec =? 0 then (set_listening x, 0) else (x, ec).

(** The address as an [executor::endpoint]; [None]: Asio throws. *)
Definition reports (x : sobject) : option endpoint :=
  e ← local_ x; Some (Endpoint (to_in6_addr (ip e)) (port e)).

(** [close], and [release], which throws ([None]) when nothing is open *)
Definition asio_close (i : nat) (x : sobject) (s : fds) : fds :=
  put i (set_closed x) (kernel_close_opt (native x) s).
Definition asio_release (i : nat) (x : sobject) (s : fds) : option (fds * Z) :=
  match native x with
  | Some fd => Some (hold fd (put i (set_native None x) s), fd)
  | None => None
  end.

(** [async_connect] opens a socket that is not open; an accept leaves the descriptor
    in the member [socket_]. *)
Definition connect_opens (i : nat) (x : sobject) (fd : Z) (s : fds) : fds :=
  match native x with Some _ => s | None => put i (set_native (Some fd) x) (kernel_open fd s) end.
Definition accept_completes (i : nat) (x : sobject) (fd : Z) (s : fds) : fds :=
  put i (set_accepted (Some fd) x) (kernel_open fd s).

(** [s->release()] of the member [socket_] in the handler of an accept *)
Definition release_accepted (i : nat) (x : sobject) (s : fds) : fds * Z :=
  match accepted x with
  | Some fd => (hold fd (put i (set_accepted None x) s), fd)
  | None => (s, -1)
  end.

(** ** The objects *)

(** [udp::socket_impl]; [udp::socket::close] is empty. *)
Definition udp_socket_impl (i : nat) (fd : Z) (s : fds) : fds := made_open KUdp i fd s.
Definition udp_bind (x : sobject) (a : in6_addr) (p chosen ec : Z) : sobject * Z :=
  bound_to x (to_endpoint_udp a p) chosen ec.
Definition udp_local_endpoint (x : sobject) : option endpoint := reports x.
Definition udp_close (i : nat) (x : sobject) (s : fds) : fds := s.

(** [tcp::socket_impl] *)
Definition tcp_socket_impl (i : nat) (fd : Z) (s : fds) : fds := made_open KTcp i fd s.
Definition tcp_socket_impl_fd (i : nat) (fd : Z) (s : fds) : fds := made_from KTcp i fd s.
Definition tcp_bind (x : sobject) (a : in6_addr) (p chosen ec : Z) : sobject * Z :=
  bound_to x (to_endpoint_tcp a p) chosen ec.
Definition tcp_close (i : nat) (x : sobject) (s : fds) : fds := asio_close i x s.
Definition tcp_release (i : nat) (x : sobject) (s : fds) : option (fds * Z) := asio_release i x s.
Definition tcp_local_endpoint (x : sobject) : option endpoint := reports x.
(** [tcp::socket::close(int fd)] *)
Definition close_fd (fd : Z) (s : fds) : fds := kernel_close fd (unhold fd s).

(** [tcp::acceptor_impl]: [bind] first sets the option [reuse_address].  What the
    handler of [accept] passes on, unless it accepts again: 0 with an error, or the
    descriptor. *)
Definition tcp_acceptor_impl (i : nat) (fd : Z) (s : fds) : fds := made_open KTcpAcceptor i fd s.
Definition tcp_acceptor_bind (x : sobject) (a : in6_addr) (p chosen option_ec ec : Z) : sobject * Z :=
  if negb (option_ec =? 0) then (x, option_ec) else bound_to x (to_endpoint_tcp a p) chosen ec.
Definition tcp_acceptor_listen (x : sobject) (ec : Z) : sobject * Z := now_listening x ec.
Definition tcp_acceptor_close (i : nat) (x : sobject) (s : fds) : fds := asio_close i x s.
Definition tcp_acceptor_local_endpoint (x : sobject) : option endpoint := reports x.
Definition tcp_accept_handler (i : nat) (x : sobject) (ec : Z) (s : fds) : fds * Z :=
  if negb (ec =? 0) then (s, 0) else release_accepted i x s.

(** [unx::socket_impl], which is not open at first *)
Definition unx_socket_impl (i : nat) (s : fds) : fds := made_closed KUnx i s.
Definition unx_socket_impl_fd (i : nat) (fd : Z) (s : fds) : fds := made_from KUnx i fd s.
Definition unx_bind (x : sobject) (path : bytes) (ec : Z) : sobject * Z :=
  if ec =? 0 then (set_local (Some (Endpoint path 0)) x, 0) else (x, ec).
Definition unx_close (i : nat) (x : sobject) (s : fds) : fds := asio_close i x s.
Definition unx_release (i : nat) (x : sobject) (s : fds) : option (fds * Z) := asio_release i x s.

(** [unx::acceptor_impl] *)
Definition unx_acceptor_impl (i : nat) (fd : Z) (s : fds) : fds := made_open KUnxAcceptor i fd s.
Definition unx_acceptor_bind (x : sobject) (path : bytes) (ec : Z) : sobject * Z :=
  if ec =? 0 then (set_local (Some (Endpoint path 0)) x, 0) else (x, ec).
Definition unx_acceptor_listen (x : sobject) (ec : Z) : sobject * Z := now_listening x ec.
Definition unx_acceptor_close (i : nat) (x : sobject) (s : fds) : fds := asio_close i x s.
Definition unx_accept_handler (i : nat) (x : sobject) (ec : Z) (s : fds) : fds * Z :=
  if negb (ec =? 0) then (s, 0) else release_accepted i x s.

(** [file_descriptor::watcher_impl]: the client keeps the descriptor and goes on using
    it while it is watched.  The destructor releases it before that of the member
    [fd_] closes what is left. *)
Definition watcher_impl (i : nat) (fd : Z) (s : fds) : fds :=
  put i (SObject KWatcher (Some fd) None None false) s.
Definition watcher_destructor (i : nat) (x : sobject) (s : fds) : fds :=
  let x := set_native None x in
  kernel_close_opt (native x) (set_sobjects (delete i (sobjects s)) s).

(** ** Calls by the kind of the object *)

Definition socket_impl (k : obj_kind) (i : nat) (fd : Z) (s : fds) : fds :=
  match k with
  | KUdp => udp_socket_impl i fd s
  | KTcp => tcp_socket_impl i fd s
  | KTcpAcceptor => tcp_acceptor_impl i fd s
  | KUnxAcceptor => unx_acceptor_impl i fd s
  | KUnx => unx_socket_impl i s
  | _ => s
  end.
Definition socket_impl_fd (k : obj_kind) (i : nat) (fd : Z) (s : fds) : fds :=
  match k with
  | KTcp => tcp_socket_impl_fd i fd s
  | KUnx => unx_socket_impl_fd i fd s
  | KWatcher => watcher_impl i fd s
  | _ => s
  end.
Definition socket_close (i : nat) (x : sobject) (s : fds) : fds :=
  match s_kind x with
  | KUdp => udp_close i x s
  | KTcp => tcp_close i x s
  | KTcpAcceptor => tcp_acceptor_close i x s
  | KUnx => unx_close i x s
  | KUnxAcceptor => unx_acceptor_close i x s
  | _ => s
  end.
Definition release (i : nat) (x : sobject) (s : fds) : option (fds * Z) :=
  match s_kind x with
  | KTcp => tcp_release i x s
  | KUnx => unx_release i x s
  | _ => None
  end.
Definition accept_handler (i : nat) (x : sobject) (ec : Z) (s : fds) : fds * Z :=
  match s_kind x with KUnxAcceptor => unx_accept_handler i x ec s | _ => tcp_accept_handler i x ec s end.
(** The other destructors close what their Asio objects have. *)
Definition destructor (i : nat) (x : sobject) (s : fds) : fds :=
  match s_kind x with
  | KWatcher => watcher_destructor i x s
  | _ => kernel_close_opt (accepted x) (kernel_close_opt (native x) (set_sobjects (delete i (sobjects s)) s))
  end.

(** ** Steps *)

Inductive fd_event : Type :=
| FCreate (k : obj_kind) (i : nat) (fd : Z)
| FAssign (k : obj_kind) (i : nat) (fd : Z)   (** a socket or watcher of a descriptor of the client *)
| FTake (fd : Z)                              (** the client gets one from elsewhere *)
| FConnect (i : nat) (fd : Z)
| FClose (i : nat)
| FCloseFd (fd : Z)
| FRelease (i : nat)
| FAccepted (i : nat) (fd : Z)
| FHandler (i : nat) (ec : Z)
| FDestroy (i : nat).

(** The objects that are made with a descriptor of their own (or none yet), those
    that take one over, those with a [close], and those with a [release] *)
Definition has_ctor (k : obj_kind) : bool :=
  match k with KUdp | KTcp | KTcpAcceptor | KUnx | KUnxAcceptor => true | _ => false end.
Definition has_ctor_fd (k : obj_kind) : bool := match k with KTcp | KUnx | KWatcher => true | _ => false end.
Definition has_close (k : obj_kind) : bool := has_ctor k.
Definition has_release (k : obj_kind) : bool := match k with KTcp | KUnx => true | _ => false end.
Definition is_acceptor (k : obj_kind) : bool := match k with KTcpAcceptor | KUnxAcceptor => true | _ => false end.

Definition on_object (i : nat) (s : fds) (f : sobject → option fds) : option fds := sobjects s !! i ≫= f.
Definition when (b : bool) (s : fds) : option fds := if b then Some s else None.

(** [None]: not possible now.  A handler of [accept] runs with no error just when a
    connection was accepted, and the next accept starts after it. *)
Definition fd_step (e : fd_event) (s : fds) : option fds :=
  match e with
  | FCreate k i fd => when (has_ctor k && (bool_decide (sobjects s !! i = None) && bool_decide (fd ∉ opened s))) (socket_impl k i fd s)
  | FAssign k i fd => when (has_ctor_fd k && bool_decide (sobjects s !! i = None)) (socket_impl_fd k i fd s)
  | FTake fd => when (bool_decide (fd ∉ opened s)) (hold fd (kernel_open fd s))
  | FConnect i fd => on_object i s (λ x, when (has_release (s_kind x) && bool_decide (fd ∉ opened s)) (connect_opens i x fd s))
  | FClose i => on_object i s (λ x, when (has_close (s_kind x)) (socket_close i x s))
  | FCloseFd fd => Some (close_fd fd s)
  | FRelease i => on_object i s (λ x, if has_release (s_kind x) then fst <$> release i x s else None)
  | FAccepted i fd => on_object i s (λ x,
      when (is_acceptor (s_kind x) && bool_decide (accepted x = None) && bool_decide (fd ∉ opened s)) (accept_completes i x fd s))
  | FHandler i ec => on_object i s (λ x,
      when (is_acceptor (s_kind x) && bool_decide ((ec = 0) ↔ is_Some (accepted x))) (accept_handler i x ec s).1)
  | FDestroy i => on_object i s (λ x, Some (destructor i x s))
  end.

Fixpoint fd_run (es : list fd_event) (s : fds) : option fds :=
  match es with [] => Some s | e :: es => fd_step e s ≫= fd_run es end.

(** The client closes, and gives to a socket, only descriptors that it holds.  It may
    have anything watched. *)
Definition disciplined (e : fd_event) (s : fds) : bool :=
  match e with
  | FCloseFd fd => bool_decide (fd ∈ held s)
  | FAssign KWatcher _ _ => true
  | FAssign _ _ fd => bool_decide (fd ∈ held s)
  | _ => true
  end.

Fixpoint disciplined_run (es : list fd_event) (s : fds) : bool :=
  match es with
  | [] => true
  | e :: es => disciplined e s && match fd_step e s with Some s => disciplined_run es s | None => true end
  end.

(** ** Threads *)

(** What [context::run] does, in order; a thread is known by its number. *)
Inductive thread_event : Type :=
| TSetStack (size : Z)
| TCreate (tid : Z)
| TRun                  (** [ref->asio->run()] in the calling thread *)
| TJoin (tid : Z).

Inductive run_outcome : Type := Returned (l : list thread_event) | Aborted (l : list thread_event).

Definition log_first (l : list thread_event) (o : run_outcome) : run_outcome :=
  match o with Returned k => Returned (l ++ k) | Aborted k => Aborted (l ++ k) end.

(** [context_impl(thread_count)] and [context::create]: the context, unless [SIGPIPE]
    cannot be ignored.  The count is a [long]; [io_context] gets it as an [int]. *)
Record context : Type := Context { thread_count : Z; concurrency_hint : Z }.
Definition s32 (v : Z) : Z := (v + 2 ^ 31) mod 2 ^ 32 - 2 ^ 31.
Definition context_create_with (sigpipe_ok : bool) (count : Z) : option context :=
  if sigpipe_ok then Some (Context count (s32 count)) else None.
Definition context_create (sigpipe_ok : bool) (min_env max_env : option bytes) (processors : Z) : option context :=
  context_create_with sigpipe_ok (threads min_env max_env processors).

(** The loop that starts the workers: the thread each [pthread_create] gives, or
    [None] for an error, which aborts.  [k] is the rest of [run] with the threads. *)
Fixpoint start_workers (n : nat) (creates : list (option Z)) (running : list Z)
    (k : list Z → run_outcome) : run_outcome :=
  match n with
  | O => k running
  | S n =>
      match creates with
      | Some tid :: creates => log_first [TCreate tid] (start_workers n creates (running ++ [tid]) k)
      | _ => Aborted []
      end
  end.

(** [worker_attr] aborts when an attribute cannot be made or set. *)
Definition worker_attr (init_ok : bool) (set_ok : Z → bool) (size stack_min page : Z) (k : run_outcome) : run_outcome :=
  if negb init_ok then Aborted []
  else let size := worker_stack size stack_min page in
       if set_ok size then log_first [TSetStack size] k else Aborted [].

Definition context_run (c : context) (init_ok : bool) (set_ok : Z → bool) (size stack_min page : Z)
    (creates : list (option Z)) : run_outcome :=
  worker_attr init_ok set_ok size stack_min page
    (start_workers (Z.to_nat (spawn_threads (thread_count c))) creates [] (λ running,
      Returned (TRun :: (TJoin <$> running)))).

(** The threads that are made before the first that cannot be made *)
Fixpoint started (creates : list (option Z)) : list Z :=
  match creates with Some tid :: creates => tid :: started creates | _ => [] end.

(** ** Ownership *)

(** The descriptors that an object owns; a watcher owns none. *)
Definition own (x : sobject) : list Z :=
  match s_kind x with KWatcher => [] | _ => option_list (native x) ++ option_list (accepted x) end.

Lemma own_other x : s_kind x ≠ KWatcher → own x = option_list (native x) ++ option_list (accepted x).
Proof. unfold own. by destruct (s_kind x). Qed.
Definition owned (s : fds) : list Z := concat ((λ p : nat * sobject, own p.2) <$> map_to_list (sobjects s)).

(** Every open descriptor has one owner: one object, in one place, or the client. *)
Record owned_once (s : fds) : Prop := OwnedOnce {
  oo_nodup : NoDup (owned s ++ elements (held s));
  oo_opened : ∀ fd, fd ∈ opened s ↔ fd ∈ owned s ++ elements (held s)
}.

Lemma owned_insert s i x :
  sobjects s !! i = None → owned (put i x s) ≡ₚ own x ++ owned s.
Proof.
  intros Hi. unfold owned, put. cbn [sobjects set_sobjects]. by rewrite map_to_list_insert.
Qed.

Lemma owned_delete s i x :
  sobjects s !! i = Some x → owned s ≡ₚ own x ++ owned (set_sobjects (delete i (sobjects s)) s).
Proof.
  intros Hi. unfold owned. cbn [sobjects set_sobjects]. by rewrite <- (map_to_list_delete _ _ _ Hi).
Qed.

(** An object is replaced by one with other descriptors. *)
Lemma owned_replace s i x y :
  sobjects s !! i = Some x → ∃ rest, owned s ≡ₚ own x ++ rest ∧ owned (put i y s) ≡ₚ own y ++ rest.
Proof.
  intros Hi. exists (owned (set_sobjects (delete i (sobjects s)) s)). split; [by apply owned_delete|].
  rewrite (owned_delete (put i y s) i y) by apply lookup_insert_eq. f_equiv.
  unfold owned. cbn [sobjects set_sobjects put]. by rewrite delete_insert_eq.
Qed.

(** The invariant in terms of any list of the owners. *)
Lemma owned_once_alt s l :
  (owned s ++ elements (held s)) ≡ₚ l → NoDup l → (∀ fd, fd ∈ opened s ↔ fd ∈ l) → owned_once s.
Proof. intros Hl Hn Ho. split; [by rewrite Hl|]. intros fd. by rewrite Hl. Qed.

Lemma held_union s fd : fd ∉ held s → elements ({[fd]} ∪ held s) ≡ₚ fd :: elements (held s).
Proof. intros H. by rewrite elements_union_singleton. Qed.

Lemma held_diff s fd : fd ∈ held s → elements (held s) ≡ₚ fd :: elements (held s ∖ {[fd]}).
Proof.
  intros H. rewrite <- elements_union_singleton by set_solver.
  by replace ({[fd]} ∪ held s ∖ {[fd]}) with (held s) by (apply leibniz_equiv; set_unfold; intros x; destruct (decide (x = fd)); naive_solver).
Qed.

Definition owners (s : fds) : list Z := owned s ++ elements (held s).

(** The three ways in which a step changes the owners. *)
Definition gains (s s' : fds) : Prop :=
  ∃ fd, (fd ∉ opened s) ∧ (owners s' ≡ₚ fd :: owners s) ∧ opened s' = {[fd]} ∪ opened s ∧ closed s' = closed s.
Definition moves (s s' : fds) : Prop :=
  owners s' ≡ₚ owners s ∧ opened s' = opened s ∧ closed s' = closed s.
Definition loses (s s' : fds) : Prop :=
  ∃ l, owners s ≡ₚ l ++ owners s' ∧ opened s' = opened s ∖ list_to_set l ∧ closed s' = closed s ++ l.

Lemma held_fresh s fd : owned_once s → fd ∉ opened s → fd ∉ held s.
Proof.
  intros [_ Ho] Hfd Hh. apply Hfd, Ho, elem_of_app. right. by apply elem_of_elements.
Qed.

Lemma owned_not_held s i x fd : owned_once s → sobjects s !! i = Some x → fd ∈ own x → fd ∉ held s.
Proof.
  intros [Hn _] Hi Hfd Hh. apply NoDup_app in Hn as (_ & Hn & _).
  apply (Hn fd); [rewrite (owned_delete s i x Hi); apply elem_of_app; by left|by apply elem_of_elements].
Qed.

Section step.
Context (s : fds) (H : owned_once s).

Lemma create_gains k i fd :
  sobjects s !! i = None → fd ∉ opened s → has_ctor k = true → k ≠ KUnx → gains s (socket_impl k i fd s).
Proof.
  intros Hi Hfd Hc Hk. exists fd. split; [done|].
  assert (socket_impl k i fd s = made_open k i fd s) as -> by by destruct k.
  split; [|done]. unfold owners, made_open. rewrite (owned_insert (kernel_open fd s)) by done. rewrite own_other by (by destruct k). done.
Qed.

Lemma create_moves i fd : sobjects s !! i = None → moves s (socket_impl KUnx i fd s).
Proof. intros Hi. split; [|done]. unfold owners, socket_impl, unx_socket_impl, made_closed. by rewrite (owned_insert s) by done. Qed.

Lemma assign_moves k i fd :
  sobjects s !! i = None → fd ∈ held s → has_ctor_fd k = true → k ≠ KWatcher → moves s (socket_impl_fd k i fd s).
Proof.
  intros Hi Hfd Hc Hk. assert (socket_impl_fd k i fd s = made_from k i fd s) as -> by by destruct k.
  split; [|done]. unfold owners, made_from. rewrite (owned_insert (unhold fd s)) by done. rewrite own_other by done.
  rewrite (held_diff s fd Hfd). cbn. by rewrite Permutation_middle.
Qed.

Lemma watch_moves i fd : sobjects s !! i = None → moves s (socket_impl_fd KWatcher i fd s).
Proof. intros Hi. split; [|done]. unfold owners, socket_impl_fd, watcher_impl. by rewrite (owned_insert s). Qed.

Lemma take_gains fd : fd ∉ opened s → gains s (hold fd (kernel_open fd s)).
Proof.
  intros Hfd. exists fd. split; [done|]. split; [|done]. unfold owners. cbn [held hold kernel_open].
  rewrite held_union by by apply held_fresh. by rewrite Permutation_middle.
Qed.

Lemma connect_gains i x fd :
  sobjects s !! i = Some x → s_kind x ≠ KWatcher → native x = None → fd ∉ opened s → gains s (connect_opens i x fd s).
Proof.
  intros Hi Hk Hn Hfd. exists fd. split; [done|]. unfold connect_opens. rewrite Hn. split; [|done].
  destruct (owned_replace (kernel_open fd s) i x (set_native (Some fd) x) Hi) as (rest & E1 & E2).
  unfold owners. rewrite E2. change (owned (kernel_open fd s)) with (owned s) in E1. rewrite E1. rewrite !own_other by done. cbn [native accepted set_native]. by rewrite Hn.
Qed.

Lemma accepted_gains i x fd :
  sobjects s !! i = Some x → s_kind x ≠ KWatcher → accepted x = None → fd ∉ opened s → gains s (accept_completes i x fd s).
Proof.
  intros Hi Hk Hn Hfd. exists fd. split; [done|]. split; [|done]. unfold accept_completes.
  destruct (owned_replace (kernel_open fd s) i x (set_accepted (Some fd) x) Hi) as (rest & E1 & E2).
  unfold owners. rewrite E2. change (owned (kernel_open fd s)) with (owned s) in E1. rewrite E1. rewrite !own_other by done. cbn [native accepted set_native set_accepted]. rewrite ?Hn.
  cbn. rewrite app_nil_r, <- !(assoc_L app). cbn. by rewrite <- Permutation_middle.
Qed.

Lemma release_moves i x s' fd : sobjects s !! i = Some x → release i x s = Some (s', fd) → moves s s'.
Proof.
  intros Hi Hr. assert (s_kind x ≠ KWatcher) as Hk by (intros Hk; unfold release in Hr; by rewrite Hk in Hr).
  assert (asio_release i x s = Some (s', fd)) as E by (unfold release in Hr; by destruct (s_kind x)).
  unfold asio_release in E. destruct (native x) as [f|] eqn:Hn; [|done]. injection E as <- <-. split; [|done].
  destruct (owned_replace s i x (set_native None x) Hi) as (rest & E1 & E2).
  change (owners (hold f (put i (set_native None x) s))) with (owned (put i (set_native None x) s) ++ elements ({[f]} ∪ held s)).
  rewrite held_union by (apply (owned_not_held s i x); [done..|]; rewrite own_other by done; rewrite Hn; left).
  unfold owners. rewrite E1, E2. rewrite !own_other by done. cbn [native accepted set_native set_accepted]. rewrite ?Hn. cbn. by rewrite Permutation_middle.
Qed.

Lemma handler_moves i x ec : sobjects s !! i = Some x → s_kind x ≠ KWatcher → moves s (accept_handler i x ec s).1.
Proof.
  intros Hi Hk. assert (accept_handler i x ec s = tcp_accept_handler i x ec s) as -> by (unfold accept_handler; by destruct (s_kind x)).
  unfold tcp_accept_handler, release_accepted. destruct (negb (ec =? 0)); [done|].
  destruct (accepted x) as [f|] eqn:Hn; [|done]. split; [|done].
  destruct (owned_replace s i x (set_accepted None x) Hi) as (rest & E1 & E2). cbn [fst].
  change (owners (hold f (put i (set_accepted None x) s))) with (owned (put i (set_accepted None x) s) ++ elements ({[f]} ∪ held s)).
  rewrite held_union by (apply (owned_not_held s i x); [done..|]; rewrite own_other by done; rewrite Hn; apply elem_of_app; right; left).
  unfold owners. rewrite E1, E2. rewrite !own_other by done. cbn [native accepted set_native set_accepted]. rewrite ?Hn. cbn. rewrite app_nil_r, <- !(assoc_L app).
  cbn. rewrite <- !Permutation_middle. done.
Qed.

Lemma close_fd_loses fd : fd ∈ held s → loses s (close_fd fd s).
Proof.
  intros Hfd. exists [fd]. split; [|split; [cbn; apply leibniz_equiv; set_solver|done]].
  unfold owners, close_fd. cbn [held kernel_close unhold]. rewrite (held_diff s fd Hfd).
  change (owned (kernel_close fd (unhold fd s))) with (owned s). cbn. by rewrite Permutation_middle.
Qed.

Lemma close_loses i x :
  sobjects s !! i = Some x → has_close (s_kind x) = true → s_kind x ≠ KUdp → loses s (socket_close i x s).
Proof.
  intros Hi Hc Hk. exists (option_list (native x)).
  assert (socket_close i x s = put i (set_closed x) (kernel_close_opt (native x) s)) as ->
    by (unfold socket_close; by destruct (s_kind x)).
  destruct (owned_replace s i x (set_closed x) Hi) as (rest & E1 & E2).
  assert (owners (put i (set_closed x) (kernel_close_opt (native x) s)) = owned (put i (set_closed x) s) ++ elements (held s)) as ->
    by by destruct (native x).
  unfold owners. rewrite E1, E2. rewrite !own_other by (cbn; intros Hw; by rewrite Hw in Hc). cbn [native accepted set_closed]. rewrite <- !(assoc_L app).
  split; [done|]. destruct (native x); cbn; (split; [apply leibniz_equiv; set_solver|by rewrite ?app_nil_r]).
Qed.

Lemma destroy_loses i x : sobjects s !! i = Some x → s_kind x ≠ KWatcher → loses s (destructor i x s).
Proof.
  intros Hi Hk. exists (own x). set (s0 := set_sobjects (delete i (sobjects s)) s).
  assert (destructor i x s = kernel_close_opt (accepted x) (kernel_close_opt (native x) s0)) as ->
    by (unfold destructor; by destruct (s_kind x)).
  assert (owners (kernel_close_opt (accepted x) (kernel_close_opt (native x) s0)) = owned s0 ++ elements (held s)) as ->
    by by destruct (accepted x), (native x).
  split; [unfold owners; rewrite (owned_delete s i x Hi); by rewrite <- (assoc_L app)|].
  rewrite own_other by done. destruct (native x), (accepted x); cbn; rewrite <- ?(assoc_L app); (split; [apply leibniz_equiv; set_solver|done || by rewrite app_nil_r]).
Qed.

Lemma watcher_moves i x : sobjects s !! i = Some x → s_kind x = KWatcher → moves s (destructor i x s).
Proof.
  intros Hi Hk. unfold destructor, watcher_destructor. rewrite Hk. cbn [native set_native kernel_close_opt].
  split; [|done]. unfold owners. rewrite (owned_delete s i x Hi). unfold own. by rewrite Hk.
Qed.
End step.

Lemma shapes s e s' :
  owned_once s → disciplined e s = true → fd_step e s = Some s' → gains s s' ∨ moves s s' ∨ loses s s'.
Proof.
  intros H Hdis. assert (moves s s) as Hid by done.
  assert (∀ x, is_acceptor (s_kind x) = true ∨ has_release (s_kind x) = true → s_kind x ≠ KWatcher) as Hkw.
  { intros x [Hx|Hx] E; by rewrite E in Hx. }
  destruct e as [k i fd|k i fd|fd|i fd|i|fd|i|i fd|i ec|i]; cbn [fd_step]; unfold on_object, when.
  4,5,7,8,9,10: destruct (sobjects s !! i) as [x|] eqn:Hx; [|done]; cbn [mbind option_bind].
  - destruct (has_ctor k) eqn:Hc; [|done]. destruct (bool_decide_reflect (sobjects s !! i = None)); [|done].
    destruct (bool_decide_reflect (fd ∉ opened s)); [|done]. intros [= <-].
    destruct (decide (k = KUnx)) as [->|]; [right; left; by apply create_moves|left; by apply create_gains].
  - destruct (has_ctor_fd k) eqn:Hc; [|done]. destruct (bool_decide_reflect (sobjects s !! i = None)); [|done].
    intros [= <-]. right. left. destruct (decide (k = KWatcher)) as [->|Hk]; [by apply watch_moves|].
    apply assign_moves; [done| |done..]. destruct k; try done; by apply bool_decide_eq_true in Hdis.
  - destruct (bool_decide_reflect (fd ∉ opened s)); [|done]. intros [= <-]. left. by apply take_gains.
  - destruct (has_release _) eqn:Hrel; [|done]. destruct (bool_decide_reflect (fd ∉ opened s)); [|done]. intros [= <-].
    destruct (native x) as [f|] eqn:Hn; [|left; by apply connect_gains; auto].
    right. left. unfold connect_opens. by rewrite Hn.
  - destruct (has_close _) eqn:Hc; [|done]. intros [= <-]. destruct (decide (s_kind x = KUdp)) as [Hk|]; [|right; right; by apply close_loses].
    unfold socket_close, udp_close. rewrite Hk. auto.
  - destruct (has_release _); [|done]. destruct (release i x s) as [[s1 f]|] eqn:Hr; intros [= <-]. right. left. by eapply release_moves.
  - destruct (is_acceptor _) eqn:Hacc; [|done]. destruct (bool_decide_reflect (accepted x = None)); [|done].
    destruct (bool_decide_reflect (fd ∉ opened s)); [|done]. intros [= <-]. left. apply accepted_gains; auto.
  - destruct (is_acceptor _) eqn:Hacc; [|done]. cbn [andb]. destruct (bool_decide _); [|done]. intros [= <-]. right. left.
    apply handler_moves; auto.
  - intros [= <-]. destruct (decide (s_kind x = KWatcher)); [right; left; by apply watcher_moves|right; right; by apply destroy_loses].
  - intros [= <-]. right. right. apply close_fd_loses; [done|]. by apply bool_decide_eq_true in Hdis.
Qed.

Lemma owned_once_alt' s : owned_once s ↔ NoDup (owners s) ∧ ∀ fd, fd ∈ opened s ↔ fd ∈ owners s.
Proof. split; [by intros []|by intros []]. Qed.

Lemma shapes_once s s' : owned_once s → gains s s' ∨ moves s s' ∨ loses s s' → owned_once s'.
Proof.
  rewrite !owned_once_alt'. intros [Hn Ho] [(fd & Hfd & Hp & E & _)|[(Hp & E & _)|(l & Hp & E & _)]].
  - rewrite Hp, E. split; [constructor; [by rewrite <- Ho|done]|]. intros f. rewrite Hp, elem_of_cons, <- Ho. set_solver.
  - rewrite Hp, E. split; [done|]. intros f. by rewrite Hp.
  - rewrite Hp in Hn. apply NoDup_app in Hn as (_ & Hd & Hn'). split; [done|]. intros f. rewrite E.
    rewrite elem_of_difference, elem_of_list_to_set, Ho, Hp, elem_of_app. specialize (Hd f). tauto.
Qed.

Lemma fd_run_once es : ∀ s s',
  owned_once s → disciplined_run es s = true → fd_run es s = Some s' → owned_once s'.
Proof.
  induction es as [|e es IH]; intros s s' Hs Hd; cbn [fd_run]; [by intros [= <-]|].
  cbn [disciplined_run] in Hd. apply andb_true_iff in Hd as [He Hd].
  destruct (fd_step e s) as [s1|] eqn:E; [|done]. cbn. apply IH; [|done]. by eapply shapes_once, shapes.
Qed.

Lemma no_fds_once : owned_once no_fds.
Proof. split; [constructor|set_solver]. Qed.

(** C21: where the client closes, and gives to a socket, only descriptors that it
    holds, then over any sequence of creations, connections, accepts, closes, releases
    and destructions an open file descriptor has exactly one owner, one of the
    executor's sockets and acceptors or the client; so whatever a step closes is open
    until then and closed once.  A watcher takes nothing from the client and closes
    nothing: the client may use and close a descriptor that is watched. *)
Theorem descriptors_owned_once es e s s' :
  fd_run es no_fds = Some s → disciplined_run es no_fds = true → disciplined e s = true → fd_step e s = Some s' →
  NoDup (owned s' ++ elements (held s')) ∧ (∀ fd, fd ∈ opened s' ↔ fd ∈ owned s' ∨ fd ∈ held s') ∧
  (∃ new, closed s' = closed s ++ new ∧ NoDup new ∧ ∀ fd, fd ∈ new → fd ∈ opened s ∧ fd ∉ opened s') ∧
  (∀ i fd, e = FAssign KWatcher i fd → held s' = held s ∧ closed s' = closed s) ∧
  (∀ i x, e = FDestroy i → sobjects s !! i = Some x → s_kind x = KWatcher → held s' = held s ∧ closed s' = closed s).
Proof.
  intros Hr Hdr Hd Hs. pose proof (fd_run_once es _ _ no_fds_once Hdr Hr) as Ho.
  pose proof (shapes s e s' Ho Hd Hs) as Hsh. pose proof (shapes_once s s' Ho Hsh) as [Hn' Ho'].
  split_and!; [done| | | |].
  - intros fd. rewrite Ho', elem_of_app, elem_of_elements. done.
  - destruct Hsh as [(fd & _ & _ & _ & ->)|[(_ & _ & ->)|(l & Hp & E & ->)]].
    1,2: exists []; split_and!; [by rewrite app_nil_r|constructor|by intros ? ?%elem_of_nil].
    apply owned_once_alt' in Ho as [Hn Hop]. rewrite Hp in Hn. apply NoDup_app in Hn as (Hl & Hdj & _).
    exists l. split_and!; [done..|]. intros fd Hfd. split; [apply Hop; rewrite Hp; apply elem_of_app; by left|].
    rewrite E. set_solver.
  - intros i fd ->. cbn in Hs. unfold when in Hs. destruct (bool_decide _); [|done]. by injection Hs as <-.
  - intros i x -> Hx Hk. cbn in Hs. unfold on_object in Hs. rewrite Hx in Hs. injection Hs as <-.
    unfold destructor, watcher_destructor. by rewrite Hk.
Qed.

(** The client closes a descriptor that is watched, and the watcher goes after it. *)
Lemma descriptors_owned_once_witness :
  let es := [FTake 5; FAssign KWatcher 0 5; FCreate KTcpAcceptor 1 7; FAccepted 1 8; FHandler 1 0; FAssign KTcp 2 8; FCloseFd 5] in
  ∃ s s', fd_run es no_fds = Some s ∧ fd_step (FDestroy 0) s = Some s' ∧ closed s = [5] ∧
    (held s' = held s ∧ closed s' = closed s).
Proof.
  intros es. eexists _, _. split; [reflexivity|]. split; [reflexivity|]. split; [reflexivity|].
  refine (proj2 (proj2 (proj2 (proj2 (descriptors_owned_once es (FDestroy 0) _ _ eq_refl _ eq_refl eq_refl))))
    0%nat _ eq_refl eq_refl eq_refl). vm_compute. reflexivity.
Defined.

(** Without the discipline there are two owners: a client that closes the descriptor
    it has given to a socket has the socket close whatever has got the number since. *)
Example undisciplined_close :
  closed <$> fd_run [FTake 5; FAssign KTcp 0 5; FCloseFd 5; FTake 5; FDestroy 0] no_fds = Some [5; 5] ∧
  disciplined_run [FTake 5; FAssign KTcp 0 5; FCloseFd 5] no_fds = false.
Proof. split; vm_compute; reflexivity. Qed.

(** ** Binding *)

(** An acceptor is bound only if the address may be used again, and the error of
    the first call that fails is the one that is returned, with the acceptor as it
    was; a socket that is bound reports the address it was given, and the port, or
    the one the system chose if it was 0. *)
Theorem bind_reports x a p chosen option_ec ec :
  length a = 16%nat →
  let '(x', r) := tcp_acceptor_bind x a p chosen option_ec ec in
  r = (if option_ec =? 0 then ec else option_ec) ∧
  (r ≠ 0 → x' = x) ∧
  (r = 0 → tcp_acceptor_local_endpoint x' = Some (Endpoint a (if p =? 0 then chosen else p)) ∧ own x' = own x).
Proof.
  intros Ha. unfold tcp_acceptor_bind, bound_to. destruct (Z.eqb_spec option_ec 0) as [->|Ho]; cbn [negb];
    [|by split_and!]. destruct (Z.eqb_spec ec 0) as [->|He]; [|by split_and!].
  split_and!; [done..|]. intros _. split; [|done].
  unfold tcp_acceptor_local_endpoint, reports, to_endpoint_tcp. cbn [local_ set_local mbind option_bind ip port].
  by rewrite address_roundtrip.
Qed.

Lemma bind_reports_witness :
  let a := replicate 15 0 ++ [1] in
  tcp_acceptor_local_endpoint (tcp_acceptor_bind (SObject KTcpAcceptor (Some 7) None None false) a 0 4242 0 0).1 =
    Some (Endpoint a 4242).
Proof.
  intros a. pose proof (bind_reports (SObject KTcpAcceptor (Some 7) None None false) a 0 4242 0 0 eq_refl) as H.
  destruct (tcp_acceptor_bind _ _ _ _ _ _) as [x' r]. destruct H as (Hr & _ & H). by apply H.
Defined.

(** ** Running a context *)

(** The loop makes as many threads as it is asked to, or aborts at the first that
    cannot be made. *)
Lemma start_workers_all n : ∀ creates running k, (n <= length creates)%nat →
  start_workers n creates running k =
  match mapM id (take n creates) with
  | Some tids => log_first (TCreate <$> tids) (k (running ++ tids))
  | None => Aborted (TCreate <$> started (take n creates))
  end.
Proof.
  induction n as [|n IH]; intros creates running k Hn.
  { rewrite take_0. cbn. rewrite (right_id_L [] app). by destruct (k running). }
  destruct creates as [|[tid|] creates]; cbn in Hn; [lia| |done].
  cbn [start_workers]. rewrite IH by lia. rewrite firstn_cons. cbn. destruct (mapM id (take n creates)) as [tids|]; cbn; [|done].
  rewrite <- (assoc_L app). cbn. by destruct (k _).
Qed.

Lemma started_prefix creates : None ∈ creates → (Some <$> started creates) ++ [None] `prefix_of` creates.
Proof.
  induction creates as [|[tid|] creates IH]; intros H; [by apply elem_of_nil in H| |].
  - apply elem_of_cons in H as [|H]; [done|]. cbn. by apply prefix_cons, IH.
  - exists creates. done.
Qed.

(** [context::run] runs the event loop on as many threads as the context has, the
    calling one among them and never less than one: it first makes the others, with
    the stack size it has set, and when its own loop returns it joins each of them
    once, in the order it made them; if a thread cannot be made it aborts, before any
    event loop of its own has run. *)
Theorem context_run_joins c set_ok size stack_min page creates :
  let n := Z.to_nat (spawn_threads (thread_count c)) in
  let stack := worker_stack size stack_min page in
  length creates = n → set_ok stack = true →
  (None ∉ creates →
    ∃ tids, creates = Some <$> tids ∧ Z.of_nat (length tids) + 1 = Z.max (thread_count c) 1 ∧
      context_run c true set_ok size stack_min page creates =
        Returned (TSetStack stack :: (TCreate <$> tids) ++ TRun :: (TJoin <$> tids))) ∧
  (None ∈ creates →
    ∃ tids, (Some <$> tids) ++ [None] `prefix_of` creates ∧
      context_run c true set_ok size stack_min page creates = Aborted (TSetStack stack :: (TCreate <$> tids))).
Proof.
  intros n stack Hn Hs. unfold context_run, worker_attr. cbn [negb]. fold stack. rewrite Hs. fold n.
  rewrite start_workers_all, take_ge by lia. split.
  - intros Hc. destruct (mapM id creates) as [tids|] eqn:E.
    + apply mapM_Some_1 in E. exists tids. split_and!; [| |done].
      { clear -E. by induction E as [|x y l k Hxy _ IH]; [|cbn; rewrite <- IH; f_equal]. }
      apply Forall2_length in E. subst n. unfold spawn_threads in *. lia.
    + apply mapM_None in E. apply Exists_exists in E as ([x|] & Hx & ?); done.
  - intros Hc. assert (mapM id creates = None) as -> by (apply mapM_None, Exists_exists; by exists None).
    exists (started creates). split; [by apply started_prefix|done].
Qed.

Lemma context_run_joins_witness :
  context_run (Context 3 3) true (λ _, true) 100000 16384 4096 [Some 11; Some 12] =
    Returned [TSetStack 102400; TCreate 11; TCreate 12; TRun; TJoin 11; TJoin 12].
Proof.
  destruct (proj1 (context_run_joins (Context 3 3) (λ _, true) 100000 16384 4096 [Some 11; Some 12] eq_refl eq_refl))
    as (tids & E & _ & ->).
  - intros H. repeat (apply elem_of_cons in H as [H|H]; [done|]). by apply elem_of_nil in H.
  - destruct tids as [|t1 [|t2 [|]]]; try discriminate E. injection E as <- <-. reflexivity.
Defined.
