(* ===== verification/Waits.v ===== *)
(** * Signals, timers and cancellation of the executor

    What [signal_impl], [timer_impl], [watcher_impl] and [file_stream_impl] of
    [src/src/executor_asio.cpp] tell Asio besides starting operations ([Executor]):
    the signals to wait for, the time of expiry, and [cancel].  An object is seen
    with the waits it has under way, and how each wait ended; [Executor] lets an
    operation finish with any result, and here is which it can be.

    Of Asio this takes what it documents: [cancel], a new time of expiry and the end
    of the object complete the waits that are under way with [operation_aborted];
    a wait for a signal completes with a signal of the set, one for a timer when the
    time has come. *)
From S2P Require Import Prelude Executor.

(** ** State *)

Inductive ending : Type :=
| Aborted                     (** [operation_aborted] *)
| Fired (signum : Z)
| Expired (at_ : Z).          (** when the clock said [at_] *)

(** [due]: the time of expiry of a timer, none before it is set.  A wait
    is known by its number. *)
Record waits : Type := Waits {
  w_kind : obj_kind;
  alive : bool;
  due : option Z;
  signals_ : gset Z;
  waiting : list nat;
  ended : list (nat * ending)
}.

Definition new_waits (k : obj_kind) : waits := Waits k true None ∅ [] [].

Definition set_due v s := Waits (w_kind s) (alive s) v (signals_ s) (waiting s) (ended s).
Definition add_signal v s := Waits (w_kind s) (alive s) (due s) ({[v]} ∪ signals_ s) (waiting s) (ended s).
Definition add_wait n s := Waits (w_kind s) (alive s) (due s) (signals_ s) (waiting s ++ [n]) (ended s).
Definition finish n e s :=
  Waits (w_kind s) (alive s) (due s) (signals_ s) (filter (λ m, m ≠ n) (waiting s)) (ended s ++ [(n, e)]).

(** Asio's [cancel] *)
Definition abort_all s :=
  Waits (w_kind s) (alive s) (due s) (signals_ s) [] (ended s ++ ((λ n, (n, Aborted)) <$> waiting s)).

(** ** The calls *)

(** [signal_impl] *)
Definition signal_impl : waits := new_waits KSignal.
Definition fires_on (signum : Z) (s : waits) : waits := add_signal signum s.
Definition signal_cancel (s : waits) : waits := abort_all s.

(** [timer_impl]: a new time aborts the waits for the old one. *)
Definition timer_impl : waits := new_waits KTimer.
Definition expires_at (t : Z) (s : waits) : waits := set_due (Some t) (abort_all s).
Definition expires_after (now us : Z) (s : waits) : waits := set_due (Some (now + us)) (abort_all s).
Definition timer_cancel (s : waits) : waits := abort_all s.

(** [watcher_impl] and [file_stream_impl] *)
Definition watcher_cancel (s : waits) : waits := abort_all s.
Definition file_stream_cancel (s : waits) : waits := abort_all s.

Definition cancel (s : waits) : waits :=
  match w_kind s with
  | KSignal => signal_cancel s
  | KTimer => timer_cancel s
  | KWatcher => watcher_cancel s
  | KFileStream => file_stream_cancel s
  | _ => s
  end.

(** The destructors of the Asio objects *)
Definition destroy (s : waits) : waits :=
  let s := abort_all s in Waits (w_kind s) false (due s) (signals_ s) (waiting s) (ended s).

(** ** Steps *)

Inductive wait_event : Type :=
| WStart (n : nat)             (** [on_fired], [on_expired], ... *)
| WSignal (signum : Z)         (** [fires_on] *)
| WExpiresAt (t : Z)
| WExpiresAfter (us : Z)
| WCancel
| WDestroy
| WFire (n : nat) (signum : Z) (** Asio completes a wait *)
| WExpire (n : nat).

Definition is_kind (k : obj_kind) (s : waits) : bool := bool_decide (w_kind s = k).
Definition when (b : bool) (s : waits) : option waits := if b then Some s else None.

(** At the time [now]; the number of a wait is used once.  A timer that was never
    set expires at once. *)
Definition wait_step (now : Z) (e : wait_event) (s : waits) : option waits :=
  match e with
  | WStart n => when (alive s && bool_decide (n ∉ waiting s ++ (ended s).*1)) (add_wait n s)
  | WSignal signum => when (alive s && is_kind KSignal s) (fires_on signum s)
  | WExpiresAt t => when (alive s && is_kind KTimer s) (expires_at t s)
  | WExpiresAfter us => when (alive s && is_kind KTimer s) (expires_after now us s)
  | WCancel => when (alive s) (cancel s)
  | WDestroy => when (alive s) (destroy s)
  | WFire n signum =>
      when (alive s && is_kind KSignal s && bool_decide (n ∈ waiting s) && bool_decide (signum ∈ signals_ s))
        (finish n (Fired signum) s)
  | WExpire n =>
      when (alive s && is_kind KTimer s && bool_decide (n ∈ waiting s) && bool_decide (default now (due s) <= now))
        (finish n (Expired now) s)
  end.

(** Each step with the time it happens at *)
Fixpoint wait_run (es : list (Z * wait_event)) (s : waits) : option waits :=
  match es with [] => Some s | (now, e) :: es => wait_step now e s ≫= wait_run es end.

(** A step that was taken, with its guard *)
Ltac taken Hg :=
  match goal with |- context [if ?b then _ else _] => destruct b eqn:Hg end; [|done];
  intros [= <-]; rewrite ?andb_true_iff, ?bool_decide_eq_true in Hg.

(** ** Invariant *)

(** A wait that was started is under way or has ended, in one way; after the end of the object
    none is under way; signals are those of the set. *)
Record waits_ok (s : waits) : Prop := WaitsOk {
  wo_once : NoDup (waiting s ++ (ended s).*1);
  wo_gone : alive s = false → waiting s = [];
  wo_signals : ∀ n signum, (n, Fired signum) ∈ ended s → signum ∈ signals_ s;
  wo_kinds : ∀ n e, (n, e) ∈ ended s →
    match e with Aborted => True | Fired _ => w_kind s = KSignal | Expired _ => w_kind s = KTimer end
}.

Lemma new_waits_ok k : waits_ok (new_waits k).
Proof. split; try done; [constructor|intros ? ? []%elem_of_nil..]. Qed.

Lemma abort_all_names s : waiting (abort_all s) ++ (ended (abort_all s)).*1 ≡ₚ waiting s ++ (ended s).*1.
Proof.
  cbn. rewrite fmap_app, <- list_fmap_compose. rewrite (comm app (waiting s)). f_equiv.
  change (compose _ _) with (λ n : nat, n). by rewrite list_fmap_id.
Qed.

Lemma finish_names n e s :
  NoDup (waiting s) → n ∈ waiting s → waiting (finish n e s) ++ (ended (finish n e s)).*1 ≡ₚ waiting s ++ (ended s).*1.
Proof.
  intros Hn Hin. cbn. rewrite fmap_app. cbn.
  assert (waiting s ≡ₚ n :: filter (λ m, m ≠ n) (waiting s)) as E.
  { apply NoDup_Permutation; [done| |].
    - constructor; [rewrite list_elem_of_filter; naive_solver|by apply NoDup_filter].
    - intros m. rewrite elem_of_cons, list_elem_of_filter. destruct (decide (m = n)); naive_solver. }
  rewrite (comm app (ended s).*1), (assoc app), (comm app _ [n]). cbn. by rewrite E at 2.
Qed.

Lemma elem_of_aborted (n : nat) e s : (n, e) ∈ ended (abort_all s) → (n, e) ∈ ended s ∨ e = Aborted.
Proof. cbn. rewrite elem_of_app, list_elem_of_fmap. intros [?|(m & [= -> ->] & _)]; auto. Qed.

Lemma abort_all_ok s : waits_ok s → waits_ok (abort_all s).
Proof.
  intros [Ho Hg Hs Hk]. split; [by rewrite abort_all_names|done| |].
  - intros n signum [H|]%elem_of_aborted; [by eapply Hs|done].
  - intros n e [H| ->]%elem_of_aborted; [by apply (Hk n)|done].
Qed.

Lemma finish_ok n e s :
  waits_ok s → n ∈ waiting s →
  match e with Aborted => True | Fired g => w_kind s = KSignal ∧ g ∈ signals_ s | Expired _ => w_kind s = KTimer end →
  waits_ok (finish n e s).
Proof.
  intros [Ho Hg Hs Hk] Hn He. pose proof Ho as (Hw & _ & _)%NoDup_app.
  split; [by rewrite finish_names|..].
  - intros Ha. cbn in *. by rewrite Hg.
  - intros m signum. cbn. rewrite elem_of_app, list_elem_of_singleton. intros [H|[= -> <-]]; [by eapply Hs|by destruct He].
  - intros m e'. cbn. rewrite elem_of_app, list_elem_of_singleton. intros [H|[= -> <-]]; [by apply (Hk m)|].
    destruct e'; naive_solver.
Qed.

Lemma cancel_ok s : waits_ok s → waits_ok (cancel s).
Proof. intros H. unfold cancel. destruct (w_kind s); try done; by apply abort_all_ok. Qed.

Lemma wait_step_ok now e s s' : waits_ok s → wait_step now e s = Some s' → waits_ok s'.
Proof.
  intros H. unfold wait_step, when.
  destruct e as [n|signum|t|us| | |n signum|n];
    taken Hg.
  - destruct H as [Ho Hgo Hs Hk], Hg as [Ha Hn]. split; [|cbn; congruence|done|done].
    cbn. rewrite <- (assoc app). cbn. rewrite <- Permutation_middle. by constructor.
  - destruct H as [Ho Hgo Hs Hk]. split; [done..| |done]. intros n g Hin. cbn. apply elem_of_union_r, (Hs n), Hin.
  - destruct (abort_all_ok s H). by split.
  - destruct (abort_all_ok s H). by split.
  - by apply cancel_ok.
  - destruct (abort_all_ok s H). by split.
  - destruct Hg as [[[_ Hk] Hn] Hs]. unfold is_kind in Hk. apply bool_decide_eq_true in Hk. by apply finish_ok.
  - destruct Hg as [[[_ Hk] Hn] Hs]. unfold is_kind in Hk. apply bool_decide_eq_true in Hk. by apply finish_ok.
Qed.

Lemma wait_run_ok es : ∀ s s', waits_ok s → wait_run es s = Some s' → waits_ok s'.
Proof.
  induction es as [|[now e] es IH]; intros s s' H; cbn [wait_run]; [by intros [= <-]|].
  destruct (wait_step now e s) as [s1|] eqn:E; [|done]. cbn. apply IH. by eapply wait_step_ok.
Qed.

(** ** How waits end *)

(** The calls that abort the waits under way. *)
Definition aborts (e : wait_event) : bool :=
  match e with WCancel | WDestroy | WExpiresAt _ | WExpiresAfter _ => true | _ => false end.

(** Why a wait may end so, in the state before. *)
Definition reason (now : Z) (e : wait_event) (s : waits) (r : ending) : Prop :=
  match r with
  | Aborted => aborts e = true
  | Fired signum => signum ∈ signals_ s
  | Expired t => t = now ∧ default now (due s) <= now
  end.

Lemma aborted_reason now e s n r :
  aborts e = true → (n, r) ∈ ended (abort_all s) → (n, r) ∉ ended s → n ∈ waiting s ∧ reason now e s r.
Proof.
  intros He. cbn. rewrite elem_of_app, list_elem_of_fmap. intros [?|(m & [= -> ->] & ?)] ?; [done|]. by split.
Qed.

Lemma finished_reason now e s m r0 n r :
  m ∈ waiting s → reason now e s r0 → (n, r) ∈ ended (finish m r0 s) → (n, r) ∉ ended s → n ∈ waiting s ∧ reason now e s r.
Proof.
  intros Hm Hr. cbn. rewrite elem_of_app, list_elem_of_singleton. intros [?|[= -> ->]] ?; [done|]. by split.
Qed.

Lemma step_reason now e s s' n r :
  wait_step now e s = Some s' → (n, r) ∈ ended s' → (n, r) ∉ ended s → n ∈ waiting s ∧ reason now e s r.
Proof.
  unfold wait_step, when.
  destruct e as [m|signum|t|us| | |m signum|m];
    taken Hg.
  - done.
  - done.
  - by apply aborted_reason.
  - by apply aborted_reason.
  - unfold cancel. destruct (w_kind s); try done; by apply aborted_reason.
  - by apply aborted_reason.
  - destruct Hg as [[_ Hn] Hs]. by apply finished_reason.
  - destruct Hg as [[_ Hn] Hd]. by apply finished_reason.
Qed.

(** Nothing is lost: a wait under way still is, or has ended. *)
Definition keeps (s s' : waits) : Prop := ∀ n, n ∈ waiting s ++ (ended s).*1 → n ∈ waiting s' ++ (ended s').*1.

Lemma step_keeps now e s s' : waits_ok s → wait_step now e s = Some s' → keeps s s'.
Proof.
  intros [Ho _ _ _]. pose proof Ho as (Hw & _ & _)%NoDup_app. unfold wait_step, when.
  assert (keeps s (abort_all s)) as Ha by (intros n; by rewrite abort_all_names).
  destruct e as [m|signum|t|us| | |m signum|m];
    taken Hg; try exact Ha.
  - intros n. cbn. set_solver.
  - by intros n.
  - unfold cancel. destruct (w_kind s); done || by intros n.
  - destruct Hg as [[_ Hn] _]. intros n. by rewrite (finish_names m _ s Hw Hn).
  - destruct Hg as [[_ Hn] _]. intros n. by rewrite (finish_names m _ s Hw Hn).
Qed.

Lemma run_kind es : ∀ s s', wait_run es s = Some s' → w_kind s' = w_kind s.
Proof.
  induction es as [|[now e] es IH]; intros s s'; cbn [wait_run]; [by intros [= <-]|].
  destruct (wait_step now e s) as [s1|] eqn:E; [|done]. cbn. intros H. rewrite (IH _ _ H). clear H IH.
  unfold wait_step, when in E. destruct e; (case_match; [|done]); injection E as <-; try done.
  unfold cancel. by destruct (w_kind s) eqn:Hk; cbn.
Qed.

(** Over any sequence of calls, every wait that is started ends once or is under
    way: with [operation_aborted] just when the object is cancelled, destroyed or,
    for a timer, set anew; with a signal of the set; or when the time of the timer
    has come, and not before.  A cancelled or destroyed object has no wait left. *)
Theorem waits_end_once es k now e s s' :
  wait_run es (new_waits k) = Some s → wait_step now e s = Some s' →
  NoDup (waiting s' ++ (ended s').*1) ∧
  (∀ n, n ∈ waiting s ++ (ended s).*1 → n ∈ waiting s' ++ (ended s').*1) ∧
  (∀ n r, (n, r) ∈ ended s' → (n, r) ∉ ended s → n ∈ waiting s ∧ reason now e s r) ∧
  (aborts e = true → k ∈ [KSignal; KTimer; KWatcher; KFileStream] →
    waiting s' = [] ∧ ended s' = ended s ++ ((λ n, (n, Aborted)) <$> waiting s)).
Proof.
  intros Hr Hs. pose proof (wait_run_ok es _ _ (new_waits_ok k) Hr) as H. split_and!.
  - by apply (wait_step_ok now e s).
  - by eapply step_keeps.
  - intros n r. by eapply step_reason.
  - intros He Hk. pose proof (run_kind es (new_waits k) s Hr) as E. cbn in E. rewrite <- E in Hk.
    unfold wait_step, when in Hs. destruct e; try done; (case_match; [|done]); injection Hs as <-; try done.
    unfold cancel. set_unfold in Hk. by destruct Hk as [->|[->|[->|[->|[]]]]].
Qed.

Lemma waits_end_once_witness :
  let es := [(0, WExpiresAfter 5); (0, WStart 1); (5, WExpire 1); (6, WStart 2)] in
  ∃ s s', wait_run es (new_waits KTimer) = Some s ∧
    wait_step 7 WCancel s = Some s' ∧ waiting s' = [] ∧ ended s' = [(1%nat, Expired 5); (2%nat, Aborted)].
Proof.
  intros es. eexists _, _. split; [reflexivity|]. split; [reflexivity|].
  refine (proj2 (proj2 (proj2 (waits_end_once es KTimer 7 WCancel _ _ eq_refl eq_refl))) eq_refl _). set_solver.
Defined.
