(* ===== verification/Backtrace.v ===== *)
(** * Crash handlers

    [src/src/backtrace.cpp] on Linux: handlers for the signals of a crash that
    start a debugger on the process.  A handler is run with the static buffers
    of the file and gives the system calls it makes; [None] is undefined
    behaviour.  The process and its child are two runs of the same code, with
    the two results of [fork].  [deliver] is what the kernel documents of signal
    delivery: the signal is blocked while its handler runs, so that a raise in
    it takes effect when the handler returns. *)
From S2P Require Import Prelude CppText.

(** ** The process *)

(** What the operating system answers: [getpid()], [secure_getenv("JITDEBUG")],
    and the target of [/proc/self/exe] ([None]: [readlink] fails). *)
Record os : Type := Os {
  getpid : Z;
  jitdebug : option bytes;
  self_exe : option bytes
}.

Inductive syscall : Type :=
| prctl_set_ptracer_any
| fork (ret : Z)
| dup2 (from to : Z)
| write (fd : Z) (text : bytes)
| execv (path : bytes) (argv : list bytes)
| _exit (status : Z)
| waitpid (pid : Z)
| raise (no : Z).

(** [static char binpath[512], pid_s[11]] *)
Record globals : Type := Globals {
  binpath : bytes;
  pid_s : bytes
}.

Definition initial_globals : globals := Globals (replicate 512 0) (replicate 11 0).

(** A store into an array: [None] when it is out of bounds. *)
Definition store (buf : bytes) (at_ : Z) (bs : bytes) : option bytes :=
  if (0 <=? at_) && (at_ + Z.of_nat (length bs) <=? Z.of_nat (length buf))
  then Some (take (Z.to_nat at_) buf ++ bs ++ drop (Z.to_nat at_ + length bs) buf)
  else None.

(** The C string that starts at a buffer. *)
Fixpoint c_str (buf : bytes) : bytes :=
  match buf with
  | [] => []
  | c :: buf => if c =? 0 then [] else c :: c_str buf
  end.

(** ** The code *)

Definition msg (m arg : bytes) : list syscall :=
  [write 2 m; write 2 arg; write 2 [10]].

(** [sprintf] and [readlink] write into the buffers; [ret] is a [size_t]. *)
Definition get_pid_binpath (o : os) (g : globals) : option globals :=
  pid ← store (pid_s g) 0 (int_text (getpid o) ++ [0]);
  let '(path, ret) :=
    match self_exe o with
    | Some p => (take 511 p, u64 (Z.of_nat (length (take 511 p))))
    | None => ([], u64 (-1))
    end in
  bin ← store (binpath g) 0 path;
  if ret <? 0 then Some (Globals bin pid)
  else bin ← store bin ret [0]; Some (Globals bin pid).

Definition lldb : bytes := str "/usr/bin/lldb".
Definition default_debugger : bytes := str "/usr/bin/gdb".
Definition default_remote_debugger : bytes := str "/usr/bin/gdbserver".

Definition get_debugger (o : os) : bytes :=
  match jitdebug o with
  | None => default_debugger
  | Some d =>
      if bool_decide (d = str "on") then default_debugger
      else if bool_decide (d = str "1") then default_debugger
      else if bool_decide (d = str "true") then default_debugger
      else d
  end.

Definition get_remote_debugger (o : os) : bytes :=
  match jitdebug o with
  | None => default_remote_debugger
  | Some d =>
      if bool_decide (d = str "on") then default_remote_debugger
      else if bool_decide (d = str "1") then default_remote_debugger
      else if bool_decide (d = str "true") then default_remote_debugger
      else d
  end.

(** A run of [start_debugger] with the given results of [fork] and of [execv]
    ([true]: it replaced the process); the flag says whether it returns. *)
Definition start_debugger (fork_ret : Z) (exec_ok : bool) (dbg : bytes) (argv : list bytes)
  : list syscall * bool :=
  if fork_ret =? 0
  then ([prctl_set_ptracer_any; fork fork_ret; dup2 2 1] ++ msg (str "debugging with ") dbg ++
        [execv dbg argv] ++ (if exec_ok then [] else [_exit 1]), false)
  else ([prctl_set_ptracer_any; fork fork_ret; waitpid fork_ret], true).

(** A handler: the buffers, the calls and whether it returns. *)
Definition handler : Type := Z → globals → option (globals * list syscall * bool).

Section handlers.
Context (o : os) (fork_ret : Z) (exec_ok : bool).

Definition then_raise (g : globals) (r : list syscall * bool) (no : Z)
  : globals * list syscall * bool :=
  if r.2 then (g, r.1 ++ [raise no], true) else (g, r.1, false).

Definition sighdl_debugger : handler := λ no g,
  g ← get_pid_binpath o g;
  Some (then_raise g (start_debugger fork_ret exec_ok (get_debugger o)
    [get_debugger o; str "--pid"; c_str (pid_s g)]) no).

Definition sighdl_remote_debugger : handler := λ no g,
  g ← get_pid_binpath o g;
  Some (then_raise g (start_debugger fork_ret exec_ok (get_remote_debugger o)
    [get_remote_debugger o; str "--attach"; str "[::1]:7777"; c_str (pid_s g);
     str "-ex"; str "continue"]) no).

Definition sighdl_backtrace : handler := λ no g,
  g ← get_pid_binpath o g;
  Some (then_raise g (start_debugger fork_ret exec_ok lldb
    [lldb; str "--batch"; str "-p"; c_str (pid_s g); str "--one-line"; str "bt";
     c_str (binpath g)]) no).
End handlers.

Inductive handler_name : Type := hdl_debugger | hdl_remote_debugger | hdl_backtrace.
#[export] Instance handler_name_eq_dec : EqDecision handler_name.
Proof. solve_decision. Defined.

Definition handler_code (h : handler_name) : os → Z → bool → handler :=
  match h with
  | hdl_debugger => sighdl_debugger
  | hdl_remote_debugger => sighdl_remote_debugger
  | hdl_backtrace => sighdl_backtrace
  end.

(** [struct sigaction] of a signal; [None] in [actions] is [SIG_DFL]. *)
Record sigaction : Type := Sigaction {
  sa_sigaction : handler_name;
  sa_resethand : bool
}.
Abbreviation actions := (gmap Z sigaction).

Definition SIGABRT := 6.
Definition SIGBUS := 7.
Definition SIGFPE := 8.
Definition SIGSEGV := 11.

Definition install_crash_handler (hdlr : handler_name) (a : actions) : actions :=
  let action := Sigaction hdlr true in
  <[SIGFPE:=action]> (<[SIGABRT:=action]> (<[SIGSEGV:=action]> (<[SIGBUS:=action]> a))).

Definition install_debugger : actions → actions := install_crash_handler hdl_debugger.
Definition install_remote_debugger : actions → actions :=
  install_crash_handler hdl_remote_debugger.
Definition install_backtrace : actions → actions := install_crash_handler hdl_backtrace.
Definition install_jitdebugger (o : os) : actions → actions :=
  match jitdebug o with Some _ => install_debugger | None => install_backtrace end.

(** ** Delivery of a signal *)

Inductive fate : Type := killed (no : Z) | gone | undefined | unfinished.

(** The raise at the end of a handler is of the signal that is blocked: it is
    delivered when the handler returns.  [unfinished]: the fuel is used up. *)
Fixpoint deliver (fuel : nat) (o : os) (fork_ret : Z) (exec_ok : bool) (no : Z)
    (a : actions) (g : globals) : list syscall * fate :=
  match a !! no with
  | None => ([], killed no)
  | Some act =>
      match fuel with
      | O => ([], unfinished)
      | S fuel =>
          let a := if sa_resethand act then delete no a else a in
          match handler_code (sa_sigaction act) o fork_ret exec_ok no g with
          | None => ([], undefined)
          | Some (g, calls, false) => (calls, gone)
          | Some (g, calls, true) =>
              let '(more, f) := deliver fuel o fork_ret exec_ok no a g in (calls ++ more, f)
          end
      end
  end.

(** ** What a crash does *)

Definition crash_signal (no : Z) : Prop := no ∈ [SIGBUS; SIGSEGV; SIGABRT; SIGFPE].

(** What each handler runs, given the path of the executable. *)
Definition command (h : handler_name) (o : os) (exe : bytes) : bytes * list bytes :=
  let pid := nat_text (getpid o) in
  match h with
  | hdl_debugger => (get_debugger o, [get_debugger o; str "--pid"; pid])
  | hdl_remote_debugger =>
      (get_remote_debugger o,
       [get_remote_debugger o; str "--attach"; str "[::1]:7777"; pid; str "-ex"; str "continue"])
  | hdl_backtrace =>
      (lldb, [lldb; str "--batch"; str "-p"; pid; str "--one-line"; str "bt"; take 511 exe])
  end.

(** The buffers have the sizes they are declared with. *)
Definition sized (g : globals) : Prop := length (binpath g) = 512%nat ∧ length (pid_s g) = 11%nat.

Definition c_string (s : bytes) : Prop := 0 ∉ s.

Lemma store_start buf bs :
  (length bs <= length buf)%nat → store buf 0 bs = Some (bs ++ drop (length bs) buf).
Proof.
  intros H. unfold store. rewrite (proj2 (Z.leb_le _ _)) by lia. cbn [andb].
  by rewrite (proj2 (Z.leb_le _ _)) by lia.
Qed.

Lemma store_behind bs c rest :
  store (bs ++ c :: rest) (Z.of_nat (length bs)) [0] = Some (bs ++ 0 :: rest).
Proof.
  unfold store. rewrite (proj2 (Z.leb_le _ _)) by lia. cbn [andb].
  rewrite length_app. cbn [length]. rewrite (proj2 (Z.leb_le _ _)) by lia.
  rewrite Nat2Z.id, take_app_length, drop_app_add. done.
Qed.

Lemma c_str_app s rest : c_string s → c_str (s ++ 0 :: rest) = s.
Proof.
  induction s as [|c s IH]; intros Hs; [done|]. apply not_elem_of_cons in Hs as [Hc Hs].
  cbn [app c_str]. destruct (Z.eqb_spec c 0); [congruence|]. by rewrite IH.
Qed.

Lemma c_string_take n s : c_string s → c_string (take n s).
Proof. intros H Hi. apply H. rewrite <- (take_drop n s). apply elem_of_app. by left. Qed.

Lemma nat_text_c_string n : 0 <= n → c_string (nat_text n).
Proof.
  intros Hn Hi. destruct (nat_text_spec n Hn) as (_ & _ & Hd & _).
  rewrite Forall_forall in Hd. specialize (Hd _ Hi). done.
Qed.

(** A positive [pid_t] fits [pid_s], a path of any length [binpath]; both end
    up as the C strings they should be. *)
Lemma get_pid_binpath_ok o g exe :
  sized g → 0 < getpid o < 2 ^ 31 → self_exe o = Some exe → c_string exe →
  ∃ g', get_pid_binpath o g = Some g' ∧ sized g' ∧
        c_str (pid_s g') = nat_text (getpid o) ∧ c_str (binpath g') = take 511 exe.
Proof.
  intros [Hb Hs] Hpid He Hc. unfold get_pid_binpath. rewrite He. clear He.
  destruct (nat_text_spec (getpid o)) as (_ & _ & _ & Hlen); [lia|].
  specialize (Hlen 10%nat ltac:(lia) ltac:(change (10 ^ Z.of_nat 10) with 10000000000; lia)). set (path := take 511 exe).
  assert (int_text (getpid o) = nat_text (getpid o)) as ->.
  { unfold int_text. destruct (Z.ltb_spec (getpid o) 0); [lia|done]. }
  assert (length path <= 511)%nat as Hp by (unfold path; rewrite length_take; lia).
  rewrite (store_start (pid_s g)) by (rewrite length_app; cbn [length]; lia). cbn [mbind option_bind].
  rewrite (store_start (binpath g)) by lia. cbn [mbind option_bind].
  rewrite u64_small by (unfold is_u64; lia). rewrite (proj2 (Z.ltb_ge _ _)) by lia.
  destruct (drop (length path) (binpath g)) as [|c rest] eqn:Hd.
  { apply (f_equal length) in Hd. rewrite length_drop in Hd. cbn in Hd. lia. }
  rewrite store_behind. eexists. split; [done|]. unfold sized. cbn [binpath pid_s].
  apply (f_equal length) in Hd. rewrite length_drop in Hd. cbn in Hd.
  split_and!.
  - rewrite length_app. cbn [length]. lia.
  - rewrite length_app, length_drop, length_app. cbn [length]. lia.
  - rewrite <- (assoc_L app). apply c_str_app, nat_text_c_string. lia.
  - apply c_str_app. by apply c_string_take.
Qed.

Lemma installed h a no :
  crash_signal no → install_crash_handler h a !! no = Some (Sigaction h true).
Proof.
  unfold crash_signal, install_crash_handler. rewrite !elem_of_cons, elem_of_nil.
  intros [->|[->|[->|[->|[]]]]];
    repeat (rewrite lookup_insert_ne by (vm_compute; congruence)); apply lookup_insert_eq.
Qed.

(** One run of a handler, in the process and in its child. *)
Lemma handler_runs h o fork_ret exec_ok no g exe :
  sized g → 0 < getpid o < 2 ^ 31 → self_exe o = Some exe → c_string exe →
  ∃ g', sized g' ∧ let '(dbg, argv) := command h o exe in
  handler_code h o fork_ret exec_ok no g =
    Some (then_raise g' (start_debugger fork_ret exec_ok dbg argv) no).
Proof.
  intros Hg Hp He Hc. destruct (get_pid_binpath_ok o g exe Hg Hp He Hc) as (g' & E & Hs & E1 & E2).
  exists g'. split; [done|]. destruct h; cbn [command handler_code];
    unfold sighdl_debugger, sighdl_remote_debugger, sighdl_backtrace;
    rewrite E; cbn [mbind option_bind]; by rewrite ?E1, ?E2.
Qed.



(** [readlink] reports a failure as -1, which is compared as a [size_t] and so
    never seen: when [/proc/self/exe] cannot be read, every handler writes in front
    of [binpath] before any debugger is started. *)
Theorem crash_readlink_unchecked h a o fork_ret exec_ok no g fuel :
  sized g → 0 < getpid o < 2 ^ 31 → self_exe o = None → crash_signal no → (1 <= fuel)%nat →
  deliver fuel o fork_ret exec_ok no (install_crash_handler h a) g = ([], undefined).
Proof.
  intros [Hb Hs] Hpid He Hno Hfuel. destruct fuel as [|fuel]; [lia|].
  assert (get_pid_binpath o g = None) as E.
  { unfold get_pid_binpath. rewrite He. destruct (store (pid_s g) 0 _); [|done].
    cbn [mbind option_bind]. rewrite store_start by (cbn; lia). cbn [mbind option_bind].
    unfold store. rewrite app_nil_l, length_drop, Hb. reflexivity. }
  cbn [deliver]. rewrite installed by done. cbn [sa_sigaction].
  destruct h; cbn [handler_code];
    unfold sighdl_debugger, sighdl_remote_debugger, sighdl_backtrace; by rewrite E.
Qed.

Lemma crash_readlink_unchecked_witness :
  deliver 1 (Os 1 None None) 0 true SIGBUS (install_backtrace ∅) initial_globals = ([], undefined).
Proof.
  apply (crash_readlink_unchecked hdl_backtrace); [split; reflexivity|cbn; lia|reflexivity|by_decision|lia].
Defined.
