(* ===== verification/Lifetimes.v ===== *)
(** Computations on C++ objects whose members are constructed and destroyed
    by hand: a state, a script that says which of the operations that may
    throw do, and four ways to end (a value, an exception, std::terminate,
    undefined behaviour).  [wp] is the weakest precondition over every script,
    with one postcondition for a normal end and one for an exception, and
    only a script that throws leads to an exception or to std::terminate; its
    rules carry the proofs of the expected component. *)
From S2P Require Import Prelude.

Inductive outcome (X A : Type) : Type :=
| Done (a : A)
| Thrown (x : X)
| Terminated
| Undefined.
Arguments Done {X A} a. Arguments Thrown {X A} x. Arguments Terminated {X A}. Arguments Undefined {X A}.

(** [X] is what the constructors and assignments of the element types throw;
    the script has one entry per operation that may throw, [Some x] when it
    does, and past its end nothing throws. *)
Definition life (X W A : Type) : Type := W → list (option X) → outcome X A * (W * list (option X)).

Section life.
Context {X W : Type}.
Implicit Types (w : W) (s : list (option X)).

Definition lret {A} (a : A) : life X W A := λ w s, (Done a, (w, s)).
Definition lbind {A B} (m : life X W A) (k : A → life X W B) : life X W B := λ w s,
  match m w s with
  | (Done a, (w, s)) => k a w s
  | (Thrown x, r) => (Thrown x, r)
  | (Terminated, r) => (Terminated, r)
  | (Undefined, r) => (Undefined, r)
  end.
Definition lget : life X W W := λ w s, (Done w, (w, s)).
Definition lput (w' : W) : life X W unit := λ _ s, (Done (), (w', s)).
Definition lthrow {A} (x : X) : life X W A := λ w s, (Thrown x, (w, s)).
Definition lundefined {A} : life X W A := λ w s, (Undefined, (w, s)).

(** An operation of an element type: one declared noexcept never throws. *)
Definition may_throw (nothrow : bool) : life X W unit := λ w s,
  if nothrow then (Done (), (w, s))
  else match s with
       | Some x :: s => (Thrown x, (w, s))
       | None :: s => (Done (), (w, s))
       | [] => (Done (), (w, []))
       end.

(** A function declared noexcept(b): an exception that leaves it ends the
    program. *)
Definition noexcept {A} (b : bool) (m : life X W A) : life X W A := λ w s,
  match m w s with
  | (Thrown x, r) => (if b then Terminated else Thrown x, r)
  | r => r
  end.

(** try { m } catch (...) { h; throw; } *)
Definition try_rethrow {A} (m : life X W A) (h : life X W unit) : life X W A := λ w s,
  match m w s with
  | (Thrown x, (w, s)) => lbind h (λ _, lthrow x) w s
  | r => r
  end.

(** A caller that catches what [m] throws: did it return? *)
Definition attempt {A} (m : life X W A) : life X W bool := λ w s,
  match m w s with
  | (Done _, r) => (Done true, r)
  | (Thrown _, r) => (Done false, r)
  | (Terminated, r) => (Terminated, r)
  | (Undefined, r) => (Undefined, r)
  end.

(** Nothing throws. *)
Definition calm (s : list (option X)) : Prop := Forall (λ o, o = None) s.

Definition wp {A} (m : life X W A) (w : W) (Q : A → W → Prop) (QX : X → W → Prop) : Prop := ∀ s,
  match m w s with
  | (Done a, (w', s')) => Q a w' ∧ (calm s → calm s')
  | (Thrown x, (w', _)) => QX x w' ∧ ¬ calm s
  | (Terminated, _) => ¬ calm s
  | (Undefined, _) => False
  end.

(** The state is as it was when the exception left. *)
Definition unchanged (w : W) : X → W → Prop := λ _ w', w' = w.

Lemma wp_lret {A} (a : A) w (Q : A → W → Prop) QX : Q a w → wp (lret a) w Q QX.
Proof. intros ? s. by split. Qed.

Lemma wp_bind {A B} (m : life X W A) (k : A → life X W B) w Q QX :
  wp m w (λ a w', wp (k a) w' Q QX) QX → wp (lbind m k) w Q QX.
Proof.
  intros Hm s. specialize (Hm s). unfold lbind. destruct (m w s) as [[] [w' s']]; try done.
  destruct Hm as [Hk Hs]. specialize (Hk s'). destruct (k a w' s') as [[] [w'' s'']]; naive_solver.
Qed.

Lemma wp_get w (Q : W → W → Prop) QX : Q w w → wp lget w Q QX.
Proof. intros ? s. by split. Qed.

Lemma wp_put w' w (Q : unit → W → Prop) QX : Q () w' → wp (lput w') w Q QX.
Proof. intros ? s. by split. Qed.


Lemma wp_may_throw b w (Q : unit → W → Prop) (QX : X → W → Prop) :
  Q () w → (b = false → ∀ x, QX x w) → wp (may_throw b) w Q QX.
Proof.
  intros ? Hx s. unfold may_throw. destruct b; [done|].
  destruct s as [|[x|] s]; split; try done; [by apply Hx|by inversion 1|by inversion 1].
Qed.

Lemma wp_noexcept {A} b (m : life X W A) w Q (QX : X → W → Prop) :
  wp m w Q (λ x w', b = false → QX x w') → wp (noexcept b m) w Q QX.
Proof.
  intros Hm s. specialize (Hm s). unfold noexcept.
  destruct (m w s) as [[] [w' s']]; try done. destruct b; naive_solver.
Qed.

Lemma wp_try {A} (m : life X W A) h w Q (QX : X → W → Prop) :
  wp m w Q (λ x w', wp h w' (λ _, QX x) QX) → wp (try_rethrow m h) w Q QX.
Proof.
  intros Hm s. specialize (Hm s). unfold try_rethrow.
  destruct (m w s) as [[] [w' s']]; try done. unfold lbind. destruct Hm as [Hm Hs]. specialize (Hm s').
  destruct (h w' s') as [[] [w'' s'']]; naive_solver.
Qed.

Lemma wp_attempt {A} (m : life X W A) w (Q : bool → W → Prop) QX :
  wp m w (λ _, Q true) (λ _, Q false) → wp (attempt m) w Q QX.
Proof. intros Hm s. specialize (Hm s). unfold attempt. destruct (m w s) as [[] [w' s']]; naive_solver. Qed.

Lemma wp_weaken {A} (m : life X W A) w (Q Q' : A → W → Prop) (QX QX' : X → W → Prop) :
  wp m w Q QX → (∀ a w', Q a w' → Q' a w') → (∀ x w', QX x w' → QX' x w') → wp m w Q' QX'.
Proof. intros Hm HQ HX s. specialize (Hm s). destruct (m w s) as [[] [w' s']]; naive_solver. Qed.

(** A computation that meets its specification returns when nothing throws. *)
Lemma wp_calm {A} (m : life X W A) w Q (QX : X → W → Prop) s :
  wp m w Q QX → calm s → ∃ a w' s', m w s = (Done a, (w', s')) ∧ Q a w' ∧ calm s'.
Proof. intros Hm Hs. specialize (Hm s). destruct (m w s) as [[] [w' s']]; naive_solver. Qed.
End life.

Arguments life : clear implicits.

Declare Scope life_scope.
Delimit Scope life_scope with life.
Notation "'let!' x := m 'in' k" := (lbind m (λ x, k))
  (at level 10, x name, m at level 100, k at level 200) : life_scope.
Notation "m ;;! k" := (lbind m (λ _, k)) (at level 100, right associativity) : life_scope.

Ltac wp_step :=
  match goal with
  | |- wp (lret _) _ _ _ => apply wp_lret
  | |- wp (lbind _ _) _ _ _ => apply wp_bind
  | |- wp lget _ _ _ => apply wp_get
  | |- wp (lput _) _ _ _ => apply wp_put
  | |- wp (may_throw _) _ _ _ => apply wp_may_throw
  | |- wp (noexcept _ _) _ _ _ => apply wp_noexcept
  | |- wp (try_rethrow _ _) _ _ _ => apply wp_try
  end.
