(* ===== verification/Expected.v ===== *)
(** The vendored std::experimental::expected of src/include/thespian/expected.hpp,
    which [result] and every fallible call of thespian return.  An object is a
    flag [m_has_val] and a union of which at most one member is alive; the
    operations construct and destroy the members one by one, on a store of
    such objects, so that [this] and [rhs] may be the same object.  Using or
    destroying a member that is not alive is undefined behaviour, and so is
    here constructing one over a live member whose destructor is not trivial
    (the old member would never be destroyed).

    The traits of the element types that the code asks about are a parameter
    ([types]); a constructor or assignment of an element type that throws has
    no effect on its operands, destructors do not throw, and a move assignment of an
    element to itself keeps its value.  A call's
    arguments are an [arg]: the value they construct and whether the traits
    say that constructing and assigning from them cannot throw. *)
From S2P Require Import Prelude Lifetimes.
Local Open Scope life_scope.

(** is_..._v of one element type; all of them are false for void. *)
Record traits := Traits {
  is_nothrow_copy_constructible : bool;
  is_nothrow_move_constructible : bool;
  is_nothrow_copy_assignable : bool;
  is_nothrow_move_assignable : bool;
  is_nothrow_destructible : bool;
  is_trivially_destructible : bool;
  is_trivially_copy_constructible : bool;
  is_trivially_move_constructible : bool;
  is_trivially_copy_assignable : bool;
  is_trivially_move_assignable : bool
}.

(** The two element types of an expected<T, E>; [moved_value] and
    [moved_error] are what a move leaves in its source. *)
Record types (T E : Type) := Types {
  is_void : bool;
  of_value : traits;
  of_error : traits;
  moved_value : T → T;
  moved_error : E → E
}.
Arguments Types {T E}. Arguments is_void {T E}. Arguments of_value {T E}. Arguments of_error {T E}.
Arguments moved_value {T E}. Arguments moved_error {T E}.

Record arg (A : Type) := Arg {
  a_val : A;
  a_nothrow_construct : bool;
  a_nothrow_assign : bool
}.
Arguments Arg {A}. Arguments a_val {A}. Arguments a_nothrow_construct {A}. Arguments a_nothrow_assign {A}.

(** An lvalue is copied from, an rvalue moved from. *)
Inductive category := LValue | RValue.

(** The members of the union; [UNoInit] is the char that stands for neither. *)
Inductive member (T E : Type) : Type :=
| UVal (t : T)
| UErr (e : E)
| UNoInit.
Arguments UVal {T E}. Arguments UErr {T E}. Arguments UNoInit {T E}.

Record storage (T E : Type) := Storage { m_has_val : bool; m_union : member T E }.
Arguments Storage {T E}. Arguments m_has_val {T E}. Arguments m_union {T E}.

Section expected.
Context {T E X : Type} (c : types T E).
Local Notation W := (gmap nat (storage T E)).
Local Notation L := (life X W).
Implicit Types (i j k : nat) (s : storage T E).

(** The object at a location; every name in scope has one. *)
Definition object i : L (storage T E) :=
  let! w := lget in match w !! i with Some s => lret s | None => lundefined end.
Definition set_object i s : L unit := let! w := lget in lput (<[i := s]> w).
Definition set_union i (u : member T E) : L unit :=
  let! s := object i in set_object i (Storage (m_has_val s) u).
Definition set_has_val i (b : bool) : L unit :=
  let! s := object i in set_object i (Storage b (m_union s)).

(** A member may be constructed where none with a destructor to run is alive. *)
Definition vacant (u : member T E) : bool :=
  match u with
  | UVal _ => is_trivially_destructible (of_value c)
  | UErr _ => is_trivially_destructible (of_error c)
  | UNoInit => true
  end.
Definition place i (u : member T E) : L unit :=
  let! s := object i in if vacant (m_union s) then set_union i u else lundefined.

Definition kill_value i : L unit :=
  let! s := object i in match m_union s with UVal _ => set_union i UNoInit | _ => lundefined end.
Definition kill_error i : L unit :=
  let! s := object i in match m_union s with UErr _ => set_union i UNoInit | _ => lundefined end.

(** Construction from call arguments, from a reference and from a temporary. *)
Definition from_arg {A} (a : arg A) : L A := may_throw (a_nothrow_construct a) ;;! lret (a_val a).
Definition move_value_tmp (t : T) : L T :=
  may_throw (is_nothrow_move_constructible (of_value c)) ;;! lret t.
Definition move_error_tmp (e : E) : L E :=
  may_throw (is_nothrow_move_constructible (of_error c)) ;;! lret e.

(** * Storage

    One record per specialisation of expected_storage_base: its constructors
    (default, no_init, in_place, unexpect), destructor and the two functions
    that destroy a member. *)
Record storage_base := StorageBase {
  ctor_default : arg T → nat → L unit;
  ctor_no_init : nat → L unit;
  ctor_in_place : arg T → nat → L unit;
  ctor_unexpect : arg E → nat → L unit;
  dtor : nat → L unit;
  destruct_value : nat → L unit;
  destruct_error : nat → L unit
}.

Definition new_value (a : arg T) i : L unit := let! t := from_arg a in set_object i (Storage true (UVal t)).
Definition new_error (a : arg E) i : L unit := let! e := from_arg a in set_object i (Storage false (UErr e)).
Definition new_no_init (b : bool) i : L unit := set_object i (Storage b UNoInit).
Definition nothing (_ : nat) : L unit := lret ().

(** expected_storage_base<T, E, false, false> *)
Definition storage_base_ff : storage_base := {|
  ctor_default := new_value;
  ctor_no_init := new_no_init false;
  ctor_in_place := new_value;
  ctor_unexpect := new_error;
  dtor i := let! s := object i in if m_has_val s then kill_value i else kill_error i;
  destruct_value := kill_value;
  destruct_error := kill_error
|}.

(** expected_storage_base<T, E, true, true> *)
Definition storage_base_tt : storage_base := {|
  ctor_default := new_value;
  ctor_no_init := new_no_init false;
  ctor_in_place := new_value;
  ctor_unexpect := new_error;
  dtor := nothing;
  destruct_value := nothing;
  destruct_error := nothing
|}.

(** expected_storage_base<T, E, true, false> *)
Definition storage_base_tf : storage_base := {|
  ctor_default := new_value;
  ctor_no_init := new_no_init false;
  ctor_in_place := new_value;
  ctor_unexpect := new_error;
  dtor i := let! s := object i in if negb (m_has_val s) then kill_error i else lret ();
  destruct_value := nothing;
  destruct_error := kill_error
|}.

(** expected_storage_base<T, E, false, true> *)
Definition storage_base_ft : storage_base := {|
  ctor_default := new_value;
  ctor_no_init := new_no_init false;
  ctor_in_place := new_value;
  ctor_unexpect := new_error;
  dtor i := let! s := object i in if m_has_val s then kill_value i else lret ();
  destruct_value := kill_value;
  destruct_error := nothing
|}.

(** expected_storage_base<void, E, false, false>: no member for the value. *)
Definition storage_base_void_f : storage_base := {|
  ctor_default _ := new_no_init true;
  ctor_no_init := new_no_init false;
  ctor_in_place _ := new_no_init true;
  ctor_unexpect := new_error;
  dtor i := let! s := object i in if negb (m_has_val s) then kill_error i else lret ();
  destruct_value := nothing;
  destruct_error := kill_error
|}.

(** expected_storage_base<void, E, false, true> *)
Definition storage_base_void_t : storage_base := {|
  ctor_default _ := new_no_init true;
  ctor_no_init := new_no_init false;
  ctor_in_place _ := new_no_init true;
  ctor_unexpect := new_error;
  dtor := nothing;
  destruct_value := nothing;
  destruct_error := nothing
|}.

Definition base : storage_base :=
  let tv := is_trivially_destructible (of_value c) in
  let te := is_trivially_destructible (of_error c) in
  if is_void c then (if te then storage_base_void_t else storage_base_void_f)
  else match tv, te with
       | false, false => storage_base_ff
       | true, true => storage_base_tt
       | true, false => storage_base_tf
       | false, true => storage_base_ft
       end.

(** * View *)

Definition has_value i : L bool := let! s := object i in lret (m_has_val s).
Definition error i : L E := let! s := object i in match m_union s with UErr e => lret e | _ => lundefined end.
Definition val i : L T := let! s := object i in match m_union s with UVal t => lret t | _ => lundefined end.

Definition copy_value i : L T :=
  let! t := val i in may_throw (is_nothrow_copy_constructible (of_value c)) ;;! lret t.
Definition copy_error i : L E :=
  let! e := error i in may_throw (is_nothrow_copy_constructible (of_error c)) ;;! lret e.
Definition move_value i : L T :=
  let! t := val i in may_throw (is_nothrow_move_constructible (of_value c)) ;;!
  set_union i (UVal (moved_value c t)) ;;! lret t.
Definition move_error i : L E :=
  let! e := error i in may_throw (is_nothrow_move_constructible (of_error c)) ;;!
  set_union i (UErr (moved_error c e)) ;;! lret e.

(** Assignment to a member that is alive, from the other object's or from a
    temporary. *)
Definition assign_val_from (nothrow : bool) (t : T) i : L unit :=
  may_throw nothrow ;;! val i ;;! set_union i (UVal t).
Definition assign_err_from (nothrow : bool) (e : E) i : L unit :=
  may_throw nothrow ;;! error i ;;! set_union i (UErr e).

Definition construct_value i (m : L T) : L unit :=
  let! t := m in place i (UVal t) ;;! set_has_val i true.
Definition construct_error i (m : L E) : L unit :=
  let! e := m in place i (UErr e) ;;! set_has_val i false.

(** The void specialisation's construct_value. *)
Definition void_construct_value i : L unit := set_has_val i true.

(** emplace(args...).  The branch for a T that may throw both from the
    arguments and from a move calls base::construct_error, which
    expected_storage_base does not have: that instance does not compile. *)
Definition emplace i (a : arg T) : option (L unit) :=
  let nothrow := a_nothrow_construct a in
  let nt_move := is_nothrow_move_constructible (of_value c) in
  if negb nothrow && negb nt_move then None
  else Some (noexcept (nothrow && is_nothrow_move_assignable (of_value c)
                       && is_nothrow_destructible (of_error c))
    (let! b := has_value i in
     if b then let! t := from_arg a in assign_val_from (is_nothrow_move_assignable (of_value c)) t i
     else if nothrow then destruct_error base i ;;! construct_value i (from_arg a)
     else let! tmp := from_arg a in
          destruct_error base i ;;! construct_value i (move_value_tmp tmp))).

(** emplace(il, args...): the branches ask whether T is nothrow
    constructible from [Args...], without the list ([nothrow_args]). *)
Definition emplace_il i (nothrow_args : bool) (a : arg T) : option (L unit) :=
  let nt_move := is_nothrow_move_constructible (of_value c) in
  if negb nothrow_args && negb nt_move then None
  else Some (noexcept (a_nothrow_construct a && is_nothrow_move_assignable (of_value c)
                       && is_nothrow_destructible (of_error c))
    (let! b := has_value i in
     if b then let! t := from_arg a in assign_val_from (is_nothrow_move_assignable (of_value c)) t i
     else if nothrow_args then destruct_error base i ;;! construct_value i (from_arg a)
     else let! tmp := from_arg a in
          destruct_error base i ;;! construct_value i (move_value_tmp tmp))).

(** The void specialisation's emplace(). *)
Definition void_emplace i : L unit :=
  let! b := has_value i in
  (if negb b then destruct_error base i else lret ()) ;;! void_construct_value i.
(** * Operations *)

Definition tv : traits := of_value c.
Definition te : traits := of_error c.

Definition assign_value i (a : arg T) : L unit :=
  noexcept (a_nothrow_construct a && a_nothrow_assign a)
  (let! b := has_value i in
   if negb b then
     if a_nothrow_construct a then
       destruct_error base i ;;! construct_value i (from_arg a)
     else
       let! tmp := copy_error i in
       destruct_error base i ;;!
       try_rethrow (construct_value i (from_arg a)) (construct_error i (move_error_tmp tmp))
   else assign_val_from (a_nothrow_assign a) (a_val a) i).

(** assign_error from an unexpected<G>: the static_asserts refuse an argument
    from which E may throw. *)
Definition assign_error i (a : arg E) : option (L unit) :=
  if negb (a_nothrow_construct a && a_nothrow_assign a) then None
  else Some (noexcept (is_nothrow_destructible tv)
    (let! b := has_value i in
     if b then destruct_value base i ;;! construct_error i (from_arg a)
     else assign_err_from (a_nothrow_assign a) (a_val a) i)).

(** assign(const expected_operations_base &rhs) *)
Definition assign_copy i j : L unit :=
  noexcept (is_nothrow_copy_assignable tv && is_nothrow_copy_assignable te
            && is_nothrow_destructible te && (is_void c || is_nothrow_copy_constructible tv))
  (let! b := has_value i in
   let! r := has_value j in
   if negb b && r then
     if is_void c then
       destruct_error base i ;;! void_construct_value i
     else if is_nothrow_copy_constructible tv then
       destruct_error base i ;;! construct_value i (copy_value j)
     else if is_nothrow_move_constructible tv then
       let! tmp := copy_value j in
       destruct_error base i ;;! construct_value i (move_value_tmp tmp)
     else
       let! tmp := copy_error i in
       destruct_error base i ;;!
       try_rethrow (construct_value i (copy_value j)) (construct_error i (move_error_tmp tmp))
   else if b && negb r then
     if is_void c then
       construct_error i (copy_error j)
     else if is_nothrow_copy_constructible tv then
       destruct_value base i ;;! construct_error i (copy_error j)
     else if is_nothrow_move_constructible tv then
       let! tmp := copy_error j in
       destruct_value base i ;;! construct_error i (move_error_tmp tmp)
     else
       let! tmp := copy_value i in
       destruct_value base i ;;!
       try_rethrow (construct_error i (copy_error j)) (construct_value i (move_value_tmp tmp))
   else if is_void c then
     if negb b then let! e := error j in assign_err_from (is_nothrow_copy_assignable te) e i
     else lret ()
   else if b then let! t := val j in assign_val_from (is_nothrow_copy_assignable tv) t i
   else let! e := error j in assign_err_from (is_nothrow_copy_assignable te) e i).

(** Move assignment of a member: the source is left moved from, then the
    target has the value. *)
Definition move_assign_val i j : L unit :=
  let! t := val j in may_throw (is_nothrow_move_assignable tv) ;;! val i ;;!
  set_union j (UVal (moved_value c t)) ;;! set_union i (UVal t).
Definition move_assign_err i j : L unit :=
  let! e := error j in may_throw (is_nothrow_move_assignable te) ;;! error i ;;!
  set_union j (UErr (moved_error c e)) ;;! set_union i (UErr e).

(** assign(expected_operations_base &&rhs) *)
Definition assign_move i j : L unit :=
  noexcept (is_nothrow_destructible tv && is_nothrow_destructible te
            && is_nothrow_move_constructible tv && is_nothrow_move_assignable te)
  (let! b := has_value i in
   let! r := has_value j in
   if negb b && r then
     if is_void c then
       destruct_error base i ;;! void_construct_value i
     else if is_nothrow_move_constructible tv then
       destruct_error base i ;;! construct_value i (move_value j)
     else
       let! tmp := move_error i in
       destruct_error base i ;;!
       try_rethrow (construct_value i (move_value j)) (construct_error i (move_error_tmp tmp))
   else if b && negb r then
     if is_void c then
       construct_error i (move_error j)
     else if is_nothrow_move_constructible tv then
       destruct_value base i ;;! construct_error i (move_error j)
     else
       let! tmp := move_value i in
       destruct_value base i ;;!
       try_rethrow (construct_error i (move_error j)) (construct_value i (move_value_tmp tmp))
   else if b then if negb (is_void c) then move_assign_val i j else lret ()
   else move_assign_err i j).

(** * Constructors

    A constructor whose body throws destroys the base that is already
    constructed, and the object never exists; one declared noexcept ends the
    program first. *)
Definition constructing (nothrow : bool) i (body : L unit) : L unit :=
  ctor_no_init base i ;;!
  try_rethrow (noexcept nothrow body) (dtor base i ;;! let! w := lget in lput (delete i w)).

(** expected_copy_base: the defaulted constructor copies the storage. *)
Definition copy_ctor i j : L unit :=
  if is_trivially_copy_constructible te && (is_void c || is_trivially_copy_constructible tv) then
    let! s := object j in set_object i s
  else constructing (is_nothrow_copy_constructible tv) i
    (let! r := has_value j in
     if r then if is_void c then void_construct_value i else construct_value i (copy_value j)
     else construct_error i (copy_error j)).

(** expected_move_base *)
Definition move_ctor i j : L unit :=
  if is_trivially_move_constructible te && (is_void c || is_trivially_move_constructible tv) then
    let! s := object j in set_object i s
  else constructing (is_nothrow_move_constructible tv) i
    (let! r := has_value j in
     if r then if is_void c then void_construct_value i else construct_value i (move_value j)
     else construct_error i (move_error j)).

(** expected_copy_assign_base::operator= *)
Definition copy_assign i j : L unit :=
  if (is_void c || (is_trivially_copy_assignable tv && is_trivially_copy_constructible tv
                    && is_trivially_destructible tv))
     && is_trivially_copy_assignable te && is_trivially_copy_constructible te
     && is_trivially_destructible te
  then let! s := object j in object i ;;! set_object i s
  else noexcept (is_nothrow_copy_constructible tv && is_nothrow_copy_assignable te) (assign_copy i j).

(** expected_move_assign_base::operator= *)
Definition move_assign i j : L unit :=
  if (is_void c || (is_trivially_destructible tv && is_trivially_move_constructible tv
                    && is_trivially_move_assignable tv))
     && is_trivially_destructible te && is_trivially_move_constructible te
     && is_trivially_move_assignable te
  then let! s := object j in object i ;;! set_object i s
  else noexcept (is_nothrow_destructible tv && is_nothrow_destructible te
                 && is_nothrow_move_constructible tv && is_nothrow_move_assignable te) (assign_move i j).

(** expected's constructors: in place from call arguments, from a value, and
    the same for the error, from an unexpected<G>. *)
Definition in_place_ctor i (a : arg T) : L unit := ctor_in_place base a i.
Definition value_ctor i (a : arg T) : L unit := in_place_ctor i a.
Definition unexpect_ctor i (a : arg E) : L unit := ctor_unexpect base a i.
Definition unexpected_ctor i (a : arg E) : L unit := unexpect_ctor i a.

(** Its operator= from a value and from an unexpected<G>. *)
Definition op_assign_value i (a : arg T) : L unit :=
  noexcept (a_nothrow_construct a && a_nothrow_assign a) (assign_value i a).
Definition op_assign_error i (a : arg E) : option (L unit) :=
  match assign_error i a with
  | Some m => Some (noexcept (is_nothrow_destructible tv) m)
  | None => None
  end.

(** Its default constructor and destructor. *)
Definition default_ctor i (a : arg T) : L unit := ctor_default base a i.
Definition destroy i : L unit := dtor base i ;;! let! w := lget in lput (delete i w).

(** From an expected<U, G>: what U and G construct in T and E is the
    argument's affair. *)
Definition convert_ctor {U G} i (rhs : storage U G) (cv : U → arg T) (ce : G → arg E) (nothrow : bool) : L unit :=
  constructing nothrow i
    (if m_has_val rhs
     then match m_union rhs with UVal u => construct_value i (from_arg (cv u)) | _ => lundefined end
     else match m_union rhs with UErr g => construct_error i (from_arg (ce g)) | _ => lundefined end).

(** * swap *)

(** std::swap of two live members. *)
Definition swap_vals i j : L unit :=
  let! tmp := move_value i in
  move_assign_val i j ;;! assign_val_from (is_nothrow_move_assignable tv) tmp j.
Definition swap_errs i j : L unit :=
  let! tmp := move_error i in
  move_assign_err i j ;;! assign_err_from (is_nothrow_move_assignable te) tmp j.

(** The branch taken when *this has no value. *)
Definition swap_from_error i j : L unit :=
  let! r := has_value j in
  if r then
    if is_void c then
      construct_error i (move_error j) ;;! destruct_error base j ;;! void_construct_value j
    else if is_nothrow_move_constructible te then
      let! tmp := move_error j in
      destruct_error base j ;;!
      (if is_nothrow_move_constructible tv then construct_value j (move_value i)
       else try_rethrow (construct_value j (move_value i)) (construct_error j (move_error_tmp tmp))) ;;!
      destruct_value base i ;;! construct_error i (move_error_tmp tmp)
    else
      let! tmp := move_value i in
      destruct_value base i ;;!
      try_rethrow (construct_error i (move_error j)) (construct_value i (move_value_tmp tmp)) ;;!
      destruct_error base j ;;! construct_value j (move_value_tmp tmp)
  else swap_errs i j.

(** When only *this has a value the code calls rhs.swap( *this), which
    finds no value in its own object and takes the branch above. *)
Definition swap i j (nothrow : bool) : L unit := noexcept nothrow
  (let! b := has_value i in
   if b then
     let! r := has_value j in
     if r then if negb (is_void c) then swap_vals i j else lret ()
     else swap_from_error j i
   else swap_from_error i j).

(** * Observers *)

(** value(): [bad] is the bad_expected_access<E> that is thrown, built from
    the error. *)
Definition value (bad : E → X) (k : category) i : L T :=
  let! b := has_value i in
  if negb b then
    let! e := (match k with LValue => copy_error i | RValue => move_error i end) in
    let! m_error := move_error_tmp e in lthrow (bad m_error)
  else val i.

Definition value_or (k : category) (v : arg T) i : L T := noexcept true
  (let! b := has_value i in
   if b then match k with LValue => copy_value i | RValue => move_value i end else from_arg v).

(** * Extensions

    [k] is the category of the expression the function is called on; the
    result is a new object, which the caller receives. *)
Definition forward_error (k : category) i : L E :=
  match k with LValue => copy_error i | RValue => move_error i end.
Definition forward_value (k : category) i : L T :=
  match k with LValue => copy_value i | RValue => move_value i end.
Definition unexpect_of {U G} (m : L G) : L (storage U G) := let! g := m in lret (Storage false (UErr g)).
Definition value_of {U G} (m : L U) : L (storage U G) := let! u := m in lret (Storage true (UVal u)).
Definition materialize {A} (nothrow : bool) (m : L A) : L A := let! a := m in may_throw nothrow ;;! lret a.
Definition void_of {U G} (m : L unit) : L (storage U G) := m ;;! lret (Storage true UNoInit).

(** f is called on a reference to the value. *)
Definition expected_and_then {U} (k : category) i (f : T → L (storage U E)) : L (storage U E) :=
  let! b := has_value i in
  if b then let! t := val i in f t else unexpect_of (forward_error k i).
Definition expected_and_then_void {U} (k : category) i (f : L (storage U E)) : L (storage U E) :=
  let! b := has_value i in
  if b then f else unexpect_of (forward_error k i).

(** forward<Exp>(exp) as the result: a copy or a move of the whole object,
    which is built at [k'] and read from there. *)
Definition forward_exp (k : category) i k' : L (storage T E) :=
  match k with LValue => copy_ctor k' i | RValue => move_ctor k' i end ;;! object k'.
Definition expected_or_else (k : category) i k' (f : E → L (storage T E)) : L (storage T E) :=
  let! b := has_value i in
  if b then forward_exp k i k' else let! e := error i in f e.
Definition expected_or_else_void (k : category) i k' (f : E → L unit) : L (storage T E) :=
  let! b := has_value i in
  (if negb b then let! e := error i in f e else lret ()) ;;! forward_exp k i k'.

(** map: of a value by a function with a result or without, of no value
    likewise.  The result of f is a temporary that is moved into the new
    object; [nothrow] says whether its type's move constructor can throw. *)
Definition expected_map {U} (nothrow : bool) (k : category) i (f : T → L U) : L (storage U E) :=
  let! b := has_value i in
  if b then let! t := val i in value_of (materialize nothrow (f t)) else unexpect_of (forward_error k i).
Definition expected_map_to_void {U} (k : category) i (f : T → L unit) : L (storage U E) :=
  let! b := has_value i in
  if b then let! t := val i in void_of (f t) else unexpect_of (forward_error k i).
Definition expected_map_void {U} (nothrow : bool) (k : category) i (f : L U) : L (storage U E) :=
  let! b := has_value i in
  if b then value_of (materialize nothrow f) else unexpect_of (forward_error k i).
Definition expected_map_void_to_void {U} (k : category) i (f : L unit) : L (storage U E) :=
  let! b := has_value i in
  if b then void_of f else unexpect_of (forward_error k i).

(** map_error; a function without a result leaves a monostate. *)
Definition expected_map_error {G} (nothrow : bool) (k : category) i (f : E → L G) : L (storage T G) :=
  let! b := has_value i in
  if b then value_of (forward_value k i) else let! e := error i in unexpect_of (materialize nothrow (f e)).
Definition expected_map_error_to_void (k : category) i (f : E → L unit) : L (storage T unit) :=
  let! b := has_value i in
  if b then value_of (forward_value k i)
  else let! e := error i in f e ;;! unexpect_of (lret ()).
(** The overload for a void expected and a function without a result builds
    an unexpected<monostate> from no argument, which has no such constructor:
    it does not compile. *)
Definition expected_map_error_void {G} (nothrow : bool) (k : category) i (f : E → L G) : L (storage T G) :=
  let! b := has_value i in
  if b then void_of (lret ()) else let! e := error i in unexpect_of (materialize nothrow (f e)).
End expected.

Arguments base {T E X} c.

(** * thespian's result ([src/include/thespian/handle.hpp])

    [c] are the types of result, expected<void, error>; the argument of
    [to_result] is an expected<U, error> of the caller. *)
Section result.
Context {E X : Type} (c : types unit E).
Local Notation L := (life X (gmap nat (storage unit E))).

Definition ok (i : nat) : L unit := default_ctor c i (Arg () true true).

(** to_error copies the error, and the result is constructed from it by a
    move. *)
Definition to_result {U} (i : nat) (ret : storage U E) : L unit :=
  if m_has_val ret then ok i
  else match m_union ret with
       | UErr e =>
           may_throw (is_nothrow_copy_constructible (of_error c)) ;;!
           unexpected_ctor c i (Arg e (is_nothrow_move_constructible (of_error c)) false)
       | _ => lundefined
       end.
End result.

(** * unexpected<E>

    A constructor or assignment that throws has no effect. *)
Section unexpected.
Context {E : Type}.
Record unexpected := Unexpected { m_val : E }.

Definition unexpected_of (a : arg E) : unexpected := Unexpected (a_val a).
Definition unexpected_assign (u : unexpected) (a : arg E) : unexpected := Unexpected (a_val a).
Definition unexpected_value (u : unexpected) : E := m_val u.
Definition unexpected_swap (u v : unexpected) : unexpected * unexpected := (Unexpected (m_val v), Unexpected (m_val u)).
Definition unexpected_eq (eqE : E → E → bool) (x y : unexpected) : bool := eqE (unexpected_value x) (unexpected_value y).
Definition unexpected_ne (neE : E → E → bool) (x y : unexpected) : bool := neE (unexpected_value x) (unexpected_value y).
End unexpected.

(** * Comparison

    The element types' own operators == and != are parameters; [None] is the
    use of a member that is not alive. *)
Section comparison.
Context {T1 E1 T2 E2 : Type}.
Implicit Types (x : storage T1 E1) (y : storage T2 E2).

Definition read_err {T E} (s : storage T E) : option E := match m_union s with UErr e => Some e | _ => None end.
Definition read_val {T E} (s : storage T E) : option T := match m_union s with UVal t => Some t | _ => None end.

(** operator==(expected, expected); [voids] when both value types are void. *)
Definition expected_eq (voids : bool) (eqE : E1 → E2 → bool) (eqT : T1 → T2 → bool) x y : option bool :=
  if negb (eqb (m_has_val x) (m_has_val y)) then Some false
  else if negb (m_has_val x) then e ← read_err x; e' ← read_err y; Some (eqE e e')
  else if voids then Some true
  else t ← read_val x; t' ← read_val y; Some (eqT t t').

(** operator!=(expected, expected) *)
Definition expected_ne (voids : bool) (neE : E1 → E2 → bool) (neT : T1 → T2 → bool) x y : option bool :=
  if negb (eqb (m_has_val x) (m_has_val y)) then Some true
  else if negb (m_has_val x) then e ← read_err x; e' ← read_err y; Some (neE e e')
  else if voids then Some true
  else t ← read_val x; t' ← read_val y; Some (neT t t').

(** operator== and != with a value. *)
Definition expected_eq_value (eqT : T1 → T2 → bool) x (v : T2) : option bool :=
  if m_has_val x then t ← read_val x; Some (eqT t v) else Some false.
Definition expected_ne_value (neT : T1 → T2 → bool) x (v : T2) : option bool :=
  if m_has_val x then t ← read_val x; Some (neT t v) else Some false.

(** operator== and != with an unexpected<E2>. *)
Definition expected_eq_unexpected (eqE : E1 → E2 → bool) x (e : E2) : option bool :=
  if m_has_val x then Some false else e' ← read_err x; Some (eqE e' e).
Definition expected_ne_unexpected (neE : E1 → E2 → bool) x (e : E2) : option bool :=
  if m_has_val x then Some true else e' ← read_err x; Some (neE e' e).
End comparison.
