(* ===== verification/ExpectedTheorems.v ===== *)
(** Expected: the life of the members.  [sound] says that the flag tells which
    member is alive; every operation keeps it and has the effect it has on
    the contents ([content], a value or an error), and an exception leaves
    everything as it was - under the conditions on the element types that the
    proofs need ([copy_assign_safe], [copy_ctor_safe], [move_ctor_safe]),
    which the code does not check; ExpectedRuns puts the operations together
    and shows what happens without them. *)
From S2P Require Import Prelude Lifetimes Expected.

Section sound.
Context {T E X : Type} (c : types T E).
Local Notation W := (gmap nat (storage T E)).
Implicit Types (w : W) (s r : storage T E) (i j : nat) (b : bool) (u : member T E).

Definition sound s : Prop :=
  match m_has_val s, m_union s with
  | true, UVal _ => is_void c = false
  | true, UErr _ => is_void c = true ∧ is_trivially_destructible (of_error c) = true
  | true, UNoInit => is_void c = true
  | false, UErr _ => True
  | false, _ => False
  end.

(** The value, if the type has one, or the error. *)
Definition content s : option (option T + E) :=
  match m_has_val s, m_union s with
  | true, UVal t => Some (inl (Some t))
  | true, _ => Some (inl None)
  | false, UErr e => Some (inr e)
  | false, _ => None
  end.

Lemma wp_object i w s (Q : storage T E → W → Prop) (QX : X → W → Prop) :
  w !! i = Some s → Q s w → wp (object i) w Q QX.
Proof. intros Hi HQ. apply wp_bind, wp_get. rewrite Hi. by apply wp_lret. Qed.

Lemma wp_set_object i s w (Q : unit → W → Prop) (QX : X → W → Prop) :
  Q () (<[i := s]> w) → wp (set_object i s) w Q QX.
Proof. intros HQ. apply wp_bind, wp_get. by apply wp_put. Qed.

Lemma wp_set_union i u w s (Q : unit → W → Prop) (QX : X → W → Prop) :
  w !! i = Some s → Q () (<[i := Storage (m_has_val s) u]> w) → wp (set_union i u) w Q QX.
Proof. intros Hi HQ. apply wp_bind, (wp_object _ _ s); [done|]. by apply wp_set_object. Qed.

Lemma wp_set_has_val i b w s (Q : unit → W → Prop) (QX : X → W → Prop) :
  w !! i = Some s → Q () (<[i := Storage b (m_union s)]> w) → wp (set_has_val i b) w Q QX.
Proof. intros Hi HQ. apply wp_bind, (wp_object _ _ s); [done|]. by apply wp_set_object. Qed.

Lemma wp_has_value i w s (Q : bool → W → Prop) (QX : X → W → Prop) :
  w !! i = Some s → Q (m_has_val s) w → wp (has_value i) w Q QX.
Proof. intros Hi HQ. apply wp_bind, (wp_object _ _ s); [done|]. by apply wp_lret. Qed.

Lemma wp_val i w b t (Q : T → W → Prop) (QX : X → W → Prop) :
  w !! i = Some (Storage b (UVal t)) → Q t w → wp (val i) w Q QX.
Proof. intros Hi HQ. eapply wp_bind, wp_object; [done|]. by apply wp_lret. Qed.

Lemma wp_error i w b e (Q : E → W → Prop) (QX : X → W → Prop) :
  w !! i = Some (Storage b (UErr e)) → Q e w → wp (error i) w Q QX.
Proof. intros Hi HQ. eapply wp_bind, wp_object; [done|]. by apply wp_lret. Qed.

Lemma wp_from_arg {A} (a : arg A) w (Q : A → W → Prop) (QX : X → W → Prop) :
  Q (a_val a) w → (a_nothrow_construct a = false → ∀ x, QX x w) → wp (from_arg a) w Q QX.
Proof. intros HQ Hx. apply wp_bind, wp_may_throw; [by apply wp_lret|done]. Qed.

(** A member is constructed in a union with nothing to destroy. *)
Lemma wp_construct_value i (m : life X W T) w (Q : unit → W → Prop) (QX : X → W → Prop) :
  wp m w (λ t w', ∃ s, w' !! i = Some s ∧ vacant c (m_union s) = true ∧
                       Q () (<[i := Storage true (UVal t)]> w')) QX →
  wp (construct_value c i m) w Q QX.
Proof.
  intros Hm. apply wp_bind. eapply wp_weaken; [exact Hm| |done].
  intros t w' (s & Hi & Hv & HQ). apply wp_bind. eapply wp_bind, wp_object; [done|]. rewrite Hv.
  eapply wp_set_union; [done|]. eapply wp_set_has_val; [apply lookup_insert_eq|].
  by rewrite insert_insert_eq.
Qed.

Lemma wp_construct_error i (m : life X W E) w (Q : unit → W → Prop) (QX : X → W → Prop) :
  wp m w (λ e w', ∃ s, w' !! i = Some s ∧ vacant c (m_union s) = true ∧
                       Q () (<[i := Storage false (UErr e)]> w')) QX →
  wp (construct_error c i m) w Q QX.
Proof.
  intros Hm. apply wp_bind. eapply wp_weaken; [exact Hm| |done].
  intros t w' (s & Hi & Hv & HQ). apply wp_bind. eapply wp_bind, wp_object; [done|]. rewrite Hv.
  eapply wp_set_union; [done|]. eapply wp_set_has_val; [apply lookup_insert_eq|].
  by rewrite insert_insert_eq.
Qed.

(** Destroying the live member leaves nothing to destroy, in each of the
    specialisations. *)
Lemma wp_destruct_value i w b t (Q : unit → W → Prop) (QX : X → W → Prop) :
  is_void c = false → w !! i = Some (Storage b (UVal t)) →
  (∀ u, vacant c u = true → Q () (<[i := Storage b u]> w)) → wp (destruct_value (base c) i) w Q QX.
Proof.
  intros Hv Hi HQ. unfold base. rewrite Hv.
  destruct (is_trivially_destructible (of_value c)) eqn:Hd, (is_trivially_destructible (of_error c)); simpl.
  1, 2: apply wp_lret; rewrite <-(insert_id w i _ Hi); apply HQ; by unfold vacant; rewrite Hd.
  all: eapply wp_bind, wp_object; [done|]; simpl; (eapply wp_set_union; [done|]); by apply HQ.
Qed.

Lemma wp_destruct_error i w b e (Q : unit → W → Prop) (QX : X → W → Prop) :
  w !! i = Some (Storage b (UErr e)) →
  (∀ u, vacant c u = true → (is_void c = true → ∀ t, u ≠ UVal t) → Q () (<[i := Storage b u]> w)) →
  wp (destruct_error (base c) i) w Q QX.
Proof.
  intros Hi HQ. unfold base.
  destruct (is_trivially_destructible (of_error c)) eqn:Hd.
  - assert (wp (nothing i) w Q QX) as Hn.
    { apply wp_lret. rewrite <-(insert_id w i _ Hi). apply HQ; [by unfold vacant; rewrite Hd|done]. }
    by destruct (is_void c), (is_trivially_destructible (of_value c)).
  - assert (wp (kill_error i) w Q QX) as Hk.
    { eapply wp_bind, wp_object; [done|]. simpl. eapply wp_set_union; [done|]. by apply HQ. }
    by destruct (is_void c), (is_trivially_destructible (of_value c)).
Qed.

Lemma wp_destruct_void i w (Q : unit → W → Prop) (QX : X → W → Prop) :
  is_void c = true → Q () w → wp (destruct_value (base c) i) w Q QX.
Proof. intros Hv HQ. unfold base. rewrite Hv. destruct (is_trivially_destructible (of_error c)); by apply wp_lret. Qed.

Lemma wp_copy_value j w b t (Q : T → W → Prop) (QX : X → W → Prop) :
  w !! j = Some (Storage b (UVal t)) → Q t w →
  (is_nothrow_copy_constructible (of_value c) = false → ∀ x, QX x w) → wp (copy_value c j) w Q QX.
Proof. intros Hj HQ Hx. eapply wp_bind, wp_val; [done|]. apply wp_bind, wp_may_throw; [by apply wp_lret|done]. Qed.

Lemma wp_copy_error j w b e (Q : E → W → Prop) (QX : X → W → Prop) :
  w !! j = Some (Storage b (UErr e)) → Q e w →
  (is_nothrow_copy_constructible (of_error c) = false → ∀ x, QX x w) → wp (copy_error c j) w Q QX.
Proof. intros Hj HQ Hx. eapply wp_bind, wp_error; [done|]. apply wp_bind, wp_may_throw; [by apply wp_lret|done]. Qed.

Lemma wp_move_value j w b t (Q : T → W → Prop) (QX : X → W → Prop) :
  w !! j = Some (Storage b (UVal t)) → Q t (<[j := Storage b (UVal (moved_value c t))]> w) →
  (is_nothrow_move_constructible (of_value c) = false → ∀ x, QX x w) → wp (move_value c j) w Q QX.
Proof.
  intros Hj HQ Hx. eapply wp_bind, wp_val; [done|]. apply wp_bind, wp_may_throw; [|done].
  eapply wp_bind, wp_set_union; [done|]. by apply wp_lret.
Qed.

Lemma wp_move_error j w b e (Q : E → W → Prop) (QX : X → W → Prop) :
  w !! j = Some (Storage b (UErr e)) → Q e (<[j := Storage b (UErr (moved_error c e))]> w) →
  (is_nothrow_move_constructible (of_error c) = false → ∀ x, QX x w) → wp (move_error c j) w Q QX.
Proof.
  intros Hj HQ Hx. eapply wp_bind, wp_error; [done|]. apply wp_bind, wp_may_throw; [|done].
  eapply wp_bind, wp_set_union; [done|]. by apply wp_lret.
Qed.

Lemma wp_move_value_tmp t w (Q : T → W → Prop) (QX : X → W → Prop) :
  Q t w → (is_nothrow_move_constructible (of_value c) = false → ∀ x, QX x w) → wp (move_value_tmp c t) w Q QX.
Proof. intros HQ Hx. apply wp_bind, wp_may_throw; [by apply wp_lret|done]. Qed.

Lemma wp_move_error_tmp e w (Q : E → W → Prop) (QX : X → W → Prop) :
  Q e w → (is_nothrow_move_constructible (of_error c) = false → ∀ x, QX x w) → wp (move_error_tmp c e) w Q QX.
Proof. intros HQ Hx. apply wp_bind, wp_may_throw; [by apply wp_lret|done]. Qed.

Lemma wp_assign_val_from nothrow t i w b t' (Q : unit → W → Prop) (QX : X → W → Prop) :
  w !! i = Some (Storage b (UVal t')) → Q () (<[i := Storage b (UVal t)]> w) →
  (nothrow = false → ∀ x, QX x w) → wp (assign_val_from nothrow t i) w Q QX.
Proof.
  intros Hi HQ Hx. apply wp_bind, wp_may_throw; [|done].
  eapply wp_bind, wp_val; [done|]. by eapply wp_set_union.
Qed.

Lemma wp_assign_err_from nothrow e i w b e' (Q : unit → W → Prop) (QX : X → W → Prop) :
  w !! i = Some (Storage b (UErr e')) → Q () (<[i := Storage b (UErr e)]> w) →
  (nothrow = false → ∀ x, QX x w) → wp (assign_err_from nothrow e i) w Q QX.
Proof.
  intros Hi HQ Hx. apply wp_bind, wp_may_throw; [|done].
  eapply wp_bind, wp_error; [done|]. by eapply wp_set_union.
Qed.

Lemma wp_move_assign_val i j w b b' t t' (Q : unit → W → Prop) (QX : X → W → Prop) :
  w !! i = Some (Storage b (UVal t')) → w !! j = Some (Storage b' (UVal t)) →
  Q () (<[i := Storage b (UVal t)]> (<[j := Storage b' (UVal (moved_value c t))]> w)) →
  (is_nothrow_move_assignable (of_value c) = false → ∀ x, QX x w) → wp (move_assign_val c i j) w Q QX.
Proof.
  intros Hi Hj HQ Hx. eapply wp_bind, wp_val; [done|]. apply wp_bind, wp_may_throw; [|done].
  eapply wp_bind, wp_val; [done|]. eapply wp_bind, wp_set_union; [done|].
  destruct (decide (i = j)) as [->|Hne]; (eapply wp_set_union; [by simplify_map_eq|]); by simplify_eq/=.
Qed.

Lemma wp_move_assign_err i j w b b' e e' (Q : unit → W → Prop) (QX : X → W → Prop) :
  w !! i = Some (Storage b (UErr e')) → w !! j = Some (Storage b' (UErr e)) →
  Q () (<[i := Storage b (UErr e)]> (<[j := Storage b' (UErr (moved_error c e))]> w)) →
  (is_nothrow_move_assignable (of_error c) = false → ∀ x, QX x w) → wp (move_assign_err c i j) w Q QX.
Proof.
  intros Hi Hj HQ Hx. eapply wp_bind, wp_error; [done|]. apply wp_bind, wp_may_throw; [|done].
  eapply wp_bind, wp_error; [done|]. eapply wp_bind, wp_set_union; [done|].
  destruct (decide (i = j)) as [->|Hne]; (eapply wp_set_union; [by simplify_map_eq|]); by simplify_eq/=.
Qed.
End sound.

(** One step of a proof about the members: a rule of [wp], the objects it
    looks up found in the store. *)
Ltac found := by simplify_map_eq.
Ltac life_step :=
  match goal with
  | |- wp (has_value _) _ _ _ => eapply wp_has_value; [found|]
  | |- wp (nothing _) _ _ _ => apply wp_lret
  | |- wp (val _) _ _ _ => eapply wp_val; [found|]
  | |- wp (error _) _ _ _ => eapply wp_error; [found|]
  | |- wp (object _) _ _ _ => eapply wp_object; [found|]
  | |- wp (set_object _ _) _ _ _ => apply wp_set_object
  | |- wp (from_arg _) _ _ _ => apply wp_from_arg
  | |- wp (copy_value _ _) _ _ _ => eapply wp_copy_value; [found| |]
  | |- wp (copy_error _ _) _ _ _ => eapply wp_copy_error; [found| |]
  | |- wp (move_value _ _) _ _ _ => eapply wp_move_value; [found| |]
  | |- wp (move_error _ _) _ _ _ => eapply wp_move_error; [found| |]
  | |- wp (move_value_tmp _ _) _ _ _ => apply wp_move_value_tmp
  | |- wp (move_error_tmp _ _) _ _ _ => apply wp_move_error_tmp
  | |- wp (assign_val_from _ _ _) _ _ _ => eapply wp_assign_val_from; [found| |]
  | |- wp (assign_err_from _ _ _) _ _ _ => eapply wp_assign_err_from; [found| |]
  | |- wp (move_assign_val _ _ _) _ _ _ => eapply wp_move_assign_val; [found|found| |]
  | |- wp (move_assign_err _ _ _) _ _ _ => eapply wp_move_assign_err; [found|found| |]
  | |- wp (construct_value _ _ _) _ _ _ => apply wp_construct_value
  | |- wp (construct_error _ _ _) _ _ _ => apply wp_construct_error
  | |- wp (void_construct_value _) _ _ _ => eapply wp_set_has_val; [found|]
  | |- wp (destruct_value _ _) _ _ _ => 
      first [apply wp_destruct_void; [done|]|eapply wp_destruct_value; [done|found|intros ? ?]]
  | |- wp (destruct_error _ _) _ _ _ => eapply wp_destruct_error; [found|intros ? ? ?]
  | |- ∃ s, _ !! _ = Some s ∧ _ => eexists; split; [found|]; split; [done|]
  | |- _ = false → _ => intros ?; try congruence
  | |- ∀ _, _ => intros ?
  | _ => wp_step
  end.
Ltac life := repeat (life_step; simpl).

Section operations.
Context {T E X : Type} (c : types T E).
Local Notation W := (gmap nat (storage T E)).
Implicit Types (w : W) (s r : storage T E) (i j : nat).

(** The static_assert of both assignments. *)
Hypothesis Hmove : is_nothrow_move_constructible (of_error c) = true.

(** The object at [i] is sound and holds [x]; the others are as they were. *)
Definition becomes i (x : option T + E) w : unit → W → Prop := λ _ w',
  ∃ s, w' = <[i := s]> w ∧ sound c s ∧ content s = Some x.

Lemma becomes_value i t w : is_void c = false → becomes i (inl (Some t)) w () (<[i := Storage true (UVal t)]> w).
Proof. intros. by eexists. Qed.
Lemma becomes_error i e w : becomes i (inr e) w () (<[i := Storage false (UErr e)]> w).
Proof. by eexists. Qed.
Lemma becomes_void i u w :
  is_void c = true → vacant c u = true → (is_void c = true → ∀ t, u ≠ UVal t) →
  becomes i (inl None) w () (<[i := Storage true u]> w).
Proof. intros Hv Hu Hn. eexists. destruct u; [by destruct (Hn Hv t)| |]; by split_and!. Qed.
Lemma becomes_same i s x w : w !! i = Some s → sound c s → content s = Some x → becomes i x w () w.
Proof. intros Hi Hs Hx. exists s. by rewrite insert_id. Qed.
Lemma restored i s w : w !! i = Some s → <[i := s]> w = w.
Proof. apply insert_id. Qed.

Create HintDb expecteddb.
Hint Resolve becomes_value becomes_error becomes_void becomes_same restored : expecteddb.

Ltac settle := unfold unchanged; rewrite ?insert_insert_eq; try (by eauto with expecteddb).

Lemma sound_cases s :
  is_void c = false → sound c s →
  (∃ t, s = Storage true (UVal t) ∧ content s = Some (inl (Some t))) ∨
  (∃ e, s = Storage false (UErr e) ∧ content s = Some (inr e)).
Proof. intros Hv Hs. destruct s as [[] []]; unfold sound in Hs; simpl in Hs; naive_solver congruence. Qed.

Lemma sound_void_cases s :
  is_void c = true → sound c s →
  (∃ u, s = Storage true u ∧ vacant c u = true ∧ (is_void c = true → ∀ t, u ≠ UVal t) ∧
        content s = Some (inl None)) ∨
  (∃ e, s = Storage false (UErr e) ∧ content s = Some (inr e)).
Proof.
  intros Hv Hs. destruct s as [[] []]; unfold sound in Hs; simpl in Hs; try done.
  - congruence.
  - left. eexists. split_and!; [done|by apply Hs|done|done].
  - left. by eexists.
  - right. by eexists.
Qed.

Lemma assign_value_spec i a w s :
  is_void c = false → w !! i = Some s → sound c s →
  wp (X := X) (assign_value c i a) w (becomes i (inl (Some (a_val a))) w) (unchanged w).
Proof.
  intros Hv Hi Hs. destruct (sound_cases s Hv Hs) as [(t & -> & Ht)|(e & -> & He)]; unfold assign_value; life; settle.
  destruct (a_nothrow_construct a) eqn:Ha; life; settle.
Qed.

Lemma assign_error_spec i a m w s :
  assign_error (X := X) c i a = Some m → w !! i = Some s → sound c s →
  wp m w (becomes i (inr (a_val a)) w) (unchanged w).
Proof.
  unfold assign_error. destruct (a_nothrow_construct a) eqn:Ha, (a_nothrow_assign a) eqn:Hb; intros [= <-] Hi Hs.
  destruct (is_void c) eqn:Hv.
  - destruct (sound_void_cases s Hv Hs) as [(u & -> & Hu & Hn & Hcu)|(e & -> & He)]; life; settle.
  - destruct (sound_cases s Hv Hs) as [(t & -> & Ht)|(e & -> & He)]; life; settle.
Qed.

Lemma op_assign_value_spec i a w s :
  is_void c = false → w !! i = Some s → sound c s →
  wp (X := X) (op_assign_value c i a) w (becomes i (inl (Some (a_val a))) w) (unchanged w).
Proof. intros. apply wp_noexcept. eapply wp_weaken; [by eapply assign_value_spec|done|done]. Qed.

Lemma op_assign_error_spec i a m w s :
  op_assign_error (X := X) c i a = Some m → w !! i = Some s → sound c s →
  wp m w (becomes i (inr (a_val a)) w) (unchanged w).
Proof.
  unfold op_assign_error. case_match; intros [= <-] Hi Hs.
  apply wp_noexcept. eapply wp_weaken; [by eapply assign_error_spec|done|done].
Qed.

Lemma emplace_spec i a m w s :
  is_void c = false → emplace (X := X) c i a = Some m → w !! i = Some s → sound c s →
  wp m w (becomes i (inl (Some (a_val a))) w) (unchanged w).
Proof.
  unfold emplace. intros Hv Hm Hi Hs.
  destruct (a_nothrow_construct a) eqn:Ha, (is_nothrow_move_constructible (of_value c)) eqn:Hb; simplify_eq/=.
  all: destruct (sound_cases s Hv Hs) as [(t & -> & Ht)|(e & -> & He)]; life; settle.
Qed.

(** The list version needs what its test leaves out. *)
Lemma emplace_il_spec i b a m w s :
  is_void c = false → emplace_il (X := X) c i b a = Some m → (b = true → a_nothrow_construct a = true) →
  w !! i = Some s → sound c s → wp m w (becomes i (inl (Some (a_val a))) w) (unchanged w).
Proof.
  unfold emplace_il. intros Hv Hm Hb Hi Hs.
  destruct b, (is_nothrow_move_constructible (of_value c)) eqn:Hn; simplify_eq/=.
  all: destruct (sound_cases s Hv Hs) as [(t & -> & Ht)|(e & -> & He)]; life; settle.
  all: by specialize (Hb eq_refl); congruence.
Qed.

Lemma void_emplace_spec i w s :
  is_void c = true → w !! i = Some s → sound c s →
  wp (X := X) (void_emplace c i) w (becomes i (inl None) w) (unchanged w).
Proof.
  intros Hv Hi Hs. unfold void_emplace.
  destruct (sound_void_cases s Hv Hs) as [(u & -> & Hu & Hn & Hcu)|(e & -> & He)]; life; settle.
Qed.

(** The conditions under which a copy assignment keeps the object whole. *)
Definition copy_assign_safe : bool :=
  is_void c || is_nothrow_copy_constructible (of_error c)
  || (negb (is_nothrow_copy_constructible (of_value c)) && is_nothrow_move_constructible (of_value c)).

Lemma assign_copy_spec i j w s r x :
  copy_assign_safe = true → w !! i = Some s → sound c s → w !! j = Some r → sound c r → content r = Some x →
  wp (X := X) (assign_copy c i j) w (becomes i x w) (unchanged w).
Proof.
  unfold copy_assign_safe, assign_copy, tv, te. intros Hc Hi Hs Hj Hr Hx.
  assert (m_has_val s ≠ m_has_val r → i ≠ j) as Hne by naive_solver congruence.
  destruct (is_void c) eqn:Hv; simpl in Hc.
  - destruct (sound_void_cases s Hv Hs) as [(u & -> & Hu & Hn & Hcu)|(e & -> & He)],
      (sound_void_cases r Hv Hr) as [(u' & -> & Hu' & Hn' & Hcu')|(e' & -> & He')].
    all: try (assert (i ≠ j) by (by apply Hne)); clear Hne; simplify_eq/=; life; settle.
  - destruct (sound_cases s Hv Hs) as [(t & -> & Ht)|(e & -> & He)], (sound_cases r Hv Hr) as [(t' & -> & Ht')|(e' & -> & He')].
    all: try (assert (i ≠ j) by (by apply Hne)); clear Hne; simplify_eq/=; life; settle.
    all: destruct (is_nothrow_copy_constructible (of_value c)) eqn:Hb,
      (is_nothrow_move_constructible (of_value c)) eqn:Hm; simplify_eq/=; life; settle.
    all: destruct (is_nothrow_copy_constructible (of_error c)) eqn:Hb'; simplify_eq/=.
Qed.

(** * Moves *)

Definition moved (x : option T + E) : option T + E :=
  match x with inl v => inl (moved_value c <$> v) | inr e => inr (moved_error c e) end.

(** [i] holds what [j] held, [j] what a move leaves. *)
Definition takes i j (x : option T + E) w : unit → W → Prop := λ _ w',
  ∃ s r, w' = <[i := s]> (<[j := r]> w) ∧ sound c s ∧ sound c r ∧ content s = Some x ∧ content r = Some (moved x).

Lemma takes_value i j t w :
  is_void c = false →
  takes i j (inl (Some t)) w () (<[i := Storage true (UVal t)]> (<[j := Storage true (UVal (moved_value c t))]> w)).
Proof. intros. by eexists _, _. Qed.
Lemma takes_error i j e w :
  takes i j (inr e) w () (<[i := Storage false (UErr e)]> (<[j := Storage false (UErr (moved_error c e))]> w)).
Proof. by eexists _, _. Qed.
Lemma takes_void i j u r w :
  is_void c = true → vacant c u = true → (is_void c = true → ∀ t, u ≠ UVal t) →
  w !! j = Some r → sound c r → content r = Some (inl None) →
  takes i j (inl None) w () (<[i := Storage true u]> w).
Proof.
  intros Hv Hu Hn Hj Hr Hx. destruct (becomes_void i u w Hv Hu Hn) as (s & -> & Hs & Hc).
  exists s, r. by rewrite (insert_id w j).
Qed.
Lemma takes_same i j s r w :
  w !! i = Some s → sound c s → content s = Some (inl None) →
  w !! j = Some r → sound c r → content r = Some (inl None) → takes i j (inl None) w () w.
Proof. intros Hi Hs Hx Hj Hr Hy. exists s, r. by rewrite (insert_id w j), insert_id. Qed.
Hint Resolve takes_value takes_error takes_void takes_same : expecteddb.

Lemma assign_move_spec i j w s r x :
  w !! i = Some s → sound c s → w !! j = Some r → sound c r → content r = Some x →
  wp (X := X) (assign_move c i j) w (takes i j x w) (unchanged w).
Proof.
  unfold assign_move, tv, te. intros Hi Hs Hj Hr Hx.
  assert (m_has_val s ≠ m_has_val r → i ≠ j) as Hne by naive_solver congruence.
  destruct (is_void c) eqn:Hv.
  - destruct (sound_void_cases s Hv Hs) as [(u & -> & Hu & Hn & Hcu)|(e & -> & He)],
      (sound_void_cases r Hv Hr) as [(u' & -> & Hu' & Hn' & Hcu')|(e' & -> & He')].
    all: try (assert (i ≠ j) by (by apply Hne)); clear Hne; simplify_eq/=; life; settle.
  - destruct (sound_cases s Hv Hs) as [(t & -> & Ht)|(e & -> & He)], (sound_cases r Hv Hr) as [(t' & -> & Ht')|(e' & -> & He')].
    all: try (assert (i ≠ j) by (by apply Hne)); clear Hne; simplify_eq/=; life; settle.
    all: destruct (is_nothrow_move_constructible (of_value c)) eqn:Hm; simplify_eq/=; life; settle.
    all: rewrite (insert_insert_ne _ j i) by done; settle.
Qed.

(** * Constructors and destructor *)

(** A constructor's body may throw only where the destructor of the base
    looks at nothing. *)
Lemma wp_constructing nothrow i (body : life X W unit) w (Q : unit → W → Prop) (QX : X → W → Prop) :
  w !! i = None →
  wp body (<[i := Storage false UNoInit]> w) Q
    (λ x w', nothrow = false →
       is_trivially_destructible (of_error c) = true ∧ w' = <[i := Storage false UNoInit]> w ∧ QX x w) →
  wp (constructing c nothrow i body) w Q QX.
Proof.
  intros Hi Hb. unfold constructing. apply wp_bind.
  assert (ctor_no_init (base (X := X) c) i = new_no_init false i) as ->.
  { unfold base. clear. by destruct (is_void c), (is_trivially_destructible (of_value c)),
      (is_trivially_destructible (of_error c)). }
  apply wp_set_object, wp_try, wp_noexcept. eapply wp_weaken; [exact Hb|done|].
  intros x w' Hx ->. destruct (Hx eq_refl) as (Ht & -> & HQ). clear Hx. apply wp_bind.
  assert (∀ R, R () (<[i := Storage false UNoInit]> w) →
    wp (X := X) (dtor (base c) i) (<[i := Storage false UNoInit]> w) R QX) as Hd.
  { intros R HR. unfold base. rewrite Ht.
    destruct (is_void c), (is_trivially_destructible (of_value c)); simpl; life; done. }
  apply Hd. life. by rewrite delete_insert_id.
Qed.

Definition copy_ctor_safe : bool :=
  is_trivially_destructible (of_error c) || is_nothrow_copy_constructible (of_value c)
  || (is_void c && is_nothrow_copy_constructible (of_error c)).
Definition move_ctor_safe : bool :=
  is_trivially_destructible (of_error c) || is_nothrow_move_constructible (of_value c) || is_void c.

Ltac harmless Hc :=
  split_and!; [|done|done];
  repeat match goal with H : ?b = false |- _ => rewrite H in Hc end;
  by destruct (is_trivially_destructible (of_error c)).

Lemma copy_ctor_spec i j w r x :
  copy_ctor_safe = true → w !! i = None → w !! j = Some r → sound c r → content r = Some x →
  wp (X := X) (copy_ctor c i j) w (becomes i x w) (unchanged w).
Proof.
  unfold copy_ctor_safe, copy_ctor, tv, te. intros Hc Hi Hj Hr Hx. case_match; [life; by eexists|].
  assert (i ≠ j) by congruence. apply wp_constructing; [done|].
  destruct (is_void c) eqn:Hv; simpl in Hc.
  - destruct (sound_void_cases r Hv Hr) as [(u & -> & Hu & Hn & Hcu)|(e & -> & He)]; simplify_eq/=; life; settle.
    harmless Hc.
  - destruct (sound_cases r Hv Hr) as [(t & -> & Ht)|(e & -> & He)]; simplify_eq/=; life; settle.
    all: harmless Hc.
Qed.

(** What a trivial move leaves is what was there. *)
Definition trivial_moves : Prop :=
  (is_trivially_move_constructible (of_value c) = true → ∀ t, moved_value c t = t) ∧
  (is_trivially_move_constructible (of_error c) = true → ∀ e, moved_error c e = e).

Lemma trivially_moved r x :
  trivial_moves → sound c r → content r = Some x →
  is_void c || is_trivially_move_constructible (of_value c) = true →
  is_trivially_move_constructible (of_error c) = true → moved x = x.
Proof.
  intros [Hv He] Hr Hx Ht Ht'. destruct (is_void c) eqn:Hvoid; simpl in Ht.
  - destruct (sound_void_cases r Hvoid Hr) as [(u & -> & ? & ? & ?)|(e & -> & ?)]; simplify_eq/=; [done|].
    by rewrite He.
  - destruct (sound_cases r Hvoid Hr) as [(t & -> & ?)|(e & -> & ?)]; simplify_eq/=; [by rewrite Hv|by rewrite He].
Qed.

Lemma takes_copy i j r x w :
  w !! j = Some r → sound c r → content r = Some x → moved x = x → takes i j x w () (<[i := r]> w).
Proof. intros Hj Hr Hx Hm. exists r, r. rewrite Hm. by rewrite (insert_id w j). Qed.

Lemma move_ctor_spec i j w r x :
  move_ctor_safe = true → trivial_moves → w !! i = None → w !! j = Some r → sound c r → content r = Some x →
  wp (X := X) (move_ctor c i j) w (takes i j x w) (unchanged w).
Proof.
  unfold move_ctor_safe, move_ctor, tv, te. intros Hc Ht Hi Hj Hr Hx. assert (i ≠ j) by congruence. case_match eqn:Htm.
  { apply andb_true_iff in Htm as [? ?]. life. apply takes_copy; [done..|]. by apply (trivially_moved r). }
  apply wp_constructing; [done|].
  destruct (is_void c) eqn:Hv; simpl in Hc.
  - destruct (sound_void_cases r Hv Hr) as [(u & -> & Hu & Hn & Hcu)|(e & -> & He)]; simplify_eq/=; life; settle.
    all: try (rewrite (insert_insert_ne _ j i) by done); settle.
  - destruct (sound_cases r Hv Hr) as [(t & -> & Ht')|(e & -> & He)]; simplify_eq/=; life; settle.
    all: try (rewrite (insert_insert_ne _ j i) by done); settle.
    harmless Hc.
Qed.

Lemma copy_assign_spec i j w s r x :
  copy_assign_safe = true → w !! i = Some s → sound c s → w !! j = Some r → sound c r → content r = Some x →
  wp (X := X) (copy_assign c i j) w (becomes i x w) (unchanged w).
Proof.
  unfold copy_assign. intros. case_match.
  - life. by eexists.
  - apply wp_noexcept. eapply wp_weaken; [by eapply assign_copy_spec|done|done].
Qed.

Lemma move_assign_spec i j w s r x :
  trivial_moves → w !! i = Some s → sound c s → w !! j = Some r → sound c r → content r = Some x →
  wp (X := X) (move_assign c i j) w (takes i j x w) (unchanged w).
Proof.
  unfold move_assign. intros Ht Hi Hs Hj Hr Hx. case_match eqn:Htm.
  - life. apply takes_copy; [done..|]. apply (trivially_moved r); [done..| |].
    all: unfold tv, te in Htm; repeat (apply andb_true_iff in Htm as [Htm ?]); try done.
    destruct (is_void c); [done|]. simpl in *. by repeat (apply andb_true_iff in Htm as [Htm ?]).
  - apply wp_noexcept. eapply wp_weaken; [by eapply assign_move_spec|done|done].
Qed.

(** The constructors from a value and from an error: a void one has no value
    to construct. *)
Definition value_content (a : arg T) : option T + E := inl (if is_void c then None else Some (a_val a)).

Lemma value_ctor_spec i a w : wp (X := X) (value_ctor c i a) w (becomes i (value_content a) w) (unchanged w).
Proof.
  unfold value_ctor, in_place_ctor, value_content, base. destruct (is_void c) eqn:Hv; case_match; simpl.
  all: try case_match; simpl; unfold new_value, new_no_init; life; settle.
  all: by eexists; split_and!; [done|..].
Qed.

Lemma default_ctor_spec i a w : wp (X := X) (default_ctor c i a) w (becomes i (value_content a) w) (unchanged w).
Proof.
  unfold default_ctor. pose proof (value_ctor_spec i a w) as H. unfold value_ctor, in_place_ctor, base in *.
  by destruct (is_void c), (is_trivially_destructible (of_value c)), (is_trivially_destructible (of_error c)).
Qed.

Lemma unexpected_ctor_spec i a w : wp (X := X) (unexpected_ctor c i a) w (becomes i (inr (a_val a)) w) (unchanged w).
Proof.
  assert (ctor_unexpect (base (X := X) c) a i = new_error a i) as Hn.
  { unfold base. clear. by destruct (is_void c), (is_trivially_destructible (of_value c)),
      (is_trivially_destructible (of_error c)). }
  unfold unexpected_ctor, unexpect_ctor. rewrite Hn. unfold new_error. life; settle.
Qed.

(** The destructor finds the member the flag names. *)
Lemma destroy_spec i w s :
  w !! i = Some s → sound c s → wp (X := X) (destroy c i) w (λ _ w', w' = delete i w) (unchanged w).
Proof.
  intros Hi Hs. unfold destroy. apply wp_bind.
  assert (wp (X := X) (dtor (base c) i) w (λ _ w', delete i w' = delete i w) (unchanged w)) as Hd.
  { unfold base. destruct (is_void c) eqn:Hv.
    - destruct (sound_void_cases s Hv Hs) as [(u & -> & Hu & Hn & Hcu)|(e & -> & He)];
        destruct (is_trivially_destructible (of_error c)); simpl; life; try done.
      eapply wp_bind, wp_object; [found|]. simpl. eapply wp_set_union; [found|]. by rewrite delete_insert_eq.
    - destruct (sound_cases s Hv Hs) as [(t & -> & Ht)|(e & -> & He)];
        destruct (is_trivially_destructible (of_value c)), (is_trivially_destructible (of_error c));
        simpl; life; try done.
      all: eapply wp_bind, wp_object; [found|]; simpl; (eapply wp_set_union; [found|]); by rewrite delete_insert_eq. }
  eapply wp_weaken; [exact Hd| |done]. intros [] w' Hw. by life.
Qed.
End operations.
