(* ===== verification/ExpectedRuns.v ===== *)
(** Expected: programs on objects of one expected<T, E>.  Any sequence of
    constructions, assignments, emplaces and destructions, with exceptions
    thrown and caught anywhere in it, refines the same sequence on plain
    values and errors; then the operations that break the objects, the
    observers, the extensions and the comparisons. *)
From S2P Require Import Prelude Lifetimes Expected ExpectedTheorems.

Inductive op (T E : Type) : Type :=
| NewDefault (i : nat) (a : arg T)
| NewValue (i : nat) (a : arg T)
| NewError (i : nat) (a : arg E)
| NewCopy (i j : nat)
| NewMove (i j : nat)
| Assign (i j : nat)
| MoveAssign (i j : nat)
| AssignValue (i : nat) (a : arg T)
| AssignError (i : nat) (a : arg E)
| Emplace (i : nat) (a : arg T)
| EmplaceIl (i : nat) (nothrow_args : bool) (a : arg T)
| EmplaceVoid (i : nat)
| Destroy (i : nat).
Arguments NewDefault {T E}. Arguments NewValue {T E}. Arguments NewError {T E}. Arguments NewCopy {T E}.
Arguments NewMove {T E}. Arguments Assign {T E}. Arguments MoveAssign {T E}. Arguments AssignValue {T E}.
Arguments AssignError {T E}. Arguments Emplace {T E}. Arguments EmplaceIl {T E}. Arguments EmplaceVoid {T E}.
Arguments Destroy {T E}.

Section runs.
Context {T E X : Type} (c : types T E).
Local Notation W := (gmap nat (storage T E)).
Local Notation A := (gmap nat (option T + E)).
Implicit Types (w : W) (a : A) (o : op T E) (i j : nat).

(** What the compiler accepts: [None] is an instance it refuses. *)
Definition op_exec o : option (life X W unit) :=
  match o with
  | NewDefault i v => Some (default_ctor c i v)
  | NewValue i v => Some (value_ctor c i v)
  | NewError i e => Some (unexpected_ctor c i e)
  | NewCopy i j => Some (copy_ctor c i j)
  | NewMove i j => Some (move_ctor c i j)
  | Assign i j => Some (copy_assign c i j)
  | MoveAssign i j => Some (move_assign c i j)
  | AssignValue i v => if is_void c then None else Some (op_assign_value c i v)
  | AssignError i e => op_assign_error c i e
  | Emplace i v => if is_void c then None else emplace c i v
  | EmplaceIl i b v => if is_void c then None else emplace_il c i b v
  | EmplaceVoid i => if is_void c then Some (void_emplace c i) else None
  | Destroy i => Some (destroy c i)
  end.

(** The names an operation uses are in scope, the name it declares is new. *)
Definition in_scope o w : bool :=
  match o with
  | NewDefault i _ | NewValue i _ | NewError i _ => bool_decide (w !! i = None)
  | NewCopy i j | NewMove i j => bool_decide (w !! i = None) && bool_decide (is_Some (w !! j))
  | Assign i j | MoveAssign i j => bool_decide (is_Some (w !! i)) && bool_decide (is_Some (w !! j))
  | AssignValue i _ | AssignError i _ | Emplace i _ | EmplaceIl i _ _ | EmplaceVoid i | Destroy i =>
      bool_decide (is_Some (w !! i))
  end.

(** What the element types must promise for the operation. *)
Definition op_safe o : bool :=
  match o with
  | NewCopy _ _ => copy_ctor_safe c
  | NewMove _ _ => move_ctor_safe c
  | Assign _ _ => copy_assign_safe c
  | EmplaceIl _ b v => implb b (a_nothrow_construct v)
  | _ => true
  end.

(** The operation on plain contents. *)
Definition op_effect o a : A :=
  match o with
  | NewDefault i v | NewValue i v => <[i := value_content c v]> a
  | NewError i e | AssignError i e => <[i := inr (a_val e)]> a
  | NewCopy i j | Assign i j => match a !! j with Some x => <[i := x]> a | None => a end
  | NewMove i j | MoveAssign i j =>
      match a !! j with Some x => <[i := x]> (<[j := moved c x]> a) | None => a end
  | AssignValue i v | Emplace i v | EmplaceIl i _ v => <[i := inl (Some (a_val v))]> a
  | EmplaceVoid i => <[i := inl None]> a
  | Destroy i => delete i a
  end.

(** A program: each operation returns or throws, and the next one follows. *)
Fixpoint run (os : list (op T E)) : life X W (list bool) :=
  match os with
  | [] => lret []
  | o :: os =>
      lbind lget (λ w,
      match op_exec o with
      | Some m =>
          if in_scope o w then lbind (attempt m) (λ b, lbind (run os) (λ bs, lret (b :: bs)))
          else lret []
      | None => lret []
      end)
  end.

(** The same on contents: an operation that threw has no effect. *)
Fixpoint run_contents (os : list (op T E)) (bs : list bool) a : A :=
  match os, bs with
  | o :: os, b :: bs => run_contents os bs (if b then op_effect o a else a)
  | _, _ => a
  end.

Definition sound_objects w : Prop := map_Forall (λ _, sound c) w.
Definition contents w : A := omap content w.

Hypothesis Hmove : is_nothrow_move_constructible (of_error c) = true.
Hypothesis Htrivial : trivial_moves c.

Lemma sound_content s : sound c s → is_Some (content s).
Proof. destruct s as [[] []]; unfold sound; simpl; naive_solver. Qed.

Lemma contents_insert i s x w : content s = Some x → contents (<[i := s]> w) = <[i := x]> (contents w).
Proof. intros. by apply omap_insert_Some. Qed.

Lemma objects_lookup w i : sound_objects w → is_Some (w !! i) →
  ∃ s x, w !! i = Some s ∧ sound c s ∧ content s = Some x ∧ contents w !! i = Some x.
Proof.
  intros Hw [s Hi]. pose proof (Hw i s Hi) as Hs. destruct (sound_content s Hs) as [x Hx].
  exists s, x. split_and!; [done..|]. unfold contents. by rewrite lookup_omap, Hi.
Qed.

(** A step's postcondition, from those of the operations. *)
Definition refines o w : unit → W → Prop := λ _ w', sound_objects w' ∧ contents w' = op_effect o (contents w).

Lemma becomes_refines o i x w u w' :
  sound_objects w → op_effect o (contents w) = <[i := x]> (contents w) → becomes c i x w u w' → refines o w u w'.
Proof.
  intros Hw Ho (s & -> & Hs & Hx). split; [by apply map_Forall_insert_2|]. by rewrite Ho, contents_insert with (x := x).
Qed.

Lemma takes_refines o i j x w u w' :
  sound_objects w → op_effect o (contents w) = <[i := x]> (<[j := moved c x]> (contents w)) →
  takes c i j x w u w' → refines o w u w'.
Proof.
  intros Hw Ho (s & r & -> & Hs & Hr & Hx & Hy). split; [by repeat apply map_Forall_insert_2|].
  rewrite Ho. by erewrite !contents_insert.
Qed.

Ltac by_spec lem :=
  eapply wp_weaken;
  [by eapply lem
  |intros ? ?; first [apply becomes_refines|apply takes_refines]; [done|]; simpl;
   repeat match goal with H : contents _ !! _ = Some _ |- _ => rewrite H end; done
  |done].

Ltac scope_facts :=
  repeat match goal with
  | H : _ && _ = true |- _ => apply andb_true_iff in H as [? ?]
  | H : bool_decide _ = true |- _ => apply bool_decide_eq_true in H
  | Hw : sound_objects ?w, H : is_Some (?w !! _) |- _ =>
      apply (objects_lookup w _ Hw) in H as (? & ? & ? & ? & ? & ?)
  end.

Lemma op_refines o m w :
  sound_objects w → op_exec o = Some m → in_scope o w = true → op_safe o = true →
  wp m w (refines o w) (unchanged w).
Proof.
  intros Hw Hm Hi Ho. destruct o; simpl in *; simplify_eq/=.
  all: scope_facts.
  - by_spec @default_ctor_spec.
  - by_spec @value_ctor_spec.
  - by_spec @unexpected_ctor_spec.
  - by_spec @copy_ctor_spec.
  - by_spec @move_ctor_spec.
  - by_spec @copy_assign_spec.
  - by_spec @move_assign_spec.
  - case_match; simplify_eq. by_spec @op_assign_value_spec.
  - by_spec @op_assign_error_spec.
  - case_match; simplify_eq. by_spec @emplace_spec.
  - case_match; simplify_eq. eapply wp_weaken; [eapply emplace_il_spec; try done| |done].
    + by intros ->.
    + intros ? ?. by apply becomes_refines.
  - case_match; simplify_eq. by_spec @void_emplace_spec.
  - eapply wp_weaken; [by eapply destroy_spec| |done]. intros ? w' ->. split.
    + by apply map_Forall_delete.
    + apply omap_delete.
Qed.

Lemma program_refines os w :
  Forall (λ o, op_safe o = true) os → sound_objects w →
  wp (run os) w (λ bs w', sound_objects w' ∧ contents w' = run_contents os bs (contents w)) (λ _ _, False).
Proof.
  intros Hos. revert w. induction Hos as [|o os Ho Hos IH]; intros w Hw; simpl; [by apply wp_lret|].
  apply wp_bind, wp_get. destruct (op_exec o) as [m|] eqn:Hm; [|by apply wp_lret].
  destruct (in_scope o w) eqn:Hi; [|by apply wp_lret].
  apply wp_bind, wp_attempt. eapply wp_weaken; [by apply op_refines| |].
  - intros [] w' [Hw' Hc]. apply wp_bind. eapply wp_weaken; [by apply IH| |done].
    intros bs w'' [Hw'' Hc']. apply wp_lret. split; [done|]. simpl. by rewrite Hc', Hc.
  - intros x w' ->. apply wp_bind. eapply wp_weaken; [by apply IH| |done].
    intros bs w'' [Hw'' Hc']. by apply wp_lret.
Qed.

(** When nothing throws every operation of the program returns. *)
Lemma run_calm os w sc :
  Forall (λ o, op_safe o = true) os → sound_objects w → calm sc →
  ∃ bs w' sc', run os w sc = (Done bs, (w', sc')) ∧ Forall (λ b, b = true) bs ∧ calm sc'.
Proof.
  intros Hos. revert w sc. induction Hos as [|o os Ho Hos IH]; intros w sc Hw Hs; simpl; [by eexists _, _, _|].
  unfold lbind at 1, lget. destruct (op_exec o) as [m|] eqn:Hm; [|by eexists _, _, _].
  destruct (in_scope o w) eqn:Hi; [|by eexists _, _, _].
  destruct (wp_calm _ _ _ _ _ (op_refines o m w Hw Hm Hi Ho) Hs) as ([] & w' & sc' & Hr & [Hw' _] & Hs').
  unfold lbind at 1, attempt. rewrite Hr.
  destruct (IH w' sc' Hw' Hs') as (bs & w'' & sc'' & Hr' & Hbs & Hs'').
  exists (true :: bs), w'', sc''. unfold lbind. rewrite Hr'. split_and!; [done| |done]. by constructor.
Qed.
End runs.

(** C23: expected.hpp: a program of constructions, assignments, emplaces and
    destructions on objects of an expected<T, E> whose error type moves
    without throwing (the static_assert of assign) and whose element types
    make each operation safe: whatever throws, and wherever, no member is
    used or destroyed when it is not alive and none is overwritten before it
    is destroyed; the flag of every object tells which member it has; the
    contents are those of the same program on plain values and errors, where
    an operation that threw has had no effect; and if no constructor or
    assignment of an element throws, every operation returns. *)
Theorem expected_refines_contents {T E X : Type} (c : types T E) (os : list (op T E)) (sc : list (option X)) :
  is_nothrow_move_constructible (of_error c) = true → trivial_moves c →
  Forall (λ o, op_safe c o = true) os →
  match run c os ∅ sc with
  | (Done bs, (w, _)) =>
      sound_objects c w ∧ contents w = run_contents c os bs ∅ ∧ (calm sc → Forall (λ b, b = true) bs)
  | (Thrown _, _) => False
  | (Terminated, _) => ¬ calm sc
  | (Undefined, _) => False
  end.
Proof.
  intros Hm Ht Hos.
  pose proof (program_refines c Hm Ht os ∅ Hos (map_Forall_empty _) sc) as Hr.
  pose proof (λ Hc, run_calm c Hm Ht os ∅ sc Hos (map_Forall_empty _) Hc) as Hc.
  destruct (run c os ∅ sc) as [[] [w sc']]; try tauto.
  destruct Hr as [[Hw Hcon] _]. split_and!; [done|done|].
  intros Hs. destruct (Hc Hs) as (bs & ? & ? & ? & ? & ?). by simplify_eq.
Qed.

(** thespian's types: error is cbor::buffer, whose copies allocate, and
    result is expected<void, error>; a handle is copied without throwing. *)
Definition no_traits : traits :=
  Traits false false false false false false false false false false.
Definition buffer_traits : traits :=
  Traits false true false true true false false false false false.
Definition handle_traits : traits :=
  Traits true true true true true false false false false false.
Definition result_types : types unit (list Z) := Types true no_traits buffer_traits id (λ _, []).
Definition handle_types : types nat (list Z) := Types false handle_traits buffer_traits (λ _, 0%nat) (λ _, []).

Lemma expected_refines_contents_witness :
  let ops := [NewValue 0 (Arg () true true); NewError 1 (Arg [1; 2] false false); NewError 1 (Arg [1; 2] false false);
              NewMove 2 1; Assign 0 2; MoveAssign 2 0; EmplaceVoid 2; Destroy 0; Destroy 1; Destroy 2] in
  let sc := [Some (); None; Some ()] in
  (run result_types ops ∅ sc).1 = Done [true; false; true; true; false; true; true; true; true; true] ∧
  match run result_types ops ∅ sc with
  | (Done bs, (w, _)) =>
      sound_objects result_types w ∧ contents w = run_contents result_types ops bs ∅ ∧
      (calm sc → Forall (λ b, b = true) bs)
  | (Thrown _, _) => False
  | (Terminated, _) => ¬ calm sc
  | (Undefined, _) => False
  end.
Proof.
  split; [by vm_compute|]. apply (expected_refines_contents result_types); try done; repeat constructor; done.
Defined.

(** to_result keeps the error and forgets the value; if copying the error
    throws there is no result. *)
Lemma to_result_spec {U E X} (c : types unit E) (cu : types U E) i (ret : storage U E) w :
  is_void c = true → sound cu ret →
  wp (X := X) (to_result c i ret) w
    (becomes c i (match content ret with Some (inr e) => inr e | _ => inl None end) w) (unchanged w).
Proof.
  intros Hv Hr. unfold to_result, ok. destruct ret as [[] u]; simpl.
  - destruct u; simpl.
    all: eapply wp_weaken; [apply default_ctor_spec| |done]; unfold value_content; by rewrite Hv.
  - destruct u as [|e|]; try done. apply wp_bind, wp_may_throw; [|done]. apply unexpected_ctor_spec.
Qed.

(** * Where the element types promise less *)

Section unsafe.
Context {T E X : Type} (c : types T E).
Local Notation W := (gmap nat (storage T E)).
Implicit Types (w : W) (i j : nat).

(** A union member that was never constructed, or has been destroyed, is
    destroyed again. *)
Lemma kill_error_dead i w s sc :
  w !! i = Some s → (∀ e, m_union s ≠ UErr e) → (kill_error (X := X) i w sc).1 = Undefined.
Proof.
  intros Hi Hu. unfold kill_error, object, lbind, lget. simpl. rewrite Hi. simpl.
  destruct (m_union s); naive_solver.
Qed.

Lemma kill_value_dead i w s sc :
  w !! i = Some s → (∀ t, m_union s ≠ UVal t) → (kill_value (X := X) i w sc).1 = Undefined.
Proof.
  intros Hi Hu. unfold kill_value, object, lbind, lget. simpl. rewrite Hi. simpl.
  destruct (m_union s); naive_solver.
Qed.

Lemma object_run i w s sc : w !! i = Some s → object (X := X) i w sc = (Done s, (w, sc)).
Proof. intros Hi. unfold object, lbind, lget. by rewrite Hi. Qed.

(** Runs a computation step by step on the objects it finds. *)
Ltac run_step :=
  match goal with
  | |- context [object ?i ?w ?sc] => rewrite (object_run i w _ sc) by (by simplify_map_eq)
  | H : ?b = _ |- context [if ?b then _ else _] => rewrite H
  | H : ?b = _ |- context [may_throw ?b] => rewrite H
  end.
Ltac run_all := repeat (unfold lbind, lget, lput, lret, lthrow, set_object; simpl; try run_step).

(** The copy of the error throws in the body of the constructor. *)
Lemma copy_ctor_throws i j w e (x : X) sc :
  w !! i = None → w !! j = Some (Storage false (UErr e)) →
  is_nothrow_copy_constructible (of_error c) = false →
  is_trivially_copy_constructible (of_error c) = false → is_trivially_destructible (of_error c) = false →
  (copy_ctor c i j w (Some x :: sc)).1 =
    if is_nothrow_copy_constructible (of_value c) then Terminated else Undefined.
Proof.
  intros Hi Hj Hc Ht Hd. assert (i ≠ j) by congruence.
  unfold copy_ctor, tv, te. rewrite Ht. simpl.
  unfold constructing, construct_error, copy_error, has_value, error.
  assert (ctor_no_init (base (X := X) c) i = new_no_init false i) as ->.
  { unfold base. clear. by destruct (is_void c), (is_trivially_destructible (of_value c)),
      (is_trivially_destructible (of_error c)). }
  unfold new_no_init, try_rethrow, noexcept. run_all.
  destruct (is_nothrow_copy_constructible (of_value c)); [done|]. unfold base. rewrite Hd.
  destruct (is_void c), (is_trivially_destructible (of_value c)); simpl; unfold kill_error; run_all; done.
Qed.

(** The copy of the error throws after the value has been destroyed. *)
Lemma copy_assign_throws i j w t e (x : X) sc :
  w !! i = Some (Storage true (UVal t)) → w !! j = Some (Storage false (UErr e)) →
  is_void c = false → is_nothrow_copy_constructible (of_value c) = true →
  is_nothrow_copy_constructible (of_error c) = false → is_nothrow_copy_assignable (of_error c) = false →
  is_trivially_copy_constructible (of_error c) = false → is_trivially_destructible (of_value c) = false →
  copy_assign c i j w (Some x :: sc) = (Thrown x, (<[i := Storage true UNoInit]> w, sc)).
Proof.
  intros Hi Hj Hv Hn Hc Ha Ht Hd. assert (i ≠ j) by congruence.
  unfold copy_assign, tv, te. rewrite Ht, Ha, !andb_false_r. simpl.
  unfold assign_copy, tv, te. rewrite Ha, Hv, Hn, !andb_false_r. simpl.
  unfold has_value, noexcept, construct_error, copy_error, error. run_all.
  assert (destruct_value (base (X := X) c) i = kill_value i) as ->.
  { unfold base. rewrite Hv, Hd. by destruct (is_trivially_destructible (of_error c)). }
  unfold kill_value, set_union. run_all. done.
Qed.

(** The flag says that there is a value, and there is none. *)
Lemma destroy_broken i w sc :
  is_void c = false → is_trivially_destructible (of_value c) = false →
  w !! i = Some (Storage true UNoInit) → (destroy (X := X) c i w sc).1 = Undefined.
Proof.
  intros Hv Hd Hi. unfold destroy, base. rewrite Hv, Hd.
  destruct (is_trivially_destructible (of_error c)); simpl; unfold kill_value; run_all; done.
Qed.

(** * swap *)

Definition exchanged i j w w' : Prop :=
  contents w' = match contents w !! i, contents w !! j with
                | Some x, Some y => <[i := y]> (<[j := x]> (contents w))
                | _, _ => contents w
                end.

Lemma exchanged_objects i j w s r s' r' x y w' :
  i ≠ j → w !! i = Some s → w !! j = Some r → content s = Some x → content r = Some y →
  (∀ k, k ≠ i → k ≠ j → w' !! k = w !! k) →
  w' !! i = Some s' → w' !! j = Some r' → content s' = Some y → content r' = Some x → exchanged i j w w'.
Proof.
  intros Hne Hi Hj Hs Hr Hk Hi' Hj' Hs' Hr'. unfold exchanged, contents. rewrite !lookup_omap, Hi, Hj. simpl.
  rewrite Hs, Hr. apply map_eq. intros k. rewrite lookup_omap.
  destruct (decide (k = i)) as [->|]; [rewrite Hi', lookup_insert_eq; done|].
  rewrite lookup_insert_ne by done.
  destruct (decide (k = j)) as [->|]; [rewrite Hj', lookup_insert_eq; done|].
  by rewrite lookup_insert_ne, lookup_omap, Hk by done.
Qed.

Lemma swap_same_kind i j w s r sc b :
  i ≠ j → w !! i = Some s → w !! j = Some r → sound c s → sound c r → m_has_val s = m_has_val r → calm sc →
  ∃ w' sc', swap (X := X) c i j b w sc = (Done (), (w', sc')) ∧ exchanged i j w w'.
Proof.
  intros Hne Hi Hj Hs Hr Hb Hsc.
  assert (wp (X := X) (swap c i j b) w (λ _, exchanged i j w) (λ _ _, True)) as Hw.
  { unfold swap, swap_vals, swap_from_error, swap_errs. destruct (is_void c) eqn:Hv.
    - destruct (sound_void_cases c s Hv Hs) as [(u & -> & Hu & Hn & Hcu)|(e & -> & He)],
        (sound_void_cases c r Hv Hr) as [(u' & -> & Hu' & Hn' & Hcu')|(e' & -> & He')]; simplify_eq/=; life; try done.
      all: eapply (exchanged_objects i j); try done; intros; by simplify_map_eq.
    - destruct (sound_cases c s Hv Hs) as [(t & -> & Ht)|(e & -> & He)],
        (sound_cases c r Hv Hr) as [(t' & -> & Ht')|(e' & -> & He')]; simplify_eq/=; life; try done.
      all: eapply (exchanged_objects i j); try done; intros; by simplify_map_eq. }
  destruct (wp_calm _ _ _ _ _ Hw Hsc) as ([] & w' & sc' & ? & ? & ?). by exists w', sc'.
Qed.

(** The branch for an error and a value takes each for the other. *)
Lemma swap_from_error_undefined i j w e u sc :
  w !! i = Some (Storage false (UErr e)) → w !! j = Some (Storage true u) → sound c (Storage true u) →
  is_void c = false ∨ is_trivially_destructible (of_error c) = false →
  (swap_from_error (X := X) c i j w sc).1 = Undefined.
Proof.
  intros Hi Hj Hs Hc. assert (i ≠ j) by congruence.
  unfold swap_from_error, has_value, construct_error, move_error, move_value, error, val. run_all.
  destruct (is_void c) eqn:Hv.
  - destruct u; simpl in Hs; run_all; unfold sound in Hs; simpl in Hs; naive_solver congruence.
  - destruct u; simpl in Hs; unfold sound in Hs; simpl in Hs; try naive_solver congruence.
    case_match; by run_all.
Qed.

Lemma swap_mixed_undefined i j w s r sc b :
  w !! i = Some s → w !! j = Some r → sound c s → sound c r → m_has_val s ≠ m_has_val r →
  is_void c = false ∨ is_trivially_destructible (of_error c) = false →
  (swap (X := X) c i j b w sc).1 = Undefined.
Proof.
  intros Hi Hj Hs Hr Hb Hc. unfold swap, noexcept, has_value. run_all.
  destruct s as [[] u], r as [[] u']; simpl in *; try done.
  - destruct u' as [| e' |]; try done. run_all.
    pose proof (swap_from_error_undefined j i w e' u sc Hj Hi Hs Hc) as Hu.
    destruct (swap_from_error c j i w sc) as [[] [? ?]]; simpl in *; by simplify_eq.
  - destruct u as [| e |]; try done.
    pose proof (swap_from_error_undefined i j w e u' sc Hi Hj Hr Hc) as Hu.
    destruct (swap_from_error c i j w sc) as [[] [? ?]]; simpl in *; by simplify_eq.
Qed.
End unsafe.

(** C33: expected.hpp: copying is not safe when the copy of the error may throw,
    as that of a cbor::buffer may.  A copy constructor in which it throws
    runs the destructor of its base on an error that was never constructed,
    unless T's copy cannot throw, when the constructor is declared noexcept
    and the program is terminated.  In that case (an expected<handle, error>)
    the assignment of an error to an object with a value destroys the value
    before it copies the error, so when the copy throws the object still says
    that it has a value, and destroying it is undefined. *)
Theorem expected_copy_unsafe {T E X : Type} (c : types T E) (i j k : nat) (w : gmap nat (storage T E)) t e (x : X) sc :
  w !! i = Some (Storage true (UVal t)) → w !! j = Some (Storage false (UErr e)) → w !! k = None →
  is_nothrow_copy_constructible (of_error c) = false → is_nothrow_copy_assignable (of_error c) = false →
  is_trivially_copy_constructible (of_error c) = false → is_trivially_destructible (of_error c) = false →
  is_trivially_destructible (of_value c) = false →
  ((copy_ctor c k j w (Some x :: sc)).1 =
     if is_nothrow_copy_constructible (of_value c) then Terminated else Undefined) ∧
  (is_void c = false → is_nothrow_copy_constructible (of_value c) = true →
   ∃ w', copy_assign c i j w (Some x :: sc) = (Thrown x, (w', sc)) ∧
         m_has_val <$> w' !! i = Some true ∧ ∀ sc', (destroy (X := X) c i w' sc').1 = Undefined).
Proof.
  intros Hi Hj Hk Hc Ha Ht Hd Hd'. split; [by eapply copy_ctor_throws|]. intros Hv Hn.
  eexists. split; [by eapply copy_assign_throws|]. rewrite lookup_insert_eq. split; [done|].
  intros sc'. apply destroy_broken; [done|done|]. by rewrite lookup_insert_eq.
Qed.

Lemma expected_copy_unsafe_witness :
  let w := {[0%nat := Storage true (UVal 7%nat); 1%nat := Storage false (UErr [1; 2])]} in
  ((copy_ctor handle_types 2 1 w [Some ()]).1 = Terminated) ∧
  (∃ w', copy_assign handle_types 0 1 w [Some ()] = (Thrown (), (w', [])) ∧
         m_has_val <$> w' !! 0%nat = Some true ∧ ∀ sc', (destroy (X := unit) handle_types 0 w' sc').1 = Undefined).
Proof.
  destruct (expected_copy_unsafe handle_types 0 1 2
    {[0%nat := Storage true (UVal 7%nat); 1%nat := Storage false (UErr [1; 2])]} 7%nat [1; 2] () [])
    as [H1 H2]; try done. split; [exact H1|]. by apply H2.
Defined.

(** A result that is copied while memory runs out: undefined. *)
Example result_copy_undefined :
  (copy_ctor result_types 2 1 {[1%nat := Storage false (UErr [1; 2])]} [Some ()]).1 = Undefined.
Proof. by vm_compute. Qed.

(** C34: expected.hpp: swap exchanges the contents of two objects that both have a
    value or both an error (here when nothing throws); with a value on one
    side and an error on the other its branch reads the error of the object
    that has a value, or the value of the one that has an error: undefined,
    for every T but a void one whose stale error is trivial. *)
Theorem expected_swap {T E X : Type} (c : types T E) (i j : nat) (w : gmap nat (storage T E)) s r sc b :
  i ≠ j → w !! i = Some s → w !! j = Some r → sound c s → sound c r →
  (m_has_val s = m_has_val r → calm sc →
   ∃ w' sc', swap (X := X) c i j b w sc = (Done (), (w', sc')) ∧ exchanged i j w w') ∧
  (m_has_val s ≠ m_has_val r → is_void c = false ∨ is_trivially_destructible (of_error c) = false →
   (swap (X := X) c i j b w sc).1 = Undefined).
Proof.
  intros. split; intros; [by eapply swap_same_kind|by eapply swap_mixed_undefined].
Qed.

Lemma expected_swap_witness :
  let w := {[0%nat := Storage true (UVal 7%nat); 1%nat := Storage false (UErr [1; 2]); 2%nat := Storage true (UVal 8%nat)]} in
  (∃ w' sc', swap (X := unit) handle_types 0 2 true w [] = (Done (), (w', sc')) ∧ exchanged 0 2 w w') ∧
  (swap (X := unit) handle_types 0 1 true w []).1 = Undefined.
Proof.
  set (w := {[0%nat := Storage true (UVal 7%nat); 1%nat := Storage false (UErr [1; 2]); 2%nat := Storage true (UVal 8%nat)]}
         : gmap nat (storage nat (list Z))). split.
  - refine (proj1 (expected_swap (X := unit) handle_types 0 2 w (Storage true (UVal 7%nat))
      (Storage true (UVal 8%nat)) [] true _ _ _ _ _) _ _); try done. constructor.
  - refine (proj2 (expected_swap (X := unit) handle_types 0 1 w (Storage true (UVal 7%nat))
      (Storage false (UErr [1; 2])) [] true _ _ _ _ _) _ _); try done. by left.
Defined.

(** emplace(il, args...) of a T that is nothrow constructible without the list
    and not with it (a vector): the error is gone when the constructor
    throws, and the object still says that it has one. *)
Example emplace_il_unsafe :
  let c := Types false (Traits false true false true true false false false false false) buffer_traits id id in
  let w := {[0%nat := Storage false (UErr [1])]} in
  ∃ m w', emplace_il (X := unit) (T := list Z) c 0 true (Arg [1; 2; 3] false false) = Some m ∧
    m w [Some ()] = (Thrown (), (w', [])) ∧ (destroy (X := unit) c 0 w' []).1 = Undefined.
Proof. by eexists _, _. Qed.

(** * Observers, extensions and comparisons *)

Section values.
Context {T E X : Type} (c : types T E).
Local Notation W := (gmap nat (storage T E)).
Implicit Types (w : W) (i j : nat).

(** Reading the error for a result: the error as it was, and with an rvalue
    what a move leaves. *)
Lemma forward_error_spec k i w e (QX : X → W → Prop) :
  w !! i = Some (Storage false (UErr e)) → (∀ x, QX x w) →
  wp (X := X) (forward_error c k i) w
    (λ e' w', e' = e ∧ w' = match k with LValue => w | RValue => <[i := Storage false (UErr (moved_error c e))]> w end) QX.
Proof. intros Hi Hx. destruct k; simpl; life; by try apply Hx. Qed.

(** A step f after a result: with a value it is f of the value, and an error
    goes through, f is not called. *)
Lemma and_then_value {U} k i (f : T → life X W (storage U E)) w t sc :
  w !! i = Some (Storage true (UVal t)) → expected_and_then c k i f w sc = f t w sc.
Proof. intros Hi. unfold expected_and_then, has_value, val, object, lbind, lget, lret. by rewrite Hi; simpl; rewrite Hi. Qed.

Lemma and_then_error {U} k i (f : T → life X W (storage U E)) w e :
  w !! i = Some (Storage false (UErr e)) →
  wp (expected_and_then c k i f) w (λ s _, content s = Some (inr e)) (λ _ w', w' = w).
Proof.
  intros Hi. unfold expected_and_then, unexpect_of. life.
  eapply wp_weaken; [by apply (forward_error_spec k i w e (λ _ w', w' = w))| |done]. intros e' w' [-> _]. by life.
Qed.

(** map is and_then of the constructor from a value. *)
Lemma map_is_and_then {U} k i (f : T → life X W U) b w sc :
  expected_map c b k i f w sc = expected_and_then c k i (λ t, value_of (materialize b (f t))) w sc.
Proof. done. Qed.

(** map_error leaves a value alone and has f of an error. *)
Lemma map_error_value {G} b k i (f : E → life X W G) w t :
  is_void c = false → w !! i = Some (Storage true (UVal t)) →
  wp (expected_map_error c b k i f) w (λ s _, content s = Some (inl (Some t))) (λ _ w', w' = w).
Proof. intros Hv Hi. unfold expected_map_error, value_of. destruct k; life; try done. Qed.
End values.

(** * Comparisons *)

Section comparisons.
Context {T1 E1 T2 E2 : Type} (eqT neT : T1 → T2 → bool) (eqE neE : E1 → E2 → bool).
Hypothesis HneT : ∀ t u, neT t u = negb (eqT t u).
Hypothesis HneE : ∀ e f, neE e f = negb (eqE e f).

(** [!=] of two objects is the negation of [==], but for two void objects
    that both have a value, which are equal and different. *)
Lemma expected_ne_eq voids (x : storage T1 E1) (y : storage T2 E2) :
  expected_ne voids neE neT x y =
    if voids && m_has_val x && m_has_val y then Some true else negb <$> expected_eq voids eqE eqT x y.
Proof.
  destruct x as [[] [t|e|]], y as [[] [t'|e'|]], voids; unfold expected_ne, expected_eq; simpl;
    by rewrite ?HneT, ?HneE.
Qed.

(** With a value on the right: [!=] of an object that has an error is false,
    as [==] is. *)
Lemma expected_ne_value_eq (x : storage T1 E1) (v : T2) :
  expected_ne_value neT x v = if m_has_val x then negb <$> expected_eq_value eqT x v else Some false.
Proof. destruct x as [[] [t|e|]]; unfold expected_ne_value, expected_eq_value; simpl; by rewrite ?HneT. Qed.

Lemma expected_ne_unexpected_eq (x : storage T1 E1) (e : E2) :
  expected_ne_unexpected neE x e = negb <$> expected_eq_unexpected eqE x e.
Proof. destruct x as [[] [t|e'|]]; unfold expected_ne_unexpected, expected_eq_unexpected; simpl; by rewrite ?HneE. Qed.
End comparisons.

(** Two results that are both ok compare equal and not equal; an error
    compares neither equal to a value nor different from it. *)
Example comparisons_disagree :
  let ok := Storage (T := unit) (E := list Z) true UNoInit in
  let err := Storage (T := Z) (E := list Z) false (UErr [1]) in
  (expected_eq true (λ _ _, true) (λ _ _, true) ok ok, expected_ne true (λ _ _, false) (λ _ _, false) ok ok) =
    (Some true, Some true) ∧
  (expected_eq_value Z.eqb err 5, expected_ne_value (λ a b, negb (Z.eqb a b)) err 5) = (Some false, Some false).
Proof. done. Qed.
