(* ===== verification/CApi.v ===== *)
(** * The C API ([src/src/c])

    Functions with C linkage around the C++ API, which the Zig bindings call.  A
    function is a computation [cm] over the memory of the calling thread and the
    handles and environments that C code owns; it returns, lets an exception of
    C++ escape, fails an [assert], or has undefined behaviour (it follows a null
    or a dangling pointer).

    Calls of the runtime are those of [Instance.exec], by the current instance
    [cur] of the thread.  The functions of sockets, timers and the like pass a
    call on and catch what it throws: the functions they call are the fields of
    [cpp_api], which [Socket], [Ports] and [Timers] model over states of their own. *)
From S2P Require Import Prelude CborEncode Ieee CborDecode CborMatch CppText CborJson Env Instance Actors.

(** ** Memory *)

(** A [const char *]: a literal or memory of the client, [what()] of an exception
    object, or [last_error_msg] of [src/src/c/debug.cpp]. *)
Inductive text_ptr : Type :=
| PStatic (s : bytes)
| PWhat (e : nat)
| PErrorMsg.

(** A [thespian_result] that is not null: the address of [error_buffer] of
    [handle.cpp] or of [exit_error_buf] of [instance.cpp], whose [base] and [len]
    are those of the buffer beside it, or an error of the client's own. *)
Inductive result_ptr : Type :=
| PErrorBuffer
| PExitErrorBuf
| PClientError (m : bytes).

(** A [thespian_env]: null, memory from [new], or the environment of an instance. *)
Inductive eptr : Type :=
| ENull
| ENew (n : nat)
| EInstance (i : Z).

(** A [thespian_handle]: null, memory from [new], the handle of an instance to
    itself, a parameter of a C++ function, or a value of an environment. *)
Inductive hptr : Type :=
| HNull
| HNew (n : nat)
| HSelf (i : Z)
| HLocal (n : nat)
| HEnv (e : eptr) (key : bytes).

(** The thread-local variables, and the exception objects that exist. *)
Record tls : Type := Tls {
  last_error : option text_ptr;
  last_error_msg : bytes;
  message_buffer : bytes;
  exit_msg_buf : bytes;
  exceptions : gmap nat bytes;
  next_exception : nat
}.

Definition set_last (p : option text_ptr) (t : tls) : tls :=
  Tls p (last_error_msg t) (message_buffer t) (exit_msg_buf t) (exceptions t) (next_exception t).
Definition set_msg (m : bytes) (t : tls) : tls :=
  Tls (last_error t) m (message_buffer t) (exit_msg_buf t) (exceptions t) (next_exception t).
Definition set_message_buffer (m : bytes) (t : tls) : tls :=
  Tls (last_error t) (last_error_msg t) m (exit_msg_buf t) (exceptions t) (next_exception t).
Definition set_exit_msg_buf (m : bytes) (t : tls) : tls :=
  Tls (last_error t) (last_error_msg t) (message_buffer t) m (exceptions t) (next_exception t).
Definition set_exceptions (es : gmap nat bytes) (n : nat) (t : tls) : tls :=
  Tls (last_error t) (last_error_msg t) (message_buffer t) (exit_msg_buf t) es n.

Definition tls_init : tls := Tls None [] [] [] ∅ 0.

(** What a [const char *] points to, if anything. *)
Definition read_text (t : tls) (p : text_ptr) : option bytes :=
  match p with
  | PStatic s => Some s
  | PWhat e => exceptions t !! e
  | PErrorMsg => Some (last_error_msg t)
  end.

(** What a [thespian_result] points to. *)
Definition read_result (t : tls) (p : result_ptr) : bytes :=
  match p with
  | PErrorBuffer => message_buffer t
  | PExitErrorBuf => exit_msg_buf t
  | PClientError m => m
  end.

Section capi.
Context {U C : Type}.

(** The runtime, what C code owns, and the memory of the thread. *)
Record cstate : Type := CState {
  cw : world U C;
  c_handles : gmap nat handle;
  c_envs : gmap nat env_t;
  c_next : nat;
  c_tls : tls
}.

Definition set_cw w s := CState w (c_handles s) (c_envs s) (c_next s) (c_tls s).
Definition set_handles v s := CState (cw s) v (c_envs s) (c_next s) (c_tls s).
Definition set_envs v s := CState (cw s) (c_handles s) v (c_next s) (c_tls s).
Definition set_next v s := CState (cw s) (c_handles s) (c_envs s) v (c_tls s).
Definition set_tls f s := CState (cw s) (c_handles s) (c_envs s) (c_next s) (f (c_tls s)).

Inductive cout (A : Type) : Type :=
| CRet (a : A)
| CThrow (t : thrown)
| CAbort
| CUndefined.
Arguments CRet {A} a. Arguments CThrow {A} t. Arguments CAbort {A}. Arguments CUndefined {A}.

Definition cm (A : Type) : Type := cstate → cstate * cout A.

Definition cret {A} (a : A) : cm A := λ s, (s, CRet a).
Definition cbind {A B} (m : cm A) (k : A → cm B) : cm B := λ s,
  match m s with
  | (s, CRet a) => k a s
  | (s, CThrow t) => (s, CThrow t)
  | (s, CAbort) => (s, CAbort)
  | (s, CUndefined) => (s, CUndefined)
  end.
Definition cget {A} (f : cstate → A) : cm A := λ s, (s, CRet (f s)).
Definition cput (f : cstate → cstate) : cm unit := λ s, (f s, CRet ()).
Definition cundefined {A} : cm A := λ s, (s, CUndefined).
Definition cthrow {A} (t : thrown) : cm A := λ s, (s, CThrow t).

(** The value of a pointer, which has to point to something. *)
Definition must {A} (o : option A) : cm A := match o with Some a => cret a | None => cundefined end.
End capi.

Arguments cstate : clear implicits. Arguments cm : clear implicits.
Arguments CRet {A} a. Arguments CThrow {A} t. Arguments CAbort {A}. Arguments CUndefined {A}.

Declare Scope cm_scope.
Delimit Scope cm_scope with cm.
Notation "'dolet' x := m 'in' k" := (cbind m (λ x, k))
  (at level 10, x name, m at level 100, k at level 200) : cm_scope.
Notation "m ';;!' k" := (cbind m (λ _, k)) (at level 199, right associativity) : cm_scope.
#[local] Open Scope cm_scope.

(** ** Errors ([context.cpp]) *)

Section errors.
Context {U C : Type}.
Abbreviation cm := (cm U C).

Definition thespian_get_last_error : cm (option text_ptr) := cget (λ s, last_error (c_tls s)).
Definition thespian_set_last_error (p : option text_ptr) : cm unit := cput (set_tls (set_last p)).

(** The exception object exists while its handler runs. *)
Definition enter_catch (what : bytes) : cm nat := λ s,
  let n := next_exception (c_tls s) in
  (set_tls (λ t, set_exceptions (<[n := what]> (exceptions t)) (S n) t) s, CRet n).
Definition leave_catch (e : nat) : cm unit :=
  cput (set_tls (λ t, set_exceptions (delete e (exceptions t)) (next_exception t) t)).

(** [try { body } catch (const std::exception &e) { on_std(e); } catch (...) { on_other(); }] *)
Definition try_catch {A} (body : cm A) (on_std : nat → cm A) (on_other : cm A) : cm A := λ s,
  match body s with
  | (s, CThrow (ThrowStd what)) =>
      (dolet e := enter_catch what in dolet a := on_std e in leave_catch e ;;! cret a) s
  | (s, CThrow ThrowOther) => on_other s
  | r => r
  end.

(** The handlers of most functions: [thespian_set_last_error(e.what())] or the
    text of the function, and its error value. *)
Definition guarded {A} (unknown : bytes) (failed : A) (body : cm A) : cm A :=
  try_catch body
    (λ e, thespian_set_last_error (Some (PWhat e)) ;;! cret failed)
    (thespian_set_last_error (Some (PStatic unknown)) ;;! cret failed).

(** [ASSERT_HANDLE] *)
Definition ASSERT_HANDLE {A} (p : option nat) (k : nat → cm A) : cm A :=
  match p with Some n => k n | None => λ s, (s, CAbort) end.

(** ** Objects

    A function that creates an object returns its address, or null. *)

Definition creates (unknown : bytes) (create : cm nat) : cm (option nat) :=
  guarded unknown None (dolet n := create in cret (Some n)).
Definition does (unknown : bytes) (call : cm unit) : cm Z :=
  guarded unknown (-1) (call ;;! cret 0).
Definition frees (unknown : bytes) (call : cm unit) : cm unit := guarded unknown () call.

End errors.

(** [milliseconds(ms)] of a [uint64_t], converted to [microseconds]; a product that
    does not fit is undefined. *)
Definition duration_ms (ms : Z) : option Z :=
  let us := s64 ms * 1000 in if decide (is_s64 us) then Some us else None.
Definition duration_us (us : Z) : option Z := Some (s64 us).

(** The functions of the C++ API behind the objects, by the address of the object.
    Durations are in microseconds, addresses of IPv6 16 octets. *)
Record cpp_api (U C : Type) : Type := CppApi {
  file_descriptor_create : bytes → Z → cm U C nat;
  file_descriptor_wait_write : nat → cm U C unit;
  file_descriptor_wait_read : nat → cm U C unit;
  file_descriptor_cancel : nat → cm U C unit;
  file_descriptor_destroy : nat → cm U C unit;
  file_stream_create : bytes → Z → cm U C nat;
  file_stream_start_read : nat → cm U C unit;
  file_stream_start_write : nat → bytes → cm U C unit;
  file_stream_cancel : nat → cm U C unit;
  file_stream_destroy : nat → cm U C unit;
  create_metronome : Z → cm U C nat;
  start_metronome : nat → cm U C unit;
  stop_metronome : nat → cm U C unit;
  destroy_metronome : nat → cm U C unit;
  create_signal : Z → bytes → cm U C nat;
  cancel_signal : nat → cm U C unit;
  destroy_signal : nat → cm U C unit;
  create_timeout : Z → bytes → cm U C nat;
  cancel_timeout : nat → cm U C unit;
  destroy_timeout : nat → cm U C unit;
  socket_create : bytes → Z → cm U C nat;
  socket_write : nat → bytes → cm U C unit;
  socket_write_binary : nat → bytes → cm U C unit;
  socket_read : nat → cm U C unit;
  socket_close : nat → cm U C unit;
  destroy_socket : nat → cm U C unit;
  tcp_acceptor_create : bytes → cm U C nat;
  tcp_acceptor_listen : nat → bytes → Z → cm U C Z;
  tcp_acceptor_close : nat → cm U C unit;
  tcp_destroy_acceptor : nat → cm U C unit;
  tcp_connector_create : bytes → cm U C nat;
  tcp_connector_connect : nat → bytes → Z → cm U C unit;
  tcp_connector_cancel : nat → cm U C unit;
  tcp_destroy_connector : nat → cm U C unit;
  unx_acceptor_create : bytes → cm U C nat;
  unx_acceptor_listen : nat → bytes → mode → cm U C unit;
  unx_acceptor_close : nat → cm U C unit;
  unx_destroy_acceptor : nat → cm U C unit;
  unx_connector_create : bytes → cm U C nat;
  unx_connector_connect : nat → bytes → mode → cm U C unit;
  unx_connector_cancel : nat → cm U C unit;
  unx_destroy_connector : nat → cm U C unit
}.

Arguments file_descriptor_create {U C}. Arguments file_descriptor_wait_write {U C}. Arguments file_descriptor_wait_read {U C}.
Arguments file_descriptor_cancel {U C}. Arguments file_descriptor_destroy {U C}. Arguments create_metronome {U C}.
Arguments start_metronome {U C}. Arguments stop_metronome {U C}. Arguments destroy_metronome {U C}.
Arguments create_signal {U C}. Arguments cancel_signal {U C}. Arguments destroy_signal {U C}.
Arguments create_timeout {U C}. Arguments cancel_timeout {U C}. Arguments destroy_timeout {U C}.
Arguments socket_create {U C}. Arguments socket_write {U C}. Arguments socket_write_binary {U C}.
Arguments socket_read {U C}. Arguments socket_close {U C}. Arguments destroy_socket {U C}.
Arguments tcp_acceptor_create {U C}. Arguments tcp_acceptor_listen {U C}. Arguments tcp_acceptor_close {U C}.
Arguments tcp_destroy_acceptor {U C}. Arguments tcp_connector_create {U C}. Arguments tcp_connector_connect {U C}.
Arguments tcp_connector_cancel {U C}. Arguments tcp_destroy_connector {U C}. Arguments unx_acceptor_create {U C}.
Arguments unx_acceptor_listen {U C}. Arguments unx_acceptor_close {U C}. Arguments unx_destroy_acceptor {U C}.
Arguments unx_connector_create {U C}. Arguments unx_connector_connect {U C}. Arguments unx_connector_cancel {U C}.
Arguments unx_destroy_connector {U C}.
Arguments file_stream_create {U C}. Arguments file_stream_start_read {U C}. Arguments file_stream_start_write {U C}.
Arguments file_stream_cancel {U C}. Arguments file_stream_destroy {U C}.

Section objects.
Context {U C : Type} (api : cpp_api U C).

(** *** [file_descriptor.cpp] *)

Definition thespian_file_descriptor_create (tag : bytes) (fd : Z) :=
  creates (str "unknown thespian_file_descriptor_create error") (file_descriptor_create api tag fd).
Definition thespian_file_descriptor_wait_write p :=
  does (str "unknown thespian_file_descriptor_wait_write error") (file_descriptor_wait_write api p).
Definition thespian_file_descriptor_wait_read p :=
  does (str "unknown thespian_file_descriptor_wait_read error") (file_descriptor_wait_read api p).
Definition thespian_file_descriptor_cancel p :=
  does (str "unknown thespian_file_descriptor_wait_read error") (file_descriptor_cancel api p).
Definition thespian_file_descriptor_destroy p :=
  frees (str "unknown thespian_file_descriptor_destroy error") (file_descriptor_destroy api p).

(** *** [file_stream.cpp]; the handle of Windows is a number *)

Definition thespian_file_stream_create (tag : bytes) (h : Z) :=
  creates (str "unknown thespian_file_stream_create error") (file_stream_create api tag h).
Definition thespian_file_stream_start_read p :=
  does (str "unknown thespian_file_stream_start_read error") (file_stream_start_read api p).
Definition thespian_file_stream_start_write p (data : bytes) :=
  does (str "unknown thespian_file_stream_start_write error") (file_stream_start_write api p data).
Definition thespian_file_stream_cancel p :=
  does (str "unknown thespian_file_stream_start_read error") (file_stream_cancel api p).
Definition thespian_file_stream_destroy p :=
  frees (str "unknown thespian_file_stream_destroy error") (file_stream_destroy api p).

(** *** [metronome.cpp] *)

Definition thespian_metronome_create_ms (ms : Z) :=
  creates (str "unknown thespian_metronome_create_ms error")
    (dolet us := must (duration_ms ms) in create_metronome api us).
Definition thespian_metronome_create_us (us : Z) :=
  creates (str "unknown thespian_metronome_create_us error")
    (dolet us := must (duration_us us) in create_metronome api us).
Definition thespian_metronome_start p :=
  does (str "unknown thespian_metronome_start error") (start_metronome api p).
Definition thespian_metronome_stop p :=
  does (str "unknown thespian_metronome_stop error") (stop_metronome api p).
Definition thespian_metronome_destroy p :=
  frees (str "unknown thespian_metronome_destroy error") (destroy_metronome api p).

(** *** [signal.cpp], [timeout.cpp]; the message is copied *)

Definition thespian_signal_create (signum : Z) (m : bytes) :=
  creates (str "unknown thespian_signal_create error") (create_signal api signum m).
Definition thespian_signal_cancel p :=
  does (str "unknown thespian_signal_start error") (cancel_signal api p).
Definition thespian_signal_destroy p :=
  frees (str "unknown thespian_signal_destroy error") (destroy_signal api p).

Definition thespian_timeout_create_ms (ms : Z) (m : bytes) :=
  creates (str "unknown thespian_timeout_create_ms error")
    (dolet us := must (duration_ms ms) in create_timeout api us m).
Definition thespian_timeout_create_us (us : Z) (m : bytes) :=
  creates (str "unknown thespian_timeout_create_us error")
    (dolet us := must (duration_us us) in create_timeout api us m).
Definition thespian_timeout_cancel p :=
  does (str "unknown thespian_timeout_start error") (cancel_timeout api p).
Definition thespian_timeout_destroy p :=
  frees (str "unknown thespian_timeout_destroy error") (destroy_timeout api p).

(** *** [socket.cpp] *)

Definition thespian_socket_create (tag : bytes) (fd : Z) :=
  creates (str "unknown thespian_socket_create error") (socket_create api tag fd).
Definition thespian_socket_write p (data : bytes) :=
  ASSERT_HANDLE p (λ p, does (str "unknown thespian_socket_write error") (socket_write api p data)).
Definition thespian_socket_write_binary p (data : bytes) :=
  ASSERT_HANDLE p (λ p, does (str "unknown thespian_socket_write_binary error") (socket_write_binary api p data)).
Definition thespian_socket_read p :=
  ASSERT_HANDLE p (λ p, does (str "unknown thespian_socket_read error") (socket_read api p)).
Definition thespian_socket_close p :=
  ASSERT_HANDLE p (λ p, does (str "unknown thespian_socket_close error") (socket_close api p)).
Definition thespian_socket_destroy p :=
  ASSERT_HANDLE p (λ p, frees (str "unknown thespian_socket_destroy error") (destroy_socket api p)).

(** *** [tcp.cpp]; [listen] returns the port, and 0 if it throws *)

Definition thespian_tcp_acceptor_create (tag : bytes) :=
  creates (str "unknown thespian_tcp_acceptor_create error") (tcp_acceptor_create api tag).
Definition thespian_tcp_acceptor_listen p (ip : bytes) (port : Z) :=
  ASSERT_HANDLE p (λ p,
    guarded (str "unknown thespian_tcp_acceptor_listen error") 0
      (dolet port := tcp_acceptor_listen api p ip port in cret (u16 port))).
Definition thespian_tcp_acceptor_close p :=
  ASSERT_HANDLE p (λ p, does (str "unknown thespian_tcp_acceptor_close error") (tcp_acceptor_close api p)).
Definition thespian_tcp_acceptor_destroy p :=
  ASSERT_HANDLE p (λ p, frees (str "unknown thespian_tcp_acceptor_destroy error") (tcp_destroy_acceptor api p)).
Definition thespian_tcp_connector_create (tag : bytes) :=
  creates (str "unknown thespian_tcp_connector_create error") (tcp_connector_create api tag).
Definition thespian_tcp_connector_connect p (ip : bytes) (port : Z) :=
  ASSERT_HANDLE p (λ p, does (str "unknown thespian_tcp_connector_connect error") (tcp_connector_connect api p ip port)).
Definition thespian_tcp_connector_cancel p :=
  ASSERT_HANDLE p (λ p, does (str "unknown thespian_tcp_connector_cancel error") (tcp_connector_cancel api p)).
Definition thespian_tcp_connector_destroy p :=
  ASSERT_HANDLE p (λ p, frees (str "unknown thespian_tcp_connector_destroy error") (tcp_destroy_connector api p)).

(** *** [unx.cpp] *)

Definition to_cpp_mode (abstract : bool) : mode := if abstract then mode_abstract else mode_file.
Definition thespian_unx_acceptor_create (tag : bytes) :=
  creates (str "unknown thespian_unx_acceptor_create error") (unx_acceptor_create api tag).
Definition thespian_unx_acceptor_listen p (path : bytes) (abstract : bool) :=
  ASSERT_HANDLE p (λ p,
    does (str "unknown thespian_unx_acceptor_listen error") (unx_acceptor_listen api p path (to_cpp_mode abstract))).
Definition thespian_unx_acceptor_close p :=
  ASSERT_HANDLE p (λ p, does (str "unknown thespian_unx_acceptor_close error") (unx_acceptor_close api p)).
Definition thespian_unx_acceptor_destroy p :=
  ASSERT_HANDLE p (λ p, frees (str "unknown thespian_unx_acceptor_destroy error") (unx_destroy_acceptor api p)).
Definition thespian_unx_connector_create (tag : bytes) :=
  creates (str "unknown thespian_unx_connector_create error") (unx_connector_create api tag).
Definition thespian_unx_connector_connect p (path : bytes) (abstract : bool) :=
  ASSERT_HANDLE p (λ p,
    does (str "unknown thespian_unx_connector_connect error") (unx_connector_connect api p path (to_cpp_mode abstract))).
Definition thespian_unx_connector_cancel p :=
  ASSERT_HANDLE p (λ p, does (str "unknown thespian_unx_connector_cancel error") (unx_connector_cancel api p)).
Definition thespian_unx_connector_destroy p :=
  ASSERT_HANDLE p (λ p, frees (str "unknown thespian_unx_connector_destroy error") (unx_destroy_connector api p)).
End objects.

(** ** The runtime *)

Section runtime.
Context {U C : Type} (cur : option Z).
Abbreviation cm := (cm U C).

(** A call of the C++ API. *)
Definition call (o : op U C) : cm (ans U) := λ s,
  match exec (cw s) cur o with
  | (w, Ok a) => (set_cw w s, CRet a)
  | (w, Throw e) => (set_cw w s, CThrow (ThrowStd (what e)))
  end.

(** Functions that give back one kind of answer. *)
Definition call_bool (o : op U C) : cm bool :=
  dolet a := call o in match a with AnsBool b => cret b | _ => cundefined end.
Definition call_result (o : op U C) : cm result :=
  dolet a := call o in match a with AnsResult r => cret r | _ => cundefined end.
Definition call_handle (o : op U C) : cm handle :=
  dolet a := call o in match a with AnsHandle h => cret h | _ => cundefined end.
Definition call_spawn (o : op U C) : cm (handle + bytes) :=
  dolet a := call o in match a with AnsSpawn r => cret r | _ => cundefined end.

(** *** Environments ([env.cpp]) *)

Definition get_env (s : cstate U C) (p : eptr) : option env_t :=
  match p with
  | ENull => None
  | ENew n => c_envs s !! n
  | EInstance i => i_env <$> insts (cw s) !! i
  end.

Definition put_env (p : eptr) (e : env_t) (s : cstate U C) : cstate U C :=
  match p with
  | ENull => s
  | ENew n => set_envs (<[n := e]> (c_envs s)) s
  | EInstance i => set_cw (upd (cw s) i (λ x, set_env x e)) s
  end.

(** [to_env(e)] and a call on it. *)
Definition to_env {A} (p : eptr) (f : env_t → A * env_t) : cm A := λ s,
  match p, get_env s p with
  | ENull, _ => (s, CAbort)
  | _, None => (s, CUndefined)
  | _, Some e => let '(a, e) := f e in (put_env p e s, CRet a)
  end.

Definition thespian_env_enable_all_channels p := to_env p (λ e, ((), enable_all_channels e)).
Definition thespian_env_disable_all_channels p := to_env p (λ e, ((), disable_all_channels e)).
Definition thespian_env_enable p (c : channel) := to_env p (λ e, ((), enable e c)).
Definition thespian_env_disable p (c : channel) := to_env p (λ e, ((), disable e c)).
Definition thespian_env_enabled p (c : channel) := to_env p (λ e, (enabled e c, e)).
Definition thespian_env_on_trace p (h : Z) := to_env p (λ e, ((), (on_trace e (Some h)).2)).
(** The call of the handler, if there is one. *)
Definition thespian_env_trace p (m : bytes) : cm (option (Z * bytes)) :=
  to_env p (λ e, ((λ h, (h, m)) <$> trace_handler e, e)).
Definition thespian_env_is p (key : bytes) := to_env p (λ e, env_is e key).
Definition thespian_env_set p (key : bytes) (v : bool) := to_env p (λ e, ((), set_env_is e key v)).
Definition thespian_env_num p (key : bytes) := to_env p (λ e, env_num e key).
Definition thespian_env_num_set p (key : bytes) (v : Z) := to_env p (λ e, ((), set_env_num e key v)).
Definition thespian_env_str p (key : bytes) := to_env p (λ e, env_str e key).
Definition thespian_env_str_set p (key v : bytes) := to_env p (λ e, ((), set_env_str e key v)).

(** The address of a value of the map. *)
Definition thespian_env_proc p (key : bytes) : cm hptr :=
  dolet _h := to_env p (λ e, env_proc e key) in cret (HEnv p key).

Definition new_env (e : env_t) : cm eptr := λ s,
  (set_next (S (c_next s)) (set_envs (<[c_next s := e]> (c_envs s)) s), CRet (ENew (c_next s))).

Definition thespian_env_clone p : cm eptr :=
  dolet e := to_env p (λ e, (e, e)) in new_env e.
Definition thespian_env_destroy (p : eptr) : cm unit := λ s,
  match p with
  | ENull => (s, CRet ())
  | ENew n =>
      match c_envs s !! n with
      | Some _ => (set_envs (delete n (c_envs s)) s, CRet ())
      | None => (s, CUndefined)
      end
  | EInstance _ => (s, CUndefined)
  end.
Definition thespian_env_get : cm eptr :=
  dolet _e := call (OEnv (λ e, e)) in
  match cur with Some i => cret (EInstance i) | None => cundefined end.
Definition thespian_env_new : cm eptr := new_env env_empty.

(** *** Handles ([handle.cpp]) *)

Definition get_handle (s : cstate U C) (p : hptr) : option handle :=
  match p with
  | HNull => None
  | HNew n | HLocal n => c_handles s !! n
  | HSelf i => match insts (cw s) !! i with Some _ => Some (self_handle i) | None => None end
  | HEnv e key => match get_env s e with Some e => env_h e !! key | None => None end
  end.

(** [*h_] *)
Definition deref (p : hptr) : cm handle := λ s,
  match get_handle s p with Some h => (s, CRet h) | None => (s, CUndefined) end.

(** [new thespian::handle{h}] *)
Definition new_handle (h : handle) : cm hptr := λ s,
  (set_next (S (c_next s)) (set_handles (<[c_next s := h]> (c_handles s)) s), CRet (HNew (c_next s))).

Definition to_thespian_result (r : result) : cm (option result_ptr) :=
  match r with
  | None => cret None
  | Some e => cput (set_tls (set_message_buffer e)) ;;! cret (Some PErrorBuffer)
  end.

Definition thespian_env_proc_set p (key : bytes) (value : hptr) : cm unit :=
  dolet h := deref value in to_env p (λ e, ((), set_env_proc e key h)).

Definition thespian_handle_clone (p : hptr) : cm hptr :=
  match p with HNull => cret HNull | _ => dolet h := deref p in new_handle h end.
Definition thespian_handle_destroy (p : hptr) : cm unit := λ s,
  match p with
  | HNull => (s, CRet ())
  | HNew n =>
      match c_handles s !! n with
      | Some _ => (set_handles (delete n (c_handles s)) s, CRet ())
      | None => (s, CUndefined)
      end
  | _ => (s, CUndefined)
  end.
Definition thespian_handle_send_raw (p : hptr) (m : bytes) : cm (option result_ptr) :=
  dolet h := deref p in dolet r := call_result (OSend h m) in to_thespian_result r.
Definition thespian_handle_send_exit (p : hptr) (err : bytes) : cm (option result_ptr) :=
  dolet h := deref p in
  dolet r := call_result (OSend h (cbor_array [AString (str "exit"); AString err])) in to_thespian_result r.
Definition thespian_handle_is_expired (p : hptr) : cm bool :=
  dolet h := deref p in call_bool (OExpired h).
Definition thespian_handle_id (p : hptr) : cm Z :=
  match p with HNull => cret 0 | _ => dolet h := deref p in cret (h_id h) end.
Definition thespian_handle_from_id (id : Z) : cm hptr :=
  dolet h := call_handle (OInstanceById id) in
  dolet e := call_bool (OExpired h) in
  if e then cret HNull else new_handle h.

(** *** Instances ([instance.cpp]) *)

Definition thespian_get_trap : cm bool := call_bool OTrap.
Definition thespian_set_trap (on : bool) : cm bool := call_bool (OSetTrap on).
Definition thespian_get_observe_links : cm bool := call_bool OObserveLinks.
Definition thespian_set_observe_links (on : bool) : cm bool := call_bool (OSetObserveLinks on).

Definition exit_result (r : result) : cm (option result_ptr) :=
  match r with
  | None => cret None
  | Some e => cput (set_tls (set_exit_msg_buf e)) ;;! cret (Some PExitErrorBuf)
  end.
Definition thespian_exit (status : bytes) : cm (option result_ptr) := exit_result (exit_ (Some (status, []))).
Definition thespian_unexpected (m : bytes) : cm (option result_ptr) :=
  match unexpected m with
  | Ok r => exit_result r
  | Throw e => cthrow (ThrowStd (what e))
  end.

Definition thespian_link (p : hptr) : cm unit :=
  dolet h := deref p in dolet _a := call (OLink h) in cret ().
Definition thespian_self : cm hptr :=
  dolet _h := call OSelfRef in match cur with Some i => cret (HSelf i) | None => cundefined end.

(** [wrapper] is the closure with the receiver; it runs as [run_receiver]. *)
Definition thespian_receive (wrapper : C) : cm unit :=
  dolet _a := call (OReceive (Some wrapper)) in cret ().

(** An error of C code, copied. *)
Definition from_c_result (ret : option result_ptr) : cm result := λ s,
  (s, CRet (match ret with Some p => Some (read_result (c_tls s) p) | None => None end)).

(** The body of the closure: [from] is a parameter and gone when it returns. *)
Definition run_receiver (r : hptr → bytes → cm (option result_ptr)) (from : handle) (msg : bytes) : cm result :=
  λ s,
  let n := c_next s in
  (dolet ret := r (HLocal n) msg in
   dolet res := from_c_result ret in
   cput (λ s, set_handles (delete n (c_handles s)) s) ;;! cret res)
    (set_next (S n) (set_handles (<[n := from]> (c_handles s)) s)).

(** The body of a behaviour. *)
Definition run_behaviour (b : cm (option result_ptr)) : cm result :=
  dolet ret := b in from_c_result ret.

(** The handle of a new instance, or -1. *)
Definition spawned (r : handle + bytes) : cm (Z * option hptr) :=
  match r with
  | inl h => dolet p := new_handle h in cret (0, Some p)
  | inr _ => cret (-1, None)
  end.

(** [env ? *env : empty_env_] *)
Definition env_or_empty (p : eptr) : cm env_t := λ s,
  match p with
  | ENull => (s, CRet env_empty)
  | _ => match get_env s p with Some e => (s, CRet e) | None => (s, CUndefined) end
  end.

Definition thespian_spawn_link (b : C) (name : bytes) (p : eptr) : cm (Z * option hptr) :=
  dolet e := env_or_empty p in
  dolet r := call_spawn (OSpawnLink b name (Some e)) in spawned r.
Definition thespian_spawn (b : C) (name : bytes) (p : eptr) : cm (Z * option hptr) :=
  dolet e := env_or_empty p in
  dolet r := call_spawn (OSpawn b name (Some e)) in spawned r.

(** *** Contexts ([context.cpp]) *)

(** An environment that was moved from: its maps and its handler are empty. *)
Definition moved_env (e : env_t) : env_t := Env ∅ ∅ ∅ ∅ (trace_channels e) None.

(** The environment of the caller is moved, not copied; [eh] calls the client's
    handler, if there is one. *)
Definition thespian_context_spawn_link (b : C) (eh : Z) (name : bytes) (p : eptr) : cm (Z * option hptr) :=
  dolet e := env_or_empty p in
  cput (put_env p (moved_env e)) ;;!
  dolet r := call_spawn (OContextSpawnLink b (Some eh) name e) in spawned r.
Definition thespian_context_on_last_exit (h : Z) : cm unit :=
  dolet _a := call (OOnLastExit (Some h)) in cret ().

(** *** The debug server ([debug.cpp]) *)

Definition set_error (msg : bytes) : cm unit :=
  cput (set_tls (set_msg msg)) ;;! thespian_set_last_error (Some PErrorMsg).

Definition to_c_result (ret : handle + bytes) : cm (Z * option hptr) :=
  match ret with
  | inr e =>
      match to_json e with
      | Ok j => set_error j ;;! cret (-1, None)
      | Throw e => cthrow (ThrowStd (what e))
      end
  | inl h => dolet p := new_handle h in cret (0, Some p)
  end.

Definition set_error_guarded (unknown : bytes) (body : cm (Z * option hptr)) : cm (Z * option hptr) :=
  try_catch body
    (λ e, dolet msg := cget (λ s, exceptions (c_tls s) !! e) in
          dolet msg := must msg in
          set_error msg ;;! cret (-1, None))
    (set_error unknown ;;! cret (-1, None)).

Definition thespian_debug_enable : cm unit := dolet _a := call ODebugEnable in cret ().
Definition thespian_debug_disable : cm unit := dolet _a := call ODebugDisable in cret ().
Definition thespian_debug_isenabled : cm bool := cget (λ s, isenabled (cw s)).

(** [create] is [debug::tcp::create] or [debug::unx::create]. *)
Definition thespian_debug_tcp_create (create : bytes → cm (handle + bytes)) (prompt : option bytes) : cm (Z * option hptr) :=
  set_error_guarded (str "unknown thespian_debug_tcp_create error")
    (dolet r := create (default [] prompt) in to_c_result r).
Definition thespian_debug_unx_create (create : mode → bytes → cm (handle + bytes)) (abstract : bool) (prompt : option bytes)
  : cm (Z * option hptr) :=
  set_error_guarded (str "unknown thespian_debug_unx_create error")
    (dolet r := create (to_cpp_mode abstract) (default [] prompt) in to_c_result r).

(** *** Tracing and JSON ([trace.cpp], [src/src/cbor.cpp]) *)

Definition thespian_on_trace (h : Z) : cm unit := dolet _a := call (OOnTrace (Some h)) in cret ().

(** The text that the callback gets. *)
Definition cbor_to_json (buf : bytes) : cm bytes :=
  match to_json buf with Ok j => cret j | Throw e => cthrow (ThrowStd (what e)) end.
End runtime.
