(* ===== verification/CApiTheorems.v ===== *)
(** * What the C API promises *)
From S2P Require Import Prelude CborEncode Ieee CborDecode CborMatch CppText CborJson Env Instance InstanceInv Actors CApi.

Section theorems.
Context {U C : Type}.
Implicit Types (s : cstate U C).
Abbreviation cm := (cm U C).

(** What a sequence of two calls does. *)
Lemma cbind_ret {A B} (m : cm A) (k : A → cm B) s s1 a : m s = (s1, CRet a) → cbind m k s = k a s1.
Proof. unfold cbind. by intros ->. Qed.
Lemma cbind_throw {A B} (m : cm A) (k : A → cm B) s s1 t : m s = (s1, CThrow t) → cbind m k s = (s1, CThrow t).
Proof. unfold cbind. by intros ->. Qed.

(** What [thespian_get_last_error] gives and what can be read there. *)
Definition last_text (s : cstate U C) : option bytes :=
  match last_error (c_tls s) with Some p => read_text (c_tls s) p | None => None end.

(** ** Errors *)

(** A function of the C API that catches exceptions passes a result on and
    leaves the last error alone; where the call throws, it returns its error
    value.  But the text of a [std::exception] cannot be read: the last error
    points into the exception object, which is gone when the function returns.
    Only the text for other exceptions can. *)
Theorem guarded_errors {A} unknown (failed : A) (body : cm A) s :
  match body s with
  | (s1, CThrow (ThrowStd _)) =>
      ∃ s2, guarded unknown failed body s = (s2, CRet failed) ∧
        last_error (c_tls s2) ≠ None ∧ last_text s2 = None ∧ cw s2 = cw s1
  | (s1, CThrow ThrowOther) =>
      ∃ s2, guarded unknown failed body s = (s2, CRet failed) ∧ last_text s2 = Some unknown ∧ cw s2 = cw s1
  | r => guarded unknown failed body s = r
  end.
Proof.
  unfold guarded, try_catch. destruct (body s) as [s1 [a|[w|]| |]]; try done.
  - eexists. split; [reflexivity|]. split; [done|]. split; [|done]. cbn. by rewrite lookup_delete_eq.
  - eexists. split; [reflexivity|]. done.
Qed.

Lemma set_error_guarded_spec unknown (body : cm (Z * option hptr)) s s1 a :
  body s = (s1, CRet a) → set_error_guarded unknown body s = (s1, CRet a).
Proof. unfold set_error_guarded, try_catch. by intros ->. Qed.

Lemma set_error_guarded_throw unknown (body : cm (Z * option hptr)) s s1 t :
  body s = (s1, CThrow t) →
  ∃ s2, set_error_guarded unknown body s = (s2, CRet (-1, None)) ∧
    last_text s2 = Some (match t with ThrowStd w => w | ThrowOther => unknown end).
Proof.
  unfold set_error_guarded, try_catch. intros ->. destruct t as [w|]; [|by eexists].
  unfold cbind, enter_catch, cget, must. cbn. rewrite lookup_insert_eq. by eexists.
Qed.

(** The functions of the debug server keep the text themselves, so it can be
    read until the next error: the text of the exception, or the JSON of the
    error that was returned. *)
Theorem debug_errors_readable unknown (create : cm (handle + bytes)) s :
  let f := set_error_guarded unknown (cbind create to_c_result) in
  match create s with
  | (s1, CThrow (ThrowStd w)) => ∃ s2, f s = (s2, CRet (-1, None)) ∧ last_text s2 = Some w
  | (s1, CThrow ThrowOther) => ∃ s2, f s = (s2, CRet (-1, None)) ∧ last_text s2 = Some unknown
  | (s1, CRet (inr e)) =>
      ∃ s2, f s = (s2, CRet (-1, None)) ∧
        last_text s2 = Some (match to_json e with Ok j => j | Throw x => what x end)
  | (s1, CRet (inl h)) => ∃ s2 p, f s = (s2, CRet (0, Some p)) ∧ get_handle s2 p = Some h
  | _ => True
  end.
Proof.
  cbn zeta. destruct (create s) as [s1 [[h|e]|t| |]] eqn:E; try done.
  - eexists _, _. split; [apply set_error_guarded_spec; by rewrite (cbind_ret _ _ _ _ _ E)|].
    cbn. by rewrite lookup_insert_eq.
  - pose proof (cbind_ret _ to_c_result _ _ _ E) as H. cbn in H.
    destruct (to_json e) as [j|x] in H |- *.
    + eexists. split; [apply set_error_guarded_spec; exact H|]. done.
    + by apply (set_error_guarded_throw unknown) in H.
  - apply (cbind_throw _ to_c_result), (set_error_guarded_throw unknown) in E as H. by destruct t.
Qed.

(** ** Results *)

(** The result of a send points to the error until the next send of the thread
    fails, whose error then appears in both; the result of [thespian_exit] is
    in memory of its own and survives sends. *)
Theorem results_share_memory (r1 r2 : bytes) status s :
  ∃ s1 s2 s3 p1 p2 px,
    thespian_exit status s = (s1, CRet (Some px)) ∧
    to_thespian_result (Some r1) s1 = (s2, CRet (Some p1)) ∧
    to_thespian_result (Some r2) s2 = (s3, CRet (Some p2)) ∧
    read_result (c_tls s2) p1 = r1 ∧ read_result (c_tls s3) p2 = r2 ∧ read_result (c_tls s3) p1 = r2 ∧
    read_result (c_tls s3) px = exit_message status [].
Proof. by do 6 eexists. Qed.

(** A receiver of C code: its error is copied before the function returns, so
    that of [thespian_exit] becomes the result of the actor; the handle to the
    sender that it is given is gone afterwards. *)
Theorem receiver_result (r : hptr → bytes → cm (option result_ptr)) from msg s s1 ret :
  let n := c_next s in
  r (HLocal n) msg (set_next (S n) (set_handles (<[n := from]> (c_handles s)) s)) = (s1, CRet ret) →
  ∃ s2, run_receiver r from msg s = (s2, CRet (read_result (c_tls s1) <$> ret)) ∧
    deref (HLocal n) s2 = (s2, CUndefined) ∧ cw s2 = cw s1 ∧
    (∀ k, k ≠ n → c_handles s2 !! k = c_handles s1 !! k).
Proof.
  intros n Hr. unfold run_receiver. fold n. rewrite (cbind_ret _ _ _ _ _ Hr). cbn.
  eexists. split; [by destruct ret|]. unfold deref. cbn. rewrite lookup_delete_eq.
  split; [done|]. split; [done|]. intros k Hk. by rewrite lookup_delete_ne.
Qed.

(** ** Handles *)

(** A clone is a handle of its own: destroying the original leaves it, and
    the original is then gone (a second destroy is undefined). *)
Theorem handle_clone_independent n h s :
  c_handles s !! n = Some h → c_handles s !! c_next s = None →
  ∃ s1 q s2, thespian_handle_clone (HNew n) s = (s1, CRet q) ∧
    thespian_handle_destroy (HNew n) s1 = (s2, CRet ()) ∧
    deref q s2 = (s2, CRet h) ∧
    thespian_handle_destroy (HNew n) s2 = (s2, CUndefined) ∧
    cw s2 = cw s.
Proof.
  intros Hn Hf. assert (n ≠ c_next s) as Hne by congruence.
  unfold thespian_handle_clone, cbind, deref. cbn. rewrite Hn. unfold new_handle.
  eexists _, _, _. split; [reflexivity|]. cbn.
  rewrite lookup_insert_ne, Hn by done. split; [reflexivity|]. cbn.
  by rewrite lookup_delete_ne, lookup_insert_eq, lookup_delete_eq by done.
Qed.

(** [thespian_handle_from_id] finds the actor with an identity while it
    exists, and gives null otherwise; the new handle has that identity and is
    not expired. *)
Theorem handle_from_id (cur : option Z) id s :
  wf (cw s) →
  match insts (cw s) !! id with
  | Some _ => ∃ s1 p, thespian_handle_from_id cur id s = (s1, CRet p) ∧ p ≠ HNull ∧
      thespian_handle_id p s1 = (s1, CRet id) ∧ thespian_handle_is_expired cur p s1 = (s1, CRet false)
  | None => thespian_handle_from_id cur id s = (s, CRet HNull)
  end.
Proof.
  intros Hw. destruct s as [w hs es n t]. cbn in *. pose proof (wf_table _ _ Hw id) as Ht.
  unfold thespian_handle_from_id, call_handle, call_bool, call. unfold cbind. cbn.
  unfold instance_by_id. rewrite Ht. destruct (insts w !! id) as [x|] eqn:E; cbn.
  - unfold make_handle, expired, lock. cbn. rewrite E. cbn. eexists _, _. split; [reflexivity|].
    split; [done|]. unfold thespian_handle_id, thespian_handle_is_expired, call_bool, call, cbind, deref. cbn.
    rewrite lookup_insert_eq. cbn. unfold expired, lock. cbn. by rewrite E.
  - done.
Qed.

(** The identity of a handle outlives the actor: [thespian_handle_id] of an
    expired handle is not 0. *)
Theorem handle_id_expired (cur : option Z) n i s :
  wf (cw s) → c_handles s !! n = Some (self_handle i) → i ≠ 0 → insts (cw s) !! i = None →
  thespian_handle_is_expired cur (HNew n) s = (s, CRet true) ∧
  thespian_handle_id (HNew n) s = (s, CRet i) ∧
  thespian_handle_from_id cur i s = (s, CRet HNull).
Proof.
  intros Hw Hn Hi E. destruct s as [w hs es m t]. cbn in *. pose proof (wf_table _ _ Hw i) as Ht.
  unfold thespian_handle_is_expired, thespian_handle_id, thespian_handle_from_id, call_handle, call_bool, call, cbind, deref.
  cbn. rewrite Hn. cbn. unfold instance_by_id, expired, lock. cbn. rewrite Ht, E. done.
Qed.

(** ** Environments *)

Lemma call_envs (cur : option Z) o s :
  c_envs (call cur o s : cstate U C * _).1 = c_envs s.
Proof. unfold call. by destruct (exec _ _ _) as [w []]. Qed.

Lemma call_spawn_envs (cur : option Z) (o : op U C) s :
  c_envs ((dolet r := call_spawn cur o in spawned r)%cm s).1 = c_envs s.
Proof.
  pose proof (call_envs cur o s) as H. unfold call_spawn, cbind, spawned.
  destruct (call cur o s) as [s1 [a|t| |]]; cbn in H |- *; try done.
  by destruct a as [| | | | |[]| | | | |].
Qed.

Lemma spawn_env w cur b eh name lnk e :
  wf w → ∃ x, insts (spawn (w : world U C) cur b eh name lnk e).1 !! next_instance_id w = Some x ∧ i_env x = e.
Proof.
  intros Hw. set (i := next_instance_id w). unfold spawn. fold i.
  pose proof (wf_construct w b eh name e Hw) as Hw1.
  assert (∃ x, insts (construct w b eh name e) !! i = Some x ∧ i_env x = e ∧ i_in_shutdown x = false)
    as (x & Hx & He & Hs) by (eexists; split; [apply lookup_insert_eq|done]).
  set (w1 := construct w b eh name e) in *.
  pose proof (grows_do_trace w1 i ch_lifetime [AString (str "spawn")]) as Hg.
  set (w2 := do_trace _ _ _ _) in *. assert (insts w2 !! i = Some x) as Hx2 by by rewrite (g_insts _ _ Hg).
  assert (make_handle w2 (Some i) = self_handle i) as -> by (unfold make_handle, lock; by rewrite Hx2).
  exists x. split; [|done]. destruct (expired w2 lnk).
  - pose proof (schedule_spec w2 cur i x (wf_grows _ _ _ Hw1 Hg) Hx2 Hs) as H.
    destruct (schedule _ _ _ _) as [w' r]. destruct H as (_ & _ & Hi' & _). cbn. by rewrite Hi'.
  - pose proof (queue_spec w2 cur i (make_handle w2 lnk) link_msg x Hx2) as [Hg3 Hq]. rewrite Hs in Hq.
    destruct (queue _ _ _ _ _) as [w3 r3]. cbn [fst snd] in *. destruct Hq as [-> _].
    pose proof (schedule_spec w3 cur i x) as H. rewrite (g_insts _ _ Hg3) in H.
    specialize (H (wf_grows _ _ _ (wf_grows _ _ _ Hw1 Hg) Hg3) Hx2 Hs).
    destruct (schedule _ _ _ _) as [w' r]. destruct H as (_ & _ & Hi' & _). cbn. by rewrite Hi'.
Qed.

(** An actor that C code spawns has the environment it was given.
    [thespian_context_spawn_link] moves it out of the caller's (the other two copy,
    see [spawn_copies_env]): of the caller's environment only the set of channels is left. *)
Theorem context_spawn_moves_env n e b eh name s :
  wf (cw s) → c_envs s !! n = Some e →
  let i := next_instance_id (cw s) in
  ∃ s1 p x, thespian_context_spawn_link None b eh name (ENew n) s = (s1, CRet (0, Some p)) ∧
    deref p s1 = (s1, CRet (self_handle i)) ∧ insts (cw s1) !! i = Some x ∧ i_env x = e ∧
    c_envs s1 !! n = Some (moved_env e).
Proof.
  intros Hw He i. pose proof (spawn_spec (cw s) None b (Some eh) name None e Hw) as H. cbv zeta in H.
  pose proof (spawn_env (cw s) None b (Some eh) name None e Hw) as (x & Hx & Hxe).
  unfold thespian_context_spawn_link, env_or_empty, call_spawn, call. unfold cbind, cput, spawned.
  cbn -[spawn]. rewrite He. cbn -[spawn]. destruct (spawn _ _ _ _ _ _ _) as [w' r]. destruct H as (-> & _). cbn.
  unfold deref. cbn. eexists _, _, x. split; [reflexivity|]. cbn. rewrite !lookup_insert_eq. done.
Qed.

(** The other two leave the caller's environment as it is. *)
Theorem spawn_copies_env cur n b name s :
  c_envs (thespian_spawn cur b name (ENew n) s : cstate U C * _).1 = c_envs s ∧
  c_envs (thespian_spawn_link cur b name (ENew n) s : cstate U C * _).1 = c_envs s.
Proof.
  unfold thespian_spawn, thespian_spawn_link, env_or_empty. unfold cbind at 1 3. cbn.
  destruct (c_envs s !! n); [|done]. split; apply call_spawn_envs.
Qed.
End theorems.

(** ** Durations *)

(** A number of milliseconds up to about 292,000 years becomes that many
    microseconds.  Beyond, the conversion overflows a signed number, which is
    undefined, except that the last 2^63/1000 numbers of [uint64_t] become
    negative durations: a timeout of them expires at once. *)
Theorem duration_ms_bounds ms :
  0 <= ms < 2 ^ 64 →
  duration_ms ms =
    if ms <=? 2 ^ 63 / 1000 then Some (ms * 1000)
    else if ms <? 2 ^ 64 - 2 ^ 63 / 1000 then None
    else Some ((ms - 2 ^ 64) * 1000).
Proof.
  intros Hms. unfold duration_ms. change (2 ^ 63 / 1000) with 9223372036854775.
  assert (s64 ms = if ms <? 2 ^ 63 then ms else ms - 2 ^ 64) as Hs.
  { destruct (Z.ltb_spec ms (2 ^ 63)); [by apply s64_small; unfold is_s64; lia|].
    rewrite <- (s64_small (ms - 2 ^ 64)) by (unfold is_s64; lia).
    replace ms with (ms - 2 ^ 64 + 1 * 2 ^ 64) at 1 by lia. by rewrite s64_wrap. }
  rewrite Hs. unfold is_s64.
  destruct (Z.ltb_spec ms (2 ^ 63)), (Z.leb_spec ms 9223372036854775);
    try destruct (Z.ltb_spec ms (2 ^ 64 - 9223372036854775)); case_decide; try done; lia.
Qed.

(** ** Examples *)

Section examples.
Let w0 : world unit unit := context_create ().
Let w1 : world unit unit := (spawn w0 None () None (str "a") None env_empty).1.
Let at_world (w : world unit unit) : cstate unit unit := CState w ∅ ∅ 0 tls_init.
Let e1 : env_t := set_env_num env_empty (str "n") 7.

Lemma receiver_result_witness :
  let r := λ (_ : hptr) (_ : bytes), thespian_exit (U:=unit) (C:=unit) (str "done") in
  let s := at_world w0 in
  ∃ s1, r (HLocal 0) [] (set_next 1 (set_handles (<[0%nat := self_handle 5]> ∅) s)) = (s1, CRet (Some PExitErrorBuf)) ∧
  ∃ s2, run_receiver r (self_handle 5) [] s = (s2, CRet (Some (exit_message (str "done") []))) ∧
    deref (HLocal 0) s2 = (s2, CUndefined).
Proof.
  intros r s. eexists. split; [reflexivity|].
  destruct (receiver_result r (self_handle 5) [] s _ (Some PExitErrorBuf) eq_refl) as (s2 & H1 & H2 & _).
  exists s2. by split.
Defined.

Lemma handle_clone_independent_witness :
  let s := CState w0 (<[0%nat := self_handle 1]> ∅) ∅ 1 tls_init in
  ∃ s1 q s2, thespian_handle_clone (HNew 0) s = (s1, CRet q) ∧
    thespian_handle_destroy (HNew 0) s1 = (s2, CRet ()) ∧ deref q s2 = (s2, CRet (self_handle 1)).
Proof.
  intros s. destruct (handle_clone_independent 0 (self_handle 1) s) as (s1 & q & s2 & H1 & H2 & H3 & _);
    [reflexivity|reflexivity|]. by exists s1, q, s2.
Defined.

Lemma handle_from_id_witness :
  ∃ s1 p, thespian_handle_from_id None 1 (at_world w1) = (s1, CRet p) ∧ p ≠ HNull ∧
    thespian_handle_id p s1 = (s1, CRet 1).
Proof.
  assert (wf (cw (at_world w1))) as Hw.
  { pose proof (spawn_spec w0 None () None (str "a") None env_empty (context_create_wf ())) as H.
    cbn -[spawn] in H |- *. unfold w1. destruct (spawn _ _ _ _ _ _ _). by destruct H as (_ & ? & _). }
  pose proof (handle_from_id None 1 (at_world w1) Hw) as H.
  assert (is_Some (insts (cw (at_world w1)) !! 1)) as [x Hx] by (eexists; vm_compute; reflexivity).
  rewrite Hx in H. destruct H as (s1 & p & H1 & H2 & H3 & _). by exists s1, p.
Defined.

Lemma handle_id_expired_witness :
  let s := CState w0 (<[0%nat := self_handle 3]> ∅) ∅ 1 tls_init in
  thespian_handle_is_expired None (HNew 0) s = (s, CRet true) ∧ thespian_handle_id (HNew 0) s = (s, CRet 3).
Proof.
  intros s. destruct (handle_id_expired None 0 3 s) as (H1 & H2 & _);
    [apply context_create_wf|reflexivity|lia|reflexivity|]. by split.
Defined.

Lemma context_spawn_moves_env_witness :
  let s := CState w0 ∅ (<[0%nat := e1]> ∅) 1 tls_init in
  ∃ s1 p x, thespian_context_spawn_link None () 4 (str "a") (ENew 0) s = (s1, CRet (0, Some p)) ∧
    insts (cw s1) !! 1 = Some x ∧ (env_num (i_env x) (str "n")).1 = 7 ∧ c_envs s1 !! 0%nat = Some (moved_env e1).
Proof.
  intros s. destruct (context_spawn_moves_env 0 e1 () 4 (str "a") s) as (s1 & p & x & H1 & _ & H2 & H3 & H4);
    [apply context_create_wf|reflexivity|]. exists s1, p, x. rewrite H3. by split_and!.
Defined.

Lemma duration_ms_bounds_witness :
  duration_ms 5 = Some 5000 ∧ duration_ms (2 ^ 64 - 1) = Some (- 1000) ∧ duration_ms (2 ^ 62) = None.
Proof. split_and!; rewrite duration_ms_bounds by lia; reflexivity. Defined.
End examples.
