(* ===== verification/CContexts.v ===== *)
(** * Contexts and trace files of the C API

    The functions of [src/src/c/context.cpp] that make and run a context, over the
    threads of [Descriptors], and those of [src/src/c/trace.cpp] that open a trace
    file, over the files of [Trace]. *)
From S2P Require Import Prelude Trace Descriptors CborEncode Ieee CborDecode CborMatch CppText CborJson Env Instance Actors CApi.
#[local] Open Scope cm_scope.

(** ** Contexts *)

(** [context::dtor] *)
Inductive dtor : Type := context_impl_destroy.

(** A new context, the runtime in it, and what was stored through [d]; [None]: the
    program aborts. *)
Definition created {U C} (u : U) (c : option Descriptors.context) : option (Descriptors.context * world U C * dtor) :=
  c ← c; Some (c, context_create u, context_impl_destroy).

Definition thespian_context_create {U C} (u : U) (sigpipe_ok : bool) (min_env max_env : option bytes) (processors : Z) :=
  created (C:=C) u (Descriptors.context_create sigpipe_ok min_env max_env processors).
Definition thespian_context_create_with_threads {U C} (u : U) (sigpipe_ok : bool) (thread_count : Z) :=
  created (C:=C) u (Descriptors.context_create_with sigpipe_ok thread_count).
Definition thespian_context_run (ctx : Descriptors.context) := Descriptors.context_run ctx.

(** ** Trace files *)

Section traces.
Context {U C : Type} (cur : option Z).

(** The file is made first; [h] is the closure that pushes on it. *)
Definition opens (f : Trace.world) (h : Z) : cm U C Trace.world :=
  dolet _a := call cur (OOnTrace (Some h)) in cret f.

Definition thespian_trace_to_json_file (h : Z) := opens Trace.json_file h.
Definition thespian_trace_to_cbor_file (h : Z) := opens Trace.cbor_file h.
Definition thespian_trace_to_mermaid_file (h : Z) := opens Trace.mermaid_file h.

(** An actor that opens a trace file has the file's closure as its handler, in place
    of the one it had: whatever its environment traces from then on goes there.
    Outside of an actor the call throws, through the C function. *)
Theorem trace_file_handles h m s :
  match cur with
  | Some i =>
      ∀ x, insts (cw s) !! i = Some x →
      ∃ s1, thespian_trace_to_json_file h s = (s1, CRet Trace.json_file) ∧
        (thespian_env_trace (EInstance i) m s1).2 = CRet (Some (h, m)) ∧
        ∀ j, j ≠ i → insts (cw s1) !! j = insts (cw s) !! j
  | None => thespian_trace_to_json_file h s = (s, CThrow (ThrowStd context_error))
  end.
Proof.
  unfold thespian_trace_to_json_file, opens, cbind, call. destruct cur as [i|]; [|by destruct s].
  intros x Hx. cbn. rewrite Hx. cbn. eexists. split; [reflexivity|].
  unfold thespian_env_trace, to_env, get_env, upd. cbn. split.
  - by rewrite lookup_alter_eq, Hx.
  - intros j Hj. by rewrite lookup_alter_ne.
Qed.
End traces.

(** A context of three threads, made and run. *)
Example c_context_runs :
  ∃ c w d, thespian_context_create_with_threads (C:=unit) () true 3 = Some (c, w, d) ∧ w = context_create () ∧
    thespian_context_run c true (λ _, true) 100000 16384 4096 [Some 11; Some 12] =
      Descriptors.Returned [Descriptors.TSetStack 102400; Descriptors.TCreate 11; Descriptors.TCreate 12;
        Descriptors.TRun; Descriptors.TJoin 11; Descriptors.TJoin 12].
Proof. eexists _, _, _. by split_and!. Qed.
